(* ===== verification/_CoqProject ===== *)
-Q . S2P
Prelude.v
GoStrings.v
Model.v
StreamCodec.v
StreamLimits.v
StreamDecider.v
StreamDeciderFacts.v
StreamLegacy.v
StreamToken.v
StreamLimiter.v
PlayQueue.v
PlaybackDevice.v
PlaybackFacts.v
AuthLimiter.v
Throttle.v
GoFloat.v
PlayTracker.v
PlayTrackerFacts.v
BufferedScrobbler.v
QuickConnect.v
Natural.v
ShellQuote.v
Commands.v
FlacHeader.v
GoText.v
Criteria.v
CriteriaSql.v
CriteriaSqlFacts.v
CriteriaFacts.v
FloatFacts.v
Matcher.v
MatcherFacts.v
MatcherSpec.v
SimpleCache.v
SimpleCacheFacts.v
PlaylistDb.v
PlaylistTracks.v
PlaylistSpec.v
PlaylistOrphans.v
PlaylistService.v
PlaylistAccess.v
PlaylistEdits.v
SmartRefresh.v
SmartRefreshFacts.v
TaskQueue.v
TaskQueueFacts.v
KVStore.v
KVStoreFacts.v
ScannerMoves.v
ScannerMovesFacts.v
PlaylistImport.v
PathFacts.v
PlaylistImportFacts.v
GoJson.v
EventBroker.v
EventBrokerFacts.v
Agents.v
AgentsFacts.v
ScannerWalk.v
ScannerWalkFacts.v
Lyrics.v
LyricsFacts.v
