(* ===== verification/Prelude.v ===== *)
(** * A verification development for the Noorify music server

    Noorify streams a music library to clients of several protocols.  This
    library models the parts of the server that decide, count, limit and
    order things, and proves what makes them correct.  Paths below are under
    [src/]; every definition keeps the name of the function, method or type
    it translates.

    ** The program's parts and the files that model them

    - Streaming ([core/stream]).  A client declares what it can play; the
      decider compares that with the file and answers direct play, a
      transcoding, or an error; the answer travels through the client as a
      signed token, and a limiter caps the transcodes that run at once.
      [StreamCodec] holds the capabilities and codec rules ([types.go],
      [codec.go], [aliases.go]), [StreamLimits] the codec limitations
      ([limitations.go]), [StreamDecider] the decision ([decider.go]),
      [StreamLegacy] the requests of clients without capabilities
      ([legacy_client.go]), [StreamToken] the tokens ([token.go] with
      [core/auth/auth.go]), [StreamLimiter] the limiter ([limiter.go]).
      [StreamDeciderFacts] proves the theorems on decisions.
    - Command lines ([core/ffmpeg/ffmpeg.go], [core/playback/mpv/mpv.go],
      [utils/shellquote]).  [Commands] models the arguments the transcoder and
      the player are started with, [ShellQuote] the splitting of a template,
      [FlacHeader] the repair of the header of a piped FLAC stream
      ([core/ffmpeg/flac_streaminfo.go]).
    - Jukebox ([core/playback]).  [PlayQueue] models [queue.go] and
      [PlaybackDevice] the device of [device.go], one function per command and
      one for the end of a track, with the device table of
      [playbackserver.go].  [PlaybackFacts] proves the theorems.
    - Scrobbling ([core/scrobbler]).  [PlayTracker] models the sessions,
      submissions and plugin refresh of [play_tracker.go] and the two worker
      queues; [PlayTrackerFacts] proves the theorems; [BufferedScrobbler] is the
      retry queue of [buffered_scrobbler.go].  [GoFloat] gives the floating
      point the play threshold is computed with.
    - Front door ([server]).  [AuthLimiter] models the login limiter
      ([subsonic/auth_limiter.go]), [Throttle] the request throttle and its
      response buffer ([throttle_backlog.go]), [QuickConnect] the sign-in by
      code ([core/quickconnect]).
    - Playlists ([persistence/playlist_repository.go],
      [playlist_track_repository.go], [core/playlists]).  [PlaylistDb] models the
      tables and the statements that change them, each of which may fail;
      [PlaylistTracks] and [PlaylistSpec] show that they implement operations on
      lists, [PlaylistOrphans] the removal of songs that left the library.
      [PlaylistService] is the service in front, with its permission
      checks and transactions ([playlists.go], [rest_adapter.go]);
      [PlaylistAccess] proves who changes what and [PlaylistEdits] that edits are
      all or nothing.
    - Smart playlists ([model/criteria], [persistence/criteria_sql.go],
      [smart_playlist_repository.go]).  [Criteria] holds the rules, [CriteriaSql]
      their translation to SQL, [CriteriaSqlFacts] and [CriteriaFacts] what the
      translation means to a database, [SmartRefresh] the refresh of a playlist
      and of those it refers to, [SmartRefreshFacts] its theorem.
    - Track matching ([core/matcher]).  [Matcher] models the matching of songs
      named by metadata agents with tracks of the library, with the text
      functions of [utils/str]; [MatcherFacts] and [MatcherSpec] prove it against
      a specification song by song.
    - Loading cache ([utils/cache/simple_cache.go]).  [SimpleCache] models the
      cache, its calls as interleaved steps; [SimpleCacheFacts] proves the
      theorems, among them that it is the cache [PlayTracker] relies on.
    - Order of titles ([utils/natural]).  [Natural].
    - Playlist files ([core/playlists/parse_m3u.go], [model/library_matcher.go]).
      [PlaylistImport] models the import of M3U files, path resolution, lookup
      and images included, and the export; [PlaylistImportFacts] proves it.
      [PathFacts] holds the lemmas on paths it shares with the scanner.
    - Scanner ([scanner]).  [ScannerWalk] models the first phase of a scan
      ([walk_dir_tree.go], [ignore_checker.go], [folder_entry.go],
      [phase_1_folders.go] with [persistence/folder_repository.go]): the walk
      through the folders of a library with its ignore patterns and links, which
      folders and files are imported, and which are marked as missing;
      [ScannerWalkFacts] proves it.  [ScannerMoves] models the
      search for files that were moved ([phase_2_missing_tracks.go]), with the
      statements it runs, their failures, transactions and retries;
      [ScannerMovesFacts] proves it.
    - Lyrics ([model/lyrics_lrc.go], [lyrics_normalize.go], [lyrics_srt.go]).
      [Lyrics] models the LRC and SubRip parsers, the bytes of a line that word
      cues stand for and the resolution of their ends; [LyricsFacts] proves it.
    - Plugins ([plugins/host_taskqueue.go], [host_kvstore.go]).  [TaskQueue] models
      the task queue a plugin is given, its workers, shutdown and restart, and
      [KVStore] its key-value store; [TaskQueueFacts] and [KVStoreFacts] prove
      them.
    - Events ([server/events], [utils/pl]).  [EventBroker] models the broker of
      server-sent events: its listener, the handlers of the connections and the
      bytes they write; [EventBrokerFacts] proves it, and [GoJson] is the JSON of
      the events.
    - Metadata agents ([core/agents]).  [Agents] models which agents are enabled,
      the order they are asked in and the cooldowns requests share;
      [AgentsFacts] proves it.
    - [Model] holds the rows these parts share ([model/mediafile.go],
      [model/player.go], [model/transcoding.go]); [GoStrings] and [GoText] the
      string functions of Go; [FloatFacts] the order of floating-point numbers;
      this file Go's error results, 64-bit integers, generic
      lemmas and tactics.

    ** How the code is represented

    A function returning an error is a function into [result]; a possible
    panic is [None].  Integers are [Z], wrapped to 64 bits where the code can
    overflow.  Strings are [string], or lists of bytes where the code indexes
    them.  Where goroutines interleave ([StreamLimiter], [AuthLimiter],
    [Throttle], [TaskQueue], [EventBroker], [Agents]), each mutex section and each channel operation is one action of
    a step relation, and ghost counters record how many goroutines are between
    two actions; theorems hold in every reachable state.  Where objects are
    shared through pointers ([AuthLimiter], [QuickConnect], [SimpleCache]) they
    are cells of a heap.  A statement of the database is an action of a state
    monad over its tables, or a function of a fault; the faults say which
    statements fail.  The clock and random draws are arguments.

    Code outside the modelled files is a class, with what is relied on as its
    laws, and each theorem about it has an instance as a witness: [Env] (the
    database rows, ffprobe and configuration the decider reads), [TokenAuth]
    (the JWT library: a signed token decodes to its claims), [Track] (a player
    process), [SimpleCache] and [DataStore] (the session cache and the database
    of the play tracker), [ScrobbleBuffer] (the table of waiting scrobbles),
    [CriteriaEnv] (Unicode normalisation and number formatting), [Database] (what
    a condition means to SQLite), [MatcherEnv] and [MatcherStore] (the string
    metric and the queries of the matcher), [TTLCache] (the ttlcache library),
    [PlaylistEnv] and [RefreshEnv] (the order in which the engine visits rows, the
    totals, the media files a user reads and the answers to queries over them),
    [Sqlite] (the [LIKE] operator and dates of the key-value store), [ScanEnv] (the
    hash of a file), [ImportEnv] (Unicode normalisation, file types and settings
    of the import), [EventEnv] (the text of a time) and [AgentsEnv] (the table of
    built-in agents and the settings), [MusicFS] and [WalkEnv] (the file system of a
    library; ignore patterns, hashes, [LIKE] and settings of the scanner), with the
    laws [WalkLaws] and [LinkLaws], and [LyricsEnv] (the cleaning of markup and the
    order in which a sort leaves equal lines).

    ** What the theorems show

    - Decisions: direct play exactly when the client allows it; one of three
      outcomes; a transcoded stream within the limits of source, profile, codec
      and client; the same answer from stored probe data
      ([MakeDecision_direct_play], [MakeDecision_outcome],
      [computeTranscodedStream_bounds], [MakeDecision_bitrate],
      [computeTranscodedStream_upper_limits], [MakeDecision_probe_stable]).
    - Legacy requests: they always resolve, within the player's cap, in the
      requested format ([ResolveRequest_total], [resolve_player_cap],
      [ResolveRequest_explicit_format]).
    - Tokens: a round trip, bound to one version of one file
      ([token_roundtrip], [token_bound_to_file]); [token_epoch_refused] is the
      one file time for which they fail.
    - Limits: the caps hold under every interleaving and no slot is lost
      ([limiter_caps], [limiter_no_leak], [throttle_caps], [auth_window_bound],
      [auth_window_kept], [auth_no_leak], [acquire_correct]); buffering a
      response does not change it ([buffer_transparent]).
    - Command lines: exactly what was decided, and no value split
      ([ffmpeg_command], [mpv_command], [split_written]); the repaired FLAC
      stream ([flac_stream_repaired]).
    - Jukebox: no panic and no leaked player in any history, tracks in order,
      the current track kept by reordering ([device_safe],
      [device_plays_in_order], [device_skip], [queue_shuffle]).
    - Scrobbling: sessions never downgraded, plays counted exactly, filters
      respected, reports delivered in order, a terminating drain that loses
      nothing, and backoff ([session_stays_playing], [stopped_report],
      [report_counts_play], [filtered_report], [reports_delivered],
      [refresh_plugins], [get_now_playing], [user_queue_drained],
      [run_backs_off]).
    - Quick Connect: a secret is redeemed once, for the user who approved it,
      and the intended flow succeeds ([quick_connect_safe],
      [quick_connect_flow]).
    - Playlists: any sequence of edits leaves the rows numbered without gaps and
      equal to the list the operations describe, for every visiting order
      ([track_ops_refine]); only the owner or an administrator changes a
      playlist, and tracks of smart and synced ones stay ([playlist_access]);
      edits are all or nothing ([track_edits_atomic]); songs that left the
      library are removed in order ([orphans_removed]).
    - Smart playlists: the SQL selects exactly the tracks the criteria describe
      ([smart_playlist_selects]), merging conditions does not change it
      ([merge_equivalent]), the query joins what it reads ([joins_cover]), the
      field registry is consistent ([registry_consistent]); a refresh ends, in
      cycles too, touches only the user's smart playlists and writes the answer
      to the query ([smart_refresh]).
    - Matching: batches match as the priorities say for each song
      ([match_resolution]), and the list is in song order without repetitions
      ([match_songs_listed]).
    - Loading cache: one loader per key, one outcome per flight
      ([single_flight]), no caller waits forever ([loads_complete]), the laws
      the play tracker assumes ([tracker_cache_laws]).
    - [natural_total_order]: the collation is a total order up to folding.
    - Playlist files: an exported playlist is imported as it was ([m3u_roundtrip]);
      an image lies in a library, one its owner may use ([image_inside_library]).
    - Moved files: missing tracks take over new files that match them, one each,
      and keep their identity; nothing else changes, even when statements fail
      ([missing_tracks_moved]); no two rows share a place ([moved_places_unique]);
      the rows are grouped as the moves need them ([groups_by_pid]).
    - Library scans: the walk is a pure listing of the tree and keeps its stack of
      patterns ([walk_is_listing]), ends ([walk_terminates]), and sees in one
      folder what a walk of the library sees there ([selective_walk_agrees]); the
      folders and tracks marked as missing are exactly those the listing does not
      have ([scan_marks_missing]), and none when the phase fails
      ([failed_phase_marks_nothing]); a second scan has nothing to do
      ([rescan_imports_nothing]), and a full scan that was cut off goes on with what
      it had not stored ([full_scan_resumes]); files to import and tracks that are gone are told
      apart for every visiting order ([folder_files_sorted_out]).
    - Lyrics: every cue names its bytes ([cues_name_their_bytes]); ends are resolved
      within bounds, once and for all ([cue_ends_resolved]), for each agent apart
      ([agents_resolved_apart]); written lines and times are read back
      ([lrc_roundtrip], [srt_time_roundtrip]).
    - Plugins: two workers never hold one task, attempts and workers are bounded
      ([task_queue_invariant]); finished tasks stay finished
      ([terminal_tasks_final]); delays double up to an hour
      ([backoff_exponential]).  The store is a map with expiring keys
      ([kv_refines_map]) within its limit ([kv_limit_holds]), and prefixes select
      what they say ([kv_prefix]).
    - Events: a connection is offered the events addressed to it, in order, without
      a gap ([event_stream]); nobody sees events of another user
      ([events_stay_with_user]); browsers read back what was sent
      ([sse_roundtrip]); the listener never waits for a client
      ([broker_progress]).
    - Agents: the first usable answer wins and the error says whether to try again
      ([agents_fallback]); cooldowns hold under every interleaving
      ([cooldown_respected]); requests end ([dispatch_ends]).
    - Examples show where the code departs from what it means to do, among them
      [early_close_panics], [stale_group_duplicates_a_path],
      [overlapping_sets_exceed_the_limit], [case_collision], [demo_missing],
      [demo_selective_missing], [lrc_end_before_blank], [lrc_text_before_marker]
      and [end_overruns_next].

    ** Bounds and fuel

    Recursions that are not structural have fuel, each with a theorem that says
    how much is enough: [ResolveRequest] (two calls, since its fallback format is served by
    the first), [processUserQueue] (one more than the entries waiting) and
    [compare] of [Natural] (one more than the length of the first string).
    The splitting into chunks ([chunks], [Chunk]) has the length of the list, and
    [chunks_concat] says that nothing is lost.  The tree of
    [refreshSmartPlaylist] has one unit for every playlist, and [smart_refresh]
    says that it is enough.  [track_ops_refine] is for playlists that stay below
    999,999 entries, the number the code uses to set an entry aside.
    The retry loop of [newCode] is a recursion on the list of draws, and
    [quick_connect_flow] says how many are enough.  [LinesFrom] and the reader of
    event streams have the length of the text; every line takes at least one
    byte.  [retry_loop] makes the three attempts of the code.  The values of
    the key-value store are below 2^61 bytes, so that sums of sizes stay in 64
    bits.  Event numbers wrap at 2^64, and [event_stream] says so.  The walk of the
    scanner has one unit for every level of folders; [walk_terminates] says that two
    more than the depth of the tree are enough, and [isSymlinkedPath_all] that the
    length of a path is enough to look at every folder on it.  The trimming,
    splitting and searching of [Lyrics] have the length of the text, of which each
    round takes at least one byte.

    ** What is not modelled

    Strings are folded and, but for [Lyrics], trimmed as ASCII.  Process, socket,
    file and database I/O, HTTP routing, response formatting, the web client, the
    clients of remote services, artwork and the plugin host are left out: what they
    do is in the libraries and systems they call.  Of the scanner, reading tags and
    storing tracks, albums and artists are not modelled, nor the phases that refresh
    albums and import playlists, cancellation, and the process around a scan; the
    stages of a phase run one after the other on each item.  Of playlists, cover
    images, reads that format results and smart playlist files are not modelled; of
    criteria, the JSON form; of lyrics, TTML and the YAML form, which need models of
    XML and YAML documents, and with them the choice between formats. *)

From stdpp Require Export base list gmap sets strings pretty numbers.
From Stdlib Require Export Lia.

(** ** Go's two-valued returns

    A Go function that returns [(T, error)] is a function into [result E T]:
    [Ok] when the error is nil, [Err] otherwise. *)
Inductive result (E A : Type) : Type :=
| Ok (a : A)
| Err (e : E).
Arguments Ok {E A} a.
Arguments Err {E A} e.

Definition is_ok {E A} (r : result E A) : bool :=
  match r with Ok _ => true | Err _ => false end.

Definition result_bind {E A B} (r : result E A) (k : A -> result E B) : result E B :=
  match r with Ok a => k a | Err e => Err e end.

Declare Scope go_scope.
Delimit Scope go_scope with go.
Notation "'try' x := r 'in' k" := (result_bind r (fun x => k))
  (at level 10, x name, r at level 100, k at level 200) : go_scope.

(** ** Machine integers

    Go's [int] is a 64-bit two's complement integer on every platform the
    server is built for.  Values are kept as [Z]; the wrap-around is written
    where the code can reach it. *)
Definition int_min : Z := (- 2 ^ 63)%Z.
Definition int_max : Z := (2 ^ 63 - 1)%Z.
Definition in_int (z : Z) : Prop := (int_min <= z <= int_max)%Z.
Definition in_intb (z : Z) : bool := ((int_min <=? z) && (z <=? int_max))%Z.
Definition wrap64 (z : Z) : Z := ((z + 2 ^ 63) mod 2 ^ 64 - 2 ^ 63)%Z.

Lemma in_intb_spec z : in_intb z = true <-> in_int z.
Proof. unfold in_intb, in_int. rewrite andb_true_iff, !Z.leb_le. done. Qed.

Lemma wrap64_id z : in_int z -> wrap64 z = z.
Proof.
  unfold in_int, int_min, int_max, wrap64. intros H.
  rewrite Z.mod_small by lia. lia.
Qed.

Lemma wrap64_in_int z : in_int (wrap64 z).
Proof.
  unfold in_int, int_min, int_max, wrap64.
  pose proof (Z.mod_pos_bound (z + 2 ^ 63) (2 ^ 64) ltac:(lia)). lia.
Qed.

#[global] Arguments Z.gtb : simpl never.
#[global] Arguments Z.geb : simpl never.

(** ** Booleans and conditions *)
Create HintDb go.
Create Rewrite HintDb gostr.
Create Rewrite HintDb gobool.
#[export] Hint Rewrite andb_true_iff orb_true_iff negb_true_iff andb_false_iff
  orb_false_iff negb_false_iff Z.eqb_eq Z.eqb_neq Z.ltb_lt Z.ltb_ge Z.leb_le Z.leb_gt
  Nat.eqb_eq Nat.eqb_neq Nat.ltb_lt Nat.ltb_ge Nat.leb_le Nat.leb_gt
  String.eqb_eq String.eqb_neq Z.gtb_ltb Z.geb_leb bool_decide_eq_true bool_decide_eq_false
  : gobool.

(** Turns the boolean tests of the code into the propositions they decide. *)
Ltac bprop := autorewrite with gobool in *.

(** Case analysis on the innermost test of a conditional or match. *)
Ltac case_cond :=
  match goal with
  | |- context [if ?c then _ else _] =>
      lazymatch c with
      | context [if _ then _ else _] => fail
      | context [match _ with _ => _ end] => fail
      | _ => destruct c eqn:?
      end
  | H : context [if ?c then _ else _] |- _ =>
      lazymatch c with
      | context [if _ then _ else _] => fail
      | context [match _ with _ => _ end] => fail
      | _ => destruct c eqn:?
      end
  end.
Ltac case_conds := repeat (case_cond; simplify_eq/=).

(** Closes a goal about the code's tests: propositions, then arithmetic. *)
Ltac gsolve := bprop; try (naive_solver lia); try lia.

(** ** Reachability of a step relation *)
Section reach.
Context {S : Type} (step : S -> S -> Prop).

Inductive steps : S -> S -> Prop :=
| steps_refl s : steps s s
| steps_snoc s1 s2 s3 : steps s1 s2 -> step s2 s3 -> steps s1 s3.

Lemma steps_invariant (I : S -> Prop) s s' :
  (forall a b, I a -> step a b -> I b) -> I s -> steps s s' -> I s'.
Proof. intros Hstep Hs Hr. induction Hr; eauto. Qed.

Lemma steps_one a b : step a b -> steps a b.
Proof. intros H. eapply steps_snoc; [apply steps_refl | exact H]. Qed.

Lemma steps_trans a b c : steps a b -> steps b c -> steps a c.
Proof. intros H1 H2. induction H2; eauto using steps_snoc. Qed.
End reach.
#[export] Hint Constructors steps : go.
#[export] Hint Resolve steps_one steps_trans : go.

(** ** Lists *)

(** [slices.ContainsFunc]. *)
Definition contains_func {A} (f : A -> bool) (l : list A) : bool := existsb f l.

Lemma contains_func_true {A} (f : A -> bool) l :
  contains_func f l = true <-> exists x, x ∈ l /\ f x = true.
Proof.
  unfold contains_func. rewrite existsb_exists. setoid_rewrite list_elem_of_In. done.
Qed.

Lemma contains_func_false {A} (f : A -> bool) l :
  contains_func f l = false <-> forall x, x ∈ l -> f x = false.
Proof.
  rewrite <- not_true_iff_false, contains_func_true. split.
  - intros H x Hx. apply not_true_iff_false. intros Hf. apply H. eauto.
  - intros H (x & Hx & Hf). rewrite H in Hf; done.
Qed.

(** The first element that passes a test, with the ones it was preferred to. *)
Lemma list_split_find {A} (f : A -> bool) l x :
  List.find f l = Some x ->
  exists l1 l2, l = l1 ++ x :: l2 /\ f x = true /\ Forall (fun y => f y = false) l1.
Proof.
  induction l as [|y l IH]; simpl; [done|]. destruct (f y) eqn:E.
  - intros [= ->]. by exists [], l.
  - intros H. destruct (IH H) as (l1 & l2 & -> & Hx & Hl). exists (y :: l1), l2. auto.
Qed.

Lemma list_find_none {A} (f : A -> bool) l :
  List.find f l = None <-> forall x, x ∈ l -> f x = false.
Proof.
  split.
  - intros H x Hx. apply list_elem_of_In in Hx. by eapply find_none.
  - intros H. destruct (List.find f l) eqn:E; [|done].
    apply find_some in E as [Hin Hf]. rewrite H in Hf; [done|]. by apply list_elem_of_In.
Qed.

(** The elements of a list with their indexes, and those of a flattened map. *)
Lemma elem_indexed {A} (l : list A) i x : (i, x) ∈ zip (seq 0 (length l)) l <-> l !! i = Some x.
Proof.
  rewrite list_elem_of_lookup. split.
  - intros (j & Hj). apply lookup_zip_with_Some in Hj as (a & b & [= <- <-] & Ha & Hb).
    apply lookup_seq in Ha as [-> _]. done.
  - intros Hx. exists i. apply lookup_zip_with_Some. exists i, x. repeat split; [|done].
    apply lookup_seq. split; [done|]. by eapply lookup_lt_Some.
Qed.

Lemma elem_concat_fmap {A B} (f : A -> list B) l y : y ∈ concat (f <$> l) <-> exists x, x ∈ l /\ y ∈ f x.
Proof.
  rewrite list_elem_of_In, in_concat. split.
  - intros (ys & Hys & Hy). rewrite <- list_elem_of_In in Hys. apply list_elem_of_fmap in Hys as (x & -> & Hx).
    exists x. split; [done|]. by apply list_elem_of_In.
  - intros (x & Hx & Hy). exists (f x). rewrite <- !list_elem_of_In. split; [|done]. apply list_elem_of_fmap. eauto.
Qed.

(** ** Strings *)

Lemma string_app_cons c (s t : string) : String c s +:+ t = String c (s +:+ t).
Proof. reflexivity. Qed.
Lemma string_app_nil_l (s : string) : "" +:+ s = s.
Proof. reflexivity. Qed.
#[export] Hint Rewrite string_app_cons string_app_nil_l : gostr.

Lemma string_app_assoc (a b c : string) : (a +:+ b) +:+ c = a +:+ (b +:+ c).
Proof. induction a; autorewrite with gostr; congruence. Qed.
Lemma string_app_nil_r (a : string) : a +:+ "" = a.
Proof. induction a; autorewrite with gostr; congruence. Qed.
#[export] Hint Rewrite string_app_assoc string_app_nil_r : gostr.
