(* ===== verification/GoStrings.v ===== *)
(** * Go's string functions, as the server uses them

    A Go string is a sequence of bytes, here Rocq's [string].  The case
    functions of package [strings] are modelled on ASCII: a byte outside
    ['A'..'Z'] is left as it is.  Every name the modelled code compares this
    way (codecs, containers, OpenSubsonic enum values) is ASCII. *)

From S2P Require Import Prelude.
From Stdlib Require Import Ascii String.

Local Open Scope Z_scope.

(** ** Case *)
Definition byte_lower (c : ascii) : ascii :=
  let n := nat_of_ascii c in
  if (65 <=? n)%nat && (n <=? 90)%nat then ascii_of_nat (n + 32) else c.

(** [strings.ToLower]. *)
Fixpoint ToLower (s : string) : string :=
  match s with
  | EmptyString => EmptyString
  | String c s => String (byte_lower c) (ToLower s)
  end.

(** [strings.EqualFold]. *)
Definition EqualFold (a b : string) : bool := String.eqb (ToLower a) (ToLower b).

(** [strings.HasPrefix]. *)
Definition HasPrefix (s pre : string) : bool := String.prefix pre s.

(** [strings.Join]. *)
Fixpoint Join (l : list string) (sep : string) : string :=
  match l with
  | [] => ""
  | [x] => x
  | x :: l => x +:+ sep +:+ Join l sep
  end.

Lemma byte_lower_idemp c : byte_lower (byte_lower c) = byte_lower c.
Proof. destruct c as [[] [] [] [] [] [] [] []]; reflexivity. Qed.

Lemma ToLower_idemp s : ToLower (ToLower s) = ToLower s.
Proof. induction s as [|c s IH]; simpl; [done|]. by rewrite byte_lower_idemp, IH. Qed.
#[export] Hint Rewrite ToLower_idemp : gostr.

Lemma ToLower_empty s : ToLower s = "" <-> s = "".
Proof. by destruct s. Qed.

Lemma EqualFold_refl s : EqualFold s s = true.
Proof. apply String.eqb_refl. Qed.

Lemma EqualFold_sym a b : EqualFold a b = EqualFold b a.
Proof. apply String.eqb_sym. Qed.

Lemma EqualFold_spec a b : EqualFold a b = true <-> ToLower a = ToLower b.
Proof. apply String.eqb_eq. Qed.

Lemma EqualFold_trans a b c :
  EqualFold a b = true -> EqualFold b c = true -> EqualFold a c = true.
Proof. rewrite !EqualFold_spec. congruence. Qed.

Lemma EqualFold_ToLower_l a b : EqualFold (ToLower a) b = EqualFold a b.
Proof. unfold EqualFold. by rewrite ToLower_idemp. Qed.

(** Strings that differ only in case are one name to the code; [fold_eq] is
    that equivalence, and the case functions respect it. *)
Definition fold_eq (a b : string) : Prop := ToLower a = ToLower b.

#[export] Instance fold_eq_equivalence : Equivalence fold_eq.
Proof. split; unfold fold_eq; red; congruence. Qed.

#[export] Instance fold_eq_dec a b : Decision (fold_eq a b).
Proof. unfold fold_eq. apply _. Defined.

#[export] Instance ToLower_proper : Proper (fold_eq ==> eq) ToLower.
Proof. by intros a b H. Qed.

#[export] Instance EqualFold_proper : Proper (fold_eq ==> fold_eq ==> eq) EqualFold.
Proof. intros a b H c d H'. unfold EqualFold. by rewrite H, H'. Qed.

Lemma fold_eq_ToLower s : fold_eq (ToLower s) s.
Proof. apply ToLower_idemp. Qed.

(** ** Decimal integers: [strconv.Atoi] *)
Definition digit (c : ascii) : option Z :=
  let n := Z.of_nat (nat_of_ascii c) in
  if (48 <=? n) && (n <=? 57) then Some (n - 48) else None.

Fixpoint digits_value (acc : Z) (s : string) : option Z :=
  match s with
  | EmptyString => Some acc
  | String c s =>
      match digit c with
      | Some d => digits_value (10 * acc + d) s
      | None => None
      end
  end.

Definition unsigned_value (s : string) : option Z :=
  match s with EmptyString => None | _ => digits_value 0 s end.

(** An optional sign, at least one digit, nothing else, and a value that fits
    in 64 bits. *)
Definition Atoi (s : string) : option Z :=
  let v :=
    match s with
    | String "-" r => option_map Z.opp (unsigned_value r)
    | String "+" r => unsigned_value r
    | _ => unsigned_value s
    end in
  match v with
  | Some z => if in_intb z then Some z else None
  | None => None
  end.

Lemma Atoi_in_int s z : Atoi s = Some z -> in_int z.
Proof.
  unfold Atoi. intros H. case_match; [|done].
  case_cond; simplify_eq. by apply in_intb_spec.
Qed.

Example Atoi_plain : Atoi "320" = Some 320. Proof. reflexivity. Qed.
Example Atoi_signs : Atoi "-7" = Some (-7) /\ Atoi "+7" = Some 7. Proof. done. Qed.
Example Atoi_bad : Atoi "" = None /\ Atoi "12k" = None /\ Atoi "-" = None. Proof. done. Qed.
Example Atoi_range :
  Atoi "9223372036854775807" = Some int_max /\ Atoi "9223372036854775808" = None.
Proof. split; reflexivity. Qed.

(** [fmt.Sprint] of an [int]. *)
Definition Itoa (z : Z) : string := pretty z.

(** ** Paths: [filepath.Clean] and [filepath.Join] on a slash-separated system *)
Fixpoint split_slash (acc s : string) : list string :=
  match s with
  | EmptyString => [acc]
  | String c s =>
      if Ascii.eqb c "/" then acc :: split_slash "" s
      else split_slash (acc +:+ String c "") s
  end.

(** One path element against the (reversed) elements kept so far. *)
Definition clean_elem (rooted : bool) (out : list string) (e : string) : list string :=
  if String.eqb e "" || String.eqb e "." then out
  else if String.eqb e ".." then
    match out with
    | [] => if rooted then [] else [".."]
    | x :: out' => if String.eqb x ".." then ".." :: out else out'
    end
  else e :: out.

Definition Clean (p : string) : string :=
  let rooted := HasPrefix p "/" in
  let body := Join (reverse (foldl (clean_elem rooted) [] (split_slash "" p))) "/" in
  if rooted then "/" +:+ body else if String.eqb body "" then "." else body.

Definition PathJoin (elems : list string) : string :=
  match List.filter (fun e => negb (String.eqb e "")) elems with
  | [] => ""
  | l => Clean (Join l "/")
  end.

Example PathJoin_ex1 : PathJoin ["/music"; "a/../b//c.mp3"] = "/music/b/c.mp3".
Proof. reflexivity. Qed.
Example PathJoin_ex2 : PathJoin [""; ""] = "" /\ PathJoin ["a"; "../.."] = "..".
Proof. done. Qed.

(** ** Lines *)
Definition LF : ascii := ascii_of_nat 10.
Definition CR : ascii := ascii_of_nat 13.
Definition newline : string := String LF "".

(** A string without a line break. *)
Definition line_char (c : ascii) : bool := negb (Ascii.eqb c LF) && negb (Ascii.eqb c CR).
Fixpoint one_line (s : string) : bool := match s with "" => true | String c s => line_char c && one_line s end.

Lemma one_line_app a b : one_line (a +:+ b) = one_line a && one_line b.
Proof. induction a as [|c a IH]; [done|]. simpl. by rewrite IH, andb_assoc. Qed.

Lemma string_length_app (a b : string) : String.length (a +:+ b) = (String.length a + String.length b)%nat.
Proof. induction a as [|c a IH]; [done|]. rewrite string_app_cons. simpl. by rewrite IH. Qed.

Lemma string_concat_cons x l : String.concat "" (x :: l) = x +:+ String.concat "" l.
Proof. destruct l; [simpl; by rewrite string_app_nil_r|done]. Qed.
