(* ===== verification/Model.v ===== *)
(** * The data the components share

    [model/mediafile.go], [model/transcoding.go], [model/player.go].  A
    [MediaFile] row has some seventy columns; the record holds those the
    modelled components read or write. *)

From S2P Require Import Prelude GoStrings.

Local Open Scope Z_scope.

(** Durations and other [float32] values are only copied by the modelled code:
    they are kept as their bit pattern. *)
Definition float32 : Type := Z.

(** [time.Time] as nanoseconds since the Unix epoch. *)
Definition time : Type := Z.
Definition second : Z := 1000000000.

(** The zero [time.Time], January 1 of year 1 UTC. *)
Definition zero_time : time := -62135596800 * second.
Definition IsZero (t : time) : bool := t =? zero_time.

(** [t.Truncate(time.Second)], [t.Unix()] and [time.Unix(s, 0)]. *)
Definition TruncateSecond (t : time) : time := (t / second) * second.
Definition Unix (t : time) : Z := t / second.
Definition FromUnix (s : Z) : time := s * second.

Record MediaFile := mkMediaFile {
  mf_ID : string;
  mf_LibraryPath : string;
  mf_Path : string;
  mf_Title : string;
  mf_Suffix : string;
  mf_Duration : float32;
  mf_Size : Z;
  mf_BitRate : Z;
  mf_SampleRate : Z;
  mf_BitDepth : option Z;
  mf_Channels : Z;
  mf_Codec : string;
  mf_ProbeData : string;
  mf_UpdatedAt : time;
  mf_LibraryID : Z;
  mf_Artist : string;
  mf_AlbumID : string;
  mf_AlbumArtistID : string;
  (** The ids of [Participants[model.RoleArtist]]. *)
  mf_ArtistIDs : list string;
  mf_Album : string;
  mf_MbzRecordingID : string;
  mf_MbzAlbumID : string;
  (** [Tags.Values(model.TagISRC)]. *)
  mf_ISRCs : list string;
  mf_Starred : bool;
  mf_Rating : Z;
  mf_Missing : bool
}.

Definition set_ProbeData (data : string) (mf : MediaFile) : MediaFile :=
  mkMediaFile (mf_ID mf) (mf_LibraryPath mf) (mf_Path mf) (mf_Title mf) (mf_Suffix mf)
    (mf_Duration mf) (mf_Size mf) (mf_BitRate mf) (mf_SampleRate mf) (mf_BitDepth mf)
    (mf_Channels mf) (mf_Codec mf) data (mf_UpdatedAt mf)
    (mf_LibraryID mf) (mf_Artist mf) (mf_AlbumID mf) (mf_AlbumArtistID mf) (mf_ArtistIDs mf)
    (mf_Album mf) (mf_MbzRecordingID mf) (mf_MbzAlbumID mf) (mf_ISRCs mf) (mf_Starred mf) (mf_Rating mf)
    (mf_Missing mf).

#[export] Instance MediaFile_eq_dec : EqDecision MediaFile.
Proof. solve_decision. Defined.

(** [gg.V]: the pointed-to value, or the zero value. *)
Definition V (p : option Z) : Z := default 0 p.

Definition AbsolutePath (mf : MediaFile) : string :=
  PathJoin [mf_LibraryPath mf; mf_Path mf].

Definition inferCodecFromSuffix (mf : MediaFile) : string :=
  let s := ToLower (mf_Suffix mf) in
  let among l := existsb (String.eqb s) l in
  if among ["mp3"; "mpga"] then "mp3"
  else if among ["mp2"] then "mp2"
  else if among ["ogg"; "oga"] then "vorbis"
  else if among ["opus"] then "opus"
  else if among ["mpc"] then "mpc"
  else if among ["wma"] then "wma"
  else if among ["flac"] then "flac"
  else if among ["wav"] then "pcm"
  else if among ["aif"; "aiff"; "aifc"] then "pcm"
  else if among ["ape"] then "ape"
  else if among ["wv"; "wvp"] then "wv"
  else if among ["tta"] then "tta"
  else if among ["tak"] then "tak"
  else if among ["shn"] then "shn"
  else if among ["dsf"; "dff"] then "dsd"
  else if among ["m4a"] then (if V (mf_BitDepth mf) >? 0 then "alac" else "aac")
  else if among ["m4b"; "m4p"; "m4r"] then "aac"
  else "".

Definition AudioCodec (mf : MediaFile) : string :=
  if negb (String.eqb (mf_Codec mf) "") then ToLower (mf_Codec mf)
  else inferCodecFromSuffix mf.

Record Transcoding := mkTranscoding {
  trc_ID : string;
  trc_Name : string;
  trc_TargetFormat : string;
  trc_Command : string;
  trc_DefaultBitRate : Z
}.

(** The columns of [model.Player] that streaming and scrobbling look at. *)
Record Player := mkPlayer {
  pl_ID : string;
  pl_MaxBitRate : Z;
  pl_ScrobbleEnabled : bool
}.

(** [TruncateSecond] and [Unix] agree: the code compares one with the other. *)
Lemma FromUnix_Unix t : FromUnix (Unix t) = TruncateSecond t.
Proof. done. Qed.

Lemma TruncateSecond_idemp t : TruncateSecond (TruncateSecond t) = TruncateSecond t.
Proof. unfold TruncateSecond. rewrite Z.div_mul by done. done. Qed.
