(* ===== verification/StreamCodec.v ===== *)
(** * core/stream: client capabilities, codec rules and name aliases

    [types.go] (the data of a client's capabilities and [CapBitrate]),
    [codec.go] and [aliases.go]. *)

From S2P Require Import Prelude GoStrings Model.

Local Open Scope Z_scope.

(** ** types.go *)
Record DirectPlayProfile := mkDirectPlayProfile {
  dp_Containers : list string;
  dp_AudioCodecs : list string;
  dp_Protocols : list string;
  dp_MaxAudioChannels : Z
}.

(** [DirectPlayProfile.String]. *)
Definition DirectPlayProfile_String (p : DirectPlayProfile) : string :=
  let containers := Join (dp_Containers p) "," in
  let containers := if String.eqb containers "" then "*" else containers in
  let codecs := Join (dp_AudioCodecs p) "," in
  if String.eqb codecs "" then "[" +:+ containers +:+ "]"
  else "[" +:+ containers +:+ "/" +:+ codecs +:+ "]".

Record Profile := mkProfile {
  pr_Container : string;
  pr_AudioCodec : string;
  pr_Protocol : string;
  pr_MaxAudioChannels : Z
}.

Record Limitation := mkLimitation {
  lim_Name : string;
  lim_Comparison : string;
  lim_Values : list string;
  lim_Required : bool
}.

Record CodecProfile := mkCodecProfile {
  cp_Type : string;
  cp_Name : string;
  cp_Limitations : list Limitation
}.

Record ClientInfo := mkClientInfo {
  ci_Name : string;
  ci_Platform : string;
  ci_MaxAudioBitrate : Z;
  ci_MaxTranscodingAudioBitrate : Z;
  ci_DirectPlayProfiles : list DirectPlayProfile;
  ci_TranscodingProfiles : list Profile;
  ci_CodecProfiles : list CodecProfile
}.

Definition ProtocolHTTP : string := "http".
Definition ProtocolHLS : string := "hls".
Definition ComparisonEquals : string := "Equals".
Definition ComparisonNotEquals : string := "NotEquals".
Definition ComparisonLessThanEqual : string := "LessThanEqual".
Definition ComparisonGreaterThanEqual : string := "GreaterThanEqual".
Definition LimitationAudioChannels : string := "audioChannels".
Definition LimitationAudioBitrate : string := "audioBitrate".
Definition LimitationAudioProfile : string := "audioProfile".
Definition LimitationAudioSamplerate : string := "audioSamplerate".
Definition LimitationAudioBitdepth : string := "audioBitdepth".
Definition CodecProfileTypeAudio : string := "AudioCodec".

Record Details := mkDetails {
  d_Container : string;
  d_Codec : string;
  d_Profile : string;
  d_Bitrate : Z;
  d_SampleRate : Z;
  d_BitDepth : Z;
  d_Channels : Z;
  d_Duration : float32;
  d_Size : Z;
  d_IsLossless : bool
}.

Record Request := mkRequest {
  rq_Format : string;
  rq_BitRate : Z;
  rq_SampleRate : Z;
  rq_BitDepth : Z;
  rq_Channels : Z;
  rq_Offset : Z
}.

Record TranscodeDecision := mkDecision {
  td_MediaID : string;
  td_CanDirectPlay : bool;
  td_CanTranscode : bool;
  td_TranscodeReasons : list string;
  td_ErrorReason : string;
  td_TargetFormat : string;
  td_TargetBitrate : Z;
  td_TargetChannels : Z;
  td_TargetSampleRate : Z;
  td_TargetBitDepth : Z;
  td_SourceStream : Details;
  td_SourceUpdatedAt : time;
  td_TranscodeStream : option Details
}.

Definition set_MaxAudioBitrate (b : Z) (ci : ClientInfo) : ClientInfo :=
  mkClientInfo (ci_Name ci) (ci_Platform ci) b (ci_MaxTranscodingAudioBitrate ci)
    (ci_DirectPlayProfiles ci) (ci_TranscodingProfiles ci) (ci_CodecProfiles ci).
Definition set_MaxTranscodingAudioBitrate (b : Z) (ci : ClientInfo) : ClientInfo :=
  mkClientInfo (ci_Name ci) (ci_Platform ci) (ci_MaxAudioBitrate ci) b
    (ci_DirectPlayProfiles ci) (ci_TranscodingProfiles ci) (ci_CodecProfiles ci).
Definition set_profiles (dp : list DirectPlayProfile) (tp : list Profile) (ci : ClientInfo) : ClientInfo :=
  mkClientInfo (ci_Name ci) (ci_Platform ci) (ci_MaxAudioBitrate ci)
    (ci_MaxTranscodingAudioBitrate ci) dp tp (ci_CodecProfiles ci).

(** [CapBitrate] mutates its receiver: the new client info and the result. *)
Definition CapBitrate (maxKbps : Z) (ci : ClientInfo) : ClientInfo * bool :=
  if maxKbps <=? 0 then (ci, false)
  else
    let '(ci, changed) :=
      if (ci_MaxAudioBitrate ci =? 0) || (maxKbps <? ci_MaxAudioBitrate ci)
      then (set_MaxAudioBitrate maxKbps ci, true) else (ci, false) in
    if (ci_MaxTranscodingAudioBitrate ci =? 0) || (maxKbps <? ci_MaxTranscodingAudioBitrate ci)
    then (set_MaxTranscodingAudioBitrate maxKbps ci, true) else (ci, changed).

(** ** codec.go *)
Definition normalizeProbeCodec (codec : string) : string :=
  let c := ToLower codec in
  if HasPrefix c "dsd" then "dsd"
  else if HasPrefix c "pcm_" then "pcm"
  else c.

Definition isLosslessFormat (format : string) : bool :=
  existsb (String.eqb (ToLower format))
    ["flac"; "alac"; "wav"; "aiff"; "ape"; "wv"; "wavpack"; "tta"; "tak"; "shn"; "dsd"; "pcm"].

Definition normalizeSourceSampleRate (sampleRate : Z) (codec : string) : Z :=
  if EqualFold codec "dsd" && (sampleRate >? 0) then sampleRate / 8 else sampleRate.

Definition targetBitDepth (srcBitDepth : Z) (srcCodec : string) (targetIsLossless : bool) : Z :=
  if negb targetIsLossless then 0
  else if EqualFold srcCodec "dsd" && (srcBitDepth =? 1) then 24
  else srcBitDepth.

Definition codecFixedOutputSampleRate (codec : string) : Z :=
  if String.eqb (ToLower codec) "opus" then 48000 else 0.

Definition codecMaxSampleRate (codec : string) : Z :=
  if String.eqb (ToLower codec) "mp3" then 48000
  else if String.eqb (ToLower codec) "aac" then 96000
  else 0.

Definition codecMaxChannels (codec : string) : Z :=
  if String.eqb (ToLower codec) "mp3" then 2
  else if String.eqb (ToLower codec) "opus" then 8
  else 0.

(** ** aliases.go *)

(** The loop both initialisers run: every name of a group maps to its first. *)
Definition alias_map (groups : list (list string)) : gmap string string :=
  foldl (fun m g => foldl (fun m name => <[name := default "" (head g)]> m) m g) ∅ groups.

Definition containerAliasGroups : gmap string string := alias_map
  [["aac"; "adts"; "m4a"; "mp4"; "m4b"; "m4p"];
   ["mpeg"; "mp3"; "mp2"];
   ["ogg"; "oga"; "opus"];
   ["aif"; "aiff"];
   ["asf"; "wma"];
   ["mpc"; "mpp"];
   ["wv"]].

Definition codecAliasGroups : gmap string string := alias_map
  [["aac"; "adts"];
   ["ac3"; "ac-3"];
   ["eac3"; "e-ac3"; "e-ac-3"; "eac-3"];
   ["mpc7"; "musepack7"];
   ["mpc8"; "musepack8"];
   ["wma1"; "wmav1"];
   ["wma2"; "wmav2"];
   ["wmalossless"; "wma9lossless"];
   ["wmapro"; "wma9pro"];
   ["shn"; "shorten"];
   ["mp4als"; "als"]].

(** Go's [aliases[k]]: the zero value, [""], when the key is absent. *)
Definition alias (aliases : gmap string string) (k : string) : string :=
  default "" (aliases !! k).

Definition matchesWithAliases (value : string) (candidates : list string)
    (aliases : gmap string string) : bool :=
  let value := ToLower value in
  let canonical := alias aliases value in
  contains_func (fun c =>
    let c := ToLower c in
    String.eqb c value ||
    (negb (String.eqb canonical "") && String.eqb (alias aliases c) canonical)) candidates.

Definition matchesContainer (suffix : string) (containers : list string) : bool :=
  matchesWithAliases suffix containers containerAliasGroups.

Definition matchesCodec (codec : string) (codecs : list string) : bool :=
  matchesWithAliases codec codecs codecAliasGroups.

Definition IsAACCodec (name : string) : bool :=
  matchesCodec name ["aac"] || matchesContainer name ["aac"].

Definition containsIgnoreCase (slice : list string) (s : string) : bool :=
  contains_func (fun item => EqualFold item s) slice.

#[global] Arguments matchesWithAliases : simpl never.
#[global] Arguments matchesContainer : simpl never.
#[global] Arguments matchesCodec : simpl never.
#[global] Opaque containerAliasGroups codecAliasGroups.

(** ** Capping a client's bit rates *)

(** A declared limit [l] is within the cap: set, and not above it. *)
Definition capped (l cap : Z) : Prop := l <> 0 /\ l <= cap.

Lemma CapBitrate_noop cap ci : cap <= 0 -> CapBitrate cap ci = (ci, false).
Proof. intros H. unfold CapBitrate. case_cond; [done|]. gsolve. Qed.

Lemma CapBitrate_facts cap ci ci' b :
  0 < cap -> CapBitrate cap ci = (ci', b) ->
  capped (ci_MaxAudioBitrate ci') cap /\ capped (ci_MaxTranscodingAudioBitrate ci') cap /\
  (b = false <-> ci' = ci) /\
  (ci_MaxAudioBitrate ci <> 0 -> ci_MaxAudioBitrate ci' <= ci_MaxAudioBitrate ci) /\
  (ci_MaxTranscodingAudioBitrate ci <> 0 ->
     ci_MaxTranscodingAudioBitrate ci' <= ci_MaxTranscodingAudioBitrate ci) /\
  set_MaxAudioBitrate 0 (set_MaxTranscodingAudioBitrate 0 ci') =
  set_MaxAudioBitrate 0 (set_MaxTranscodingAudioBitrate 0 ci).
Proof.
  intros Hcap. destruct ci as [n p a t dps tps cps]. unfold CapBitrate, capped, set_MaxAudioBitrate,
    set_MaxTranscodingAudioBitrate; simpl.
  destruct (cap <=? 0) eqn:E0; [gsolve|].
  destruct ((a =? 0) || (cap <? a)) eqn:E1; simpl;
  destruct ((t =? 0) || (cap <? t)) eqn:E2; simpl; intros [= <- <-]; simpl; bprop;
  repeat split; try lia; try done; intros [=]; lia.
Qed.

(** ** Name matching is an equivalence *)
Section aliases.
Context (aliases : gmap string string).

(** Two names the alias table does not tell apart. *)
Definition same_name (a b : string) : Prop :=
  ToLower a = ToLower b \/
  (alias aliases (ToLower a) <> "" /\ alias aliases (ToLower a) = alias aliases (ToLower b)).

#[export] Instance same_name_equivalence : Equivalence same_name.
Proof. split; unfold same_name; red; naive_solver congruence. Qed.

Lemma matchesWithAliases_spec v cs :
  matchesWithAliases v cs aliases = true <-> exists c, c ∈ cs /\ same_name v c.
Proof.
  unfold matchesWithAliases, same_name. rewrite contains_func_true.
  apply exist_proper. intros c. bprop. naive_solver congruence.
Qed.

Lemma matchesWithAliases_app v cs cs' :
  matchesWithAliases v (cs ++ cs') aliases =
  matchesWithAliases v cs aliases || matchesWithAliases v cs' aliases.
Proof. unfold matchesWithAliases, contains_func. apply existsb_app. Qed.

#[export] Instance matchesWithAliases_proper :
  Proper (same_name ==> eq ==> eq) (fun v cs => matchesWithAliases v cs aliases).
Proof.
  intros a b H cs ? <-. apply eq_true_iff_eq. rewrite !matchesWithAliases_spec.
  by setoid_rewrite H.
Qed.
End aliases.
