(* ===== verification/StreamLimits.v ===== *)
(** * core/stream/limitations.go: codec limitations

    A limitation is checked against a source stream ([checkLimitations]) or
    used to adjust a transcoded one ([applyLimitation]).  The setter closure
    the Go code passes down is the [option Z] the integer routine returns:
    [Some v] where the code calls [setter(v)]. *)

From S2P Require Import Prelude GoStrings Model StreamCodec.

Local Open Scope Z_scope.

Inductive adjustResult := adjustNone | adjustAdjusted | adjustCannotFit.

#[export] Instance adjustResult_eq_dec : EqDecision adjustResult.
Proof. solve_decision. Defined.

Definition parseInt (s : string) : option Z :=
  match Atoi s with
  | Some v => if v <? 0 then None else Some v
  | None => None
  end.

(** The loop over an Equals limitation that looks for the closest allowed
    value below [current]; the accumulator is [closest] when [found]. *)
Definition closest_step (current : Z) (acc : option Z) (v : string) : option Z :=
  match parseInt v with
  | Some limit =>
      if limit <? current then
        match acc with
        | None => Some limit
        | Some closest => if closest <? limit then Some limit else acc
        end
      else acc
  | None => acc
  end.

Definition closest_below (current : Z) (values : list string) : option Z :=
  foldl (closest_step current) None values.

(** Some value parses to [current]. *)
Definition value_in (current : Z) (values : list string) : bool :=
  contains_func (fun v => match parseInt v with Some limit => current =? limit | None => false end) values.

Definition applyIntLimitation (comparison : string) (values : list string) (current : Z)
    : adjustResult * option Z :=
  match values with
  | [] => (adjustNone, None)
  | v0 :: _ =>
      if String.eqb comparison ComparisonLessThanEqual then
        match parseInt v0 with
        | None => (adjustNone, None)
        | Some limit =>
            if current <=? limit then (adjustNone, None)
            else (adjustAdjusted, Some limit)
        end
      else if String.eqb comparison ComparisonGreaterThanEqual then
        match parseInt v0 with
        | None => (adjustNone, None)
        | Some limit => if limit <=? current then (adjustNone, None) else (adjustCannotFit, None)
        end
      else if String.eqb comparison ComparisonEquals then
        if value_in current values then (adjustNone, None)
        else match closest_below current values with
             | Some closest => (adjustAdjusted, Some closest)
             | None => (adjustCannotFit, None)
             end
      else if String.eqb comparison ComparisonNotEquals then
        if value_in current values then (adjustCannotFit, None) else (adjustNone, None)
      else (adjustNone, None)
  end.

Definition checkIntLimitation (value : Z) (comparison : string) (values : list string) : bool :=
  bool_decide (fst (applyIntLimitation comparison values value) = adjustNone).

Definition checkStringLimitation (value comparison : string) (values : list string) : bool :=
  if String.eqb comparison ComparisonEquals then contains_func (EqualFold value) values
  else if String.eqb comparison ComparisonNotEquals then negb (contains_func (EqualFold value) values)
  else true.

(** The switch of [checkLimitations]: what the limitation checks, and the
    reason a failure gives; [None] for a name the code does not know. *)
Definition checkLimitation (src : Details) (lim : Limitation) : option (bool * string) :=
  let int v := checkIntLimitation v (lim_Comparison lim) (lim_Values lim) in
  let n := lim_Name lim in
  if String.eqb n LimitationAudioChannels then
    Some (int (d_Channels src), "audio channels not supported")
  else if String.eqb n LimitationAudioSamplerate then
    Some (int (d_SampleRate src), "audio samplerate not supported")
  else if String.eqb n LimitationAudioBitrate then
    Some (int (d_Bitrate src), "audio bitrate not supported")
  else if String.eqb n LimitationAudioBitdepth then
    Some (int (d_BitDepth src), "audio bitdepth not supported")
  else if String.eqb n LimitationAudioProfile then
    Some (checkStringLimitation (d_Profile src) (lim_Comparison lim) (lim_Values lim),
          "audio profile not supported")
  else None.

Fixpoint checkLimitations (src : Details) (limitations : list Limitation) : string :=
  match limitations with
  | [] => ""
  | lim :: rest =>
      match checkLimitation src lim with
      | Some (ok, reason) =>
          if negb ok && lim_Required lim then reason else checkLimitations src rest
      | None => checkLimitations src rest
      end
  end.

Definition set_Channels (v : Z) (ts : Details) : Details :=
  mkDetails (d_Container ts) (d_Codec ts) (d_Profile ts) (d_Bitrate ts) (d_SampleRate ts)
    (d_BitDepth ts) v (d_Duration ts) (d_Size ts) (d_IsLossless ts).
Definition set_Bitrate (v : Z) (ts : Details) : Details :=
  mkDetails (d_Container ts) (d_Codec ts) (d_Profile ts) v (d_SampleRate ts)
    (d_BitDepth ts) (d_Channels ts) (d_Duration ts) (d_Size ts) (d_IsLossless ts).
Definition set_SampleRate (v : Z) (ts : Details) : Details :=
  mkDetails (d_Container ts) (d_Codec ts) (d_Profile ts) (d_Bitrate ts) v
    (d_BitDepth ts) (d_Channels ts) (d_Duration ts) (d_Size ts) (d_IsLossless ts).
Definition set_BitDepth (v : Z) (ts : Details) : Details :=
  mkDetails (d_Container ts) (d_Codec ts) (d_Profile ts) (d_Bitrate ts) (d_SampleRate ts)
    v (d_Channels ts) (d_Duration ts) (d_Size ts) (d_IsLossless ts).

(** The stream after the setter ran, if it did. *)
Definition run_setter (setter : Z -> Details -> Details) (ts : Details)
    (r : adjustResult * option Z) : adjustResult * Details :=
  match r with
  | (res, Some v) => (res, setter v ts)
  | (res, None) => (res, ts)
  end.

Definition applyLimitation (sourceBitrate : Z) (lim : Limitation) (ts : Details)
    : adjustResult * Details :=
  let apply cur := applyIntLimitation (lim_Comparison lim) (lim_Values lim) cur in
  let n := lim_Name lim in
  if String.eqb n LimitationAudioChannels then run_setter set_Channels ts (apply (d_Channels ts))
  else if String.eqb n LimitationAudioBitrate then
    let current := if d_Bitrate ts =? 0 then sourceBitrate else d_Bitrate ts in
    run_setter set_Bitrate ts (apply current)
  else if String.eqb n LimitationAudioSamplerate then
    run_setter set_SampleRate ts (apply (d_SampleRate ts))
  else if String.eqb n LimitationAudioBitdepth then
    if d_BitDepth ts >? 0 then run_setter set_BitDepth ts (apply (d_BitDepth ts))
    else (adjustNone, ts)
  else (adjustNone, ts).

(** ** What a limitation means *)

(** The specification of an integer limitation: [x] meets it.  A limitation
    whose bound is not a non-negative decimal integer, one without values and
    one with an unknown comparison constrain nothing. *)
Definition int_satisfies (comparison : string) (values : list string) (x : Z) : Prop :=
  values = [] \/
  (if String.eqb comparison ComparisonLessThanEqual then
     forall limit, parseInt (default "" (head values)) = Some limit -> x <= limit
   else if String.eqb comparison ComparisonGreaterThanEqual then
     forall limit, parseInt (default "" (head values)) = Some limit -> limit <= x
   else if String.eqb comparison ComparisonEquals then
     exists v, v ∈ values /\ parseInt v = Some x
   else if String.eqb comparison ComparisonNotEquals then
     forall v, v ∈ values -> parseInt v <> Some x
   else True).

Lemma parseInt_nonneg s v : parseInt s = Some v -> 0 <= v.
Proof. unfold parseInt. intros H. repeat case_match; simplify_eq; gsolve. Qed.

Lemma value_in_true x values :
  value_in x values = true <-> exists v, v ∈ values /\ parseInt v = Some x.
Proof.
  unfold value_in. rewrite contains_func_true. apply exist_proper. intros v.
  destruct (parseInt v); bprop; naive_solver.
Qed.

Lemma value_in_false x values :
  value_in x values = false <-> forall v, v ∈ values -> parseInt v <> Some x.
Proof. rewrite <- not_true_iff_false, value_in_true. naive_solver. Qed.

(** [acc] is the best allowed value below [current] among [values]. *)
Definition best_below (current : Z) (values : list string) (acc : option Z) : Prop :=
  (forall c, acc = Some c -> c < current /\ exists v, v ∈ values /\ parseInt v = Some c) /\
  (forall v l, v ∈ values -> parseInt v = Some l -> l < current -> exists c, acc = Some c /\ l <= c).

Lemma closest_step_best current values acc v :
  best_below current values acc ->
  best_below current (values ++ [v]) (closest_step current acc v).
Proof.
  intros [Hin Hmax]. unfold best_below.
  setoid_rewrite elem_of_app. setoid_rewrite list_elem_of_singleton. split.
  - unfold closest_step. intros c Hc. repeat case_match; simplify_eq; gsolve.
  - intros w l [Hw| ->] Hl Hlt.
    + destruct (Hmax _ _ Hw Hl Hlt) as (c & -> & Hle). unfold closest_step.
      repeat case_match; bprop; eexists; split; done || lia.
    + unfold closest_step. rewrite Hl. repeat case_match; bprop; eexists; split; done || lia.
Qed.

Lemma closest_below_best current values :
  best_below current values (closest_below current values).
Proof.
  unfold closest_below. induction values as [|v values IH] using rev_ind.
  - split; [done|]. set_solver.
  - rewrite foldl_app. by apply closest_step_best.
Qed.

(** The specification, comparison by comparison, for a non-empty list. *)
Lemma int_satisfies_le v0 vs z x :
  parseInt v0 = Some z -> int_satisfies ComparisonLessThanEqual (v0 :: vs) x <-> x <= z.
Proof. intros E. unfold int_satisfies; simpl. rewrite E. naive_solver. Qed.

Lemma int_satisfies_ge v0 vs z x :
  parseInt v0 = Some z -> int_satisfies ComparisonGreaterThanEqual (v0 :: vs) x <-> z <= x.
Proof. intros E. unfold int_satisfies; simpl. rewrite E. naive_solver. Qed.

Lemma int_satisfies_unparsed c v0 vs x :
  c = ComparisonLessThanEqual \/ c = ComparisonGreaterThanEqual ->
  parseInt v0 = None -> int_satisfies c (v0 :: vs) x.
Proof. intros [-> | ->] E; right; simpl; rewrite E; done. Qed.

Lemma int_satisfies_eq v0 vs x :
  int_satisfies ComparisonEquals (v0 :: vs) x <-> value_in x (v0 :: vs) = true.
Proof. rewrite value_in_true. unfold int_satisfies; simpl. naive_solver. Qed.

Lemma int_satisfies_ne v0 vs x :
  int_satisfies ComparisonNotEquals (v0 :: vs) x <-> value_in x (v0 :: vs) = false.
Proof. rewrite value_in_false. unfold int_satisfies; simpl. naive_solver. Qed.

(** [applyIntLimitation] decides the limitation and only ever lowers.
    It answers [adjustNone], leaving the value alone, exactly when the value
    meets the limitation; an adjustment replaces it by a smaller one that meets
    the limitation, the largest such value for the allow-list of an Equals
    limitation; and [adjustCannotFit] leaves the value alone. *)
Lemma applyIntLimitation_spec comparison values current :
  match applyIntLimitation comparison values current with
  | (adjustNone, set) => set = None /\ int_satisfies comparison values current
  | (adjustAdjusted, set) =>
      exists v, set = Some v /\ ~ int_satisfies comparison values current /\
        0 <= v < current /\ int_satisfies comparison values v /\
        (forall x, int_satisfies comparison values x -> x < current -> x <= v)
  | (adjustCannotFit, set) =>
      set = None /\ ~ int_satisfies comparison values current /\
      (comparison <> ComparisonNotEquals ->
       forall x, int_satisfies comparison values x -> current < x)
  end.
Proof.
  unfold applyIntLimitation. destruct values as [|v0 values]; [by split; [|left]|].
  pose proof (closest_below_best current (v0 :: values)) as [Hin Hmax].
  destruct (String.eqb_spec comparison ComparisonLessThanEqual) as [->|Hle].
  { destruct (parseInt v0) as [z|] eqn:E; [|by auto using int_satisfies_unparsed].
    apply parseInt_nonneg in E as ?.
    case_cond; bprop; [by rewrite int_satisfies_le|].
    exists z. setoid_rewrite (int_satisfies_le _ _ _ _ E). split_and!; done || lia. }
  destruct (String.eqb_spec comparison ComparisonGreaterThanEqual) as [->|Hge].
  { destruct (parseInt v0) as [z|] eqn:E; [|by auto using int_satisfies_unparsed].
    case_cond; bprop; setoid_rewrite (int_satisfies_ge _ _ _ _ E); split_and!; done || lia. }
  destruct (String.eqb_spec comparison ComparisonEquals) as [->|Heq].
  { destruct (value_in _ _) eqn:Ein; [by rewrite int_satisfies_eq|].
    destruct (closest_below _ _) as [c|]; setoid_rewrite int_satisfies_eq; rewrite Ein;
      setoid_rewrite value_in_true.
    - destruct (Hin c eq_refl) as [Hlt (v & Hv & Hp)]. apply parseInt_nonneg in Hp as ?.
      exists c. split_and!; try done; [by eauto|]. intros x (w & Hw & Hpw) Hx.
      destruct (Hmax _ _ Hw Hpw Hx) as (? & [= <-] & ?). done.
    - split_and!; [done..|]. intros _ x (w & Hw & Hpw). apply value_in_false with (v := w) in Ein; [|done].
      destruct (Z.lt_trichotomy x current) as [Hx|[->|]]; [|done..].
      destruct (Hmax _ _ Hw Hpw Hx) as (? & [=] & ?). }
  destruct (String.eqb_spec comparison ComparisonNotEquals) as [->|Hne].
  { destruct (value_in _ _) eqn:Ein; rewrite int_satisfies_ne, Ein; done. }
  split; [done|]. right. by rewrite !(proj2 (String.eqb_neq _ _)).
Qed.

Lemma checkIntLimitation_spec value comparison values :
  checkIntLimitation value comparison values = true <-> int_satisfies comparison values value.
Proof.
  unfold checkIntLimitation. bprop.
  pose proof (applyIntLimitation_spec comparison values value) as H.
  destruct (applyIntLimitation comparison values value) as [[] set]; simpl in *; naive_solver.
Qed.

(** The specification of a limitation on a string. *)
Definition string_satisfies (comparison : string) (values : list string) (x : string) : Prop :=
  (comparison = ComparisonEquals -> exists v, v ∈ values /\ fold_eq x v) /\
  (comparison = ComparisonNotEquals -> forall v, v ∈ values -> ~ fold_eq x v).

Lemma checkStringLimitation_spec value comparison values :
  checkStringLimitation value comparison values = true <->
  string_satisfies comparison values value.
Proof.
  unfold checkStringLimitation, string_satisfies, fold_eq.
  destruct (String.eqb_spec comparison ComparisonEquals) as [->|Hne].
  { rewrite contains_func_true. setoid_rewrite EqualFold_spec. naive_solver. }
  destruct (String.eqb_spec comparison ComparisonNotEquals) as [->|Hne']; [|naive_solver].
  rewrite negb_true_iff, contains_func_false. setoid_rewrite <- EqualFold_spec.
  setoid_rewrite not_true_iff_false. naive_solver.
Qed.

(** What it means for a stream to meet a limitation, whatever its name. *)
Definition meets (src : Details) (lim : Limitation) : Prop :=
  let int v := int_satisfies (lim_Comparison lim) (lim_Values lim) v in
  (lim_Name lim = LimitationAudioChannels -> int (d_Channels src)) /\
  (lim_Name lim = LimitationAudioSamplerate -> int (d_SampleRate src)) /\
  (lim_Name lim = LimitationAudioBitrate -> int (d_Bitrate src)) /\
  (lim_Name lim = LimitationAudioBitdepth -> int (d_BitDepth src)) /\
  (lim_Name lim = LimitationAudioProfile ->
     string_satisfies (lim_Comparison lim) (lim_Values lim) (d_Profile src)).

(** Decides which of the limitation names the code knows a name is. *)
Ltac case_lim_name n :=
  destruct (String.eqb_spec n LimitationAudioChannels);
  [|destruct (String.eqb_spec n LimitationAudioSamplerate);
  [|destruct (String.eqb_spec n LimitationAudioBitrate);
  [|destruct (String.eqb_spec n LimitationAudioBitdepth);
  [|destruct (String.eqb_spec n LimitationAudioProfile)]]]].

Lemma checkLimitation_spec src lim :
  match checkLimitation src lim with
  | Some (ok, reason) => reason <> "" /\ (ok = true <-> meets src lim)
  | None => meets src lim
  end.
Proof.
  unfold checkLimitation, meets. destruct lim as [n cmp vs req]; simpl.
  case_lim_name n; subst; rewrite ?checkIntLimitation_spec, ?checkStringLimitation_spec; naive_solver.
Qed.

(** [checkLimitations] accepts a source stream exactly when it meets every
    required limitation of the list; limitations that are not required never
    rule out direct play. *)
Lemma checkLimitations_spec src lims :
  checkLimitations src lims = "" <->
  forall lim, lim ∈ lims -> lim_Required lim = true -> meets src lim.
Proof.
  induction lims as [|lim lims IH]; simpl; [set_solver|].
  setoid_rewrite elem_of_cons. pose proof (checkLimitation_spec src lim) as H.
  destruct (checkLimitation src lim) as [[ok reason]|]; [|rewrite IH; naive_solver].
  destruct ok, (lim_Required lim) eqn:Er; simpl; rewrite ?IH; naive_solver.
Qed.

(** ** Adjusting a transcoded stream *)

(** [b] is [a] with channels, sample rate or bit depth lowered; the bit rate,
    whose zero means "not set", is treated apart. *)
Definition lowered (a b : Details) : Prop :=
  d_Container b = d_Container a /\ d_Codec b = d_Codec a /\ d_IsLossless b = d_IsLossless a /\
  d_Channels b <= d_Channels a /\ d_SampleRate b <= d_SampleRate a /\ d_BitDepth b <= d_BitDepth a.

#[export] Instance lowered_preorder : PreOrder lowered.
Proof. split; unfold lowered; red; intros; split_and!; intuition (congruence || lia). Qed.

(** The transcoded stream as a limitation on bit rate sees it: one without a
    target bit rate is judged by the bit rate of its source. *)
Definition with_source_bitrate (sourceBitrate : Z) (ts : Details) : Details :=
  if d_Bitrate ts =? 0 then set_Bitrate sourceBitrate ts else ts.

(** The limitations that a transcoded stream can break: profiles are not
    checked, and a bit depth of zero stands for a lossy stream. *)
Definition applicable (lim : Limitation) (ts : Details) : Prop :=
  lim_Name lim <> LimitationAudioProfile /\
  (lim_Name lim = LimitationAudioBitdepth -> 0 < d_BitDepth ts).

Lemma with_source_bitrate_fields sb ts :
  let w := with_source_bitrate sb ts in
  d_Container w = d_Container ts /\ d_Codec w = d_Codec ts /\ d_IsLossless w = d_IsLossless ts /\
  d_Channels w = d_Channels ts /\ d_SampleRate w = d_SampleRate ts /\
  d_BitDepth w = d_BitDepth ts /\ d_Bitrate w = (if d_Bitrate ts =? 0 then sb else d_Bitrate ts).
Proof. unfold with_source_bitrate. by destruct (d_Bitrate ts =? 0). Qed.

Lemma applyLimitation_spec sourceBitrate lim ts :
  match applyLimitation sourceBitrate lim ts with
  | (adjustNone, ts') => ts' = ts /\
      (applicable lim ts -> meets (with_source_bitrate sourceBitrate ts) lim)
  | (adjustAdjusted, ts') =>
      meets ts' lim /\
      (lim_Name lim <> LimitationAudioBitrate -> lowered ts ts' /\ d_Bitrate ts' = d_Bitrate ts) /\
      (lim_Name lim = LimitationAudioBitrate ->
       0 <= d_Bitrate ts' < d_Bitrate (with_source_bitrate sourceBitrate ts) /\
       ts' = set_Bitrate (d_Bitrate ts') ts)
  | (adjustCannotFit, ts') => ts' = ts /\ ~ meets (with_source_bitrate sourceBitrate ts) lim
  end.
Proof.
  destruct (with_source_bitrate_fields sourceBitrate ts) as (_ & _ & _ & Ec & Es & Ed & Eb).
  unfold applyLimitation, applicable, meets, lowered. rewrite Ec, Es, Ed, Eb.
  destruct lim as [n cmp vs req]; simpl.
  case_lim_name n; subst; simpl;
    try (match goal with |- context [d_BitDepth ts >? 0] =>
           destruct (Z.gtb_spec (d_BitDepth ts) 0) end);
    try (match goal with |- context [applyIntLimitation ?c ?v ?x] =>
           pose proof (applyIntLimitation_spec c v x) as Hi;
           destruct (applyIntLimitation c v x) as [[] [v'|]]; simpl in * end);
    try (destruct Hi as (? & [= <-] & Hn & Hv & Hs & _));
    split_and?; try (intros; simplify_eq; done || lia); naive_solver lia.
Qed.

(** Whatever it answers, [applyLimitation] only lowers. *)
Lemma applyLimitation_lowered sb lim ts r ts' :
  applyLimitation sb lim ts = (r, ts') -> lowered ts ts'.
Proof.
  intros E. pose proof (applyLimitation_spec sb lim ts) as Hs. rewrite E in Hs.
  destruct r; [by destruct Hs as [-> _]| |by destruct Hs as [-> _]].
  destruct Hs as (_ & Hother & Hbr).
  destruct (decide (lim_Name lim = LimitationAudioBitrate)) as [Hn|Hn]; [|by apply Hother].
  destruct (Hbr Hn) as [_ ->]. unfold lowered; simpl. split_and!; done || lia.
Qed.

(** The bit rates a client may ask for are positive: a limitation of zero is
    indistinguishable, in the transcoded stream, from "no bit rate chosen". *)
Definition positive_limit (lim : Limitation) : Prop :=
  lim_Name lim = LimitationAudioBitrate ->
  forall v limit, v ∈ lim_Values lim -> parseInt v = Some limit -> 0 < limit.

Lemma applyIntLimitation_values comparison values current v :
  snd (applyIntLimitation comparison values current) = Some v ->
  exists s, s ∈ values /\ parseInt s = Some v.
Proof.
  unfold applyIntLimitation. destruct values as [|v0 values]; [done|].
  pose proof (closest_below_best current (v0 :: values)) as [Hin _].
  repeat case_match; simpl; intros; simplify_eq;
    [eexists; split; [by left|done] | naive_solver].
Qed.

Lemma applyLimitation_bitrate sb lim ts r ts' :
  applyLimitation sb lim ts = (r, ts') -> positive_limit lim ->
  d_Bitrate ts' = d_Bitrate ts \/
  (r = adjustAdjusted /\ lim_Name lim = LimitationAudioBitrate /\
   0 < d_Bitrate ts' < (if d_Bitrate ts =? 0 then sb else d_Bitrate ts)).
Proof.
  intros E Hpos. pose proof (applyLimitation_spec sb lim ts) as Hs. rewrite E in Hs.
  destruct r; [left; by destruct Hs as [-> _]| |left; by destruct Hs as [-> _]].
  destruct Hs as (_ & Hother & Hbr).
  destruct (decide (lim_Name lim = LimitationAudioBitrate)) as [Hn|Hn]; [|left; by apply Hother].
  right. split_and!; [done..| |].
  - revert E. unfold applyLimitation. rewrite Hn; simpl.
    set (cur := if d_Bitrate ts =? 0 then _ else _).
    pose proof (applyIntLimitation_values (lim_Comparison lim) (lim_Values lim) cur) as Hv.
    pose proof (applyIntLimitation_spec (lim_Comparison lim) (lim_Values lim) cur) as Hi.
    destruct (applyIntLimitation _ _ cur) as [r [v|]]; simpl in *; intros [= -> <-]; simpl.
    + destruct (Hv v eq_refl) as (s & Hs & Hp). by eapply Hpos.
    + by destruct Hi as (? & [=] & _).
  - destruct (Hbr Hn) as [[_ Hlt] _].
    by destruct (with_source_bitrate_fields sb ts) as (_ & _ & _ & _ & _ & _ & <-).
Qed.

(** The number a limitation is about, and the limitations [x <= limit]. *)
Definition limited_field (lim : Limitation) (ts : Details) : option Z :=
  let n := lim_Name lim in
  if String.eqb n LimitationAudioChannels then Some (d_Channels ts)
  else if String.eqb n LimitationAudioSamplerate then Some (d_SampleRate ts)
  else if String.eqb n LimitationAudioBitdepth then Some (d_BitDepth ts)
  else None.

Definition upper_limit (lim : Limitation) : option Z :=
  if String.eqb (lim_Comparison lim) ComparisonLessThanEqual
  then parseInt (default "" (head (lim_Values lim))) else None.

Definition below_upper_limit (lim : Limitation) (ts : Details) : Prop :=
  forall limit x, upper_limit lim = Some limit -> limited_field lim ts = Some x -> x <= limit.

Lemma below_upper_limit_lowered lim a b :
  lowered a b -> below_upper_limit lim a -> below_upper_limit lim b.
Proof.
  unfold lowered, below_upper_limit, limited_field. intros (_ & _ & _ & Hc & Hs & Hd) H limit x Hl Hx.
  repeat case_match; simplify_eq; specialize (H limit _ Hl eq_refl); lia.
Qed.

Lemma applyLimitation_upper sb lim ts r ts' :
  applyLimitation sb lim ts = (r, ts') -> r <> adjustCannotFit -> below_upper_limit lim ts'.
Proof.
  intros E Hr limit x Hl Hx. unfold upper_limit in Hl.
  destruct (String.eqb_spec (lim_Comparison lim) ComparisonLessThanEqual) as [Hcmp|]; [|done].
  destruct lim as [n cmp vs req]; simpl in *; subst cmp.
  destruct vs as [|v0 vs]; [done|]; simpl in Hl. apply parseInt_nonneg in Hl as Hpos.
  revert E Hx. unfold applyLimitation, limited_field, applyIntLimitation; simpl. rewrite Hl.
  destruct (String.eqb n LimitationAudioChannels);
    [|destruct (String.eqb_spec n LimitationAudioSamplerate) as [->|];
    [|destruct (String.eqb_spec n LimitationAudioBitdepth) as [->|]; [|done]]];
    simpl; repeat case_cond; intros E Hx; simplify_eq/=; gsolve.
Qed.
