(* ===== verification/StreamDecider.v ===== *)
(** * core/stream/decider.go: choosing how to play a media file

    The decider's collaborators are the class [Env]: the transcoding table of
    the database, ffprobe, the JSON codec of a stored probe result, and the
    request context and configuration values the code reads. *)

From S2P Require Import Prelude GoStrings Model StreamCodec StreamLimits.

Local Open Scope Z_scope.

(** [ffmpeg.AudioProbeResult]. *)
Record AudioProbeResult := mkProbe {
  ap_Codec : string;
  ap_Profile : string;
  ap_BitRate : Z;
  ap_SampleRate : Z;
  ap_BitDepth : Z;
  ap_Channels : Z
}.

Class Env := {
  (** [ds.Transcoding().FindByFormat]: [None] when the query fails or finds no row. *)
  FindByFormat : string -> option Transcoding;
  IsProbeAvailable : bool;
  ProbeAudioStream : string -> result string AudioProbeResult;
  (** [json.Marshal] and [json.Unmarshal] at type [AudioProbeResult]. *)
  MarshalProbe : AudioProbeResult -> result string string;
  UnmarshalProbe : string -> result string AudioProbeResult;
  DevEnableMediaFileProbe : bool;
  DefaultDownsamplingFormat : string;
  (** [request.PlayerFrom(ctx)] and [request.TranscodingFrom(ctx)]. *)
  PlayerFrom : option Player;
  TranscodingFrom : option Transcoding
}.

Definition fallbackBitrate : Z := 256.

(** [consts.DefaultTranscodings]: name, target format, default bit rate, command. *)
Definition DefaultTranscodings : list Transcoding :=
  [mkTranscoding "" "mp3 audio" "mp3"
     "ffmpeg -ss %t -i %s -map 0:a:0 -map_metadata 0 -map_metadata 0:s:a:0 -b:a %bk -v 0 -f mp3 -" 192;
   mkTranscoding "" "opus audio" "opus"
     "ffmpeg -ss %t -i %s -map 0:a:0 -map_metadata 0 -map_metadata 0:s:a:0 -b:a %bk -v 0 -c:a libopus -f opus -" 128;
   mkTranscoding "" "aac audio" "aac"
     "ffmpeg -ss %t -i %s -map 0:a:0 -map_metadata 0 -map_metadata 0:s:a:0 -b:a %bk -v 0 -c:a aac -f adts -" 256;
   mkTranscoding "" "flac audio" "flac"
     "ffmpeg -ss %t -i %s -map 0:a:0 -map_metadata 0 -map_metadata 0:s:a:0 -v 0 -c:a flac -f flac -" 0].

Section decider.
Context `{Env}.

Definition lookupDefaultBitrate (format : string) : Z :=
  let builtin :=
    match List.find (fun dt => String.eqb (trc_TargetFormat dt) format && (trc_DefaultBitRate dt >? 0))
            DefaultTranscodings with
    | Some dt => trc_DefaultBitRate dt
    | None => fallbackBitrate
    end in
  match FindByFormat format with
  | Some t => if trc_DefaultBitRate t >? 0 then trc_DefaultBitRate t else builtin
  | None => builtin
  end.

Definition LookupTranscodeCommand (format : string) : string :=
  let builtin :=
    match List.find (fun dt => String.eqb (trc_TargetFormat dt) format) DefaultTranscodings with
    | Some dt => trc_Command dt
    | None => ""
    end in
  match FindByFormat format with
  | Some t => if negb (String.eqb (trc_Command t) "") then trc_Command t else builtin
  | None => builtin
  end.

(** The response container and the internal target format. *)
Definition resolveTargetFormat (profile : Profile) : string * string :=
  let responseContainer := ToLower (pr_Container profile) in
  let targetFormat :=
    if negb (String.eqb (pr_AudioCodec profile) "") then ToLower (pr_AudioCodec profile)
    else responseContainer in
  if String.eqb targetFormat "" then ("", "")
  else (if String.eqb responseContainer "" then targetFormat else responseContainer, targetFormat).

(** [ForceFormat] of [types.go]. *)
Definition ForceFormat (targetFormat : string) (ci : ClientInfo) : ClientInfo * bool :=
  if String.eqb targetFormat "" then (ci, false)
  else
    let matched := List.filter
      (fun p => matchesContainer (snd (resolveTargetFormat p)) [targetFormat]) (ci_TranscodingProfiles ci) in
    let directPlay := map
      (fun p => let '(container, format) := resolveTargetFormat p in
                mkDirectPlayProfile [container] [format] [ProtocolHTTP] (pr_MaxAudioChannels p)) matched in
    match matched with
    | [] => (ci, false)
    | _ => (set_profiles directPlay matched ci, true)
    end.

Definition parseProbeData (data : string) : result string (option AudioProbeResult) :=
  if String.eqb data "" then Ok None
  else match UnmarshalProbe data with
       | Ok r => Ok (Some r)
       | Err e => Err e
       end.

Definition buildSourceStream (mf : MediaFile) (probe : option AudioProbeResult) : Details :=
  let probe :=
    match probe with
    | Some p => Some p
    | None => match parseProbeData (mf_ProbeData mf) with Ok p => p | Err _ => None end
    end in
  match probe with
  | Some p =>
      let codec := normalizeProbeCodec (ap_Codec p) in
      mkDetails (mf_Suffix mf) codec (ap_Profile p) (ap_BitRate p) (ap_SampleRate p)
        (ap_BitDepth p) (ap_Channels p) (mf_Duration mf) (mf_Size mf) (isLosslessFormat codec)
  | None =>
      let codec := AudioCodec mf in
      mkDetails (mf_Suffix mf) codec "" (mf_BitRate mf) (mf_SampleRate mf)
        (V (mf_BitDepth mf)) (mf_Channels mf) (mf_Duration mf) (mf_Size mf) (isLosslessFormat codec)
  end.

Definition applyServerOverride (original : ClientInfo) (trc : Transcoding) : ClientInfo :=
  let maxBitRate :=
    match PlayerFrom with
    | Some player => if pl_MaxBitRate player >? 0 then pl_MaxBitRate player else trc_DefaultBitRate trc
    | None => trc_DefaultBitRate trc
    end in
  let f := trc_TargetFormat trc in
  mkClientInfo (ci_Name original) (ci_Platform original) maxBitRate maxBitRate
    [mkDirectPlayProfile [f] [f] [ProtocolHTTP] 0] [mkProfile f f ProtocolHTTP 0] [].

Definition matchesPCMWAVBridge (src : Details) (profile : DirectPlayProfile) : bool :=
  EqualFold (d_Codec src) "pcm" && EqualFold (d_Container src) "wav" &&
  containsIgnoreCase (dp_AudioCodecs profile) "wav".

(** The loop over the client's codec profiles at the end of
    [checkDirectPlayProfile]. *)
Fixpoint checkCodecProfiles (src : Details) (cps : list CodecProfile) : string :=
  match cps with
  | [] => ""
  | cp :: rest =>
      if EqualFold (cp_Type cp) CodecProfileTypeAudio && matchesCodec (d_Codec src) [cp_Name cp] then
        let reason := checkLimitations src (cp_Limitations cp) in
        if negb (String.eqb reason "") then reason else checkCodecProfiles src rest
      else checkCodecProfiles src rest
  end.

Definition nonempty {A} (l : list A) : bool := match l with [] => false | _ => true end.

Definition checkDirectPlayProfile (src : Details) (profile : DirectPlayProfile)
    (clientInfo : ClientInfo) : string :=
  if nonempty (dp_Protocols profile) && negb (containsIgnoreCase (dp_Protocols profile) ProtocolHTTP)
  then "protocol not supported"
  else if nonempty (dp_Containers profile) && negb (matchesContainer (d_Container src) (dp_Containers profile))
  then "container '" +:+ d_Container src +:+ "' not supported by profile " +:+ DirectPlayProfile_String profile
  else if nonempty (dp_AudioCodecs profile) && negb (matchesCodec (d_Codec src) (dp_AudioCodecs profile))
          && negb (matchesPCMWAVBridge src profile)
  then "audio codec '" +:+ d_Codec src +:+ "' not supported by profile " +:+ DirectPlayProfile_String profile
  else if (dp_MaxAudioChannels profile >? 0) && (d_Channels src >? dp_MaxAudioChannels profile)
  then "audio channels " +:+ Itoa (d_Channels src) +:+ " not supported by profile " +:+
       DirectPlayProfile_String profile +:+ " (max " +:+ Itoa (dp_MaxAudioChannels profile) +:+ ")"
  else checkCodecProfiles src (ci_CodecProfiles clientInfo).

(** [computeBitrate] sets the bit rate of [ts]; [None] rejects the profile. *)
Definition computeBitrate (src : Details) (targetFormat : string) (targetIsLossless : bool)
    (clientInfo : ClientInfo) (ts : Details) : option Details :=
  let chosen :=
    if d_IsLossless src then
      if negb targetIsLossless then
        Some (if ci_MaxTranscodingAudioBitrate clientInfo >? 0
              then set_Bitrate (ci_MaxTranscodingAudioBitrate clientInfo) ts
              else if ci_MaxAudioBitrate clientInfo >? 0
              then set_Bitrate (ci_MaxAudioBitrate clientInfo) ts
              else set_Bitrate (lookupDefaultBitrate targetFormat) ts)
      else if (ci_MaxAudioBitrate clientInfo >? 0) && (d_Bitrate src >? ci_MaxAudioBitrate clientInfo)
      then None
      else Some ts
    else Some (set_Bitrate (d_Bitrate src) ts) in
  match chosen with
  | None => None
  | Some ts =>
      Some (if (ci_MaxAudioBitrate clientInfo >? 0) && (d_Bitrate ts >? 0) &&
               (d_Bitrate ts >? ci_MaxAudioBitrate clientInfo)
            then set_Bitrate (ci_MaxAudioBitrate clientInfo) ts else ts)
  end.

(** The inner loop of [applyCodecLimitations]; [None] rejects the profile. *)
Fixpoint applyLimitations (sourceBitrate : Z) (targetIsLossless : bool) (lims : list Limitation)
    (ts : Details) : option Details :=
  match lims with
  | [] => Some ts
  | lim :: rest =>
      let '(res, ts) := applyLimitation sourceBitrate lim ts in
      if EqualFold (lim_Name lim) LimitationAudioBitrate && targetIsLossless &&
         bool_decide (res = adjustAdjusted) then None
      else if bool_decide (res = adjustCannotFit) then None
      else applyLimitations sourceBitrate targetIsLossless rest ts
  end.

Fixpoint applyCodecLimitations_loop (sourceBitrate : Z) (targetIsLossless : bool) (targetCodec : string)
    (cps : list CodecProfile) (ts : Details) : option Details :=
  match cps with
  | [] => Some ts
  | cp :: rest =>
      if negb (EqualFold (cp_Type cp) CodecProfileTypeAudio) || negb (matchesCodec targetCodec [cp_Name cp])
      then applyCodecLimitations_loop sourceBitrate targetIsLossless targetCodec rest ts
      else match applyLimitations sourceBitrate targetIsLossless (cp_Limitations cp) ts with
           | Some ts => applyCodecLimitations_loop sourceBitrate targetIsLossless targetCodec rest ts
           | None => None
           end
  end.

Definition applyCodecLimitations (sourceBitrate : Z) (targetIsLossless : bool)
    (clientInfo : ClientInfo) (ts : Details) : option Details :=
  applyCodecLimitations_loop sourceBitrate targetIsLossless (d_Codec ts) (ci_CodecProfiles clientInfo) ts.

(** The stream before bit rate and client limits: built from the source, then
    the sample rate and channel rules of the target codec. *)
Definition codecRules (ts : Details) : Details :=
  let fixedRate := codecFixedOutputSampleRate (d_Codec ts) in
  let ts := if fixedRate >? 0 then set_SampleRate fixedRate ts else ts in
  let maxRate := codecMaxSampleRate (d_Codec ts) in
  let ts := if (maxRate >? 0) && (d_SampleRate ts >? maxRate) then set_SampleRate maxRate ts else ts in
  let maxCh := codecMaxChannels (d_Codec ts) in
  if (maxCh >? 0) && (d_Channels ts >? maxCh) then set_Channels maxCh ts else ts.

Definition initialStream (src : Details) (profile : Profile) (responseContainer targetFormat : string)
    (targetIsLossless : bool) : Details :=
  let codec := ToLower (pr_AudioCodec profile) in
  mkDetails responseContainer (if String.eqb codec "" then targetFormat else codec) "" 0
    (normalizeSourceSampleRate (d_SampleRate src) (d_Codec src))
    (targetBitDepth (d_BitDepth src) (d_Codec src) targetIsLossless)
    (d_Channels src) 0 0 targetIsLossless.

Definition computeTranscodedStream (src : Details) (profile : Profile) (clientInfo : ClientInfo)
    : option (Details * string) :=
  if negb (String.eqb (pr_Protocol profile) "") && negb (EqualFold (pr_Protocol profile) ProtocolHTTP)
  then None
  else
    let '(responseContainer, targetFormat) := resolveTargetFormat profile in
    if String.eqb targetFormat "" then None
    else if String.eqb (LookupTranscodeCommand targetFormat) "" then None
    else
      let targetIsLossless := isLosslessFormat targetFormat in
      if negb (d_IsLossless src) && targetIsLossless then None
      else
        let ts := codecRules (initialStream src profile responseContainer targetFormat targetIsLossless) in
        match computeBitrate src targetFormat targetIsLossless clientInfo ts with
        | None => None
        | Some ts =>
            let ts := if (pr_MaxAudioChannels profile >? 0) && (d_Channels ts >? pr_MaxAudioChannels profile)
                      then set_Channels (pr_MaxAudioChannels profile) ts else ts in
            match applyCodecLimitations (d_Bitrate src) targetIsLossless clientInfo ts with
            | None => None
            | Some ts => Some (ts, targetFormat)
            end
        end.

(** [ensureProbed] also updates the media file in memory and writes the probe
    data to the database: the third component lists those writes. *)
Definition ensureProbed (mf : MediaFile)
    : result string (option AudioProbeResult) * MediaFile * list (string * string) :=
  if negb (String.eqb (mf_ProbeData mf) "") then (Ok None, mf, [])
  else if negb DevEnableMediaFileProbe then (Ok None, mf, [])
  else match ProbeAudioStream (AbsolutePath mf) with
       | Err e => (Err ("probing media file " +:+ mf_ID mf +:+ ": " +:+ e), mf, [])
       | Ok r =>
           match MarshalProbe r with
           | Err e => (Err ("marshaling probe result for " +:+ mf_ID mf +:+ ": " +:+ e), mf, [])
           | Ok data => (Ok (Some r), set_ProbeData data mf, [(mf_ID mf, data)])
           end
       end.

(** The loop over the direct play profiles: whether one matched, and the
    reasons collected (cleared on a match). *)
Fixpoint tryDirectPlay (src : Details) (clientInfo : ClientInfo) (profiles : list DirectPlayProfile)
    (reasons : list string) : bool * list string :=
  match profiles with
  | [] => (false, reasons)
  | profile :: rest =>
      let reason := checkDirectPlayProfile src profile clientInfo in
      if String.eqb reason "" then (true, [])
      else tryDirectPlay src clientInfo rest (reasons ++ [reason])
  end.

Fixpoint tryTranscode (src : Details) (clientInfo : ClientInfo) (profiles : list Profile)
    : option (Details * string) :=
  match profiles with
  | [] => None
  | profile :: rest =>
      match computeTranscodedStream src profile clientInfo with
      | Some r => Some r
      | None => tryTranscode src clientInfo rest
      end
  end.

(** [MakeDecision] after probing. *)
Definition decide_with (mf : MediaFile) (clientInfo : ClientInfo) (probe : option AudioProbeResult)
    : TranscodeDecision :=
  let src := buildSourceStream mf probe in
  let '(canDirectPlay, reasons) :=
    if (ci_MaxAudioBitrate clientInfo >? 0) && (d_Bitrate src >? ci_MaxAudioBitrate clientInfo)
    then (false, ["audio bitrate not supported"])
    else tryDirectPlay src clientInfo (ci_DirectPlayProfiles clientInfo) [] in
  if canDirectPlay
  then mkDecision (mf_ID mf) true false reasons "" "" 0 0 0 0 src (mf_UpdatedAt mf) None
  else match tryTranscode src clientInfo (ci_TranscodingProfiles clientInfo) with
       | Some (ts, transcodeFormat) =>
           mkDecision (mf_ID mf) false true reasons "" transcodeFormat (d_Bitrate ts) (d_Channels ts)
             (d_SampleRate ts) (d_BitDepth ts) src (mf_UpdatedAt mf) (Some ts)
       | None =>
           mkDecision (mf_ID mf) false false reasons "no compatible playback profile found" "" 0 0 0 0
             src (mf_UpdatedAt mf) None
       end.

Definition MakeDecision (mf : MediaFile) (clientInfo : ClientInfo) (SkipProbe : bool)
    : result string TranscodeDecision * MediaFile * list (string * string) :=
  if negb SkipProbe && IsProbeAvailable then
    let '(probe, mf, writes) := ensureProbed mf in
    match probe with
    | Err e => (Err e, mf, writes)
    | Ok probe => (Ok (decide_with mf clientInfo probe), mf, writes)
    end
  else (Ok (decide_with mf clientInfo None), mf, []).
End decider.
