(* ===== verification/StreamDeciderFacts.v ===== *)
(** * What the transcode decider guarantees

    Direct play is chosen exactly when the client's declared capabilities
    allow it; a transcoded stream never exceeds the source, the target codec,
    or the client's limits; every decision is one of three outcomes. *)

From S2P Require Import Prelude GoStrings Model StreamCodec StreamLimits StreamDecider.

Local Open Scope Z_scope.

(** ** When a profile plays a source directly *)

(** The specification [checkDirectPlayProfile] implements: an empty list of a
    profile allows anything, names match up to case and aliases, and the
    required limitations of every codec profile for the source codec hold. *)
Record plays (src : Details) (profile : DirectPlayProfile) (ci : ClientInfo) : Prop := {
  plays_protocol : dp_Protocols profile = [] \/
    exists p, p ∈ dp_Protocols profile /\ fold_eq p ProtocolHTTP;
  plays_container : dp_Containers profile = [] \/
    exists c, c ∈ dp_Containers profile /\ same_name containerAliasGroups (d_Container src) c;
  plays_codec : dp_AudioCodecs profile = [] \/
    (exists c, c ∈ dp_AudioCodecs profile /\ same_name codecAliasGroups (d_Codec src) c) \/
    (fold_eq (d_Codec src) "pcm" /\ fold_eq (d_Container src) "wav" /\
     exists c, c ∈ dp_AudioCodecs profile /\ fold_eq c "wav");
  plays_channels : 0 < dp_MaxAudioChannels profile -> d_Channels src <= dp_MaxAudioChannels profile;
  plays_limits : forall cp lim, cp ∈ ci_CodecProfiles ci -> fold_eq (cp_Type cp) CodecProfileTypeAudio ->
    same_name codecAliasGroups (d_Codec src) (cp_Name cp) ->
    lim ∈ cp_Limitations cp -> lim_Required lim = true -> meets src lim
}.

Lemma containsIgnoreCase_spec l s :
  containsIgnoreCase l s = true <-> exists x, x ∈ l /\ fold_eq x s.
Proof. unfold containsIgnoreCase. rewrite contains_func_true. by setoid_rewrite EqualFold_spec. Qed.

Lemma matches_one aliases v c :
  matchesWithAliases v [c] aliases = true <-> same_name aliases v c.
Proof. rewrite matchesWithAliases_spec. set_solver. Qed.

Lemma matchesPCMWAVBridge_spec src profile :
  matchesPCMWAVBridge src profile = true <->
  fold_eq (d_Codec src) "pcm" /\ fold_eq (d_Container src) "wav" /\
  exists c, c ∈ dp_AudioCodecs profile /\ fold_eq c "wav".
Proof.
  unfold matchesPCMWAVBridge. rewrite !andb_true_iff, !EqualFold_spec, containsIgnoreCase_spec.
  unfold fold_eq. naive_solver.
Qed.

Lemma checkCodecProfiles_spec src cps :
  checkCodecProfiles src cps = "" <->
  forall cp lim, cp ∈ cps -> fold_eq (cp_Type cp) CodecProfileTypeAudio ->
    same_name codecAliasGroups (d_Codec src) (cp_Name cp) ->
    lim ∈ cp_Limitations cp -> lim_Required lim = true -> meets src lim.
Proof.
  induction cps as [|cp cps IH]; simpl; [split; [by intros _ ?? ?%elem_of_nil|done]|].
  setoid_rewrite elem_of_cons.
  destruct (EqualFold (cp_Type cp) CodecProfileTypeAudio && matchesCodec (d_Codec src) [cp_Name cp]) eqn:E;
    rewrite ?andb_true_iff, ?andb_false_iff in E; unfold matchesCodec in E;
    rewrite <- ?not_true_iff_false, EqualFold_spec, matches_one in E.
  - pose proof (checkLimitations_spec src (cp_Limitations cp)) as Hl.
    destruct (String.eqb_spec (checkLimitations src (cp_Limitations cp)) "") as [El|El]; simpl.
    + rewrite IH. unfold fold_eq in *. naive_solver.
    + split; [done|]. intros Hall. exfalso. apply El, Hl. naive_solver.
  - rewrite IH. unfold fold_eq in *. naive_solver.
Qed.

(** The shape of every test of [checkDirectPlayProfile]: an empty list passes. *)
Lemma nonempty_guard {A} (l : list A) (b : bool) :
  nonempty l && negb b = false <-> l = [] \/ b = true.
Proof. destruct l, b; simpl; naive_solver. Qed.

Lemma append_nonempty_l a b : a <> "" -> a +:+ b <> "".
Proof. by destruct a. Qed.

Lemma checkDirectPlayProfile_spec src profile ci :
  checkDirectPlayProfile src profile ci = "" <-> plays src profile ci.
Proof.
  unfold checkDirectPlayProfile.
  pose proof (containsIgnoreCase_spec (dp_Protocols profile) ProtocolHTTP) as Hp.
  pose proof (matchesWithAliases_spec containerAliasGroups (d_Container src) (dp_Containers profile)) as Hc.
  pose proof (matchesWithAliases_spec codecAliasGroups (d_Codec src) (dp_AudioCodecs profile)) as Ha.
  pose proof (matchesPCMWAVBridge_spec src profile) as Hb.
  pose proof (checkCodecProfiles_spec src (ci_CodecProfiles ci)) as Hl.
  pose proof (nonempty_guard (dp_Protocols profile) (containsIgnoreCase (dp_Protocols profile) ProtocolHTTP)) as Gp.
  pose proof (nonempty_guard (dp_Containers profile) (matchesContainer (d_Container src) (dp_Containers profile))) as Gc.
  pose proof (nonempty_guard (dp_AudioCodecs profile)
    (matchesCodec (d_Codec src) (dp_AudioCodecs profile) || matchesPCMWAVBridge src profile)) as Ga.
  rewrite negb_orb, andb_assoc, orb_true_iff in Ga.
  unfold matchesContainer, matchesCodec in *. rewrite Hp in Gp. rewrite Hc in Gc. rewrite Ha, Hb in Ga.
  destruct (_ && negb (containsIgnoreCase _ _)) eqn:E1.
  { split; [done|]. intros [P1 _ _ _ _]. by apply Gp in P1. }
  destruct (_ && negb (matchesWithAliases _ _ containerAliasGroups)) eqn:E2.
  { split; [by intros ?%append_nonempty_l|]. intros [_ P2 _ _ _]. by apply Gc in P2. }
  destruct (_ && _ && negb (matchesPCMWAVBridge _ _)) eqn:E3.
  { split; [by intros ?%append_nonempty_l|]. intros [_ _ P3 _ _]. by apply Ga in P3. }
  destruct (_ && (_ >? _)) eqn:E4.
  { split; [by intros ?%append_nonempty_l|]. intros [_ _ _ P4 _]. gsolve. }
  rewrite Hl. split; [|by intros []]. intros Hlim. split; try tauto. intros. gsolve.
Qed.

Section facts.
Context `{Env}.

(** ** The three outcomes *)
Lemma tryDirectPlay_spec src ci profiles reasons :
  (fst (tryDirectPlay src ci profiles reasons) = true <->
   exists p, p ∈ profiles /\ plays src p ci) /\
  (fst (tryDirectPlay src ci profiles reasons) = true -> snd (tryDirectPlay src ci profiles reasons) = []).
Proof.
  revert reasons. induction profiles as [|p profiles IH]; intros reasons; simpl; [set_solver|].
  setoid_rewrite elem_of_cons. destruct (String.eqb_spec (checkDirectPlayProfile src p ci) "") as [E|E]; simpl.
  - apply checkDirectPlayProfile_spec in E. naive_solver.
  - rewrite checkDirectPlayProfile_spec in E. destruct (IH (reasons ++ [checkDirectPlayProfile src p ci])) as [-> ?].
    naive_solver.
Qed.

Lemma tryTranscode_spec src ci profiles :
  match tryTranscode src ci profiles with
  | Some r => exists l1 p l2, profiles = l1 ++ p :: l2 /\ computeTranscodedStream src p ci = Some r /\
                Forall (fun q => computeTranscodedStream src q ci = None) l1
  | None => Forall (fun q => computeTranscodedStream src q ci = None) profiles
  end.
Proof.
  induction profiles as [|p profiles IH]; simpl; [done|].
  destruct (computeTranscodedStream src p ci) eqn:E.
  - by exists [], p, profiles.
  - destruct (tryTranscode src ci profiles) as [r|]; [|by constructor].
    destruct IH as (l1 & q & l2 & -> & ? & ?). exists (p :: l1), q, l2. auto.
Qed.

(** The bit rate gate of [MakeDecision]. *)
Definition bitrate_allowed (src : Details) (ci : ClientInfo) : Prop :=
  0 < ci_MaxAudioBitrate ci -> d_Bitrate src <= ci_MaxAudioBitrate ci.

Lemma decide_with_direct mf ci probe :
  let src := buildSourceStream mf probe in
  td_CanDirectPlay (decide_with mf ci probe) = true <->
  bitrate_allowed src ci /\ exists p, p ∈ ci_DirectPlayProfiles ci /\ plays src p ci.
Proof.
  intros src. unfold decide_with, bitrate_allowed. fold src.
  destruct (_ && (d_Bitrate src >? _)) eqn:E.
  - bprop. simpl. destruct (tryTranscode _ _ _) as [[]|]; simpl; split; try done; naive_solver lia.
  - destruct (tryDirectPlay_spec src ci (ci_DirectPlayProfiles ci) []) as [Hd _].
    destruct (tryDirectPlay _ _ _ _) as [[] rs]; simpl in *.
    + split; [|done]. intros _. split; [|by apply Hd]. bprop. lia.
    + destruct (tryTranscode _ _ _) as [[]|]; simpl; rewrite <- Hd; naive_solver.
Qed.

(** ** The limits a transcoded stream respects *)

(** One step of the limitation loop that did not reject the profile. *)
Lemma applyLimitations_cons sb ll lim lims ts ts' :
  applyLimitations sb ll (lim :: lims) ts = Some ts' ->
  exists r ts1, applyLimitation sb lim ts = (r, ts1) /\ r <> adjustCannotFit /\
    (ll = true -> lim_Name lim = LimitationAudioBitrate -> r <> adjustAdjusted) /\
    applyLimitations sb ll lims ts1 = Some ts'.
Proof.
  simpl. destruct (applyLimitation sb lim ts) as [r ts1].
  repeat case_cond; try done. intros E. exists r, ts1. bprop. split_and!; try done.
  intros -> Hn ->. rewrite Hn in *. bprop. naive_solver.
Qed.

Lemma applyLimitations_lowered sb ll lims ts ts' :
  applyLimitations sb ll lims ts = Some ts' -> lowered ts ts'.
Proof.
  revert ts. induction lims as [|lim lims IH]; intros ts E; [by simplify_eq/=|].
  apply applyLimitations_cons in E as (r & ts1 & E1 & _ & _ & E2).
  etrans; [by eapply applyLimitation_lowered|eauto].
Qed.

Lemma applyLimitations_upper sb ll lims ts ts' :
  applyLimitations sb ll lims ts = Some ts' ->
  forall lim, lim ∈ lims -> below_upper_limit lim ts'.
Proof.
  revert ts. induction lims as [|lim lims IH]; intros ts E lim'; [by intros ?%elem_of_nil|].
  apply applyLimitations_cons in E as (r & ts1 & E1 & Hr & _ & E2).
  intros [->|Hin]%elem_of_cons; [|eauto].
  eapply below_upper_limit_lowered; [by eapply applyLimitations_lowered|].
  by eapply applyLimitation_upper.
Qed.

(** With a bit rate chosen, limitations keep it positive and never raise it;
    a lossless target's is left alone; and one that is not set stays so when
    the source has none either. *)
Lemma applyLimitations_bitrate sb ll lims ts ts' :
  applyLimitations sb ll lims ts = Some ts' -> Forall positive_limit lims ->
  (0 < d_Bitrate ts -> 0 < d_Bitrate ts' <= d_Bitrate ts) /\
  (ll = true \/ (d_Bitrate ts = 0 /\ sb <= 0) -> d_Bitrate ts' = d_Bitrate ts).
Proof.
  revert ts. induction lims as [|lim lims IH]; intros ts E Hpos; [simplify_eq/=; split; lia|].
  inversion Hpos as [|? ? Hp Hps]; subst.
  apply applyLimitations_cons in E as (r & ts1 & E1 & Hr & Hll & E2).
  destruct (IH _ E2 Hps) as [IH1 IH2].
  destruct (applyLimitation_bitrate _ _ _ _ _ E1 Hp) as [Eb|(-> & Hn & Hlt)].
  - rewrite Eb in *. auto.
  - split.
    + intros Hb. destruct (Z.eqb_spec (d_Bitrate ts) 0); [lia|]. specialize (IH1 ltac:(lia)). lia.
    + intros [->|[Hb Hsb]]; [by destruct (Hll eq_refl Hn)|].
      rewrite Hb in Hlt. simpl in Hlt. lia.
Qed.

(** The codec profiles that apply to a target codec. *)
Definition targets (codec : string) (cp : CodecProfile) : Prop :=
  fold_eq (cp_Type cp) CodecProfileTypeAudio /\ same_name codecAliasGroups codec (cp_Name cp).

Definition positive_limits (ci : ClientInfo) : Prop :=
  forall cp, cp ∈ ci_CodecProfiles ci -> Forall positive_limit (cp_Limitations cp).

(** Induction over the codec profiles: a transitive relation that every run
    over one profile's limitations establishes holds overall. *)
Lemma applyCodecLimitations_ind (R : Details -> Details -> Prop) `{!PreOrder R} sb ll codec cps ts ts' :
  (forall cp a b, cp ∈ cps -> applyLimitations sb ll (cp_Limitations cp) a = Some b -> R a b) ->
  applyCodecLimitations_loop sb ll codec cps ts = Some ts' -> R ts ts'.
Proof.
  revert ts. induction cps as [|cp cps IH]; intros ts HR E; simpl in E; [by simplify_eq|].
  case_cond.
  - eapply IH; [|done]. intros cp' a b Hin. apply HR. by right.
  - destruct (applyLimitations sb ll (cp_Limitations cp) ts) as [ts1|] eqn:E1; [|done].
    transitivity ts1; [eapply HR; [by left|done]|].
    eapply IH; [|done]. intros cp' a b Hin. apply HR. by right.
Qed.

Lemma applyCodecLimitations_lowered sb ll codec cps ts ts' :
  applyCodecLimitations_loop sb ll codec cps ts = Some ts' -> lowered ts ts'.
Proof.
  apply applyCodecLimitations_ind; [apply _|]. intros. by eapply applyLimitations_lowered.
Qed.

Lemma applyCodecLimitations_upper sb ll codec cps ts ts' :
  applyCodecLimitations_loop sb ll codec cps ts = Some ts' ->
  forall cp lim, cp ∈ cps -> targets codec cp -> lim ∈ cp_Limitations cp -> below_upper_limit lim ts'.
Proof.
  revert ts. induction cps as [|cp cps IH]; intros ts E cp' lim; [by intros ?%elem_of_nil|].
  simpl in E. intros [->|Hin]%elem_of_cons Ht Hlim.
  - destruct Ht as [Ht Hc]. apply EqualFold_spec in Ht. apply matches_one in Hc.
    unfold matchesCodec in E. rewrite Ht, Hc in E; simpl in E.
    destruct (applyLimitations sb ll (cp_Limitations cp) ts) as [ts1|] eqn:E1; [|done].
    eapply below_upper_limit_lowered; [by eapply applyCodecLimitations_lowered|].
    by eapply applyLimitations_upper.
  - case_cond; [by eapply IH|].
    destruct (applyLimitations sb ll (cp_Limitations cp) ts) as [ts1|]; [by eapply IH|done].
Qed.

Lemma applyCodecLimitations_bitrate sb ll codec cps ts ts' :
  applyCodecLimitations_loop sb ll codec cps ts = Some ts' ->
  (forall cp, cp ∈ cps -> Forall positive_limit (cp_Limitations cp)) ->
  (0 < d_Bitrate ts -> 0 < d_Bitrate ts' <= d_Bitrate ts) /\
  (ll = true \/ (d_Bitrate ts = 0 /\ sb <= 0) -> d_Bitrate ts' = d_Bitrate ts).
Proof.
  intros E Hpos. revert E. revert ts ts'.
  cut (forall ts ts', applyCodecLimitations_loop sb ll codec cps ts = Some ts' ->
    (fun a b => (0 < d_Bitrate a -> 0 < d_Bitrate b <= d_Bitrate a) /\
                (ll = true \/ (d_Bitrate a = 0 /\ sb <= 0) -> d_Bitrate b = d_Bitrate a)) ts ts'); [done|].
  intros ts ts'. apply applyCodecLimitations_ind.
  - split; [intros a; simpl; split; lia|]. intros a b c [H1 H2] [H3 H4]. split; [lia|].
    intros Hc. rewrite H4, H2; [done|done|]. destruct Hc as [|[Ha Hs]]; [by left|]. right.
    split; [|done]. rewrite H2; [done|]. by right.
  - intros cp a b Hin E. eapply applyLimitations_bitrate; eauto.
Qed.

(** ** Stage by stage *)
Lemma codecRules_spec ts :
  let ts' := codecRules ts in
  d_Container ts' = d_Container ts /\ d_Codec ts' = d_Codec ts /\ d_IsLossless ts' = d_IsLossless ts /\
  d_Bitrate ts' = d_Bitrate ts /\ d_BitDepth ts' = d_BitDepth ts /\
  d_Channels ts' <= d_Channels ts /\
  (0 < codecMaxChannels (d_Codec ts) -> d_Channels ts' <= codecMaxChannels (d_Codec ts)) /\
  (0 < codecMaxSampleRate (d_Codec ts) -> d_SampleRate ts' <= codecMaxSampleRate (d_Codec ts)) /\
  (codecFixedOutputSampleRate (d_Codec ts) = 0 -> d_SampleRate ts' <= d_SampleRate ts) /\
  (0 < codecFixedOutputSampleRate (d_Codec ts) -> d_SampleRate ts' <= codecFixedOutputSampleRate (d_Codec ts)).
Proof.
  unfold codecRules. repeat (case_cond; simpl in *); bprop; simpl in *; split_and!; try done; try lia.
Qed.

Lemma lookupDefaultBitrate_pos format : 0 < lookupDefaultBitrate format.
Proof.
  unfold lookupDefaultBitrate.
  assert (0 < match List.find (fun dt => String.eqb (trc_TargetFormat dt) format &&
                 (trc_DefaultBitRate dt >? 0)) DefaultTranscodings with
              | Some dt => trc_DefaultBitRate dt | None => fallbackBitrate end) as Hb.
  { destruct (List.find _ _) eqn:E; [|done]. apply find_some in E as [_ E]. gsolve. }
  destruct (FindByFormat format); [|done]. case_cond; bprop; done || lia.
Qed.

Lemma computeBitrate_spec src fmt ll ci ts ts' :
  computeBitrate src fmt ll ci ts = Some ts' ->
  d_Bitrate ts = 0 -> 0 <= d_Bitrate src -> (d_IsLossless src = false -> ll = false) ->
  (0 < ci_MaxAudioBitrate ci -> d_Bitrate ts' <= ci_MaxAudioBitrate ci) /\
  (ll = true -> d_Bitrate ts' = 0) /\
  (d_IsLossless src = true -> ll = false -> 0 < d_Bitrate ts' /\
     (0 < ci_MaxTranscodingAudioBitrate ci -> d_Bitrate ts' <= ci_MaxTranscodingAudioBitrate ci)) /\
  (d_IsLossless src = false -> 0 <= d_Bitrate ts' <= d_Bitrate src /\
     (d_Bitrate ts' = 0 -> d_Bitrate src = 0)).
Proof.
  unfold computeBitrate. intros E Hts Hsrc Hll. pose proof (lookupDefaultBitrate_pos fmt) as Hd.
  destruct ts as [tc tcod tp tb tsr tbd tch td tsz tll]; simpl in *; subst tb.
  destruct (d_IsLossless src), ll; try (by specialize (Hll eq_refl)); simpl in E;
    repeat (case_cond; simplify_eq/=); bprop; unfold set_Bitrate in *; simpl in *;
    split_and!; try done; intros; split_and?; try done; lia.
Qed.

Lemma computeBitrate_shape src fmt ll ci ts ts' :
  computeBitrate src fmt ll ci ts = Some ts' -> ts' = set_Bitrate (d_Bitrate ts') ts.
Proof.
  unfold computeBitrate. intros E.
  destruct ts as [tc tcod tp tb tsr tbd tch td tsz tll]; simpl in *.
  destruct (d_IsLossless src), ll; simpl in E; repeat (case_cond; simplify_eq/=); done.
Qed.

Lemma resolveTargetFormat_codec p :
  let codec := ToLower (pr_AudioCodec p) in
  (if String.eqb codec "" then snd (resolveTargetFormat p) else codec) = snd (resolveTargetFormat p).
Proof.
  unfold resolveTargetFormat; simpl.
  destruct (String.eqb_spec (pr_AudioCodec p) "") as [->|Hne]; simpl; [done|].
  rewrite <- ToLower_empty in Hne. apply String.eqb_neq in Hne. by rewrite Hne.
Qed.

(** Everything [computeTranscodedStream] checked and computed, on success. *)
Lemma computeTranscodedStream_inv src p ci ts fmt :
  computeTranscodedStream src p ci = Some (ts, fmt) ->
  exists rc ts1 ts2,
    let ll := isLosslessFormat fmt in
    resolveTargetFormat p = (rc, fmt) /\ fmt <> "" /\ LookupTranscodeCommand fmt <> "" /\
    (pr_Protocol p = "" \/ fold_eq (pr_Protocol p) ProtocolHTTP) /\
    (d_IsLossless src = false -> ll = false) /\
    d_Codec (initialStream src p rc fmt ll) = fmt /\
    computeBitrate src fmt ll ci (codecRules (initialStream src p rc fmt ll)) = Some ts1 /\
    ts2 = (if (pr_MaxAudioChannels p >? 0) && (d_Channels ts1 >? pr_MaxAudioChannels p)
           then set_Channels (pr_MaxAudioChannels p) ts1 else ts1) /\
    applyCodecLimitations_loop (d_Bitrate src) ll (d_Codec ts2) (ci_CodecProfiles ci) ts2 = Some ts.
Proof.
  unfold computeTranscodedStream, applyCodecLimitations.
  destruct (negb _ && negb _) eqn:Ep; [done|]. pose proof (resolveTargetFormat_codec p) as Hc.
  destruct (resolveTargetFormat p) as [rc f] eqn:Er; simpl in Hc.
  destruct (String.eqb_spec f "") as [|Hf]; [done|].
  destruct (String.eqb_spec (LookupTranscodeCommand f) "") as [|Hl]; [done|].
  destruct (negb (d_IsLossless src) && isLosslessFormat f) eqn:Ell; [done|].
  destruct (computeBitrate _ _ _ _ _) as [ts1|] eqn:Eb; [|done].
  destruct (applyCodecLimitations_loop _ _ _ _ _) as [ts'|] eqn:Ea; [|done].
  intros [= -> ->]. eexists rc, ts1, _. cbv zeta. split_and!; try done.
  - apply andb_false_iff in Ep as [Ep|Ep]; bprop; [by left|right]. by apply EqualFold_spec.
  - intros Hs. rewrite Hs in Ell. by destruct (isLosslessFormat fmt).
Qed.

(** ** The claims *)

(** A transcoded stream never exceeds what it is made from.  Its channels
    are at most the source's, the profile's and the codec's; its sample rate
    obeys the codec's fixed or maximum rate and is otherwise at most the
    (DSD-normalised) source rate; a lossless target needs a lossless source
    and keeps its bit depth bound; the format has an ffmpeg command, and the
    protocol is HTTP. *)
Theorem computeTranscodedStream_bounds src p ci ts fmt :
  computeTranscodedStream src p ci = Some (ts, fmt) ->
  d_Codec ts = fmt /\ LookupTranscodeCommand fmt <> "" /\
  (pr_Protocol p = "" \/ fold_eq (pr_Protocol p) ProtocolHTTP) /\
  d_IsLossless ts = isLosslessFormat fmt /\ (d_IsLossless ts = true -> d_IsLossless src = true) /\
  d_Channels ts <= d_Channels src /\
  (0 < pr_MaxAudioChannels p -> d_Channels ts <= pr_MaxAudioChannels p) /\
  (0 < codecMaxChannels fmt -> d_Channels ts <= codecMaxChannels fmt) /\
  (0 < codecMaxSampleRate fmt -> d_SampleRate ts <= codecMaxSampleRate fmt) /\
  (0 < codecFixedOutputSampleRate fmt -> d_SampleRate ts <= codecFixedOutputSampleRate fmt) /\
  (codecFixedOutputSampleRate fmt = 0 ->
   d_SampleRate ts <= normalizeSourceSampleRate (d_SampleRate src) (d_Codec src)) /\
  d_BitDepth ts <= targetBitDepth (d_BitDepth src) (d_Codec src) (isLosslessFormat fmt).
Proof.
  intros E. apply computeTranscodedStream_inv in E as (rc & ts1 & ts2 & Hr & Hf & Hcmd & Hpr & Hll & Hcd & Eb & E2 & Ea).
  set (ts0 := initialStream src p rc fmt (isLosslessFormat fmt)) in *.
  destruct (codecRules_spec ts0) as (_ & K2 & K3 & _ & K5 & K6 & K7 & K8 & K9 & K10). rewrite Hcd in *.
  apply applyCodecLimitations_lowered in Ea as (_ & L2 & L3 & L4 & L5 & L6).
  apply computeBitrate_shape in Eb. rewrite Eb in E2. clear Eb. set (b := d_Bitrate ts1) in *.
  assert (d_Codec ts2 = fmt /\ d_IsLossless ts2 = isLosslessFormat fmt /\ d_SampleRate ts2 = d_SampleRate (codecRules ts0) /\
          d_BitDepth ts2 = d_BitDepth ts0 /\ d_Channels ts2 <= d_Channels (codecRules ts0) /\
          (0 < pr_MaxAudioChannels p -> d_Channels ts2 <= pr_MaxAudioChannels p))
    as (M1 & M2 & M3 & M4 & M5 & M6).
  { rewrite E2. case_cond; simpl; bprop; simpl in *; split_and!; done || lia. }
  change (d_Channels ts0) with (d_Channels src) in *.
  change (d_BitDepth ts0) with (targetBitDepth (d_BitDepth src) (d_Codec src) (isLosslessFormat fmt)) in *.
  change (d_SampleRate ts0) with (normalizeSourceSampleRate (d_SampleRate src) (d_Codec src)) in *.
  split_and!; try done; try congruence; try lia.
  rewrite L3, M2. intros Hl. destruct (d_IsLossless src); [done|]. by rewrite Hll in Hl.
Qed.

(** The bit rate of a transcoded stream respects the client: it is at most
    the client's global limit; a lossy source is never re-encoded above its own
    bit rate; a lossless source made lossy stays within the client's
    transcoding limit; a lossless target has none. *)
Lemma computeTranscodedStream_bitrate src p ci ts fmt :
  computeTranscodedStream src p ci = Some (ts, fmt) ->
  positive_limits ci -> 0 <= d_Bitrate src ->
  (0 < ci_MaxAudioBitrate ci -> d_Bitrate ts <= ci_MaxAudioBitrate ci) /\
  (isLosslessFormat fmt = true -> d_Bitrate ts = 0) /\
  (d_IsLossless src = false -> 0 <= d_Bitrate ts <= d_Bitrate src) /\
  (d_IsLossless src = true -> isLosslessFormat fmt = false ->
     0 < d_Bitrate ts /\
     (0 < ci_MaxTranscodingAudioBitrate ci -> d_Bitrate ts <= ci_MaxTranscodingAudioBitrate ci)).
Proof.
  intros E Hpos Hsrc.
  apply computeTranscodedStream_inv in E as (rc & ts1 & ts2 & Hr & Hf & _ & _ & Hll & _ & Eb & E2 & Ea).
  apply computeBitrate_spec in Eb as (B1 & B2 & B3 & B4);
    [|by destruct (codecRules_spec (initialStream src p rc fmt (isLosslessFormat fmt))) as (_ & _ & _ & -> & _)|done|done].
  assert (d_Bitrate ts2 = d_Bitrate ts1) as Eb by (rewrite E2; by case_cond).
  destruct (applyCodecLimitations_bitrate _ _ _ _ _ _ Ea Hpos) as [L1 L2]. rewrite Eb in *.
  destruct (isLosslessFormat fmt) eqn:El.
  - specialize (L2 (or_introl eq_refl)). specialize (B2 eq_refl). split_and!; intros; try done; lia.
  - destruct (d_IsLossless src) eqn:Es.
    + destruct (B3 eq_refl eq_refl) as [P1 P2]. specialize (L1 P1). split_and!; intros; try done; try split; lia.
    + destruct (B4 eq_refl) as [P1 P2]. split_and!; try done; intros.
      all: destruct (decide (d_Bitrate ts1 = 0)) as [Hz|Hz]; [rewrite L2 by (right; split; [done|lia]); lia|].
      all: specialize (L1 ltac:(lia)); lia.
Qed.

(** Every upper limit the client declares for the target codec holds of
    the stream that is finally produced, whatever the order in which the
    limitations were applied. *)
Theorem computeTranscodedStream_upper_limits src p ci ts fmt :
  computeTranscodedStream src p ci = Some (ts, fmt) ->
  forall cp lim limit x, cp ∈ ci_CodecProfiles ci -> targets fmt cp -> lim ∈ cp_Limitations cp ->
    upper_limit lim = Some limit -> limited_field lim ts = Some x -> x <= limit.
Proof.
  intros E cp lim limit x Hcp Ht Hlim.
  apply computeTranscodedStream_inv in E as (rc & ts1 & ts2 & _ & _ & _ & _ & _ & Hcd & Eb & E2 & Ea).
  assert (d_Codec ts2 = fmt) as Hc.
  { assert (d_Codec ts2 = d_Codec ts1) as -> by (rewrite E2; by case_cond).
    rewrite <- Hcd. destruct (codecRules_spec (initialStream src p rc fmt (isLosslessFormat fmt))) as (_ & <- & _).
    by rewrite (computeBitrate_shape _ _ _ _ _ _ Eb). }
  rewrite Hc in Ea. by eapply applyCodecLimitations_upper.
Qed.

(** How a decision relates to the client's profiles. *)
Definition outcome (ci : ClientInfo) (d : TranscodeDecision) : Prop :=
  match td_CanDirectPlay d, td_CanTranscode d with
  | true, true => False
  | true, false => td_TranscodeReasons d = [] /\ td_ErrorReason d = "" /\ td_TranscodeStream d = None
  | false, true =>
      exists ts l1 p l2, td_TranscodeStream d = Some ts /\ td_ErrorReason d = "" /\
        ci_TranscodingProfiles ci = l1 ++ p :: l2 /\
        Forall (fun q => computeTranscodedStream (td_SourceStream d) q ci = None) l1 /\
        computeTranscodedStream (td_SourceStream d) p ci = Some (ts, td_TargetFormat d) /\
        (td_TargetBitrate d, td_TargetChannels d, td_TargetSampleRate d, td_TargetBitDepth d) =
        (d_Bitrate ts, d_Channels ts, d_SampleRate ts, d_BitDepth ts)
  | false, false => td_ErrorReason d = "no compatible playback profile found" /\
      td_TranscodeStream d = None /\
      Forall (fun q => computeTranscodedStream (td_SourceStream d) q ci = None) (ci_TranscodingProfiles ci)
  end.

Lemma decide_with_outcome mf ci probe : outcome ci (decide_with mf ci probe).
Proof.
  unfold outcome, decide_with. set (src := buildSourceStream mf probe).
  assert (forall b rs, (if (ci_MaxAudioBitrate ci >? 0) && (d_Bitrate src >? ci_MaxAudioBitrate ci)
            then (false, ["audio bitrate not supported"])
            else tryDirectPlay src ci (ci_DirectPlayProfiles ci) []) = (b, rs) -> b = true -> rs = []) as Hrs.
  { intros b rs. case_cond; [by intros [= <- <-]|]. intros E1 ->.
    destruct (tryDirectPlay_spec src ci (ci_DirectPlayProfiles ci) []) as [_ Hn]. rewrite E1 in Hn. by apply Hn. }
  destruct (if _ && _ then _ else _) as [[] rs] eqn:E1; simpl; [by rewrite (Hrs _ _ eq_refl eq_refl)|].
  pose proof (tryTranscode_spec src ci (ci_TranscodingProfiles ci)) as Ht.
  destruct (tryTranscode _ _ _) as [[ts f]|]; simpl; [|done].
  destruct Ht as (l1 & p & l2 & ? & ? & ?). by exists ts, l1, p, l2.
Qed.

(** A successful [MakeDecision] is [decide_with] on the file, probed or not. *)
Lemma MakeDecision_inv mf ci skip d mf' writes :
  MakeDecision mf ci skip = (Ok d, mf', writes) ->
  exists probe, d = decide_with mf' ci probe /\ td_SourceStream d = buildSourceStream mf' probe /\
    td_MediaID d = mf_ID mf /\ td_SourceUpdatedAt d = mf_UpdatedAt mf.
Proof.
  intros E.
  assert (exists probe, d = decide_with mf' ci probe /\ mf_ID mf' = mf_ID mf /\ mf_UpdatedAt mf' = mf_UpdatedAt mf)
    as (probe & -> & Hid & Hup).
  { revert E. unfold MakeDecision, ensureProbed. repeat case_match; naive_solver. }
  exists probe. rewrite <- Hid, <- Hup. unfold decide_with. repeat case_match; done.
Qed.

(** C2: Every decision is exactly one of: direct play, with no reasons against
    it; transcoding, to the first of the client's profiles that yields a
    stream, whose numbers the decision repeats; or an error, when no profile
    yields one. *)
Theorem MakeDecision_outcome mf ci skip d mf' writes :
  MakeDecision mf ci skip = (Ok d, mf', writes) ->
  td_MediaID d = mf_ID mf /\ td_SourceUpdatedAt d = mf_UpdatedAt mf /\ outcome ci d.
Proof.
  intros E. apply MakeDecision_inv in E as (probe & -> & _ & -> & ->).
  split_and!; [done..|]. apply decide_with_outcome.
Qed.

(** The bit rate a transcode decision settles on respects the client: it
    is at most the client's global limit; a lossy source is never re-encoded
    above its own bit rate; a lossless source made lossy stays within the
    client's transcoding limit and has a bit rate; a lossless target has none. *)
Theorem MakeDecision_bitrate mf ci skip d mf' writes :
  MakeDecision mf ci skip = (Ok d, mf', writes) -> td_CanTranscode d = true ->
  positive_limits ci -> 0 <= d_Bitrate (td_SourceStream d) ->
  (0 < ci_MaxAudioBitrate ci -> td_TargetBitrate d <= ci_MaxAudioBitrate ci) /\
  (isLosslessFormat (td_TargetFormat d) = true -> td_TargetBitrate d = 0) /\
  (d_IsLossless (td_SourceStream d) = false ->
     0 <= td_TargetBitrate d <= d_Bitrate (td_SourceStream d)) /\
  (d_IsLossless (td_SourceStream d) = true -> isLosslessFormat (td_TargetFormat d) = false ->
     0 < td_TargetBitrate d /\
     (0 < ci_MaxTranscodingAudioBitrate ci -> td_TargetBitrate d <= ci_MaxTranscodingAudioBitrate ci)).
Proof.
  intros E Ht Hpos Hsrc. apply MakeDecision_inv in E as (probe & -> & _).
  pose proof (decide_with_outcome mf' ci probe) as Ho. unfold outcome in Ho. rewrite Ht in Ho.
  destruct (td_CanDirectPlay _); [done|]. destruct Ho as (ts & l1 & p & l2 & _ & _ & _ & _ & Ec & [= -> _ _ _]).
  by eapply computeTranscodedStream_bitrate.
Qed.

(** C1: Direct play is chosen exactly when the client allows it: the source's
    bit rate is within the client's global limit and some direct play profile
    accepts its protocol, container, codec and channels (up to case and
    aliases) while every required limitation on its codec holds. *)
Theorem MakeDecision_direct_play mf ci skip d mf' writes :
  MakeDecision mf ci skip = (Ok d, mf', writes) ->
  td_CanDirectPlay d = true <->
  bitrate_allowed (td_SourceStream d) ci /\
  exists p, p ∈ ci_DirectPlayProfiles ci /\ plays (td_SourceStream d) p ci.
Proof.
  intros E. apply MakeDecision_inv in E as (probe & -> & -> & _). apply decide_with_direct.
Qed.

(** A first decision that probes the file and one made later from the
    stored probe data are the same decision, and the later one writes nothing.
    The JSON codec is assumed to read back what it wrote for this result. *)
Theorem MakeDecision_probe_stable mf ci d mf' writes r data :
  mf_ProbeData mf = "" -> IsProbeAvailable = true -> DevEnableMediaFileProbe = true ->
  ProbeAudioStream (AbsolutePath mf) = Ok r -> MarshalProbe r = Ok data -> data <> "" ->
  UnmarshalProbe data = Ok r ->
  MakeDecision mf ci false = (Ok d, mf', writes) ->
  writes = [(mf_ID mf, data)] /\ MakeDecision mf' ci false = (Ok d, mf', []) /\
  MakeDecision mf' ci true = (Ok d, mf', []).
Proof.
  intros Hp Ha Hd Hprobe Hm Hne Hu. unfold MakeDecision, ensureProbed. rewrite Hp, Ha, Hd, Hprobe, Hm; simpl.
  intros [= <- <- <-]. split; [done|].
  assert (String.eqb data "" = false) as Hb by by apply String.eqb_neq.
  simpl. rewrite Hb; simpl.
  assert (buildSourceStream (set_ProbeData data mf) None = buildSourceStream (set_ProbeData data mf) (Some r)) as Hs.
  { unfold buildSourceStream, parseProbeData; simpl. by rewrite Hb, Hu. }
  unfold decide_with. by rewrite Hs.
Qed.
End facts.

(** ** A concrete client and file *)

(** Six-channel FLAC at 96 kHz, and a client that plays only stereo MP3. *)
Definition demo_probe : AudioProbeResult := mkProbe "flac" "" 2800 96000 24 6.
Definition demo_env : Env := {|
  FindByFormat := fun _ => None;
  IsProbeAvailable := true;
  ProbeAudioStream := fun path => if String.eqb path "/music/a.flac" then Ok demo_probe else Err "no such file";
  MarshalProbe := fun _ => Ok "{flac,2800,96000,24,6}";
  UnmarshalProbe := fun s => if String.eqb s "{flac,2800,96000,24,6}" then Ok demo_probe else Err "syntax";
  DevEnableMediaFileProbe := true;
  DefaultDownsamplingFormat := "opus";
  PlayerFrom := None;
  TranscodingFrom := None
|}.
Definition demo_mf : MediaFile :=
  mkMediaFile "mf1" "/music" "a.flac" "A" "flac" 0 0 2800 96000 (Some 24) 6 "flac" "" 1700000000000000000
    0 "Artist" "al1" "aa1" ["ar1"] "Album" "" "" [] false 0 false.
Definition demo_ci : ClientInfo := mkClientInfo "demo" "" 0 320
  [mkDirectPlayProfile ["mp3"] ["mp3"] ["http"] 2]
  [mkProfile "webm" "" "hls" 0; mkProfile "mp3" "MP3" "http" 4]
  [mkCodecProfile "AudioCodec" "mp3"
     [mkLimitation "audioSamplerate" "LessThanEqual" ["44100"] true;
      mkLimitation "audioBitrate" "Equals" ["128"; "256"; "999"] true]].
Definition demo_src : Details := @buildSourceStream demo_env demo_mf (Some demo_probe).
Definition demo_ts : Details := mkDetails "mp3" "mp3" "" 256 44100 0 2 0 0 false.
Definition demo_d : TranscodeDecision := @decide_with demo_env (set_ProbeData "{flac,2800,96000,24,6}" demo_mf) demo_ci (Some demo_probe).

Lemma demo_transcode :
  @computeTranscodedStream demo_env demo_src (mkProfile "mp3" "MP3" "http" 4) demo_ci = Some (demo_ts, "mp3").
Proof. vm_compute. reflexivity. Qed.

Lemma MakeDecision_direct_play_witness :
  td_CanDirectPlay demo_d = false /\
  (td_CanDirectPlay demo_d = true <->
   bitrate_allowed (td_SourceStream demo_d) demo_ci /\
   exists p, p ∈ ci_DirectPlayProfiles demo_ci /\ plays (td_SourceStream demo_d) p demo_ci).
Proof.
  split; [vm_compute; reflexivity|].
  exact (@MakeDecision_direct_play demo_env demo_mf demo_ci false demo_d
           (set_ProbeData "{flac,2800,96000,24,6}" demo_mf) [("mf1", "{flac,2800,96000,24,6}")] eq_refl).
Defined.

Lemma computeTranscodedStream_bounds_witness :
  d_Codec demo_ts = "mp3" /\ d_Channels demo_ts <= codecMaxChannels "mp3" /\
  d_SampleRate demo_ts <= codecMaxSampleRate "mp3".
Proof.
  destruct (@computeTranscodedStream_bounds demo_env demo_src (mkProfile "mp3" "MP3" "http" 4) demo_ci
    demo_ts "mp3" demo_transcode) as (H1 & _ & _ & _ & _ & _ & _ & H2 & H3 & _).
  split; [exact H1|]. split; [apply H2|apply H3]; vm_compute; reflexivity.
Defined.

Lemma demo_positive_limits : positive_limits demo_ci.
Proof.
  intros cp [->|?%elem_of_nil]%elem_of_cons; [|done].
  repeat constructor; intros [=] v limit Hv Hp.
  repeat (apply elem_of_cons in Hv as [->|Hv]; [vm_compute in Hp; simplify_eq; lia|]).
  by apply elem_of_nil in Hv.
Qed.

Lemma MakeDecision_bitrate_witness :
  td_TargetBitrate demo_d = 256 /\ 0 < td_TargetBitrate demo_d /\
  (0 < ci_MaxTranscodingAudioBitrate demo_ci ->
   td_TargetBitrate demo_d <= ci_MaxTranscodingAudioBitrate demo_ci).
Proof.
  split; [vm_compute; reflexivity|].
  apply (@MakeDecision_bitrate demo_env demo_mf demo_ci false demo_d
           (set_ProbeData "{flac,2800,96000,24,6}" demo_mf) [("mf1", "{flac,2800,96000,24,6}")] eq_refl);
    [vm_compute; reflexivity|apply demo_positive_limits|vm_compute; discriminate|vm_compute; reflexivity..].
Defined.

Lemma computeTranscodedStream_upper_limits_witness :
  d_SampleRate demo_ts <= 44100.
Proof.
  apply (@computeTranscodedStream_upper_limits demo_env demo_src (mkProfile "mp3" "MP3" "http" 4) demo_ci
    demo_ts "mp3" demo_transcode
    (mkCodecProfile "AudioCodec" "mp3"
     [mkLimitation "audioSamplerate" "LessThanEqual" ["44100"] true;
      mkLimitation "audioBitrate" "Equals" ["128"; "256"; "999"] true])
    (mkLimitation "audioSamplerate" "LessThanEqual" ["44100"] true)); [by left| |by left|reflexivity..].
  split; [reflexivity|by left].
Defined.

Lemma MakeDecision_outcome_witness :
  td_CanTranscode demo_d = true /\ td_TranscodeStream demo_d = Some demo_ts /\
  td_MediaID demo_d = mf_ID demo_mf.
Proof.
  split; [vm_compute; reflexivity|]. split; [vm_compute; reflexivity|].
  exact (proj1 (@MakeDecision_outcome demo_env demo_mf demo_ci false demo_d
           (set_ProbeData "{flac,2800,96000,24,6}" demo_mf) [("mf1", "{flac,2800,96000,24,6}")] eq_refl)).
Defined.

Lemma MakeDecision_probe_stable_witness :
  @MakeDecision demo_env (set_ProbeData "{flac,2800,96000,24,6}" demo_mf) demo_ci false =
  (Ok demo_d, set_ProbeData "{flac,2800,96000,24,6}" demo_mf, []).
Proof.
  refine (proj1 (proj2 (@MakeDecision_probe_stable demo_env demo_mf demo_ci demo_d
    (set_ProbeData "{flac,2800,96000,24,6}" demo_mf) [("mf1", "{flac,2800,96000,24,6}")]
    demo_probe "{flac,2800,96000,24,6}" eq_refl eq_refl eq_refl eq_refl eq_refl _ eq_refl eq_refl))).
  discriminate.
Defined.
