(* ===== verification/StreamLegacy.v ===== *)
(** * core/stream/legacy_client.go: resolving stream requests

    [ResolveRequest] calls itself with the configured fallback format; the
    model recurses on fuel, and [ResolveRequest_total] shows two calls are
    always enough. *)

From S2P Require Import Prelude GoStrings Model StreamCodec StreamLimits StreamDecider StreamDeciderFacts.

Local Open Scope Z_scope.

Section legacy.
Context `{Env}.

Definition buildLegacyClientInfo (mf : MediaFile) (reqFormat : string) (reqBitRate playerMaxBitRate : Z)
    : ClientInfo :=
  let targetFormat :=
    if negb (String.eqb reqFormat "") then reqFormat
    else if (reqBitRate >? 0) && (reqBitRate <? mf_BitRate mf) &&
            negb (String.eqb DefaultDownsamplingFormat "") then DefaultDownsamplingFormat
    else if (playerMaxBitRate >? 0) && (playerMaxBitRate <? mf_BitRate mf) &&
            negb (String.eqb DefaultDownsamplingFormat "") then DefaultDownsamplingFormat
    else "" in
  if negb (String.eqb targetFormat "") then
    let dps := if String.eqb reqFormat "" || EqualFold reqFormat (mf_Suffix mf)
               then [mkDirectPlayProfile [mf_Suffix mf] [AudioCodec mf] [ProtocolHTTP] 0] else [] in
    let tps := [mkProfile targetFormat targetFormat ProtocolHTTP 0] in
    if reqBitRate >? 0 then mkClientInfo "legacy" "" reqBitRate reqBitRate dps tps []
    else mkClientInfo "legacy" "" 0 0 dps tps []
  else mkClientInfo "legacy" "" 0 0 [mkDirectPlayProfile [] [] [ProtocolHTTP] 0] [] [].

(** The client info [resolve] decides with: the server's forced transcoding
    wins, otherwise the player's bit rate cap applies. *)
Definition effectiveClientInfo (clientInfo : ClientInfo) : ClientInfo :=
  match TranscodingFrom with
  | Some trc =>
      if negb (String.eqb (trc_TargetFormat trc) "") then applyServerOverride clientInfo trc
      else match PlayerFrom with
           | Some player => fst (CapBitrate (pl_MaxBitRate player) clientInfo)
           | None => clientInfo
           end
  | None =>
      match PlayerFrom with
      | Some player => fst (CapBitrate (pl_MaxBitRate player) clientInfo)
      | None => clientInfo
      end
  end.

Definition raw_request (offset : Z) : Request := mkRequest "raw" 0 0 0 0 offset.

Definition resolve (mf : MediaFile) (clientInfo : ClientInfo) (offset : Z) : Request * bool :=
  let clientInfo := effectiveClientInfo clientInfo in
  match fst (fst (MakeDecision mf clientInfo true)) with
  | Err _ => (raw_request offset, true)
  | Ok decision =>
      if td_CanDirectPlay decision then (raw_request offset, true)
      else if td_CanTranscode decision then
        (mkRequest (td_TargetFormat decision) (td_TargetBitrate decision) (td_TargetSampleRate decision)
           (td_TargetBitDepth decision) (td_TargetChannels decision) offset, true)
      else (mkRequest "" 0 0 0 0 offset, false)
  end.

Fixpoint ResolveRequest (fuel : nat) (mf : MediaFile) (reqFormat : string) (reqBitRate offset : Z)
    : option Request :=
  match fuel with
  | O => None
  | S fuel =>
      if String.eqb reqFormat "raw" then Some (raw_request offset)
      else
        let playerMaxBitRate := match PlayerFrom with Some player => pl_MaxBitRate player | None => 0 end in
        let clientInfo := buildLegacyClientInfo mf reqFormat reqBitRate playerMaxBitRate in
        let '(resolved, ok) := resolve mf clientInfo offset in
        if ok then Some resolved
        else
          let fallbackFormat := DefaultDownsamplingFormat in
          if negb (String.eqb reqFormat "") && negb (String.eqb fallbackFormat "") &&
             negb (EqualFold reqFormat fallbackFormat)
          then ResolveRequest fuel mf fallbackFormat reqBitRate offset
          else Some (raw_request offset)
  end.

Definition ResolveClientRequest (mf : MediaFile) (clientInfo : ClientInfo) (offset : Z) : Request :=
  let '(req, ok) := resolve mf clientInfo offset in
  if ok then req else raw_request offset.

(** ** Facts *)
Lemma resolve_skip_probe mf ci : MakeDecision mf ci true = (Ok (decide_with mf ci None), mf, []).
Proof. done. Qed.

(** With the fallback format itself, one call is enough. *)
Lemma ResolveRequest_fallback mf reqBitRate offset :
  exists req, forall fuel,
    ResolveRequest (S fuel) mf DefaultDownsamplingFormat reqBitRate offset = Some req.
Proof.
  simpl. rewrite EqualFold_refl, andb_false_r. repeat case_match; eauto.
Qed.

(** C12: [ResolveRequest] always answers: the fallback is tried at most once,
    so two calls suffice, and more fuel changes nothing. *)
Theorem ResolveRequest_total mf reqFormat reqBitRate offset :
  exists req, forall fuel, ResolveRequest (S (S fuel)) mf reqFormat reqBitRate offset = Some req.
Proof.
  destruct (ResolveRequest_fallback mf reqBitRate offset) as (r0 & Hr0).
  assert (forall fuel, ResolveRequest (S (S fuel)) mf reqFormat reqBitRate offset =
    if String.eqb reqFormat "raw" then Some (raw_request offset)
    else let '(resolved, ok) := resolve mf (buildLegacyClientInfo mf reqFormat reqBitRate
           (match PlayerFrom with Some player => pl_MaxBitRate player | None => 0 end)) offset in
         if ok then Some resolved
         else if negb (String.eqb reqFormat "") && negb (String.eqb DefaultDownsamplingFormat "") &&
                 negb (EqualFold reqFormat DefaultDownsamplingFormat)
         then Some r0 else Some (raw_request offset)) as Hn.
  { intros fuel. rewrite <- (Hr0 fuel). reflexivity. }
  setoid_rewrite Hn. repeat case_match; eauto.
Qed.

Lemma effectiveClientInfo_capped ci player :
  match TranscodingFrom with Some trc => trc_TargetFormat trc = "" | None => True end ->
  PlayerFrom = Some player -> 0 < pl_MaxBitRate player ->
  let ci' := effectiveClientInfo ci in
  capped (ci_MaxAudioBitrate ci') (pl_MaxBitRate player) /\
  ci_CodecProfiles ci' = ci_CodecProfiles ci /\
  ci_DirectPlayProfiles ci' = ci_DirectPlayProfiles ci.
Proof.
  intros Ht Hp Hcap. simpl.
  assert (effectiveClientInfo ci = fst (CapBitrate (pl_MaxBitRate player) ci)) as ->.
  { unfold effectiveClientInfo. rewrite Hp. destruct TranscodingFrom as [trc|]; [|done].
    by rewrite Ht. }
  destruct (CapBitrate (pl_MaxBitRate player) ci) as [ci' b] eqn:E.
  destruct (CapBitrate_facts _ _ _ _ Hcap E) as (Hc & _ & _ & _ & _ & Heq). simpl. split; [done|].
  split; [exact (f_equal ci_CodecProfiles Heq)|exact (f_equal ci_DirectPlayProfiles Heq)].
Qed.

(** A player's server-side bit rate cap binds every resolved stream: what
    is sent is either the original file, and then its bit rate is within the
    cap, or a transcoding whose bit rate is within the cap to a format the
    server has a command for. *)
Theorem resolve_player_cap mf ci offset req player :
  match TranscodingFrom with Some trc => trc_TargetFormat trc = "" | None => True end ->
  PlayerFrom = Some player -> 0 < pl_MaxBitRate player ->
  0 <= ci_MaxAudioBitrate ci -> positive_limits ci ->
  0 <= d_Bitrate (buildSourceStream mf None) ->
  resolve mf ci offset = (req, true) ->
  rq_Offset req = offset /\
  ((req = raw_request offset /\ d_Bitrate (buildSourceStream mf None) <= pl_MaxBitRate player) \/
   (rq_BitRate req <= pl_MaxBitRate player /\ LookupTranscodeCommand (rq_Format req) <> "")).
Proof.
  intros Ht Hp Hcap Hci Hpos Hsrc. unfold resolve. rewrite resolve_skip_probe; simpl.
  destruct (effectiveClientInfo_capped ci player Ht Hp Hcap) as ([Hne Hle] & Ecp & Edp).
  set (ci' := effectiveClientInfo ci) in *.
  assert (0 < ci_MaxAudioBitrate ci') as Hmax.
  { destruct (CapBitrate (pl_MaxBitRate player) ci) as [c b] eqn:E.
    assert (ci' = c) as ->.
    { subst ci'. unfold effectiveClientInfo. rewrite Hp, E. destruct TranscodingFrom; [|done]. by rewrite Ht. }
    revert E. unfold CapBitrate. repeat (case_cond; simplify_eq/=); bprop; intros; simplify_eq/=; lia. }
  pose proof (decide_with_direct mf ci' None) as Hd. pose proof (decide_with_outcome mf ci' None) as Ho.
  unfold outcome in Ho. destruct (td_CanDirectPlay (decide_with mf ci' None)).
  - intros [= <-]. split; [done|]. left. split; [done|]. destruct Hd as [Hd _].
    destruct (Hd eq_refl) as [Hb _]. specialize (Hb Hmax). lia.
  - destruct (td_CanTranscode _); [|done]. intros [= <-]; simpl. split; [done|]. right.
    destruct Ho as (ts & l1 & p & l2 & _ & _ & _ & _ & Ec & [= -> _ _ _]).
    assert (td_SourceStream (decide_with mf ci' None) = buildSourceStream mf None) as Es.
    { unfold decide_with. repeat case_match; done. }
    rewrite Es in Ec. split.
    + destruct (computeTranscodedStream_bitrate _ _ _ _ _ Ec) as (Hb & _); [|done|specialize (Hb Hmax); lia].
      unfold positive_limits in *. by rewrite Ecp.
    + by apply computeTranscodedStream_inv in Ec as (_ & _ & _ & _ & _ & ? & _).
Qed.

(** A client that asked for another format than the file's is never handed
    the original by direct play: when the request can be served at all, what
    comes back is a transcoding to exactly the requested format. *)
Theorem ResolveRequest_explicit_format mf fmt bitRate offset req playerMax :
  TranscodingFrom = None -> fmt <> "" -> EqualFold fmt (mf_Suffix mf) = false ->
  resolve mf (buildLegacyClientInfo mf fmt bitRate playerMax) offset = (req, true) ->
  rq_Format req = ToLower fmt /\ LookupTranscodeCommand (ToLower fmt) <> "".
Proof.
  intros Ht Hne Hfold. unfold resolve. rewrite resolve_skip_probe; simpl.
  set (ci := effectiveClientInfo _).
  assert (ci_DirectPlayProfiles ci = [] /\ ci_TranscodingProfiles ci = [mkProfile fmt fmt ProtocolHTTP 0]) as [Hdp Htp].
  { subst ci. unfold effectiveClientInfo, buildLegacyClientInfo. rewrite Ht.
    assert (String.eqb fmt "" = false) as -> by by apply String.eqb_neq. simpl.
    rewrite Hfold. rewrite (proj2 (String.eqb_neq _ _) Hne).
    destruct PlayerFrom; unfold CapBitrate, set_MaxAudioBitrate, set_MaxTranscodingAudioBitrate;
      repeat (case_cond; simpl); done. }
  pose proof (decide_with_direct mf ci None) as Hd. pose proof (decide_with_outcome mf ci None) as Ho.
  unfold outcome in Ho. destruct (td_CanDirectPlay (decide_with mf ci None)).
  - destruct Hd as [Hd _]. destruct (Hd eq_refl) as [_ (p & Hin & _)]. rewrite Hdp in Hin.
    by apply elem_of_nil in Hin.
  - destruct (td_CanTranscode _); [|done]. intros [= <-]; simpl.
    destruct Ho as (ts & l1 & p & l2 & _ & _ & Ep & _ & Ec & _). rewrite Htp in Ep.
    assert (p = mkProfile fmt fmt ProtocolHTTP 0) as ->.
    { destruct l1 as [|? [|]]; simplify_eq/=; done. }
    apply computeTranscodedStream_inv in Ec as (rc & _ & _ & Er & _ & Hcmd & _).
    revert Er. unfold resolveTargetFormat; simpl. rewrite (proj2 (String.eqb_neq _ _) Hne); simpl.
    rewrite <- ToLower_empty in Hne. rewrite (proj2 (String.eqb_neq _ _) Hne); simpl.
    intros [= _ Ef]. by rewrite <- Ef in *.
Qed.
End legacy.

(** ** Witnesses *)

(** The same file for a player capped at 192 kbps. *)
Definition capped_env : Env := {|
  FindByFormat := fun _ => None;
  IsProbeAvailable := false;
  ProbeAudioStream := fun _ => Err "unused";
  MarshalProbe := fun _ => Err "unused";
  UnmarshalProbe := fun _ => Err "unused";
  DevEnableMediaFileProbe := false;
  DefaultDownsamplingFormat := "opus";
  PlayerFrom := Some (mkPlayer "p1" 192 true);
  TranscodingFrom := None
|}.
Definition legacy_ci : ClientInfo := @buildLegacyClientInfo capped_env demo_mf "" 0 192.
Definition capped_req : Request := mkRequest "opus" 192 48000 0 6 30.

Lemma resolve_player_cap_witness :
  @resolve capped_env demo_mf legacy_ci 30 = (capped_req, true) /\
  rq_Offset capped_req = 30 /\ rq_BitRate capped_req <= 192.
Proof.
  assert (@resolve capped_env demo_mf legacy_ci 30 = (capped_req, true)) as E
    by (vm_compute; reflexivity).
  split; [exact E|].
  destruct (@resolve_player_cap capped_env demo_mf legacy_ci 30 capped_req (mkPlayer "p1" 192 true))
    as [Ho [[H _]|[H _]]]; [exact I|reflexivity|vm_compute; reflexivity|vm_compute; discriminate
    |intros cp []%elem_of_nil|vm_compute; discriminate|exact E|vm_compute in H; discriminate H|].
  split; [exact Ho|exact H].
Defined.

Lemma ResolveRequest_explicit_format_witness :
  rq_Format (fst (@resolve demo_env demo_mf (@buildLegacyClientInfo demo_env demo_mf "MP3" 128 0) 0)) = "mp3".
Proof.
  refine (proj1 (@ResolveRequest_explicit_format demo_env demo_mf "MP3" 128 0
    (fst (@resolve demo_env demo_mf (@buildLegacyClientInfo demo_env demo_mf "MP3" 128 0) 0)) 0
    eq_refl _ eq_refl _)); [discriminate|].
  vm_compute. reflexivity.
Defined.
