(* ===== verification/StreamToken.v ===== *)
(** * core/stream/token.go: transcode decisions as signed tokens

    A decision travels to the client and back as a JWT.  The signing library
    is the class [TokenAuth]; what the code relies on is [jwt_roundtrip]. *)

From S2P Require Import Prelude GoStrings Model StreamCodec.

Local Open Scope Z_scope.

(** A claim's value.  In a parsed token every number is a [float64]; the
    integers the server writes are exact there up to [2^53]. *)
Inductive claim := CString (s : string) | CBool (b : bool) | CNum (z : Z).

#[export] Instance claim_eq_dec : EqDecision claim.
Proof. solve_decision. Defined.

Class TokenAuth := {
  (** [TokenAuth.Encode]: the signed token. *)
  Encode : gmap string claim -> result string string;
  (** [jwtauth.VerifyToken] at a given time: signature and expiry are checked. *)
  VerifyToken : time -> string -> result string (gmap string claim)
}.

(** The errors of this file: [ErrTokenInvalid] wraps the reason it is joined with. *)
Inductive invalid_reason :=
| DecodeError (e : string)
| MissingMediaID
| MissingSourceTimestamp
| MediaIDMismatch (tokenID fileID : string).
Inductive token_error := ErrTokenInvalid (why : invalid_reason) | ErrTokenStale.

Definition hour : Z := 3600 * second.
Definition tokenTTL : Z := 48 * hour.
Definition ExpirationKey : string := "exp".
Definition IssuerKey : string := "iss".
Definition JWTIssuer : string := "ND".

Record params := mkParams {
  p_MediaID : string;
  p_DirectPlay : bool;
  p_TargetFormat : string;
  p_TargetBitrate : Z;
  p_TargetChannels : Z;
  p_TargetSampleRate : Z;
  p_TargetBitDepth : Z;
  p_SourceUpdatedAt : time
}.

(** [if v != 0 { m[k] = v }]. *)
Definition put_nonzero (k : string) (v : Z) (m : gmap string claim) : gmap string claim :=
  if v =? 0 then m else <[k := CNum v]> m.

Definition toClaimsMap (now : time) (d : TranscodeDecision) : gmap string claim :=
  let m : gmap string claim :=
    <[ExpirationKey := CNum (Unix (now + tokenTTL))]>
    (<["ua" := CNum (Unix (TruncateSecond (td_SourceUpdatedAt d)))]>
     {["mid" := CString (td_MediaID d)]}) in
  let m := if td_CanDirectPlay d then <["dp" := CBool true]> m else m in
  if td_CanTranscode d && negb (String.eqb (td_TargetFormat d) "") then
    put_nonzero "bd" (td_TargetBitDepth d)
      (put_nonzero "sr" (td_TargetSampleRate d)
        (put_nonzero "ch" (td_TargetChannels d)
          (put_nonzero "b" (td_TargetBitrate d) (<["f" := CString (td_TargetFormat d)]> m))))
  else m.

(** [token.Get(key, &v)] at the three types the code uses; [None] is an error. *)
Definition get_string (token : gmap string claim) (key : string) : option string :=
  match token !! key with Some (CString s) => Some s | _ => None end.
Definition get_bool (token : gmap string claim) (key : string) : option bool :=
  match token !! key with Some (CBool b) => Some b | _ => None end.
Definition getIntClaim (token : gmap string claim) (key : string) : Z :=
  match token !! key with Some (CNum z) => z | _ => 0 end.

Definition paramsFromToken (token : gmap string claim) : result invalid_reason params :=
  let MediaID := default "" (get_string token "mid") in
  if String.eqb MediaID "" then Err MissingMediaID
  else
    let DirectPlay := default false (get_bool token "dp") in
    let ua := getIntClaim token "ua" in
    let SourceUpdatedAt := if ua =? 0 then zero_time else FromUnix ua in
    if IsZero SourceUpdatedAt then Err MissingSourceTimestamp
    else
      Ok (mkParams MediaID DirectPlay (default "" (get_string token "f")) (getIntClaim token "b")
            (getIntClaim token "ch") (getIntClaim token "sr") (getIntClaim token "bd") SourceUpdatedAt).

Section token.
Context `{TokenAuth}.

(** [auth.EncodeToken] and [auth.DecodeAndVerifyToken] of [core/auth/auth.go]. *)
Definition EncodeToken (claims : gmap string claim) : result string string :=
  Encode (<[IssuerKey := CString JWTIssuer]> claims).

Definition DecodeAndVerifyToken (now : time) (tokenStr : string) : result string (gmap string claim) :=
  VerifyToken now tokenStr.

Definition CreateTranscodeParams (now : time) (decision : TranscodeDecision) : result string string :=
  EncodeToken (toClaimsMap now decision).

Definition parseTranscodeParams (now : time) (tokenStr : string) : result invalid_reason params :=
  match DecodeAndVerifyToken now tokenStr with
  | Err e => Err (DecodeError e)
  | Ok token => paramsFromToken token
  end.

Definition ResolveRequestFromToken (now : time) (token : string) (mf : MediaFile) (offset : Z)
    : result token_error Request :=
  match parseTranscodeParams now token with
  | Err e => Err (ErrTokenInvalid e)
  | Ok p =>
      if negb (String.eqb (p_MediaID p) (mf_ID mf)) then
        Err (ErrTokenInvalid (MediaIDMismatch (p_MediaID p) (mf_ID mf)))
      else if negb (TruncateSecond (mf_UpdatedAt mf) =? p_SourceUpdatedAt p) then Err ErrTokenStale
      else if negb (p_DirectPlay p) && negb (String.eqb (p_TargetFormat p) "") then
        Ok (mkRequest (p_TargetFormat p) (p_TargetBitrate p) (p_TargetSampleRate p)
              (p_TargetBitDepth p) (p_TargetChannels p) offset)
      else Ok (mkRequest "" 0 0 0 0 offset)
  end.

(** ** What the code relies on *)
Definition exact_number (c : claim) : Prop :=
  match c with CNum z => - 2 ^ 53 <= z <= 2 ^ 53 | _ => True end.

(** Verifying a token before it expires gives back the claims it was signed
    with, the registered ones ([exp], [iss]) apart, which the library keeps in
    its own form. *)
Definition jwt_roundtrip : Prop :=
  forall now m tok exp,
    m !! ExpirationKey = Some (CNum exp) -> now < FromUnix exp -> map_Forall (fun _ => exact_number) m ->
    Encode m = Ok tok ->
    exists m', VerifyToken now tok = Ok m' /\
      forall k, k <> ExpirationKey -> k <> IssuerKey -> m' !! k = m !! k.

(** ** Facts *)

(** Numbers of a decision that a token carries exactly. *)
Definition exact_decision (d : TranscodeDecision) : Prop :=
  Forall (fun z => - 2 ^ 53 <= z <= 2 ^ 53)
    [Unix (td_SourceUpdatedAt d); td_TargetBitrate d; td_TargetChannels d; td_TargetSampleRate d;
     td_TargetBitDepth d].

(** The request a decision stands for. *)
Definition request_of (d : TranscodeDecision) (offset : Z) : Request :=
  if negb (td_CanDirectPlay d) && td_CanTranscode d && negb (String.eqb (td_TargetFormat d) "")
  then mkRequest (td_TargetFormat d) (td_TargetBitrate d) (td_TargetSampleRate d) (td_TargetBitDepth d)
         (td_TargetChannels d) offset
  else mkRequest "" 0 0 0 0 offset.

Lemma put_nonzero_int m k v key :
  getIntClaim (put_nonzero k v m) key =
  if decide (k = key) then (if v =? 0 then getIntClaim m key else v) else getIntClaim m key.
Proof.
  unfold put_nonzero, getIntClaim. destruct (Z.eqb_spec v 0) as [->|]; [by case_decide|].
  rewrite lookup_insert. by case_decide.
Qed.

Lemma put_nonzero_other m k v key : k <> key -> put_nonzero k v m !! key = m !! key.
Proof. intros. unfold put_nonzero. case_cond; [done|]. by rewrite lookup_insert_ne. Qed.

Lemma map_Forall_put_nonzero m k v :
  - 2 ^ 53 <= v <= 2 ^ 53 -> map_Forall (fun _ => exact_number) m ->
  map_Forall (fun _ => exact_number) (put_nonzero k v m).
Proof. intros. unfold put_nonzero. case_cond; [done|]. by apply map_Forall_insert_2. Qed.

Lemma TruncateSecond_Unix t : Unix (TruncateSecond t) = Unix t.
Proof. unfold Unix, TruncateSecond. by rewrite Z.div_mul. Qed.

(** What the claims of a decision say, key by key. *)
Lemma toClaimsMap_lookup now d :
  let m := toClaimsMap now d in
  let tr := td_CanTranscode d && negb (String.eqb (td_TargetFormat d) "") in
  m !! "mid" = Some (CString (td_MediaID d)) /\
  m !! "ua" = Some (CNum (Unix (td_SourceUpdatedAt d))) /\
  m !! ExpirationKey = Some (CNum (Unix (now + tokenTTL))) /\
  default false (get_bool m "dp") = td_CanDirectPlay d /\
  default "" (get_string m "f") = (if tr then td_TargetFormat d else "") /\
  getIntClaim m "b" = (if tr then td_TargetBitrate d else 0) /\
  getIntClaim m "ch" = (if tr then td_TargetChannels d else 0) /\
  getIntClaim m "sr" = (if tr then td_TargetSampleRate d else 0) /\
  getIntClaim m "bd" = (if tr then td_TargetBitDepth d else 0).
Proof.
  unfold toClaimsMap, get_bool, get_string.
  destruct (td_CanTranscode d && negb (String.eqb (td_TargetFormat d) "")), (td_CanDirectPlay d); simpl;
    rewrite ?put_nonzero_other by done; rewrite ?put_nonzero_int; simpl;
    unfold getIntClaim; simplify_map_eq; rewrite ?TruncateSecond_Unix; split_and!; try done;
    case_match; bprop; done.
Qed.

Lemma toClaimsMap_exact now d :
  exact_decision d -> - 2 ^ 53 <= Unix (now + tokenTTL) <= 2 ^ 53 ->
  map_Forall (fun _ => exact_number) (<[IssuerKey := CString JWTIssuer]> (toClaimsMap now d)).
Proof.
  unfold exact_decision. rewrite !Forall_cons_iff. intros (Hu & Hb & Hc & Hs & Hd & _) He.
  apply map_Forall_insert_2; [done|]. unfold toClaimsMap.
  repeat case_cond; repeat (apply map_Forall_put_nonzero; [done|]);
    repeat (apply map_Forall_insert_2; [simpl; rewrite ?TruncateSecond_Unix; done|]);
    apply map_Forall_empty.
Qed.

(** Reading back what was signed. *)
Lemma paramsFromToken_roundtrip now d m' :
  (forall k, k <> ExpirationKey -> k <> IssuerKey ->
     m' !! k = <[IssuerKey := CString JWTIssuer]> (toClaimsMap now d) !! k) ->
  td_MediaID d <> "" -> Unix (td_SourceUpdatedAt d) <> 0 ->
  TruncateSecond (td_SourceUpdatedAt d) <> zero_time ->
  let tr := td_CanTranscode d && negb (String.eqb (td_TargetFormat d) "") in
  paramsFromToken m' = Ok (mkParams (td_MediaID d) (td_CanDirectPlay d)
    (if tr then td_TargetFormat d else "") (if tr then td_TargetBitrate d else 0)
    (if tr then td_TargetChannels d else 0) (if tr then td_TargetSampleRate d else 0)
    (if tr then td_TargetBitDepth d else 0) (TruncateSecond (td_SourceUpdatedAt d))).
Proof.
  intros Hm Hid Hu Hz tr.
  assert (forall k, k <> ExpirationKey -> k <> IssuerKey -> m' !! k = toClaimsMap now d !! k) as Hm'.
  { intros k ??. rewrite Hm by done. by rewrite lookup_insert_ne. }
  destruct (toClaimsMap_lookup now d) as (L1 & L2 & _ & L3 & L4 & L5 & L6 & L7 & L8). fold tr in L4, L5, L6, L7, L8.
  unfold paramsFromToken, get_string, get_bool, getIntClaim in *.
  rewrite !Hm' by done. rewrite L1, L2, L3, L4, L5, L6, L7, L8; simpl.
  rewrite (proj2 (String.eqb_neq _ _) Hid), (proj2 (Z.eqb_neq _ _) Hu), FromUnix_Unix.
  unfold IsZero. by rewrite (proj2 (Z.eqb_neq _ _) Hz).
Qed.


(** A token does not outlive the file it was made for: once the file's
    modification time has changed by a second or more it is refused as stale,
    and for another media id as invalid, whatever it says. *)
Theorem token_bound_to_file now token mf offset req p :
  parseTranscodeParams now token = Ok p ->
  ResolveRequestFromToken now token mf offset = Ok req ->
  p_MediaID p = mf_ID mf /\ p_SourceUpdatedAt p = TruncateSecond (mf_UpdatedAt mf) /\
  (forall mf', TruncateSecond (mf_UpdatedAt mf') <> TruncateSecond (mf_UpdatedAt mf) -> mf_ID mf' = mf_ID mf ->
     ResolveRequestFromToken now token mf' offset = Err ErrTokenStale) /\
  (forall mf', mf_ID mf' <> mf_ID mf ->
     ResolveRequestFromToken now token mf' offset = Err (ErrTokenInvalid (MediaIDMismatch (mf_ID mf) (mf_ID mf')))).
Proof.
  intros Hp. unfold ResolveRequestFromToken. rewrite Hp.
  destruct (String.eqb_spec (p_MediaID p) (mf_ID mf)) as [Ei|]; [|done]; simpl.
  destruct (Z.eqb_spec (TruncateSecond (mf_UpdatedAt mf)) (p_SourceUpdatedAt p)) as [Eu|]; [|done]; simpl.
  intros _. rewrite Ei. split_and!; try done.
  - intros mf' Hu ->. rewrite String.eqb_refl; simpl.
    rewrite (proj2 (Z.eqb_neq _ _)); [done|congruence].
  - intros mf' Hi. by rewrite (proj2 (String.eqb_neq _ _)).
Qed.

(** A file whose modification time is the Unix epoch can be decided on but
    not streamed by token: the timestamp claim zero reads as missing. *)
Theorem token_epoch_refused now now' d tok mf offset :
  jwt_roundtrip ->
  td_MediaID d = mf_ID mf -> mf_ID mf <> "" -> Unix (td_SourceUpdatedAt d) = 0 ->
  exact_decision d -> - 2 ^ 53 <= Unix (now + tokenTTL) <= 2 ^ 53 ->
  now' < FromUnix (Unix (now + tokenTTL)) ->
  CreateTranscodeParams now d = Ok tok ->
  ResolveRequestFromToken now' tok mf offset = Err (ErrTokenInvalid MissingSourceTimestamp).
Proof.
  intros Hjwt Hid Hne Hu Hex Hexp Hnow Hc.
  unfold CreateTranscodeParams, EncodeToken in Hc.
  destruct (toClaimsMap_lookup now d) as (L1 & L2 & L & _).
  destruct (Hjwt now' (<[IssuerKey := CString JWTIssuer]> (toClaimsMap now d)) tok (Unix (now + tokenTTL))) as (m' & Hv & Hm');
    [by rewrite lookup_insert_ne|done|by apply toClaimsMap_exact|done|].
  unfold ResolveRequestFromToken, parseTranscodeParams, DecodeAndVerifyToken. rewrite Hv.
  unfold paramsFromToken, get_string, getIntClaim.
  rewrite !Hm', !lookup_insert_ne, L1, L2, Hu by done; simpl.
  by rewrite Hid, (proj2 (String.eqb_neq _ _) Hne).
Qed.
End token.

(** ** Witnesses: a signing function that keeps the last token it issued *)
Definition witness_mf : MediaFile :=
  mkMediaFile "mf1" "/music" "a.flac" "A" "flac" 0 0 900 44100 None 2 "flac" "" (1700000000 * second + 5)
    0 "Artist" "al1" "aa1" ["ar1"] "Album" "" "" [] false 0 false.
Definition witness_decision : TranscodeDecision :=
  mkDecision "mf1" false true ["audio bitrate not supported"] "" "mp3" 192 2 44100 0
    (mkDetails "" "" "" 0 0 0 0 0 0 false) (1700000000 * second + 5) None.
Definition witness_now : time := 1700000100 * second.
Definition witness_claims : gmap string claim :=
  <[IssuerKey := CString JWTIssuer]> (toClaimsMap witness_now witness_decision).
Definition witness_auth (m0 : gmap string claim) : TokenAuth := {|
  Encode := fun m => if decide (m = m0) then Ok "token" else Err "unknown claims";
  VerifyToken := fun _ tok => if String.eqb tok "token" then Ok m0 else Err "bad token"
|}.

Lemma witness_auth_roundtrip m0 : @jwt_roundtrip (witness_auth m0).
Proof.
  intros now m tok exp _ _ _. simpl. case_decide; [|done]. intros [= <-]. simpl. subst. eauto.
Qed.


Definition epoch_mf : MediaFile :=
  mkMediaFile "mf1" "/music" "a.flac" "A" "flac" 0 0 900 44100 None 2 "flac" "" 0
    0 "Artist" "al1" "aa1" ["ar1"] "Album" "" "" [] false 0 false.
Definition epoch_decision : TranscodeDecision :=
  mkDecision "mf1" false true [] "" "mp3" 192 2 44100 0 (mkDetails "" "" "" 0 0 0 0 0 0 false) 0 None.
Definition epoch_claims : gmap string claim :=
  <[IssuerKey := CString JWTIssuer]> (toClaimsMap witness_now epoch_decision).

Lemma token_epoch_refused_witness :
  @ResolveRequestFromToken (witness_auth epoch_claims) witness_now "token" epoch_mf 0 =
  Err (ErrTokenInvalid MissingSourceTimestamp).
Proof.
  apply (@token_epoch_refused (witness_auth epoch_claims) witness_now witness_now
    epoch_decision "token" epoch_mf 0 (witness_auth_roundtrip _));
    [reflexivity|discriminate|reflexivity|repeat constructor; vm_compute; discriminate
    |split; vm_compute; discriminate|vm_compute; reflexivity|vm_compute; reflexivity].
Defined.

Lemma token_bound_to_file_witness :
  mf_ID epoch_mf = mf_ID witness_mf /\
  @ResolveRequestFromToken (witness_auth witness_claims) witness_now "token" epoch_mf 7 = Err ErrTokenStale.
Proof.
  split; [reflexivity|].
  refine (proj1 (proj2 (proj2 (@token_bound_to_file (witness_auth witness_claims) witness_now "token"
    witness_mf 7 (mkRequest "mp3" 192 44100 0 2 7)
    (mkParams "mf1" false "mp3" 192 2 44100 0 (1700000000 * second)) _ _))) epoch_mf _ _);
    [vm_compute; reflexivity..|vm_compute; discriminate|reflexivity].
Defined.
