(* ===== verification/StreamLimiter.v ===== *)
(** * core/stream/limiter.go: the cap on concurrent transcodes

    [Acquire] and the release closure each take several atomic actions (the
    per-user counter under the mutex, the non-blocking channel send, the
    channel receive), between which other goroutines run.  Each action is a
    function on the limiter's state; [lim_step] interleaves them, and keeps
    the goroutines that are half-way through in the ghost multisets
    [reserving] and [releasing]. *)

From stdpp Require Import gmultiset.
From S2P Require Import Prelude GoStrings.

Local Open Scope Z_scope.

(** The caps of a limiter: [maxConcurrent] is the capacity of the channel
    [global], which is nil when it is not positive. *)
Record caps := mkCaps { maxConcurrent : Z; maxPerUser : Z }.

(** [NewTranscodeLimiter]: [None] is the no-op limiter. *)
Definition NewTranscodeLimiter (c : caps) : option caps :=
  if (maxConcurrent c <=? 0) && (maxPerUser c <=? 0) then None else Some c.

Definition Enabled (l : option caps) : bool := match l with None => false | Some _ => true end.

Record limiter := mkLimiter {
  perUser : gmap string Z;        (** the map guarded by the mutex *)
  global : Z;                     (** tokens in the channel *)
  handles : gmap nat string;      (** release functions handed out and not yet called, with their user *)
  next : nat;
  reserving : gmultiset string;   (** past the per-user check, before the channel send *)
  releasing : gmultiset string    (** slot given back, before [releasePerUser] *)
}.

Definition empty_limiter : limiter := mkLimiter ∅ 0 ∅ 0 ∅ ∅.

Section limiter.
Context (c : caps).

Definition perUserActive (user : string) : bool :=
  (maxPerUser c >? 0) && negb (String.eqb user "").

(** Go's [l.perUser[user]], zero when absent. *)
Definition used (st : limiter) (user : string) : Z := default 0 (perUser st !! user).

(** The first critical section of [Acquire]; [None] is [ErrTooManyTranscodes]. *)
Definition reserveUser (user : string) (st : limiter) : option limiter :=
  if perUserActive user then
    if maxPerUser c <=? used st user then None
    else Some (mkLimiter (<[user := used st user + 1]> (perUser st)) (global st) (handles st) (next st)
                 (reserving st) (releasing st))
  else Some st.

(** The non-blocking send on [global]; [None] takes the default branch. *)
Definition trySend (st : limiter) : option limiter :=
  if maxConcurrent c >? 0 then
    if global st <? maxConcurrent c
    then Some (mkLimiter (perUser st) (global st + 1) (handles st) (next st) (reserving st) (releasing st))
    else None
  else Some st.

Definition releasePerUser (user : string) (st : limiter) : limiter :=
  let n := used st user - 1 in
  let m := <[user := n]> (perUser st) in
  mkLimiter (if n <=? 0 then delete user m else m) (global st) (handles st) (next st)
    (reserving st) (releasing st).

(** The receive from [global] in the release closure. *)
Definition receive (st : limiter) : limiter :=
  if maxConcurrent c >? 0
  then mkLimiter (perUser st) (global st - 1) (handles st) (next st) (reserving st) (releasing st)
  else st.

(** The whole of [Acquire] run without interruption: the new handle. *)
Definition Acquire (user : string) (st : limiter) : option (nat * limiter) * limiter :=
  match reserveUser user st with
  | None => (None, st)
  | Some st1 =>
      match trySend st1 with
      | None => (None, if perUserActive user then releasePerUser user st1 else st1)
      | Some st2 =>
          let st3 := mkLimiter (perUser st2) (global st2) (<[next st2 := user]> (handles st2)) (S (next st2))
                       (reserving st2) (releasing st2) in
          (Some (next st2, st3), st3)
      end
  end.

(** The release closure of handle [h]; the compare-and-swap makes a second
    call do nothing. *)
Definition Release (h : nat) (st : limiter) : limiter :=
  match handles st !! h with
  | None => st
  | Some user =>
      let st := receive (mkLimiter (perUser st) (global st) (delete h (handles st)) (next st)
                           (reserving st) (releasing st)) in
      if perUserActive user then releasePerUser user st else st
  end.

(** ** Interleaved executions *)
Definition set_reserving (r : gmultiset string) (st : limiter) : limiter :=
  mkLimiter (perUser st) (global st) (handles st) (next st) r (releasing st).
Definition set_releasing (r : gmultiset string) (st : limiter) : limiter :=
  mkLimiter (perUser st) (global st) (handles st) (next st) (reserving st) r.
Definition grant (user : string) (st : limiter) : limiter :=
  mkLimiter (perUser st) (global st) (<[next st := user]> (handles st)) (S (next st)) (reserving st) (releasing st).
Definition drop_handle (h : nat) (st : limiter) : limiter :=
  mkLimiter (perUser st) (global st) (delete h (handles st)) (next st) (reserving st) (releasing st).

(** A goroutine about to call [releasePerUser], if its user is counted. *)
Definition owe_release (user : string) (st : limiter) : limiter :=
  if perUserActive user then set_releasing (releasing st ⊎ {[+ user +]}) st else st.

Inductive lim_step (st : limiter) : limiter -> Prop :=
| step_reserve user st1 :
    reserveUser user st = Some st1 ->
    lim_step st (set_reserving (reserving st1 ⊎ {[+ user +]}) st1)
| step_granted user st1 :
    user ∈ reserving st -> trySend st = Some st1 ->
    lim_step st (grant user (set_reserving (reserving st1 ∖ {[+ user +]}) st1))
| step_rejected user :
    user ∈ reserving st -> trySend st = None ->
    lim_step st (owe_release user (set_reserving (reserving st ∖ {[+ user +]}) st))
| step_release h user :
    handles st !! h = Some user ->
    lim_step st (owe_release user (receive (drop_handle h st)))
| step_release_again h :
    handles st !! h = None -> lim_step st st
| step_release_user user :
    user ∈ releasing st ->
    lim_step st (releasePerUser user (set_releasing (releasing st ∖ {[+ user +]}) st)).

(** ** The invariant *)

(** Transcodes of a user that hold a slot. *)
Definition running (st : limiter) (user : string) : nat :=
  size (filter (fun hu : nat * string => hu.2 = user) (handles st)).

(** Everything that counts against a user. *)
Definition counted (st : limiter) (user : string) : nat :=
  (multiplicity user (reserving st) + running st user + multiplicity user (releasing st))%nat.

Record lim_inv (st : limiter) : Prop := {
  inv_fresh : forall h, (next st <= h)%nat -> handles st !! h = None;
  inv_global : 0 < maxConcurrent c ->
    global st = Z.of_nat (size (handles st)) /\ global st <= maxConcurrent c;
  inv_user : forall user, perUserActive user = true ->
    used st user = Z.of_nat (counted st user) /\ used st user <= maxPerUser c;
  inv_dom : forall user n, perUser st !! user = Some n -> perUserActive user = true /\ 0 < n;
  inv_owed : forall user, user ∈ releasing st -> perUserActive user = true
}.

Lemma running_insert st st' h user u :
  handles st !! h = None -> handles st' = <[h := user]> (handles st) ->
  running st' u = ((if decide (user = u) then 1 else 0) + running st u)%nat.
Proof.
  intros Hf E. unfold running. rewrite E. case_decide.
  - rewrite map_filter_insert_True by done. rewrite map_size_insert_None; [done|].
    by rewrite map_lookup_filter_None; left.
  - rewrite map_filter_insert_not'; [done|done|]. intros y Hy. by rewrite Hf in Hy.
Qed.

Lemma running_delete st st' h user u :
  handles st !! h = Some user -> handles st' = delete h (handles st) ->
  running st u = ((if decide (user = u) then 1 else 0) + running st' u)%nat.
Proof.
  intros Hh E.
  rewrite <- (running_insert st' st h user u); [done| |].
  - rewrite E. apply lookup_delete_eq.
  - rewrite E, insert_delete_eq. by rewrite insert_id.
Qed.

Lemma used_releasePerUser user st u :
  used (releasePerUser user st) u =
  if decide (user = u) then Z.max 0 (used st user - 1) else used st u.
Proof.
  unfold used at 1, releasePerUser; simpl. case_decide as Hu.
  - subst u. case_cond; bprop; rewrite ?lookup_delete_eq, ?lookup_insert_eq; simpl; lia.
  - case_cond; rewrite ?lookup_delete_ne, ?lookup_insert_ne; done.
Qed.

Lemma releasePerUser_lookup user st u n :
  perUser (releasePerUser user st) !! u = Some n ->
  (u <> user /\ perUser st !! u = Some n) \/ (u = user /\ n = used st user - 1 /\ 0 < n).
Proof.
  unfold releasePerUser; simpl. destruct (decide (u = user)) as [->|Hne].
  - case_cond; bprop; rewrite ?lookup_delete_eq, ?lookup_insert_eq; intros [=]; subst; right; split_and!; done || lia.
  - case_cond; rewrite ?lookup_delete_ne, ?lookup_insert_ne by done; auto.
Qed.

Ltac counts := unfold counted; simpl; rewrite ?multiplicity_disj_union, ?multiplicity_difference,
  ?multiplicity_singleton.

Lemma inv_step_reserve st user st1 :
  lim_inv st -> reserveUser user st = Some st1 ->
  lim_inv (set_reserving (reserving st1 ⊎ {[+ user +]}) st1).
Proof.
  intros [Hf Hg Hu Hd Ho]. unfold reserveUser. destruct (perUserActive user) eqn:Ea.
  - case_cond; [done|]. intros [= <-]. bprop. split; simpl; try done.
    + intros u Hau. destruct (Hu u Hau) as [E1 E2].
      match goal with |- used ?st' u = _ /\ _ =>
        assert (used st' u = if decide (user = u) then used st user + 1 else used st u) as ->
          by (unfold used; simpl; rewrite lookup_insert; by case_decide) end.
      counts. change (running (set_reserving _ _) u) with (running st u). unfold counted in E1.
      destruct (decide (user = u)) as [->|Hne];
        [rewrite decide_True by done|rewrite decide_False by congruence]; lia.
    + intros u n. rewrite lookup_insert. case_decide; [|by apply Hd]. intros [= <-]. subst.
      destruct (Hu _ Ea) as [E1 _]. rewrite E1. split; [done|lia].
  - intros [= <-]. split; simpl; try done. intros u Hau. destruct (Hu u Hau) as [E1 E2].
    assert (u <> user) by congruence. change (used (set_reserving _ st) u) with (used st u).
    split; [|done]. rewrite E1. counts. change (running (set_reserving _ _) u) with (running st u).
    rewrite decide_False by done. lia.
Qed.

Lemma inv_step_granted st user st1 :
  lim_inv st -> user ∈ reserving st -> trySend st = Some st1 ->
  lim_inv (grant user (set_reserving (reserving st1 ∖ {[+ user +]}) st1)).
Proof.
  intros [Hf Hg Hu Hd Ho] Hin Hs. pose proof (proj1 (elem_of_multiplicity _ _) Hin) as Hm.
  assert (perUser st1 = perUser st /\ handles st1 = handles st /\ next st1 = next st /\
          reserving st1 = reserving st /\ releasing st1 = releasing st /\
          (0 < maxConcurrent c -> global st1 = global st + 1 /\ global st1 <= maxConcurrent c))
    as (Ep & Eh & En & Er & El & Eg).
  { revert Hs. unfold trySend. repeat case_cond; intros; simplify_eq/=; bprop; split_and!; done || lia. }
  assert (handles st !! next st = None) as Hnew by (apply Hf; lia).
  split; simpl; rewrite ?Ep, ?Eh, ?En, ?Er, ?El; try done.
  - intros h Hh. rewrite lookup_insert_ne by lia. apply Hf. lia.
  - intros Hc. destruct (Hg Hc), (Eg Hc). rewrite map_size_insert_None by done. lia.
  - intros u Hau. destruct (Hu u Hau) as [E1 E2]. unfold used in *; simpl; rewrite Ep. split; [|done].
    rewrite E1. counts. rewrite ?Er, ?El.
    match goal with |- context [running (grant ?x ?y) u] =>
      rewrite (running_insert st (grant x y) (next st) user u Hnew) by (simpl; congruence) end.
    repeat case_decide; subst; try done; lia.
Qed.

(** Moving a counted goroutine to [releasing] leaves the counts unchanged. *)
Lemma inv_owe_release st0 st user :
  lim_inv st0 -> perUser st = perUser st0 -> releasing st = releasing st0 ->
  (forall h, (next st <= h)%nat -> handles st !! h = None) ->
  (0 < maxConcurrent c -> global st = Z.of_nat (size (handles st)) /\ global st <= maxConcurrent c) ->
  (forall u, (multiplicity u (reserving st0) + running st0 u =
              (if decide (user = u) then 1 else 0) + multiplicity u (reserving st) + running st u)%nat) ->
  lim_inv (owe_release user st).
Proof.
  intros [Hf Hg Hu Hd Ho] Ep El Hf' Hg' Hcnt.
  assert (forall r, used (set_releasing r st) = used st0) as Eu by (intros; unfold used; simpl; by rewrite Ep).
  unfold owe_release. destruct (perUserActive user) eqn:Ea.
  - split; simpl; rewrite ?Ep; try done.
    + intros u Hau. rewrite Eu. destruct (Hu u Hau) as [E1 E2]. split; [|done]. rewrite E1.
      specialize (Hcnt u). counts. unfold counted, running in *; simpl in *. rewrite El.
      repeat case_decide; subst; try done; lia.
    + intros u. rewrite El. intros [?|Hin]%gmultiset_elem_of_disj_union; [by apply Ho|].
      apply gmultiset_elem_of_singleton in Hin. by subst.
  - split; rewrite ?Ep, ?El; try done. intros u Hau. unfold used; rewrite Ep. destruct (Hu u Hau) as [E1 E2].
    split; [|done]. unfold used in E1. rewrite E1. specialize (Hcnt u). unfold counted. rewrite El.
    rewrite decide_False in Hcnt by congruence. lia.
Qed.

Lemma inv_step_rejected st user :
  lim_inv st -> user ∈ reserving st ->
  lim_inv (owe_release user (set_reserving (reserving st ∖ {[+ user +]}) st)).
Proof.
  intros Hi Hin. pose proof (proj1 (elem_of_multiplicity _ _) Hin) as Hm.
  apply (inv_owe_release st); try done; try apply Hi.
  intros u. counts. change (running (set_reserving _ st) u) with (running st u).
  repeat case_decide; subst; try done; lia.
Qed.

Lemma inv_step_release st h user :
  lim_inv st -> handles st !! h = Some user ->
  lim_inv (owe_release user (receive (drop_handle h st))).
Proof.
  intros Hi Hh. pose proof Hi as [Hf Hg Hu Hd Ho].
  assert (size (handles st) = S (size (delete h (handles st)))) as Hsz.
  { rewrite map_size_delete_Some by eauto. 
    destruct (size (handles st)) eqn:E; [|done]. apply map_size_empty_inv in E. rewrite E in Hh. done. }
  assert (handles (receive (drop_handle h st)) = delete h (handles st) /\
    perUser (receive (drop_handle h st)) = perUser st /\ releasing (receive (drop_handle h st)) = releasing st /\
    reserving (receive (drop_handle h st)) = reserving st /\ next (receive (drop_handle h st)) = next st /\
    (0 < maxConcurrent c -> global (receive (drop_handle h st)) = global st - 1)) as (Eh & Ep & El & Er & En & Eg).
  { unfold receive. case_cond; simpl; bprop; split_and!; done || lia. }
  apply (inv_owe_release st); try done.
  - rewrite En, Eh. intros k Hk. destruct (decide (k = h)) as [->|]; [apply lookup_delete_eq|].
    rewrite lookup_delete_ne by done. by apply Hf.
  - intros Hc. rewrite Eg, Eh by done. destruct (Hg Hc). lia.
  - intros u. rewrite Er. rewrite (running_delete st (receive (drop_handle h st)) h user u Hh Eh).
    case_decide; lia.
Qed.

Lemma inv_step_release_user st user :
  lim_inv st -> user ∈ releasing st ->
  lim_inv (releasePerUser user (set_releasing (releasing st ∖ {[+ user +]}) st)).
Proof.
  intros [Hf Hg Hu Hd Ho] Hin. pose proof (Ho _ Hin) as Ea. pose proof (proj1 (elem_of_multiplicity _ _) Hin) as Hm.
  destruct (Hu user Ea) as [Eu Hle].
  assert (0 < used st user) as Hpos by (rewrite Eu; unfold counted; lia).
  split; try done.
  - intros u Hau. rewrite used_releasePerUser. destruct (Hu u Hau) as [E1 E2].
    change (used (set_releasing _ st)) with (used st). counts.
    change (running (releasePerUser _ _) u) with (running st u). rewrite E1. revert E2. rewrite Eu in *.
    case_decide as Hx; [subst u|]; unfold counted in *.
    + rewrite decide_True by done. lia.
    + rewrite decide_False by congruence. lia.
  - intros u n [[Hne Hl]|(-> & -> & ?)]%releasePerUser_lookup; [by eapply Hd|]. done.
  - simpl. intros u Hx. apply Ho. apply (proj1 (elem_of_multiplicity _ _)) in Hx.
    rewrite multiplicity_difference in Hx. apply (proj2 (elem_of_multiplicity _ _)). lia.
Qed.

Lemma lim_inv_step st st' : lim_inv st -> lim_step st st' -> lim_inv st'.
Proof.
  intros Hi Hs. destruct Hs; eauto using inv_step_reserve, inv_step_granted, inv_step_rejected,
    inv_step_release, inv_step_release_user.
Qed.

Lemma lim_inv_empty : lim_inv empty_limiter.
Proof.
  split; simpl; try done; [| |intros u Hin; exfalso; multiset_solver].
  - intros Hc. rewrite map_size_empty. split; [done|]. lia.
  - intros u Ha. unfold used, counted, running; simpl. rewrite map_filter_empty, map_size_empty.
    rewrite multiplicity_empty. unfold perUserActive in Ha. apply andb_true_iff in Ha as [Ha _].
    rewrite Z.gtb_lt in Ha. rewrite lookup_empty. simpl. split; [done|lia].
Qed.

Lemma lim_inv_reachable st : steps lim_step empty_limiter st -> lim_inv st.
Proof. apply steps_invariant; [exact lim_inv_step|exact lim_inv_empty]. Qed.

(** C14: However the goroutines interleave, the transcodes running at once never
    exceed the global cap, nor one user's the per-user cap, and a receive in a
    release closure always finds a token, so it never blocks. *)
Theorem limiter_caps st :
  steps lim_step empty_limiter st ->
  (0 < maxConcurrent c -> Z.of_nat (size (handles st)) <= maxConcurrent c) /\
  (forall user, perUserActive user = true -> Z.of_nat (running st user) <= maxPerUser c) /\
  (forall h user, handles st !! h = Some user -> 0 < maxConcurrent c -> 0 < global st).
Proof.
  intros [Hf Hg Hu _ _]%lim_inv_reachable. split_and!.
  - intros Hc. destruct (Hg Hc). lia.
  - intros u Ha. destruct (Hu u Ha). unfold counted in *. lia.
  - intros h u Hh Hc. destruct (Hg Hc) as [-> _].
    destruct (size (handles st)) eqn:E; [|lia]. apply map_size_empty_inv in E. by rewrite E in Hh.
Qed.

(** No slot is ever lost: once every transcode has been released and no
    goroutine is inside the limiter, its counters are back to the initial
    state, whatever happened before. *)
Theorem limiter_no_leak st :
  steps lim_step empty_limiter st ->
  handles st = ∅ -> reserving st = ∅ -> releasing st = ∅ ->
  perUser st = ∅ /\ (0 < maxConcurrent c -> global st = 0).
Proof.
  intros [Hf Hg Hu Hd _]%lim_inv_reachable Hh Hr Hl. split.
  - apply map_empty. intros u. destruct (perUser st !! u) as [n|] eqn:E; [|done]. exfalso.
    destruct (Hd _ _ E) as [Ha Hn]. destruct (Hu _ Ha) as [Eu _]. revert Eu.
    unfold used, counted, running. rewrite E, Hr, Hl, Hh, map_filter_empty, map_size_empty, !multiplicity_empty.
    simpl. lia.
  - intros Hc. destruct (Hg Hc) as [-> _]. by rewrite Hh, map_size_empty.
Qed.

(** A slot is free for [user]. *)
Definition has_room (st : limiter) (user : string) : Prop :=
  (0 < maxConcurrent c -> Z.of_nat (size (handles st)) < maxConcurrent c) /\
  (perUserActive user = true -> Z.of_nat (counted st user) < maxPerUser c).

Lemma releasePerUser_reserve user st st1 :
  lim_inv st -> perUserActive user = true -> reserveUser user st = Some st1 ->
  releasePerUser user st1 = st.
Proof.
  intros [_ _ Hu Hd _] Ha. unfold reserveUser. rewrite Ha. case_cond; [done|]. intros [= <-].
  unfold releasePerUser.
  match goal with |- context [used ?st1 user - 1] =>
    assert (used st1 user - 1 = used st user) as ->
      by (unfold used at 1; simpl; rewrite lookup_insert_eq; simpl; lia) end.
  simpl. rewrite insert_insert_eq.
  destruct st as [pu g hs nx rs rl]; unfold used in *; simpl in *. f_equal.
  destruct (pu !! user) as [n|] eqn:E; simpl.
  - destruct (Hd _ _ E) as [_ Hn]. case_cond; bprop; [lia|]. by apply insert_id.
  - by apply delete_insert_id.
Qed.

(** Run on its own, [Acquire] grants a slot exactly when there is room
    under both caps, hands out a fresh release function, and when it refuses
    leaves the limiter exactly as it was. *)
Theorem Acquire_correct user st :
  steps lim_step empty_limiter st ->
  match Acquire user st with
  | (Some (h, st'), st'') => st'' = st' /\ has_room st user /\
      handles st !! h = None /\ handles st' = <[h := user]> (handles st) /\ lim_inv st'
  | (None, st'') => st'' = st /\ ~ has_room st user
  end.
Proof.
  intros Hi%lim_inv_reachable. pose proof Hi as [Hf Hg Hu Hd Ho]. unfold Acquire, has_room.
  destruct (reserveUser user st) as [st1|] eqn:E1.
  - assert (handles st1 = handles st /\ next st1 = next st /\ global st1 = global st /\ reserving st1 = reserving st)
      as (Eh & En & Eg & Er).
    { revert E1. unfold reserveUser. repeat case_cond; intros [= <-]; split_and!; done. }
    assert (perUserActive user = true -> Z.of_nat (counted st user) < maxPerUser c) as Hroom.
    { intros Ha. destruct (Hu _ Ha) as [<- _]. revert E1. unfold reserveUser. rewrite Ha.
      case_cond; [done|]. bprop. done. }
    destruct (trySend st1) as [st2|] eqn:E2.
    + pose proof (inv_step_reserve _ _ _ Hi E1) as Hi1.
      assert (exists st3, trySend (set_reserving (reserving st1 ⊎ {[+ user +]}) st1) = Some st3 /\
        st3 = set_reserving (reserving st1 ⊎ {[+ user +]}) st2 /\ reserving st2 = reserving st1 /\
        handles st2 = handles st1 /\ next st2 = next st1) as (st3 & E3 & -> & Er2 & Eh2 & En2).
      { revert E2. unfold trySend; simpl. repeat case_cond; intros; simplify_eq/=; by eexists. }
      apply (inv_step_granted _ user _ Hi1) in E3; [|simpl; multiset_solver]. simpl in E3.
      replace ((reserving st1 ⊎ {[+ user +]}) ∖ {[+ user +]}) with (reserving st1) in E3 by multiset_solver.
      split_and!; [done| |done| | |].
      * intros Hc. destruct (Hg Hc) as [<- _]. revert E2. unfold trySend. rewrite <- Eg.
        repeat case_cond; intros; simplify_eq; bprop; lia.
      * apply Hf. rewrite En2, En. lia.
      * simpl. by rewrite Eh2, Eh.
      * unfold grant, set_reserving in E3; simpl in E3. by rewrite <- Er2 in E3.
    + split.
      * case_cond; [by apply releasePerUser_reserve|]. revert E1. unfold reserveUser. rewrite Heqb. by intros [= ->].
      * intros [Hc _]. revert E2. unfold trySend. repeat case_cond; try done. bprop. intros _.
        specialize (Hc ltac:(lia)). destruct (Hg ltac:(lia)) as [Hs _]. lia.
  - split; [done|]. intros [_ Hr]. revert E1. unfold reserveUser. repeat case_cond; try done. bprop. intros _.
    specialize (Hr eq_refl). destruct (Hu user) as [Hx _]; [done|]. lia.
Qed.
(** An uninterrupted, successful [Acquire] is two steps. *)
Lemma Acquire_steps user st h st' :
  Acquire user st = (Some (h, st'), st') -> steps lim_step st st'.
Proof.
  unfold Acquire. destruct (reserveUser user st) as [st1|] eqn:E1; [|done].
  destruct (trySend st1) as [st2|] eqn:E2; [|done]. intros [= <- <-].
  eapply steps_snoc; [eapply steps_one, (step_reserve _ _ _ E1)|].
  set (st1' := set_reserving _ st1).
  assert (trySend st1' = Some (set_reserving (reserving st1 ⊎ {[+ user +]}) st2)) as E3.
  { revert E2. subst st1'. unfold trySend; simpl. repeat case_cond; [|done|]; by intros [= <-]. }
  pose proof (step_granted st1' user _ ltac:(subst st1'; simpl; multiset_solver) E3) as Hs.
  unfold grant in Hs; simpl in Hs.
  replace ((reserving st1 ⊎ {[+ user +]}) ∖ {[+ user +]}) with (reserving st2) in Hs; [exact Hs|].
  assert (reserving st2 = reserving st1) as ->
    by (revert E2; unfold trySend; repeat case_cond; [|done|]; by intros [= <-]).
  multiset_solver.
Qed.

(** So is a release: the first call of the closure, and any later one. *)
Lemma Release_steps h st : steps lim_step st (Release h st).
Proof.
  unfold Release. destruct (handles st !! h) as [user|] eqn:E;
    [|eapply steps_one, step_release_again; exact E].
  pose proof (step_release st h user E) as Hs. unfold owe_release in Hs.
  change (mkLimiter _ _ _ _ _ _) with (drop_handle h st).
  destruct (perUserActive user) eqn:Ea; [|by apply steps_one].
  eapply steps_snoc; [by apply steps_one|].
  set (st1 := receive (drop_handle h st)) in *.
  pose proof (step_release_user (set_releasing (releasing st1 ⊎ {[+ user +]}) st1) user
    ltac:(simpl; multiset_solver)) as Hs2. simpl in Hs2.
  replace ((releasing st1 ⊎ {[+ user +]}) ∖ {[+ user +]}) with (releasing st1) in Hs2 by multiset_solver.
  by destruct st1.
Qed.
End limiter.

(** ** Witnesses: two users under caps of two at once and one each *)
Definition demo_caps : caps := mkCaps 2 1.
Definition after (st : option (nat * limiter) * limiter) : limiter := snd st.
Definition one_alice : limiter := after (Acquire demo_caps "alice" empty_limiter).
Definition alice_bob : limiter := after (Acquire demo_caps "bob" one_alice).

Lemma alice_bob_reachable : steps (lim_step demo_caps) empty_limiter alice_bob.
Proof.
  eapply steps_trans.
  - eapply (Acquire_steps demo_caps "alice"). vm_compute. reflexivity.
  - eapply (Acquire_steps demo_caps "bob"). vm_compute. reflexivity.
Qed.

Lemma limiter_caps_witness :
  size (handles alice_bob) = 2%nat /\ Z.of_nat (size (handles alice_bob)) <= maxConcurrent demo_caps.
Proof.
  split; [vm_compute; reflexivity|].
  apply (proj1 (limiter_caps demo_caps alice_bob alice_bob_reachable)). vm_compute. reflexivity.
Defined.

(** Both released, one of them twice. *)
Definition drained : limiter :=
  Release demo_caps 1 (Release demo_caps 0 (Release demo_caps 0 alice_bob)).

Lemma drained_reachable : steps (lim_step demo_caps) empty_limiter drained.
Proof.
  unfold drained. do 3 (eapply steps_trans; [|apply Release_steps]). apply alice_bob_reachable.
Qed.

Lemma limiter_no_leak_witness :
  perUser alice_bob <> ∅ /\ perUser drained = ∅ /\ global drained = 0.
Proof.
  split; [vm_compute; discriminate|].
  destruct (limiter_no_leak demo_caps drained drained_reachable) as [H1 H2];
    [vm_compute; reflexivity..|].
  split; [exact H1|]. apply H2. vm_compute. reflexivity.
Defined.

Lemma Acquire_correct_witness :
  fst (Acquire demo_caps "carol" alice_bob) = None /\ ~ has_room demo_caps alice_bob "carol".
Proof.
  pose proof (Acquire_correct demo_caps "carol" alice_bob alice_bob_reachable) as H.
  assert (fst (Acquire demo_caps "carol" alice_bob) = None) as E by (vm_compute; reflexivity).
  destruct (Acquire demo_caps "carol" alice_bob) as [[[h st']|] st'']; [discriminate E|].
  split; [exact E|apply H].
Defined.
