(* ===== verification/PlayQueue.v ===== *)
(** * The jukebox play queue

    [core/playback/queue.go].  A queue is a slice of media files with the index
    of the current one, -1 when there is none.  [Current] and [Remove] index the
    slice and panic out of range: they return [None] there.  The random
    positions [rand.Shuffle] draws are an argument. *)

From S2P Require Import Prelude GoStrings Model.

Local Open Scope Z_scope.

Record Queue := mkQueue { q_Index : Z; q_Items : list MediaFile }.

Definition NewQueue : Queue := mkQueue (-1) [].

(** [len(pd.Items)]. *)
Definition Size (pd : Queue) : Z := Z.of_nat (length (q_Items pd)).
Definition IsEmpty (pd : Queue) : bool := Size pd <? 1.

(** [None] is the panic of an index below -1; [Some None] is nil. *)
Definition Current (pd : Queue) : option (option MediaFile) :=
  if q_Index pd =? -1 then Some None
  else if Size pd <=? q_Index pd then Some None
  else if q_Index pd <? 0 then None
  else Some (q_Items pd !! Z.to_nat (q_Index pd)).

Definition Clear (pd : Queue) : Queue := mkQueue (-1) [].

Definition Set_ (items : list MediaFile) (pd : Queue) : Queue :=
  let pd := Clear pd in mkQueue (q_Index pd) (q_Items pd ++ items).

Definition Add (items : list MediaFile) (pd : Queue) : Queue :=
  let items' := q_Items pd ++ items in
  if (q_Index pd =? -1) && (0 <? Z.of_nat (length items')) then mkQueue 0 items'
  else mkQueue (q_Index pd) items'.

(** The range loop of [getMediaFileIndexByID], counting from [idx]. *)
Fixpoint indexByID_from (id : string) (idx : Z) (items : list MediaFile) : option Z :=
  match items with
  | [] => None
  | item :: items => if String.eqb (mf_ID item) id then Some idx
                     else indexByID_from id (idx + 1) items
  end.

(** [None] is the "ID not found in playlist" error. *)
Definition getMediaFileIndexByID (id : string) (pd : Queue) : option Z :=
  indexByID_from id 0 (q_Items pd).

(** The id kept across a reordering: that of the current track, or "". *)
Definition backupID (current : option MediaFile) : string :=
  match current with Some mf => mf_ID mf | None => "" end.

(** [append(pd.Items[:idx], pd.Items[idx+1:]...)], which panics out of range. *)
Definition cut (idx : Z) (items : list MediaFile) : option (list MediaFile) :=
  if (0 <=? idx) && (idx <? Z.of_nat (length items))
  then Some (take (Z.to_nat idx) items ++ drop (S (Z.to_nat idx)) items)
  else None.

Definition Remove (idx : Z) (pd : Queue) : option Queue :=
  current ← Current pd;
  items ← cut idx (q_Items pd);
  let pd := mkQueue (q_Index pd) items in
  Some (mkQueue (default (-1) (getMediaFileIndexByID (backupID current) pd)) items).

(** The swap function given to [rand.Shuffle]. *)
Definition swap {A} (i j : nat) (items : list A) : list A :=
  match items !! i, items !! j with
  | Some a, Some b => <[j := a]> (<[i := b]> items)
  | _, _ => items
  end.

(** [rand.Shuffle]: for i from n-1 down to 1, swap i with a draw from [0, i].
    [draw i] is the value [Intn(i+1)] returns in round i. *)
Fixpoint shuffle_from {A} (draw : nat -> nat) (i : nat) (items : list A) : list A :=
  match i with
  | O => items
  | S i' => shuffle_from draw i' (swap i (draw i) items)
  end.

Definition rand_Shuffle {A} (draw : nat -> nat) (items : list A) : list A :=
  shuffle_from draw (pred (length items)) items.

(** [getMediaFileIndexByID] returns -1 with its error, and [Shuffle] stores it. *)
Definition Shuffle (draw : nat -> nat) (pd : Queue) : option Queue :=
  current ← Current pd;
  let items := rand_Shuffle draw (q_Items pd) in
  let pd := mkQueue (q_Index pd) items in
  Some (mkQueue (default (-1) (getMediaFileIndexByID (backupID current) pd)) items).

Definition SetIndex (idx : Z) (pd : Queue) : Queue :=
  mkQueue (Z.max 0 (Z.min idx (Size pd - 1))) (q_Items pd).

Definition IsAtLastElement (pd : Queue) : bool := Size pd <=? q_Index pd + 1.

Definition IncreaseIndex (pd : Queue) : Queue :=
  if negb (IsAtLastElement pd) then SetIndex (q_Index pd + 1) pd else pd.

(** ** The index invariant *)

(** The index is -1 or names a track; on an empty queue it may also be 0. *)
Definition queue_wf (pd : Queue) : Prop :=
  -1 <= q_Index pd < Z.max 1 (Size pd).

#[export] Instance queue_wf_dec pd : Decision (queue_wf pd).
Proof. unfold queue_wf. apply _. Defined.

Lemma Size_nonneg pd : 0 <= Size pd.
Proof. unfold Size. lia. Qed.

Lemma NewQueue_wf : queue_wf NewQueue.
Proof. done. Qed.

Lemma Clear_wf pd : queue_wf (Clear pd).
Proof. done. Qed.

Lemma Set_wf items pd : queue_wf (Set_ items pd).
Proof. unfold queue_wf, Size. simpl. lia. Qed.

Lemma Add_wf items pd : queue_wf pd -> queue_wf (Add items pd).
Proof.
  unfold queue_wf, Add, Size. intros H.
  destruct (_ && _) eqn:E; simpl; bprop; rewrite ?length_app in *; lia.
Qed.

Lemma SetIndex_wf idx pd : queue_wf (SetIndex idx pd).
Proof. unfold queue_wf, SetIndex, Size. simpl. lia. Qed.

Lemma IncreaseIndex_wf pd : queue_wf pd -> queue_wf (IncreaseIndex pd).
Proof. unfold IncreaseIndex. case_cond; auto using SetIndex_wf. Qed.

(** A search returns the first position of the id, counted from the start. *)
Lemma indexByID_from_spec id items : forall idx i,
  indexByID_from id idx items = Some i <->
  exists n mf, i = idx + Z.of_nat n /\ items !! n = Some mf /\ mf_ID mf = id /\
    forall m mf', (m < n)%nat -> items !! m = Some mf' -> mf_ID mf' <> id.
Proof.
  induction items as [|x items IH]; intros idx i; simpl.
  { split; [done|]. by intros (n & mf & _ & H & _). }
  destruct (String.eqb_spec (mf_ID x) id) as [E|E].
  - split.
    + intros [= <-]. exists 0%nat, x. repeat split; auto; [lia|]. intros. lia.
    + intros (n & mf & -> & Hn & Hid & Hfst). destruct n as [|n]; [by rewrite Z.add_0_r|].
      by destruct (Hfst 0%nat x ltac:(lia) eq_refl).
  - rewrite IH. split; intros (n & mf & -> & Hn & Hid & Hfst).
    + exists (S n), mf. repeat split; auto; [lia|].
      intros [|m] mf' Hm Hl; simpl in *; [by simplify_eq|]. eapply Hfst; [|done]. lia.
    + destruct n as [|n]; simpl in *; [by simplify_eq|].
      exists n, mf. repeat split; auto; [lia|].
      intros m mf' Hm Hl. apply (Hfst (S m) mf'); [lia|done].
Qed.

Lemma indexByID_from_none id items idx :
  indexByID_from id idx items = None <-> forall mf, mf ∈ items -> mf_ID mf <> id.
Proof.
  revert idx. induction items as [|x items IH]; intros idx; simpl.
  { split; [|done]. intros _ mf Hmf. by apply not_elem_of_nil in Hmf. }
  destruct (String.eqb_spec (mf_ID x) id) as [E|E].
  - split; [done|]. intros H. by destruct (H x (list_elem_of_here _ _)).
  - rewrite IH. split.
    + intros H mf [->|Hmf]%elem_of_cons; auto.
    + intros H mf Hmf. apply H. by right.
Qed.

Lemma indexByID_bounds id items i :
  indexByID_from id 0 items = Some i -> 0 <= i < Z.of_nat (length items).
Proof.
  intros (n & mf & -> & Hn & _)%indexByID_from_spec. apply lookup_lt_Some in Hn. lia.
Qed.

(** The index stored after a reordering is valid. *)
Lemma reindex_wf id items :
  queue_wf (mkQueue (default (-1) (indexByID_from id 0 items)) items).
Proof.
  unfold queue_wf, Size. simpl. destruct (indexByID_from id 0 items) eqn:E; simpl; [|lia].
  apply indexByID_bounds in E. lia.
Qed.

(** On a well-formed queue [Current] does not panic. *)
Lemma Current_wf pd :
  queue_wf pd ->
  Current pd = Some (if q_Index pd =? -1 then None else q_Items pd !! Z.to_nat (q_Index pd)).
Proof.
  unfold queue_wf, Current. intros H. case_cond; [done|]. case_cond.
  - bprop. rewrite lookup_ge_None_2; [done|]. unfold Size in *. lia.
  - case_cond; [|done]. bprop. lia.
Qed.

Lemma Current_elem pd mf : Current pd = Some (Some mf) -> mf ∈ q_Items pd.
Proof.
  unfold Current. intros H. case_conds. by eapply list_elem_of_lookup_2.
Qed.

Lemma Current_SetIndex idx pd :
  Current (SetIndex idx pd) = Some (q_Items pd !! Z.to_nat (Z.max 0 (Z.min idx (Size pd - 1)))).
Proof.
  rewrite Current_wf by apply SetIndex_wf. unfold SetIndex. simpl. case_cond; [|done].
  bprop. lia.
Qed.

Lemma cut_spec idx items items' :
  cut idx items = Some items' ->
  0 <= idx < Z.of_nat (length items) /\
  items' = take (Z.to_nat idx) items ++ drop (S (Z.to_nat idx)) items.
Proof. unfold cut. case_cond; [|done]. intros [= <-]. bprop. split; [lia|done]. Qed.

Lemma Remove_wf idx pd pd' : Remove idx pd = Some pd' -> queue_wf pd'.
Proof.
  unfold Remove. intros (c & Hc & (items & Hi & [= <-])%bind_Some)%bind_Some.
  apply reindex_wf.
Qed.

Lemma cut_total idx items :
  0 <= idx < Z.of_nat (length items) ->
  cut idx items = Some (take (Z.to_nat idx) items ++ drop (S (Z.to_nat idx)) items).
Proof. intros Hi. unfold cut. case_cond; [done|]. bprop. lia. Qed.

Lemma Remove_total idx pd :
  queue_wf pd -> 0 <= idx < Size pd -> exists pd', Remove idx pd = Some pd'.
Proof.
  intros Hq Hi. unfold Remove. rewrite Current_wf, cut_total by done. by eexists.
Qed.

Lemma Shuffle_wf draw pd pd' : Shuffle draw pd = Some pd' -> queue_wf pd'.
Proof. unfold Shuffle. intros (c & Hc & [= <-])%bind_Some. apply reindex_wf. Qed.

(** ** Reordering keeps the current track *)

(** When an item with the id is left, the new current track has that id. *)
Lemma reindex_current id items i :
  indexByID_from id 0 items = Some i ->
  exists mf, Current (mkQueue (default (-1) (indexByID_from id 0 items)) items) = Some (Some mf)
    /\ mf_ID mf = id.
Proof.
  intros H. rewrite Current_wf by apply reindex_wf. simpl. rewrite H. simpl.
  apply indexByID_from_spec in H as (n & mf & -> & Hn & Hid & _). exists mf.
  destruct (Z.eqb_spec (0 + Z.of_nat n) (-1)); [lia|].
  by rewrite Z.add_0_l, Nat2Z.id, Hn.
Qed.

(** ** Fisher-Yates *)

Definition draws_ok (draw : nat -> nat) : Prop := forall i, (draw i <= i)%nat.

Lemma swap_lookup_lt {A} i j (items : list A) :
  (i < length items)%nat -> (j < length items)%nat ->
  exists a b, items !! i = Some a /\ items !! j = Some b /\
    swap i j items = <[j := a]> (<[i := b]> items).
Proof.
  intros [a Ha]%lookup_lt_is_Some [b Hb]%lookup_lt_is_Some.
  exists a, b. unfold swap. by rewrite Ha, Hb.
Qed.

Lemma swap_length {A} i j (items : list A) : length (swap i j items) = length items.
Proof. unfold swap. repeat case_match; by rewrite ?length_insert. Qed.

Lemma insert_perm {A} (i : nat) (a x : A) (l : list A) :
  l !! i = Some x -> a :: l ≡ₚ x :: <[i := a]> l.
Proof.
  intros H. rewrite insert_take_drop by (by eapply lookup_lt_Some).
  rewrite <- (take_drop_middle l i x H) at 1. solve_Permutation.
Qed.

Lemma swap_perm {A} i j (items : list A) : swap i j items ≡ₚ items.
Proof.
  unfold swap. destruct (items !! i) as [a|] eqn:Ha; [|done].
  destruct (items !! j) as [b|] eqn:Hb; [|done].
  destruct (decide (i = j)) as [->|Hij].
  { simplify_eq. by rewrite list_insert_insert_eq, list_insert_id. }
  apply (Permutation_cons_inv (a := b)).
  etransitivity; [|symmetry; by apply (insert_perm i b a)].
  symmetry. apply insert_perm. by rewrite list_lookup_insert_ne.
Qed.

Lemma shuffle_from_perm {A} draw i (items : list A) : shuffle_from draw i items ≡ₚ items.
Proof.
  revert items. induction i as [|i IH]; intros items; simpl; [done|].
  by rewrite IH, swap_perm.
Qed.

Lemma swap_app {A} i j (p s : list A) :
  (i < length p)%nat -> (j < length p)%nat -> swap i j (p ++ s) = swap i j p ++ s.
Proof.
  intros Hi Hj. unfold swap. rewrite !lookup_app_l by done.
  destruct (p !! i), (p !! j); try done.
  by rewrite insert_app_l, insert_app_l by (by rewrite ?length_insert).
Qed.

Lemma shuffle_from_app {A} draw i (p s : list A) :
  draws_ok draw -> (i < length p)%nat ->
  shuffle_from draw i (p ++ s) = shuffle_from draw i p ++ s.
Proof.
  intros Hd. revert p. induction i as [|i IH]; intros p Hi; [done|].
  cbn [shuffle_from]. pose proof (Hd (S i)).
  rewrite swap_app by lia. apply IH. rewrite swap_length. lia.
Qed.

(** Draws that agree up to the first round give the same order. *)
Lemma shuffle_from_ext {A} d1 d2 i (items : list A) :
  (forall k, (k <= i)%nat -> d1 k = d2 k) -> shuffle_from d1 i items = shuffle_from d2 i items.
Proof.
  revert items. induction i as [|i IH]; intros items H; simpl; [done|].
  rewrite (H (S i)) by lia. apply IH. intros. apply H. lia.
Qed.

Lemma insert_last {A} (l : list A) (a x : A) :
  (<[length l := a]> (l ++ [x])) = l ++ [a].
Proof. by rewrite insert_app_r_alt, Nat.sub_diag by lia. Qed.

(** One round can bring any element to the last position. *)
Lemma swap_bring_last {A} (l : list A) (a : A) n :
  length l = S n -> a ∈ l ->
  exists j p, (j <= n)%nat /\ swap n j l = p ++ [a] /\ length p = n.
Proof.
  intros Hlen [j Hj]%list_elem_of_lookup_1.
  pose proof (lookup_lt_Some _ _ _ Hj) as Hlt.
  destruct l as [|x p _] using rev_ind; [done|].
  rewrite length_app in Hlen, Hlt. simpl in Hlen, Hlt.
  assert (n = length p) as -> by lia.
  assert (swap (length p) j (p ++ [x]) = <[j := x]> (<[length p := a]> (p ++ [x]))) as Hs.
  { unfold swap. by rewrite Hj, list_lookup_middle. }
  destruct (decide (j = length p)) as [->|Hne].
  - exists (length p), p. rewrite list_lookup_middle in Hj by done. simplify_eq.
    rewrite Hs, !insert_last. auto.
  - exists j, (<[j := x]> p). rewrite Hs, insert_last, insert_app_l by lia.
    rewrite length_insert. split; [lia|auto].
Qed.

(** Every order of the items is the result of some draws. *)
Lemma shuffle_from_all {A} (n : nat) : forall (items target : list A),
  length items = n -> target ≡ₚ items ->
  exists draw, draws_ok draw /\ shuffle_from draw (pred n) items = target.
Proof.
  induction n as [|n IH]; intros items target Hlen Hp.
  { apply nil_length_inv in Hlen as ->. apply Permutation_nil_r in Hp as ->.
    exists (fun i => i). split; [intros i; lia|done]. }
  destruct target as [|a t _] using rev_ind.
  { apply Permutation_length in Hp. simpl in Hp. lia. }
  assert (a ∈ items) as Ha by (rewrite <- Hp; apply elem_of_app; right; by left).
  destruct (swap_bring_last items a n Hlen Ha) as (j & p & Hj & Hswap & Hlp).
  assert (t ≡ₚ p) as Htp.
  { apply (Permutation_app_inv_r [a]). by rewrite Hp, <- Hswap, swap_perm. }
  destruct (IH p t Hlp Htp) as (draw & Hdraw & Hsh).
  destruct n as [|n].
  { exists (fun i => i). split; [intros i; lia|].
    destruct items as [|x [|]]; [done| |done]. by apply Permutation_singleton_r in Hp. }
  exists (fun i => if decide (i = S n) then j else draw i). split.
  { intros i. case_decide; [subst; lia|apply Hdraw]. }
  simpl. rewrite decide_True by done. rewrite Hswap.
  rewrite (shuffle_from_ext _ draw) by (intros; by rewrite decide_False by lia).
  rewrite shuffle_from_app by (done || lia). simpl in Hsh. by rewrite Hsh.
Qed.

Lemma Shuffle_items draw pd pd' :
  Shuffle draw pd = Some pd' -> q_Items pd' ≡ₚ q_Items pd.
Proof.
  unfold Shuffle. intros (c & Hc & [= <-])%bind_Some. apply shuffle_from_perm.
Qed.

(** The current track survives when an item with its id does. *)
Lemma reindex_keeps (c : MediaFile) items :
  c ∈ items ->
  exists mf, Current (mkQueue (default (-1) (indexByID_from (mf_ID c) 0 items)) items)
               = Some (Some mf) /\ mf_ID mf = mf_ID c.
Proof.
  intros Hc. destruct (indexByID_from (mf_ID c) 0 items) as [i|] eqn:E.
  - rewrite <- E. by eapply reindex_current.
  - eapply indexByID_from_none in E; [|done]. done.
Qed.

Lemma Shuffle_current draw pd pd' c :
  Shuffle draw pd = Some pd' -> Current pd = Some (Some c) ->
  exists c', Current pd' = Some (Some c') /\ mf_ID c' = mf_ID c.
Proof.
  unfold Shuffle. intros (c0 & Hc0 & [= <-])%bind_Some Hc. rewrite Hc in Hc0. simplify_eq/=.
  apply reindex_keeps. unfold rand_Shuffle. rewrite shuffle_from_perm.
  by apply Current_elem.
Qed.
