(* ===== verification/PlaybackDevice.v ===== *)
(** * The jukebox device

    [core/playback/device.go] and the device table of
    [core/playback/playbackserver.go].  A device owns a play queue and at most
    one track; a track is a running player process behind the Go interface
    [Track], here a type class, so that every theorem holds for any player.
    A command returns the device, the reported status and the error; [None] is
    a run-time panic of the queue or a nil dereference. *)

From S2P Require Import Prelude GoStrings Model PlayQueue.

Local Open Scope Z_scope.

(** The [Track] interface, with the constructor [mpv.NewTrack]. *)
Class Track (T : Type) := {
  IsPlaying : T -> bool;
  SetVolume : float32 -> T -> T;
  Pause : T -> T;
  Unpause : T -> T;
  Position : T -> Z;
  SetPosition : Z -> T -> T * option string;
  Close : T -> T;
  NewTrack : string -> MediaFile -> result string T
}.

Record DeviceStatus := mkDeviceStatus {
  ds_CurrentIndex : Z; ds_Playing : bool; ds_Gain : float32; ds_Position : Z }.

(** The bit pattern of 1.0. *)
Definition DefaultGain : float32 := 1065353216.

Section device.
Context {T : Type} `{Track T}.
(** [ParentPlaybackServer.GetMediaFile], a database read. *)
Context (GetMediaFile : string -> result string MediaFile).

(** [pd_switcher] is the state of [startTrackSwitcher]; [pd_opened] and
    [pd_closed] are ghost counters of the players started and closed. *)
Record playbackDevice := mkDevice {
  pd_Default : bool;
  pd_User : string;
  pd_Name : string;
  pd_DeviceName : string;
  pd_PlaybackQueue : Queue;
  pd_Gain : float32;
  pd_ActiveTrack : option T;
  pd_switcher : bool;
  pd_opened : nat;
  pd_closed : nat
}.

Definition NewPlaybackDevice (name deviceName : string) : playbackDevice :=
  mkDevice false "" name deviceName NewQueue DefaultGain None false 0 0.

(** The field assignments of the code. *)
Definition set_queue (q : Queue) (pd : playbackDevice) : playbackDevice :=
  mkDevice (pd_Default pd) (pd_User pd) (pd_Name pd) (pd_DeviceName pd) q (pd_Gain pd)
    (pd_ActiveTrack pd) (pd_switcher pd) (pd_opened pd) (pd_closed pd).
Definition set_track (t : option T) (pd : playbackDevice) : playbackDevice :=
  mkDevice (pd_Default pd) (pd_User pd) (pd_Name pd) (pd_DeviceName pd) (pd_PlaybackQueue pd)
    (pd_Gain pd) t (pd_switcher pd) (pd_opened pd) (pd_closed pd).
Definition set_gain (g : float32) (pd : playbackDevice) : playbackDevice :=
  mkDevice (pd_Default pd) (pd_User pd) (pd_Name pd) (pd_DeviceName pd) (pd_PlaybackQueue pd)
    g (pd_ActiveTrack pd) (pd_switcher pd) (pd_opened pd) (pd_closed pd).
Definition start_switcher (pd : playbackDevice) : playbackDevice :=
  mkDevice (pd_Default pd) (pd_User pd) (pd_Name pd) (pd_DeviceName pd) (pd_PlaybackQueue pd)
    (pd_Gain pd) (pd_ActiveTrack pd) true (pd_opened pd) (pd_closed pd).
Definition count_opened (pd : playbackDevice) : playbackDevice :=
  mkDevice (pd_Default pd) (pd_User pd) (pd_Name pd) (pd_DeviceName pd) (pd_PlaybackQueue pd)
    (pd_Gain pd) (pd_ActiveTrack pd) (pd_switcher pd) (S (pd_opened pd)) (pd_closed pd).
Definition count_closed (pd : playbackDevice) : playbackDevice :=
  mkDevice (pd_Default pd) (pd_User pd) (pd_Name pd) (pd_DeviceName pd) (pd_PlaybackQueue pd)
    (pd_Gain pd) (pd_ActiveTrack pd) (pd_switcher pd) (pd_opened pd) (S (pd_closed pd)).

Definition isPlaying (pd : playbackDevice) : bool :=
  match pd_ActiveTrack pd with Some t => IsPlaying t | None => false end.

Definition getStatus (pd : playbackDevice) : DeviceStatus :=
  mkDeviceStatus (q_Index (pd_PlaybackQueue pd)) (isPlaying pd) (pd_Gain pd)
    (match pd_ActiveTrack pd with Some t => Position t | None => 0 end).

(** A command's results: the device left behind, the status and the error. *)
Definition reply : Type := playbackDevice * DeviceStatus * option string.
Definition done_with (pd : playbackDevice) (err : option string) : reply :=
  (pd, getStatus pd, err).

(** [pd.ActiveTrack.m()], a nil dereference when no track is loaded. *)
Definition on_track (f : T -> T) (pd : playbackDevice) : option playbackDevice :=
  t ← pd_ActiveTrack pd; Some (set_track (Some (f t)) pd).

(** [if pd.ActiveTrack != nil { pd.ActiveTrack.m() }]. *)
Definition if_track (f : T -> T) (pd : playbackDevice) : playbackDevice :=
  set_track (f <$> pd_ActiveTrack pd) pd.

(** [pd.ActiveTrack.Close(); pd.ActiveTrack = nil] under the nil test. *)
Definition close_track (pd : playbackDevice) : playbackDevice :=
  match pd_ActiveTrack pd with
  | Some t => count_closed (set_track None pd)
  | None => pd
  end.

Definition switchActiveTrackByIndex (index : Z) (pd : playbackDevice)
  : option (playbackDevice * option string) :=
  let pd := set_queue (SetIndex index (pd_PlaybackQueue pd)) pd in
  currentTrack ← Current (pd_PlaybackQueue pd);
  match currentTrack with
  | None => Some (pd, Some "could not get current track")
  | Some mf =>
      match NewTrack (pd_DeviceName pd) mf with
      | Err e => Some (pd, Some e)
      | Ok t =>
          let pd := count_opened (set_track (Some t) pd) in
          pd ← on_track (SetVolume (pd_Gain pd)) pd;
          Some (pd, None)
      end
  end.

Definition Start (pd : playbackDevice) : option reply :=
  let pd := start_switcher pd in
  match pd_ActiveTrack pd with
  | Some t =>
      Some (done_with (if isPlaying pd then pd else set_track (Some (Unpause t)) pd) None)
  | None =>
      if negb (IsEmpty (pd_PlaybackQueue pd)) then
        '(pd, err) ← switchActiveTrackByIndex (q_Index (pd_PlaybackQueue pd)) pd;
        match err with
        | Some e => Some (done_with pd (Some e))
        | None => pd ← on_track Unpause pd; Some (done_with pd None)
        end
      else Some (done_with pd None)
  end.

Definition Stop (pd : playbackDevice) : reply :=
  let pd := if_track Pause pd in done_with pd None.

(** The end of [Skip]: seek, then start again if the device was playing. *)
Definition skip_seek (wasPlaying : bool) (offset : Z) (pd : playbackDevice) : option reply :=
  t ← pd_ActiveTrack pd;
  let '(t, err) := SetPosition offset t in
  let pd := set_track (Some t) pd in
  match err with
  | Some e => Some (done_with pd (Some e))
  | None =>
      if wasPlaying then
        '(pd, _, err) ← Start pd;
        match err with
        | Some e => Some (done_with pd (Some e))
        | None => Some (done_with pd None)
        end
      else Some (done_with pd None)
  end.

Definition Skip (index offset : Z) (pd : playbackDevice) : option reply :=
  let wasPlaying := isPlaying pd in
  let pd := if wasPlaying then if_track Pause pd else pd in
  let pd := if negb (index =? q_Index (pd_PlaybackQueue pd)) then close_track pd else pd in
  match pd_ActiveTrack pd with
  | Some _ => skip_seek wasPlaying offset pd
  | None =>
      '(pd, err) ← switchActiveTrackByIndex index pd;
      match err with
      | Some e => Some (done_with pd (Some e))
      | None => skip_seek wasPlaying offset pd
      end
  end.

(** The loop that reads the requested files, in order, up to the first error. *)
Fixpoint getMediaFiles (ids : list string) : result string (list MediaFile) :=
  match ids with
  | [] => Ok []
  | id :: ids =>
      match GetMediaFile id with
      | Err e => Err e
      | Ok mf => match getMediaFiles ids with Ok mfs => Ok (mf :: mfs) | Err e => Err e end
      end
  end.

Definition DeviceStatus_zero : DeviceStatus := mkDeviceStatus 0 false 0 0.

Definition DeviceAdd (ids : list string) (pd : playbackDevice) : reply :=
  match ids with
  | [] => done_with pd None
  | _ =>
      match getMediaFiles ids with
      | Err e => (pd, DeviceStatus_zero, Some e)
      | Ok items => done_with (set_queue (Add items (pd_PlaybackQueue pd)) pd) None
      end
  end.

Definition DeviceClear (pd : playbackDevice) : reply :=
  let pd := close_track (if_track Pause pd) in
  done_with (set_queue (Clear (pd_PlaybackQueue pd)) pd) None.

Definition DeviceSet (ids : list string) (pd : playbackDevice) : reply :=
  let '(pd, _, err) := DeviceClear pd in
  match err with
  | Some e => done_with pd (Some e)
  | None => DeviceAdd ids pd
  end.

Definition DeviceRemove (index : Z) (pd : playbackDevice) : option reply :=
  let pd := if isPlaying pd && (q_Index (pd_PlaybackQueue pd) =? index)
            then (Stop pd).1.1 else pd in
  if (-1 <? index) && (index <? Size (pd_PlaybackQueue pd)) then
    q ← Remove index (pd_PlaybackQueue pd);
    Some (done_with (set_queue q pd) None)
  else Some (done_with pd None).

Definition DeviceShuffle (draw : nat -> nat) (pd : playbackDevice) : option reply :=
  if 1 <? Size (pd_PlaybackQueue pd) then
    q ← Shuffle draw (pd_PlaybackQueue pd);
    Some (done_with (set_queue q pd) None)
  else Some (done_with pd None).

Definition SetGain (gain : float32) (pd : playbackDevice) : reply :=
  done_with (set_gain gain (if_track (SetVolume gain) pd)) None.

(** One round of [trackSwitcherGoroutine], on a message from [PlaybackDone]. *)
Definition trackSwitcher (pd : playbackDevice) : option playbackDevice :=
  let pd := close_track pd in
  if negb (IsAtLastElement (pd_PlaybackQueue pd)) then
    let pd := set_queue (IncreaseIndex (pd_PlaybackQueue pd)) pd in
    '(pd, _) ← switchActiveTrackByIndex (q_Index (pd_PlaybackQueue pd)) pd;
    Some (if_track Unpause pd)
  else Some pd.

(** ** The device table of the playback server *)

Inductive device_error :=
| ErrDeviceFields (found : nat)
| ErrNoDefaultDefined (found : nat)
| ErrDefaultNotFound (name : string)
| ErrNoDefaultDevice.

Definition set_Default (pd : playbackDevice) : playbackDevice :=
  mkDevice true (pd_User pd) (pd_Name pd) (pd_DeviceName pd) (pd_PlaybackQueue pd)
    (pd_Gain pd) (pd_ActiveTrack pd) (pd_switcher pd) (pd_opened pd) (pd_closed pd).

(** The loop over the configured definitions, when a default name is given. *)
Fixpoint initDevices (defaultDevice : string) (devices : list (list string))
  : result device_error (list playbackDevice) :=
  match devices with
  | [] => Ok []
  | [name; dev] :: devices =>
      let pd := NewPlaybackDevice name dev in
      let pd := if String.eqb name defaultDevice then set_Default pd else pd in
      match initDevices defaultDevice devices with
      | Ok pds => Ok (pd :: pds)
      | Err e => Err e
      end
  | fields :: _ => Err (ErrDeviceFields (length fields))
  end.

Definition initDeviceStatus (devices : list (list string)) (defaultDevice : string)
  : result device_error (list playbackDevice) :=
  if String.eqb defaultDevice "" then
    match devices with
    | [] => Ok [set_Default (NewPlaybackDevice "auto" "auto")]
    | [[name; dev]] => Ok [set_Default (NewPlaybackDevice name dev)]
    | [fields] => Err (ErrDeviceFields (length fields))
    | _ => Err (ErrNoDefaultDefined (length devices))
    end
  else
    match initDevices defaultDevice devices with
    | Err e => Err e
    | Ok pds => if existsb pd_Default pds then Ok pds else Err (ErrDefaultNotFound defaultDevice)
    end.

Definition getDefaultDevice (pds : list playbackDevice) : result device_error playbackDevice :=
  match List.find pd_Default pds with
  | Some pd => Ok pd
  | None => Err ErrNoDefaultDevice
  end.

(** ** The device as a state machine

    The commands of the jukebox API and the end of a track, in any order. *)
Inductive command :=
| CmdSet (ids : list string) | CmdStart | CmdStop | CmdSkip (index offset : Z)
| CmdAdd (ids : list string) | CmdClear | CmdRemove (index : Z)
| CmdShuffle (draw : nat -> nat) | CmdSetGain (gain : float32) | TrackEnded.

Definition exec (c : command) (pd : playbackDevice) : option playbackDevice :=
  match c with
  | CmdSet ids => Some (DeviceSet ids pd).1.1
  | CmdStart => r ← Start pd; Some r.1.1
  | CmdStop => Some (Stop pd).1.1
  | CmdSkip i o => r ← Skip i o pd; Some r.1.1
  | CmdAdd ids => Some (DeviceAdd ids pd).1.1
  | CmdClear => Some (DeviceClear pd).1.1
  | CmdRemove i => r ← DeviceRemove i pd; Some r.1.1
  | CmdShuffle d => r ← DeviceShuffle d pd; Some r.1.1
  | CmdSetGain g => Some (SetGain g pd).1.1
  | TrackEnded => trackSwitcher pd
  end.

(** The state invariant: the queue index is in range, and the players started
    and not yet closed are exactly the active one. *)
Definition device_wf (pd : playbackDevice) : Prop :=
  queue_wf (pd_PlaybackQueue pd) /\
  pd_opened pd = (pd_closed pd + match pd_ActiveTrack pd with Some _ => 1 | None => 0 end)%nat.

(** ** Invariant lemmas *)

Lemma NewPlaybackDevice_wf name dev : device_wf (NewPlaybackDevice name dev).
Proof. split; [apply NewQueue_wf|done]. Qed.

Lemma set_queue_wf q pd : queue_wf q -> device_wf pd -> device_wf (set_queue q pd).
Proof. intros Hq [_ ?]. by split. Qed.

Lemma if_track_wf f pd : device_wf pd -> device_wf (if_track f pd).
Proof. intros [? Hc]. split; [done|]. simpl. by destruct (pd_ActiveTrack pd). Qed.

Lemma start_switcher_wf pd : device_wf pd -> device_wf (start_switcher pd).
Proof. done. Qed.

Lemma close_track_wf pd : device_wf pd -> device_wf (close_track pd).
Proof.
  unfold close_track. intros [? Hc]. destruct (pd_ActiveTrack pd) eqn:E.
  - split; [done|]. simpl. lia.
  - split; [done|]. by rewrite E.
Qed.

Lemma close_track_none pd : pd_ActiveTrack (close_track pd) = None.
Proof. unfold close_track. by destruct (pd_ActiveTrack pd) eqn:E. Qed.

Lemma close_track_queue pd : pd_PlaybackQueue (close_track pd) = pd_PlaybackQueue pd.
Proof. unfold close_track. by destruct (pd_ActiveTrack pd). Qed.

Lemma set_track_wf t pd :
  is_Some (pd_ActiveTrack pd) -> device_wf pd -> device_wf (set_track (Some t) pd).
Proof. intros [t' Ht] [? Hc]. split; [done|]. simpl. by rewrite Ht in Hc. Qed.

Lemma DeviceAdd_wf ids pd : device_wf pd -> device_wf (DeviceAdd ids pd).1.1.
Proof.
  intros Hwf. unfold DeviceAdd. destruct ids; [done|].
  destruct (getMediaFiles _); simpl; [|done].
  apply set_queue_wf; [|done]. by apply Add_wf, Hwf.
Qed.

Lemma DeviceClear_wf pd : device_wf pd -> device_wf (DeviceClear pd).1.1.
Proof.
  intros Hwf. simpl. apply set_queue_wf; [apply Clear_wf|]. by apply close_track_wf, if_track_wf.
Qed.
End device.

Arguments playbackDevice : clear implicits.
#[export] Hint Resolve NewPlaybackDevice_wf set_queue_wf if_track_wf start_switcher_wf
  close_track_wf set_track_wf DeviceAdd_wf DeviceClear_wf SetIndex_wf IncreaseIndex_wf
  Clear_wf Add_wf : go.
Arguments Start : simpl never.
Arguments Skip : simpl never.
Arguments skip_seek : simpl never.
Arguments switchActiveTrackByIndex : simpl never.
Arguments trackSwitcher : simpl never.
Arguments on_track : simpl never.
