(* ===== verification/PlaybackFacts.v ===== *)
(** * Correctness of the jukebox

    The commands of [PlaybackDevice] never panic and never leak a player; a
    queue is played in order; reordering keeps the current track. *)

From S2P Require Import Prelude GoStrings Model PlayQueue PlaybackDevice.

Local Open Scope Z_scope.

Section facts.
Context {T : Type} `{Track T}.
Context (GetMediaFile : string -> result string MediaFile).
Implicit Types pd : playbackDevice T.

(** A player freshly started on [mf] by the device, at its volume. *)
Definition fresh_track pd (mf : MediaFile) (t : T) : Prop :=
  exists t0, NewTrack (pd_DeviceName pd) mf = Ok t0 /\ t = SetVolume (pd_Gain pd) t0.

(** ** Switching tracks *)

(** With no player active, a switch moves the index into range; it starts a
    player on the track there, or reports an error and starts none. *)
Lemma switch_spec index pd :
  device_wf pd -> pd_ActiveTrack pd = None ->
  exists pd' err, switchActiveTrackByIndex index pd = Some (pd', err) /\
    device_wf pd' /\
    pd_PlaybackQueue pd' = SetIndex index (pd_PlaybackQueue pd) /\
    pd_Gain pd' = pd_Gain pd /\ pd_DeviceName pd' = pd_DeviceName pd /\
    match err with
    | Some e => pd_ActiveTrack pd' = None /\
                (Current (pd_PlaybackQueue pd') = Some None \/
                 exists mf, Current (pd_PlaybackQueue pd') = Some (Some mf) /\
                            NewTrack (pd_DeviceName pd) mf = Err e)
    | None => exists mf t, Current (pd_PlaybackQueue pd') = Some (Some mf) /\
                pd_ActiveTrack pd' = Some t /\ fresh_track pd mf t
    end.
Proof.
  intros [Hq Hc] Hnone. unfold switchActiveTrackByIndex.
  set (pd1 := set_queue _ pd). pose proof (SetIndex_wf index (pd_PlaybackQueue pd)) as Hq1.
  assert (device_wf pd1) as Hwf1 by (by split).
  destruct (Current (pd_PlaybackQueue pd1)) as [cur|] eqn:Ecur;
    [|simpl in Ecur; by rewrite Current_SetIndex in Ecur].
  simpl. destruct cur as [mf|].
  2: { exists pd1, (Some "could not get current track"). split_and!; auto. }
  destruct (NewTrack (pd_DeviceName pd) mf) as [t|e] eqn:Et.
  2: { exists pd1, (Some e). split_and!; eauto. }
  eexists _, None. split; [reflexivity|]. split; [|split; [done|split; [done|split; [done|]]]].
  - split; [exact Hq1|]. simpl. rewrite Hc, Hnone. lia.
  - exists mf, (SetVolume (pd_Gain pd) t). repeat split; [exact Ecur|]. by exists t.
Qed.

Lemma on_track_some f pd t :
  pd_ActiveTrack pd = Some t -> on_track f pd = Some (set_track (Some (f t)) pd).
Proof. unfold on_track. by intros ->. Qed.

(** [Start] with no player and a playable current track. *)
Lemma Start_idle pd mf t :
  let q := SetIndex (q_Index (pd_PlaybackQueue pd)) (pd_PlaybackQueue pd) in
  pd_ActiveTrack pd = None -> Current q = Some (Some mf) -> NewTrack (pd_DeviceName pd) mf = Ok t ->
  Start pd = Some (done_with (set_track (Some (Unpause (SetVolume (pd_Gain pd) t)))
                    (count_opened (set_queue q (start_switcher pd)))) None).
Proof.
  intros q Hnone Hcur Hnew. unfold Start.
  cbn [start_switcher pd_ActiveTrack pd_PlaybackQueue]. rewrite Hnone.
  apply Current_elem in Hcur as Hin.
  assert (IsEmpty (pd_PlaybackQueue pd) = false) as ->.
  { unfold IsEmpty, Size. simpl in Hin. destruct (q_Items _); [by apply not_elem_of_nil in Hin|].
    bprop. simpl. lia. }
  cbn [negb]. unfold switchActiveTrackByIndex. cbn. fold q. rewrite Hcur. cbn. by rewrite Hnew.
Qed.

Lemma Start_wf pd : device_wf pd -> exists r, Start pd = Some r /\ device_wf r.1.1.
Proof.
  intros Hwf. unfold Start. cbn [start_switcher pd_ActiveTrack pd_PlaybackQueue].
  destruct (pd_ActiveTrack pd) as [t|] eqn:Et.
  { eexists. split; [reflexivity|]. simpl. case_match; [done|].
    apply set_track_wf; [by exists t|done]. }
  case_cond; [|by eexists].
  destruct (switch_spec (q_Index (pd_PlaybackQueue pd)) (start_switcher pd))
    as (pd' & err & -> & Hwf' & _ & _ & _ & Herr); [done|done|]. simpl.
  destruct err as [e|]; [by eexists|].
  destruct Herr as (mf & t & _ & Ht & _). rewrite (on_track_some _ _ t) by done. simpl.
  eexists. split; [reflexivity|]. simpl. apply set_track_wf; [by exists t|done].
Qed.

Lemma skip_seek_wf was offset pd :
  device_wf pd -> is_Some (pd_ActiveTrack pd) ->
  exists r, skip_seek was offset pd = Some r /\ device_wf r.1.1.
Proof.
  intros Hwf [t Ht]. unfold skip_seek. rewrite Ht. cbn [mbind option_bind].
  destruct (SetPosition offset t) as [t' err].
  assert (device_wf (set_track (Some t') pd)) as Hwf' by (apply set_track_wf; [by exists t|done]).
  destruct err; [by eexists|]. destruct was; [|by eexists].
  destruct (Start_wf _ Hwf') as ([[pd' st] err] & -> & Hpd'). simpl.
  destruct err; by eexists.
Qed.

Lemma Skip_wf index offset pd :
  device_wf pd -> exists r, Skip index offset pd = Some r /\ device_wf r.1.1.
Proof.
  intros Hwf. unfold Skip. set (pd1 := if isPlaying pd then _ else _).
  assert (device_wf pd1) as Hwf1 by (unfold pd1; case_match; auto with go).
  set (pd2 := if negb _ then _ else _).
  assert (device_wf pd2) as Hwf2 by (unfold pd2; case_match; auto with go).
  destruct (pd_ActiveTrack pd2) as [t|] eqn:Et.
  { apply skip_seek_wf; [done|]. by exists t. }
  destruct (switch_spec index pd2) as (pd' & err & -> & Hwf' & _ & _ & _ & Herr); [done|done|].
  simpl. destruct err; [by eexists|].
  destruct Herr as (mf & t & _ & Ht & _). apply skip_seek_wf; [done|]. by exists t.
Qed.

Lemma DeviceRemove_wf index pd :
  device_wf pd -> exists r, DeviceRemove index pd = Some r /\ device_wf r.1.1.
Proof.
  intros Hwf. unfold DeviceRemove. set (pd1 := if isPlaying pd && _ then _ else _).
  assert (device_wf pd1) as Hwf1.
  { unfold pd1. case_match; [|done]. by apply if_track_wf. }
  case_cond; [|by eexists]. pose proof (proj1 Hwf1) as Hq.
  destruct (Remove_total index (pd_PlaybackQueue pd1)) as [q Hr]; [done|bprop; lia|].
  rewrite Hr. eexists. split; [reflexivity|]. apply set_queue_wf; [|done]. by eapply Remove_wf.
Qed.

Lemma DeviceShuffle_wf draw pd :
  device_wf pd -> exists r, DeviceShuffle draw pd = Some r /\ device_wf r.1.1.
Proof.
  intros Hwf. unfold DeviceShuffle. case_cond; [|by eexists].
  unfold Shuffle. rewrite Current_wf by apply Hwf. simpl. eexists.
  split; [reflexivity|]. simpl. apply set_queue_wf; [apply reindex_wf|done].
Qed.

Lemma trackSwitcher_wf pd :
  device_wf pd -> exists pd', trackSwitcher pd = Some pd' /\ device_wf pd'.
Proof.
  intros Hwf. unfold trackSwitcher. case_cond; [|eexists; split; [done|]; by apply close_track_wf].
  set (pd1 := set_queue _ (close_track pd)).
  assert (device_wf pd1) as Hwf1.
  { apply set_queue_wf; [|by apply close_track_wf]. rewrite close_track_queue.
    apply IncreaseIndex_wf, Hwf. }
  destruct (switch_spec (q_Index (pd_PlaybackQueue pd1)) pd1)
    as (pd' & err & -> & Hwf' & _); [done|apply close_track_none|].
  simpl. eexists. split; [reflexivity|]. by apply if_track_wf.
Qed.

Lemma exec_wf c pd :
  device_wf pd -> exists pd', exec GetMediaFile c pd = Some pd' /\ device_wf pd'.
Proof.
  intros Hwf. destruct c; simpl.
  - eexists. split; [reflexivity|]. unfold DeviceSet. simpl.
    by apply DeviceAdd_wf, DeviceClear_wf.
  - destruct (Start_wf _ Hwf) as (r & -> & Hr). by eexists.
  - eexists. split; [reflexivity|]. by apply if_track_wf.
  - destruct (Skip_wf index offset _ Hwf) as (r & -> & Hr). by eexists.
  - eexists. split; [reflexivity|]. by apply DeviceAdd_wf.
  - eexists. split; [reflexivity|]. by apply DeviceClear_wf.
  - destruct (DeviceRemove_wf index _ Hwf) as (r & -> & Hr). by eexists.
  - destruct (DeviceShuffle_wf draw _ Hwf) as (r & -> & Hr). by eexists.
  - eexists. split; [reflexivity|]. by apply (if_track_wf (SetVolume gain)) in Hwf.
  - by apply trackSwitcher_wf.
Qed.

(** A sequence of commands and track ends. *)
Definition run (cs : list command) pd : option (playbackDevice T) :=
  foldl (fun o c => o ≫= exec GetMediaFile c) (Some pd) cs.

Lemma run_snoc cs c pd : run (cs ++ [c]) pd = run cs pd ≫= exec GetMediaFile c.
Proof. unfold run. by rewrite foldl_app. Qed.

Lemma run_wf cs pd : device_wf pd -> exists pd', run cs pd = Some pd' /\ device_wf pd'.
Proof.
  intros Hwf. induction cs as [|c cs IH] using rev_ind; [by exists pd|].
  destruct IH as (pd1 & H1 & Hwf1). rewrite run_snoc, H1. by apply exec_wf.
Qed.

(** ** Playing in order *)

(** A round of the switcher before the last track starts the next one. *)
Lemma trackSwitcher_next pd mf :
  device_wf pd -> (forall t, NewTrack (pd_DeviceName pd) mf <> Err t) ->
  q_Items (pd_PlaybackQueue pd) !! Z.to_nat (q_Index (pd_PlaybackQueue pd) + 1) = Some mf ->
  exists pd' t, trackSwitcher pd = Some pd' /\ device_wf pd' /\
    pd_PlaybackQueue pd' =
      mkQueue (q_Index (pd_PlaybackQueue pd) + 1) (q_Items (pd_PlaybackQueue pd)) /\
    pd_Gain pd' = pd_Gain pd /\ pd_DeviceName pd' = pd_DeviceName pd /\
    fresh_track pd mf t /\ pd_ActiveTrack pd' = Some (Unpause t).
Proof.
  intros Hwf Hok Hmf. pose proof Hwf as [Hq _].
  set (q := pd_PlaybackQueue pd) in *. unfold queue_wf in Hq.
  pose proof (lookup_lt_Some _ _ _ Hmf) as Hlt.
  assert (IsAtLastElement q = false) as Hlast by (unfold IsAtLastElement, Size; bprop; lia).
  assert (IncreaseIndex q = mkQueue (q_Index q + 1) (q_Items q)) as Hinc.
  { unfold IncreaseIndex. rewrite Hlast. unfold SetIndex, Size. simpl. f_equal. lia. }
  unfold trackSwitcher. rewrite close_track_queue. fold q. rewrite Hlast, Hinc. cbn [negb].
  set (pd1 := set_queue _ (close_track pd)).
  assert (device_wf pd1) as Hwf1.
  { apply set_queue_wf; [|by apply close_track_wf]. rewrite <- Hinc. by apply IncreaseIndex_wf. }
  assert (pd_Gain pd1 = pd_Gain pd /\ pd_DeviceName pd1 = pd_DeviceName pd) as [Hg Hd].
  { unfold pd1, close_track. by destruct (pd_ActiveTrack pd). }
  destruct (switch_spec (q_Index (pd_PlaybackQueue pd1)) pd1)
    as (pd' & err & Heq & Hwf' & Hq' & Hg' & Hd' & Herr); [done|apply close_track_none|].
  assert (pd_PlaybackQueue pd' = mkQueue (q_Index q + 1) (q_Items q)) as Hq2.
  { rewrite Hq'. unfold SetIndex, Size. simpl. f_equal. lia. }
  assert (Current (pd_PlaybackQueue pd') = Some (Some mf)) as Hcur.
  { rewrite Hq2, Current_wf by (unfold queue_wf, Size; simpl; lia).
    cbn [q_Index q_Items].
    rewrite Hmf. destruct (Z.eqb_spec (q_Index q + 1) (-1)); [lia|done]. }
  rewrite Heq. cbn [mbind option_bind]. destruct err as [e|].
  - exfalso. rewrite Hcur, Hd in Herr.
    destruct Herr as (_ & [?|(mf' & [= <-] & En)]); [done|]. by apply Hok in En.
  - destruct Herr as (mf' & t & Hcur' & Ht & t0 & Hnew & ->). rewrite Hcur in Hcur'.
    simplify_eq. rewrite Hd, Hg in *. exists (if_track Unpause pd'), (SetVolume (pd_Gain pd) t0).
    split_and!; simpl; rewrite ?Ht; auto using if_track_wf; try congruence. by exists t0.
Qed.

(** A round at the last track closes the player and leaves the queue alone. *)
Lemma trackSwitcher_last pd :
  IsAtLastElement (pd_PlaybackQueue pd) = true -> trackSwitcher pd = Some (close_track pd).
Proof. intros Hl. unfold trackSwitcher. by rewrite close_track_queue, Hl. Qed.

Lemma SetIndex_same q : queue_wf q -> 0 <= q_Index q -> SetIndex (q_Index q) q = q.
Proof. destruct q. unfold queue_wf, SetIndex, Size. simpl. intros. f_equal. lia. Qed.

(** Whether or not the player starts, a round moves the index by one. *)
Lemma trackSwitcher_queue pd pd' :
  device_wf pd -> trackSwitcher pd = Some pd' ->
  pd_PlaybackQueue pd' = IncreaseIndex (pd_PlaybackQueue pd).
Proof.
  intros Hwf Hs. destruct (IsAtLastElement (pd_PlaybackQueue pd)) eqn:E.
  { rewrite trackSwitcher_last in Hs by done. simplify_eq. rewrite close_track_queue.
    unfold IncreaseIndex. by rewrite E. }
  revert Hs. unfold trackSwitcher. rewrite close_track_queue, E. cbn [negb].
  set (pd1 := set_queue _ _).
  assert (queue_wf (pd_PlaybackQueue pd1)) as Hq1 by apply IncreaseIndex_wf, Hwf.
  destruct (switch_spec (q_Index (pd_PlaybackQueue pd1)) pd1)
    as (pd2 & err & -> & _ & Hq & _); [|apply close_track_none|].
  { apply set_queue_wf; [exact Hq1|by apply close_track_wf]. }
  intros [= <-]. simpl. rewrite Hq, SetIndex_same; [done|done|].
  unfold pd1, IncreaseIndex. simpl. rewrite E. simpl. lia.
Qed.

Lemma run_ends_S n pd :
  run (replicate (S n) TrackEnded) pd = run (replicate n TrackEnded) pd ≫= trackSwitcher.
Proof. by rewrite replicate_S_end, run_snoc. Qed.

(** [k] ends of track later the player is on the [k]-th track after the index. *)
Lemma run_ends_track (k : nat) pd mf :
  device_wf pd ->
  (forall mf t, mf ∈ q_Items (pd_PlaybackQueue pd) -> NewTrack (pd_DeviceName pd) mf <> Err t) ->
  q_Items (pd_PlaybackQueue pd) !! Z.to_nat (q_Index (pd_PlaybackQueue pd) + 1 + Z.of_nat k)
    = Some mf ->
  exists pd' t, run (replicate (S k) TrackEnded) pd = Some pd' /\ device_wf pd' /\
    pd_PlaybackQueue pd' =
      mkQueue (q_Index (pd_PlaybackQueue pd) + 1 + Z.of_nat k) (q_Items (pd_PlaybackQueue pd)) /\
    pd_Gain pd' = pd_Gain pd /\ pd_DeviceName pd' = pd_DeviceName pd /\
    fresh_track pd mf t /\ pd_ActiveTrack pd' = Some (Unpause t).
Proof.
  intros Hwf Hok. revert mf. pose proof Hwf as [[Hlo _] _].
  induction k as [|k IH]; intros mf Hmf.
  - replace (_ + 1 + Z.of_nat 0) with (q_Index (pd_PlaybackQueue pd) + 1) in * by lia.
    apply trackSwitcher_next; [done| |done].
    intros t. apply Hok. by eapply list_elem_of_lookup_2.
  - assert (is_Some (q_Items (pd_PlaybackQueue pd)
        !! Z.to_nat (q_Index (pd_PlaybackQueue pd) + 1 + Z.of_nat k))) as [mf1 Hmf1].
    { apply lookup_lt_is_Some. apply lookup_lt_Some in Hmf. lia. }
    destruct (IH mf1 Hmf1) as (pd1 & t1 & Hrun & Hwf1 & Hq1 & Hg1 & Hd1 & _).
    destruct (trackSwitcher_next pd1 mf) as (pd2 & t2 & Hs & Hwf2 & Hq2 & Hg2 & Hd2 & Hf & Ht2).
    + done.
    + intros t. rewrite Hd1. apply Hok. by eapply list_elem_of_lookup_2.
    + rewrite Hq1. cbn [q_Index q_Items]. rewrite <- Hmf. f_equal. lia.
    + exists pd2, t2. rewrite run_ends_S, Hrun. cbn [mbind option_bind].
      rewrite Hq1 in Hq2. cbn [q_Index q_Items] in Hq2.
      unfold fresh_track in *. rewrite Hg1, Hd1 in *.
      split_and!; try congruence; try done. rewrite Hq2. f_equal. lia.
Qed.

(** The index moves by one per end of track until it is at the last item. *)
Lemma run_ends_index (k : nat) pd pd' :
  device_wf pd -> run (replicate k TrackEnded) pd = Some pd' ->
  q_Items (pd_PlaybackQueue pd') = q_Items (pd_PlaybackQueue pd) /\
  (q_Index (pd_PlaybackQueue pd') = q_Index (pd_PlaybackQueue pd) + Z.of_nat k \/
   IsAtLastElement (pd_PlaybackQueue pd') = true).
Proof.
  intros Hwf. revert pd'. induction k as [|k IH]; intros pd' Hr.
  { unfold run in Hr. simplify_eq/=. split; [done|]. left. lia. }
  rewrite run_ends_S in Hr. apply bind_Some in Hr as (pd1 & Hr1 & Hs).
  destruct (IH pd1 Hr1) as [Hi Hidx].
  destruct (run_wf (replicate k TrackEnded) pd Hwf) as (pd2 & Hr2 & Hwf1). simplify_eq.
  rewrite (trackSwitcher_queue _ _ Hwf1 Hs). unfold IncreaseIndex.
  destruct (IsAtLastElement (pd_PlaybackQueue pd1)) eqn:E; cbn [negb]; [by auto|].
  destruct Hidx as [Hidx|]; [|done]. split; [done|]. left.
  unfold IsAtLastElement in E. bprop. pose proof (proj1 Hwf1) as [? _].
  unfold SetIndex. simpl. lia.
Qed.
End facts.


(** C16: left alone, the device plays the rest of the queue in order: when the
    k-th track ends it starts a player, at the current volume, on exactly the
    next item of the queue, and after the last item it stops with no player. *)
Theorem device_plays_in_order {T} `{Track T} GetMediaFile (pd : playbackDevice T) (k : nat) :
  device_wf pd ->
  (forall mf t, mf ∈ q_Items (pd_PlaybackQueue pd) -> NewTrack (pd_DeviceName pd) mf <> Err t) ->
  let i := q_Index (pd_PlaybackQueue pd) in
  exists pd', run GetMediaFile (replicate (S k) TrackEnded) pd = Some pd' /\
    match q_Items (pd_PlaybackQueue pd) !! Z.to_nat (i + 1 + Z.of_nat k) with
    | Some mf => q_Index (pd_PlaybackQueue pd') = i + 1 + Z.of_nat k /\
        exists t, NewTrack (pd_DeviceName pd) mf = Ok t /\
                  pd_ActiveTrack pd' = Some (Unpause (SetVolume (pd_Gain pd) t))
    | None => pd_ActiveTrack pd' = None
    end.
Proof.
  intros Hwf Hok i. destruct (_ !! _) as [mf|] eqn:Hmf.
  { destruct (run_ends_track GetMediaFile k pd mf Hwf Hok Hmf)
      as (pd' & t & Hr & _ & Hq & _ & _ & (t0 & Hn & ->) & Ht).
    exists pd'. rewrite Hq. eauto. }
  destruct (run_wf GetMediaFile (replicate k TrackEnded) pd Hwf) as (pd1 & Hr & Hwf1).
  assert (IsAtLastElement (pd_PlaybackQueue pd1) = true) as Hlast.
  { destruct (run_ends_index GetMediaFile k pd pd1 Hwf Hr) as [Hi [Hidx|?]]; [|done].
    apply lookup_ge_None in Hmf. unfold IsAtLastElement, Size. rewrite Hi, Hidx. bprop.
    pose proof (proj1 (proj1 Hwf)). lia. }
  exists (close_track pd1). rewrite run_ends_S, Hr. cbn [mbind option_bind].
  rewrite trackSwitcher_last by done. split; [done|apply close_track_none].
Qed.

(** [Set] followed by [Start] plays the first requested file from a fresh
    player at the device's volume, with the whole request queued in order, when
    every id is known and the player starts; the track playing before is closed. *)
Theorem device_set_start {T} `{Track T} GetMediaFile (pd : playbackDevice T) id ids mf mfs t :
  device_wf pd ->
  getMediaFiles GetMediaFile (id :: ids) = Ok (mf :: mfs) ->
  NewTrack (pd_DeviceName pd) mf = Ok t ->
  exists pd', run GetMediaFile [CmdSet (id :: ids); CmdStart] pd = Some pd' /\
    pd_PlaybackQueue pd' = mkQueue 0 (mf :: mfs) /\
    pd_ActiveTrack pd' = Some (Unpause (SetVolume (pd_Gain pd) t)) /\
    pd_closed pd' = pd_opened pd /\ pd_opened pd' = S (pd_opened pd) /\
    pd_switcher pd' = true.
Proof.
  intros Hwf Hget Hnew. unfold run. cbn [foldl exec mbind option_bind].
  unfold DeviceSet, DeviceClear, done_with.
  set (pd1 := set_queue (Clear _) _). cbn [fst snd].
  assert (pd_ActiveTrack pd1 = None) as Hnone by apply close_track_none.
  assert (device_wf pd1) as Hwf1.
  { apply set_queue_wf; [apply Clear_wf|]. by apply close_track_wf, if_track_wf. }
  assert (pd_Gain pd1 = pd_Gain pd /\ pd_DeviceName pd1 = pd_DeviceName pd /\
          pd_opened pd1 = pd_opened pd) as (Hg & Hd & Ho).
  { unfold pd1, close_track, if_track. simpl. by destruct (pd_ActiveTrack pd). }
  pose proof (proj2 Hwf1) as Hc. rewrite Hnone, Nat.add_0_r in Hc.
  assert (pd_PlaybackQueue pd1 = mkQueue (-1) []) as Hq1 by done. clearbody pd1.
  unfold DeviceAdd. rewrite Hget, Hq1. cbn [fst snd].
  change (Add _ _) with (mkQueue 0 (mf :: mfs)).
  assert (SetIndex 0 (mkQueue 0 (mf :: mfs)) = mkQueue 0 (mf :: mfs)) as Hsi.
  { apply (SetIndex_same (mkQueue 0 (mf :: mfs))); [|done].
    unfold queue_wf, Size. cbn [q_Index q_Items length]. lia. }
  rewrite (Start_idle _ mf t); cbn [done_with fst set_queue pd_PlaybackQueue q_Index pd_ActiveTrack];
    rewrite ?Hsi; [|done|done|cbn; by rewrite Hd].
  eexists. split; [reflexivity|]. cbn. rewrite Hg, Ho in *. auto.
Qed.

(** [Skip] to another valid index closes the current player, starts one on
    the track at that index, seeks it to the offset, and resumes playing exactly
    when the device was playing. *)
Theorem device_skip {T} `{Track T} (pd : playbackDevice T) index offset mf t t' :
  device_wf pd -> 0 <= index -> index <> q_Index (pd_PlaybackQueue pd) ->
  q_Items (pd_PlaybackQueue pd) !! Z.to_nat index = Some mf ->
  NewTrack (pd_DeviceName pd) mf = Ok t ->
  SetPosition offset (SetVolume (pd_Gain pd) t) = (t', None) ->
  exists pd' st, Skip index offset pd = Some (pd', st, None) /\
    q_Index (pd_PlaybackQueue pd') = index /\
    q_Items (pd_PlaybackQueue pd') = q_Items (pd_PlaybackQueue pd) /\
    pd_ActiveTrack pd' = Some (if isPlaying pd && negb (IsPlaying t') then Unpause t' else t') /\
    pd_closed pd' = pd_opened pd.
Proof.
  intros Hwf Hpos Hne Hmf Hnew Hseek. unfold Skip.
  set (pd1 := if isPlaying pd then _ else _).
  assert (device_wf pd1) as Hwf1 by (unfold pd1; case_match; auto with go).
  assert (pd_PlaybackQueue pd1 = pd_PlaybackQueue pd /\ pd_DeviceName pd1 = pd_DeviceName pd /\
          pd_Gain pd1 = pd_Gain pd /\ pd_opened pd1 = pd_opened pd) as (Hq & Hd & Hg & Ho)
    by (unfold pd1; by case_match).
  clearbody pd1. rewrite Hq. destruct (Z.eqb_spec index (q_Index (pd_PlaybackQueue pd))); [done|].
  cbn [negb]. rewrite close_track_none.
  apply close_track_wf in Hwf1. pose proof (proj2 Hwf1) as Hc.
  rewrite close_track_none, Nat.add_0_r in Hc.
  assert (pd_opened (close_track pd1) = pd_opened pd /\ pd_Gain (close_track pd1) = pd_Gain pd /\
          pd_DeviceName (close_track pd1) = pd_DeviceName pd) as (Ho' & Hg' & Hd')
    by (unfold close_track; by destruct (pd_ActiveTrack pd1)).
  pose proof (close_track_queue pd1) as Hq'. rewrite Hq in Hq'.
  remember (close_track pd1) as pd2 eqn:E2. clear E2.
  assert (SetIndex index (pd_PlaybackQueue pd) = mkQueue index (q_Items (pd_PlaybackQueue pd)))
    as Hsi.
  { apply lookup_lt_Some in Hmf. unfold SetIndex, Size. f_equal. lia. }
  unfold switchActiveTrackByIndex. rewrite Hq', Hsi. cbn [set_queue pd_PlaybackQueue].
  rewrite <- Hsi, Current_SetIndex. apply lookup_lt_Some in Hmf as Hlt.
  replace (Z.max 0 _) with index by (unfold Size; lia). rewrite Hmf, Hsi. cbn.
  rewrite Hd', Hnew. unfold on_track. cbn. unfold skip_seek. cbn. rewrite Hg', Hseek. cbn.
  destruct (isPlaying pd); cbn; [|eexists _, _; split; [reflexivity|]; cbn; split_and!; auto; congruence].
  unfold Start, isPlaying. cbn.
  destruct (IsPlaying t') eqn:E; cbn; (eexists _, _; split; [reflexivity|]; cbn; split_and!; auto; congruence).
Qed.

(** [Shuffle] permutes the queue whatever numbers are drawn, keeps the
    current track current (up to copies with the same id) and can produce every
    order of the items. *)
Theorem queue_shuffle pd :
  queue_wf pd ->
  (forall draw, exists pd', Shuffle draw pd = Some pd' /\ queue_wf pd' /\
     q_Items pd' ≡ₚ q_Items pd /\
     forall c, Current pd = Some (Some c) ->
       exists c', Current pd' = Some (Some c') /\ mf_ID c' = mf_ID c) /\
  (forall items, items ≡ₚ q_Items pd ->
     exists draw pd', (forall i, (draw i <= i)%nat) /\ Shuffle draw pd = Some pd' /\
       q_Items pd' = items).
Proof.
  intros Hq. assert (forall draw, exists pd', Shuffle draw pd = Some pd') as Htot.
  { intros draw. unfold Shuffle. rewrite Current_wf by done. by eexists. }
  split.
  - intros draw. destruct (Htot draw) as [pd' Hs]. exists pd'.
    split_and!; eauto using Shuffle_wf, Shuffle_items, Shuffle_current.
  - intros items Hp. destruct (shuffle_from_all _ _ items eq_refl Hp) as (draw & Hd & Hs).
    destruct (Htot draw) as [pd' Hpd']. exists draw, pd'. split_and!; auto.
    revert Hpd'. unfold Shuffle. intros (c & _ & [= <-])%bind_Some. exact Hs.
Qed.

(** An element of a list with item [i] cut out, at its old position. *)
Lemma lookup_delete_pos {A} (l : list A) (i n : nat) x :
  delete i l !! n = Some x ->
  l !! (if decide (n < i)%nat then n else S n) = Some x.
Proof.
  intros Hn. case_decide.
  - by rewrite list_lookup_delete_lt in Hn.
  - rewrite list_lookup_delete_ge in Hn by lia. done.
Qed.

Lemma elem_of_delete_ne {A} (l : list A) (i j : nat) x :
  l !! j = Some x -> j <> i -> x ∈ delete i l.
Proof.
  intros Hj Hne. apply list_elem_of_lookup. destruct (decide (j < i)%nat).
  - exists j. by rewrite list_lookup_delete_lt.
  - exists (pred j). rewrite list_lookup_delete_ge by lia. by replace (S (pred j)) with j by lia.
Qed.

(** Removing another track leaves the current one current: with distinct
    ids the queue loses exactly the item at the index and [Current] is
    unchanged; removing the current track itself leaves no current track. *)
Theorem queue_remove pd idx c removed :
  queue_wf pd -> NoDup (mf_ID <$> q_Items pd) -> 0 <= idx ->
  Current pd = Some (Some c) -> q_Items pd !! Z.to_nat idx = Some removed ->
  exists pd', Remove idx pd = Some pd' /\
    q_Items pd' = delete (Z.to_nat idx) (q_Items pd) /\
    Current pd' = Some (if decide (idx = q_Index pd) then None else Some c).
Proof.
  intros Hq Hnd Hi Hcur Hrem. apply lookup_lt_Some in Hrem as Hlt.
  unfold Remove. rewrite Hcur, cut_total by lia. cbn. rewrite <- delete_take_drop.
  eexists. split_and!; [reflexivity|done|].
  rewrite Current_wf in Hcur by done. injection Hcur as Hcur.
  destruct (Z.eqb_spec (q_Index pd) (-1)) as [?|Hne]; [done|]. destruct Hq as [Hlo Hhi].
  unfold getMediaFileIndexByID. cbn [q_Items]. set (items := delete _ _).
  destruct (indexByID_from (mf_ID c) 0 items) as [j|] eqn:Ej.
  - destruct (reindex_current _ _ _ Ej) as (mf & Hmf & Hid). rewrite <- Ej, Hmf.
    apply Current_elem in Hmf. cbn [q_Items] in Hmf.
    apply list_elem_of_lookup in Hmf as [n Hn]. apply lookup_delete_pos in Hn.
    assert ((if decide (n < Z.to_nat idx)%nat then n else S n) = Z.to_nat (q_Index pd)) as En.
    { eapply (NoDup_lookup _ _ _ (mf_ID c) Hnd); rewrite list_lookup_fmap.
      - by rewrite Hn; simpl; rewrite Hid.
      - by rewrite Hcur. }
    rewrite En in Hn. rewrite decide_False; [congruence|]. case_decide; lia.
  - pose proof (proj1 (indexByID_from_none _ _ _) Ej) as Hno. cbn [default].
    rewrite decide_True; [done|]. destruct (decide (idx = q_Index pd)); [done|].
    exfalso. eapply Hno; [|done]. eapply elem_of_delete_ne; [exact Hcur|lia].
Qed.

(** When the configured device table is accepted there is a default device,
    and it is the first one with the configured name; with no name configured
    it is the only device, or the synthetic "auto". *)
Theorem init_default_device {T} devices name (pds : list (playbackDevice T)) :
  initDeviceStatus devices name = Ok pds ->
  exists pd, getDefaultDevice pds = Ok pd /\ pd ∈ pds /\ device_wf pd /\
    if decide (name = "")
    then pds = [pd] /\
         (devices = [] /\ pd_DeviceName pd = "auto" \/ devices = [[pd_Name pd; pd_DeviceName pd]])
    else exists before after, devices = before ++ [name; pd_DeviceName pd] :: after /\
           pd_Name pd = name /\ Forall (fun d => head d <> Some name) before.
Proof.
  unfold initDeviceStatus, getDefaultDevice.
  destruct (String.eqb_spec name "") as [->|Hname].
  { destruct (decide _) as [_|]; [|done]. intros Hd.
    destruct devices as [|[|n [|d [|]]] [|]]; simplify_eq/=;
      (eexists; split; [reflexivity|]; split; [by left|]; split; [by split|]; auto). }
  destruct (decide _) as [|_]; [done|].
  destruct (initDevices name devices) as [ds|] eqn:E; [|done].
  destruct (existsb pd_Default ds) eqn:Ex; [|done]. intros [= <-].
  revert ds E Ex. induction devices as [|d devices IH]; intros ds E Ex; simplify_eq/=.
  destruct d as [|n [|dev [|]]]; simplify_eq/=.
  destruct (initDevices name devices) as [ds'|] eqn:E'; simplify_eq/=.
  destruct (String.eqb_spec n name) as [->|Hn]; simpl in *.
  - eexists. split; [reflexivity|]. split; [by left|]. split; [by split|].
    exists [], devices. auto.
  - destruct (IH ds' eq_refl Ex) as (pd & Hpd & Hin & Hwf & bef & aft & -> & Hnm & Hbef).
    exists pd. split; [done|]. split; [by right|]. split; [done|].
    exists ([n; dev] :: bef), aft. split_and!; auto. constructor; [|done]. simpl. congruence.
Qed.

(** ** Witnesses: a player that always starts and obeys *)

Record demoPlayer := mkPlayer { dp_file : MediaFile; dp_paused : bool; dp_pos : Z }.

#[local] Instance demoTrack : Track demoPlayer := {
  IsPlaying p := negb (dp_paused p);
  SetVolume _ p := p;
  Pause p := mkPlayer (dp_file p) true (dp_pos p);
  Unpause p := mkPlayer (dp_file p) false (dp_pos p);
  Position := dp_pos;
  SetPosition o p := (mkPlayer (dp_file p) (dp_paused p) o, None);
  Close p := p;
  NewTrack _ mf := Ok (mkPlayer mf true 0)
}.

Definition demoFile (id : string) : MediaFile :=
  mkMediaFile id "/music" id id "mp3" 0 0 320 44100 None 2 "mp3" "" 0
    0 "Artist" "al1" "aa1" ["ar1"] "Album" "" "" [] false 0 false.
Definition demoGet (id : string) : result string MediaFile := Ok (demoFile id).

(** Two tracks queued, the first one playing. *)
Definition demoDevice : playbackDevice demoPlayer :=
  default (NewPlaybackDevice "d" "auto")
    (run demoGet [CmdSet ["a"; "b"]; CmdStart] (NewPlaybackDevice "d" "auto")).

Lemma demoDevice_wf : device_wf demoDevice.
Proof. split; [|reflexivity]. by apply (bool_decide_unpack _). Qed.

Lemma device_plays_in_order_witness :
  exists pd', run demoGet (replicate 1 TrackEnded) demoDevice = Some pd' /\
    pd_ActiveTrack pd' = Some (mkPlayer (demoFile "b") false 0).
Proof.
  destruct (device_plays_in_order demoGet demoDevice 0 demoDevice_wf) as (pd' & Hr & _ & t & [= <-] & Ht).
  { done. }
  by exists pd'.
Defined.

Lemma device_set_start_witness :
  exists pd', run demoGet [CmdSet ["b"; "a"]; CmdStart] demoDevice = Some pd' /\
    pd_PlaybackQueue pd' = mkQueue 0 [demoFile "b"; demoFile "a"].
Proof.
  destruct (device_set_start demoGet demoDevice "b" ["a"] (demoFile "b") [demoFile "a"]
    (mkPlayer (demoFile "b") true 0)) as (pd' & Hr & Hq & _);
    [apply demoDevice_wf|reflexivity|reflexivity|].
  by exists pd'.
Defined.

Lemma device_skip_witness :
  exists pd' st, Skip 1 30 demoDevice = Some (pd', st, None) /\
    pd_ActiveTrack pd' = Some (mkPlayer (demoFile "b") false 30).
Proof.
  destruct (device_skip demoDevice 1 30 (demoFile "b") (mkPlayer (demoFile "b") true 0)
    (mkPlayer (demoFile "b") true 30) demoDevice_wf)
    as (pd' & st & Hs & _ & _ & Ht & _); try reflexivity; try done.
  by exists pd', st.
Defined.

Lemma queue_shuffle_witness :
  exists draw pd', (forall i, (draw i <= i)%nat) /\
    Shuffle draw (pd_PlaybackQueue demoDevice) = Some pd' /\
    q_Items pd' = [demoFile "b"; demoFile "a"].
Proof.
  destruct (queue_shuffle (pd_PlaybackQueue demoDevice) (proj1 demoDevice_wf)) as [_ Hall].
  apply Hall. apply perm_swap.
Defined.

Lemma queue_remove_witness :
  exists pd', Remove 1 (pd_PlaybackQueue demoDevice) = Some pd' /\
    Current pd' = Some (Some (demoFile "a")).
Proof.
  destruct (queue_remove (pd_PlaybackQueue demoDevice) 1 (demoFile "a") (demoFile "b"))
    as (pd' & Hr & _ & Hc);
    [apply demoDevice_wf|by apply (bool_decide_unpack _)|done|reflexivity|reflexivity|].
  by exists pd'.
Defined.

Lemma init_default_device_witness :
  exists (pd : playbackDevice demoPlayer) pds,
    initDeviceStatus [["usb"; "alsa/1"]; ["dac"; "alsa/2"]] "dac" = Ok pds /\
    getDefaultDevice pds = Ok pd /\ pd_Name pd = "dac".
Proof.
  destruct (init_default_device (T := demoPlayer)
    [["usb"; "alsa/1"]; ["dac"; "alsa/2"]] "dac" _ eq_refl) as (pd & Hpd & _ & _ & Hname).
  simpl in Hname. destruct Hname as (_ & _ & _ & Hn & _).
  eexists pd, _. split; [reflexivity|]. by split.
Defined.

(** Removing the playing track pauses it but leaves its player loaded: the next
    [Start] resumes the removed track. *)
Example removed_track_resumes :
  exists pd', run demoGet [CmdRemove 0; CmdStart] demoDevice = Some pd' /\
    q_Items (pd_PlaybackQueue pd') = [demoFile "b"] /\
    pd_ActiveTrack pd' = Some (mkPlayer (demoFile "a") false 0).
Proof. eexists. split; [vm_compute; reflexivity|]. done. Qed.
