(* ===== verification/AuthLimiter.v ===== *)
(** * The login limiter of the Subsonic API

    [server/subsonic/auth_limiter.go].  Failed logins are counted per hashed key
    in windows; credential checks for a key run at most [limit] at a time.  The
    code synchronises with one mutex and one channel per entry: each mutex
    section and each channel operation is one atomic action here, and requests
    interleave at that grain.  An entry is a heap cell, because a request keeps
    its pointer while a sweep may unlink it from the map.

    Ghost counters beside an entry count the requests at each program point of
    [acquire] and [release]; the code never reads them. *)

From S2P Require Import Prelude Model.

Local Open Scope Z_scope.

(** [consts.DefaultAuthWindowLength], 20 seconds. *)
Definition DefaultAuthWindowLength : Z := 20 * second.

(** [slots] is the number of elements in the channel, whose capacity is the limit. *)
Record authAttempts := mkAttempts {
  failures : Z; start : time; slots : Z; refs : Z }.

(** Requests at an entry: [waiting] have reserved and wait for a slot, [entered]
    hold a slot before the second look at the failures, [checking] hold an
    [authSlot], [draining] have given up their reference and still hold the
    slot.  [admitted] and [succeeded] count the checks granted and those released
    without failure since the window began. *)
Record procs := mkProcs {
  waiting : Z; entered : Z; checking : Z; draining : Z; admitted : Z; succeeded : Z }.

Record cell := mkCell { c_key : Z; c_att : authAttempts; c_procs : procs }.

Record authLimiter := mkLimiter {
  limit : Z;
  window : Z;
  keys : gmap Z nat;
  cells : gmap nat cell;
  next : nat;
  lastSweep : time
}.

(** [None] is the nil limiter, which allows everything.  The zero value of
    [lastSweep] is the zero time. *)
Definition newAuthLimiter (limit window : Z) : option authLimiter :=
  if limit <=? 0 then None
  else Some (mkLimiter limit (if window =? 0 then DefaultAuthWindowLength else window)
               ∅ ∅ 0 zero_time).

Definition set_keys (ks : gmap Z nat) (l : authLimiter) : authLimiter :=
  mkLimiter (limit l) (window l) ks (cells l) (next l) (lastSweep l).
Definition set_lastSweep (t : time) (l : authLimiter) : authLimiter :=
  mkLimiter (limit l) (window l) (keys l) (cells l) (next l) t.
(** A write through the pointer [e]. *)
Definition store (e : nat) (c : cell) (l : authLimiter) : authLimiter :=
  mkLimiter (limit l) (window l) (keys l) (<[e := c]> (cells l)) (next l) (lastSweep l).
(** [&authAttempts{...}]: a fresh cell. *)
Definition alloc (c : cell) (l : authLimiter) : nat * authLimiter :=
  (next l, mkLimiter (limit l) (window l) (keys l) (<[next l := c]> (cells l)) (S (next l)) (lastSweep l)).

(** Whether the sweep drops the entry. *)
Definition idle_expired (now : time) (l : authLimiter) (e : nat) : bool :=
  match cells l !! e with
  | Some c => (refs (c_att c) =? 0) && (window l <=? now - start (c_att c))
  | None => false
  end.

Definition sweep (now : time) (l : authLimiter) : authLimiter :=
  if now - lastSweep l <? window l then l
  else
    set_lastSweep now
      (set_keys (filter (fun kv : Z * nat => idle_expired now l kv.2 = false) (keys l)) l).

Definition no_procs : procs := mkProcs 0 0 0 0 0 0.
Definition new_window (g : procs) : procs :=
  mkProcs (waiting g) (entered g) (checking g) (draining g) 0 0.
Definition add_waiting (d : Z) (g : procs) : procs :=
  mkProcs (waiting g + d) (entered g) (checking g) (draining g) (admitted g) (succeeded g).

(** The entry of the key after the switch of [reserve]: a new one, the old one
    with a new window, or the old one. *)
Definition lookup_entry (now : time) (h : Z) (l : authLimiter) : nat * cell * authLimiter :=
  match keys l !! h ≫= (fun e => (e,.) <$> cells l !! e) with
  | None =>
      let c := mkCell h (mkAttempts 0 now 0 0) no_procs in
      let '(e, l) := alloc c l in (e, c, set_keys (<[h := e]> (keys l)) l)
  | Some (e, c) =>
      if window l <=? now - start (c_att c) then
        let c := mkCell (c_key c) (mkAttempts 0 now (slots (c_att c)) (refs (c_att c)))
                   (new_window (c_procs c)) in
        (e, c, store e c l)
      else (e, c, l)
  end.

(** [reserve] on the hash [h] of the key. *)
Definition reserve (now : time) (h : Z) (l : authLimiter) : authLimiter * option nat :=
  let l := sweep now l in
  let '(e, c, l) := lookup_entry now h l in
  let a := c_att c in
  if limit l <=? failures a then (l, None)
  else
    (store e (mkCell (c_key c) (mkAttempts (failures a) (start a) (slots a) (refs a + 1))
                (add_waiting 1 (c_procs c))) l, Some e).

(** [a.slots <- struct{}{}], which blocks while the channel is full. *)
Definition enter (e : nat) (l : authLimiter) : option authLimiter :=
  c ← cells l !! e;
  let a := c_att c in let g := c_procs c in
  if slots a <? limit l then
    Some (store e (mkCell (c_key c) (mkAttempts (failures a) (start a) (slots a + 1) (refs a))
      (mkProcs (waiting g - 1) (entered g + 1) (checking g) (draining g) (admitted g) (succeeded g))) l)
  else None.

(** The cancelled wait: [unref]. *)
Definition unref (e : nat) (l : authLimiter) : option authLimiter :=
  c ← cells l !! e;
  let a := c_att c in
  Some (store e (mkCell (c_key c) (mkAttempts (failures a) (start a) (slots a) (refs a - 1))
    (add_waiting (-1) (c_procs c))) l).

(** The second look: [blocked] drops the reference, otherwise a slot is granted. *)
Definition recheck (e : nat) (l : authLimiter) : option (bool * authLimiter) :=
  c ← cells l !! e;
  let a := c_att c in let g := c_procs c in
  if limit l <=? failures a then
    Some (true, store e (mkCell (c_key c) (mkAttempts (failures a) (start a) (slots a) (refs a - 1))
      (mkProcs (waiting g) (entered g - 1) (checking g) (draining g + 1) (admitted g) (succeeded g))) l)
  else
    Some (false, store e (mkCell (c_key c) a
      (mkProcs (waiting g) (entered g - 1) (checking g + 1) (draining g) (admitted g + 1) (succeeded g))) l).

(** The mutex section of [release]. *)
Definition settle (failed : bool) (e : nat) (l : authLimiter) : option authLimiter :=
  c ← cells l !! e;
  let a := c_att c in let g := c_procs c in
  Some (store e (mkCell (c_key c)
    (mkAttempts (failures a + if failed then 1 else 0) (start a) (slots a) (refs a - 1))
    (mkProcs (waiting g) (entered g) (checking g - 1) (draining g + 1) (admitted g)
       (succeeded g + if failed then 0 else 1))) l).

(** [<-a.slots], which blocks while the channel is empty. *)
Definition drain (e : nat) (l : authLimiter) : option authLimiter :=
  c ← cells l !! e;
  let a := c_att c in let g := c_procs c in
  if 0 <? slots a then
    Some (store e (mkCell (c_key c) (mkAttempts (failures a) (start a) (slots a - 1) (refs a))
      (mkProcs (waiting g) (entered g) (checking g) (draining g - 1) (admitted g) (succeeded g))) l)
  else None.

(** ** The operations of the code, run without interference *)

(** [acquire] with a context that is not cancelled: [None] blocks; otherwise the
    slot, or the refusal. *)
Definition acquire (now : time) (h : Z) (l : option authLimiter)
  : option (option authLimiter * option nat * bool) :=
  match l with
  | None => Some (None, None, true)
  | Some l =>
      match reserve now h l with
      | (l, None) => Some (Some l, None, false)
      | (l, Some e) =>
          l ← enter e l;
          '(blocked, l) ← recheck e l;
          if blocked : bool then l ← drain e l; Some (Some l, None, false)
          else Some (Some l, Some e, true)
      end
  end.

(** [release] on a slot, nil for a disabled limiter. *)
Definition release (failed : bool) (s : option nat) (l : option authLimiter)
  : option (option authLimiter) :=
  match s, l with
  | Some e, Some l => l ← settle failed e l; l ← drain e l; Some (Some l)
  | _, _ => Some l
  end.

(** ** Interleaved requests *)

Definition at_entry (p : procs -> Z) (e : nat) (l : authLimiter) : Prop :=
  exists c, cells l !! e = Some c /\ 0 < p (c_procs c).

Inductive step : authLimiter -> authLimiter -> Prop :=
| step_reserve now h l l' r : reserve now h l = (l', r) -> step l l'
| step_enter e l l' : at_entry waiting e l -> enter e l = Some l' -> step l l'
| step_cancel e l l' : at_entry waiting e l -> unref e l = Some l' -> step l l'
| step_recheck e l l' b : at_entry entered e l -> recheck e l = Some (b, l') -> step l l'
| step_settle failed e l l' : at_entry checking e l -> settle failed e l = Some l' -> step l l'
| step_drain e l l' : at_entry draining e l -> drain e l = Some l' -> step l l'.

(** ** The invariant *)

(** The counters of the code account for the requests at the entry, and the
    checks in flight leave the failures below twice the limit. *)
Definition cell_wf (lim : Z) (c : cell) : Prop :=
  let a := c_att c in let g := c_procs c in
  0 <= waiting g /\ 0 <= entered g /\ 0 <= checking g /\ 0 <= draining g /\
  0 <= succeeded g /\ 0 <= failures a /\
  refs a = waiting g + entered g + checking g /\
  slots a = entered g + checking g + draining g /\
  slots a <= lim /\
  failures a + checking g <= 2 * lim - 1 /\
  admitted g <= failures a + checking g + succeeded g.

(** An entry someone refers to is the one the map holds for its key. *)
Record linv (l : authLimiter) : Prop := {
  linv_limit : 0 < limit l;
  linv_fresh e c : cells l !! e = Some c -> (e < next l)%nat;
  linv_cell e c : cells l !! e = Some c -> cell_wf (limit l) c;
  linv_linked e c : cells l !! e = Some c -> 0 < refs (c_att c) -> keys l !! c_key c = Some e;
  linv_keys h e : keys l !! h = Some e -> exists c, cells l !! e = Some c /\ c_key c = h
}.

Lemma lookup_store_eq e c l : cells (store e c l) !! e = Some c.
Proof. apply lookup_insert_eq. Qed.

Lemma store_linv e c c' l :
  linv l -> cells l !! e = Some c -> c_key c' = c_key c -> cell_wf (limit l) c' ->
  (0 < refs (c_att c') -> keys l !! c_key c = Some e) -> linv (store e c' l).
Proof.
  intros Hl He Hk Hwf Hlink. split; simpl.
  - apply Hl.
  - intros e1 c1 [[<- <-]|[Hne H1]]%lookup_insert_Some; by eapply linv_fresh.
  - intros e1 c1 [[<- <-]|[Hne H1]]%lookup_insert_Some; [done|by eapply linv_cell].
  - intros e1 c1 [[<- <-]|[Hne H1]]%lookup_insert_Some Hr; [rewrite Hk; auto|by eapply linv_linked].
  - intros h e1 (c1 & H1 & Hc1)%(linv_keys _ Hl). destruct (decide (e = e1)) as [<-|Hne].
    + exists c'. rewrite lookup_insert_eq. simplify_eq. auto.
    + exists c1. by rewrite lookup_insert_ne.
Qed.

(** An action through a pointer that does not take a reference. *)
Lemma store_linv_le e c c' l :
  linv l -> cells l !! e = Some c -> c_key c' = c_key c -> cell_wf (limit l) c' ->
  refs (c_att c') <= refs (c_att c) -> linv (store e c' l).
Proof.
  intros Hl He Hk Hwf Hle. eapply store_linv; eauto. intros Hr.
  eapply linv_linked; [done|done|lia].
Qed.

Lemma sweep_limit now l : limit (sweep now l) = limit l.
Proof. unfold sweep. by case_cond. Qed.
Lemma sweep_window now l : window (sweep now l) = window l.
Proof. unfold sweep. by case_cond. Qed.
Lemma sweep_cells now l : cells (sweep now l) = cells l.
Proof. unfold sweep. by case_cond. Qed.

(** A sweep keeps an entry unless nobody refers to it and its window is over. *)
Lemma sweep_keys now l h e :
  keys (sweep now l) !! h = Some e <->
  keys l !! h = Some e /\ (window l <= now - lastSweep l -> idle_expired now l e = false).
Proof.
  unfold sweep. case_cond; bprop; simpl.
  - split; [|by intros []]. intros Hk. split; [done|lia].
  - rewrite map_lookup_filter_Some. simpl. split; intros [? Hi]; auto with lia.
Qed.

Lemma idle_expired_spec now l e c :
  cells l !! e = Some c ->
  idle_expired now l e = true <-> refs (c_att c) = 0 /\ window l <= now - start (c_att c).
Proof. intros He. unfold idle_expired. rewrite He. bprop. done. Qed.

Lemma sweep_linv now l : linv l -> linv (sweep now l).
Proof.
  intros Hl. split; rewrite ?sweep_limit, ?sweep_cells.
  - apply Hl.
  - intros e c He. assert (next (sweep now l) = next l) as -> by (unfold sweep; by case_cond).
    by eapply linv_fresh.
  - intros. by eapply linv_cell.
  - intros e c He Hr. apply sweep_keys. split; [by eapply linv_linked|]. intros _.
    apply not_true_is_false. rewrite idle_expired_spec by done. lia.
  - intros h e [Hk _]%sweep_keys. by eapply linv_keys.
Qed.

Lemma no_procs_wf lim now h : 0 < lim -> cell_wf lim (mkCell h (mkAttempts 0 now 0 0) no_procs).
Proof. unfold cell_wf. simpl. lia. Qed.

Lemma new_window_wf lim c now :
  0 < lim -> cell_wf lim c ->
  cell_wf lim (mkCell (c_key c) (mkAttempts 0 now (slots (c_att c)) (refs (c_att c)))
                 (new_window (c_procs c))).
Proof. unfold cell_wf. simpl. lia. Qed.

(** [lookup_entry] finds or makes the entry the map then holds for the key. *)
Lemma lookup_entry_spec now h l e c l' :
  linv l -> lookup_entry now h l = (e, c, l') ->
  linv l' /\ limit l' = limit l /\ window l' = window l /\ cells l' !! e = Some c /\
  c_key c = h /\ keys l' !! h = Some e /\
  (match keys l !! h ≫= (fun e => cells l !! e) with
   | Some c0 => c = if window l <=? now - start (c_att c0)
                    then mkCell h (mkAttempts 0 now (slots (c_att c0)) (refs (c_att c0)))
                           (new_window (c_procs c0))
                    else c0
   | None => c = mkCell h (mkAttempts 0 now 0 0) no_procs
   end).
Proof.
  intros Hl. unfold lookup_entry. destruct (keys l !! h) as [e0|] eqn:Hk; simpl.
  - destruct (linv_keys _ Hl _ _ Hk) as (c0 & He0 & Hkey). rewrite He0. simpl.
    case_cond; intros [= <- <- <-]; [|by rewrite Hkey].
    split; [|simpl; rewrite lookup_insert_eq; by rewrite Hkey].
    eapply store_linv_le; eauto; [|simpl; lia]. apply new_window_wf; [apply Hl|by eapply linv_cell].
  - intros [= <- <- <-]. simpl. rewrite !lookup_insert_eq. split; [|done].
    assert (forall e1 c1, cells l !! e1 = Some c1 -> next l <> e1) as Hne.
    { intros e1 c1 H1 <-. apply (linv_fresh _ Hl) in H1. lia. }
    split; simpl.
    + apply Hl.
    + intros e1 c1 [[<- <-]|[_ H1]]%lookup_insert_Some; [lia|].
      apply (linv_fresh _ Hl) in H1. lia.
    + intros e1 c1 [[<- <-]|[_ H1]]%lookup_insert_Some; [|by eapply linv_cell].
      apply no_procs_wf, Hl.
    + intros e1 c1 [[<- <-]|[_ H1]]%lookup_insert_Some Hr; simpl in *; [lia|].
      rewrite lookup_insert_ne; [by eapply linv_linked|]. intros ->.
      rewrite (linv_linked _ Hl _ _ H1 Hr) in Hk. done.
    + intros h1 e1 [[<- <-]|[Hh H1]]%lookup_insert_Some.
      * rewrite lookup_insert_eq. eauto.
      * destruct (linv_keys _ Hl _ _ H1) as (c1 & Hc1 & Hk1). exists c1.
        rewrite lookup_insert_ne by eauto. done.
Qed.

Lemma reserve_linv now h l l' r : linv l -> reserve now h l = (l', r) -> linv l' /\ limit l' = limit l.
Proof.
  intros Hl. unfold reserve. apply (sweep_linv now) in Hl as Hs.
  destruct (lookup_entry now h (sweep now l)) as [[e c] l1] eqn:E.
  destruct (lookup_entry_spec _ _ _ _ _ _ Hs E) as (Hl1 & Hlim & _ & He & Hkey & Hk & _).
  rewrite sweep_limit in Hlim.
  case_cond; intros [= <- <-]; [auto|]. split; [|done].
  pose proof (linv_cell _ Hl1 _ _ He) as Hc.
  eapply store_linv; eauto; simpl; [|by rewrite Hkey].
  revert Hc. unfold cell_wf. simpl. lia.
Qed.

Lemma step_linv l l' : linv l -> step l l' -> linv l' /\ limit l' = limit l.
Proof.
  intros Hl Hs. pose proof (linv_limit _ Hl) as Hlim. destruct Hs as
    [now h l l' r Hr|e l l' (c & He & Hp) Hr|e l l' (c & He & Hp) Hr|e l l' b (c & He & Hp) Hr
    |failed e l l' (c & He & Hp) Hr|e l l' (c & He & Hp) Hr];
    [by eapply reserve_linv| unfold enter in Hr | unfold unref in Hr | unfold recheck in Hr
    | unfold settle in Hr | unfold drain in Hr];
    rewrite He in Hr; cbn [mbind option_bind] in Hr; pose proof (linv_cell _ Hl _ _ He) as Hc;
    unfold cell_wf in Hc; case_conds; simplify_eq; bprop;
    (split; [eapply store_linv_le; eauto; unfold cell_wf; simpl; case_conds; lia|done]).
Qed.

Lemma newAuthLimiter_linv n w l : newAuthLimiter n w = Some l -> linv l /\ limit l = n.
Proof.
  unfold newAuthLimiter. case_cond; intros [= <-]. bprop. split; [|done].
  split; simpl; [done| | | |]; intros ??; by rewrite lookup_empty.
Qed.

(** Everything reachable from a new limiter is well-formed. *)
Definition reachable (n w : Z) (l : authLimiter) : Prop :=
  exists l0, newAuthLimiter n w = Some l0 /\ steps step l0 l.

Lemma reachable_linv n w l : reachable n w l -> linv l /\ limit l = n.
Proof.
  intros (l0 & H0 & Hs). apply newAuthLimiter_linv in H0.
  revert H0 Hs. apply (steps_invariant step (fun l => linv l /\ limit l = n)).
  intros a b [Ha Hn] Hab. apply step_linv in Hab as [Hb Hlim]; [|done].
  split; [done|]. by rewrite Hlim.
Qed.

(** C17: under every interleaving of requests a window of a key records at most
    2*limit-1 failed logins, and it grants at most 2*limit-1 credential checks
    beyond those that succeeded; at most [limit] checks for an entry run at
    once, and only for the entry its key currently maps to. *)
Theorem auth_window_bound n w l e c :
  reachable n w l -> cells l !! e = Some c ->
  failures (c_att c) <= 2 * n - 1 /\
  admitted (c_procs c) <= 2 * n - 1 + succeeded (c_procs c) /\
  checking (c_procs c) <= n /\
  (0 < checking (c_procs c) -> keys l !! c_key c = Some e).
Proof.
  intros Hr He. apply reachable_linv in Hr as [Hl <-].
  pose proof (linv_cell _ Hl _ _ He) as Hc. pose proof (linv_linked _ Hl _ _ He) as Hk.
  unfold cell_wf in Hc. split_and!; try lia. intros. apply Hk. lia.
Qed.

(** No reference or channel slot leaks and no request is stuck: with no
    request at an entry its counters are zero, and whenever requests are at an
    entry one of them can take its next step. *)
Theorem auth_no_leak n w l e c :
  reachable n w l -> cells l !! e = Some c ->
  let g := c_procs c in
  (waiting g + entered g + checking g + draining g = 0 ->
     refs (c_att c) = 0 /\ slots (c_att c) = 0) /\
  (0 < waiting g + entered g + checking g + draining g ->
     at_entry waiting e l /\ is_Some (enter e l) \/
     at_entry entered e l /\ is_Some (recheck e l) \/
     at_entry checking e l /\ is_Some (settle false e l) \/
     at_entry draining e l /\ is_Some (drain e l)).
Proof.
  intros Hr He g. apply reachable_linv in Hr as [Hl <-]. pose proof (linv_limit _ Hl).
  pose proof (linv_cell _ Hl _ _ He) as Hc. unfold cell_wf in Hc. subst g.
  split; [lia|]. intros Hsome. unfold at_entry, enter, recheck, settle, drain.
  rewrite He. cbn [mbind option_bind].
  destruct (decide (0 < entered (c_procs c))); [right; left; split; [eauto|case_cond; eauto]|].
  destruct (decide (0 < checking (c_procs c))); [right; right; left; split; eauto|].
  destruct (decide (0 < draining (c_procs c))).
  - right; right; right. split; [eauto|]. case_cond; [eauto|]. bprop. lia.
  - left. split; [exists c; split; [done|lia]|]. case_cond; [eauto|]. bprop. lia.
Qed.

(** The window of a key: when its failures started being counted. *)
Definition key_start (h : Z) (l : authLimiter) : option time :=
  e ← keys l !! h; c ← cells l !! e; Some (start (c_att c)).
Definition key_failures (h : Z) (l : authLimiter) : option Z :=
  e ← keys l !! h; c ← cells l !! e; Some (failures (c_att c)).

Lemma key_cell h e c l :
  keys l !! h = Some e -> cells l !! e = Some c ->
  key_start h l = Some (start (c_att c)) /\ key_failures h l = Some (failures (c_att c)).
Proof. unfold key_start, key_failures. intros -> H. simpl. by rewrite H. Qed.

(** A write through a pointer that keeps the start and does not lower the
    failures keeps the window of every key. *)
Lemma store_window h e c c' l s f :
  cells l !! e = Some c -> start (c_att c') = start (c_att c) ->
  failures (c_att c) <= failures (c_att c') ->
  key_start h l = Some s -> key_failures h l = Some f ->
  key_start h (store e c' l) = Some s /\
  exists f', key_failures h (store e c' l) = Some f' /\ f <= f'.
Proof.
  unfold key_start, key_failures. intros He Hst Hf. simpl.
  destruct (keys l !! h) as [e0|]; simpl; [|done].
  destruct (decide (e = e0)) as [<-|Hne].
  - rewrite He, lookup_insert_eq. simpl. intros [= <-] [= <-]. rewrite Hst. eauto.
  - rewrite lookup_insert_ne by done. destruct (cells l !! e0); simpl; [|done].
    intros [= <-] [= <-]. eauto with lia.
Qed.

(** After the sweep and the lookup of [reserve now h'], another key keeps its
    window or had an expired one; the key itself keeps it too, or starts anew
    once it is over. *)
Lemma lookup_entry_window now h' h l e c l' s f :
  linv l -> lookup_entry now h' l = (e, c, l') ->
  key_start h l = Some s -> key_failures h l = Some f ->
  (key_start h l' = Some s /\ key_failures h l' = Some f) \/ window l <= now - s.
Proof.
  intros Hl E Hs Hf. revert E. unfold lookup_entry.
  destruct (keys l !! h') as [e1|] eqn:Hk1; cbn [mbind option_bind].
  - destruct (linv_keys _ Hl _ _ Hk1) as (c1 & He1 & Hkey). rewrite He1. simpl.
    case_cond; intros [= <- <- <-]; [|by left]. bprop.
    destruct (decide (h = h')) as [->|Hne].
    { destruct (key_cell _ _ _ _ Hk1 He1). simplify_eq. auto. }
    left. revert Hs Hf. unfold key_start, key_failures. simpl.
    destruct (keys l !! h) as [e0|] eqn:Hk0; simpl; [|done].
    rewrite lookup_insert_ne; [done|]. intros <-.
    destruct (linv_keys _ Hl _ _ Hk0) as (c0 & He0 & Hkey0). congruence.
  - intros [= <- <- <-]. left. revert Hs Hf. unfold key_start, key_failures. simpl.
    destruct (keys l !! h) as [e0|] eqn:Hk0; simpl; [|done].
    destruct (linv_keys _ Hl _ _ Hk0) as (c0 & He0 & _).
    rewrite lookup_insert_ne by congruence. rewrite Hk0. simpl.
    rewrite lookup_insert_ne; [done|]. intros <-. apply (linv_fresh _ Hl) in He0. lia.
Qed.

Lemma sweep_window_kept now h l s f :
  linv l -> key_start h l = Some s -> key_failures h l = Some f ->
  (key_start h (sweep now l) = Some s /\ key_failures h (sweep now l) = Some f) \/
  window l <= now - s.
Proof.
  intros Hl Hs Hf. destruct (keys l !! h) as [e|] eqn:Hk; [|by unfold key_start in Hs; rewrite Hk in Hs].
  destruct (linv_keys _ Hl _ _ Hk) as (c & He & _).
  destruct (key_cell _ _ _ _ Hk He) as [Hs' Hf']. simplify_eq.
  destruct (idle_expired now l e) eqn:Hi.
  { right. by apply (idle_expired_spec _ _ _ _ He) in Hi as [_ ?]. }
  left. apply key_cell with e; [apply sweep_keys; auto|]. by rewrite sweep_cells.
Qed.

Lemma step_window l l' h s f :
  linv l -> step l l' -> key_start h l = Some s -> key_failures h l = Some f ->
  (key_start h l' = Some s /\ exists f', key_failures h l' = Some f' /\ f <= f') \/
  exists now h' r, reserve now h' l = (l', r) /\ window l <= now - s.
Proof.
  intros Hl Hst Hs Hf. destruct Hst as
    [now h' l l' r Hr|e l l' (c & He & Hp) Hr|e l l' (c & He & Hp) Hr|e l l' b (c & He & Hp) Hr
    |failed e l l' (c & He & Hp) Hr|e l l' (c & He & Hp) Hr];
    [|unfold enter in Hr | unfold unref in Hr | unfold recheck in Hr
    | unfold settle in Hr | unfold drain in Hr];
    [|rewrite He in Hr; cbn [mbind option_bind] in Hr; case_conds; simplify_eq; left;
      (eapply store_window; eauto; simpl; lia) ..].
  pose proof Hr as Hr0. revert Hr. unfold reserve.
  destruct (sweep_window_kept now h l s f Hl Hs Hf) as [[Hs1 Hf1]|?]; [|by eauto 6].
  destruct (lookup_entry now h' (sweep now l)) as [[e c] l1] eqn:E.
  pose proof (lookup_entry_spec _ _ _ _ _ _ (sweep_linv now l Hl) E) as (_ & _ & _ & He & _).
  destruct (lookup_entry_window _ _ _ _ _ _ _ _ _ (sweep_linv now l Hl) E Hs1 Hf1)
    as [[Hs2 Hf2]|?]; [|rewrite sweep_window in *; by eauto 6].
  intros Hr. left. case_conds; [eauto with lia|].
  by eapply store_window; eauto; simpl; lia.
Qed.

(** Failed logins are forgotten only with their window: until a request
    arrives at least [window] after the window of a key began, no step moves the
    beginning of the window or lowers its failure count. *)
Theorem auth_window_kept n w l l' h s f :
  reachable n w l -> step l l' -> key_start h l = Some s -> key_failures h l = Some f ->
  (key_start h l' = Some s /\ exists f', key_failures h l' = Some f' /\ f <= f') \/
  exists now h' r, reserve now h' l = (l', r) /\ window l <= now - s.
Proof. intros [Hl _]%reachable_linv. by apply step_window. Qed.

(** ** The sequential contract *)

(** The failures that count against a request arriving at [now]. *)
Definition counted (now : time) (h : Z) (l : authLimiter) : Z :=
  match key_start h l, key_failures h l with
  | Some s, Some f => if window l <=? now - s then 0 else f
  | _, _ => 0
  end.

(** No other check for the key is in flight to wait for. *)
Definition slot_free (h : Z) (l : authLimiter) : Prop :=
  forall e c, keys l !! h = Some e -> cells l !! e = Some c -> slots (c_att c) < limit l.

Lemma reserve_spec now h l :
  linv l ->
  exists l' e c, cells l' !! e = Some c /\ keys l' !! h = Some e /\ limit l' = limit l /\ linv l' /\
    failures (c_att c) = counted now h l /\
    (slot_free h l -> slots (c_att c) < limit l) /\
    reserve now h l = (l', if limit l <=? counted now h l then None else Some e).
Proof.
  intros Hl. pose proof (reserve_linv now h l) as Hres. revert Hres. unfold reserve.
  pose proof (sweep_linv now l Hl) as Hs.
  destruct (lookup_entry now h (sweep now l)) as [[e c] l1] eqn:E. intros Hres.
  destruct (lookup_entry_spec _ _ _ _ _ _ Hs E) as (Hl1 & Hlim & Hw & He & Hkey & Hk & Hc).
  rewrite sweep_limit, ?sweep_window, ?sweep_cells in *.
  assert (failures (c_att c) = counted now h l /\ (slot_free h l -> slots (c_att c) < limit l))
    as [Hf Hsl].
  { pose proof (linv_limit _ Hl). unfold counted, key_start, key_failures, slot_free.
    destruct (keys (sweep now l) !! h) as [e0|] eqn:Hk0.
    - apply sweep_keys in Hk0 as [Hk0 _]. rewrite Hk0 in *. simpl in *.
      destruct (linv_keys _ Hl _ _ Hk0) as (c0 & He0 & _). rewrite He0 in *. simpl in *.
      case_cond; subst c; simpl; split; eauto.
    - simpl in Hc. subst c. simpl. split; [|lia].
      destruct (keys l !! h) as [e0|] eqn:Hk1; simpl; [|done].
      destruct (linv_keys _ Hl _ _ Hk1) as (c0 & He0 & _). rewrite He0. simpl.
      destruct (idle_expired now l e0) eqn:Hi.
      + apply (idle_expired_spec _ _ _ _ He0) in Hi as [_ ?]. case_cond; [done|]. bprop. lia.
      + exfalso. enough (keys (sweep now l) !! h = Some e0) by congruence.
        by apply sweep_keys. }
  rewrite <- Hf, <- Hlim. case_cond.
  - exists l1, e, c. rewrite Hlim in *. auto 10.
  - destruct (Hres _ _ Hl eq_refl) as [Hl2 Hlim2].
    set (l2 := store _ _ _) in *. exists l2, e. eexists.
    split_and!; [apply lookup_insert_eq|exact Hk|reflexivity|done|done|by rewrite Hlim|reflexivity].
Qed.

(** A request that finds a free slot is granted a check exactly when the key
    has fewer than [limit] failures in the current window; releasing it with a
    failure adds exactly one to the count, and a success adds none; a disabled
    limiter grants everything. *)
Theorem acquire_correct n w l now h :
  acquire now h None = Some (None, None, true) /\
  (reachable n w l -> slot_free h l ->
   exists l1 s ok, acquire now h (Some l) = Some (Some l1, s, ok) /\
     ok = (counted now h l <? n) /\
     key_failures h l1 = Some (counted now h l) /\
     (ok = true -> forall failed, exists l2, release failed s (Some l1) = Some (Some l2) /\
        key_failures h l2 = Some (counted now h l + if failed then 1 else 0))).
Proof.
  split; [done|]. intros [Hl <-]%reachable_linv Hfree. unfold acquire.
  destruct (reserve_spec now h l Hl) as (l' & e & c & He & Hk & Hlim & Hl' & Hf & Hsl & ->).
  specialize (Hsl Hfree). pose proof (linv_limit _ Hl).
  pose proof (linv_cell _ Hl' _ _ He) as Hc. unfold cell_wf in Hc.
  destruct (key_cell _ _ _ _ Hk He) as [_ Hkf].
  destruct (Z.leb_spec (limit l) (counted now h l)) as [Hle|Hlt].
  - exists l', None, false. rewrite Hkf, Hf. split_and!; auto; [|done]. symmetry. bprop. lia.
  - unfold enter. rewrite He. cbn [mbind option_bind].
    destruct (Z.ltb_spec (slots (c_att c)) (limit l')); [|lia].
    cbn [mbind option_bind]. unfold recheck. rewrite lookup_store_eq. cbn [mbind option_bind c_att c_procs c_key failures].
    change (limit (store _ _ l')) with (limit l').
    destruct (Z.leb_spec (limit l') (failures (c_att c))); [lia|].
    eexists _, (Some e), true. split; [reflexivity|]. split; [symmetry; bprop; lia|].
    assert (forall c' l1, keys l1 = keys l' -> key_failures h (store e c' l1)
              = Some (failures (c_att c'))) as Hkey.
    { intros c' l1 Hks. unfold key_failures. cbn. rewrite Hks, Hk. cbn.
      by rewrite lookup_insert_eq. }
    rewrite Hkey by done. cbn. rewrite Hf. split; [done|]. intros _ failed.
    unfold settle. rewrite lookup_store_eq. cbn. unfold drain. rewrite lookup_store_eq. cbn.
    destruct (Z.ltb_spec 0 (slots (c_att c) + 1)); [|lia].
    eexists. split; [reflexivity|]. by rewrite Hkey.
Qed.

(** ** Witnesses: a limit of two and three requests for the same key *)

(** Runs an action, keeping the state when it would block. *)
Definition act (f : authLimiter -> option authLimiter) (l : authLimiter) : authLimiter :=
  default l (f l).

Definition demo0 : authLimiter := mkLimiter 2 (20 * second) ∅ ∅ 0 zero_time.
(** Three requests reserve, and two of them take the slots. *)
Definition demo1 : authLimiter :=
  (reserve 3 7 (reserve 2 7 (reserve 1 7 demo0).1).1).1.
Definition demo2 : authLimiter := act (enter 0) (act (enter 0) demo1).

Lemma demo1_reachable : reachable 2 0 demo1.
Proof.
  exists demo0. split; [reflexivity|].
  eapply steps_snoc; [eapply steps_snoc; [apply steps_one|]|];
    (eapply step_reserve; apply surjective_pairing).
Qed.

Lemma demo2_reachable : reachable 2 0 demo2.
Proof.
  destruct demo1_reachable as (l0 & H0 & Hs). exists l0. split; [done|].
  eapply steps_snoc; [eapply steps_snoc; [exact Hs|]|].
  - apply (step_enter 0 demo1 (act (enter 0) demo1)); [|vm_compute; reflexivity].
    eexists. split; vm_compute; reflexivity.
  - apply (step_enter 0 _ demo2); [|vm_compute; reflexivity].
    eexists. split; vm_compute; reflexivity.
Qed.

Lemma auth_window_bound_witness :
  exists c, cells demo2 !! 0%nat = Some c /\ failures (c_att c) <= 2 * 2 - 1 /\ entered (c_procs c) = 2.
Proof.
  assert (exists c, cells demo2 !! 0%nat = Some c /\ entered (c_procs c) = 2) as (c & Hc & He)
    by (eexists; split; vm_compute; reflexivity).
  exists c. split; [done|]. split; [|done].
  apply (auth_window_bound 2 0 demo2 0 c demo2_reachable Hc).
Defined.

Lemma auth_no_leak_witness :
  exists c, cells demo2 !! 0%nat = Some c /\ waiting (c_procs c) = 1 /\
    (at_entry waiting 0 demo2 /\ is_Some (enter 0 demo2) \/
     at_entry entered 0 demo2 /\ is_Some (recheck 0 demo2) \/
     at_entry checking 0 demo2 /\ is_Some (settle false 0 demo2) \/
     at_entry draining 0 demo2 /\ is_Some (drain 0 demo2)).
Proof.
  assert (exists c, cells demo2 !! 0%nat = Some c /\ waiting (c_procs c) = 1 /\
    0 < waiting (c_procs c) + entered (c_procs c) + checking (c_procs c) + draining (c_procs c))
    as (c & Hc & Hw & Hs) by (eexists; split_and!; vm_compute; reflexivity).
  exists c. split_and!; [done|done|].
  by apply (proj2 (auth_no_leak 2 0 demo2 0 c demo2_reachable Hc)).
Defined.

Lemma auth_window_kept_witness :
  step demo1 (act (enter 0) demo1) /\
  ((key_start 7 (act (enter 0) demo1) = Some 1 /\
    exists f, key_failures 7 (act (enter 0) demo1) = Some f /\ 0 <= f) \/
   exists now h r, reserve now h demo1 = (act (enter 0) demo1, r) /\ window demo1 <= now - 1).
Proof.
  assert (step demo1 (act (enter 0) demo1)) as Hs.
  { apply (step_enter 0); [|vm_compute; reflexivity]. eexists. split; vm_compute; reflexivity. }
  split; [exact Hs|].
  apply (auth_window_kept 2 0 demo1 _ 7 1 0 demo1_reachable Hs); vm_compute; reflexivity.
Defined.

Lemma acquire_correct_witness :
  exists l1 s, acquire 4 7 (Some demo1) = Some (Some l1, s, true).
Proof.
  destruct (acquire_correct 2 0 demo1 4 7) as [_ H].
  destruct (H demo1_reachable) as (l1 & s & ok & Ha & -> & _).
  { intros e c He Hc. assert (keys demo1 !! 7 = Some 0%nat) as H0 by (vm_compute; reflexivity).
    assert ((fun c => slots (c_att c)) <$> cells demo1 !! 0%nat = Some 0) as H1
      by (vm_compute; reflexivity).
    rewrite H0 in He. injection He as <-. rewrite Hc in H1. injection H1 as ->. done. }
  exists l1, s. exact Ha.
Defined.

(** A schedule: the actions of the requests, in order. *)
Inductive action := AReserve (now h : Z) | AEnter | ARecheck | ASettle (failed : bool) | ADrain.

Definition at_entryb (p : procs -> Z) (e : nat) (l : authLimiter) : bool :=
  match cells l !! e with Some c => 0 <? p (c_procs c) | None => false end.

(** One action at entry 0, when some request is ready for it. *)
Definition perform (l : authLimiter) (a : action) : option authLimiter :=
  match a with
  | AReserve now h => Some (reserve now h l).1
  | AEnter => if at_entryb waiting 0 l then enter 0 l else None
  | ARecheck => if at_entryb entered 0 l then snd <$> recheck 0 l else None
  | ASettle failed => if at_entryb checking 0 l then settle failed 0 l else None
  | ADrain => if at_entryb draining 0 l then drain 0 l else None
  end.

Lemma at_entryb_spec p e l : at_entryb p e l = true -> at_entry p e l.
Proof.
  unfold at_entryb, at_entry. destruct (cells l !! e); [|done]. intros. bprop. eauto.
Qed.

Lemma perform_step l a l' : perform l a = Some l' -> step l l'.
Proof.
  destruct a; simpl; try case_cond; try done.
  - intros [= <-]. eapply step_reserve, surjective_pairing.
  - intros. eapply step_enter; [by apply at_entryb_spec|done].
  - intros ([b l1] & Hr & ->)%fmap_Some. eapply step_recheck; [by apply at_entryb_spec|done].
  - intros. eapply step_settle; [by apply at_entryb_spec|done].
  - intros. eapply step_drain; [by apply at_entryb_spec|done].
Qed.

Lemma schedule_steps l acts l' :
  foldl (fun o a => o ≫= fun l => perform l a) (Some l) acts = Some l' -> steps step l l'.
Proof.
  revert l'. induction acts as [|a acts IH] using rev_ind; intros l'; simpl.
  { intros [= <-]. constructor. }
  rewrite foldl_app. simpl. intros (l1 & H1 & Hp)%bind_Some.
  eapply steps_snoc; [by apply IH|by eapply perform_step].
Qed.

(** The bound is reached: with a limit of two, three logins fail in one window. *)
Example auth_bound_tight :
  exists l, reachable 2 0 l /\ key_failures 7 l = Some 3.
Proof.
  set (o := foldl (fun o a => o ≫= fun l => perform l a) (Some demo0)
    [AReserve 1 7; AReserve 2 7; AReserve 3 7; AEnter; ARecheck; ASettle true; ADrain;
     AEnter; ARecheck; AEnter; ARecheck; ASettle true; ASettle true]).
  assert (key_failures 7 <$> o = Some (Some 3)) as Hk by (vm_compute; reflexivity).
  destruct o as [l|] eqn:E; [|done]. injection Hk as Hk. exists l. split; [|done].
  exists demo0. split; [reflexivity|by eapply schedule_steps].
Qed.
