(* ===== verification/Throttle.v ===== *)
(** * The request throttle

    [server/throttle_backlog.go].  A request takes a backlog token, then a
    processing token; it gives both back when its handler returns, before the
    buffered response is written to the client.  The two channels are counters,
    each channel operation is one atomic action, and requests interleave at that
    grain.  The ghost counters [queued], [running] and [leaving] count requests
    between those operations. *)

From S2P Require Import Prelude.

Local Open Scope Z_scope.

Record requestThrottle := mkThrottle {
  t_limit : Z; t_backlogLimit : Z;
  tokens : Z; backlogTokens : Z;
  queued : Z; running : Z; leaving : Z
}.

(** The middleware with [DevArtworkThrottleBuffered] on: [None] when the limit is
    not positive and requests pass through; both channels start full. *)
Definition ThrottleBacklog (limit backlogLimit : Z) : option requestThrottle :=
  if limit <=? 0 then None
  else Some (mkThrottle limit backlogLimit limit (limit + backlogLimit) 0 0 0).

(** The first select of [acquire] when the context is not done: a backlog token,
    or [ErrThrottleCapacityExceeded] ([None]). *)
Definition takeBacklog (t : requestThrottle) : option requestThrottle :=
  if 0 <? backlogTokens t
  then Some (mkThrottle (t_limit t) (t_backlogLimit t) (tokens t) (backlogTokens t - 1)
               (queued t + 1) (running t) (leaving t))
  else None.

(** [<-t.tokens], in the second select or while waiting; [None] when it would block. *)
Definition takeToken (t : requestThrottle) : option requestThrottle :=
  if 0 <? tokens t
  then Some (mkThrottle (t_limit t) (t_backlogLimit t) (tokens t - 1) (backlogTokens t)
               (queued t - 1) (running t + 1) (leaving t))
  else None.

(** The timer or the context ends the wait: the backlog token is sent back.
    [None] when the channel is full and the send would block. *)
Definition giveUp (t : requestThrottle) : option requestThrottle :=
  if backlogTokens t <? t_limit t + t_backlogLimit t
  then Some (mkThrottle (t_limit t) (t_backlogLimit t) (tokens t) (backlogTokens t + 1)
               (queued t - 1) (running t) (leaving t))
  else None.

(** The two sends of [releaseFunc]. *)
Definition releaseToken (t : requestThrottle) : option requestThrottle :=
  if tokens t <? t_limit t
  then Some (mkThrottle (t_limit t) (t_backlogLimit t) (tokens t + 1) (backlogTokens t)
               (queued t) (running t - 1) (leaving t + 1))
  else None.
Definition releaseBacklog (t : requestThrottle) : option requestThrottle :=
  if backlogTokens t <? t_limit t + t_backlogLimit t
  then Some (mkThrottle (t_limit t) (t_backlogLimit t) (tokens t) (backlogTokens t + 1)
               (queued t) (running t) (leaving t - 1))
  else None.

Inductive throttle_step : requestThrottle -> requestThrottle -> Prop :=
| ts_enter t t' : takeBacklog t = Some t' -> throttle_step t t'
| ts_token t t' : 0 < queued t -> takeToken t = Some t' -> throttle_step t t'
| ts_giveUp t t' : 0 < queued t -> giveUp t = Some t' -> throttle_step t t'
| ts_token_back t t' : 0 < running t -> releaseToken t = Some t' -> throttle_step t t'
| ts_backlog_back t t' : 0 < leaving t -> releaseBacklog t = Some t' -> throttle_step t t'.

Definition throttled (limit backlogLimit : Z) (t : requestThrottle) : Prop :=
  exists t0, ThrottleBacklog limit backlogLimit = Some t0 /\ steps throttle_step t0 t.

(** ** Buffered responses *)

(** What a handler does to its [http.ResponseWriter]. *)
Inductive event :=
| SetHeader (k : string) (v : list string)
| WriteHeader (code : Z)
| Write (b : string).

Abbreviation headers := (gmap string (list string)).

Record bufferedResponseWriter := mkBuffered { b_header : headers; b_body : string; b_code : Z }.
Definition newBuffer : bufferedResponseWriter := mkBuffered ∅ "" 0.

Definition buf_event (w : bufferedResponseWriter) (e : event) : bufferedResponseWriter :=
  match e with
  | SetHeader k v => mkBuffered (<[k := v]> (b_header w)) (b_body w) (b_code w)
  | WriteHeader code =>
      if negb (b_code w =? 0) then w else mkBuffered (b_header w) (b_body w) code
  | Write b => mkBuffered (b_header w) (b_body w +:+ b) (b_code w)
  end.

(** The connection's writer: the status and headers are fixed by the first
    [WriteHeader], or by the first [Write] with status 200. *)
Record responseWriter := mkWriter {
  w_header : headers; w_sent : option (Z * headers); w_body : string }.

Definition send_header (code : Z) (w : responseWriter) : responseWriter :=
  match w_sent w with
  | Some _ => w
  | None => mkWriter (w_header w) (Some (code, w_header w)) (w_body w)
  end.

Definition writer_event (w : responseWriter) (e : event) : responseWriter :=
  match e with
  | SetHeader k v => mkWriter (<[k := v]> (w_header w)) (w_sent w) (w_body w)
  | WriteHeader code => send_header code w
  | Write b => let w := send_header 200 w in mkWriter (w_header w) (w_sent w) (w_body w +:+ b)
  end.

(** The response on the wire once the handler has returned. *)
Definition finish (w : responseWriter) : option (Z * headers) * string :=
  let w := send_header 200 w in (w_sent w, w_body w).

(** The end of [handler]: copy the headers, the status if one was set, the body. *)
Definition flush (buf : bufferedResponseWriter) (w : responseWriter) : responseWriter :=
  let w := mkWriter (b_header buf ∪ w_header w) (w_sent w) (w_body w) in
  let w := if 0 <? b_code buf then writer_event w (WriteHeader (b_code buf)) else w in
  writer_event w (Write (b_body buf)).

(** The response of a throttled handler, and of the handler alone. *)
Definition buffered_response (h0 : headers) (evs : list event) : option (Z * headers) * string :=
  finish (flush (foldl buf_event newBuffer evs) (mkWriter h0 None "")).
Definition direct_response (h0 : headers) (evs : list event) : option (Z * headers) * string :=
  finish (foldl writer_event (mkWriter h0 None "") evs).

(** A handler that sets headers, then at most a final status, then writes. *)
Definition is_header (e : event) : Prop := match e with SetHeader _ _ => True | _ => False end.
Definition is_write (e : event) : Prop := match e with Write _ => True | _ => False end.

Inductive well_behaved : list event -> Prop :=
| wb_default hs ws : Forall is_header hs -> Forall is_write ws -> well_behaved (hs ++ ws)
| wb_status hs code ws :
    Forall is_header hs -> 200 <= code -> Forall is_write ws ->
    well_behaved (hs ++ WriteHeader code :: ws).

(** ** Tokens *)

(** Tokens are conserved. *)
Definition throttle_inv (t : requestThrottle) : Prop :=
  0 <= queued t /\ 0 <= running t /\ 0 <= leaving t /\
  0 <= tokens t /\ 0 <= backlogTokens t /\
  tokens t + running t = t_limit t /\
  backlogTokens t + queued t + running t + leaving t = t_limit t + t_backlogLimit t.

Lemma throttle_step_inv t t' :
  throttle_inv t -> throttle_step t t' ->
  throttle_inv t' /\ t_limit t' = t_limit t /\ t_backlogLimit t' = t_backlogLimit t.
Proof.
  unfold throttle_inv. intros Hi Hs.
  destruct Hs as [t t' Hr|t t' ? Hr|t t' ? Hr|t t' ? Hr|t t' ? Hr];
    [unfold takeBacklog in Hr|unfold takeToken in Hr|unfold giveUp in Hr
    |unfold releaseToken in Hr|unfold releaseBacklog in Hr];
    case_conds; bprop; simpl; lia.
Qed.

Lemma throttled_inv limit backlogLimit t :
  0 <= backlogLimit -> throttled limit backlogLimit t ->
  throttle_inv t /\ t_limit t = limit /\ t_backlogLimit t = backlogLimit.
Proof.
  intros Hb (t0 & H0 & Hs). revert Hs.
  apply (steps_invariant throttle_step
    (fun t => throttle_inv t /\ t_limit t = limit /\ t_backlogLimit t = backlogLimit)).
  - intros a b (Ha & <- & <-) Hab. by apply throttle_step_inv.
  - revert H0. unfold ThrottleBacklog, throttle_inv. case_cond; intros [= <-]. bprop. simpl. lia.
Qed.

(** Under every interleaving at most [limit] requests are processed and at
    most [limit + backlogLimit] are admitted; a request is refused for capacity
    exactly when that many are admitted; giving tokens back never blocks; and
    when no request is left both channels are full again. *)
Theorem throttle_caps limit backlogLimit t :
  0 <= backlogLimit -> throttled limit backlogLimit t ->
  let admitted := queued t + running t + leaving t in
  running t <= limit /\ admitted <= limit + backlogLimit /\
  (takeBacklog t = None <-> admitted = limit + backlogLimit) /\
  (0 < queued t -> is_Some (giveUp t)) /\
  (0 < running t -> is_Some (releaseToken t)) /\
  (0 < leaving t -> is_Some (releaseBacklog t)) /\
  (0 < queued t -> running t < limit -> is_Some (takeToken t)) /\
  (admitted = 0 -> tokens t = limit /\ backlogTokens t = limit + backlogLimit).
Proof.
  intros Hb Ht. apply throttled_inv in Ht as (Hi & <- & <-); [|done].
  unfold throttle_inv in Hi. unfold takeBacklog, giveUp, releaseToken, releaseBacklog, takeToken.
  cbn zeta. split_and!; try lia.
  - case_cond; bprop; split; intros; try done; lia.
  - intros. case_cond; [eauto|]. bprop. lia.
  - intros. case_cond; [eauto|]. bprop. lia.
  - intros. case_cond; [eauto|]. bprop. lia.
  - intros. case_cond; [eauto|]. bprop. lia.
Qed.

(** ** Transparency of the buffer *)

(** The headers a prefix of header events leaves, over those already set. *)
Definition header_of (h : headers) (e : event) : headers :=
  match e with SetHeader k v => <[k := v]> h | _ => h end.

Lemma buf_headers hs w :
  Forall is_header hs ->
  foldl buf_event w hs = mkBuffered (foldl header_of (b_header w) hs) (b_body w) (b_code w).
Proof.
  intros Hh. revert w. induction Hh as [|e hs He _ IH]; intros w; simpl; [by destruct w|].
  destruct e; try done. by rewrite IH.
Qed.

Lemma writer_headers hs w :
  Forall is_header hs ->
  foldl writer_event w hs = mkWriter (foldl header_of (w_header w) hs) (w_sent w) (w_body w).
Proof.
  intros Hh. revert w. induction Hh as [|e hs He _ IH]; intros w; simpl; [by destruct w|].
  destruct e; try done. by rewrite IH.
Qed.

Definition body_of (ws : list event) : string :=
  foldr (fun e s => match e with Write b => b +:+ s | _ => s end) "" ws.

Lemma buf_writes ws w :
  Forall is_write ws ->
  foldl buf_event w ws = mkBuffered (b_header w) (b_body w +:+ body_of ws) (b_code w).
Proof.
  intros Hw. revert w. induction Hw as [|e ws He _ IH]; intros w; simpl.
  { rewrite string_app_nil_r. by destruct w. }
  destruct e; try done. by rewrite IH; simpl; rewrite string_app_assoc.
Qed.

Lemma send_header_sent code w s : w_sent w = Some s -> send_header code w = w.
Proof. unfold send_header. by intros ->. Qed.

(** Once the header is sent, writes only extend the body. *)
Lemma writer_writes_sent ws w s :
  Forall is_write ws -> w_sent w = Some s ->
  foldl writer_event w ws = mkWriter (w_header w) (Some s) (w_body w +:+ body_of ws).
Proof.
  intros Hw. revert w. induction Hw as [|e ws He _ IH]; intros w Hs; simpl.
  { rewrite string_app_nil_r. destruct w. by simplify_eq/=. }
  destruct e; try done. cbn [writer_event]. rewrite (send_header_sent _ _ _ Hs).
  rewrite IH by done. simpl. by rewrite string_app_assoc.
Qed.

Lemma finish_writes ws h b :
  Forall is_write ws ->
  finish (foldl writer_event (mkWriter h None b) ws) = (Some (200, h), b +:+ body_of ws).
Proof.
  intros Hw. destruct Hw as [|e ws He Hws]; simpl; [by rewrite string_app_nil_r|].
  destruct e; try done. unfold send_header. simpl.
  rewrite (writer_writes_sent _ _ (200, h)) by done. unfold finish, send_header. simpl.
  by rewrite string_app_assoc.
Qed.

Lemma header_of_union hs h0 :
  foldl header_of h0 hs = foldl header_of ∅ hs ∪ h0.
Proof.
  induction hs as [|e hs IH] using rev_ind; simpl; [by rewrite map_empty_union|].
  rewrite !foldl_app. simpl. destruct e; simpl; rewrite IH; try done.
  by rewrite insert_union_l.
Qed.

(** Buffering is transparent: a handler that sets its headers and status
    before it writes produces, through the buffer, byte for byte the response it
    would have produced on the connection, whatever headers were already set. *)
Theorem buffer_transparent h0 evs :
  well_behaved evs -> buffered_response h0 evs = direct_response h0 evs.
Proof.
  unfold buffered_response, direct_response.
  intros [hs ws Hh Hw|hs code ws Hh Hc Hw]; rewrite !foldl_app; cbn [foldl];
    rewrite (buf_headers hs), (writer_headers hs) by done; cbn [b_header b_body b_code newBuffer
      w_header w_sent w_body buf_event writer_event Z.eqb negb].
  - rewrite buf_writes, finish_writes by done. unfold flush. simpl.
    unfold finish, send_header. simpl. by rewrite <- header_of_union.
  - rewrite buf_writes by done. unfold flush. cbn [b_code].
    destruct (Z.ltb_spec 0 code); [|lia]. unfold writer_event, send_header. simpl.
    rewrite (writer_writes_sent _ _ (code, foldl header_of h0 hs)) by done.
    unfold finish, send_header. simpl. by rewrite <- header_of_union.
Qed.

(** A status set after the body has started is ignored on the connection but
    sent by the buffer. *)
Example buffer_late_status :
  buffered_response ∅ [Write "x"; WriteHeader 500] = (Some (500, ∅), "x") /\
  direct_response ∅ [Write "x"; WriteHeader 500] = (Some (200, ∅), "x").
Proof. split; vm_compute; reflexivity. Qed.

(** ** Witnesses *)

Lemma throttle_caps_witness :
  exists t, throttled 1 1 t /\ queued t = 1 /\ running t = 1 /\ takeBacklog t = None.
Proof.
  set (t := mkThrottle 1 1 0 0 1 1 0). exists t.
  assert (throttled 1 1 t) as Ht.
  { exists (mkThrottle 1 1 1 2 0 0 0). split; [reflexivity|].
    eapply steps_snoc; [eapply steps_snoc; [apply steps_one|]|].
    - by apply (ts_enter _ (mkThrottle 1 1 1 1 1 0 0)).
    - by apply (ts_token _ (mkThrottle 1 1 0 1 0 1 0)).
    - by apply ts_enter. }
  split_and!; [done|done|done|].
  destruct (throttle_caps 1 1 t ltac:(lia) Ht) as (_ & _ & Hfull & _). by apply Hfull.
Defined.

Lemma buffer_transparent_witness :
  buffered_response {["Server" := ["noorify"]]}
    [SetHeader "Content-Type" ["image/png"]; WriteHeader 404; Write "not"; Write " found"]
  = direct_response {["Server" := ["noorify"]]}
    [SetHeader "Content-Type" ["image/png"]; WriteHeader 404; Write "not"; Write " found"].
Proof.
  apply buffer_transparent.
  apply (wb_status [SetHeader "Content-Type" ["image/png"]] 404 [Write "not"; Write " found"]);
    repeat constructor; done.
Defined.
