(* ===== verification/GoFloat.v ===== *)
(** * Go's floating point

    [float32] and [float64] arithmetic as IEEE 754 binary32 and binary64,
    executable through the Standard Library's [SpecFloat].  A conversion to an
    integer truncates; out of range and for NaN Go leaves it to the platform,
    and the amd64 result, the most negative integer, is used. *)

From S2P Require Import Prelude Model.
From Stdlib Require Import Floats.SpecFloat.

Local Open Scope Z_scope.

(** The value of a binary32 bit pattern. *)
Definition of_bits32 (b : Z) : spec_float :=
  let s := Z.testbit b 31 in
  let e := Z.land (Z.shiftr b 23) 255 in
  let m := Z.land b (2 ^ 23 - 1) in
  if e =? 0 then
    if m =? 0 then S754_zero s else S754_finite s (Z.to_pos m) (-149)
  else if e =? 255 then
    if m =? 0 then S754_infinity s else S754_nan
  else S754_finite s (Z.to_pos (m + 2 ^ 23)) (e - 150).

(** [float32(z)] and [float64(z)]. *)
Definition float32_of_int (z : Z) : spec_float := binary_normalize 24 128 z 0 false.
Definition float64_of_int (z : Z) : spec_float := binary_normalize 53 1024 z 0 false.

Definition mul32 : spec_float -> spec_float -> spec_float := SFmul 24 128.
Definition mul64 : spec_float -> spec_float -> spec_float := SFmul 53 1024.
Definition div64 : spec_float -> spec_float -> spec_float := SFdiv 53 1024.

(** The integer part, towards zero. *)
Definition truncate (x : spec_float) : option Z :=
  match x with
  | S754_zero _ => Some 0
  | S754_finite s m e =>
      let a := if 0 <=? e then Zpos m * 2 ^ e else Z.div (Zpos m) (2 ^ (- e)) in
      Some (if s then - a else a)
  | _ => None
  end.

(** [int64(x)]. *)
Definition int64_of_float (x : spec_float) : Z :=
  match truncate x with
  | Some z => if in_intb z then z else int_min
  | None => int_min
  end.

Lemma int64_of_float_in_int x : in_int (int64_of_float x).
Proof.
  unfold int64_of_float. destruct (truncate x) as [z|].
  - destruct (in_intb z) eqn:E; [by apply in_intb_spec|].
    unfold in_int, int_min, int_max. lia.
  - unfold in_int, int_min, int_max. lia.
Qed.

(** The values used in examples: 200.5, 0.5 and 1.0. *)
Example of_bits32_ex : int64_of_float (mul32 (of_bits32 1128824832) (float32_of_int 1000)) = 200500.
Proof. vm_compute. reflexivity. Qed.
