(* ===== verification/PlayTracker.v ===== *)
(** * The play tracker

    [core/scrobbler/play_tracker.go] with its two queues
    ([nowplaying_worker.go], [playbackreport_worker.go]).  Clients report what
    they play; the tracker keeps one session per client in an expiring cache,
    counts plays, and forwards plays, "now playing" notices and playback reports
    to the active scrobblers.

    The session cache, the database and the scrobblers are interfaces in the
    code and classes here.  A report runs to completion: the only blocks the
    code runs under [sessionsMu] are [commit_starting], [commit_playing] and
    [commit_stopped], and concurrent reports meet only there. *)

From stdpp Require Import sorting.
From Stdlib Require Import Floats.SpecFloat.
From S2P Require Import Prelude GoStrings Model GoFloat.

Local Open Scope Z_scope.

Definition StateStarting : string := "starting".
Definition StatePlaying : string := "playing".
Definition StatePaused : string := "paused".
Definition StateStopped : string := "stopped".
Definition StateExpired : string := "expired".

Definition ValidStates (s : string) : bool :=
  existsb (String.eqb s) [StateStarting; StatePlaying; StatePaused; StateStopped].

Definition UnknownArtist : string := "[Unknown Artist]".

Record PlaybackSession := mkSession {
  ps_MediaFile : MediaFile;
  ps_Start : time;
  ps_UserId : string;
  ps_Username : string;
  ps_PlayerId : string;
  ps_PlayerName : string;
  ps_State : string;
  ps_PositionMs : Z;
  ps_PlaybackRate : spec_float;
  ps_LastReport : time;
  ps_filtered : bool
}.

Record Submission := mkSubmission { sub_TrackID : string; sub_Timestamp : time }.

Record ReportPlaybackParams := mkReport {
  rp_MediaId : string;
  rp_PositionMs : Z;
  rp_State : string;
  rp_PlaybackRate : spec_float;
  rp_IgnoreScrobble : bool;
  rp_ClientId : string;
  rp_ClientName : string
}.

(** The columns of [model.User] the tracker reads. *)
Record User := mkUser {
  u_ID : string; u_UserName : string; u_IsAdmin : bool; u_Libraries : list Z;
  u_ScrobbleFilter : string }.

Definition HasLibraryAccess (u : User) (libraryID : Z) : bool :=
  if u_IsAdmin u then true else existsb (Z.eqb libraryID) (u_Libraries u).

(** What the request's context carries. *)
Record RequestContext := mkContext { ctx_User : User; ctx_Player : Player }.

(** [cache.SimpleCache[string, PlaybackSession]] at one instant: [Get] and
    [Values] do not return expired items. *)
Class SimpleCache (C : Type) := {
  Get : string -> C -> option PlaybackSession;
  AddWithTTL : string -> PlaybackSession -> Z -> C -> C;
  CacheRemove : string -> C -> C;
  Values : C -> list PlaybackSession;
  CacheLen : C -> Z
}.

(** What the tracker relies on: an item just stored with a positive time to live
    is found, a removed one is not, and other keys are untouched. *)
Class SimpleCacheLaws (C : Type) `{SimpleCache C} := {
  Get_Add_eq k s ttl c : 0 < ttl -> Get k (AddWithTTL k s ttl c) = Some s;
  Get_Add_ne k k' s ttl c : k <> k' -> Get k' (AddWithTTL k s ttl c) = Get k' c;
  Get_Remove_eq k c : Get k (CacheRemove k c) = None;
  Get_Remove_ne k k' c : k <> k' -> Get k' (CacheRemove k c) = Get k' c;
  Get_Values k s c : Get k c = Some s -> s ∈ Values c
}.

(** The repositories of [model.DataStore] the tracker uses; a criteria filter is
    parsed and evaluated behind it. *)
Class DataStore (D : Type) := {
  Criteria : Type;
  GetWithParticipants : string -> D -> result string MediaFile;
  ParseCriteria : string -> option Criteria;
  MatchesCriteria : string -> Criteria -> D -> result string bool;
  IncMediaFile : string -> time -> D -> result string D;
  IncAlbum : string -> time -> D -> result string D;
  IncArtist : string -> time -> D -> result string D;
  RecordScrobble : string -> time -> D -> result string D;
  EnqueueScrobble : string -> string -> string -> time -> D -> result string D
}.

(** A scrobbler as the tracker sees it: a buffered one, which queues a scrobble
    for its service in the database and asks the service for authorization. *)
Record Scrobbler := mkScrobbler { sc_service : string; sc_IsAuthorized : string -> bool }.

Record Config := mkConfig { EnableNowPlaying : bool; EnableScrobbleHistory : bool }.

Record nowPlayingEntry := mkNP { np_userId : string; np_track : MediaFile; np_position : Z }.
Record playbackReportEntry := mkPR { pr_info : PlaybackSession; pr_filtered : bool }.

(** Messages sent to browsers through the event broker. *)
Inductive message :=
| NowPlayingCount (count : Z)
| RefreshResource (songs albums artists : list string).

Section tracker.
Context {C D : Type} `{SimpleCache C} `{DataStore D}.
Context (cfg : Config).

Record playTracker := mkTracker {
  pt_ds : D;
  pt_playMap : C;
  pt_builtin : gmap string Scrobbler;
  pt_plugin : gmap string Scrobbler;
  pt_stopped : list string;
  pt_npQueue : gmap string nowPlayingEntry;
  pt_npSignal : bool;
  pt_prQueue : list playbackReportEntry;
  pt_prSignal : bool;
  pt_messages : list message
}.

Definition set_ds (d : D) (p : playTracker) : playTracker :=
  mkTracker d (pt_playMap p) (pt_builtin p) (pt_plugin p) (pt_stopped p) (pt_npQueue p)
    (pt_npSignal p) (pt_prQueue p) (pt_prSignal p) (pt_messages p).
Definition set_playMap (c : C) (p : playTracker) : playTracker :=
  mkTracker (pt_ds p) c (pt_builtin p) (pt_plugin p) (pt_stopped p) (pt_npQueue p)
    (pt_npSignal p) (pt_prQueue p) (pt_prSignal p) (pt_messages p).
Definition set_plugin (m : gmap string Scrobbler) (stopped : list string) (p : playTracker) : playTracker :=
  mkTracker (pt_ds p) (pt_playMap p) (pt_builtin p) m stopped (pt_npQueue p)
    (pt_npSignal p) (pt_prQueue p) (pt_prSignal p) (pt_messages p).
Definition set_npQueue (q : gmap string nowPlayingEntry) (signal : bool) (p : playTracker) : playTracker :=
  mkTracker (pt_ds p) (pt_playMap p) (pt_builtin p) (pt_plugin p) (pt_stopped p) q
    signal (pt_prQueue p) (pt_prSignal p) (pt_messages p).
Definition set_prQueue (q : list playbackReportEntry) (signal : bool) (p : playTracker) : playTracker :=
  mkTracker (pt_ds p) (pt_playMap p) (pt_builtin p) (pt_plugin p) (pt_stopped p) (pt_npQueue p)
    (pt_npSignal p) q signal (pt_messages p).
Definition send (m : message) (p : playTracker) : playTracker :=
  mkTracker (pt_ds p) (pt_playMap p) (pt_builtin p) (pt_plugin p) (pt_stopped p) (pt_npQueue p)
    (pt_npSignal p) (pt_prQueue p) (pt_prSignal p) (pt_messages p ++ [m]).

(** ** The queues: an entry, and a signal that is already there or not *)

Definition enqueueNowPlaying (playerId userId : string) (track : MediaFile) (position : Z)
  (p : playTracker) : playTracker :=
  set_npQueue (<[playerId := mkNP userId track position]> (pt_npQueue p)) true p.

Definition enqueuePlaybackReport (info : PlaybackSession) (filtered : bool) (p : playTracker)
  : playTracker :=
  set_prQueue (pt_prQueue p ++ [mkPR info filtered]) true p.

(** ** Scrobblers *)

Definition pluginNamesMatchScrobblers (pluginNames : list string) (scrobblers : gmap string Scrobbler)
  : bool :=
  (length pluginNames =? size scrobblers)%nat &&
  forallb (fun name => bool_decide (is_Some (scrobblers !! name))) pluginNames.

(** The loop that adds the plugins not yet known, through their loader. *)
Definition addPlugins (load : string -> Scrobbler) (pluginNames : list string)
  (scrobblers : gmap string Scrobbler) : gmap string Scrobbler :=
  foldl (fun m name => match m !! name with
                       | Some _ => m
                       | None => <[name := load name]> m
                       end) scrobblers pluginNames.

(** [None] is the nil loader.  Removed scrobblers are stopped. *)
Definition refreshPluginScrobblers (loader : option (list string * (string -> Scrobbler)))
  (p : playTracker) : playTracker :=
  match loader with
  | None => p
  | Some (pluginNames, load) =>
      if pluginNamesMatchScrobblers pluginNames (pt_plugin p) then p
      else
        let m := addPlugins load pluginNames (pt_plugin p) in
        let gone := filter (fun kv : string * Scrobbler => kv.1 ∉ pluginNames) m in
        set_plugin (filter (fun kv : string * Scrobbler => kv.1 ∈ pluginNames) m)
          (pt_stopped p ++ (map_to_list gone).*1) p
  end.

Context (loader : option (list string * (string -> Scrobbler))).

(** The refreshed tracker and the combined map; a plugin hides a builtin. *)
Definition getActiveScrobblers (p : playTracker) : playTracker * gmap string Scrobbler :=
  let p := refreshPluginScrobblers loader p in (p, pt_plugin p ∪ pt_builtin p).

(** ** Sessions *)

Definition hasPlayingSession (clientId mediaId : string) (c : C) : bool :=
  match Get clientId c with
  | Some cur => String.eqb (mf_ID (ps_MediaFile cur)) mediaId && String.eqb (ps_State cur) StatePlaying
  | None => false
  end.

(** [int64(mf.Duration * 1000)]. *)
Definition durationMs (mf : MediaFile) : Z :=
  int64_of_float (mul32 (of_bits32 (mf_Duration mf)) (float32_of_int 1000)).

(** In nanoseconds.  The products and sums wrap around at 64 bits. *)
Definition remainingTTL (mf : MediaFile) (positionMs : Z) (rate : spec_float) : Z :=
  let rate := if SFleb rate (S754_zero false) then float64_of_int 1 else rate in
  let remainingMs := div64 (float64_of_int (wrap64 (durationMs mf - positionMs))) rate in
  let remainingSec := Z.max (int64_of_float (div64 remainingMs (float64_of_int 1000))) 0 in
  wrap64 (wrap64 (remainingSec + 5) * second).

(** The user's scrobble filter; any failure lets the track through. *)
Definition isFilteredOut (u : User) (t : MediaFile) (d : D) : bool :=
  if String.eqb (u_ScrobbleFilter u) "" then false
  else match ParseCriteria (u_ScrobbleFilter u) with
       | None => false
       | Some c => match MatchesCriteria (mf_ID t) c d with Ok b => b | Err _ => false end
       end.

(** ** Play counts and scrobbles *)

Fixpoint incArtists (ids : list string) (timestamp : time) (d : D) : result string D :=
  match ids with
  | [] => Ok d
  | id :: ids => result_bind (IncArtist id timestamp d) (incArtists ids timestamp)
  end.

(** The body of the transaction. *)
Definition incPlay_tx (track : MediaFile) (timestamp : time) (d : D) : result string D :=
  result_bind (IncMediaFile (mf_ID track) timestamp d) (fun d =>
  result_bind (IncAlbum (mf_AlbumID track) timestamp d) (fun d =>
  result_bind (incArtists (mf_ArtistIDs track) timestamp d) (fun d =>
  if EnableScrobbleHistory cfg then RecordScrobble (mf_ID track) timestamp d else Ok d))).

(** [ds.WithTx]: nothing is kept of a transaction that fails. *)
Definition incPlay (track : MediaFile) (timestamp : time) (p : playTracker)
  : playTracker * option string :=
  match incPlay_tx track timestamp (pt_ds p) with
  | Ok d => (set_ds d p, None)
  | Err e => (p, Some e)
  end.

(** The loop over the active scrobblers: a failed one is skipped. *)
Fixpoint scrobbleAll (userId : string) (t : MediaFile) (playTime : time) (ss : list Scrobbler) (d : D) : D :=
  match ss with
  | [] => d
  | s :: ss =>
      if sc_IsAuthorized s userId then
        match EnqueueScrobble (sc_service s) userId (mf_ID t) playTime d with
        | Ok d => scrobbleAll userId t playTime ss d
        | Err _ => scrobbleAll userId t playTime ss d
        end
      else scrobbleAll userId t playTime ss d
  end.

Definition dispatchScrobble (u : User) (t : MediaFile) (playTime : time) (filtered : bool)
  (p : playTracker) : playTracker :=
  if String.eqb (mf_Artist t) UnknownArtist then p
  else if filtered then p
  else
    let '(p, allScrobblers) := getActiveScrobblers p in
    set_ds (scrobbleAll (u_ID u) t playTime (map_to_list allScrobblers).*2 (pt_ds p)) p.

(** ** Reports *)

(** The section of a "starting" report under the lock: [None] when the client
    already plays the track. *)
Definition commit_starting (clientId mediaId : string) (info : PlaybackSession) (ttl : Z) (c : C)
  : option C :=
  if hasPlayingSession clientId mediaId c then None
  else Some (AddWithTTL clientId info ttl c).

Definition commit_playing (clientId : string) (info : PlaybackSession) (ttl : Z) (c : C) : C :=
  AddWithTTL clientId info ttl c.

(** The section of a "stopped" report under the lock: the session it ended, or
    [None] when the client plays another track. *)
Definition commit_stopped (clientId mediaId : string) (c : C) : option (C * option PlaybackSession) :=
  match Get clientId c with
  | Some info => if negb (String.eqb (mf_ID (ps_MediaFile info)) mediaId) then None
                 else Some (CacheRemove clientId c, Some info)
  | None => Some (CacheRemove clientId c, None)
  end.

(** How the switch of [ReportPlayback] ends: an early return, with its error, or
    the code after the switch, with the filter's verdict. *)
Inductive outcome := Return (p : playTracker) (err : option string) | Continue (p : playTracker) (filtered : bool).

Definition reportStarting (ctx : RequestContext) (params : ReportPlaybackParams) (now : time)
  (p : playTracker) : outcome :=
  if hasPlayingSession (rp_ClientId params) (rp_MediaId params) (pt_playMap p) then Return p None
  else
    match GetWithParticipants (rp_MediaId params) (pt_ds p) with
    | Err e => Return p (Some e)
    | Ok mf =>
        let filtered := isFilteredOut (ctx_User ctx) mf (pt_ds p) in
        let info := mkSession mf now (u_ID (ctx_User ctx)) (u_UserName (ctx_User ctx))
          (rp_ClientId params) (rp_ClientName params) (rp_State params) (rp_PositionMs params)
          (rp_PlaybackRate params) now filtered in
        match commit_starting (rp_ClientId params) (rp_MediaId params) info
                (remainingTTL mf (rp_PositionMs params) (rp_PlaybackRate params)) (pt_playMap p) with
        | None => Return p None
        | Some c => Continue (enqueuePlaybackReport info filtered (set_playMap c p)) filtered
        end
    end.

(** The session a "playing" or "paused" report continues, or a new one. *)
Definition currentSession (ctx : RequestContext) (params : ReportPlaybackParams) (now : time)
  (p : playTracker) : result string PlaybackSession :=
  let fresh :=
    result_bind (GetWithParticipants (rp_MediaId params) (pt_ds p)) (fun mf =>
      Ok (mkSession mf (now + wrap64 (wrap64 (- rp_PositionMs params) * 1000000)) (u_ID (ctx_User ctx))
        (u_UserName (ctx_User ctx)) (rp_ClientId params) (rp_ClientName params) "" 0
        (S754_zero false) zero_time false)) in
  match Get (rp_ClientId params) (pt_playMap p) with
  | None => fresh
  | Some info => if negb (String.eqb (mf_ID (ps_MediaFile info)) (rp_MediaId params)) then fresh
                 else Ok info
  end.

Definition reportPlaying (ctx : RequestContext) (params : ReportPlaybackParams) (now : time)
  (p : playTracker) : outcome :=
  match currentSession ctx params now p with
  | Err e => Return p (Some e)
  | Ok info =>
      let filtered := isFilteredOut (ctx_User ctx) (ps_MediaFile info) (pt_ds p) in
      let info := mkSession (ps_MediaFile info) (ps_Start info) (ps_UserId info) (ps_Username info)
        (ps_PlayerId info) (ps_PlayerName info) (rp_State params) (rp_PositionMs params)
        (rp_PlaybackRate params) now filtered in
      let ttl := if String.eqb (rp_State params) StatePlaying
                 then remainingTTL (ps_MediaFile info) (rp_PositionMs params) (rp_PlaybackRate params)
                 else 30 * 60 * second in
      let c := commit_playing (rp_ClientId params) info ttl (pt_playMap p) in
      Continue (enqueuePlaybackReport info filtered (set_playMap c p)) filtered
  end.

(** Half the track, but at most four minutes. *)
Definition scrobbleThreshold (mf : MediaFile) : Z :=
  Z.min (Z.quot (wrap64 (durationMs mf * 50)) 100) 240000.

(** The submission of a stopped track: the loaded file and the verdict, if the
    player scrobbles at all. *)
Definition submitStopped (ctx : RequestContext) (params : ReportPlaybackParams) (now : time)
  (p : playTracker) : result string (playTracker * option (MediaFile * bool)) :=
  if negb (rp_IgnoreScrobble params) && pl_ScrobbleEnabled (ctx_Player ctx) then
    match GetWithParticipants (rp_MediaId params) (pt_ds p) with
    | Err e => Err e
    | Ok mf =>
        let filtered := isFilteredOut (ctx_User ctx) mf (pt_ds p) in
        let p := if scrobbleThreshold mf <=? rp_PositionMs params
                 then dispatchScrobble (ctx_User ctx) mf now filtered (incPlay mf now p).1
                 else p in
        Ok (p, Some (mf, filtered))
    end
  else Ok (p, None).

(** The file and the start of the session that a stopped report describes. *)
Definition stoppedFile (params : ReportPlaybackParams) (session : option PlaybackSession)
  (loaded : option (MediaFile * bool)) (d : D) : result string (MediaFile * time) :=
  match session with
  | Some info => Ok (ps_MediaFile info, ps_Start info)
  | None =>
      match loaded with
      | Some (mf, _) => Ok (mf, zero_time)
      | None => result_bind (GetWithParticipants (rp_MediaId params) d) (fun mf => Ok (mf, zero_time))
      end
  end.

Definition reportStopped (ctx : RequestContext) (params : ReportPlaybackParams) (now : time)
  (p : playTracker) : outcome :=
  match submitStopped ctx params now p with
  | Err e => Return p (Some e)
  | Ok (p, loaded) =>
      match commit_stopped (rp_ClientId params) (rp_MediaId params) (pt_playMap p) with
      | None => Return p None
      | Some (c, session) =>
          let p := set_playMap c p in
          match stoppedFile params session loaded (pt_ds p) with
          | Err e => Return p (Some e)
          | Ok (mf, start) =>
              let info := mkSession mf start (u_ID (ctx_User ctx)) (u_UserName (ctx_User ctx))
                (rp_ClientId params) (rp_ClientName params) (rp_State params) (rp_PositionMs params)
                (rp_PlaybackRate params) now false in
              let filtered := match loaded with
                              | Some (_, v) => v
                              | None => isFilteredOut (ctx_User ctx) mf (pt_ds p)
                              end in
              Continue (enqueuePlaybackReport info filtered p) filtered
          end
      end
  end.

(** After the switch: the browsers' counter, then the "now playing" notice. *)
Definition afterReport (ctx : RequestContext) (params : ReportPlaybackParams) (filtered : bool)
  (p : playTracker) : playTracker :=
  let p := if EnableNowPlaying cfg then send (NowPlayingCount (CacheLen (pt_playMap p))) p else p in
  if pl_ScrobbleEnabled (ctx_Player ctx) &&
     (String.eqb (rp_State params) StateStarting || String.eqb (rp_State params) StatePlaying)
  then
    if filtered then p
    else match Get (rp_ClientId params) (pt_playMap p) with
         | Some info => enqueueNowPlaying (rp_ClientId params) (u_ID (ctx_User ctx))
                          (ps_MediaFile info) (Z.quot (rp_PositionMs params) 1000) p
         | None => p
         end
  else p.

Definition reportSwitch (ctx : RequestContext) (params : ReportPlaybackParams) (now : time)
  (p : playTracker) : outcome :=
  if String.eqb (rp_State params) StateStarting then reportStarting ctx params now p
  else if String.eqb (rp_State params) StatePlaying || String.eqb (rp_State params) StatePaused
  then reportPlaying ctx params now p
  else if String.eqb (rp_State params) StateStopped then reportStopped ctx params now p
  else Continue p false.

Definition ReportPlayback (ctx : RequestContext) (params : ReportPlaybackParams) (now : time)
  (p : playTracker) : playTracker * option string :=
  match reportSwitch ctx params now p with
  | Return p err => (p, err)
  | Continue p filtered => (afterReport ctx params filtered p, None)
  end.

(** The cache's expiration callback, for a session it has dropped. *)
Definition onExpiration (info : PlaybackSession) (now : time) (p : playTracker) : playTracker :=
  let p := if EnableNowPlaying cfg then send (NowPlayingCount (CacheLen (pt_playMap p))) p else p in
  if negb (String.eqb (ps_State info) StateStopped) then
    enqueuePlaybackReport
      (mkSession (ps_MediaFile info) (ps_Start info) (ps_UserId info) (ps_Username info)
         (ps_PlayerId info) (ps_PlayerName info) StateExpired (ps_PositionMs info)
         (ps_PlaybackRate info) now (ps_filtered info)) (ps_filtered info) p
  else p.

(** ** Now playing *)

Definition later_start (a b : PlaybackSession) : Prop := ps_Start b <= ps_Start a.
#[global] Instance later_start_dec a b : Decision (later_start a b).
Proof. unfold later_start. apply _. Defined.

(** The position of a playing session moves on since the last report. *)
Definition estimate (now : time) (s : PlaybackSession) : PlaybackSession :=
  if String.eqb (ps_State s) StatePlaying then
    let elapsed := Z.quot (now - ps_LastReport s) 1000000 in
    let estimated := wrap64 (ps_PositionMs s
                       + int64_of_float (mul64 (float64_of_int elapsed) (ps_PlaybackRate s))) in
    mkSession (ps_MediaFile s) (ps_Start s) (ps_UserId s) (ps_Username s) (ps_PlayerId s)
      (ps_PlayerName s) (ps_State s) (Z.min estimated (durationMs (ps_MediaFile s)))
      (ps_PlaybackRate s) (ps_LastReport s) (ps_filtered s)
  else s.

(** [None] is a context without a user, which sees every session. *)
Definition GetNowPlaying (user : option User) (now : time) (p : playTracker) : list PlaybackSession :=
  let res := Values (pt_playMap p) in
  let res := match user with
             | Some u => filter (fun s => HasLibraryAccess u (mf_LibraryID (ps_MediaFile s)) = true) res
             | None => res
             end in
  estimate now <$> merge_sort later_start res.

(** ** Submissions *)

(** One submission: the tracker and, when the play was counted, the file. *)
Definition submitOne (ctx : RequestContext) (s : Submission) (p : playTracker)
  : playTracker * option MediaFile :=
  match GetWithParticipants (sub_TrackID s) (pt_ds p) with
  | Err _ => (p, None)
  | Ok mf =>
      let filtered := isFilteredOut (ctx_User ctx) mf (pt_ds p) in
      match incPlay mf (sub_Timestamp s) p with
      | (p, Some _) => (p, None)
      | (p, None) =>
          (if pl_ScrobbleEnabled (ctx_Player ctx)
           then dispatchScrobble (ctx_User ctx) mf (sub_Timestamp s) filtered p else p, Some mf)
      end
  end.

Fixpoint submitAll (ctx : RequestContext) (subs : list Submission) (p : playTracker)
  : playTracker * list MediaFile :=
  match subs with
  | [] => (p, [])
  | s :: subs =>
      let '(p, r) := submitOne ctx s p in
      let '(p, rs) := submitAll ctx subs p in
      (p, match r with Some mf => mf :: rs | None => rs end)
  end.

Definition Submit (ctx : RequestContext) (subs : list Submission) (p : playTracker) : playTracker :=
  let '(p, scrobbled) := submitAll ctx subs p in
  match scrobbled with
  | [] => p
  | _ => send (RefreshResource (mf_ID <$> scrobbled) (mf_AlbumID <$> scrobbled)
                 (mf_AlbumArtistID <$> scrobbled)) p
  end.

(** ** The workers *)

(** A call to a scrobbler: its name and the session reported. *)
Definition dispatchPlaybackReport (all : gmap string Scrobbler) (e : playbackReportEntry)
  : list (string * PlaybackSession) :=
  if pr_filtered e then []
  else (fun kv : string * Scrobbler => (kv.1, pr_info e)) <$>
         List.filter (fun kv : string * Scrobbler => sc_IsAuthorized kv.2 (ps_UserId (pr_info e)))
           (map_to_list all).

(** One round of [playbackReportWorker], on a signal: the calls it makes. *)
Definition playbackReportRound (p : playTracker) : playTracker * list (string * PlaybackSession) :=
  match pt_prQueue p with
  | [] => (set_prQueue [] false p, [])
  | entries =>
      let p := set_prQueue [] false p in
      let '(p, all) := getActiveScrobblers p in
      (p, entries ≫= dispatchPlaybackReport all)
  end.

Definition dispatchNowPlaying (e : nowPlayingEntry) (p : playTracker)
  : playTracker * list (string * nowPlayingEntry) :=
  if String.eqb (mf_Artist (np_track e)) UnknownArtist then (p, [])
  else
    let '(p, all) := getActiveScrobblers p in
    (p, (fun kv : string * Scrobbler => (kv.1, e)) <$>
          List.filter (fun kv : string * Scrobbler => sc_IsAuthorized kv.2 (np_userId e))
            (map_to_list all)).

Fixpoint dispatchAllNowPlaying (es : list nowPlayingEntry) (p : playTracker)
  : playTracker * list (string * nowPlayingEntry) :=
  match es with
  | [] => (p, [])
  | e :: es =>
      let '(p, calls) := dispatchNowPlaying e p in
      let '(p, rest) := dispatchAllNowPlaying es p in (p, calls ++ rest)
  end.

(** One round of [nowPlayingWorker]: a signal wakes it and is consumed, or the
    one-second timer does and a pending signal stays. *)
Definition nowPlayingRound (signalled : bool) (p : playTracker)
  : playTracker * list (string * nowPlayingEntry) :=
  let signal := if signalled then false else pt_npSignal p in
  match (map_to_list (pt_npQueue p)).*2 with
  | [] => (set_npQueue (pt_npQueue p) signal p, [])
  | entries => dispatchAllNowPlaying entries (set_npQueue ∅ signal p)
  end.
End tracker.
Arguments playTracker : clear implicits.
