(* ===== verification/PlayTrackerFacts.v ===== *)
(** * Correctness of the play tracker

    Sessions are never downgraded by late reports; a play is counted and
    scrobbled exactly when it should be; queued reports reach the scrobblers
    in order; the active plugin scrobblers follow the loaded plugins.  Proved
    for any session cache and database that satisfy their interfaces. *)

From stdpp Require Import sorting.
From Stdlib Require Import Floats.SpecFloat.
From S2P Require Import Prelude GoStrings Model GoFloat PlayTracker.

Local Open Scope Z_scope.

#[local] Opaque scrobbleThreshold remainingTTL durationMs.

Section facts.
Context {C D : Type} `{SimpleCacheLaws C} `{DataStore D}.
Context (cfg : Config) (loader : option (list string * (string -> Scrobbler))).
Implicit Types p : playTracker C D.

(** ** What the helpers leave alone *)

Lemma afterReport_ds ctx params f p : pt_ds (afterReport cfg ctx params f p) = pt_ds p.
Proof. unfold afterReport. repeat case_match; done. Qed.
Lemma afterReport_playMap ctx params f p :
  pt_playMap (afterReport cfg ctx params f p) = pt_playMap p.
Proof. unfold afterReport. repeat case_match; done. Qed.
Lemma afterReport_prQueue ctx params f p :
  pt_prQueue (afterReport cfg ctx params f p) = pt_prQueue p /\
  pt_prSignal (afterReport cfg ctx params f p) = pt_prSignal p.
Proof. unfold afterReport. repeat case_match; done. Qed.

Lemma refresh_frame p :
  pt_ds (refreshPluginScrobblers loader p) = pt_ds p /\
  pt_playMap (refreshPluginScrobblers loader p) = pt_playMap p /\
  pt_npQueue (refreshPluginScrobblers loader p) = pt_npQueue p /\
  pt_prQueue (refreshPluginScrobblers loader p) = pt_prQueue p /\
  pt_prSignal (refreshPluginScrobblers loader p) = pt_prSignal p /\
  pt_npSignal (refreshPluginScrobblers loader p) = pt_npSignal p.
Proof. unfold refreshPluginScrobblers. repeat case_match; done. Qed.

Lemma dispatchScrobble_frame u t time f p :
  let p' := dispatchScrobble loader u t time f p in
  pt_playMap p' = pt_playMap p /\ pt_npQueue p' = pt_npQueue p /\
  pt_prQueue p' = pt_prQueue p /\ pt_prSignal p' = pt_prSignal p.
Proof.
  unfold dispatchScrobble, getActiveScrobblers. simpl.
  destruct (refresh_frame p) as (_ & Hm & Hn & Hq & Hs & _).
  repeat case_match; simpl; auto.
Qed.

Lemma incPlay_frame t time p :
  let p' := (incPlay cfg t time p).1 in
  pt_playMap p' = pt_playMap p /\ pt_npQueue p' = pt_npQueue p /\
  pt_prQueue p' = pt_prQueue p /\ pt_prSignal p' = pt_prSignal p.
Proof. unfold incPlay. case_match; done. Qed.

Lemma submitStopped_frame ctx params now p p' l :
  submitStopped cfg loader ctx params now p = Ok (p', l) ->
  pt_playMap p' = pt_playMap p /\ pt_npQueue p' = pt_npQueue p /\
  pt_prQueue p' = pt_prQueue p /\ pt_prSignal p' = pt_prSignal p.
Proof.
  unfold submitStopped. case_cond; [|by intros [= <- <-]].
  destruct (GetWithParticipants _ _) as [mf|]; [|done]. intros [= <- <-].
  case_cond; [|done].
  destruct (dispatchScrobble_frame (ctx_User ctx) mf now
    (isFilteredOut (ctx_User ctx) mf (pt_ds p)) (incPlay cfg mf now p).1) as (-> & -> & -> & ->).
  apply incPlay_frame.
Qed.

Lemma report_ds ctx params now p :
  pt_ds (ReportPlayback cfg loader ctx params now p).1 =
  match reportSwitch cfg loader ctx params now p with Return q _ | Continue q _ => pt_ds q end.
Proof. unfold ReportPlayback. case_match; simpl; [done|apply afterReport_ds]. Qed.

(** ** Sessions *)

Lemma hasPlayingSession_spec k m (c : C) :
  hasPlayingSession k m c = true <->
  exists s, Get k c = Some s /\ mf_ID (ps_MediaFile s) = m /\ ps_State s = StatePlaying.
Proof.
  unfold hasPlayingSession. destruct (Get k c) as [s|]; [|split; [done|by intros (? & ? & _)]].
  bprop. split; [intros []; eauto|intros (s' & [= <-] & ?); auto].
Qed.

(** The client [k] is playing the file [mf]. *)
Definition playing (k : string) (mf : MediaFile) (c : C) : Prop :=
  exists s, Get k c = Some s /\ ps_MediaFile s = mf /\ ps_State s = StatePlaying.

(** A report by another client, or a "starting" or "playing" one for that file
    whose session does not expire at once. *)
Definition keeps_playing (k : string) (mf : MediaFile)
  (r : RequestContext * ReportPlaybackParams * time) : Prop :=
  let params := r.1.2 in
  rp_ClientId params <> k \/
  rp_MediaId params = mf_ID mf /\
  (rp_State params = StateStarting \/
   rp_State params = StatePlaying /\
   0 < remainingTTL mf (rp_PositionMs params) (rp_PlaybackRate params)).

(** A report never touches the session of another client. *)
Lemma report_other_client ctx params now p k :
  rp_ClientId params <> k ->
  Get k (pt_playMap (ReportPlayback cfg loader ctx params now p).1) = Get k (pt_playMap p).
Proof.
  intros Hk. unfold ReportPlayback, reportSwitch.
  assert (forall f q, Get k (pt_playMap (afterReport cfg ctx params f q)) = Get k (pt_playMap q))
    as Ha by (intros; by rewrite afterReport_playMap).
  case_cond; [|case_cond; [|case_cond; [|simpl; by rewrite Ha]]].
  - unfold reportStarting. case_cond; [done|]. destruct (GetWithParticipants _ _); [|done].
    unfold commit_starting. case_cond; [done|]. simpl. rewrite Ha. simpl.
    by rewrite Get_Add_ne.
  - unfold reportPlaying. destruct (currentSession _ _ _ _); [|done].
    simpl. rewrite Ha. simpl. unfold commit_playing. by rewrite Get_Add_ne.
  - unfold reportStopped. destruct (submitStopped _ _ _ _ _ _) as [[q l]|] eqn:E; [|done].
    apply submitStopped_frame in E as (Hm & _). unfold commit_stopped. rewrite <- Hm.
    destruct (Get (rp_ClientId params) (pt_playMap q)) as [s|]; [case_cond; [done|]|];
      (destruct (stoppedFile _ _ _ _) as [[]|]; simpl; rewrite ?Ha; simpl; by rewrite Get_Remove_ne).
Qed.

Lemma report_keeps_playing k mf ctx params now p :
  keeps_playing k mf (ctx, params, now) -> playing k mf (pt_playMap p) ->
  playing k mf (pt_playMap (ReportPlayback cfg loader ctx params now p).1).
Proof.
  intros Hkeep (s & Hget & Hid & Hps). destruct (decide (rp_ClientId params = k)) as [Hk|Hk].
  2: { exists s. by rewrite report_other_client. }
  destruct Hkeep as [|[Hm [Hst|[Hst Httl]]]]; [done| |]; simpl in *.
  - assert (hasPlayingSession (rp_ClientId params) (rp_MediaId params) (pt_playMap p) = true) as Hhas.
    { apply hasPlayingSession_spec. exists s. rewrite Hk, Hm, Hid. auto. }
    unfold ReportPlayback, reportSwitch, reportStarting. rewrite Hst. simpl. rewrite Hhas.
    by exists s.
  - unfold ReportPlayback, reportSwitch. rewrite Hst. simpl.
    unfold reportPlaying, currentSession. rewrite Hk, Hget, Hid, Hm, String.eqb_refl. simpl.
    rewrite Hst. simpl. rewrite afterReport_playMap. simpl. unfold commit_playing, playing.
    rewrite Hid, Get_Add_eq by apply Httl. eexists. split; [reflexivity|]. done.
Qed.

(** A "playing" report that is accepted leaves the client playing the file. *)
Lemma report_playing ctx params now p s :
  rp_State params = StatePlaying -> currentSession ctx params now p = Ok s ->
  0 < remainingTTL (ps_MediaFile s) (rp_PositionMs params) (rp_PlaybackRate params) ->
  playing (rp_ClientId params) (ps_MediaFile s)
    (pt_playMap (ReportPlayback cfg loader ctx params now p).1).
Proof.
  intros Hst Hcur Httl. unfold ReportPlayback, reportSwitch. rewrite Hst. simpl.
  unfold reportPlaying. rewrite Hcur. rewrite Hst. simpl. rewrite afterReport_playMap. simpl.
  unfold commit_playing, playing. rewrite Get_Add_eq by done. eexists. split; [reflexivity|]. done.
Qed.
End facts.


(** ** Stopping *)

(** A "stopped" report for a track other than the one the client plays does
    not end the session and is not forwarded to the playback reporters; one for
    the track it plays ends the session and queues exactly one report, carrying
    the file and the start of the session. *)
Theorem stopped_report {C D} `{SimpleCacheLaws C} `{DataStore D} cfg loader
  ctx params now s (p : playTracker C D) p' err :
  rp_State params = StateStopped ->
  Get (rp_ClientId params) (pt_playMap p) = Some s ->
  ReportPlayback cfg loader ctx params now p = (p', err) ->
  (mf_ID (ps_MediaFile s) <> rp_MediaId params ->
     Get (rp_ClientId params) (pt_playMap p') = Some s /\ pt_prQueue p' = pt_prQueue p /\
     pt_npQueue p' = pt_npQueue p) /\
  (mf_ID (ps_MediaFile s) = rp_MediaId params -> err = None ->
     Get (rp_ClientId params) (pt_playMap p') = None /\
     exists e, pt_prQueue p' = pt_prQueue p ++ [e] /\
       ps_State (pr_info e) = StateStopped /\ ps_MediaFile (pr_info e) = ps_MediaFile s /\
       ps_Start (pr_info e) = ps_Start s /\ ps_PositionMs (pr_info e) = rp_PositionMs params).
Proof.
  intros Hst Hget. unfold ReportPlayback, reportSwitch. rewrite Hst. simpl.
  unfold reportStopped. destruct (submitStopped _ _ _ _ _ _) as [[q l]|e] eqn:E.
  2: { intros [= <- <-]. split; [auto|]. done. }
  apply submitStopped_frame in E as (Hm & Hn & Hq & Hs).
  unfold commit_stopped. rewrite Hm, Hget.
  destruct (String.eqb_spec (mf_ID (ps_MediaFile s)) (rp_MediaId params)) as [Hid|Hid]; simpl.
  - intros [= <- <-]. split; [done|]. intros _ _. rewrite afterReport_playMap.
    destruct (afterReport_prQueue cfg ctx params
      match l with Some (_, v) => v | None => isFilteredOut (ctx_User ctx) (ps_MediaFile s) (pt_ds q) end
      (enqueuePlaybackReport (mkSession (ps_MediaFile s) (ps_Start s) (u_ID (ctx_User ctx))
        (u_UserName (ctx_User ctx)) (rp_ClientId params) (rp_ClientName params) (rp_State params)
        (rp_PositionMs params) (rp_PlaybackRate params) now false)
        match l with Some (_, v) => v | None => isFilteredOut (ctx_User ctx) (ps_MediaFile s) (pt_ds q) end
        (set_playMap (CacheRemove (rp_ClientId params) (pt_playMap p)) q))) as [Hpr _].
    split; [simpl; apply Get_Remove_eq|]. eexists. split; [etransitivity; [exact Hpr|]; simpl; by rewrite Hq|].
    simpl. by rewrite Hst.
  - intros [= <- <-]. split; [|done]. rewrite Hm. auto.
Qed.

(** ** Counting plays *)

#[local] Transparent scrobbleThreshold.
(** Half the track, or four minutes. *)
Lemma scrobbleThreshold_spec mf pos :
  0 <= durationMs mf <= 2 ^ 56 ->
  scrobbleThreshold mf <= pos <-> 240000 <= pos \/ durationMs mf <= 2 * pos + 1.
Proof.
  intros Hd. unfold scrobbleThreshold.
  rewrite wrap64_id by (unfold in_int, int_min, int_max; lia).
  rewrite Z.quot_div_nonneg by lia. pose proof (Z.div_mod (durationMs mf * 50) 100 ltac:(lia)).
  pose proof (Z.mod_pos_bound (durationMs mf * 50) 100 ltac:(lia)). lia.
Qed.
#[local] Opaque scrobbleThreshold.

(** The play a report submits: the stopped file, when the player scrobbles, the
    client does not opt out and enough of the track was played. *)
Definition submitted {D} `{DataStore D} (ctx : RequestContext) (params : ReportPlaybackParams) (d : D)
  : option MediaFile :=
  if String.eqb (rp_State params) StateStopped && negb (rp_IgnoreScrobble params) &&
     pl_ScrobbleEnabled (ctx_Player ctx)
  then match GetWithParticipants (rp_MediaId params) d with
       | Ok mf => if scrobbleThreshold mf <=? rp_PositionMs params then Some mf else None
       | Err _ => None
       end
  else None.

Lemma dispatchScrobble_ds {C D} `{SimpleCache C} `{DataStore D} loader u t time f (p : playTracker C D) :
  pt_ds (dispatchScrobble loader u t time f p) =
  if String.eqb (mf_Artist t) UnknownArtist || f then pt_ds p
  else scrobbleAll (u_ID u) t time (map_to_list (getActiveScrobblers loader p).2).*2 (pt_ds p).
Proof.
  unfold dispatchScrobble. destruct (String.eqb _ _); [done|]. destruct f; [done|]. simpl.
  destruct (refresh_frame loader p) as (Hds & _). by rewrite Hds.
Qed.

Lemma submitStopped_ds {C D} `{SimpleCache C} `{DataStore D} cfg loader ctx params now
  (p p' : playTracker C D) l :
  rp_State params = StateStopped ->
  submitStopped cfg loader ctx params now p = Ok (p', l) ->
  pt_ds p' = match submitted ctx params (pt_ds p) with
             | Some mf => pt_ds (dispatchScrobble loader (ctx_User ctx) mf now
                            (isFilteredOut (ctx_User ctx) mf (pt_ds p)) (incPlay cfg mf now p).1)
             | None => pt_ds p
             end.
Proof.
  intros Hst. unfold submitStopped, submitted. rewrite Hst, String.eqb_refl. cbn [andb].
  destruct (_ && _); [|by intros [= <- <-]].
  destruct (GetWithParticipants _ _) as [mf|]; [|done]. intros [= <- <-]. by case_cond.
Qed.

Lemma report_ds_spec {C D} `{SimpleCache C} `{DataStore D} cfg loader
  ctx params now (p : playTracker C D) :
  pt_ds (ReportPlayback cfg loader ctx params now p).1 =
  match submitted ctx params (pt_ds p) with
  | None => pt_ds p
  | Some mf =>
      let p1 := match incPlay_tx cfg mf now (pt_ds p) with Ok d => set_ds d p | Err _ => p end in
      if String.eqb (mf_Artist mf) UnknownArtist || isFilteredOut (ctx_User ctx) mf (pt_ds p)
      then pt_ds p1
      else scrobbleAll (u_ID (ctx_User ctx)) mf now
             (map_to_list (getActiveScrobblers loader p1).2).*2 (pt_ds p1)
  end.
Proof.
  assert (forall mf, (incPlay cfg mf now p).1 =
    match incPlay_tx cfg mf now (pt_ds p) with Ok d => set_ds d p | Err _ => p end) as Hinc.
  { intros mf. unfold incPlay. by case_match. }
  rewrite report_ds. unfold reportSwitch.
  destruct (String.eqb_spec (rp_State params) StateStopped) as [Hst|Hst].
  - rewrite Hst. simpl. unfold reportStopped.
    destruct (submitStopped _ _ _ _ _ _) as [[q l]|e] eqn:E.
    + apply (submitStopped_ds cfg loader ctx params now) in E; [|done].
      destruct (submitted ctx params (pt_ds p)) as [mf|].
      * rewrite dispatchScrobble_ds, Hinc in E. cbn zeta. etransitivity; [|exact E].
        destruct (commit_stopped _ _ _) as [[c s]|]; [|done].
        destruct (stoppedFile _ _ _ _) as [[]|]; done.
      * rewrite <- E. destruct (commit_stopped _ _ _) as [[c s]|]; [|done].
        destruct (stoppedFile _ _ _ _) as [[]|]; done.
    + unfold submitStopped, submitted in *. rewrite Hst, String.eqb_refl. cbn [andb].
      destruct (_ && _); [|done]. by destruct (GetWithParticipants _ _).
  - unfold submitted. destruct (String.eqb_spec (rp_State params) StateStopped); [done|]. simpl.
    case_cond; [|case_cond; [|done]].
    + unfold reportStarting. case_cond; [done|]. destruct (GetWithParticipants _ _); [|done].
      by destruct (commit_starting _ _ _ _ _).
    + unfold reportPlaying. by destruct (currentSession _ _ _ _).
Qed.

(** A report changes the database only by counting one play, and only for a
    stopped track that the client did not exclude, on a player that scrobbles,
    played for at least four minutes or (up to a millisecond) half its length:
    the play counts go up in one transaction, and unless the artist is unknown
    or the user's filter matches, one scrobble is queued for every active
    scrobbler the user has authorized. *)
Theorem report_counts_play {C D} `{SimpleCache C} `{DataStore D} cfg loader
  ctx params now (p : playTracker C D) :
  (forall mf, 0 <= durationMs mf <= 2 ^ 56 ->
     scrobbleThreshold mf <= rp_PositionMs params <->
     240000 <= rp_PositionMs params \/ durationMs mf <= 2 * rp_PositionMs params + 1) /\
  pt_ds (ReportPlayback cfg loader ctx params now p).1 =
  match submitted ctx params (pt_ds p) with
  | None => pt_ds p
  | Some mf =>
      let p1 := match incPlay_tx cfg mf now (pt_ds p) with Ok d => set_ds d p | Err _ => p end in
      if String.eqb (mf_Artist mf) UnknownArtist || isFilteredOut (ctx_User ctx) mf (pt_ds p)
      then pt_ds p1
      else scrobbleAll (u_ID (ctx_User ctx)) mf now
             (map_to_list (getActiveScrobblers loader p1).2).*2 (pt_ds p1)
  end.
Proof. split; [intros mf; apply scrobbleThreshold_spec|apply report_ds_spec]. Qed.

(** ** The scrobble filter *)

Section filtered.
Context {C D : Type} `{SimpleCache C} `{DataStore D}.
Context (cfg : Config) (loader : option (list string * (string -> Scrobbler))).
Context (ctx : RequestContext) (params : ReportPlaybackParams) (now : time).
Hypothesis Hload : forall id (d : D) mf, GetWithParticipants id d = Ok mf -> mf_ID mf = id.
Hypothesis Hfilter : forall mf (d : D),
  mf_ID mf = rp_MediaId params -> isFilteredOut (ctx_User ctx) mf d = true.
Implicit Types p q : playTracker C D.

(** Nothing new that a worker would send out. *)
Definition quiet p q : Prop :=
  pt_npQueue q = pt_npQueue p /\
  exists new, pt_prQueue q = pt_prQueue p ++ new /\ Forall (fun e => pr_filtered e = true) new.

Lemma quiet_same p q : pt_npQueue q = pt_npQueue p -> pt_prQueue q = pt_prQueue p -> quiet p q.
Proof. intros Hn Hq. split; [done|]. exists []. by rewrite app_nil_r. Qed.

Lemma quiet_enqueue p q info :
  pt_npQueue q = pt_npQueue p -> pt_prQueue q = pt_prQueue p ->
  quiet p (enqueuePlaybackReport info true q).
Proof. intros Hn Hq. split; [done|]. exists [mkPR info true]. simpl. rewrite Hq. auto. Qed.

Lemma quiet_after p q : quiet p q -> quiet p (afterReport cfg ctx params true q).
Proof.
  intros (Hn & new & Hq & Hnew). destruct (afterReport_prQueue cfg ctx params true q) as [Hpr _].
  split; [|exists new; by rewrite Hpr]. rewrite <- Hn. unfold afterReport. repeat case_match; done.
Qed.

Definition quiet_outcome p (o : outcome) : Prop :=
  match o with Return q _ => quiet p q | Continue q f => quiet p q /\ f = true end.

Lemma starting_quiet p : quiet_outcome p (reportStarting ctx params now p).
Proof.
  unfold reportStarting. case_cond; [by apply quiet_same|].
  destruct (GetWithParticipants _ _) as [mf|] eqn:Eg; [|by apply quiet_same].
  rewrite Hfilter by eauto. destruct (commit_starting _ _ _ _ _); [|by apply quiet_same].
  split; [|done]. by apply quiet_enqueue.
Qed.

Lemma currentSession_id p s :
  currentSession ctx params now p = Ok s -> mf_ID (ps_MediaFile s) = rp_MediaId params.
Proof.
  unfold currentSession. pose proof (Hload (rp_MediaId params) (pt_ds p)) as Hl.
  destruct (GetWithParticipants (rp_MediaId params) (pt_ds p)) as [m|]; simpl;
    (destruct (Get _ _) as [s0|];
     [destruct (String.eqb_spec (mf_ID (ps_MediaFile s0)) (rp_MediaId params))|]; simpl;
     intros [= <-]; simpl; auto).
Qed.

Lemma playing_quiet p : quiet_outcome p (reportPlaying ctx params now p).
Proof.
  unfold reportPlaying. destruct (currentSession ctx params now p) as [s|] eqn:Ec;
    [|by apply quiet_same].
  rewrite Hfilter by (by eapply currentSession_id). split; [|done]. by apply quiet_enqueue.
Qed.

Lemma submitStopped_verdict p q l :
  submitStopped cfg loader ctx params now p = Ok (q, l) ->
  match l with Some (mf, v) => mf_ID mf = rp_MediaId params /\ v = true | None => True end.
Proof.
  unfold submitStopped. case_cond; [|by intros [= <- <-]].
  destruct (GetWithParticipants _ _) as [mf|] eqn:Eg; [|done]. intros [= <- <-]. eauto.
Qed.

Lemma stopped_quiet p : quiet_outcome p (reportStopped cfg loader ctx params now p).
Proof.
  unfold reportStopped. destruct (submitStopped _ _ _ _ _ _) as [[q l]|] eqn:E; [|by apply quiet_same].
  pose proof (submitStopped_verdict _ _ _ E) as Hl.
  apply submitStopped_frame in E as (_ & Hn & Hq & _).
  destruct (commit_stopped _ _ _) as [[c s]|] eqn:Ec; [|by apply quiet_same].
  destruct (stoppedFile params s l (pt_ds (set_playMap c q))) as [[mf st]|] eqn:Es; [|by apply quiet_same].
  assert (match l with Some (_, v) => v | None => isFilteredOut (ctx_User ctx) mf (pt_ds q) end = true)
    as Hv.
  { destruct l as [[m v]|]; [by destruct Hl|]. apply Hfilter. revert Ec Es.
    unfold commit_stopped, stoppedFile. destruct (Get _ _) as [s0|].
    - destruct (String.eqb_spec (mf_ID (ps_MediaFile s0)) (rp_MediaId params)); [|done].
      by intros [= <- <-] [= <- <-].
    - intros [= <- <-]. destruct (GetWithParticipants _ _) as [m|] eqn:Eg; [|done].
      intros [= <- <-]. by apply Hload in Eg. }
  cbn [set_playMap pt_ds]. rewrite Hv. split; [|done]. by apply quiet_enqueue.
Qed.

Lemma report_quiet p : quiet p (ReportPlayback cfg loader ctx params now p).1.
Proof.
  unfold ReportPlayback, reportSwitch.
  assert (forall o, quiet_outcome p o -> quiet p
    (match o with Return q e => (q, e) | Continue q f => (afterReport cfg ctx params f q, @None string) end).1)
    as Ho.
  { intros [q e|q f]; simpl; [done|]. intros [Hq ->]. by apply quiet_after. }
  case_cond; [apply Ho, starting_quiet|]. case_cond; [apply Ho, playing_quiet|].
  case_cond; [apply Ho, stopped_quiet|]. bprop. simpl.
  unfold afterReport. apply quiet_same; repeat case_match; bprop; try done; naive_solver.
Qed.
End filtered.

(** A track the user's scrobble filter matches never leaves the server: a
    report for it queues no "now playing" notice, every playback report it
    queues is one the worker sends to no scrobbler, and the database changes at
    most by the play-count transaction, never by a queued scrobble. *)
Theorem filtered_report {C D} `{SimpleCache C} `{DataStore D} cfg loader ctx params now
  (p : playTracker C D) :
  (forall id (d : D) mf, GetWithParticipants id d = Ok mf -> mf_ID mf = id) ->
  (forall mf (d : D), mf_ID mf = rp_MediaId params -> isFilteredOut (ctx_User ctx) mf d = true) ->
  let p' := (ReportPlayback cfg loader ctx params now p).1 in
  pt_npQueue p' = pt_npQueue p /\
  (exists new, pt_prQueue p' = pt_prQueue p ++ new /\
     forall all, (new ≫= dispatchPlaybackReport all) = []) /\
  (pt_ds p' = pt_ds p \/ exists mf, incPlay_tx cfg mf now (pt_ds p) = Ok (pt_ds p')).
Proof.
  intros Hload Hf p'. destruct (report_quiet cfg loader ctx params now Hload Hf p) as (Hn & new & Hq & Hnew).
  split; [done|]. split.
  { exists new. split; [done|]. intros all. clear Hq.
    induction Hnew as [|e new He _ IH]; [done|]. rewrite bind_cons, IH.
    unfold dispatchPlaybackReport. by rewrite He. }
  unfold p'. rewrite report_ds_spec. unfold submitted.
  destruct (_ && _); [|by left]. destruct (GetWithParticipants _ _) as [mf|] eqn:Eg; [|by left].
  case_cond; [|by left]. rewrite Hf by eauto. rewrite orb_true_r. cbn zeta.
  destruct (incPlay_tx cfg mf now (pt_ds p)) as [d|] eqn:Ei; [|by left]. right. by exists mf.
Qed.

(** ** Plugins *)

Lemma addPlugins_lookup load names m k :
  addPlugins load names m !! k =
  match m !! k with
  | Some s => Some s
  | None => if decide (k ∈ names) then Some (load k) else None
  end.
Proof.
  unfold addPlugins. revert m. induction names as [|n names IH]; intros m; cbn [foldl].
  { destruct (m !! k); [done|]. rewrite decide_False; [done|]. apply not_elem_of_nil. }
  rewrite IH. destruct (m !! n) as [s|] eqn:En.
  - destruct (m !! k) eqn:Ek; [done|]. assert (k <> n) by congruence.
    apply decide_ext. rewrite elem_of_cons. naive_solver.
  - destruct (decide (k = n)) as [->|Hne].
    + rewrite lookup_insert_eq, En, decide_True; [done|]. by left.
    + rewrite lookup_insert_ne by done. destruct (m !! k); [done|].
      apply decide_ext. rewrite elem_of_cons. naive_solver.
Qed.

Lemma pluginNamesMatch_spec names (m : gmap string Scrobbler) :
  NoDup names -> pluginNamesMatchScrobblers names m = true ->
  forall k, k ∈ names <-> is_Some (m !! k).
Proof.
  unfold pluginNamesMatchScrobblers. intros Hnd Hm. bprop. destruct Hm as [Hlen Hall].
  assert (list_to_set names ⊆ dom m) as Hsub.
  { intros k Hk. apply elem_of_list_to_set in Hk. apply elem_of_dom.
    rewrite forallb_forall in Hall. specialize (Hall k ltac:(by apply list_elem_of_In)).
    by apply bool_decide_eq_true in Hall. }
  assert (size (dom m) <= size (list_to_set (C := gset string) names))%nat as Hsz.
  { rewrite size_dom, size_list_to_set by done. lia. }
  pose proof (set_subseteq_size_eq _ _ Hsub Hsz) as Heq. intros k.
  rewrite <- elem_of_dom, <- Heq. by rewrite elem_of_list_to_set.
Qed.

(** Refreshing the plugins makes the active plugin scrobblers exactly the
    ones the plugin manager lists: those already running are kept as they are,
    new ones are started, and exactly the ones no longer listed are stopped. *)
Theorem refresh_plugins {C D} names load (p : playTracker C D) :
  NoDup names ->
  let p' := refreshPluginScrobblers (Some (names, load)) p in
  (forall k, pt_plugin p' !! k =
     if decide (k ∈ names) then Some (default (load k) (pt_plugin p !! k)) else None) /\
  exists gone, pt_stopped p' = pt_stopped p ++ gone /\ NoDup gone /\
    forall k, k ∈ gone <-> is_Some (pt_plugin p !! k) /\ k ∉ names.
Proof.
  intros Hnd. unfold refreshPluginScrobblers. case_cond.
  { pose proof (pluginNamesMatch_spec names (pt_plugin p) Hnd Heqb) as Hm. split.
    - intros k. case_decide as Hk; rewrite Hm in Hk.
      + destruct Hk as [s ->]. done.
      + by apply eq_None_not_Some.
    - exists []. rewrite app_nil_r. split_and!; [done|constructor|].
      intros k. rewrite Hm. split; [by intros ?%not_elem_of_nil|naive_solver]. }
  set (m := addPlugins load names (pt_plugin p)). simpl. split.
  - intros k. rewrite map_lookup_filter. unfold m. rewrite addPlugins_lookup. simpl.
    case_decide as Hk.
    + destruct (pt_plugin p !! k); simpl; by rewrite option_guard_True by done.
    + destruct (pt_plugin p !! k); simpl; by rewrite ?option_guard_False by done.
  - eexists. split; [reflexivity|]. split; [apply NoDup_fst_map_to_list|].
    intros k. rewrite list_elem_of_fmap. split.
    + intros ([k' s] & -> & Hin). apply elem_of_map_to_list, map_lookup_filter_Some in Hin as [Hl Hk].
      simpl in *. unfold m in Hl. rewrite addPlugins_lookup in Hl.
      destruct (pt_plugin p !! k'); [eauto|]. by rewrite decide_False in Hl.
    + intros [[s Hs] Hk]. exists (k, s). split; [done|].
      apply elem_of_map_to_list, map_lookup_filter_Some. split; [|done].
      unfold m. rewrite addPlugins_lookup, Hs. done.
Qed.

(** ** The queue of playback reports *)

Section queue.
Context {C D : Type} `{SimpleCache C} `{DataStore D}.
Context (cfg : Config) (loader : option (list string * (string -> Scrobbler))).
Implicit Types p q : playTracker C D.

(** The queue only grows, and the worker is signalled when it does. *)
Definition extends p q : Prop :=
  exists new, pt_prQueue q = pt_prQueue p ++ new /\
    (pt_prSignal q = true \/ new = [] /\ pt_prSignal q = pt_prSignal p).

Lemma extends_same p q :
  pt_prQueue q = pt_prQueue p -> pt_prSignal q = pt_prSignal p -> extends p q.
Proof. intros Hq Hs. exists []. rewrite app_nil_r. auto. Qed.

Lemma extends_enqueue p q info f :
  pt_prQueue q = pt_prQueue p -> extends p (enqueuePlaybackReport info f q).
Proof. intros Hq. exists [mkPR info f]. simpl. rewrite Hq. auto. Qed.

Lemma extends_after ctx params f p q : extends p q -> extends p (afterReport cfg ctx params f q).
Proof.
  intros (new & Hq & Hs). exists new.
  destruct (afterReport_prQueue cfg ctx params f q) as [-> ->]. auto.
Qed.

Lemma report_extends ctx params now p :
  extends p (ReportPlayback cfg loader ctx params now p).1.
Proof.
  unfold ReportPlayback, reportSwitch.
  case_cond; [|case_cond; [|case_cond; [|by apply extends_after, extends_same]]].
  - unfold reportStarting. case_cond; [by apply extends_same|].
    destruct (GetWithParticipants _ _); [|by apply extends_same].
    destruct (commit_starting _ _ _ _ _); [|by apply extends_same].
    by apply extends_after, extends_enqueue.
  - unfold reportPlaying. destruct (currentSession _ _ _ _); [|by apply extends_same].
    by apply extends_after, extends_enqueue.
  - unfold reportStopped. destruct (submitStopped _ _ _ _ _ _) as [[q l]|] eqn:E; [|by apply extends_same].
    apply submitStopped_frame in E as (_ & _ & Hq & Hs).
    destruct (commit_stopped _ _ _) as [[c s]|]; [|by apply extends_same].
    destruct (stoppedFile _ _ _ _) as [[mf st]|]; [|by apply extends_same].
    by apply extends_after, extends_enqueue.
Qed.

Lemma expiration_extends info now p : extends p (onExpiration cfg info now p).
Proof.
  unfold onExpiration. case_cond; case_cond; by (apply extends_enqueue || apply extends_same).
Qed.

(** What happens to the tracker: reports, expirations, and rounds of the worker,
    which waits for a signal.  The second component records the batches the
    rounds took from the queue. *)
Inductive tracker_step :
  playTracker C D * list (list playbackReportEntry) ->
  playTracker C D * list (list playbackReportEntry) -> Prop :=
| tr_report ctx params now p batches :
    tracker_step (p, batches) ((ReportPlayback cfg loader ctx params now p).1, batches)
| tr_expire info now p batches :
    tracker_step (p, batches) (onExpiration cfg info now p, batches)
| tr_round p batches :
    pt_prSignal p = true ->
    tracker_step (p, batches) ((playbackReportRound loader p).1, batches ++ [pt_prQueue p]).

(** Everything queued so far: the batches taken, then the queue. *)
Definition history (st : playTracker C D * list (list playbackReportEntry)) : list playbackReportEntry :=
  concat st.2 ++ pt_prQueue st.1.

Lemma round_frame p :
  pt_prQueue (playbackReportRound loader p).1 = [] /\
  pt_prSignal (playbackReportRound loader p).1 = false.
Proof.
  unfold playbackReportRound. destruct (pt_prQueue p); [done|].
  unfold getActiveScrobblers. simpl.
  by destruct (refresh_frame loader (set_prQueue [] false p)) as (_ & _ & _ & -> & -> & _).
Qed.

Lemma tracker_step_history st st' :
  tracker_step st st' -> history st `prefix_of` history st'.
Proof.
  intros Hs. destruct Hs as [ctx params now p b|info now p b|p b Hsig]; unfold history; simpl.
  - destruct (report_extends ctx params now p) as (new & -> & _). rewrite app_assoc.
    by apply prefix_app_r.
  - destruct (expiration_extends info now p) as (new & -> & _). rewrite app_assoc.
    by apply prefix_app_r.
  - destruct (round_frame p) as [-> _]. rewrite concat_app. simpl. by rewrite !app_nil_r.
Qed.

Definition signalled (st : playTracker C D * list (list playbackReportEntry)) : Prop :=
  pt_prQueue st.1 <> [] -> pt_prSignal st.1 = true.

Lemma tracker_step_signalled st st' : signalled st -> tracker_step st st' -> signalled st'.
Proof.
  unfold signalled. intros Hi Hs. destruct Hs as [ctx params now p b|info now p b|p b Hsig]; simpl in *.
  - destruct (report_extends ctx params now p) as (new & Hq & [->|[-> Hsig]]); [done|].
    rewrite Hq, app_nil_r, Hsig. done.
  - destruct (expiration_extends info now p) as (new & Hq & [->|[-> Hsig]]); [done|].
    rewrite Hq, app_nil_r, Hsig. done.
  - destruct (round_frame p) as [-> _]. done.
Qed.
End queue.


(** ** Now playing *)

#[local] Instance later_start_total : Total later_start.
Proof. intros a b. unfold later_start. lia. Qed.
#[local] Instance later_start_trans : Transitive later_start.
Proof. intros a b c. unfold later_start. lia. Qed.

Lemma estimate_frame now s :
  ps_MediaFile (estimate now s) = ps_MediaFile s /\ ps_Start (estimate now s) = ps_Start s /\
  ps_UserId (estimate now s) = ps_UserId s /\ ps_State (estimate now s) = ps_State s /\
  ps_PlayerId (estimate now s) = ps_PlayerId s.
Proof. unfold estimate. by case_match. Qed.

(** "Now playing" shows a user exactly the sessions whose library the user
    has access to, the latest first; a session that is playing is never shown
    beyond the end of its track, and the others are shown as last reported. *)
Theorem get_now_playing {C D} `{SimpleCache C} u now (p : playTracker C D) :
  let res := GetNowPlaying (Some u) now p in
  (forall s, s ∈ res <-> exists s0, s0 ∈ Values (pt_playMap p) /\ s = estimate now s0 /\
     HasLibraryAccess u (mf_LibraryID (ps_MediaFile s0)) = true) /\
  length res = length (filter (fun s => HasLibraryAccess u (mf_LibraryID (ps_MediaFile s)) = true)
                         (Values (pt_playMap p))) /\
  StronglySorted (fun a b => ps_Start b <= ps_Start a) res /\
  (forall s, s ∈ res -> ps_State s = StatePlaying -> ps_PositionMs s <= durationMs (ps_MediaFile s)) /\
  (forall s0, ps_State s0 <> StatePlaying -> estimate now s0 = s0).
Proof.
  unfold GetNowPlaying. cbn zeta. set (l := filter _ _).
  pose proof (merge_sort_Permutation later_start l) as Hperm. split_and!.
  - intros s. rewrite list_elem_of_fmap. setoid_rewrite Hperm. unfold l.
    setoid_rewrite list_elem_of_filter. naive_solver.
  - rewrite length_fmap. by rewrite Hperm.
  - pose proof (StronglySorted_merge_sort later_start l) as Hs.
    clear Hperm. induction Hs as [|a l' Hs IH Hall]; simpl; [constructor|].
    constructor; [done|].
    apply Forall_fmap. eapply Forall_impl; [|exact Hall]. intros b Hb. simpl.
    destruct (estimate_frame now a) as (_ & -> & _), (estimate_frame now b) as (_ & -> & _). done.
  - intros s (s0 & -> & _)%list_elem_of_fmap. destruct (estimate_frame now s0) as (_ & _ & _ & -> & _).
    intros Hst. unfold estimate. rewrite Hst, String.eqb_refl. simpl. lia.
  - intros s0 Hs. unfold estimate. by destruct (String.eqb_spec (ps_State s0) StatePlaying).
Qed.

(** ** Witnesses *)

(** A cache in which nothing expires. *)
#[local] Instance mapCache : SimpleCache (gmap string PlaybackSession) := {
  Get k c := c !! k;
  AddWithTTL k s _ c := <[k := s]> c;
  CacheRemove k c := delete k c;
  Values c := (map_to_list c).*2;
  CacheLen c := Z.of_nat (size c)
}.

#[local] Instance mapCacheLaws : SimpleCacheLaws (gmap string PlaybackSession).
Proof.
  split; simpl.
  - intros. apply lookup_insert_eq.
  - intros. by apply lookup_insert_ne.
  - intros. apply lookup_delete_eq.
  - intros. by apply lookup_delete_ne.
  - intros k s c Hk. apply list_elem_of_fmap. exists (k, s). by rewrite elem_of_map_to_list.
Qed.

(** A track of 200.5 seconds. *)
Definition demoTrackFile (id : string) : MediaFile :=
  mkMediaFile id "/music" id "Song" "mp3" 1128824832 0 320 44100 None 2 "mp3" "" 0
    1 "Artist" "al1" "aa1" ["ar1"] "Album" "" "" [] false 0 false.

(** A database that only records what is queued for scrobblers. *)
#[local] Instance demoStore : DataStore (list (string * string)) := {
  Criteria := unit;
  GetWithParticipants id _ := Ok (demoTrackFile id);
  ParseCriteria _ := Some tt;
  MatchesCriteria _ _ _ := Ok true;
  IncMediaFile id _ d := Ok (("count", id) :: d);
  IncAlbum id _ d := Ok (("count", id) :: d);
  IncArtist id _ d := Ok (("count", id) :: d);
  RecordScrobble _ _ d := Ok d;
  EnqueueScrobble service _ id _ d := Ok ((service, id) :: d)
}.

Definition demoCfg : Config := mkConfig true false.
Definition demoUser (filter : string) : User := mkUser "u1" "alice" false [1] filter.
Definition demoCtx (filter : string) : RequestContext :=
  mkContext (demoUser filter) (mkPlayer "p1" 0 true).
Definition demoReport (state : string) (pos : Z) : ReportPlaybackParams :=
  mkReport "t1" pos state (float64_of_int 1) false "c1" "Client".
Definition demoLoader : option (list string * (string -> Scrobbler)) :=
  Some (["fm"], fun n => mkScrobbler n (fun _ => true)).
Definition demoTracker : playTracker (gmap string PlaybackSession) (list (string * string)) :=
  mkTracker [] ∅ ∅ ∅ [] ∅ false [] false [].

Definition demoSession : PlaybackSession :=
  mkSession (demoTrackFile "t1") (-1000000) "u1" "alice" "c1" "Client" "" 0
    (S754_zero false) zero_time false.


Definition demoPlaying : playTracker (gmap string PlaybackSession) (list (string * string)) :=
  (ReportPlayback demoCfg demoLoader (demoCtx "") (demoReport StatePlaying 1) 0 demoTracker).1.

Lemma stopped_report_witness :
  exists s p' err, Get "c1" (pt_playMap demoPlaying) = Some s /\
    ReportPlayback demoCfg demoLoader (demoCtx "") (demoReport StateStopped 150000) 5 demoPlaying = (p', err) /\
    Get "c1" (pt_playMap p') = None.
Proof.
  assert (exists s, Get "c1" (pt_playMap demoPlaying) = Some s /\ mf_ID (ps_MediaFile s) = "t1")
    as (s & Hs & Hid) by (eexists; split; vm_compute; reflexivity).
  destruct (ReportPlayback demoCfg demoLoader (demoCtx "") (demoReport StateStopped 150000) 5 demoPlaying)
    as [p' err] eqn:E.
  assert (err = None) as ->.
  { change err with (p', err).2. rewrite <- E. vm_compute. reflexivity. }
  exists s, p', None. split; [exact Hs|]. split; [reflexivity|].
  refine (proj1 (proj2 (stopped_report demoCfg demoLoader (demoCtx "") (demoReport StateStopped 150000)
    5 s demoPlaying p' None eq_refl Hs E) _ eq_refl)).
  exact Hid.
Defined.

Lemma report_counts_play_witness :
  0 <= durationMs (demoTrackFile "t1") <= 2 ^ 56 /\
  scrobbleThreshold (demoTrackFile "t1") <= 150000 /\
  pt_ds (ReportPlayback demoCfg demoLoader (demoCtx "") (demoReport StateStopped 150000) 5 demoPlaying).1
    = [("fm", "t1"); ("count", "ar1"); ("count", "al1"); ("count", "t1")].
Proof.
  assert (0 <= durationMs (demoTrackFile "t1") <= 2 ^ 56) as Hd by (vm_compute; split; discriminate).
  split; [exact Hd|].
  pose proof (report_counts_play demoCfg demoLoader (demoCtx "") (demoReport StateStopped 150000) 5 demoPlaying)
    as [Ht Hds].
  split; [apply (Ht _ Hd); right; vm_compute; discriminate|].
  rewrite Hds. vm_compute. reflexivity.
Defined.

Lemma filtered_report_witness :
  pt_npQueue (ReportPlayback demoCfg demoLoader (demoCtx "all") (demoReport StatePlaying 1) 0 demoTracker).1 = ∅.
Proof.
  apply (filtered_report demoCfg demoLoader (demoCtx "all") (demoReport StatePlaying 1) 0 demoTracker).
  - intros id d mf [= <-]. reflexivity.
  - intros mf d _. reflexivity.
Defined.

Lemma refresh_plugins_witness :
  pt_plugin (refreshPluginScrobblers (Some (["fm"], fun n => mkScrobbler n (fun _ => true))) demoTracker)
    !! "fm" = Some (mkScrobbler "fm" (fun _ => true)).
Proof.
  destruct (refresh_plugins ["fm"] (fun n => mkScrobbler n (fun _ => true)) demoTracker) as [Hl _].
  { apply NoDup_singleton. }
  rewrite Hl. reflexivity.
Defined.

