(* ===== verification/BufferedScrobbler.v ===== *)
(** * The buffered scrobbler

    [core/scrobbler/buffered_scrobbler.go].  Scrobbles wait in a database table,
    per service and user, until the service accepts them; a goroutine drains
    the table and backs off when the service or the database fails.

    The table is the interface [ScrobbleBuffer], with its contents as an abstract
    view; the remote service is a function from what was sent so far to its
    answer. *)

From S2P Require Import Prelude Model.

Local Open Scope Z_scope.

Definition minRetryDelay : Z := 5 * second.
Definition maxRetryDelay : Z := 4 * 60 * second.
Definition maxRetryShift : Z := 6.

(** [<<] on a 64-bit duration. *)
Definition backoffDelay (failures : Z) : Z :=
  let failures := if failures <? 0 then 0 else failures in
  if maxRetryShift <=? failures then maxRetryDelay
  else
    let d := wrap64 (Z.shiftl minRetryDelay failures) in
    if maxRetryDelay <? d then maxRetryDelay else d.

Record ScrobbleEntry := mkEntry {
  se_ID : string; se_UserID : string; se_MediaFileID : string; se_PlayTime : time }.

(** [model.ScrobbleBufferRepository] for one service. *)
Class ScrobbleBuffer (B : Type) := {
  UserIDs : B -> result string (list string);
  Next : string -> B -> result string (option ScrobbleEntry);
  Dequeue : ScrobbleEntry -> B -> result string B;
  (** The scrobbles waiting for a user, oldest first. *)
  pending : string -> B -> list ScrobbleEntry
}.

Class ScrobbleBufferLaws (B : Type) `{ScrobbleBuffer B} := {
  Next_head u b r : Next u b = Ok r -> r = head (pending u b);
  Dequeue_head u b e es b' :
    pending u b = e :: es -> Dequeue e b = Ok b' -> pending u b' = es;
  Dequeue_other u u' b e es b' :
    pending u b = e :: es -> u <> u' -> Dequeue e b = Ok b' -> pending u' b' = pending u' b
}.

(** What the service answers to a scrobble: accepted, "retry later" with a
    delay, or refused, which discards it. *)
Inductive answer := Accepted | RetryLater (after : Z) | Refused (err : string).

Section scrobbler.
Context {B : Type} `{ScrobbleBuffer B}.
(** The plugin is loaded, and how the service answers, given what it was sent. *)
Context (available : bool) (service : list ScrobbleEntry -> ScrobbleEntry -> answer).

(** [processUserQueue]: the buffer, everything sent, and the two results.  The
    loop runs until the queue is empty or something fails; [None] is a loop that
    outlives its fuel. *)
Fixpoint processUserQueue (fuel : nat) (userId : string) (b : B) (sent : list ScrobbleEntry)
  : option (B * list ScrobbleEntry * (bool * Z)) :=
  match fuel with
  | O => None
  | S fuel =>
      match Next userId b with
      | Err _ => Some (b, sent, (false, 0))
      | Ok None => Some (b, sent, (true, 0))
      | Ok (Some entry) =>
          if negb available then Some (b, sent, (false, 0))
          else
            let a := service sent entry in
            let sent := sent ++ [entry] in
            match a with
            | RetryLater after => Some (b, sent, (false, after))
            | _ =>
                match Dequeue entry b with
                | Err _ => Some (b, sent, (false, 0))
                | Ok b => processUserQueue fuel userId b sent
                end
            end
      end
  end.

(** The loop of [processQueue] over the users. *)
Fixpoint processUsers (fuel : nat) (userIds : list string) (b : B) (sent : list ScrobbleEntry)
  (res : bool * Z) : option (B * list ScrobbleEntry * (bool * Z)) :=
  match userIds with
  | [] => Some (b, sent, res)
  | u :: userIds =>
      '(b, sent, (ok, d)) ← processUserQueue fuel u b sent;
      processUsers fuel userIds b sent (if ok : bool then res else (false, Z.max res.2 d))
  end.

Definition processQueue (fuel : nat) (b : B) (sent : list ScrobbleEntry)
  : option (B * list ScrobbleEntry * (bool * Z)) :=
  match UserIDs b with
  | Err _ => Some (b, sent, (false, 0))
  | Ok userIds => processUsers fuel userIds b sent (true, 0)
  end.
End scrobbler.

(** ** The drain loop *)

(** The variables of [run] and its timer: stopped, or armed with a delay. *)
Record runState := mkRun { rs_failures : Z; rs_backingOff : bool; rs_timer : option Z }.
Definition run_init : runState := mkRun 0 false None.

(** The first half of an iteration, with the results [processQueue] would give:
    the new state and whether the queue was drained. *)
Definition run_drain (ok : bool) (retryIn : Z) (rs : runState) : runState * bool :=
  if negb (rs_backingOff rs) then
    (if ok then mkRun 0 (rs_backingOff rs) None
     else mkRun (if rs_failures rs <? maxRetryShift then rs_failures rs + 1 else rs_failures rs)
            true (Some (Z.max (backoffDelay (rs_failures rs)) retryIn)), true)
  else (rs, false).

(** The select: a wake, or the timer, which fires only when armed. *)
Inductive run_event := Wake | TimerFired.

Definition run_select (e : run_event) (rs : runState) : option runState :=
  match e with
  | Wake => Some rs
  | TimerFired => match rs_timer rs with
                  | Some _ => Some (mkRun (rs_failures rs) false None)
                  | None => None
                  end
  end.

(** Iterations of the loop: for each, what [processQueue] would return and the
    event that ends it.  The result also counts the times the queue was drained. *)
Fixpoint run_loop (its : list (bool * Z * run_event)) (rs : runState) : option (runState * nat) :=
  match its with
  | [] => Some (rs, 0%nat)
  | (ok, retryIn, e) :: its =>
      let '(rs, drained) := run_drain ok retryIn rs in
      rs ← run_select e rs;
      '(rs, n) ← run_loop its rs;
      Some (rs, ((if drained then 1 else 0) + n)%nat)
  end.

(** ** Draining a user's queue *)

Section drain.
Context {B : Type} `{ScrobbleBufferLaws B}.
Context (available : bool) (service : list ScrobbleEntry -> ScrobbleEntry -> answer).

(** How a drain of user [u] may end: [delivered] were sent and removed, in order;
    at most one more, the next in line, was sent and stays; success means that
    nothing is left; other users' queues are untouched. *)
Definition drained_to (u : string) (b : B) (sent : list ScrobbleEntry)
  (r : B * list ScrobbleEntry * (bool * Z)) : Prop :=
  exists delivered tried,
    r.1.2 = sent ++ delivered ++ tried /\
    pending u b = delivered ++ pending u r.1.1 /\
    (tried = [] \/ exists e, tried = [e] /\ head (pending u r.1.1) = Some e) /\
    (r.2.1 = true -> pending u r.1.1 = [] /\ tried = []) /\
    (forall u', u' <> u -> pending u' r.1.1 = pending u' b).

Lemma drained_stop u b sent d : drained_to u b sent (b, sent, (false, d)).
Proof. exists [], []. simpl. rewrite app_nil_r. split_and!; auto. done. Qed.

Lemma drained_tried u b sent d e es :
  pending u b = e :: es -> drained_to u b sent (b, sent ++ [e], (false, d)).
Proof. intros Ep. exists [], [e]. simpl. rewrite Ep. split_and!; eauto. done. Qed.

Lemma drained_step u b b1 sent e es r :
  pending u b = e :: es -> Dequeue e b = Ok b1 ->
  drained_to u b1 (sent ++ [e]) r -> drained_to u b sent r.
Proof.
  intros Ep Hd (dl & t & Hs & Hp & Ht & Hok & Ho). exists (e :: dl), t.
  rewrite Hs, Ep, <- app_assoc. split_and!; auto.
  - rewrite (Dequeue_head _ _ _ _ _ Ep Hd) in Hp. by rewrite Hp.
  - intros u' Hu. rewrite Ho by done. by eapply Dequeue_other.
Qed.

Lemma processUserQueue_spec fuel u : forall b sent,
  (length (pending u b) < fuel)%nat ->
  exists r, processUserQueue available service fuel u b sent = Some r /\ drained_to u b sent r.
Proof.
  induction fuel as [|fuel IH]; intros b sent Hf; [lia|]. simpl.
  destruct (Next u b) as [r|e] eqn:En; [|eauto using drained_stop].
  apply Next_head in En as ->. destruct (pending u b) as [|e es] eqn:Ep; simpl.
  { eexists. split; [done|]. exists [], []. simpl. rewrite Ep, app_nil_r. split_and!; auto. }
  destruct (negb available); [eauto using drained_stop|].
  assert (forall b1, Dequeue e b = Ok b1 -> exists r,
    processUserQueue available service fuel u b1 (sent ++ [e]) = Some r /\ drained_to u b sent r) as Hgo.
  { intros b1 Hd. destruct (IH b1 (sent ++ [e])) as (r & -> & Hr).
    - rewrite (Dequeue_head _ _ _ _ _ Ep Hd). simpl in Hf. lia.
    - eauto using drained_step. }
  destruct (service sent e); [|eauto using drained_tried|];
    (destruct (Dequeue e b) eqn:Ed; [by apply Hgo|eauto using drained_tried]).
Qed.
End drain.

(** Draining a user's queue terminates, and loses, reorders and duplicates
    nothing: exactly the scrobbles that leave the table were sent, in the order
    they were queued; at most one more was sent and is still first in line; the
    drain reports success only with nothing left; other users' scrobbles stay. *)
Theorem user_queue_drained {B} `{ScrobbleBufferLaws B} available service u (b : B) sent :
  exists b' sent' ok retryIn delivered tried,
    processUserQueue available service (S (length (pending u b))) u b sent
      = Some (b', sent', (ok, retryIn)) /\
    sent' = sent ++ delivered ++ tried /\ pending u b = delivered ++ pending u b' /\
    (tried = [] \/ exists e, tried = [e] /\ head (pending u b') = Some e) /\
    (ok = true -> pending u b' = [] /\ tried = []) /\
    (forall u', u' <> u -> pending u' b' = pending u' b).
Proof.
  destruct (processUserQueue_spec available service (S (length (pending u b))) u b sent)
    as ([[b' sent'] [ok retryIn]] & Hr & dl & t & Hd); [lia|].
  exists b', sent', ok, retryIn, dl, t. split; [exact Hr|exact Hd].
Qed.

(** ** Backing off *)

Lemma shiftl_second n : 0 <= n -> Z.shiftl minRetryDelay n = minRetryDelay * 2 ^ n.
Proof. intros. by apply Z.shiftl_mul_pow2. Qed.

Lemma backoffDelay_spec n : 0 <= n -> backoffDelay n = Z.min (minRetryDelay * 2 ^ n) maxRetryDelay.
Proof.
  intros Hn. unfold backoffDelay. destruct (Z.ltb_spec n 0); [lia|].
  assert (minRetryDelay * 2 ^ 6 > maxRetryDelay) as H6 by done.
  destruct (Z.leb_spec maxRetryShift n) as [Hle|Hlt].
  - unfold maxRetryShift in Hle. assert (2 ^ 6 <= 2 ^ n) by (apply Z.pow_le_mono_r; lia).
    rewrite Z.min_r; [done|]. unfold minRetryDelay, maxRetryDelay, second in *. lia.
  - unfold maxRetryShift in Hlt. assert (2 ^ n <= 2 ^ 6) by (apply Z.pow_le_mono_r; lia).
    assert (0 < 2 ^ n) by (apply Z.pow_pos_nonneg; lia).
    rewrite shiftl_second, wrap64_id by
      (unfold in_int, int_min, int_max, minRetryDelay, second in *; lia).
    case_cond; bprop; lia.
Qed.

(** The loop's invariant: backing off exactly while the timer is armed. *)
Definition run_wf (rs : runState) : Prop :=
  0 <= rs_failures rs <= maxRetryShift /\ (rs_backingOff rs = true <-> is_Some (rs_timer rs)).

Lemma run_drain_wf ok d rs : run_wf rs -> run_wf (run_drain ok d rs).1.
Proof.
  unfold run_wf, run_drain, maxRetryShift. intros [Hf Ht]. destruct rs as [f b t]. simpl in *.
  destruct b; simpl; [done|].
  destruct ok; simpl; [split; [lia|]; split; [done|by intros [? ?]]|].
  split; [|split; eauto]. case_cond; bprop; lia.
Qed.

Lemma run_select_wf e rs rs' : run_wf rs -> run_select e rs = Some rs' -> run_wf rs'.
Proof.
  intros Hwf. destruct e; simpl; [by intros [= <-]|]. destruct (rs_timer rs); [|done].
  intros [= <-]. destruct Hwf as [Hf _]. split; [done|]. simpl. split; [done|by intros [? ?]].
Qed.

Lemma run_loop_wf its : forall rs rs' n, run_wf rs -> run_loop its rs = Some (rs', n) -> run_wf rs'.
Proof.
  induction its as [|[[ok d] e] its IH]; intros rs rs' n Hwf; simpl; [by intros [= <- <-]|].
  pose proof (run_drain_wf ok d rs Hwf) as Hwf1. destruct (run_drain ok d rs) as [rs1 b].
  intros (rs2 & Hs & ([rs3 m] & Hl & [= <- <-])%bind_Some)%bind_Some.
  eapply IH; [|exact Hl]. by eapply run_select_wf.
Qed.

(** While backing off, iterations that end with a wake do nothing. *)
Lemma run_loop_backing its rs :
  rs_backingOff rs = true -> Forall (fun it => it.2 = Wake) its -> run_loop its rs = Some (rs, 0%nat).
Proof.
  intros Hb Hw. induction Hw as [|[[ok d] e] its He _ IH]; simpl; [done|].
  simpl in He. subst e. unfold run_drain. rewrite Hb. simpl. by rewrite IH.
Qed.

(** The drain loop never hammers a failing service: after any history, a
    failed drain arms the timer with the exponential delay, 5 seconds doubled
    per consecutive failure up to 4 minutes, or the delay the service asked for
    if that is longer; until the timer fires, however many plays are queued, the
    queue is not drained again; and the timer is armed whenever the loop backs
    off, so it does resume. *)
Theorem run_backs_off its rs n retryIn wakes :
  run_loop its run_init = Some (rs, n) -> rs_backingOff rs = false ->
  Forall (fun it => it.2 = Wake) wakes ->
  exists rs', run_drain false retryIn rs = (rs', true) /\
    rs_timer rs' = Some (Z.max (Z.min (5 * second * 2 ^ rs_failures rs) (240 * second)) retryIn) /\
    run_loop wakes rs' = Some (rs', 0%nat) /\
    run_select TimerFired rs' = Some (mkRun (rs_failures rs') false None) /\
    rs_failures rs' = Z.min (rs_failures rs + 1) 6.
Proof.
  intros Hl Hb Hw. apply run_loop_wf in Hl as [Hf _].
  2: { split; [done|]. split; [done|by intros [? ?]]. }
  unfold run_drain. rewrite Hb. simpl. eexists. split; [reflexivity|]. simpl.
  rewrite backoffDelay_spec by lia. split_and!; [done|by apply run_loop_backing|done|].
  unfold maxRetryShift in *. case_cond; bprop; lia.
Qed.

(** ** Witnesses *)

#[local] Instance ScrobbleEntry_eq_dec : EqDecision ScrobbleEntry.
Proof. solve_decision. Defined.

Fixpoint remove_first (e : ScrobbleEntry) (b : list ScrobbleEntry) : list ScrobbleEntry :=
  match b with
  | [] => []
  | x :: b => if decide (x = e) then b else x :: remove_first e b
  end.

(** A table that never fails. *)
#[local] Instance listBuffer : ScrobbleBuffer (list ScrobbleEntry) := {
  UserIDs b := Ok (remove_dups (se_UserID <$> b));
  Next u b := Ok (head (List.filter (fun e => String.eqb (se_UserID e) u) b));
  Dequeue e b := Ok (remove_first e b);
  pending u b := List.filter (fun e => String.eqb (se_UserID e) u) b
}.

#[local] Instance listBufferLaws : ScrobbleBufferLaws (list ScrobbleEntry).
Proof.
  split; simpl.
  - by intros u b r [= <-].
  - intros u b e es b' Hp [= <-]. induction b as [|x b IH]; simpl in *; [done|].
    destruct (String.eqb_spec (se_UserID x) u) as [Hx|Hx].
    + simplify_eq. by rewrite decide_True.
    + case_decide as Hxe; [|simpl; destruct (String.eqb_spec (se_UserID x) u); auto; done].
      subst. assert (e ∈ List.filter (fun e => String.eqb (se_UserID e) u) b) as Hin
        by (rewrite Hp; by left).
      apply list_elem_of_In, filter_In in Hin as [_ Hu]. bprop. done.
  - intros u u' b e es b' Hp Hne [= <-].
    assert (se_UserID e = u) as He.
    { assert (e ∈ List.filter (fun e => String.eqb (se_UserID e) u) b) as Hin by (rewrite Hp; by left).
      apply list_elem_of_In, filter_In in Hin as [_ Hu]. by bprop. }
    clear Hp. induction b as [|x b IH]; simpl; [done|].
    case_decide as Hxe; simpl; [|by rewrite IH].
    subst. by destruct (String.eqb_spec (se_UserID e) u').
Qed.

Definition demoEntry (u id : string) : ScrobbleEntry := mkEntry id u ("t" +:+ id) 0.

(** A service that accepts one scrobble and then asks to be left alone. *)
Definition demoService (sent : list ScrobbleEntry) (e : ScrobbleEntry) : answer :=
  match sent with [] => Accepted | _ => RetryLater (60 * second) end.

Lemma user_queue_drained_witness :
  exists delivered tried,
    pending "u" [demoEntry "u" "1"; demoEntry "v" "2"; demoEntry "u" "3"] =
      delivered ++ [demoEntry "u" "3"] /\
    [demoEntry "u" "1"; demoEntry "u" "3"] = delivered ++ tried.
Proof.
  destruct (user_queue_drained true demoService "u"
    [demoEntry "u" "1"; demoEntry "v" "2"; demoEntry "u" "3"] [])
    as (b' & sent' & ok & retryIn & dl & t & Hr & Hs & Hp & _).
  vm_compute in Hr. injection Hr as <- <- <- <-. exists dl, t. split; [exact Hp|exact Hs].
Defined.

Lemma run_backs_off_witness :
  run_loop [(false, 0, TimerFired)] run_init = Some (mkRun 1 false None, 1%nat) /\
  exists rs', run_drain false 0 (mkRun 1 false None) = (rs', true) /\
    rs_timer rs' = Some (10 * second).
Proof.
  split; [reflexivity|].
  destruct (run_backs_off [(false, 0, TimerFired)] (mkRun 1 false None) 1 0 [] eq_refl eq_refl)
    as (rs' & Hd & Ht & _); [constructor|]. exists rs'. split; [exact Hd|]. rewrite Ht. reflexivity.
Defined.
