(* ===== verification/QuickConnect.v ===== *)
(** * Quick Connect

    [core/quickconnect/quickconnect.go].  A client without credentials asks for a
    code, a signed-in user approves the code, and the client redeems its secret
    for that user, once.  An entry is reachable from two maps, by secret and by
    code, and [Authorize] writes through the shared pointer: entries are heap
    cells here.  The random secret and the random draws for the code are
    arguments, and so is the time.  Every operation holds the mutex throughout. *)

From S2P Require Import Prelude GoStrings Model.

Local Open Scope Z_scope.

Definition timeout : Z := 10 * 60 * second.
Definition maxPending : nat := 1000.

Inductive qc_error := ErrAlreadyAuthorized | ErrTooManyRequests | ErrNotFound.

Record Device := mkDev { d_ID : string; d_Name : string; d_App : string; d_AppVersion : string }.

Record Request := mkRequest {
  r_Device : Device; r_Secret : string; r_Code : string; r_DateAdded : time; r_UserID : string }.

Definition Authorized (r : Request) : bool := negb (String.eqb (r_UserID r) "").

Record entry := mkEnt { e_Request : Request; e_expiresAt : time }.

Record quickConnect := mkQC {
  bySecret : gmap string nat;
  byCode : gmap string nat;
  heap : gmap nat entry;
  fresh : nat
}.

Definition newStore : quickConnect := mkQC ∅ ∅ ∅ 0.

(** Deletes the entry from both maps. *)
Definition remove (e : entry) (qc : quickConnect) : quickConnect :=
  mkQC (delete (r_Secret (e_Request e)) (bySecret qc)) (delete (r_Code (e_Request e)) (byCode qc))
    (heap qc) (fresh qc).

(** The loop of [expire] over the entries of [bySecret]. *)
Definition expire_one (now : time) (qc : quickConnect) (id : nat) : quickConnect :=
  match heap qc !! id with
  | Some e => if negb (now <? e_expiresAt e) then remove e qc else qc
  | None => qc
  end.
Definition expire_loop (now : time) (ids : list nat) (qc : quickConnect) : quickConnect :=
  foldl (expire_one now) qc ids.

Definition expire (now : time) (qc : quickConnect) : quickConnect :=
  expire_loop now (map_to_list (bySecret qc)).*2 qc.

(** [fmt.Sprintf("%06d", n)] for the six-digit numbers drawn. *)
Definition code_of (draw : Z) : string := pretty (draw + 100000).

(** [newCode] draws until the code is free; [None] when the draws run out. *)
Fixpoint newCode (draws : list Z) (qc : quickConnect) : option string :=
  match draws with
  | [] => None
  | d :: draws => match byCode qc !! code_of d with
                  | None => Some (code_of d)
                  | Some _ => newCode draws qc
                  end
  end.

(** [None] only when the draws given are not enough to find a code. *)
Definition Initiate (device : Device) (now : time) (secret : string) (draws : list Z) (qc : quickConnect)
  : option (quickConnect * result qc_error Request) :=
  let qc := expire now qc in
  if (maxPending <=? size (bySecret qc))%nat then Some (qc, Err ErrTooManyRequests)
  else
    code ← newCode draws qc;
    let r := mkRequest device secret code now "" in
    Some (mkQC (<[secret := fresh qc]> (bySecret qc)) (<[code := fresh qc]> (byCode qc))
            (<[fresh qc := mkEnt r (now + timeout)]> (heap qc)) (S (fresh qc)), Ok r).

(** The entry under a key of one of the two maps. *)
Definition find_in (index : quickConnect -> gmap string nat) (key : string) (now : time)
  (qc : quickConnect) : quickConnect * result qc_error (nat * entry) :=
  let qc := expire now qc in
  (qc, match index qc !! key ≫= (fun id => (id,.) <$> heap qc !! id) with
       | Some e => Ok e
       | None => Err ErrNotFound
       end).

(** ASCII white space; [strings.Join(strings.Fields(code), "")] drops it. *)
Definition is_space (c : Ascii.ascii) : bool :=
  let n := Ascii.nat_of_ascii c in (n =? 32)%nat || ((9 <=? n) && (n <=? 13))%nat.

Fixpoint normalizeCode (code : string) : string :=
  match code with
  | EmptyString => EmptyString
  | String c code => if is_space c then normalizeCode code else String c (normalizeCode code)
  end.

Definition findPending (code : string) (now : time) (qc : quickConnect)
  : quickConnect * result qc_error (nat * entry) :=
  match find_in byCode (normalizeCode code) now qc with
  | (qc, Ok (id, e)) => (qc, if Authorized (e_Request e) then Err ErrAlreadyAuthorized else Ok (id, e))
  | (qc, Err err) => (qc, Err err)
  end.

Definition Status (secret : string) (now : time) (qc : quickConnect)
  : quickConnect * result qc_error Request :=
  match find_in bySecret secret now qc with
  | (qc, Ok (_, e)) => (qc, Ok (e_Request e))
  | (qc, Err err) => (qc, Err err)
  end.

Definition Lookup (code : string) (now : time) (qc : quickConnect)
  : quickConnect * result qc_error Request :=
  match findPending code now qc with
  | (qc, Ok (_, e)) => (qc, Ok (e_Request e))
  | (qc, Err err) => (qc, Err err)
  end.

Definition approve (userID : string) (r : Request) : Request :=
  mkRequest (r_Device r) (r_Secret r) (r_Code r) (r_DateAdded r) userID.

Definition Authorize (code userID : string) (now : time) (qc : quickConnect)
  : quickConnect * result qc_error Request :=
  match findPending code now qc with
  | (qc, Ok (id, e)) =>
      let r := approve userID (e_Request e) in
      (mkQC (bySecret qc) (byCode qc) (<[id := mkEnt r (now + timeout)]> (heap qc)) (fresh qc), Ok r)
  | (qc, Err err) => (qc, Err err)
  end.

Definition Redeem (secret : string) (now : time) (qc : quickConnect)
  : quickConnect * result qc_error string :=
  match find_in bySecret secret now qc with
  | (qc, Ok (_, e)) =>
      if Authorized (e_Request e) then (remove e qc, Ok (r_UserID (e_Request e)))
      else (qc, Err ErrNotFound)
  | (qc, Err _) => (qc, Err ErrNotFound)
  end.

(** ** The two maps agree *)

(** Each map leads to a live entry that the other map holds under its own key. *)
Record qc_wf (qc : quickConnect) : Prop := {
  wf_secret s id : bySecret qc !! s = Some id -> exists e, heap qc !! id = Some e /\
    r_Secret (e_Request e) = s /\ byCode qc !! r_Code (e_Request e) = Some id;
  wf_code c id : byCode qc !! c = Some id -> exists e, heap qc !! id = Some e /\
    r_Code (e_Request e) = c /\ bySecret qc !! r_Secret (e_Request e) = Some id;
  wf_fresh id e : heap qc !! id = Some e -> (id < fresh qc)%nat;
  wf_size : (size (bySecret qc) <= maxPending)%nat;
  wf_sizes : size (byCode qc) = size (bySecret qc)
}.

Lemma newStore_wf : qc_wf newStore.
Proof. split; simpl; try done. rewrite map_size_empty. unfold maxPending. lia. Qed.

(** Removing a linked entry removes exactly its two links. *)
Lemma remove_wf qc id e :
  qc_wf qc -> heap qc !! id = Some e -> bySecret qc !! r_Secret (e_Request e) = Some id ->
  qc_wf (remove e qc).
Proof.
  intros Hwf He Hs. assert (byCode qc !! r_Code (e_Request e) = Some id) as Hc.
  { destruct (wf_secret _ Hwf _ _ Hs) as (e' & He' & _ & Hc). by simplify_eq. }
  split; simpl.
  - intros s id' [Hne Hl]%lookup_delete_Some. destruct (wf_secret _ Hwf _ _ Hl) as (e' & He' & Hs' & Hc').
    exists e'. split_and!; auto. rewrite lookup_delete_ne; [done|].
    intros Heq. rewrite <- Heq, Hc in Hc'. by simplify_eq.
  - intros c id' [Hne Hl]%lookup_delete_Some. destruct (wf_code _ Hwf _ _ Hl) as (e' & He' & Hc' & Hs').
    exists e'. split_and!; auto. rewrite lookup_delete_ne; [done|].
    intros Heq. rewrite <- Heq, Hs in Hs'. by simplify_eq.
  - apply Hwf.
  - pose proof (wf_size _ Hwf). rewrite map_size_delete. destruct (bySecret qc !! _); simpl; lia.
  - by rewrite !map_size_delete, Hs, Hc, (wf_sizes _ Hwf).
Qed.

(** The entry [id] is the one its secret maps to. *)
Definition linked (qc : quickConnect) (id : nat) : Prop :=
  exists e, heap qc !! id = Some e /\ bySecret qc !! r_Secret (e_Request e) = Some id.
Definition live (now : time) (qc : quickConnect) (id : nat) : Prop :=
  exists e, heap qc !! id = Some e /\ now < e_expiresAt e.

Lemma expire_one_spec now qc id :
  qc_wf qc -> linked qc id ->
  let qc' := expire_one now qc id in
  qc_wf qc' /\ heap qc' = heap qc /\ fresh qc' = fresh qc /\
  forall s id', bySecret qc' !! s = Some id' <->
    bySecret qc !! s = Some id' /\ (id' = id -> live now qc id').
Proof.
  intros Hwf (e & He & Hs). unfold expire_one. rewrite He. cbn zeta.
  destruct (Z.ltb_spec now (e_expiresAt e)) as [Hlt|Hle]; cbn [negb].
  - split_and!; auto. intros s id'. split; [|by intros []]. intros Hl. split; [done|].
    intros ->. by exists e.
  - split_and!; [by eapply remove_wf|done|done|]. intros s id'. simpl. rewrite lookup_delete_Some.
    split.
    + intros [Hne Hl]. split; [done|]. intros ->.
      destruct (wf_secret _ Hwf _ _ Hl) as (e' & He' & Hs' & _). simplify_eq.
    + intros [Hl Hi]. split; [|done]. intros <-. simplify_eq.
      destruct Hi as (e' & He' & ?); [done|]. simplify_eq. lia.
Qed.

Lemma expire_loop_spec now ids : forall qc,
  qc_wf qc -> Forall (linked qc) ids -> NoDup ids ->
  let qc' := expire_loop now ids qc in
  qc_wf qc' /\ heap qc' = heap qc /\ fresh qc' = fresh qc /\
  forall s id, bySecret qc' !! s = Some id <->
    bySecret qc !! s = Some id /\ (id ∈ ids -> live now qc id).
Proof.
  induction ids as [|i ids IH]; intros qc Hwf Hall Hnd; simpl.
  { split_and!; auto. intros s id. split; [|by intros []]. intros. split; [done|].
    by intros ?%not_elem_of_nil. }
  inversion Hnd as [|? ? Hni Hnd']; subst. clear Hnd. rename Hnd' into Hnd.
  inversion Hall as [|? ? Hi Hrest]; subst.
  destruct (expire_one_spec now qc i Hwf Hi) as (Hwf1 & Hh1 & Hf1 & Hb1).
  assert (Forall (linked (expire_one now qc i)) ids) as Hlink.
  { apply Forall_forall. intros j Hj. rewrite Forall_forall in Hrest.
    destruct (Hrest j Hj) as (e & He & Hs). exists e. rewrite Hh1. split; [done|].
    apply Hb1. split; [done|]. intros ->. destruct Hni. by apply list_elem_of_In. }
  destruct (IH _ Hwf1 Hlink Hnd) as (Hwf2 & Hh2 & Hf2 & Hb2).
  split_and!; [done|congruence|congruence|].
  assert (forall j, live now (expire_one now qc i) j <-> live now qc j) as Hlive
    by (intros j; unfold live; by rewrite Hh1).
  intros s id. rewrite Hb2, Hb1, Hlive, elem_of_cons. naive_solver.
Qed.

(** [expire] unlinks exactly the entries whose time is over. *)
Lemma expire_spec now qc :
  qc_wf qc ->
  qc_wf (expire now qc) /\ heap (expire now qc) = heap qc /\ fresh (expire now qc) = fresh qc /\
  forall s id, bySecret (expire now qc) !! s = Some id <->
    bySecret qc !! s = Some id /\ live now qc id.
Proof.
  intros Hwf. unfold expire.
  assert (forall id, id ∈ (map_to_list (bySecret qc)).*2 <-> exists s, bySecret qc !! s = Some id) as Hids.
  { intros id. rewrite list_elem_of_fmap. split.
    - intros ([s id'] & -> & Hin). apply elem_of_map_to_list in Hin. eauto.
    - intros [s Hs]. exists (s, id). by rewrite elem_of_map_to_list. }
  destruct (expire_loop_spec now (map_to_list (bySecret qc)).*2 qc Hwf) as (H1 & H2 & H3 & H4).
  - apply Forall_forall. intros id Hin%list_elem_of_In. apply Hids in Hin as [s Hs].
    destruct (wf_secret _ Hwf _ _ Hs) as (e & He & <- & _). by exists e.
  - apply NoDup_fmap_2_strong; [|apply NoDup_map_to_list].
    intros [s1 i1] [s2 i2] Hin1 Hin2 Heq. apply elem_of_map_to_list in Hin1, Hin2. simpl in Heq. subst.
    destruct (wf_secret _ Hwf _ _ Hin1) as (e1 & He1 & <- & _).
    destruct (wf_secret _ Hwf _ _ Hin2) as (e2 & He2 & <- & _). by simplify_eq.
  - split_and!; auto. intros s id. rewrite H4. split; intros [Hs Hl]; split; auto.
    apply Hl, Hids. eauto.
Qed.

Lemma find_in_spec index key now qc qc' r :
  find_in index key now qc = (qc', r) ->
  qc' = expire now qc /\
  match r with
  | Ok (id, e) => index qc' !! key = Some id /\ heap qc' !! id = Some e
  | Err err => err = ErrNotFound
  end.
Proof.
  unfold find_in. intros [= <- <-]. split; [done|].
  destruct (index (expire now qc) !! key) as [id|] eqn:Ei; simpl; [|done].
  by destruct (heap (expire now qc) !! id) as [e|] eqn:Ee.
Qed.

(** A draw that is not taken is found. *)
Lemma newCode_some draws qc d :
  d ∈ draws -> byCode qc !! code_of d = None -> exists c, newCode draws qc = Some c.
Proof.
  induction draws as [|d' draws IH]; intros Hd Hfree; [by apply not_elem_of_nil in Hd|]. simpl.
  destruct (byCode qc !! code_of d') eqn:E; [|eauto].
  apply elem_of_cons in Hd as [->|Hd]; [congruence|auto].
Qed.

Lemma newCode_free draws qc c : newCode draws qc = Some c -> byCode qc !! c = None.
Proof.
  induction draws as [|d draws IH]; simpl; [done|].
  destruct (byCode qc !! code_of d) eqn:E; [done|]. by intros [= <-].
Qed.

#[local] Instance code_of_inj : Inj (=) (=) code_of.
Proof. intros a b Hab. unfold code_of in Hab. apply (inj pretty) in Hab. lia. Qed.

(** With more distinct draws than there are requests, one is free. *)
Lemma newCode_enough draws qc :
  NoDup draws -> (size (byCode qc) < length draws)%nat -> exists c, newCode draws qc = Some c.
Proof.
  intros Hnd Hlen. destruct (decide (Exists (fun d => byCode qc !! code_of d = None) draws)) as [He|Hn].
  { apply Exists_exists in He as (d & Hd & Hfree). eapply newCode_some; [|done].
    by apply list_elem_of_In. }
  exfalso. apply not_Exists_Forall in Hn; [|apply _].
  assert (list_to_set (code_of <$> draws) ⊆ dom (byCode qc)) as Hsub.
  { intros c (d & -> & Hd)%elem_of_list_to_set%list_elem_of_fmap.
    apply list_elem_of_In in Hd. rewrite Forall_forall in Hn. specialize (Hn d Hd). simpl in Hn.
    apply elem_of_dom. destruct (byCode qc !! code_of d); [eauto|done]. }
  apply subseteq_size in Hsub. rewrite size_dom, size_list_to_set, length_fmap in Hsub; [lia|].
  apply (NoDup_fmap_2 code_of). exact Hnd.
Qed.

(** Adding an entry under a new secret and a free code. *)
Lemma add_wf qc secret code r exp :
  qc_wf qc -> bySecret qc !! secret = None -> byCode qc !! code = None ->
  (size (bySecret qc) < maxPending)%nat -> r_Secret r = secret -> r_Code r = code ->
  qc_wf (mkQC (<[secret := fresh qc]> (bySecret qc)) (<[code := fresh qc]> (byCode qc))
           (<[fresh qc := mkEnt r exp]> (heap qc)) (S (fresh qc))).
Proof.
  intros Hwf Hs Hc Hsz <- <-.
  assert (forall id e, heap qc !! id = Some e -> fresh qc <> id) as Hne.
  { intros id e He <-. apply (wf_fresh _ Hwf) in He. lia. }
  split; simpl.
  - intros s id [[<- <-]|[Hn Hl]]%lookup_insert_Some.
    { exists (mkEnt r exp). rewrite !lookup_insert_eq. done. }
    destruct (wf_secret _ Hwf _ _ Hl) as (e & He & <- & Hce). exists e.
    rewrite lookup_insert_ne by eauto. split_and!; auto.
    rewrite lookup_insert_ne; [done|congruence].
  - intros c id [[<- <-]|[Hn Hl]]%lookup_insert_Some.
    { exists (mkEnt r exp). rewrite !lookup_insert_eq. done. }
    destruct (wf_code _ Hwf _ _ Hl) as (e & He & <- & Hse). exists e.
    rewrite lookup_insert_ne by eauto. split_and!; auto.
    rewrite lookup_insert_ne; [done|congruence].
  - intros id e [[<- <-]|[_ He]]%lookup_insert_Some; [lia|].
    apply (wf_fresh _ Hwf) in He. lia.
  - rewrite map_size_insert, Hs. simpl. lia.
  - rewrite !map_size_insert, Hs, Hc. simpl. by rewrite (wf_sizes _ Hwf).
Qed.

(** A write through the pointer that keeps the secret and the code. *)
Lemma update_wf qc id e e' :
  qc_wf qc -> heap qc !! id = Some e ->
  r_Secret (e_Request e') = r_Secret (e_Request e) -> r_Code (e_Request e') = r_Code (e_Request e) ->
  qc_wf (mkQC (bySecret qc) (byCode qc) (<[id := e']> (heap qc)) (fresh qc)).
Proof.
  intros Hwf He Hse Hce. split; simpl; try apply Hwf.
  - intros s id' (e1 & He1 & Hs1 & Hc1)%(wf_secret _ Hwf).
    destruct (decide (id = id')) as [<-|Hne].
    + exists e'. rewrite lookup_insert_eq. simplify_eq. rewrite Hce. auto.
    + exists e1. rewrite lookup_insert_ne by done. auto.
  - intros c id' (e1 & He1 & Hc1 & Hs1)%(wf_code _ Hwf).
    destruct (decide (id = id')) as [<-|Hne].
    + exists e'. rewrite lookup_insert_eq. simplify_eq. rewrite Hse. auto.
    + exists e1. rewrite lookup_insert_ne by done. auto.
  - intros id' e1 [[<- <-]|[_ H1]]%lookup_insert_Some; by eapply (wf_fresh _ Hwf).
Qed.

(** ** Histories

    The store with what happened: the secrets handed out, the approvals (the
    secret of the request and the user) and the secrets redeemed. *)
Record world := mkWorld {
  w_qc : quickConnect;
  w_issued : list string;
  w_approved : list (string * string);
  w_redeemed : list string
}.

(** Secrets are 32 random bytes: a new one has not been handed out before. *)
Inductive qc_step : world -> world -> Prop :=
| qs_initiate device now secret draws w qc r :
    secret ∉ w_issued w -> Initiate device now secret draws (w_qc w) = Some (qc, r) ->
    qc_step w (mkWorld qc (if is_ok r then secret :: w_issued w else w_issued w)
                 (w_approved w) (w_redeemed w))
| qs_status secret now w :
    qc_step w (mkWorld (Status secret now (w_qc w)).1 (w_issued w) (w_approved w) (w_redeemed w))
| qs_lookup code now w :
    qc_step w (mkWorld (Lookup code now (w_qc w)).1 (w_issued w) (w_approved w) (w_redeemed w))
| qs_authorize code user now w qc r :
    Authorize code user now (w_qc w) = (qc, r) ->
    qc_step w (mkWorld qc (w_issued w)
                 (match r with Ok rq => (r_Secret rq, user) :: w_approved w | Err _ => w_approved w end)
                 (w_redeemed w))
| qs_redeem secret now w qc r :
    Redeem secret now (w_qc w) = (qc, r) ->
    qc_step w (mkWorld qc (w_issued w) (w_approved w)
                 (match r with Ok _ => secret :: w_redeemed w | Err _ => w_redeemed w end)).

Definition world_init : world := mkWorld newStore [] [] [].

Record world_inv (w : world) : Prop := {
  wi_wf : qc_wf (w_qc w);
  wi_approved s id e : bySecret (w_qc w) !! s = Some id -> heap (w_qc w) !! id = Some e ->
    r_UserID (e_Request e) <> "" -> (s, r_UserID (e_Request e)) ∈ w_approved w;
  wi_issued s id : bySecret (w_qc w) !! s = Some id -> s ∈ w_issued w /\ s ∉ w_redeemed w;
  wi_redeemed s : s ∈ w_redeemed w -> s ∈ w_issued w
}.

(** Expiring only unlinks. *)
Lemma expire_world_inv now w :
  world_inv w -> world_inv (mkWorld (expire now (w_qc w)) (w_issued w) (w_approved w) (w_redeemed w)).
Proof.
  intros Hi. destruct (expire_spec now (w_qc w) (wi_wf _ Hi)) as (Hwf & Hh & _ & Hb).
  split; simpl; [done| | |apply Hi].
  - intros s id e Hs He. apply Hb in Hs as [Hs _]. rewrite Hh in He. by eapply wi_approved.
  - intros s id Hs. apply Hb in Hs as [Hs _]. by eapply wi_issued.
Qed.

Lemma initiate_world_inv device now secret draws w qc r :
  world_inv w -> secret ∉ w_issued w -> Initiate device now secret draws (w_qc w) = Some (qc, r) ->
  world_inv (mkWorld qc (if is_ok r then secret :: w_issued w else w_issued w)
               (w_approved w) (w_redeemed w)).
Proof.
  intros Hi Hnew. apply (expire_world_inv now) in Hi as Hx. unfold Initiate.
  destruct (Nat.leb_spec maxPending (size (bySecret (expire now (w_qc w))))) as [|Hlt].
  { by intros [= <- <-]. }
  intros (code & Hc & [= <- <-])%bind_Some. apply newCode_free in Hc.
  assert (bySecret (expire now (w_qc w)) !! secret = None) as Hnone.
  { destruct (bySecret (expire now (w_qc w)) !! secret) as [id|] eqn:E; [|done].
    by apply (wi_issued _ Hx) in E as [? _]. }
  split; simpl.
  - apply add_wf; auto. apply Hx.
  - intros s id e [[<- <-]|[Hne Hs]]%lookup_insert_Some.
    { rewrite lookup_insert_eq. by intros [= <-]. }
    destruct (wf_secret _ (wi_wf _ Hx) _ _ Hs) as (e0 & He0 & _). simpl in He0.
    rewrite lookup_insert_ne; [by apply (wi_approved _ Hx)|].
    intros <-. apply (wf_fresh _ (wi_wf _ Hx)) in He0. simpl in He0. lia.
  - intros s id [[<- <-]|[Hne Hs]]%lookup_insert_Some.
    { split; [by left|]. intros Hr. by apply (wi_redeemed _ Hi) in Hr. }
    destruct (wi_issued _ Hx _ _ Hs). split; [by right|done].
  - intros s Hs. right. by apply (wi_redeemed _ Hi).
Qed.

(** The pending entry a code leads to, after expiring. *)
Lemma findPending_spec code now qc qc' r :
  findPending code now qc = (qc', r) ->
  qc' = expire now qc /\
  match r with
  | Ok (id, e) => byCode qc' !! normalizeCode code = Some id /\ heap qc' !! id = Some e /\
                  Authorized (e_Request e) = false
  | Err _ => True
  end.
Proof.
  unfold findPending. destruct (find_in byCode (normalizeCode code) now qc) as [q [[id e]|err]] eqn:E;
    apply find_in_spec in E as [-> E]; intros [= <- <-]; [|done].
  split; [done|]. destruct (Authorized (e_Request e)) eqn:Ea; [done|]. naive_solver.
Qed.

Lemma authorize_world_inv code user now w qc r :
  world_inv w -> Authorize code user now (w_qc w) = (qc, r) ->
  world_inv (mkWorld qc (w_issued w)
    (match r with Ok rq => (r_Secret rq, user) :: w_approved w | Err _ => w_approved w end)
    (w_redeemed w)).
Proof.
  intros Hi. apply (expire_world_inv now) in Hi as Hx. unfold Authorize.
  destruct (findPending code now (w_qc w)) as [q [[id e]|err]] eqn:E;
    apply findPending_spec in E as [-> E]; intros [= <- <-]; [|done].
  destruct E as (Hc & He & _). split; simpl.
  - eapply update_wf; [apply Hx|exact He|done|done].
  - intros s id' e' Hs [[<- <-]|[Hne He']]%lookup_insert_Some Hu; simpl in *.
    + destruct (wf_secret _ (wi_wf _ Hx) _ _ Hs) as (e1 & He1 & <- & _). simpl in He1. simplify_eq. by left.
    + right. by eapply (wi_approved _ Hx).
  - apply Hx.
  - apply Hx.
Qed.

(** What a successful [Redeem] removes and returns. *)
Lemma redeem_spec secret now qc qc' u :
  Redeem secret now qc = (qc', Ok u) ->
  exists id e, bySecret (expire now qc) !! secret = Some id /\ heap (expire now qc) !! id = Some e /\
    u = r_UserID (e_Request e) /\ u <> "" /\ qc' = remove e (expire now qc).
Proof.
  unfold Redeem. destruct (find_in bySecret secret now qc) as [q [[id e]|err]] eqn:E;
    apply find_in_spec in E as [-> E]; [|done].
  destruct (Authorized (e_Request e)) eqn:Ea; [|done]. intros [= <- <-].
  unfold Authorized in Ea. bprop. exists id, e. naive_solver.
Qed.

Lemma redeem_world_inv secret now w qc r :
  world_inv w -> Redeem secret now (w_qc w) = (qc, r) ->
  world_inv (mkWorld qc (w_issued w) (w_approved w)
    (match r with Ok _ => secret :: w_redeemed w | Err _ => w_redeemed w end)).
Proof.
  intros Hi. apply (expire_world_inv now) in Hi as Hx. intros Hr. destruct r as [u|err].
  2: { revert Hr. unfold Redeem. destruct (find_in bySecret secret now (w_qc w)) as [q [[id e]|]] eqn:E;
       apply find_in_spec in E as [-> _]; [case_cond|]; by intros [= <- <-]. }
  apply redeem_spec in Hr as (id & e & Hs & He & -> & _ & ->).
  destruct (wf_secret _ (wi_wf _ Hx) _ _ Hs) as (e0 & He0 & Hse & _). simpl in He0. simplify_eq.
  split; simpl.
  - eapply remove_wf; [apply Hx|exact He|exact Hs].
  - intros s id' e' [_ Hl]%lookup_delete_Some. by apply (wi_approved _ Hx).
  - intros s id' [Hne Hl]%lookup_delete_Some. destruct (wi_issued _ Hx _ _ Hl) as [? Hnr].
    split; [done|]. intros [->|?]%elem_of_cons; done.
  - intros s [->|Hs']%elem_of_cons; [by apply (wi_issued _ Hx) in Hs as [? _]|].
    by apply (wi_redeemed _ Hi).
Qed.

Lemma qc_step_inv w w' : world_inv w -> qc_step w w' -> world_inv w'.
Proof.
  intros Hi Hs. destruct Hs as
    [device now secret draws w qc r Hn Hr|secret now w|code now w|code user now w qc r Hr|secret now w qc r Hr].
  - by eapply initiate_world_inv.
  - unfold Status. destruct (find_in _ _ _ _) as [q [[id e]|]] eqn:E; apply find_in_spec in E as [-> _];
      by apply expire_world_inv.
  - unfold Lookup. destruct (findPending _ _ _) as [q [[id e]|]] eqn:E;
      apply findPending_spec in E as [-> _]; by apply expire_world_inv.
  - by eapply authorize_world_inv.
  - by eapply redeem_world_inv.
Qed.

Lemma world_init_inv : world_inv world_init.
Proof. split; simpl; [apply newStore_wf|done|done|]. intros s Hs. by apply not_elem_of_nil in Hs. Qed.

(** C20: in every history a secret is redeemed at most once, and only for a user
    who approved exactly that request; at most 1000 requests are ever pending,
    and the two indexes always agree. *)
Theorem quick_connect_safe w :
  steps qc_step world_init w ->
  (size (bySecret (w_qc w)) <= 1000)%nat /\
  (forall s id, bySecret (w_qc w) !! s = Some id <->
     exists e, heap (w_qc w) !! id = Some e /\ r_Secret (e_Request e) = s /\
       byCode (w_qc w) !! r_Code (e_Request e) = Some id) /\
  (forall secret now qc u, Redeem secret now (w_qc w) = (qc, Ok u) ->
     (secret, u) ∈ w_approved w /\ u <> "" /\ secret ∉ w_redeemed w).
Proof.
  intros Hs. assert (world_inv w) as Hi
    by (eapply (steps_invariant qc_step world_inv); [exact qc_step_inv|exact world_init_inv|done]).
  pose proof (wi_wf _ Hi) as Hwf. split_and!.
  - apply (wf_size _ Hwf).
  - intros s id. split.
    + intros (e & He & Hse & Hc)%(wf_secret _ Hwf). eauto.
    + intros (e & He & <- & Hc). destruct (wf_code _ Hwf _ _ Hc) as (e' & He' & _ & Hse). by simplify_eq.
  - intros secret now qc u (id & e & Hl & He & -> & Hu & _)%redeem_spec.
    pose proof (expire_world_inv now w Hi) as Hx. split_and!; [|done|].
    + by eapply (wi_approved _ Hx).
    + by apply (wi_issued _ Hx) in Hl as [_ ?].
Qed.

(** An entry that is linked and not expired survives [expire], in both maps. *)
Lemma expire_keeps now qc id e :
  qc_wf qc -> heap qc !! id = Some e -> bySecret qc !! r_Secret (e_Request e) = Some id ->
  now < e_expiresAt e ->
  qc_wf (expire now qc) /\ heap (expire now qc) = heap qc /\
  bySecret (expire now qc) !! r_Secret (e_Request e) = Some id /\
  byCode (expire now qc) !! r_Code (e_Request e) = Some id.
Proof.
  intros Hwf He Hs Hlt. destruct (expire_spec now qc Hwf) as (Hwf' & Hh & _ & Hb).
  assert (bySecret (expire now qc) !! r_Secret (e_Request e) = Some id) as Hs'.
  { apply Hb. split; [done|]. by exists e. }
  split_and!; auto. destruct (wf_secret _ Hwf' _ _ Hs') as (e' & He' & _ & Hc).
  rewrite Hh in He'. by simplify_eq.
Qed.

Lemma find_in_hit index key now qc id e :
  index (expire now qc) !! key = Some id -> heap (expire now qc) !! id = Some e ->
  find_in index key now qc = (expire now qc, Ok (id, e)).
Proof. intros Hi He. unfold find_in. rewrite Hi. simpl. by rewrite He. Qed.

Lemma Authorize_hit typed u now qc id e :
  byCode (expire now qc) !! normalizeCode typed = Some id -> heap (expire now qc) !! id = Some e ->
  Authorized (e_Request e) = false ->
  Authorize typed u now qc =
    (mkQC (bySecret (expire now qc)) (byCode (expire now qc))
       (<[id := mkEnt (approve u (e_Request e)) (now + timeout)]> (heap (expire now qc)))
       (fresh (expire now qc)), Ok (approve u (e_Request e))).
Proof.
  intros Hc He Ha. unfold Authorize, findPending. rewrite (find_in_hit byCode _ now qc id e) by done.
  by rewrite Ha.
Qed.

(** An approved live request is redeemed, and then its secret leads nowhere. *)
Lemma Redeem_hit secret now qc id e :
  qc_wf qc -> heap qc !! id = Some e -> bySecret qc !! secret = Some id ->
  secret = r_Secret (e_Request e) -> now < e_expiresAt e -> r_UserID (e_Request e) <> "" ->
  exists qc', Redeem secret now qc = (qc', Ok (r_UserID (e_Request e))) /\
    forall t, (Redeem secret t qc').2 = Err ErrNotFound.
Proof.
  intros Hwf He Hs -> Hlt Hu. destruct (expire_keeps now qc id e Hwf He Hs Hlt) as (Hwf' & Hh & Hs' & _).
  exists (remove e (expire now qc)). split.
  - unfold Redeem. rewrite (find_in_hit bySecret _ now qc id e) by (by rewrite ?Hh).
    unfold Authorized. by destruct (String.eqb_spec (r_UserID (e_Request e)) "").
  - intros t. unfold Redeem. destruct (find_in bySecret _ t _) as [q [[id' e']|]] eqn:E;
      apply find_in_spec in E as [-> E]; [|done].
    destruct E as [E _]. destruct (expire_spec t (remove e (expire now qc))) as (_ & _ & _ & Hb).
    { eapply remove_wf; [exact Hwf'|rewrite Hh; exact He|exact Hs']. }
    apply Hb in E as [E _]. simpl in E. by rewrite lookup_delete_eq in E.
Qed.

(** The hand-shake works: while fewer than 1000 requests are pending, a client
    gets a code as soon as 1000 distinct numbers are drawn; a user who types the
    code, with any white space, within ten minutes approves the request; and
    within ten more minutes the client redeems its secret for exactly that user,
    after which the secret is worthless. *)
Theorem quick_connect_flow qc device secret draws u t0 t1 t2 :
  qc_wf qc -> bySecret qc !! secret = None ->
  (size (bySecret (expire t0 qc)) < 1000)%nat -> NoDup draws -> (1000 <= length draws)%nat ->
  t0 <= t1 < t0 + timeout -> t1 <= t2 < t1 + timeout -> u <> "" ->
  exists qc1 r, Initiate device t0 secret draws qc = Some (qc1, Ok r) /\ r_Secret r = secret /\
    forall typed, normalizeCode typed = r_Code r ->
    exists qc2 r2 qc3, Authorize typed u t1 qc1 = (qc2, Ok r2) /\
      Redeem secret t2 qc2 = (qc3, Ok u) /\
      forall t3, (Redeem secret t3 qc3).2 = Err ErrNotFound.
Proof.
  intros Hwf Hfree Hsz Hnd Hlen Ht1 Ht2 Hu. unfold Initiate.
  destruct (expire_spec t0 qc Hwf) as (Hwf0 & _ & _ & Hb).
  change 1000%nat with maxPending in *.
  destruct (Nat.leb_spec maxPending (size (bySecret (expire t0 qc)))); [lia|].
  destruct (newCode_enough draws (expire t0 qc) Hnd) as [code Hcode].
  { rewrite (wf_sizes _ Hwf0). lia. }
  rewrite Hcode. cbn [mbind option_bind]. apply newCode_free in Hcode.
  set (r := mkRequest device secret code t0 ""). set (e := mkEnt r (t0 + timeout)).
  set (qc1 := mkQC _ _ _ _). exists qc1, r. split; [done|]. split; [done|].
  assert (bySecret (expire t0 qc) !! secret = None) as Hnone.
  { destruct (bySecret (expire t0 qc) !! secret) eqn:E; [|done]. apply Hb in E as [E _]. congruence. }
  assert (qc_wf qc1) as Hwf1 by (by apply add_wf).
  set (id := fresh (expire t0 qc)) in *.
  assert (heap qc1 !! id = Some e) as He1 by apply lookup_insert_eq.
  assert (bySecret qc1 !! secret = Some id) as Hs1 by apply lookup_insert_eq.
  destruct (expire_keeps t1 qc1 id e Hwf1 He1 Hs1) as (Hwf2 & Hh2 & Hs2 & Hc2); [simpl; lia|].
  intros typed Htyped. set (e2 := mkEnt (approve u r) (t1 + timeout)).
  assert (heap (expire t1 qc1) !! id = Some e) as He2 by (by rewrite Hh2).
  change (r_Code (e_Request e)) with (r_Code r) in Hc2. rewrite <- Htyped in Hc2.
  rewrite (Authorize_hit typed u t1 qc1 id e Hc2 He2) by done. set (qc2 := mkQC _ _ _ _).
  assert (qc_wf qc2) as Hwf3 by (by eapply update_wf).
  destruct (Redeem_hit secret t2 qc2 id e2) as (qc3 & Hr & Hgone);
    [done|apply lookup_insert_eq|exact Hs2|done|simpl; lia|done|].
  eexists qc2, _, qc3. eauto.
Qed.

(** ** Witnesses *)

Definition demoDev : Device := mkDev "d" "Phone" "App" "1.0".

Lemma quick_connect_flow_witness :
  exists qc2 r2 qc3,
    Authorize "100 000" "alice" 5
      (mkQC {["secret" := 0%nat]} {["100000" := 0%nat]}
         {[0%nat := mkEnt (mkRequest demoDev "secret" "100000" 0 "") timeout]} 1) = (qc2, Ok r2) /\
    Redeem "secret" 9 qc2 = (qc3, Ok "alice").
Proof.
  destruct (quick_connect_flow newStore demoDev "secret" (seqZ 0 1000) "alice" 0 5 9)
    as (qc1 & r & Hi & Hs & Hflow).
  - apply newStore_wf.
  - reflexivity.
  - apply (bool_decide_unpack _). vm_compute. exact I.
  - apply NoDup_seqZ.
  - rewrite length_seqZ. apply Nat.leb_le. vm_compute. reflexivity.
  - split; vm_compute; [discriminate|reflexivity].
  - split; vm_compute; [discriminate|reflexivity].
  - discriminate.
  - assert (Initiate demoDev 0 "secret" (seqZ 0 1000) newStore =
      Some (mkQC {["secret" := 0%nat]} {["100000" := 0%nat]}
         {[0%nat := mkEnt (mkRequest demoDev "secret" "100000" 0 "") timeout]} 1,
         Ok (mkRequest demoDev "secret" "100000" 0 ""))) as Hi0 by (vm_compute; reflexivity).
    rewrite Hi0 in Hi. injection Hi as <- <-.
    destruct (Hflow "100 000" eq_refl) as (qc2 & r2 & qc3 & Ha & Hr & _).
    exists qc2, r2, qc3. split; [exact Ha|exact Hr].
Defined.

Lemma quick_connect_safe_witness :
  exists w, steps qc_step world_init w /\ (size (bySecret (w_qc w)) <= 1000)%nat.
Proof.
  exists (mkWorld (Status "s" 0 newStore).1 [] [] []).
  assert (steps qc_step world_init (mkWorld (Status "s" 0 newStore).1 [] [] [])) as Hs
    by (apply steps_one; apply (qs_status "s" 0 world_init)).
  split; [exact Hs|]. apply (quick_connect_safe _ Hs).
Defined.
