(* ===== verification/Natural.v ===== *)
(** * Natural string order

    [utils/natural/natural.go], the collation the database sorts titles with.
    A Go string is its list of bytes.  The two indexes of the loop are the
    suffixes still to be read; the loop is a recursion with fuel, for which one
    more than the length of the first string is always enough. *)

From S2P Require Import Prelude.

Local Open Scope Z_scope.

Definition isDigit (c : Z) : bool := (48 <=? c) && (c <=? 57).

Definition lower (c : Z) : Z := if (65 <=? c) && (c <=? 90) then c + 97 - 65 else c.

(** A maximal run of digits and what follows it. *)
Fixpoint digit_run (a : list Z) : list Z * list Z :=
  match a with
  | [] => ([], [])
  | c :: a' => if isDigit c then let '(d, r) := digit_run a' in (c :: d, r) else ([], a)
  end.

Fixpoint dropZeros (s : list Z) : list Z :=
  match s with
  | [] => []
  | c :: s' => if c =? 48 then dropZeros s' else s
  end.

(** All zeros leave [s[len(s)-1:]]. *)
Definition stripZeros (s : list Z) : list Z :=
  match dropZeros s with
  | [] => drop (length s - 1) s
  | t => t
  end.

(** The digit-by-digit loop, for lists of the same length. *)
Fixpoint compareDigits (sa sb : list Z) : Z :=
  match sa, sb with
  | x :: sa, y :: sb => if negb (x =? y) then x - y else compareDigits sa sb
  | _, _ => 0
  end.

Definition compareNumbers (a b : list Z) : Z :=
  let sa := stripZeros a in let sb := stripZeros b in
  if negb (length sa =? length sb)%nat then Z.of_nat (length sa) - Z.of_nat (length sb)
  else compareDigits sa sb.

(** [strings.Compare]. *)
Fixpoint strings_Compare (a b : list Z) : Z :=
  match a, b with
  | [], [] => 0
  | [], _ :: _ => -1
  | _ :: _, [] => 1
  | x :: a, y :: b => if x <? y then -1 else if y <? x then 1 else strings_Compare a b
  end.

Fixpoint compare (fuel : nat) (a b : list Z) (fold : bool) (padTie : Z) : option Z :=
  match fuel with
  | O => None
  | S fuel =>
      match a, b with
      | ca0 :: a', cb0 :: b' =>
          let da := isDigit ca0 in let db := isDigit cb0 in
          let ca := if fold then lower ca0 else ca0 in
          let cb := if fold then lower cb0 else cb0 in
          if da && db then
            let '(na, ra) := digit_run a in
            let '(nb, rb) := digit_run b in
            let c := compareNumbers na nb in
            if negb (c =? 0) then Some c
            else
              let t := strings_Compare na nb in
              compare fuel ra rb fold (if negb (t =? 0) then t else padTie)
          else if negb (Bool.eqb da db) then Some (ca - cb)
          else if negb (ca =? cb) then Some (ca - cb)
          else compare fuel a' b' fold padTie
      | _, _ =>
          let c := Z.of_nat (length a) - Z.of_nat (length b) in
          if negb (c =? 0) then Some c else Some padTie
      end
  end.

Definition Compare (a b : list Z) : option Z := compare (S (length a)) a b false 0.
Definition CompareFold (a b : list Z) : option Z := compare (S (length a)) a b true 0.

(** ** Comparison functions *)

Class GoodCmp {A} (cmp : A -> A -> comparison) : Prop := {
  cmp_opp x y : cmp y x = CompOpp (cmp x y);
  cmp_eq x y : cmp x y = Eq <-> x = y;
  cmp_trans x y z : cmp x y = Lt -> cmp y z = Lt -> cmp x z = Lt
}.

Definition andthen (c d : comparison) : comparison :=
  match c with Eq => d | _ => c end.

#[export] Instance Z_GoodCmp : GoodCmp Z.compare.
Proof.
  split; [intros; apply Z.compare_antisym|intros; apply Z.compare_eq_iff|].
  intros x y z. rewrite !Z.compare_lt_iff. lia.
Qed.

(** Lexicographic order, a prefix first. *)
Fixpoint lexc {A} (cmp : A -> A -> comparison) (a b : list A) : comparison :=
  match a, b with
  | [], [] => Eq
  | [], _ :: _ => Lt
  | _ :: _, [] => Gt
  | x :: a, y :: b => andthen (cmp x y) (lexc cmp a b)
  end.

Lemma cmp_refl {A} (cmp : A -> A -> comparison) `{!GoodCmp cmp} x : cmp x x = Eq.
Proof. by apply cmp_eq. Qed.

#[export] Instance lexc_GoodCmp {A} (cmp : A -> A -> comparison) `{!GoodCmp cmp} : GoodCmp (lexc cmp).
Proof.
  split.
  - induction x as [|x a IH]; intros [|y b]; simpl; auto. rewrite (cmp_opp (cmp := cmp) x y), IH.
    by destruct (cmp x y).
  - intros x y. split; [|intros <-; induction x; simpl; [done|]; by rewrite cmp_refl].
    revert y. induction x as [|x a IH]; intros [|y b]; simpl; try done.
    destruct (cmp x y) eqn:E; simpl; try done. apply cmp_eq in E as ->. intros H. by rewrite (IH b).
  - induction x as [|x a IH]; intros [|y b] [|z c]; simpl; try done.
    destruct (cmp x y) eqn:Exy; simpl; try done.
    + apply cmp_eq in Exy as ->. destruct (cmp y z); simpl; try done. apply IH.
    + intros _. destruct (cmp y z) eqn:Eyz; simpl; try done.
      * apply cmp_eq in Eyz as <-. by rewrite Exy.
      * intros _. by rewrite (cmp_trans _ _ _ Exy Eyz).
Qed.

Definition pairc {A B} (ca : A -> A -> comparison) (cb : B -> B -> comparison) (x y : A * B) : comparison :=
  andthen (ca x.1 y.1) (cb x.2 y.2).

#[export] Instance pairc_GoodCmp {A B} (ca : A -> A -> comparison) (cb : B -> B -> comparison)
  `{!GoodCmp ca, !GoodCmp cb} : GoodCmp (pairc ca cb).
Proof.
  split; unfold pairc.
  - intros [a b] [a' b']; simpl. rewrite (cmp_opp (cmp := ca) a a'), (cmp_opp (cmp := cb) b b'). by destruct (ca a a').
  - intros [a b] [a' b']; simpl. split.
    + destruct (ca a a') eqn:E; simpl; try done. apply cmp_eq in E as ->. by intros ->%cmp_eq.
    + intros [= <- <-]. rewrite (cmp_refl ca). simpl. apply (cmp_refl cb).
  - intros [a b] [a' b'] [a'' b'']; simpl.
    destruct (ca a a') eqn:E1; simpl; try done.
    + apply cmp_eq in E1 as ->. destruct (ca a' a''); simpl; try done. apply cmp_trans.
    + intros _. destruct (ca a' a'') eqn:E2; simpl; try done.
      * apply cmp_eq in E2 as <-. by rewrite E1.
      * intros _. by rewrite (cmp_trans _ _ _ E1 E2).
Qed.

(** ** The abstract order: numbers and characters, then the padding *)

Inductive token := TNum (d : list Z) | TChr (c : Z).

Fixpoint tokenize (a : list Z) : list token :=
  match a with
  | [] => []
  | c :: a' =>
      if isDigit c then
        match tokenize a' with
        | TNum d :: ts => TNum (c :: d) :: ts
        | ts => TNum [c] :: ts
        end
      else TChr c :: tokenize a'
  end.

(** A number sorts where the digits are, then by its magnitude. *)
Definition token_key (t : token) : list Z :=
  match t with
  | TNum d => 48 :: Z.of_nat (length (stripZeros d)) :: stripZeros d
  | TChr c => [c]
  end.

Definition token_pad (t : token) : list (list Z) :=
  match t with TNum d => [d] | TChr _ => [] end.

Definition keys_of (a : list Z) : list (list Z) := token_key <$> tokenize a.
Definition pads_of (a : list Z) : list (list Z) := tokenize a ≫= token_pad.

(** The sort key: the tokens, then the paddings, the last one first. *)
Definition key (a : list Z) : list (list Z) * list (list Z) := (keys_of a, reverse (pads_of a)).
Definition key_cmp : list (list Z) * list (list Z) -> list (list Z) * list (list Z) -> comparison :=
  pairc (lexc (lexc Z.compare)) (lexc (lexc Z.compare)).

(** ** Digit runs and tokens *)

Definition ends_run (r : list Z) : Prop :=
  match r with c :: _ => isDigit c = false | [] => True end.

Lemma digit_run_spec a d r :
  digit_run a = (d, r) -> a = d ++ r /\ Forall (fun c => isDigit c = true) d /\ ends_run r.
Proof.
  revert d r. induction a as [|c a IH]; intros d r; simpl; [by intros [= <- <-]|].
  destruct (isDigit c) eqn:E.
  - destruct (digit_run a) as [d' r']. intros [= <- <-].
    destruct (IH d' r' eq_refl) as (-> & Hd & Hr). auto.
  - intros [= <- <-]. auto.
Qed.

Lemma tokenize_not_num r : ends_run r -> forall d ts, tokenize r <> TNum d :: ts.
Proof. destruct r as [|c r]; simpl; [done|]. by intros ->. Qed.

Lemma tokenize_run d r :
  Forall (fun c => isDigit c = true) d -> d <> [] -> ends_run r ->
  tokenize (d ++ r) = TNum d :: tokenize r.
Proof.
  intros Hd Hne Hr. induction Hd as [|c d Hc Hd IH]; [done|]. simpl. rewrite Hc.
  destruct d as [|c' d].
  - simpl. pose proof (tokenize_not_num r Hr) as Hn.
    destruct (tokenize r) as [|[d0|c0] ts]; [done| |done]. by destruct (Hn d0 ts).
  - by rewrite IH.
Qed.

Lemma tokenize_nil a : tokenize a = [] -> a = [].
Proof. destruct a as [|c a]; simpl; [done|]. by repeat case_match. Qed.

(** ** Signs *)

Lemma sign_sub x y : (x - y ?= 0) = (x ?= y).
Proof.
  destruct (Z.compare_spec x y); destruct (Z.compare_spec (x - y) 0); try done; lia.
Qed.

Lemma compareDigits_sign a b :
  length a = length b -> (compareDigits a b ?= 0) = lexc Z.compare a b.
Proof.
  revert b. induction a as [|x a IH]; intros [|y b] Hl; simplify_eq/=; [done|].
  destruct (Z.eqb_spec x y) as [->|Hne]; simpl; [rewrite Z.compare_refl; by apply IH|].
  rewrite sign_sub. destruct (Z.compare_spec x y); [done|done|done].
Qed.

Lemma compareNumbers_sign a b :
  (compareNumbers a b ?= 0) = lexc Z.compare (token_key (TNum a)) (token_key (TNum b)).
Proof.
  unfold compareNumbers. simpl.
  destruct (Nat.eqb_spec (length (stripZeros a)) (length (stripZeros b))) as [El|El]; simpl.
  - rewrite El, Z.compare_refl. simpl. by apply compareDigits_sign.
  - rewrite sign_sub.
    destruct (Z.compare_spec (Z.of_nat (length (stripZeros a))) (Z.of_nat (length (stripZeros b))));
      [lia|done|done].
Qed.

Lemma strings_Compare_sign a b : (strings_Compare a b ?= 0) = lexc Z.compare a b.
Proof.
  revert b. induction a as [|x a IH]; intros [|y b]; simpl; auto.
  destruct (Z.compare_spec x y) as [->|Hlt|Hgt]; simpl.
  - rewrite Z.ltb_irrefl. apply IH.
  - by destruct (Z.ltb_spec x y); [|lia].
  - destruct (Z.ltb_spec x y); [lia|]. by destruct (Z.ltb_spec y x); [|lia].
Qed.

(** ** Paddings: the last difference decides *)

Fixpoint ties (a b : list (list Z)) : comparison :=
  match a, b with
  | x :: a, y :: b => andthen (ties a b) (lexc Z.compare x y)
  | _, _ => Eq
  end.

Lemma lexc_snoc {A} (cmp : A -> A -> comparison) a b x y :
  length a = length b -> lexc cmp (a ++ [x]) (b ++ [y]) = andthen (lexc cmp a b) (cmp x y).
Proof.
  revert b. induction a as [|x' a IH]; intros [|y' b] Hl; simplify_eq/=.
  - by destruct (cmp x y).
  - rewrite IH by done. by destruct (cmp x' y').
Qed.

Lemma ties_reverse a b :
  length a = length b -> ties a b = lexc (lexc Z.compare) (reverse a) (reverse b).
Proof.
  revert b. induction a as [|x a IH]; intros [|y b] Hl; simplify_eq/=; [done|].
  rewrite !reverse_cons, lexc_snoc by (by rewrite !length_reverse). by rewrite <- IH.
Qed.

(** Equal tokens have the same number of paddings. *)
Lemma pads_length ts ts' :
  token_key <$> ts = token_key <$> ts' ->
  length (ts ≫= token_pad) = length (ts' ≫= token_pad).
Proof.
  revert ts'. induction ts as [|t ts IH]; intros [|t' ts']; try done.
  rewrite !fmap_cons, !bind_cons, !length_app. intros [= Hk Hr]. rewrite (IH ts') by done.
  f_equal. destruct t, t'; simplify_eq/=; done.
Qed.

(** ** The loop computes the abstract order *)

(** The sign of the loop's result, from where it stands. *)
Definition loop_sign (a b : list Z) (padTie : Z) : comparison :=
  andthen (lexc (lexc Z.compare) (keys_of a) (keys_of b))
    (andthen (ties (pads_of a) (pads_of b)) (padTie ?= 0)).

Lemma loop_sign_nil a b p :
  a = [] \/ b = [] ->
  loop_sign a b p =
  ((if negb (Z.of_nat (length a) - Z.of_nat (length b) =? 0)
    then Z.of_nat (length a) - Z.of_nat (length b) else p) ?= 0).
Proof.
  unfold loop_sign, keys_of, pads_of. intros [-> | ->].
  - destruct b as [|y b]; [done|]. simpl length.
    destruct (tokenize (y :: b)) as [|t ts] eqn:E; [by apply tokenize_nil in E|]. simpl. done.
  - destruct a as [|x a]; [done|]. simpl length.
    destruct (tokenize (x :: a)) as [|t ts] eqn:E; [by apply tokenize_nil in E|]. simpl.
    destruct (tokenize (x :: a)); simpl in *; done.
Qed.

Lemma loop_sign_run d d' r r' p :
  Forall (fun c => isDigit c = true) d -> d <> [] -> ends_run r ->
  Forall (fun c => isDigit c = true) d' -> d' <> [] -> ends_run r' ->
  loop_sign (d ++ r) (d' ++ r') p =
  if negb (compareNumbers d d' =? 0) then (compareNumbers d d' ?= 0)
  else loop_sign r r' (if negb (strings_Compare d d' =? 0) then strings_Compare d d' else p).
Proof.
  intros Hd Hne Hr Hd' Hne' Hr'. unfold loop_sign, keys_of, pads_of.
  rewrite !tokenize_run, !fmap_cons, !bind_cons by done. cbn [lexc].
  rewrite <- compareNumbers_sign. cbn [token_pad app].
  destruct (Z.eqb_spec (compareNumbers d d') 0) as [->|Hn]; cbn [negb].
  - rewrite Z.compare_refl. cbn [andthen ties]. rewrite <- strings_Compare_sign.
    destruct (lexc _ _ _); cbn [andthen]; try done.
    destruct (ties _ _); cbn [andthen]; try done.
    destruct (Z.eqb_spec (strings_Compare d d') 0) as [->|Ht]; cbn [negb]; [done|].
    destruct (Z.compare_spec (strings_Compare d d') 0); done.
  - destruct (Z.compare_spec (compareNumbers d d') 0); done.
Qed.

(** A digit against something else: the bytes decide, whichever digit it is. *)
Lemma token_head c a :
  exists ks, keys_of (c :: a) = (if isDigit c then match digit_run (c :: a) with (d, _) => token_key (TNum d) end
                                 else [c]) :: ks.
Proof.
  destruct (isDigit c) eqn:E.
  - destruct (digit_run (c :: a)) as [d r] eqn:Er. pose proof (digit_run_spec _ _ _ Er) as (Ha & Hd & Hr).
    rewrite Ha. unfold keys_of. rewrite tokenize_run; [by eexists|done| |done].
    intros ->. simpl in Er. rewrite E in Er. by destruct (digit_run a).
  - unfold keys_of. simpl. rewrite E. by eexists.
Qed.

Lemma loop_sign_mixed x a y b p :
  isDigit x <> isDigit y -> loop_sign (x :: a) (y :: b) p = (x - y ?= 0).
Proof.
  intros Hne. unfold loop_sign.
  destruct (token_head x a) as [k1 ->], (token_head y b) as [k2 ->]. rewrite sign_sub.
  destruct (isDigit x) eqn:Ex, (isDigit y) eqn:Ey; try done;
    [destruct (digit_run (x :: a))|destruct (digit_run (y :: b))]; cbn [lexc token_key];
    unfold isDigit in *; bprop.
  - destruct (Z.compare_spec 48 y), (Z.compare_spec x y); try done; lia.
  - destruct (Z.compare_spec x 48), (Z.compare_spec x y); try done; lia.
Qed.

Lemma loop_sign_chars x a y b p :
  isDigit x = false -> isDigit y = false ->
  loop_sign (x :: a) (y :: b) p = if negb (x =? y) then (x - y ?= 0) else loop_sign a b p.
Proof.
  intros Hx Hy. unfold loop_sign, keys_of, pads_of. simpl. rewrite Hx, Hy. simpl.
  rewrite sign_sub. destruct (Z.eqb_spec x y) as [->|Hne]; simpl.
  - by rewrite Z.compare_refl.
  - destruct (Z.compare_spec x y); done.
Qed.

(** With enough fuel the loop returns, and its sign is the abstract order's. *)
Lemma compare_sign fuel : forall a b p,
  (length a < fuel)%nat ->
  exists r, compare fuel a b false p = Some r /\ (r ?= 0) = loop_sign a b p.
Proof.
  induction fuel as [|fuel IH]; intros a b p Hf; [lia|].
  assert (a = [] \/ b = [] -> exists r, compare (S fuel) a b false p = Some r /\ (r ?= 0) = loop_sign a b p)
    as Hnil.
  { intros Hab. rewrite loop_sign_nil by done. simpl.
    destruct a as [|x a]; [|destruct b as [|y b]; [|by destruct Hab]]; case_match; (eexists; split; [reflexivity|done]). }
  destruct a as [|x a]; [by apply Hnil; left|]. destruct b as [|y b]; [by apply Hnil; right|].
  clear Hnil. cbn [compare]. destruct (isDigit x && isDigit y) eqn:Edd.
  - bprop. destruct Edd as [Ex Ey].
    destruct (digit_run (x :: a)) as [d r] eqn:Er, (digit_run (y :: b)) as [d' r'] eqn:Er'.
    pose proof (digit_run_spec _ _ _ Er) as (Ha & Hd & Hr).
    pose proof (digit_run_spec _ _ _ Er') as (Hb & Hd' & Hr').
    assert (d <> []) as Hne by (intros ->; simpl in Er; rewrite Ex in Er; by destruct (digit_run a)).
    assert (d' <> []) as Hne' by (intros ->; simpl in Er'; rewrite Ey in Er'; by destruct (digit_run b)).
    rewrite Ha, Hb, loop_sign_run by done.
    destruct (negb (compareNumbers d d' =? 0)); [eexists; split; [reflexivity|done]|]. apply IH.
    rewrite Ha, length_app in Hf. destruct d; simpl in Hf; [done|lia].
  - destruct (Bool.eqb (isDigit x) (isDigit y)) eqn:Exy; cbn [negb].
    + apply Bool.eqb_prop in Exy. assert (isDigit x = false /\ isDigit y = false) as [Hx Hy].
      { rewrite Exy in *. by destruct (isDigit y). }
      rewrite loop_sign_chars by done. destruct (negb (x =? y)); [eexists; split; [reflexivity|done]|].
      apply IH. simpl in Hf. lia.
    + apply Bool.eqb_false_iff in Exy. rewrite loop_sign_mixed by done. eexists; split; [reflexivity|done].
Qed.

(** ** Folding *)

Lemma isDigit_lower c : isDigit (lower c) = isDigit c.
Proof.
  unfold lower. destruct ((65 <=? c) && (c <=? 90)) eqn:E; [|done]. unfold isDigit. bprop.
  destruct (Z.leb_spec 48 (c + 97 - 65)), (Z.leb_spec (c + 97 - 65) 57),
    (Z.leb_spec 48 c), (Z.leb_spec c 57); simpl; try done; lia.
Qed.

Lemma lower_digit c : isDigit c = true -> lower c = c.
Proof. unfold isDigit, lower. intros. case_cond; [|done]. bprop. lia. Qed.

Lemma digit_run_lower a : digit_run (lower <$> a) = ((digit_run a).1, lower <$> (digit_run a).2).
Proof.
  induction a as [|c a IH]; [done|]. rewrite fmap_cons. cbn [digit_run]. rewrite isDigit_lower.
  destruct (isDigit c) eqn:E; [|done].
  rewrite IH. destruct (digit_run a). simpl. by rewrite lower_digit.
Qed.

(** Folding compares the folded strings. *)
Lemma compare_fold fuel : forall a b p,
  compare fuel a b true p = compare fuel (lower <$> a) (lower <$> b) false p.
Proof.
  induction fuel as [|fuel IH]; intros a b p; [done|].
  destruct a as [|x a], b as [|y b]; try (simpl; by rewrite ?length_fmap).
  rewrite !fmap_cons. cbn [compare]. rewrite <- !fmap_cons, !isDigit_lower, !digit_run_lower.
  destruct (digit_run (x :: a)) as [d r], (digit_run (y :: b)) as [d' r']. cbn [fst snd].
  repeat case_match; try done; apply IH.
Qed.

(** ** The key determines the string *)

Fixpoint untokenize (ts : list token) : list Z :=
  match ts with
  | [] => []
  | TNum d :: ts => d ++ untokenize ts
  | TChr c :: ts => c :: untokenize ts
  end.

Lemma untokenize_tokenize a : untokenize (tokenize a) = a.
Proof.
  induction a as [|c a IH]; simpl; [done|]. destruct (isDigit c); [|simpl; by rewrite IH].
  destruct (tokenize a) as [|[d|c'] ts]; simpl in *; by rewrite <- IH.
Qed.

Lemma tokens_inj ts ts' :
  token_key <$> ts = token_key <$> ts' -> ts ≫= token_pad = ts' ≫= token_pad -> ts = ts'.
Proof.
  revert ts'. induction ts as [|t ts IH]; intros [|t' ts']; try done.
  rewrite !fmap_cons, !bind_cons. intros [= Hk Hr] Hp.
  destruct t as [d|c], t' as [d'|c']; simplify_eq/=; f_equal; auto.
Qed.

Lemma key_inj a b : key a = key b -> a = b.
Proof.
  unfold key. intros [= Hk Hp]. apply (inj reverse) in Hp.
  rewrite <- (untokenize_tokenize a), <- (untokenize_tokenize b). f_equal. by apply tokens_inj.
Qed.

Lemma loop_sign_key a b : loop_sign a b 0 = key_cmp (key a) (key b).
Proof.
  unfold loop_sign, key_cmp, pairc, key. simpl.
  destruct (lexc (lexc Z.compare) (keys_of a) (keys_of b)) eqn:E; simpl; try done.
  apply cmp_eq in E. unfold pads_of. rewrite (ties_reverse _ _ (pads_length _ _ E)).
  by destruct (lexc _ _ _).
Qed.

(** The folded or plain bytes. *)
Definition folded (fold : bool) (a : list Z) : list Z := if fold then lower <$> a else a.

Lemma compare_key fold a b :
  exists r, compare (S (length a)) a b fold 0 = Some r /\
    (r ?= 0) = key_cmp (key (folded fold a)) (key (folded fold b)).
Proof.
  destruct fold; simpl folded; rewrite <- loop_sign_key.
  - rewrite compare_fold. apply compare_sign. rewrite length_fmap. lia.
  - apply compare_sign. lia.
Qed.

Section order.
Context (fold : bool).

(** The result for strings [a] and [b]; the loop always returns one. *)
Definition order (a b : list Z) : Z := default 0 (compare (S (length a)) a b fold 0).

Lemma order_key a b :
  (order a b ?= 0) = key_cmp (key (folded fold a)) (key (folded fold b)).
Proof. destruct (compare_key fold a b) as (r & Hr & Hs). unfold order. by rewrite Hr. Qed.
End order.

(** Natural comparison always returns, and it is a total order on strings up
    to folding, as the database requires of a collation: zero exactly for equal
    strings, reversing the arguments reverses the sign, and it is transitive,
    paddings such as "01" and "1" included; both variants. *)
Theorem natural_total_order (fold : bool) (a b c : list Z) :
  is_Some (compare (S (length a)) a b fold 0) /\
  (order fold a b = 0 <-> folded fold a = folded fold b) /\
  Z.sgn (order fold b a) = - Z.sgn (order fold a b) /\
  (order fold a b <= 0 -> order fold b c <= 0 -> order fold a c <= 0).
Proof.
  pose proof (order_key fold a b) as Hab. pose proof (order_key fold b a) as Hba.
  pose proof (order_key fold b c) as Hbc. pose proof (order_key fold a c) as Hac.
  assert (GoodCmp key_cmp) as Hgood by apply _.
  set (ka := key (folded fold a)) in *. set (kb := key (folded fold b)) in *.
  set (kc := key (folded fold c)) in *. split_and!.
  - destruct (compare_key fold a b) as (r & -> & _). eauto.
  - split.
    + intros E. apply key_inj, (cmp_eq (cmp := key_cmp)). fold ka kb. by rewrite <- Hab, E.
    + intros E. apply Z.compare_eq. rewrite Hab. unfold ka, kb. rewrite E. apply (cmp_refl key_cmp).
  - rewrite (cmp_opp (cmp := key_cmp) ka kb), <- Hab in Hba.
    destruct (Z.compare_spec (order fold a b) 0), (Z.compare_spec (order fold b a) 0);
      simplify_eq/=; lia.
  - intros H1 H2. destruct (key_cmp ka kb) eqn:E1, (key_cmp kb kc) eqn:E2;
      rewrite ?Z.compare_gt_iff in *; try lia.
    + apply cmp_eq in E1, E2. rewrite E1, E2, (cmp_refl key_cmp) in Hac. apply Z.compare_eq in Hac. lia.
    + apply cmp_eq in E1. rewrite E1, E2 in Hac. rewrite Z.compare_lt_iff in Hac. lia.
    + apply cmp_eq in E2. rewrite <- E2, E1 in Hac. rewrite Z.compare_lt_iff in Hac. lia.
    + rewrite (cmp_trans _ _ _ E1 E2), Z.compare_lt_iff in Hac. lia.
Qed.

(** "file2" sorts before "file10", and "a01" before "a1". *)
Example natural_examples :
  Compare [102; 50] [102; 49; 48] = Some (-1) /\ Compare [97; 48; 49] [97; 49] = Some (-1) /\
  CompareFold [65; 49] [97; 49] = Some 0.
Proof. vm_compute. auto. Qed.
