(* ===== verification/ShellQuote.v ===== *)
(** * Shell words

    [utils/shellquote/shellquote.go], which splits the configured command of the
    player into words.  A string is its list of bytes; the index of the
    loop is the input still to be read. *)

From S2P Require Import Prelude.

Local Open Scope Z_scope.

Inductive quote_error := ErrUnterminatedSingleQuote | ErrUnterminatedDoubleQuote | ErrUnterminatedEscape.

Inductive state := stateUnquoted | stateSingleQuoted | stateDoubleQuoted.

(** The bytes the code names. *)
Definition TAB : Z := 9.
Definition NL : Z := 10.
Definition SPACE : Z := 32.
Definition DQUOTE : Z := 34.
Definition DOLLAR : Z := 36.
Definition SQUOTE : Z := 39.
Definition BSLASH : Z := 92.
Definition BTICK : Z := 96.

(** What a backslash escapes between double quotes. *)
Definition dq_escapable (next : Z) : bool :=
  (next =? DOLLAR) || (next =? BTICK) || (next =? DQUOTE) || (next =? NL) || (next =? BSLASH).

Definition is_blank (ch : Z) : bool := (ch =? SPACE) || (ch =? TAB) || (ch =? NL).

(** The loop: the rest of the input, [parseState], [word], [inWord], [words]. *)
Fixpoint split_loop (input : list Z) (st : state) (word : list Z) (inWord : bool)
  (words : list (list Z)) : result quote_error (list (list Z)) :=
  match input with
  | [] =>
      match st with
      | stateSingleQuoted => Err ErrUnterminatedSingleQuote
      | stateDoubleQuoted => Err ErrUnterminatedDoubleQuote
      | stateUnquoted => Ok (if inWord then words ++ [word] else words)
      end
  | ch :: input' =>
      match st with
      | stateUnquoted =>
          if ch =? BSLASH then
            match input' with
            | [] => Err ErrUnterminatedEscape
            | next :: input'' =>
                if next =? NL then split_loop input'' st word inWord words
                else split_loop input'' st (word ++ [next]) true words
            end
          else if ch =? SQUOTE then split_loop input' stateSingleQuoted word true words
          else if ch =? DQUOTE then split_loop input' stateDoubleQuoted word true words
          else if is_blank ch then
            if inWord then split_loop input' st [] false (words ++ [word])
            else split_loop input' st word inWord words
          else split_loop input' st (word ++ [ch]) true words
      | stateSingleQuoted =>
          if ch =? SQUOTE then split_loop input' stateUnquoted word inWord words
          else split_loop input' st (word ++ [ch]) inWord words
      | stateDoubleQuoted =>
          if ch =? DQUOTE then split_loop input' stateUnquoted word inWord words
          else if ch =? BSLASH then
            match input' with
            | [] => Err ErrUnterminatedEscape
            | next :: input'' =>
                if dq_escapable next then
                  if next =? NL then split_loop input'' st word inWord words
                  else split_loop input'' st (word ++ [next]) inWord words
                else split_loop input' st (word ++ [ch]) inWord words
            end
          else split_loop input' st (word ++ [ch]) inWord words
      end
  end.

Definition Split (input : list Z) : result quote_error (list (list Z)) :=
  split_loop input stateUnquoted [] false [].

(** ** Ways to write a word *)

Inductive style := Single | Double | Escaped.

(** Between single quotes a quote is written by leaving them: ['\'']. *)
Definition single_char (c : Z) : list Z :=
  if c =? SQUOTE then [SQUOTE; BSLASH; SQUOTE; SQUOTE] else [c].
(** Between double quotes four characters are escaped. *)
Definition double_char (c : Z) : list Z :=
  if (c =? DOLLAR) || (c =? BTICK) || (c =? DQUOTE) || (c =? BSLASH) then [BSLASH; c] else [c].
Definition escaped_char (c : Z) : list Z := [BSLASH; c].

Definition quote (s : style) (w : list Z) : list Z :=
  match s with
  | Single => SQUOTE :: (w ≫= single_char) ++ [SQUOTE]
  | Double => DQUOTE :: (w ≫= double_char) ++ [DQUOTE]
  | Escaped => w ≫= escaped_char
  end.

(** Escaping alone cannot write the empty word or a newline. *)
Definition quotable (sw : style * list Z) : Prop :=
  sw.1 = Escaped -> sw.2 <> [] /\ NL ∉ sw.2.

(** A command line: words separated by at least one blank, maybe surrounded. *)
Inductive written : list (style * list Z) -> list Z -> Prop :=
| written_nil : written [] []
| written_blank ws b s : is_blank b = true -> written ws s -> written ws (b :: s)
| written_last q w : quotable (q, w) -> written [(q, w)] (quote q w)
| written_word q w ws b s :
    quotable (q, w) -> is_blank b = true -> written ws s ->
    written ((q, w) :: ws) (quote q w ++ b :: s).

Lemma single_body w : forall word ws rest,
  split_loop ((w ≫= single_char) ++ SQUOTE :: rest) stateSingleQuoted word true ws =
  split_loop rest stateUnquoted (word ++ w) true ws.
Proof.
  induction w as [|c w IH]; intros word ws rest; [by rewrite app_nil_r|].
  rewrite bind_cons, <- app_assoc. unfold single_char at 1.
  destruct (Z.eqb_spec c SQUOTE) as [->|Hc].
  - cbn. rewrite IH, <- app_assoc. done.
  - cbn [app split_loop]. destruct (Z.eqb_spec c SQUOTE); [done|].
    rewrite IH, <- app_assoc. done.
Qed.

Lemma double_body w : forall word ws rest,
  split_loop ((w ≫= double_char) ++ DQUOTE :: rest) stateDoubleQuoted word true ws =
  split_loop rest stateUnquoted (word ++ w) true ws.
Proof.
  induction w as [|c w IH]; intros word ws rest; [by rewrite app_nil_r|].
  rewrite bind_cons, <- app_assoc. unfold double_char at 1.
  destruct ((c =? DOLLAR) || (c =? BTICK) || (c =? DQUOTE) || (c =? BSLASH)) eqn:E.
  - assert (dq_escapable c = true /\ c <> NL) as [He Hn].
    { unfold dq_escapable. bprop. unfold DOLLAR, BTICK, DQUOTE, BSLASH, NL in *. lia. }
    cbn [app split_loop]. change (BSLASH =? DQUOTE) with false. change (BSLASH =? BSLASH) with true.
    rewrite He. destruct (Z.eqb_spec c NL); [done|]. rewrite IH, <- app_assoc. done.
  - cbn [app split_loop]. bprop. destruct E as [[[E1 E2] E3] E4].
    destruct (Z.eqb_spec c DQUOTE); [done|]. destruct (Z.eqb_spec c BSLASH); [done|].
    rewrite IH, <- app_assoc. done.
Qed.

Lemma escaped_body w : forall word inWord ws rest,
  NL ∉ w -> w <> [] ->
  split_loop ((w ≫= escaped_char) ++ rest) stateUnquoted word inWord ws =
  split_loop rest stateUnquoted (word ++ w) true ws.
Proof.
  induction w as [|c w IH]; intros word inWord ws rest Hnl Hne; [done|].
  rewrite bind_cons. cbn [escaped_char app split_loop]. change (BSLASH =? BSLASH) with true. cbn.
  apply not_elem_of_cons in Hnl as [Hc Hnl]. destruct (Z.eqb_spec c NL); [by subst|].
  destruct w as [|c' w]; [done|]. rewrite IH by done. by rewrite <- app_assoc.
Qed.

(** A quoted word is read as one word, whatever follows. *)
Lemma quote_read q w ws rest :
  quotable (q, w) ->
  split_loop (quote q w ++ rest) stateUnquoted [] false ws =
  split_loop rest stateUnquoted w true ws.
Proof.
  intros Hq. destruct q; cbn [quote].
  - cbn [app split_loop]. rewrite <- app_assoc. apply single_body.
  - cbn [app split_loop]. rewrite <- app_assoc. apply double_body.
  - destruct (Hq eq_refl) as [Hne Hnl]. by rewrite escaped_body.
Qed.

Lemma blank_read b word inWord ws rest :
  is_blank b = true ->
  split_loop (b :: rest) stateUnquoted word inWord ws =
  if inWord then split_loop rest stateUnquoted [] false (ws ++ [word])
  else split_loop rest stateUnquoted word inWord ws.
Proof.
  intros Hb. assert (b <> BSLASH /\ b <> SQUOTE /\ b <> DQUOTE) as (H1 & H2 & H3).
  { unfold is_blank in Hb. bprop. unfold SPACE, TAB, NL, BSLASH, SQUOTE, DQUOTE in *. lia. }
  cbn [split_loop]. destruct (Z.eqb_spec b BSLASH); [done|]. destruct (Z.eqb_spec b SQUOTE); [done|].
  destruct (Z.eqb_spec b DQUOTE); [done|]. by rewrite Hb.
Qed.

Lemma written_read sws s : written sws s -> forall ws,
  split_loop s stateUnquoted [] false ws = Ok (ws ++ sws.*2).
Proof.
  induction 1 as [|sws b s Hb _ IH|q w Hq|q w sws b s Hq Hb _ IH]; intros ws.
  - by rewrite app_nil_r.
  - by rewrite blank_read.
  - rewrite <- (app_nil_r (quote q w)), quote_read by done. done.
  - rewrite quote_read, blank_read by done. rewrite IH, <- app_assoc. done.
Qed.

(** Splitting reads back every command line: words written between single
    quotes, between double quotes or with every character escaped, separated
    and surrounded by any blanks, come out exactly as they were, in order. *)
Theorem split_written sws s : written sws s -> Split s = Ok sws.*2.
Proof. intros Hw. unfold Split. by rewrite (written_read _ _ Hw). Qed.

(** The words ["it's"] and [a b]. *)
Lemma split_written_witness :
  Split (SPACE :: quote Single [105; 116; 39; 115] ++ TAB :: quote Double [97; 32; 98])
  = Ok [[105; 116; 39; 115]; [97; 32; 98]].
Proof.
  apply (split_written [(Single, [105; 116; 39; 115]); (Double, [97; 32; 98])]).
  apply written_blank; [reflexivity|]. apply written_word; [done|reflexivity|].
  by apply written_last.
Defined.
