(* ===== verification/Commands.v ===== *)
(** * Command lines for ffmpeg and mpv

    The argument builders of [core/ffmpeg/ffmpeg.go] and
    [core/playback/mpv/mpv.go].  A command line is a list of arguments and an
    argument its list of bytes; the resolved paths of the programs are
    arguments of the definitions. *)

From S2P Require Import Prelude GoStrings Model StreamDecider ShellQuote.

Local Open Scope Z_scope.

(** The bytes of a string. *)
Definition bs (s : string) : list Z :=
  (fun c => Z.of_nat (Ascii.nat_of_ascii c)) <$> String.list_ascii_of_string s.

(** The bytes of [strconv.Itoa]. *)
Definition itoa (z : Z) : list Z := bs (Itoa z).

(** A two-byte placeholder such as ["%s"]. *)
Definition PERCENT : Z := 37.

(** [strings.Contains(s, "%c")]. *)
Fixpoint has_placeholder (c : Z) (s : list Z) : bool :=
  match s with
  | x :: ((y :: _) as s') => ((x =? PERCENT) && (y =? c)) || has_placeholder c s'
  | _ => false
  end.

(** [strings.ReplaceAll(s, "%c", new)]. *)
Fixpoint replace_placeholder (c : Z) (new s : list Z) : list Z :=
  match s with
  | x :: ((y :: s'') as s') =>
      if (x =? PERCENT) && (y =? c) then new ++ replace_placeholder c new s''
      else x :: replace_placeholder c new s'
  | _ => s
  end.

Definition S_ : Z := 115.
Definition T_ : Z := 116.
Definition B_ : Z := 98.
Definition D_ : Z := 100.
Definition F_ : Z := 102.

(** [strings.Fields] of an ASCII template. *)
Definition is_space (c : Z) : bool := (c =? 32) || ((9 <=? c) && (c <=? 13)).

Fixpoint fields_from (word s : list Z) : list (list Z) :=
  match s with
  | [] => match word with [] => [] | _ => [word] end
  | c :: s =>
      if is_space c then match word with [] => fields_from [] s | _ => word :: fields_from [] s end
      else fields_from (word ++ [c]) s
  end.
Definition Fields (s : list Z) : list (list Z) := fields_from [] s.

(** ** ffmpeg

    [Duration] of the options is read only when the header of the output is
    repaired, after the command has started, and is left out. *)

Record TranscodeOptions := mkOptions {
  to_Command : string; to_Format : string; to_FilePath : list Z;
  to_BitRate : Z; to_SampleRate : Z; to_Channels : Z; to_BitDepth : Z; to_Offset : Z }.

Definition formatCodecMap : list (string * string) :=
  [("mp3", "libmp3lame"); ("opus", "libopus"); ("aac", "aac"); ("flac", "flac")].
Definition formatOutputMap : list (string * string) :=
  [("mp3", "mp3"); ("opus", "opus"); ("aac", "adts"); ("flac", "flac")].

Definition assoc (k : string) (m : list (string * string)) : option string :=
  snd <$> List.find (fun kv => String.eqb kv.1 k) m.

(** The last default for the format, or the zero value of the map. *)
Definition isDefaultCommand (format command : string) : bool :=
  String.eqb (default "" (trc_Command <$>
    List.find (fun t => String.eqb (trc_TargetFormat t) format) (reverse DefaultTranscodings))) command.

Definition isLosslessOutputFormat (format : string) : bool :=
  existsb (String.eqb (ToLower format)) ["flac"; "alac"; "wav"; "aiff"].

Definition bitDepthToSampleFmt (bitDepth : Z) : list Z :=
  if bitDepth =? 16 then bs "s16" else if bitDepth =? 32 then bs "s32" else bs "s32".

Definition DASH : list Z := bs "-".

Definition injectBeforeOutput (args : list (list Z)) (flag value : list Z) : list (list Z) :=
  match reverse args with
  | a :: front => if bool_decide (a = DASH) then reverse front ++ [flag; value; DASH]
                  else args ++ [flag; value]
  | [] => args ++ [flag; value]
  end.

Definition injectDynamicAudioFlags (args : list (list Z)) (opts : TranscodeOptions) : list (list Z) :=
  let args := if to_SampleRate opts >? 0 then injectBeforeOutput args (bs "-ar") (itoa (to_SampleRate opts)) else args in
  let args := if to_Channels opts >? 0 then injectBeforeOutput args (bs "-ac") (itoa (to_Channels opts)) else args in
  if (to_BitDepth opts >=? 16) && isLosslessOutputFormat (to_Format opts)
  then injectBeforeOutput args (bs "-sample_fmt") (bitDepthToSampleFmt (to_BitDepth opts)) else args.

Definition buildDynamicArgs (cmdPath : list Z) (opts : TranscodeOptions) : list (list Z) :=
  let args := [cmdPath] in
  let args := if to_Offset opts >? 0 then args ++ [bs "-ss"; itoa (to_Offset opts)] else args in
  let args := args ++ [bs "-i"; to_FilePath opts] in
  let args := args ++ [bs "-map"; bs "0:a:0"] in
  let args := args ++ [bs "-map_metadata"; bs "0"; bs "-map_metadata"; bs "0:s:a:0"] in
  let args := match assoc (to_Format opts) formatCodecMap with
              | Some codec => args ++ [bs "-c:a"; bs codec] | None => args end in
  let args := if to_BitRate opts >? 0 then args ++ [bs "-b:a"; itoa (to_BitRate opts) ++ bs "k"] else args in
  let args := injectDynamicAudioFlags args opts in
  let args := args ++ [bs "-v"; bs "0"] in
  let args := match assoc (to_Format opts) formatOutputMap with
              | Some f => args ++ [bs "-f"; bs f] | None => args end in
  args ++ [DASH].

(** [fixCmd]: the words of the template with the program names resolved. *)
Definition fix_word (cmdPath probePath : list Z) (s : list Z) : list Z :=
  if bool_decide (s = bs "ffprobe") || bool_decide (s = bs "ffprobe.exe") then probePath
  else if bool_decide (s = bs "ffmpeg") || bool_decide (s = bs "ffmpeg.exe") then cmdPath
  else s.
Definition fixCmd (cmdPath probePath cmd : list Z) : list (list Z) :=
  fix_word cmdPath probePath <$> Fields cmd.

(** The index of the last ["-i"], or the length. *)
Definition insert_at (args : list (list Z)) : nat :=
  match list_find (fun a => a = bs "-i") (reverse args) with
  | Some (i, _) => length args - 1 - i
  | None => length args
  end.

(** One word of the template. *)
Definition ffmpeg_word (cmd path : list Z) (maxBitRate offset : Z) (args : list (list Z)) (s : list Z)
  : list (list Z) :=
  if has_placeholder S_ s then
    let args := if (offset >? 0) && negb (has_placeholder T_ cmd)
                then take (insert_at args) args ++ [bs "-ss"; itoa offset] ++ drop (insert_at args) args
                else args in
    args ++ [replace_placeholder S_ path s]
  else args ++ [replace_placeholder B_ (itoa maxBitRate) (replace_placeholder T_ (itoa offset) s)].

Definition createFFmpegCommand (cmdPath probePath cmd path : list Z) (maxBitRate offset : Z)
  : list (list Z) :=
  foldl (ffmpeg_word cmd path maxBitRate offset) [] (fixCmd cmdPath probePath cmd).

Definition buildTemplateArgs (cmdPath probePath : list Z) (opts : TranscodeOptions) : list (list Z) :=
  injectDynamicAudioFlags
    (createFFmpegCommand cmdPath probePath (bs (to_Command opts)) (to_FilePath opts)
       (to_BitRate opts) (to_Offset opts)) opts.

(** The arguments [Transcode] starts ffmpeg with. *)
Definition transcodeArgs (cmdPath probePath : list Z) (opts : TranscodeOptions) : list (list Z) :=
  if isDefaultCommand (to_Format opts) (to_Command opts) then buildDynamicArgs cmdPath opts
  else buildTemplateArgs cmdPath probePath opts.

(** ** mpv *)

(** The three replacements, in the order of the code. *)
Definition mpv_word (deviceName filename socketName arg : list Z) : list Z :=
  replace_placeholder S_ socketName
    (replace_placeholder F_ filename (replace_placeholder D_ deviceName arg)).

(** [mpvPath] is [None] when the program is not found. *)
Definition createMPVCommand (template : list Z) (mpvPath : option (list Z))
  (deviceName filename socketName : list Z) : list (list Z) :=
  match Split template with
  | Err _ => []
  | Ok templateArgs =>
      let args := mpv_word deviceName filename socketName <$> templateArgs in
      match args, mpvPath with
      | a :: rest, Some p =>
          if bool_decide (a = bs "mpv") || bool_decide (a = bs "mpv.exe") then p :: rest else args
      | _, _ => args
      end
  end.

(** ** Placeholders *)

Lemma replace_absent c new s : has_placeholder c s = false -> replace_placeholder c new s = s.
Proof.
  induction s as [|x s IH]; [done|]. cbn [has_placeholder replace_placeholder].
  destruct s as [|y s]; [done|]. rewrite orb_false_iff. intros [-> Hs].
  by rewrite IH.
Qed.

Lemma replace_exact c new : replace_placeholder c new [PERCENT; c] = new.
Proof. cbn. rewrite Z.eqb_refl. cbn. by rewrite app_nil_r. Qed.

(** ** Flags before the output *)

Lemma bs_inj a b : bs a = bs b -> a = b.
Proof.
  unfold bs. intros H. apply list_fmap_eq_inj in H.
  - rewrite <- (String.string_of_list_ascii_of_string a), <- (String.string_of_list_ascii_of_string b).
    by rewrite H.
  - intros x y Hxy. apply Nat2Z.inj in Hxy.
    rewrite <- (Ascii.ascii_nat_embedding x), <- (Ascii.ascii_nat_embedding y). by rewrite Hxy.
Qed.

Lemma itoa_not_dash z : 0 < z -> itoa z <> DASH.
Proof.
  intros Hz Hd. apply bs_inj in Hd. destruct z as [|p|p]; [lia| |lia].
  unfold Itoa, pretty, pretty_Z, pretty, pretty_positive, pretty, pretty_N in Hd.
  rewrite decide_False in Hd by done.
  by apply (pretty_N_go_ne_dash (Npos p) "" "") in Hd.
Qed.

(** Arguments that do not end with the output. *)
Definition open_args (args : list (list Z)) : Prop := forall front, args <> front ++ [DASH].

Lemma open_snoc args a : a <> DASH -> open_args (args ++ [a]).
Proof. intros Ha front Hf. apply app_inj_2 in Hf as [_ Hf]; [|done]. by simplify_eq. Qed.

Lemma open_pair args a b : b <> DASH -> open_args (args ++ [a; b]).
Proof. intros Hb. change [a; b] with ([a] ++ [b]). rewrite app_assoc. by apply open_snoc. Qed.

Lemma inject_open args flag value :
  open_args args -> injectBeforeOutput args flag value = args ++ [flag; value].
Proof.
  unfold injectBeforeOutput. intros Ho. destruct args as [|a front _] using rev_ind; [done|].
  rewrite reverse_app. simpl. case_bool_decide as Ha; [|done]. subst. by destruct (Ho front).
Qed.

Lemma inject_output front flag value :
  injectBeforeOutput (front ++ [DASH]) flag value = (front ++ [flag; value]) ++ [DASH].
Proof.
  unfold injectBeforeOutput. rewrite reverse_app. change (reverse [DASH]) with [DASH]. cbn [app].
  rewrite bool_decide_eq_true_2 by done. by rewrite reverse_involutive, <- app_assoc.
Qed.

(** Where flags go: before a final output, or at the end. *)
Definition slot (front back : list (list Z)) : Prop :=
  back = [DASH] \/ back = [] /\ open_args front.

Lemma inject_slot (b : bool) front back flag value :
  slot front back -> (b = true -> value <> DASH) ->
  let front' := front ++ (if b then [flag; value] else []) in
  (if b then injectBeforeOutput (front ++ back) flag value else front ++ back) = front' ++ back /\
  slot front' back.
Proof.
  intros Hs Hv. destruct b; [|by rewrite app_nil_r]. destruct Hs as [->|[-> Ho]].
  - rewrite inject_output. split; [done|by left].
  - cbn zeta. rewrite !app_nil_r. split; [by apply inject_open|]. right. split; [done|]. by apply open_pair, Hv.
Qed.

(** The flags a decision asks for, each only when it constrains something. *)
Definition audio_flags (opts : TranscodeOptions) : list (list Z) :=
  (if to_SampleRate opts >? 0 then [bs "-ar"; itoa (to_SampleRate opts)] else []) ++
  (if to_Channels opts >? 0 then [bs "-ac"; itoa (to_Channels opts)] else []) ++
  (if (to_BitDepth opts >=? 16) && isLosslessOutputFormat (to_Format opts)
   then [bs "-sample_fmt"; bitDepthToSampleFmt (to_BitDepth opts)] else []).

Lemma inject_flags front back opts :
  slot front back ->
  injectDynamicAudioFlags (front ++ back) opts = (front ++ audio_flags opts) ++ back.
Proof.
  intros Hs. unfold injectDynamicAudioFlags, audio_flags.
  destruct (inject_slot (to_SampleRate opts >? 0) front back (bs "-ar") (itoa (to_SampleRate opts)) Hs)
    as [-> Hs1]; [intros; bprop; by apply itoa_not_dash|].
  destruct (inject_slot (to_Channels opts >? 0) _ back (bs "-ac") (itoa (to_Channels opts)) Hs1)
    as [-> Hs2]; [intros; bprop; by apply itoa_not_dash|].
  destruct (inject_slot ((to_BitDepth opts >=? 16) && isLosslessOutputFormat (to_Format opts)) _ back
    (bs "-sample_fmt") (bitDepthToSampleFmt (to_BitDepth opts)) Hs2) as [-> _].
  { intros _. unfold bitDepthToSampleFmt. by repeat case_match. }
  by rewrite <- !app_assoc.
Qed.

(** ** The whole command lines *)

Definition codec_flags (opts : TranscodeOptions) : list (list Z) :=
  (match assoc (to_Format opts) formatCodecMap with Some c => [bs "-c:a"; bs c] | None => [] end) ++
  (if to_BitRate opts >? 0 then [bs "-b:a"; itoa (to_BitRate opts) ++ bs "k"] else []).

Lemma assoc_codec_not_dash f c : assoc f formatCodecMap = Some c -> bs c <> DASH.
Proof.
  unfold assoc. intros (kv & Hf & ->)%fmap_Some. apply find_some in Hf as [Hin _].
  simpl in Hin. by destruct Hin as [<-|[<-|[<-|[<-|[]]]]].
Qed.

Lemma bitrate_not_dash z : itoa z ++ bs "k" <> DASH.
Proof.
  intros H. apply (f_equal reverse) in H. rewrite reverse_app in H.
  change (reverse (bs "k")) with [107] in H. change (reverse DASH) with [45] in H. discriminate H.
Qed.

Lemma codec_flags_open args opts : open_args args -> open_args (args ++ codec_flags opts).
Proof.
  intros Ho. unfold codec_flags. rewrite app_assoc.
  assert (open_args (args ++ match assoc (to_Format opts) formatCodecMap with
                             | Some c => [bs "-c:a"; bs c] | None => [] end)) as Ho1.
  { destruct (assoc (to_Format opts) formatCodecMap) eqn:E; [|by rewrite app_nil_r].
    apply open_pair. by eapply assoc_codec_not_dash. }
  destruct (to_BitRate opts >? 0); [|by rewrite app_nil_r]. apply open_pair, bitrate_not_dash.
Qed.

(** The arguments up to the metadata flags. *)
Definition input_args (cmdPath : list Z) (opts : TranscodeOptions) : list (list Z) :=
  [cmdPath] ++ (if to_Offset opts >? 0 then [bs "-ss"; itoa (to_Offset opts)] else []) ++
  [bs "-i"; to_FilePath opts; bs "-map"; bs "0:a:0";
   bs "-map_metadata"; bs "0"; bs "-map_metadata"; bs "0:s:a:0"].

Lemma buildDynamicArgs_spec cmdPath opts :
  buildDynamicArgs cmdPath opts =
  input_args cmdPath opts ++ codec_flags opts ++ audio_flags opts ++ [bs "-v"; bs "0"] ++
  (match assoc (to_Format opts) formatOutputMap with Some f => [bs "-f"; bs f] | None => [] end) ++ [DASH].
Proof.
  assert (open_args (input_args cmdPath opts)) as Ho.
  { unfold input_args.
    change [bs "-i"; to_FilePath opts; bs "-map"; bs "0:a:0"; bs "-map_metadata"; bs "0"; bs "-map_metadata"; bs "0:s:a:0"]
      with ([bs "-i"; to_FilePath opts; bs "-map"; bs "0:a:0"; bs "-map_metadata"; bs "0"] ++
            [bs "-map_metadata"; bs "0:s:a:0"]).
    rewrite !app_assoc. by apply open_pair. }
  assert (buildDynamicArgs cmdPath opts =
    injectDynamicAudioFlags ((input_args cmdPath opts ++ codec_flags opts) ++ []) opts ++ [bs "-v"; bs "0"] ++
    (match assoc (to_Format opts) formatOutputMap with Some f => [bs "-f"; bs f] | None => [] end) ++ [DASH])
    as ->.
  { rewrite app_nil_r. unfold buildDynamicArgs, input_args, codec_flags.
    destruct (assoc (to_Format opts) formatOutputMap), (assoc (to_Format opts) formatCodecMap),
      (to_Offset opts >? 0), (to_BitRate opts >? 0); cbn [app]; rewrite <- ?app_assoc; reflexivity. }
  rewrite inject_flags, app_nil_r, <- !app_assoc; [done|].
  right. split; [done|]. by apply codec_flags_open.
Qed.


(** ** Templates *)

(** A word of the template with its placeholders filled in. *)
Definition subst_word (path : list Z) (maxBitRate offset : Z) (s : list Z) : list Z :=
  if has_placeholder S_ s then replace_placeholder S_ path s
  else replace_placeholder B_ (itoa maxBitRate) (replace_placeholder T_ (itoa offset) s).

(** Whether the command seeks before its input. *)
Definition seeks (cmd : list Z) (offset : Z) : bool := (offset >? 0) && negb (has_placeholder T_ cmd).

Section template.
Context (cmd path : list Z) (maxBitRate offset : Z).
Local Abbreviation word := (ffmpeg_word cmd path maxBitRate offset).
Local Abbreviation subst := (subst_word path maxBitRate offset).

Lemma words_plain ws args :
  seeks cmd offset = false \/ Forall (fun w => has_placeholder S_ w = false) ws ->
  foldl word args ws = args ++ (subst <$> ws).
Proof.
  revert args. induction ws as [|w ws IH]; intros args Hw; [by rewrite app_nil_r|].
  cbn [foldl]. rewrite IH by (destruct Hw as [Hw|Hw]; [by left|right; by inversion Hw]).
  rewrite fmap_cons, cons_middle, app_assoc. f_equal. unfold ffmpeg_word, subst_word.
  destruct Hw as [Hw|Hw].
  - unfold seeks in Hw. rewrite Hw. by case_match.
  - inversion Hw as [|? ? Hs]; subst. by rewrite Hs.
Qed.

Lemma insert_at_last args : insert_at (args ++ [bs "-i"]) = length args.
Proof.
  unfold insert_at. rewrite reverse_app. change (reverse [bs "-i"]) with [bs "-i"]. cbn [app list_find].
  rewrite decide_True by done. rewrite length_app. simpl. lia.
Qed.

Lemma word_seek args w :
  seeks cmd offset = true -> has_placeholder S_ w = true ->
  word (args ++ [bs "-i"]) w = args ++ [bs "-ss"; itoa offset; bs "-i"; subst w].
Proof.
  unfold seeks. intros Hs Hw. unfold ffmpeg_word, subst_word. rewrite Hw, Hs, insert_at_last.
  rewrite take_app_length, drop_app_length. by rewrite <- !app_assoc.
Qed.

Lemma words_seek pre w post :
  seeks cmd offset = true -> has_placeholder S_ w = true ->
  Forall (fun w => has_placeholder S_ w = false) (pre ++ post) ->
  foldl word [] (pre ++ bs "-i" :: w :: post) =
  (subst <$> pre) ++ [bs "-ss"; itoa offset; bs "-i"; subst w] ++ (subst <$> post).
Proof.
  intros Hs Hw [Hpre Hpost]%Forall_app.
  rewrite foldl_app, (words_plain pre) by auto. cbn [foldl].
  change (word ([] ++ (subst <$> pre)) (bs "-i")) with ((subst <$> pre) ++ [bs "-i"]).
  rewrite word_seek by done. rewrite words_plain by auto. by rewrite <- app_assoc.
Qed.

End template.

Lemma slot_exists args : exists front back, args = front ++ back /\ slot front back.
Proof.
  destruct args as [|a front _] using rev_ind.
  - exists [], []. split; [done|]. right. split; [done|]. intros [|? ?]; done.
  - destruct (decide (a = DASH)) as [->|Ha].
    + exists front, [DASH]. split; [done|]. by left.
    + exists (front ++ [a]), []. split; [by rewrite app_nil_r|]. right. split; [done|]. by apply open_snoc.
Qed.

(** The command line [Transcode] starts is exactly the one the decision
    asks for.  For a format whose command was not customised it seeks before
    the input, reads the file, maps the audio stream with its tags, and gives
    codec, bit rate, sample rate, channels and sample format, each only when
    asked for, before the output.  For a customised command the same audio
    flags go before a final output [-] and at the end otherwise, after the
    template with every placeholder filled in; and when the template has no
    place for the offset, a seek is put right before the input. *)
Theorem ffmpeg_command cmdPath probePath opts :
  let cmd := bs (to_Command opts) in
  let subst := subst_word (to_FilePath opts) (to_BitRate opts) (to_Offset opts) in
  let words := fixCmd cmdPath probePath cmd in
  if isDefaultCommand (to_Format opts) (to_Command opts) then
    transcodeArgs cmdPath probePath opts =
    [cmdPath] ++
    (if to_Offset opts >? 0 then [bs "-ss"; itoa (to_Offset opts)] else []) ++
    [bs "-i"; to_FilePath opts; bs "-map"; bs "0:a:0";
     bs "-map_metadata"; bs "0"; bs "-map_metadata"; bs "0:s:a:0"] ++
    codec_flags opts ++ audio_flags opts ++ [bs "-v"; bs "0"] ++
    (match assoc (to_Format opts) formatOutputMap with Some f => [bs "-f"; bs f] | None => [] end) ++ [DASH]
  else
    exists front back,
      transcodeArgs cmdPath probePath opts = front ++ audio_flags opts ++ back /\
      (back = [DASH] \/ back = [] /\ forall f, front <> f ++ [DASH]) /\
      (seeks cmd (to_Offset opts) = false -> front ++ back = subst <$> words) /\
      (forall pre w post,
         seeks cmd (to_Offset opts) = true -> words = pre ++ bs "-i" :: w :: post ->
         has_placeholder S_ w = true -> Forall (fun w => has_placeholder S_ w = false) (pre ++ post) ->
         front ++ back =
         (subst <$> pre) ++ [bs "-ss"; itoa (to_Offset opts); bs "-i"; subst w] ++ (subst <$> post)).
Proof.
  intros cmd subst words. unfold transcodeArgs.
  destruct (isDefaultCommand (to_Format opts) (to_Command opts)).
  { rewrite buildDynamicArgs_spec. unfold input_args. by rewrite <- !app_assoc. }
  unfold buildTemplateArgs, createFFmpegCommand. fold cmd. fold words.
  destruct (slot_exists (foldl (ffmpeg_word cmd (to_FilePath opts) (to_BitRate opts) (to_Offset opts)) [] words))
    as (front & back & E & Hs).
  exists front, back. rewrite E, inject_flags by done. rewrite <- app_assoc.
  repeat split; [exact Hs| |].
  - intros Hn. rewrite <- E, words_plain by auto. done.
  - intros pre w post Hseek Hw Hp Hno. rewrite <- E, Hw. by apply words_seek.
Qed.

(** A template that ends with the output, read at ten seconds. *)
Example ffmpeg_command_example :
  transcodeArgs (bs "/bin/ffmpeg") (bs "/bin/ffprobe")
    (mkOptions "ffmpeg -i %s -b:a %bk -f wav -" "wav" (bs "/m/a %t.flac") 320 44100 0 24 10) =
  [bs "/bin/ffmpeg"; bs "-ss"; bs "10"; bs "-i"; bs "/m/a %t.flac"; bs "-b:a"; bs "320k"; bs "-f"; bs "wav";
   bs "-ar"; bs "44100"; bs "-sample_fmt"; bs "s32"; DASH].
Proof. vm_compute. reflexivity. Qed.

(** ** mpv *)

Lemma mpv_word_plain dev file sock w :
  has_placeholder D_ w = false -> has_placeholder F_ w = false -> has_placeholder S_ w = false ->
  mpv_word dev file sock w = w.
Proof. intros Hd Hf Hs. unfold mpv_word. by rewrite (replace_absent D_), (replace_absent F_), (replace_absent S_). Qed.

Lemma mpv_arg template path dev file sock ws i :
  Split template = Ok ws -> (0 < i)%nat ->
  createMPVCommand template path dev file sock !! i = mpv_word dev file sock <$> ws !! i.
Proof.
  intros E Hi. unfold createMPVCommand. rewrite E. rewrite <- list_lookup_fmap.
  destruct (mpv_word dev file sock <$> ws) as [|a rest], path as [p|]; try done.
  destruct i; [lia|]. by case_match.
Qed.

(** Whatever spaces, quotes or other characters the file name holds, the
    command line of mpv has one argument per word of the template, so no
    value is ever split; a word without a placeholder stays as it is, a word
    that is a placeholder becomes the whole value, unless that value itself
    holds a placeholder that is replaced after it; and a template that cannot
    be split gives no command. *)
Theorem mpv_command template path dev file sock :
  match Split template with
  | Err _ => createMPVCommand template path dev file sock = []
  | Ok ws =>
      length (createMPVCommand template path dev file sock) = length ws /\
      forall i w, (0 < i)%nat -> ws !! i = Some w ->
        let arg := createMPVCommand template path dev file sock !! i in
        (has_placeholder D_ w = false -> has_placeholder F_ w = false -> has_placeholder S_ w = false ->
         arg = Some w) /\
        (w = bs "%s" -> arg = Some sock) /\
        (w = bs "%f" -> has_placeholder S_ file = false -> arg = Some file) /\
        (w = bs "%d" -> has_placeholder F_ dev = false -> has_placeholder S_ dev = false -> arg = Some dev)
  end.
Proof.
  destruct (Split template) as [ws|e] eqn:E; [|by unfold createMPVCommand; rewrite E]. split.
  { unfold createMPVCommand. rewrite E, <- (length_fmap (mpv_word dev file sock) ws).
    destruct (mpv_word dev file sock <$> ws), path; try done. by case_match. }
  intros i w Hi Hw. cbn zeta. rewrite (mpv_arg _ _ _ _ _ ws) by done. rewrite Hw. cbn [fmap option_fmap option_map].
  repeat split; intros; f_equal.
  - by apply mpv_word_plain.
  - subst. exact (replace_exact S_ sock).
  - subst. unfold mpv_word. change (replace_placeholder D_ dev (bs "%f")) with [PERCENT; F_].
    by rewrite replace_exact, replace_absent.
  - subst. unfold mpv_word. change (bs "%d") with [PERCENT; D_].
    by rewrite replace_exact, (replace_absent F_), (replace_absent S_).
Qed.

(** A file name with ["%s"] in it has the socket's name put there. *)
Example mpv_file_name_rewritten :
  createMPVCommand (bs "mpv --input-ipc-server=%s %f") None (bs "auto") (bs "/m/100%sure.mp3") (bs "/tmp/sock") =
  [bs "mpv"; bs "--input-ipc-server=/tmp/sock"; bs "/m/100/tmp/sockure.mp3"].
Proof. vm_compute. reflexivity. Qed.
