(* ===== verification/FlacHeader.v ===== *)
(** * Repairing the header of a piped FLAC stream

    [core/ffmpeg/flac_streaminfo.go].  A FLAC stream written to a pipe lacks its
    number of samples; the reader around the output of the transcoder fills it
    in from the duration.  The output of the transcoder is an [io.Pipe]: the
    chunks that are written to it and the error it is closed with. *)

From Stdlib Require Import Floats.SpecFloat.
From S2P Require Import Prelude GoFloat.

Local Open Scope Z_scope.

(** ** Floating point *)

(** [float64(x)] for a [float32], which is exact. *)
Definition float64_of_float32 (x : spec_float) : spec_float :=
  match x with
  | S754_finite s m e => binary_normalize 53 1024 (if s then Zneg m else Zpos m) e s
  | _ => x
  end.

(** [math.Round]: half away from zero, always an integer; [None] for the
    infinities and NaN, which it returns. *)
Definition Round (x : spec_float) : option Z :=
  match x with
  | S754_zero _ => Some 0
  | S754_finite s m e =>
      let a := if 0 <=? e then Zpos m * 2 ^ e else (Zpos m + 2 ^ (- e - 1)) / 2 ^ (- e) in
      Some (if s then - a else a)
  | _ => None
  end.

(** ** Pipes *)

Inductive io_error := EOF | ErrUnexpectedEOF | ReadError (msg : string).

Definition is_eof (e : io_error) : bool :=
  match e with EOF | ErrUnexpectedEOF => true | ReadError _ => false end.

Record pipe := mkPipe { p_chunks : list (list Z); p_closed : io_error }.

(** One [Read] into a buffer of [n] bytes. *)
Definition pipe_read (n : nat) (p : pipe) : list Z * option io_error * pipe :=
  match p_chunks p with
  | [] => ([], Some (p_closed p), p)
  | c :: cs =>
      (take n c, None,
       mkPipe (match drop n c with [] => cs | c' => c' :: cs end) (p_closed p))
  end.

(** [io.ReadFull] of [need] bytes. *)
Fixpoint ReadFull_chunks (need : nat) (cs : list (list Z)) : list Z * list (list Z) :=
  match need, cs with
  | O, _ | _, [] => ([], cs)
  | _, c :: cs =>
      if (length c <=? need)%nat
      then let '(b, r) := ReadFull_chunks (need - length c) cs in (c ++ b, r)
      else (take need c, drop need c :: cs)
  end.
Definition ReadFull (need : nat) (p : pipe) : list Z * option io_error * pipe :=
  let '(b, r) := ReadFull_chunks need (p_chunks p) in
  let err := if (length b <? need)%nat
             then Some (match b, p_closed p with _ :: _, EOF => ErrUnexpectedEOF | _, e => e end)
             else None in
  (b, err, mkPipe r (p_closed p)).

(** ** The patcher *)

Definition flacPrefixLen : nat := 26.
Definition flacMaxTotalSamples : Z := Z.shiftl 1 36 - 1.

(** [binary.BigEndian.Uint64] and [PutUint64]. *)
Definition Uint64 (b : list Z) : Z := foldl (fun acc x => acc * 256 + x) 0 (take 8 b).
Definition PutUint64 (v : Z) : list Z :=
  (fun k => Z.land (Z.shiftr v k) 255) <$> [56; 48; 40; 32; 24; 16; 8; 0].

(** [total > flacMaxTotalSamples] and [uint64(total)] for a rounded float; NaN
    is not greater, and amd64 converts it to 2^63. *)
Definition total_overflows (x : spec_float) : bool :=
  match x with
  | S754_infinity s => negb s
  | _ => match Round x with Some t => t >? flacMaxTotalSamples | None => false end
  end.
Definition uint64_of_total (x : spec_float) : Z := default (2 ^ 63) (Round x).

Definition fLaC : list Z := [102; 76; 97; 67].

Definition setFLACTotalSamples (prefix : list Z) (duration : spec_float) : list Z :=
  if negb (bool_decide (take 4 prefix = fLaC)) || negb (Z.land (nth 4 prefix 0) 127 =? 0) then prefix else
  let info := Uint64 (drop 18 prefix) in
  let rate := Z.shiftr info 44 in
  if (rate =? 0) || negb (Z.land info flacMaxTotalSamples =? 0) then prefix else
  let total := mul64 (float64_of_float32 duration) (float64_of_int rate) in
  if total_overflows total then prefix else
  take 18 prefix ++ PutUint64 (Z.lor info (uint64_of_total total)) ++ drop 26 prefix.

(** [fp_stream] is the unread part of the prefix once it has been read; the
    rest comes from the pipe. *)
Record flacPatcher := mkPatcher { fp_src : pipe; fp_duration : spec_float; fp_stream : option (list Z) }.

Inductive reader := Plain (p : pipe) | Patched (f : flacPatcher).

Definition patchFLACDuration (r : pipe) (duration : spec_float) : reader :=
  if SFleb duration (S754_zero false) then Plain r else Patched (mkPatcher r duration None).

(** [io.MultiReader] of the prefix and the pipe. *)
Definition stream_read (n : nat) (f : flacPatcher) (rest : list Z) : list Z * option io_error * flacPatcher :=
  match rest with
  | [] => let '(b, e, src) := pipe_read n (fp_src f) in (b, e, mkPatcher src (fp_duration f) (Some []))
  | _ => (take n rest, None, mkPatcher (fp_src f) (fp_duration f) (Some (drop n rest)))
  end.

Definition PatcherRead (n : nat) (f : flacPatcher) : list Z * option io_error * flacPatcher :=
  match fp_stream f with
  | Some rest => stream_read n f rest
  | None =>
      let '(prefix, err, src) := ReadFull flacPrefixLen (fp_src f) in
      let f := mkPatcher src (fp_duration f) None in
      match err with
      | Some e => if is_eof e then stream_read n f prefix else ([], Some e, f)
      | None => stream_read n f (setFLACTotalSamples prefix (fp_duration f))
      end
  end.

Definition Read (n : nat) (r : reader) : list Z * option io_error * reader :=
  match r with
  | Plain p => let '(b, e, p) := pipe_read n p in (b, e, Plain p)
  | Patched f => let '(b, e, f) := PatcherRead n f in (b, e, Patched f)
  end.

(** ** The product is exact

    A [float32] has 24 bits of mantissa and a sample rate 20 bits: their product
    fits the 53 bits of a [float64], so only [math.Round] rounds. *)

(** [p * 2^k]. *)
Definition xo (k : nat) (p : positive) : positive := Nat.iter k xO p.

Lemma xo_value k p : Zpos (xo k p) = Zpos p * 2 ^ Z.of_nat k.
Proof.
  induction k as [|k IH]; [simpl; lia|]. change (xo (S k) p) with (xO (xo k p)).
  rewrite Nat2Z.inj_succ, Z.pow_succ_r by lia. lia.
Qed.

Lemma xo_digits k p : Zpos (digits2_pos (xo k p)) = Zpos (digits2_pos p) + Z.of_nat k.
Proof. induction k as [|k IH]; [simpl; lia|]. change (xo (S k) p) with (xO (xo k p)). cbn [digits2_pos]. lia. Qed.

Lemma xo_add j k p : xo (j + k) p = xo j (xo k p).
Proof. unfold xo. by rewrite Nat.iter_add. Qed.

Lemma iter_pos_nat {A} (f : A -> A) n : forall x, SpecFloat.iter_pos f n x = Nat.iter (Pos.to_nat n) f x.
Proof.
  induction n as [n IH|n IH|]; intros x; cbn [SpecFloat.iter_pos]; [| |done].
  - rewrite Pos2Nat.inj_xI, !IH, Nat.iter_succ_r, <- Nat.iter_add. f_equal. lia.
  - rewrite Pos2Nat.inj_xO, !IH, <- Nat.iter_add. f_equal. lia.
Qed.

Lemma shr_exact k p :
  Nat.iter k shr_1 (Build_shr_record (Zpos (xo k p)) false false) = Build_shr_record (Zpos p) false false.
Proof. induction k as [|k IH]; [done|]. rewrite Nat.iter_succ_r. exact IH. Qed.

(** A mantissa of at most 53 significant bits loses nothing. *)
Lemma round_exact p k e :
  Zpos (digits2_pos p) <= 53 -> -1074 <= e + Z.of_nat k -> e <= 971 ->
  Zpos (digits2_pos p) + Z.of_nat k + e <= 1024 ->
  exists j : nat, (j <= k)%nat /\
    binary_round_aux 53 1024 false (Zpos (xo k p)) e loc_Exact =
    S754_finite false (xo (k - j) p) (e + Z.of_nat j).
Proof.
  intros Hp He1 He2 Ho. unfold binary_round_aux, shr_fexp at 1. cbn [shr_record_of_loc Zdigits2].
  rewrite xo_digits. set (n := fexp 53 1024 _ - e).
  assert (n <= Z.of_nat k /\ n + e <= 971 /\ n + e = Z.max (Zpos (digits2_pos p) + Z.of_nat k + e - 53) (-1074))
    as (Hn & Hne & Hnm) by (unfold n, fexp, emin; lia).
  assert (forall j : nat, (j <= k)%nat -> n <= Z.of_nat j -> e + Z.of_nat j <= 971 ->
    (let '(mrs'', e'') := shr_fexp 53 1024 (Zpos (xo (k - j) p)) (e + Z.of_nat j) loc_Exact in
     match shr_m mrs'' with
     | Z0 => S754_zero false
     | Zpos m => if e'' <=? 1024 - 53 then S754_finite false m e'' else S754_infinity false
     | _ => S754_nan
     end) = S754_finite false (xo (k - j) p) (e + Z.of_nat j)) as Hsnd.
  { intros j Hj Hnj Hej. unfold shr_fexp. cbn [shr_record_of_loc Zdigits2]. rewrite xo_digits. unfold shr.
    assert (fexp 53 1024 (Zpos (digits2_pos p) + Z.of_nat (k - j) + (e + Z.of_nat j)) - (e + Z.of_nat j) <= 0)
      as Hle by (unfold fexp, emin; lia).
    destruct (_ - (e + Z.of_nat j)); [|lia|]; cbn [shr_m]; by rewrite (proj2 (Z.leb_le _ _)) by lia. }
  clearbody n. destruct n as [|n|n]; cbn [shr].
  - exists 0%nat. split; [lia|]. specialize (Hsnd 0%nat ltac:(lia) ltac:(lia) ltac:(lia)).
    rewrite Nat.sub_0_r, Z.add_0_r in *. exact Hsnd.
  - exists (Pos.to_nat n). split; [lia|]. rewrite iter_pos_nat.
    replace (xo k p) with (xo (Pos.to_nat n) (xo (k - Pos.to_nat n) p)) by (rewrite <- xo_add; f_equal; lia).
    rewrite shr_exact. cbn [shr_m loc_of_shr_record round_nearest_even].
    specialize (Hsnd (Pos.to_nat n) ltac:(lia) ltac:(lia) ltac:(lia)).
    replace (Z.pos n) with (Z.of_nat (Pos.to_nat n)) by lia. exact Hsnd.
  - exists 0%nat. split; [lia|]. specialize (Hsnd 0%nat ltac:(lia) ltac:(lia) ltac:(lia)).
    rewrite Nat.sub_0_r, Z.add_0_r in *. exact Hsnd.
Qed.

Lemma digits_bound p : 2 ^ (Zpos (digits2_pos p) - 1) <= Zpos p < 2 ^ Zpos (digits2_pos p).
Proof.
  induction p as [p IH|p IH|]; cbn [digits2_pos]; [| |simpl; lia];
    rewrite Pos2Z.inj_succ, Z.pow_succ_r by lia;
    replace (Z.succ (Z.pos (digits2_pos p)) - 1) with (Z.succ (Z.pos (digits2_pos p) - 1)) by lia;
    rewrite Z.pow_succ_r by lia; lia.
Qed.

Lemma digits_le p k : Zpos p < 2 ^ k -> 0 <= k -> Zpos (digits2_pos p) <= k.
Proof.
  intros Hp Hk. destruct (Z_le_gt_dec (Zpos (digits2_pos p)) k) as [|Hg]; [done|].
  pose proof (digits_bound p) as [Hb _]. pose proof (Z.pow_le_mono_r 2 k (Zpos (digits2_pos p) - 1)). lia.
Qed.

Lemma digits_mul p q k l :
  Zpos (digits2_pos p) <= k -> Zpos (digits2_pos q) <= l -> Zpos (digits2_pos (p * q)) <= k + l.
Proof.
  intros Hp Hq. apply digits_le; [|lia]. rewrite Pos2Z.inj_mul, Z.pow_add_r by lia.
  pose proof (digits_bound p) as [_ Hbp]. pose proof (digits_bound q) as [_ Hbq].
  pose proof (Z.pow_le_mono_r 2 _ _ ltac:(lia) Hp). pose proof (Z.pow_le_mono_r 2 _ _ ltac:(lia) Hq).
  apply Z.mul_lt_mono_nonneg; lia.
Qed.

Lemma shl_align_xo m e e' : exists k, shl_align m e e' = (xo k m, e - Z.of_nat k) /\
  Z.of_nat k = Z.max 0 (e - e').
Proof.
  unfold shl_align. destruct (e' - e) as [|d|d] eqn:E.
  - exists 0%nat. rewrite Z.sub_0_r. split; [done|lia].
  - exists 0%nat. rewrite Z.sub_0_r. split; [done|lia].
  - exists (Pos.to_nat d). split; [|lia]. f_equal; [|lia]. unfold xo. by rewrite Pos2Nat.inj_iter.
Qed.

Lemma normalize_exact m e s :
  Zpos (digits2_pos m) <= 53 -> -1000 <= e <= 900 ->
  exists k, binary_normalize 53 1024 (Zpos m) e s = S754_finite false (xo k m) (e - Z.of_nat k) /\
    Z.of_nat k <= 53.
Proof.
  intros Hm He. cbn [binary_normalize]. unfold binary_round.
  destruct (shl_align_xo m e (fexp 53 1024 (Zpos (digits2_pos m) + e))) as (k & -> & Hk).
  assert (Z.of_nat k <= 53) as Hk53 by (unfold fexp, emin in Hk; lia).
  destruct (round_exact m k (e - Z.of_nat k)) as (j & Hj & ->); [lia..|].
  exists (k - j)%nat. split; [|lia]. f_equal. lia.
Qed.

(** [Round] only sees the value. *)
Lemma Round_xo m e k : Round (S754_finite false (xo k m) (e - Z.of_nat k)) = Round (S754_finite false m e).
Proof.
  unfold Round. f_equal. rewrite xo_value. set (n := Z.of_nat k). assert (0 <= n) as Hn by (unfold n; lia). clearbody n.
  destruct (0 <=? e - n) eqn:E1, (0 <=? e) eqn:E2; bprop; try lia.
  - rewrite <- Z.mul_assoc, <- Z.pow_add_r by lia. do 2 f_equal. lia.
  - rewrite Z.mul_comm. 
    replace (2 ^ n) with (2 ^ e * 2 ^ (- (e - n))) by (rewrite <- Z.pow_add_r by lia; f_equal; lia).
    rewrite <- Z.mul_assoc, (Z.mul_comm (2 ^ (- (e - n)))), Z.mul_assoc, Z.div_add_l by (apply Z.pow_nonzero; lia).
    rewrite (Z.div_small (2 ^ _)); [lia|]. split; [apply Z.pow_nonneg; lia|]. apply Z.pow_lt_mono_r; lia.
  - replace (- (e - n) - 1) with (n + (- e - 1)) by lia. replace (- (e - n)) with (n + - e) by lia.
    rewrite !Z.pow_add_r by lia. rewrite (Z.mul_comm (Z.pos m)), <- Z.mul_add_distr_l.
    rewrite Z.div_mul_cancel_l; [done| |]; apply Z.pow_nonzero; lia.
Qed.

(** The number of samples in a duration [m * 2^e]. *)
Definition exact_samples (m : positive) (e rate : Z) : Z :=
  if 0 <=? e then Zpos m * rate * 2 ^ e else (Zpos m * rate + 2 ^ (- e - 1)) / 2 ^ (- e).

Lemma total_exact m e rate :
  valid_binary 24 128 (S754_finite false m e) = true -> 0 < rate < 2 ^ 20 ->
  exists x, mul64 (float64_of_float32 (S754_finite false m e)) (float64_of_int rate) = x /\
    Round x = Some (exact_samples m e rate) /\ (forall s, x <> S754_infinity s).
Proof.
  cbn [valid_binary]. unfold bounded, canonical_mantissa, fexp, emin. intros Hv Hr. bprop.
  destruct rate as [|r|r]; [lia| |lia]. assert (Zpos (digits2_pos r) <= 20) as Hd by (apply digits_le; lia).
  cbn [float64_of_float32]. unfold float64_of_int, mul64.
  destruct (normalize_exact m e false) as (k1 & -> & Hk1); [lia..|].
  destruct (normalize_exact r 0 false) as (k2 & -> & Hk2); [lia..|].
  cbn [SFmul xorb].
  assert (xo k1 m * xo k2 r = xo (k1 + k2) (m * r))%positive as ->.
  { apply Pos2Z.inj_pos || apply Pos2Z.inj. rewrite Pos2Z.inj_mul, !xo_value, Pos2Z.inj_mul, Nat2Z.inj_add, Z.pow_add_r by lia. lia. }
  pose proof (digits_mul m r 24 20 ltac:(lia) Hd) as Hmr.
  destruct (round_exact (m * r) (k1 + k2) (e - Z.of_nat k1 + (0 - Z.of_nat k2))) as (j & Hj & ->); [lia..|].
  eexists. split; [done|]. split; [|done].
  replace (e - Z.of_nat k1 + (0 - Z.of_nat k2) + Z.of_nat j) with (e - Z.of_nat (k1 + k2 - j)) by lia.
  rewrite Round_xo. unfold Round, exact_samples. by rewrite Pos2Z.inj_mul.
Qed.

(** ** The fields of the header

    Read byte by byte, as a decoder does: 20 bits of sample rate, 8 bits of
    channels and depth, 36 bits of total samples. *)

Definition byte (b : Z) : Prop := 0 <= b < 256.

Definition at_ (b : list Z) (i : nat) : Z := nth i b 0.
Definition sample_rate (b : list Z) : Z := at_ b 18 * 4096 + at_ b 19 * 16 + at_ b 20 / 16.
Definition channels_depth (b : list Z) : Z := at_ b 20 mod 16 * 16 + at_ b 21 / 16.
Definition total_samples (b : list Z) : Z :=
  at_ b 21 mod 16 * 2 ^ 32 + at_ b 22 * 2 ^ 24 + at_ b 23 * 2 ^ 16 + at_ b 24 * 2 ^ 8 + at_ b 25.

(** A prefix is 18 bytes and the eight bytes of the fields. *)
Lemma prefix_shape (b : list Z) :
  length b = 26%nat ->
  exists h x0 x1 x2 x3 x4 x5 x6 x7, b = h ++ [x0; x1; x2; x3; x4; x5; x6; x7] /\ length h = 18%nat.
Proof.
  intros Hl. rewrite <- (take_drop 18 b). assert (length (drop 18 b) = 8%nat) as Hd by (rewrite length_drop; lia).
  destruct (drop 18 b) as [|x0 [|x1 [|x2 [|x3 [|x4 [|x5 [|x6 [|x7 [|]]]]]]]]]; try done.
  exists (take 18 b), x0, x1, x2, x3, x4, x5, x6, x7. split; [done|]. rewrite length_take. lia.
Qed.

Lemma at_fields h l i : length h = 18%nat -> at_ (h ++ l) (18 + i) = nth i l 0.
Proof. intros Hl. unfold at_. rewrite app_nth2 by lia. f_equal. lia. Qed.

(** The three fields of a 64-bit word, and back from its bytes. *)
Lemma word_fields h x0 x1 x2 x3 x4 x5 x6 x7 :
  length h = 18%nat -> Forall byte [x0; x1; x2; x3; x4; x5; x6; x7] ->
  let b := h ++ [x0; x1; x2; x3; x4; x5; x6; x7] in
  let info := Uint64 [x0; x1; x2; x3; x4; x5; x6; x7] in
  sample_rate b = info / 2 ^ 44 /\ channels_depth b = info / 2 ^ 36 mod 256 /\
  total_samples b = info mod 2 ^ 36 /\ 0 <= info < 2 ^ 64.
Proof.
  intros Hl Hb b info. unfold sample_rate, channels_depth, total_samples, b.
  rewrite (at_fields h _ 0), (at_fields h _ 1), (at_fields h _ 2), (at_fields h _ 3), (at_fields h _ 4),
    (at_fields h _ 5), (at_fields h _ 6), (at_fields h _ 7) by done.
  cbn [nth]. unfold info, Uint64. cbn [take foldl]. clear -Hb.
  decompose_Forall_hyps. unfold byte in *.
  change (2 ^ 44) with 17592186044416. change (2 ^ 36) with 68719476736. change (2 ^ 32) with 4294967296.
  change (2 ^ 24) with 16777216. change (2 ^ 16) with 65536. change (2 ^ 8) with 256. change (2 ^ 64) with 18446744073709551616.
  repeat split; Z.to_euclidean_division_equations; lia.
Qed.

Lemma put_byte v k : 0 <= k -> byte (Z.land (Z.shiftr v k) 255).
Proof. intros Hk. unfold byte. change 255 with (Z.ones 8). rewrite Z.land_ones by lia. apply Z.mod_pos_bound. lia. Qed.

Lemma put_bytes v : Forall byte (PutUint64 v).
Proof. unfold PutUint64. repeat constructor; by apply put_byte. Qed.

Lemma get_put v : 0 <= v < 2 ^ 64 -> Uint64 (PutUint64 v) = v.
Proof.
  intros Hv. unfold Uint64, PutUint64. cbn [fmap list_fmap take foldl].
  change 255 with (Z.ones 8). rewrite !Z.land_ones, !Z.shiftr_div_pow2 by lia.
  change (2 ^ 8) with 256. change (2 ^ 0) with 1. change (2 ^ 16) with 65536. change (2 ^ 24) with 16777216.
  change (2 ^ 32) with 4294967296. change (2 ^ 40) with 1099511627776. change (2 ^ 48) with 281474976710656.
  change (2 ^ 56) with 72057594037927936. change (2 ^ 64) with 18446744073709551616 in Hv.
  Z.to_euclidean_division_equations; lia.
Qed.

Lemma lor_low info t : info mod 2 ^ 36 = 0 -> 0 <= t < 2 ^ 36 -> Z.lor info t = info + t.
Proof.
  intros Hi Ht. rewrite <- Z.add_lor_land. assert (Z.land info t = 0) as ->; [|lia].
  rewrite <- (Z.mod_small t (2 ^ 36)), <- Z.land_ones, Z.land_assoc, (Z.land_comm info), <- Z.land_assoc by lia.
  by rewrite Z.land_ones, Hi, Z.land_0_r by lia.
Qed.

(** [n] is the number of samples nearest to the duration [m * 2^e]. *)
Definition nearest (n : Z) (m : positive) (e rate : Z) : Prop :=
  if 0 <=? e then n = Zpos m * rate * 2 ^ e
  else 2 * (Zpos m * rate) - 2 ^ (- e) < 2 * n * 2 ^ (- e) <= 2 * (Zpos m * rate) + 2 ^ (- e).

Lemma exact_nearest m e rate : nearest (exact_samples m e rate) m e rate.
Proof.
  unfold nearest, exact_samples. destruct (0 <=? e) eqn:E; [done|]. bprop.
  replace (2 ^ (- e)) with (2 * 2 ^ (- e - 1)) by (rewrite <- Z.pow_succ_r by lia; f_equal; lia).
  assert (0 < 2 ^ (- e - 1)) as Hh by (apply Z.pow_pos_nonneg; lia).
  pose proof (Z.div_mod (Z.pos m * rate + 2 ^ (- e - 1)) (2 * 2 ^ (- e - 1)) ltac:(lia)).
  pose proof (Z.mod_pos_bound (Z.pos m * rate + 2 ^ (- e - 1)) (2 * 2 ^ (- e - 1)) ltac:(lia)). nia.
Qed.

Lemma exact_nonneg m e rate : 0 <= rate -> 0 <= exact_samples m e rate.
Proof.
  intros Hr. unfold exact_samples. destruct (0 <=? e).
  - pose proof (Z.pow_nonneg 2 e ltac:(lia)). nia.
  - apply Z_div_nonneg_nonneg; [|apply Z.pow_nonneg; lia]. pose proof (Z.pow_nonneg 2 (- e - 1) ltac:(lia)). nia.
Qed.

(** The prefix is rewritten exactly when it begins a FLAC stream whose first
    block has a sample rate and no number of samples, and the number fits. *)
Definition patchable (prefix : list Z) (n : Z) : Prop :=
  take 4 prefix = fLaC /\ at_ prefix 4 mod 128 = 0 /\ sample_rate prefix <> 0 /\
  total_samples prefix = 0 /\ n < 2 ^ 36.

Lemma set_spec prefix m e :
  length prefix = 26%nat -> Forall byte prefix -> valid_binary 24 128 (S754_finite false m e) = true ->
  let n := exact_samples m e (sample_rate prefix) in
  let info := Uint64 (drop 18 prefix) in
  let out := setFLACTotalSamples prefix (S754_finite false m e) in
  patchable prefix n /\ out = take 18 prefix ++ PutUint64 (info + n) /\ 0 <= info /\ info + n < 2 ^ 64 \/
  ~ patchable prefix n /\ out = prefix.
Proof.
  intros Hl Hb Hv n info out.
  destruct (prefix_shape prefix Hl) as (h & x0 & x1 & x2 & x3 & x4 & x5 & x6 & x7 & Ep & Hh).
  assert (info = Uint64 [x0; x1; x2; x3; x4; x5; x6; x7]) as Ei.
  { unfold info. by rewrite Ep, drop_app_length' by done. }
  assert (Forall byte [x0; x1; x2; x3; x4; x5; x6; x7]) as Hx by (subst prefix; by apply Forall_app in Hb as [_ Hb]).
  destruct (word_fields h _ _ _ _ _ _ _ _ Hh Hx) as (Hr & _ & Ht & Hi). rewrite <- Ep, <- Ei in *.
  unfold out, setFLACTotalSamples, patchable. fold info.
  change 127 with (Z.ones 7). change flacMaxTotalSamples with (Z.ones 36).
  rewrite !Z.land_ones, Z.shiftr_div_pow2, <- Ht, <- Hr by lia. fold (at_ prefix 4). change (2 ^ 7) with 128.
  case_bool_decide as Hm; cbn [negb orb]; [|right; tauto].
  destruct (at_ prefix 4 mod 128 =? 0) eqn:E4; cbn [negb]; bprop; [|right; tauto].
  destruct (sample_rate prefix =? 0) eqn:Er; cbn [orb]; bprop; [right; tauto|].
  destruct (total_samples prefix =? 0) eqn:Et; cbn [negb]; bprop; [|right; tauto].
  assert (0 < sample_rate prefix < 2 ^ 20) as Hrate.
  { pose proof (Z.div_pos info (2 ^ 44)). pose proof (Z.div_lt_upper_bound info (2 ^ 44) (2 ^ 20)). lia. }
  destruct (total_exact m e (sample_rate prefix) Hv Hrate) as (x & -> & HR & Hinf). fold n in HR.
  assert (total_overflows x = (n >? Z.ones 36)) as ->.
  { unfold total_overflows. rewrite HR. by destruct x. }
  change (Z.ones 36) with (2 ^ 36 - 1). destruct (n >? 2 ^ 36 - 1) eqn:En; bprop; [right; split; [lia|done]|left].
  pose proof (exact_nonneg m e (sample_rate prefix) ltac:(lia)) as Hn0. fold n in Hn0.
  unfold uint64_of_total. rewrite HR. cbn [default from_option id]. rewrite lor_low by (rewrite <- ?Ht; lia).
  rewrite (drop_ge prefix) by lia. rewrite app_nil_r.
  repeat split; try done; try lia.
  pose proof (Z.div_mod info (2 ^ 36) ltac:(lia)). pose proof (Z.div_lt_upper_bound info (2 ^ 36) (2 ^ 28)).
  rewrite <- Ht, Et in *. lia.
Qed.

(** ** Reading the whole stream *)

Definition contents (p : pipe) : list Z := concat (p_chunks p).

(** What is still to be read, with the error that ends it, and how many reads
    that can take at most. *)
Definition patched_prefix (d : spec_float) (l : list Z) : list Z :=
  if (length l <? flacPrefixLen)%nat then l
  else setFLACTotalSamples (take flacPrefixLen l) d ++ drop flacPrefixLen l.

Definition remaining (r : reader) : list Z * io_error :=
  match r with
  | Plain p => (contents p, p_closed p)
  | Patched f =>
      let p := fp_src f in
      match fp_stream f with
      | Some rest => (rest ++ contents p, p_closed p)
      | None => if (length (contents p) <? flacPrefixLen)%nat && negb (is_eof (p_closed p)) then ([], p_closed p)
                else (patched_prefix (fp_duration f) (contents p), p_closed p)
      end
  end.

Definition reads_left (r : reader) : nat :=
  let p := match r with Plain p => p | Patched f => fp_src f end in
  let rest := match r with Patched (mkPatcher _ _ (Some rest)) => length rest | _ => 0%nat end in
  (rest + length (contents p) + length (p_chunks p))%nat.

(** What one [Read] of [n] bytes does to a stream. *)
Definition read_ok (n : nat) (r : reader) (res : list Z * option io_error * reader) : Prop :=
  match res with
  | (b, None, r') =>
      remaining r = (b ++ (remaining r').1, (remaining r').2) /\ (reads_left r' <= reads_left r)%nat /\
      ((0 < n)%nat -> (reads_left r' < reads_left r)%nat)
  | (b, Some e, _) => b = [] /\ remaining r = ([], e)
  end.

Lemma pipe_read_ok n p :
  match pipe_read n p with
  | (b, None, p') =>
      contents p = b ++ contents p' /\ p_closed p' = p_closed p /\
      (length (contents p') + length (p_chunks p') <= length (contents p) + length (p_chunks p))%nat /\
      ((0 < n)%nat ->
       (length (contents p') + length (p_chunks p') < length (contents p) + length (p_chunks p))%nat)
  | (b, Some e, p') => b = [] /\ contents p = [] /\ e = p_closed p
  end.
Proof.
  unfold pipe_read, contents. destruct p as [[|c cs] e]; [done|]. cbn [p_chunks p_closed concat].
  destruct (drop n c) as [|x c'] eqn:E; cbn [concat length].
  - assert (take n c = c) as -> by (rewrite <- (take_drop n c) at 2; by rewrite E, app_nil_r).
    rewrite !length_app. repeat split; lia.
  - assert (c = take n c ++ x :: c') as Hc by (by rewrite <- E, take_drop).
    split; [by rewrite Hc at 1; rewrite <- app_assoc|]. split; [done|].
    rewrite !length_app, (f_equal length Hc), length_app. cbn [length app]. rewrite ?length_app. split; [lia|].
    intros Hn. destruct n; [lia|]. destruct c; [done|]. cbn [take length]. lia.
Qed.

Lemma ReadFull_chunks_ok need cs :
  concat cs = (ReadFull_chunks need cs).1 ++ concat (ReadFull_chunks need cs).2 /\
  (ReadFull_chunks need cs).1 = take need (concat cs) /\
  (length (ReadFull_chunks need cs).2 <= length cs)%nat.
Proof.
  revert need. induction cs as [|c cs IH]; intros need; [by destruct need|].
  destruct need as [|need]; [done|]. cbn [ReadFull_chunks]. destruct (length c <=? S need)%nat eqn:E; bprop.
  - destruct (IH (S need - length c)%nat) as (H1 & H2 & H3).
    destruct (ReadFull_chunks _ cs) as [b r]. cbn [fst snd concat length] in *.
    rewrite take_app, take_ge by lia. rewrite H1 at 1. rewrite H2, app_assoc. repeat split; lia || done.
  - cbn [fst snd concat length]. rewrite app_assoc, take_drop. rewrite take_app_le by lia. done.
Qed.

Lemma setFLAC_length prefix d : length prefix = 26%nat -> length (setFLACTotalSamples prefix d) = 26%nat.
Proof.
  intros Hl. unfold setFLACTotalSamples. destruct (_ || _); [done|]. cbv zeta.
  destruct (_ || _); [done|]. destruct (total_overflows _); [done|].
  rewrite !length_app, length_take, length_drop. unfold PutUint64. rewrite length_fmap. cbn [length]. lia.
Qed.

Lemma stream_read_ok n f rest :
  read_ok n (Patched (mkPatcher (fp_src f) (fp_duration f) (Some rest)))
    (let '(b, e, f) := stream_read n f rest in (b, e, Patched f)).
Proof.
  unfold stream_read. destruct rest as [|x rest].
  - pose proof (pipe_read_ok n (fp_src f)) as Hp. destruct (pipe_read n (fp_src f)) as [[b [e|]] src].
    + destruct Hp as (-> & Hc & ->). unfold read_ok, remaining. cbn. by rewrite Hc.
    + destruct Hp as (Hc & He & Hle & Hlt). unfold read_ok, remaining, reads_left.
      cbn [fp_stream fp_src fst snd length app]. rewrite Hc, He. split; [done|]. split; [|intros Hn; specialize (Hlt Hn)]; rewrite Hc in *; lia.
  - unfold read_ok, remaining, reads_left. cbn [fp_stream fp_src fst snd]. rewrite app_assoc, take_drop.
    rewrite length_drop. split; [done|]. cbn [length]. split; lia.
Qed.

Lemma patcher_first_read f :
  fp_stream f = None ->
  (length (contents (fp_src f)) <? flacPrefixLen)%nat && negb (is_eof (p_closed (fp_src f))) = false ->
  exists src prefix, 
    (forall n, PatcherRead n f = stream_read n (mkPatcher src (fp_duration f) None) prefix) /\
    remaining (Patched (mkPatcher src (fp_duration f) (Some prefix))) = remaining (Patched f) /\
    (reads_left (Patched (mkPatcher src (fp_duration f) (Some prefix))) <= reads_left (Patched f))%nat.
Proof.
  destruct f as [p d s]. cbn [fp_stream fp_src fp_duration]. intros -> Hc.
  unfold PatcherRead, remaining. cbn [fp_stream fp_src fp_duration]. rewrite Hc. unfold ReadFull.
  pose proof (ReadFull_chunks_ok flacPrefixLen (p_chunks p)) as (H1 & H2 & H3). fold (contents p) in H1, H2.
  destruct (ReadFull_chunks flacPrefixLen (p_chunks p)) as [b r]. cbn [fst snd] in H1, H2, H3.
  unfold patched_prefix. assert ((length b <? flacPrefixLen)%nat = (length (contents p) <? flacPrefixLen)%nat) as ->.
  { rewrite H2, length_take. apply eq_true_iff_eq. rewrite !Nat.ltb_lt. lia. }
  destruct (length (contents p) <? flacPrefixLen)%nat eqn:El; bprop.
  - destruct Hc as [Hc|Hc]; [done|].
    assert (is_eof (match b, p_closed p with _ :: _, EOF => ErrUnexpectedEOF | _, e => e end) = true) as ->.
    { by destruct b, (p_closed p). }
    exists (mkPipe r (p_closed p)), b. split; [done|]. cbn [p_closed].
    change (contents (mkPipe r (p_closed p))) with (concat r). split; [by rewrite <- H1|].
    unfold reads_left. cbn [fp_src p_chunks]. change (contents (mkPipe r (p_closed p))) with (concat r).
    rewrite (f_equal length H1), length_app. lia.
  - exists (mkPipe r (p_closed p)), (setFLACTotalSamples b d). split; [done|]. cbn [p_closed].
    change (contents (mkPipe r (p_closed p))) with (concat r).
    assert (concat r = drop flacPrefixLen (contents p)) as Hr.
    { rewrite H1. rewrite drop_app_length'; [done|]. rewrite H2, length_take. lia. }
    split; [by rewrite Hr, <- H2|]. unfold reads_left. cbn [fp_src p_chunks fp_stream].
    rewrite setFLAC_length by (rewrite H2, length_take; unfold flacPrefixLen in *; lia).
    change (contents (mkPipe r (p_closed p))) with (concat r). rewrite Hr, length_drop. unfold flacPrefixLen in *. lia.
Qed.

Lemma Read_ok n r : read_ok n r (Read n r).
Proof.
  destruct r as [p|f]; cbn [Read].
  - pose proof (pipe_read_ok n p) as Hp. destruct (pipe_read n p) as [[b [e|]] p'].
    + destruct Hp as (-> & Hc & ->). unfold read_ok, remaining. by rewrite Hc.
    + destruct Hp as (Hc & He & Hle & Hlt). unfold read_ok, remaining, reads_left.
      cbn [fp_stream fp_src fst snd length app]. rewrite Hc, He. split; [done|]. split; [|intros Hn; specialize (Hlt Hn)]; rewrite Hc in *; lia.
  - destruct (fp_stream f) as [rest|] eqn:Es.
    { unfold PatcherRead. rewrite Es. pose proof (stream_read_ok n f rest) as H.
      destruct f. cbn in Es, H. subst. exact H. }
    destruct ((length (contents (fp_src f)) <? flacPrefixLen)%nat && negb (is_eof (p_closed (fp_src f)))) eqn:Ec.
    + unfold PatcherRead, ReadFull. rewrite Es.
      pose proof (ReadFull_chunks_ok flacPrefixLen (p_chunks (fp_src f))) as (_ & H2 & _). fold (contents (fp_src f)) in H2.
      destruct (ReadFull_chunks flacPrefixLen (p_chunks (fp_src f))) as [b r]. cbn [fst] in H2.
      pose proof Ec as Ec'. apply andb_prop in Ec as [Hl He]. apply Nat.ltb_lt in Hl. apply negb_true_iff in He.
      rewrite (proj2 (Nat.ltb_lt _ _)) by (rewrite H2, length_take; lia).
      unfold read_ok, remaining. rewrite Es, Ec'. by destruct b, (p_closed (fp_src f)).
    + destruct (patcher_first_read f Es Ec) as (src & prefix & HR & Hrem & Hle). rewrite HR.
      pose proof (stream_read_ok n (mkPatcher src (fp_duration f) None) prefix) as Hs. cbn [fp_src fp_duration] in Hs.
      destruct (stream_read _ _ _) as [[b [e|]] f']; unfold read_ok in *; rewrite <- Hrem; [done|].
      destruct Hs as (Hs1 & Hs2 & Hs3). split; [done|]. split; [lia|]. intros Hn. specialize (Hs3 Hn). lia.
Qed.

(** Reading with buffers of the given sizes, until an error. *)
Fixpoint read_all (sizes : list nat) (r : reader) : list Z * option io_error :=
  match sizes with
  | [] => ([], None)
  | n :: sizes =>
      let '(b, e, r') := Read n r in
      match e with
      | Some e => (b, Some e)
      | None => let '(bs, e) := read_all sizes r' in (b ++ bs, e)
      end
  end.

Lemma read_all_ok sizes r :
  match read_all sizes r with
  | (out, Some e) => remaining r = (out, e)
  | (out, None) =>
      (exists rest, (remaining r).1 = out ++ rest) /\
      (Forall (fun n => 0 < n)%nat sizes -> (length sizes <= reads_left r)%nat)
  end.
Proof.
  revert r. induction sizes as [|n sizes IH]; intros r; cbn [read_all].
  { split; [by eexists|simpl; lia]. }
  pose proof (Read_ok n r) as Hr. destruct (Read n r) as [[b [e|]] r']; unfold read_ok in Hr.
  - destruct Hr as [-> Hr]. exact Hr.
  - destruct Hr as (Hrem & Hle & Hlt). specialize (IH r'). destruct (read_all sizes r') as [out [e|]].
    + by rewrite Hrem, IH.
    + destruct IH as ([rest Hrest] & Hlen). split.
      * exists rest. rewrite Hrem. cbn [fst]. by rewrite Hrest, app_assoc.
      * intros Hall. decompose_Forall_hyps. specialize (Hlen ltac:(assumption)). specialize (Hlt ltac:(lia)). lia.
Qed.

(** ** The repaired stream *)

(** The fields lie in the prefix. *)
Lemma fields_app a b :
  length a = 26%nat ->
  sample_rate (a ++ b) = sample_rate a /\ channels_depth (a ++ b) = channels_depth a /\
  total_samples (a ++ b) = total_samples a /\ at_ (a ++ b) 4 = at_ a 4.
Proof.
  intros Hl. unfold sample_rate, channels_depth, total_samples, at_.
  rewrite !(app_nth1 a b) by lia. done.
Qed.

Lemma patchable_app a b n : length a = 26%nat -> patchable (a ++ b) n <-> patchable a n.
Proof.
  intros Hl. unfold patchable. destruct (fields_app a b Hl) as (-> & _ & -> & ->).
  by rewrite take_app_le by lia.
Qed.

Lemma word_put h v :
  length h = 18%nat -> 0 <= v < 2 ^ 64 ->
  let b := h ++ PutUint64 v in
  sample_rate b = v / 2 ^ 44 /\ channels_depth b = v / 2 ^ 36 mod 256 /\ total_samples b = v mod 2 ^ 36.
Proof.
  intros Hl Hv b. pose proof (get_put v Hv) as Hg. pose proof (put_bytes v) as Hp. unfold b.
  unfold PutUint64 in *. cbn [fmap list_fmap] in *.
  destruct (word_fields h _ _ _ _ _ _ _ _ Hl Hp) as (-> & -> & -> & _). by rewrite Hg.
Qed.

Lemma set_fields prefix m e :
  length prefix = 26%nat -> Forall byte prefix -> valid_binary 24 128 (S754_finite false m e) = true ->
  let n := exact_samples m e (sample_rate prefix) in
  let out := setFLACTotalSamples prefix (S754_finite false m e) in
  take 18 out = take 18 prefix /\ sample_rate out = sample_rate prefix /\
  channels_depth out = channels_depth prefix /\
  (patchable prefix n -> total_samples out = n) /\ (~ patchable prefix n -> out = prefix).
Proof.
  intros Hl Hb Hv n out.
  destruct (set_spec prefix m e Hl Hb Hv) as [(Hp & Ho & Hi & Ht)|(Hp & Ho)]; fold n in Hp; fold out in Ho; [|by rewrite Ho].
  fold n in Ho, Ht. rewrite Ho.
  destruct (prefix_shape prefix Hl) as (h & x0 & x1 & x2 & x3 & x4 & x5 & x6 & x7 & Ep & Hh).
  assert (Forall byte [x0; x1; x2; x3; x4; x5; x6; x7]) as Hx by (rewrite Ep in Hb; by apply Forall_app in Hb as [_ Hb]).
  destruct (word_fields h _ _ _ _ _ _ _ _ Hh Hx) as (Er & Ec & Et & _). rewrite <- Ep in Er, Ec, Et.
  assert (Uint64 (drop 18 prefix) = Uint64 [x0; x1; x2; x3; x4; x5; x6; x7]) as Ei by (by rewrite Ep, drop_app_length' by done).
  rewrite <- Ei in Er, Ec, Et. set (info := Uint64 (drop 18 prefix)) in *.
  assert (0 <= n < 2 ^ 36) as Hn.
  { split; [|apply Hp]. apply exact_nonneg. rewrite Er. apply Z.div_pos; lia. }
  pose proof Hp as (_ & _ & _ & Hz & _).
  destruct (word_put (take 18 prefix) (info + n)) as (-> & -> & ->); [rewrite length_take; lia|lia|].
  rewrite take_app_length' by (rewrite length_take; lia). rewrite Er, Ec.
  rewrite Hz in Et. clear - Hn Et Hi Hp. clearbody info n.
  change (2 ^ 44) with (2 ^ 36 * 256). rewrite <- !Z.div_div by lia.
  assert ((info + n) / 2 ^ 36 = info / 2 ^ 36) as ->.
  { change (2 ^ 36) with 68719476736 in *. Z.to_euclidean_division_equations; lia. }
  repeat split; try done.
  - intros _. change (2 ^ 36) with 68719476736 in *. Z.to_euclidean_division_equations; lia.
Qed.

(** Read to its end with buffers of any sizes, the output of the transcoder
    comes through with the error that ended it and with every byte in place,
    except that a FLAC header without a number of samples gets it: the integer
    nearest to duration times the header's own sample rate, with sample rate,
    channels and depth untouched, when it fits the 36 bits of the field.  A
    stream that fails before its header is complete reports only the failure,
    and a shorter one is passed on as it is. *)
Theorem flac_stream_repaired m e p sizes :
  valid_binary 24 128 (S754_finite false m e) = true -> Forall byte (contents p) ->
  Forall (fun n => 0 < n)%nat sizes -> (length (contents p) + length (p_chunks p) < length sizes)%nat ->
  let src := contents p in
  let (out, err) := read_all sizes (patchFLACDuration p (S754_finite false m e)) in
  err = Some (p_closed p) /\
  if (26 <=? length src)%nat then
    take 18 out = take 18 src /\ drop 26 out = drop 26 src /\ length out = length src /\
    sample_rate out = sample_rate src /\ channels_depth out = channels_depth src /\
    exists n, nearest n m e (sample_rate src) /\
      (patchable src n -> total_samples out = n) /\ (~ patchable src n -> out = src)
  else out = if is_eof (p_closed p) then src else [].
Proof.
  intros Hv Hb Hpos Hlen src. unfold patchFLACDuration. cbn [SFleb SFcompare].
  set (r := Patched _). pose proof (read_all_ok sizes r) as Hd. destruct (read_all sizes r) as [out [err|]];
    [|destruct Hd as [_ Hd]; specialize (Hd Hpos); unfold reads_left in Hd; cbn in Hd; lia].
  unfold remaining in Hd. cbn [r fp_stream fp_src fp_duration] in Hd. fold src in Hd, Hb, Hlen.
  unfold patched_prefix, flacPrefixLen in Hd. destruct (26 <=? length src)%nat eqn:El; bprop.
  - rewrite (proj2 (Nat.ltb_ge _ _)) in Hd by lia. cbn [andb] in Hd. injection Hd as <- <-. split; [done|].
    assert (length (take 26 src) = 26%nat) as Hl by (rewrite length_take; lia).
    pose proof (setFLAC_length _ (S754_finite false m e) Hl) as Hl'.
    assert (Forall byte (take 26 src)) as Hbt by (by apply Forall_take).
    destruct (set_fields _ m e Hl Hbt Hv) as (H18 & Hr & Hc & Ht & Hu).
    set (pre := setFLACTotalSamples _ _) in *.
    destruct (fields_app (take 26 src) (drop 26 src) Hl) as (Sr & Sc & St & _). rewrite take_drop in Sr, Sc, St.
    destruct (fields_app pre (drop 26 src) Hl') as (-> & -> & -> & _).
    rewrite Sr, Sc, Hr, Hc. rewrite take_app_le, H18, take_take by lia. rewrite drop_app_length' by done.
    repeat split; try done.
    { rewrite length_app, length_drop, Hl'. lia. }
    exists (exact_samples m e (sample_rate (take 26 src))). split; [apply exact_nearest|].
    rewrite <- (patchable_app (take 26 src) (drop 26 src)), take_drop in Ht, Hu by done.
    split; [exact Ht|]. intros Hn. rewrite (Hu Hn). apply take_drop.
  - rewrite (proj2 (Nat.ltb_lt _ _)) in Hd by lia. cbn [andb] in Hd.
    destruct (is_eof (p_closed p)); cbn [negb] in Hd; by injection Hd as <- <-.
Qed.

(** A second of 44.1 kHz stereo, written to the pipe in three pieces. *)
Definition example_pipe : pipe :=
  mkPipe [[102; 76; 97]; [67; 0; 0; 0; 34; 16; 0; 16; 0; 0; 0; 0; 0; 0; 0; 10; 196; 66; 240; 0; 0; 0; 0; 1; 2]; [3; 4]] EOF.

Lemma flac_stream_repaired_witness :
  let (out, err) := read_all (replicate 40 7%nat) (patchFLACDuration example_pipe (S754_finite false 8388608 (-23))) in
  err = Some EOF /\ sample_rate out = 44100 /\ total_samples out = 44100.
Proof.
  pose proof (flac_stream_repaired 8388608 (-23) example_pipe (replicate 40 7%nat)) as H.
  specialize (H ltac:(reflexivity) ltac:(repeat (constructor; [unfold byte; lia|]); constructor)
    ltac:(repeat (constructor; [lia|]); constructor) ltac:(vm_compute; lia)).
  cbv zeta in H. destruct (read_all _ _) as [out err]. destruct H as [He H].
  change (26 <=? length (contents example_pipe))%nat with true in H.
  destruct H as (_ & _ & _ & Hr & _ & n & Hn & Hp & _). split; [exact He|]. split; [exact Hr|].
  change (sample_rate (contents example_pipe)) with 44100 in Hn. unfold nearest in Hn.
  cbn [Z.leb Z.compare Z.opp] in Hn. change (2 ^ 23) with 8388608 in Hn. assert (n = 44100) as -> by lia.
  apply Hp. by vm_compute.
Defined.
