(* ===== verification/GoText.v ===== *)
(** * Go's text functions on strings: trimming, splitting and searching

    Package [strings] and [strconv.ParseBool] as the criteria, lyrics and
    playlist code uses them.  White space is the ASCII white space. *)

From Stdlib Require Import Ascii String.
From S2P Require Import Prelude GoStrings.

Local Open Scope Z_scope.

(** ** Trimming *)

Definition is_space (c : ascii) : bool :=
  let n := nat_of_ascii c in (n =? 32)%nat || ((9 <=? n) && (n <=? 13))%nat.

Fixpoint TrimLeft (s : string) : string :=
  match s with
  | String c s' => if is_space c then TrimLeft s' else s
  | EmptyString => EmptyString
  end.

(** The white space at the end goes when nothing else follows it. *)
Fixpoint TrimRight (s : string) : string :=
  match s with
  | String c s' =>
      match TrimRight s' with
      | EmptyString => if is_space c then EmptyString else String c EmptyString
      | r => String c r
      end
  | EmptyString => EmptyString
  end.

(** [strings.TrimSpace]. *)
Definition TrimSpace (s : string) : string := TrimRight (TrimLeft s).

(** ** Splitting *)

(** [strings.Split(s, sep)] for a separator of one byte. *)
Fixpoint SplitOn (sep : ascii) (s : string) : list string :=
  match s with
  | EmptyString => [EmptyString]
  | String c s =>
      let parts := SplitOn sep s in
      if Ascii.eqb c sep then EmptyString :: parts
      else match parts with
           | [] => [String c EmptyString]
           | p :: parts => String c p :: parts
           end
  end.

(** [s[n:]]. *)
Fixpoint str_drop (n : nat) (s : string) : string :=
  match n, s with
  | S n, String _ s => str_drop n s
  | _, _ => s
  end.

Example TrimSpace_ex : TrimSpace "  a b	 " = "a b" /\ TrimSpace "   " = "".
Proof. split; reflexivity. Qed.
Example SplitOn_ex : SplitOn "," "a,,b" = ["a"; ""; "b"] /\ SplitOn "," "" = [""].
Proof. split; reflexivity. Qed.

(** ** [strconv.ParseBool] *)
Definition ParseBool (s : string) : option bool :=
  if bool_decide (s ∈ ["1"; "t"; "T"; "TRUE"; "true"; "True"]) then Some true
  else if bool_decide (s ∈ ["0"; "f"; "F"; "FALSE"; "false"; "False"]) then Some false
  else None.

(** ** Facts *)

Lemma TrimLeft_idemp s : TrimLeft (TrimLeft s) = TrimLeft s.
Proof.
  induction s as [|c s IH]; [done|]. simpl. destruct (is_space c) eqn:E; [done|]. simpl. by rewrite E.
Qed.

Lemma TrimRight_idemp s : TrimRight (TrimRight s) = TrimRight s.
Proof.
  induction s as [|c s IH]; [done|]. simpl. destruct (TrimRight s) as [|d r] eqn:E.
  - destruct (is_space c) eqn:Ec; [done|]. simpl. by rewrite Ec.
  - cbn [TrimRight] in *. by rewrite IH.
Qed.

Lemma TrimLeft_TrimRight s : TrimLeft (TrimRight (TrimLeft s)) = TrimRight (TrimLeft s).
Proof.
  induction s as [|c s IH]; [done|]. cbn [TrimLeft]. destruct (is_space c) eqn:E; [done|].
  cbn [TrimRight]. destruct (TrimRight s); rewrite ?E; simpl; by rewrite E.
Qed.

Lemma TrimSpace_idemp s : TrimSpace (TrimSpace s) = TrimSpace s.
Proof. unfold TrimSpace. by rewrite TrimLeft_TrimRight, TrimRight_idemp. Qed.
#[export] Hint Rewrite TrimSpace_idemp : gostr.
