(* ===== verification/Criteria.v ===== *)
(** * The smart-playlist criteria language

    [model/criteria].  A criteria is a tree of groups over leaf conditions on
    named fields, with a sort, a limit and an offset.  The registry of fields is
    a mutable map of the package; here it is an argument.  A Go map is the list
    of its entries, in whichever order a run visits them, with distinct keys. *)

From Stdlib Require Import Ascii String Floats.SpecFloat.
From stdpp Require Import sorting.
From S2P Require Import Prelude GoStrings GoText GoFloat.

Local Open Scope Z_scope.

(** ** Values

    A value of type [any]: what decoding JSON gives, and [int] for values built
    in Go. *)
Inductive value :=
| VNil
| VBool (b : bool)
| VNum (x : spec_float)
| VInt (z : Z)
| VStr (s : string)
| VList (l : list value)
| VMap (m : list (string * value)).

#[export] Instance spec_float_eq_dec : EqDecision spec_float.
Proof. solve_decision. Defined.

(** [ToBool]: a real bool, a string that parses as one, or the number 0 or 1. *)
Definition ToBool (v : value) : option bool :=
  match v with
  | VBool b => Some b
  | VStr s => ParseBool s
  | VNum x => if SFeqb x (float64_of_int 1) then Some true
              else if SFeqb x (float64_of_int 0) then Some false else None
  | _ => None
  end.

Definition normalizeBoolValue (v : value) : value :=
  match ToBool v with Some b => VBool b | None => v end.

(** ** Fields *)

Record FieldInfo := mkField {
  fi_Alias : string; fi_IsTag : bool; fi_IsRole : bool; fi_Numeric : bool; fi_Boolean : bool;
  fi_Nullable : bool; fi_tagAlias : string; fi_name : string }.

Definition plainField : FieldInfo := mkField "" false false false false false "" "".
Definition nullableField : FieldInfo := mkField "" false false false false true "" "".
Definition booleanField : FieldInfo := mkField "" false false false true false "" "".
Definition numericField : FieldInfo := mkField "" false false true false false "" "".
Definition numericNullable : FieldInfo := mkField "" false false true false true "" "".

(** The registry as the package initialises it. *)
Definition fieldMap : gmap string FieldInfo := list_to_map
  [("title", plainField); ("album", nullableField); ("hascoverart", booleanField); ("tracknumber", plainField);
   ("discnumber", plainField); ("year", plainField);
   ("date", mkField "" false false false false false "recordingdate" "");
   ("originalyear", plainField); ("originaldate", plainField); ("releaseyear", plainField);
   ("releasedate", plainField); ("size", plainField); ("compilation", booleanField); ("missing", booleanField);
   ("explicitstatus", nullableField); ("dateadded", plainField); ("datemodified", plainField);
   ("discsubtitle", nullableField); ("comment", nullableField); ("lyrics", nullableField);
   ("sorttitle", nullableField); ("sortalbum", nullableField); ("sortartist", nullableField);
   ("sortalbumartist", nullableField); ("albumcomment", nullableField); ("catalognumber", nullableField);
   ("filepath", plainField); ("filetype", plainField); ("codec", plainField); ("duration", plainField);
   ("bitrate", plainField); ("bitdepth", numericNullable); ("samplerate", plainField); ("bpm", numericNullable);
   ("channels", plainField); ("loved", booleanField); ("dateloved", plainField); ("lastplayed", plainField);
   ("daterated", plainField); ("playcount", plainField); ("rating", plainField); ("averagerating", numericField);
   ("albumrating", plainField); ("albumloved", booleanField); ("albumplaycount", plainField);
   ("albumlastplayed", plainField); ("albumdateloved", plainField); ("albumdaterated", plainField);
   ("albumdateadded", plainField); ("albumdatemodified", plainField); ("albumduration", plainField);
   ("albumsongcount", plainField); ("albumsize", plainField); ("artistrating", plainField);
   ("artistloved", booleanField); ("artistplaycount", plainField); ("artistlastplayed", plainField);
   ("artistdateloved", plainField); ("artistdaterated", plainField); ("mbz_album_id", nullableField);
   ("mbz_album_artist_id", nullableField); ("mbz_artist_id", nullableField); ("mbz_recording_id", nullableField);
   ("mbz_release_track_id", nullableField); ("mbz_release_group_id", nullableField);
   ("rgalbumgain", numericNullable); ("rgalbumpeak", numericNullable); ("rgtrackgain", numericNullable);
   ("rgtrackpeak", numericNullable); ("library_id", numericField);
   ("albumtype", mkField "releasetype" true false false false false "" "");
   ("replaygain_album_gain", mkField "rgalbumgain" false false true false true "" "");
   ("replaygain_album_peak", mkField "rgalbumpeak" false false true false true "" "");
   ("replaygain_track_gain", mkField "rgtrackgain" false false true false true "" "");
   ("replaygain_track_peak", mkField "rgtrackpeak" false false true false true "" "");
   ("random", plainField)].

Definition with_name (f : FieldInfo) (n : string) : FieldInfo :=
  mkField (fi_Alias f) (fi_IsTag f) (fi_IsRole f) (fi_Numeric f) (fi_Boolean f) (fi_Nullable f) (fi_tagAlias f) n.

(** [LookupField]; [None] is [ok = false]. *)
Definition LookupField (fm : gmap string FieldInfo) (name : string) : option FieldInfo :=
  let key := ToLower name in
  f ← fm !! key;
  Some (with_name f (if String.eqb (fi_Alias f) "" then key else fi_Alias f)).

Definition addRole (fm : gmap string FieldInfo) (role : string) : gmap string FieldInfo :=
  let name := ToLower role in
  match fm !! name with
  | Some _ => fm
  | None => <[name := mkField "" false true false false false "" ""]> fm
  end.
Definition AddRoles (roles : list string) (fm : gmap string FieldInfo) : gmap string FieldInfo :=
  foldl addRole fm roles.

(** A tag that some field names as its alias becomes an alias of that field. *)
Definition addTagName (fm : gmap string FieldInfo) (tagName : string) : gmap string FieldInfo :=
  let name := ToLower tagName in
  match fm !! name with
  | Some _ => fm
  | None =>
      match List.find (fun kf => String.eqb (fi_tagAlias kf.2) name) (map_to_list fm) with
      | Some (key, f) =>
          <[name := mkField key (fi_IsTag f) (fi_IsRole f) (fi_Numeric f) (fi_Boolean f) (fi_Nullable f) "" (fi_name f)]> fm
      | None => <[name := mkField "" true false false false false "" ""]> fm
      end
  end.
Definition AddTagNames (tagNames : list string) (fm : gmap string FieldInfo) : gmap string FieldInfo :=
  foldl addTagName fm tagNames.

Definition addNumericTag (fm : gmap string FieldInfo) (tagName : string) : gmap string FieldInfo :=
  let name := ToLower tagName in
  match fm !! name with
  | Some f => <[name := mkField (fi_Alias f) (fi_IsTag f) (fi_IsRole f) true (fi_Boolean f) (fi_Nullable f)
                          (fi_tagAlias f) (fi_name f)]> fm
  | None => <[name := mkField "" true false true false false "" ""]> fm
  end.
Definition AddNumericTags (tagNames : list string) (fm : gmap string FieldInfo) : gmap string FieldInfo :=
  foldl addNumericTag fm tagNames.

(** ** Expressions *)

(** The types of the leaf conditions, each a map from field to value. *)
Inductive operator :=
| Is | IsNot | Gt | Lt | Before | After | Contains | NotContains | StartsWith | EndsWith
| InTheRange | InTheLast | NotInTheLast | InPlaylist | NotInPlaylist | IsMissing | IsPresent.

#[export] Instance operator_eq_dec : EqDecision operator.
Proof. solve_decision. Defined.

Inductive Expression :=
| All (l : list Expression)
| Any (l : list Expression)
| Leaf (op : operator) (values : list (string * value)).

(** Induction through the lists of the groups. *)
Section expression_ind.
Context (P : Expression -> Prop).
Hypothesis HAll : forall l, Forall P l -> P (All l).
Hypothesis HAny : forall l, Forall P l -> P (Any l).
Hypothesis HLeaf : forall op values, P (Leaf op values).

Fixpoint expression_rose_ind (e : Expression) : P e :=
  let go := fix go (l : list Expression) : Forall P l :=
    match l with
    | [] => Forall_nil_2 P
    | e :: l => Forall_cons_2 P e l (expression_rose_ind e) (go l)
    end in
  match e with
  | All l => HAll l (go l)
  | Any l => HAny l (go l)
  | Leaf op values => HLeaf op values
  end.
End expression_ind.

Definition fields (e : Expression) : list (string * value) :=
  match e with All _ | Any _ => [] | Leaf _ values => values end.

(** The visits of [Walk], in order. *)
Fixpoint Walk (e : Expression) : list Expression :=
  match e with
  | All l | Any l => e :: concat (Walk <$> l)
  | Leaf _ _ => [e]
  end.

Definition map_get (k : string) (m : list (string * value)) : option value :=
  snd <$> List.find (fun kv => String.eqb kv.1 k) m.

Fixpoint extractPlaylistField (e : Expression) (field : string) : list string :=
  match e with
  | All l | Any l => concat ((fun e => extractPlaylistField e field) <$> l)
  | Leaf (InPlaylist | NotInPlaylist) values =>
      match map_get field values with
      | Some (VStr v) => if String.eqb v "" then [] else [v]
      | _ => []
      end
  | Leaf _ _ => []
  end.

(** ** Criteria *)

Record Criteria := mkCriteria {
  c_Expression : option Expression; c_Sort : string; c_Order : string; c_Limit : Z; c_LimitPercent : Z;
  c_Offset : Z; c_RefreshDelay : Z }.

Definition EffectiveLimit (c : Criteria) (totalCount : Z) : Z :=
  if c_Limit c >? 0 then c_Limit c
  else if (c_LimitPercent c >? 0) && (c_LimitPercent c <=? 100) then
    if totalCount <=? 0 then 0
    else let result := Z.quot (wrap64 (totalCount * c_LimitPercent c)) 100 in
         if result <? 1 then 1 else result
  else 0.

Definition IsPercentageLimit (c : Criteria) : bool :=
  (c_Limit c =? 0) && (c_LimitPercent c >? 0) && (c_LimitPercent c <=? 100).

Definition ResolveLimit (c : Criteria) (totalCount : Z) : Criteria :=
  if IsPercentageLimit c then
    mkCriteria (c_Expression c) (c_Sort c) (c_Order c) (EffectiveLimit c totalCount) (c_LimitPercent c)
      (c_Offset c) (c_RefreshDelay c)
  else c.

(** [slices.Sort] and [slices.Compact] of strings, in byte order. *)
Definition str_le (a b : string) : Prop := String.leb a b = true.
#[export] Instance str_le_dec : RelDecision str_le.
Proof. intros a b. unfold str_le. apply _. Defined.

(** The keys of a map, sorted. *)
Definition key_le {A} (a b : string * A) : Prop := str_le a.1 b.1.
#[export] Instance key_le_dec {A} : RelDecision (@key_le A).
Proof. intros a b. unfold key_le. apply _. Defined.

Fixpoint Compact (l : list string) : list string :=
  match l with
  | a :: ((b :: _) as l') => if String.eqb a b then Compact l' else a :: Compact l'
  | _ => l
  end.

Definition childPlaylistRefs (c : Criteria) (field : string) : list string :=
  match c_Expression c with
  | Some ((All _ | Any _) as parent) => Compact (merge_sort str_le (extractPlaylistField parent field))
  | _ => []
  end.
Definition ChildPlaylistIds (c : Criteria) : list string := childPlaylistRefs c "id".
Definition ChildPlaylistPaths (c : Criteria) : list string := childPlaylistRefs c "path".

(** ** Sorting *)

Record SortField := mkSort { sf_Field : string; sf_Desc : bool }.

(** One comma-separated part of the sort. *)
Definition sort_part (fm : gmap string FieldInfo) (order part : string) : option SortField :=
  let part := TrimSpace part in
  if String.eqb part "" then None else
  let '(desc, part) :=
    match part with
    | String c rest => if Ascii.eqb c "+" || Ascii.eqb c "-" then (Ascii.eqb c "-", TrimSpace rest) else (false, part)
    | EmptyString => (false, part)
    end in
  info ← LookupField fm part;
  Some (mkSort (fi_name info) (if String.eqb order "desc" then negb desc else desc)).

Definition OrderByFields (fm : gmap string FieldInfo) (c : Criteria) : list SortField :=
  let sortValue := if String.eqb (c_Sort c) "" then "title" else c_Sort c in
  let order := ToLower (TrimSpace (c_Order c)) in
  let order := if negb (String.eqb order "") && negb (String.eqb order "asc") && negb (String.eqb order "desc")
               then "" else order in
  match omap (sort_part fm order) (SplitOn "," sortValue) with
  | [] => [mkSort "title" false]
  | fields => fields
  end.

Definition SortFieldNames (fm : gmap string FieldInfo) (c : Criteria) : list string :=
  sf_Field <$> OrderByFields fm c.

Example OrderByFields_ex :
  OrderByFields fieldMap (mkCriteria None "-rating, title,bogus" "desc" 0 0 0 0) =
  [mkSort "rating" false; mkSort "title" true].
Proof. vm_compute. reflexivity. Qed.
