(* ===== verification/CriteriaSql.v ===== *)
(** * Smart-playlist criteria as SQL

    [persistence/criteria_sql.go].  The conditions the code builds are values of
    the query builder's types; here they are the constructors of [Sqlizer].  A
    condition whose SQL text the code wraps itself ([tagCond], [roleCond], their
    groups, and the playlist subquery) keeps its parts. *)

From Stdlib Require Import Ascii String Floats.SpecFloat.
From stdpp Require Import sorting.
From S2P Require Import Prelude GoStrings GoText GoFloat Criteria.

Local Open Scope Z_scope.
Local Open Scope go_scope.

(** ** Joins *)

Definition smartPlaylistJoinType : Type := Z.
Definition smartPlaylistJoinNone : smartPlaylistJoinType := 0.
Definition smartPlaylistJoinAlbumAnnotation : smartPlaylistJoinType := Z.shiftl 1 1.
Definition smartPlaylistJoinArtistAnnotation : smartPlaylistJoinType := Z.shiftl 1 2.
Definition smartPlaylistJoinAlbum : smartPlaylistJoinType := Z.shiftl 1 3.

Definition has (j other : smartPlaylistJoinType) : bool := negb (Z.land j other =? 0).

(** ** Columns *)

Record smartPlaylistField := mkSPF {
  spf_expr : string; spf_order : string; spf_joinType : smartPlaylistJoinType;
  spf_emptyValues : list string; spf_coalesceDefault : option value }.

Definition spf_col (expr : string) : smartPlaylistField := mkSPF expr "" smartPlaylistJoinNone [] None.
Definition spf_ann (expr : string) (d : value) : smartPlaylistField := mkSPF expr "" smartPlaylistJoinNone [] (Some d).
Definition spf_join (expr : string) (j : smartPlaylistJoinType) : smartPlaylistField := mkSPF expr "" j [] None.
Definition spf_join_ann (expr : string) (d : value) (j : smartPlaylistJoinType) : smartPlaylistField :=
  mkSPF expr "" j [] (Some d).

Definition smartPlaylistFieldList : list (string * smartPlaylistField) :=
  [("title", spf_col "media_file.title"); ("album", spf_col "media_file.album");
   ("hascoverart", spf_col "media_file.has_cover_art"); ("tracknumber", spf_col "media_file.track_number");
   ("discnumber", spf_col "media_file.disc_number"); ("year", spf_col "media_file.year");
   ("date", spf_col "media_file.date"); ("originalyear", spf_col "media_file.original_year");
   ("originaldate", spf_col "media_file.original_date"); ("releaseyear", spf_col "media_file.release_year");
   ("releasedate", spf_col "media_file.release_date"); ("size", spf_col "media_file.size");
   ("compilation", spf_col "media_file.compilation"); ("missing", spf_col "media_file.missing");
   ("explicitstatus", spf_col "media_file.explicit_status"); ("dateadded", spf_col "media_file.created_at");
   ("datemodified", spf_col "media_file.updated_at"); ("discsubtitle", spf_col "media_file.disc_subtitle");
   ("comment", spf_col "media_file.comment");
   ("lyrics", mkSPF "media_file.lyrics" "" smartPlaylistJoinNone ["[]"] None);
   ("sorttitle", spf_col "media_file.sort_title"); ("sortalbum", spf_col "media_file.sort_album_name");
   ("sortartist", spf_col "media_file.sort_artist_name");
   ("sortalbumartist", spf_col "media_file.sort_album_artist_name");
   ("albumcomment", spf_col "media_file.mbz_album_comment"); ("catalognumber", spf_col "media_file.catalog_num");
   ("filepath", spf_col "media_file.path"); ("filetype", spf_col "media_file.suffix");
   ("codec", spf_col "media_file.codec"); ("duration", spf_col "media_file.duration");
   ("bitrate", spf_col "media_file.bit_rate"); ("bitdepth", spf_col "media_file.bit_depth");
   ("samplerate", spf_col "media_file.sample_rate"); ("bpm", spf_col "media_file.bpm");
   ("channels", spf_col "media_file.channels");
   ("loved", spf_ann "annotation.starred" (VBool false)); ("dateloved", spf_col "annotation.starred_at");
   ("lastplayed", spf_col "annotation.play_date"); ("daterated", spf_col "annotation.rated_at");
   ("playcount", spf_ann "annotation.play_count" (VInt 0)); ("rating", spf_ann "annotation.rating" (VInt 0));
   ("averagerating", spf_col "media_file.average_rating");
   ("albumrating", spf_join_ann "album_annotation.rating" (VInt 0) smartPlaylistJoinAlbumAnnotation);
   ("albumloved", spf_join_ann "album_annotation.starred" (VBool false) smartPlaylistJoinAlbumAnnotation);
   ("albumplaycount", spf_join_ann "album_annotation.play_count" (VInt 0) smartPlaylistJoinAlbumAnnotation);
   ("albumlastplayed", spf_join "album_annotation.play_date" smartPlaylistJoinAlbumAnnotation);
   ("albumdateloved", spf_join "album_annotation.starred_at" smartPlaylistJoinAlbumAnnotation);
   ("albumdaterated", spf_join "album_annotation.rated_at" smartPlaylistJoinAlbumAnnotation);
   ("albumdateadded", spf_join "album.created_at" smartPlaylistJoinAlbum);
   ("albumdatemodified", spf_join "album.updated_at" smartPlaylistJoinAlbum);
   ("albumduration", spf_join "album.duration" smartPlaylistJoinAlbum);
   ("albumsongcount", spf_join "album.song_count" smartPlaylistJoinAlbum);
   ("albumsize", spf_join "album.size" smartPlaylistJoinAlbum);
   ("artistrating", spf_join_ann "artist_annotation.rating" (VInt 0) smartPlaylistJoinArtistAnnotation);
   ("artistloved", spf_join_ann "artist_annotation.starred" (VBool false) smartPlaylistJoinArtistAnnotation);
   ("artistplaycount", spf_join_ann "artist_annotation.play_count" (VInt 0) smartPlaylistJoinArtistAnnotation);
   ("artistlastplayed", spf_join "artist_annotation.play_date" smartPlaylistJoinArtistAnnotation);
   ("artistdateloved", spf_join "artist_annotation.starred_at" smartPlaylistJoinArtistAnnotation);
   ("artistdaterated", spf_join "artist_annotation.rated_at" smartPlaylistJoinArtistAnnotation);
   ("mbz_album_id", spf_col "media_file.mbz_album_id");
   ("mbz_album_artist_id", spf_col "media_file.mbz_album_artist_id");
   ("mbz_artist_id", spf_col "media_file.mbz_artist_id");
   ("mbz_recording_id", spf_col "media_file.mbz_recording_id");
   ("mbz_release_track_id", spf_col "media_file.mbz_release_track_id");
   ("mbz_release_group_id", spf_col "media_file.mbz_release_group_id");
   ("rgalbumgain", spf_col "media_file.rg_album_gain"); ("rgalbumpeak", spf_col "media_file.rg_album_peak");
   ("rgtrackgain", spf_col "media_file.rg_track_gain"); ("rgtrackpeak", spf_col "media_file.rg_track_peak");
   ("library_id", spf_col "media_file.library_id");
   ("random", mkSPF "" "random()" smartPlaylistJoinNone [] None)].

Definition smartPlaylistFields : gmap string smartPlaylistField := list_to_map smartPlaylistFieldList.

(** ** Conditions *)

(** A column, or a column with a default for a missing row. *)
Inductive colexpr := Col (name : string) | Coalesced (name : string) (d : value).

Inductive comparator := cmpEq | cmpNe | cmpGt | cmpGe | cmpLt | cmpLe.

#[export] Instance comparator_eq_dec : EqDecision comparator.
Proof. solve_decision. Defined.

(** The operator as a predicate on numbers. *)
Definition satisfy (c : comparator) (a b : spec_float) : bool :=
  match c with
  | cmpEq => SFeqb a b
  | cmpNe => negb (SFeqb a b)
  | cmpGt => SFltb b a
  | cmpGe => SFleb b a
  | cmpLt => SFltb a b
  | cmpLe => SFleb a b
  end.

Definition ordering (c : comparator) : bool :=
  match c with cmpEq | cmpNe => false | _ => true end.

Inductive Sqlizer :=
| SqAnd (l : list Sqlizer)
| SqOr (l : list Sqlizer)
| SqCmp (c : comparator) (fs : list (colexpr * value))
| SqLike (neg : bool) (fs : list (colexpr * string))
| SqTrue
| SqInPlaylist (neg : bool) (filters : Sqlizer)
| tagCond (tag : string) (numeric : bool) (cond : option Sqlizer) (not : bool)
| roleCond (role : string) (cond : option Sqlizer) (not : bool)
| tagCondGroup (tag : string) (numeric : bool) (conds : list Sqlizer) (not : bool)
| roleCondGroup (role : string) (conds : list Sqlizer) (not : bool).

(** ** What the code takes from libraries

    Unicode normalisation, and the parsing and printing of floating point. *)
Class CriteriaEnv := {
  NFC : string -> string;
  NFD : string -> string;
  ParseFloat : string -> option spec_float;
  fmt_float : spec_float -> string }.

(** ** Dates *)

(** The civil date of a number of days since the Unix epoch (Gregorian). *)
Definition civil (days : Z) : Z * Z * Z :=
  let z := days + 719468 in
  let era := z / 146097 in
  let doe := z mod 146097 in
  let yoe := (doe - doe / 1460 + doe / 36524 - doe / 146096) / 365 in
  let doy := doe - (365 * yoe + yoe / 4 - yoe / 100) in
  let mp := (5 * doy + 2) / 153 in
  let d := doy - (153 * mp + 2) / 5 + 1 in
  let m := if mp <? 10 then mp + 3 else mp - 9 in
  (yoe + era * 400 + (if m <=? 2 then 1 else 0), m, d).

Fixpoint pad (width : nat) (s : string) : string :=
  match width with
  | O => s
  | S w => if (S w <=? String.length s)%nat then s else String "0" (pad w s)
  end.
Definition pad_int (width : nat) (z : Z) : string :=
  if z <? 0 then "-" +:+ pad width (Itoa (- z)) else pad width (Itoa z).

(** [Format("2006-01-02")]; [from] counts nanoseconds of local time. *)
Definition hour : Z := 3600000000000.
Definition FormatDate (from : Z) : string :=
  let '(y, m, d) := civil (from / (24 * hour)) in
  pad_int 4 y +:+ "-" +:+ pad_int 2 m +:+ "-" +:+ pad_int 2 d.

Example FormatDate_ex :
  FormatDate (19782 * 24 * hour) = "2024-02-29" /\ FormatDate (-1) = "1969-12-31".
Proof. vm_compute. done. Qed.

Definition startOfPeriod (numDays from : Z) : string :=
  FormatDate (from + wrap64 (wrap64 (-24 * numDays) * hour)).

(** ** Rendering values: [fmt.Sprintf("%v", v)] *)

Definition integral (x : spec_float) : option Z :=
  match truncate x with
  | Some z => if SFeqb x (float64_of_int z) then Some z else None
  | None => None
  end.

Section criteria_sql.
Context `{CriteriaEnv}.

Definition sprint_float (x : spec_float) : string :=
  match x with
  | S754_zero true => "-0"
  | _ => match integral x with
         | Some z => if Z.abs z <? 10 ^ 21 then Itoa z else fmt_float x
         | None => fmt_float x
         end
  end.

Fixpoint Sprint (v : value) : string :=
  match v with
  | VNil => "<nil>"
  | VBool b => if b then "true" else "false"
  | VNum x => sprint_float x
  | VInt z => Itoa z
  | VStr s => s
  | VList l => "[" +:+ Join (Sprint <$> l) " " +:+ "]"
  | VMap m =>
      "map[" +:+ Join ((fun kv => kv.1 +:+ ":" +:+ kv.2)
                         <$> merge_sort key_le ((fun kv => (kv.1, Sprint kv.2)) <$> m)) " "
      +:+ "]"
  end.

(** ** Errors *)
Inductive criteria_error :=
| ErrInvalidField (field : string)
| ErrSingleField
| ErrInvalidBoolean (field : string)
| ErrNotSupported (field : string)
| ErrRange (field : string)
| ErrTagGroup (field : string)
| ErrParseInt
| ErrNoPlaylist.

(** ** Field lookup *)
Context (fm : gmap string FieldInfo).

(** The one field of a leaf: name, value and description; [ok] is false when
    there is not exactly one or it is unknown. *)
Definition singleField (values : list (string * value)) : string * value * FieldInfo * bool :=
  match values with
  | [(field, v)] =>
      match LookupField fm field with
      | Some info => (field, v, info, true)
      | None => (field, v, plainField, false)
      end
  | _ => ("", VNil, plainField, false)
  end.

Definition fieldExpr (name : string) : option string := spf_expr <$> smartPlaylistFields !! ToLower name.

(** Writing to a Go map. *)
Fixpoint map_put (k : string) (v : value) (m : list (string * value)) : list (string * value) :=
  match m with
  | [] => [(k, v)]
  | (k', v') :: m => if String.eqb k' k then (k, v) :: m else (k', v') :: map_put k v m
  end.

Fixpoint sqlFields_loop (values : list (string * value)) (acc : list (string * value))
  : result criteria_error (list (string * value)) :=
  match values with
  | [] => Ok acc
  | (field, v) :: values =>
      match LookupField fm field with
      | None => Err (ErrInvalidField field)
      | Some info =>
          if fi_IsTag info || fi_IsRole info then Err (ErrTagGroup field) else
          match fieldExpr (fi_name info) with
          | None => Err (ErrInvalidField field)
          | Some sqlField =>
              if String.eqb sqlField "" then Err (ErrInvalidField field)
              else sqlFields_loop values (map_put sqlField v acc)
          end
      end
  end.
Definition sqlFields (values : list (string * value)) : result criteria_error (list (string * value)) :=
  sqlFields_loop values [].

Definition build (c : comparator) (fs : list (string * value)) : Sqlizer :=
  SqCmp c ((fun kv => (Col kv.1, kv.2)) <$> fs).

(** ** Annotations *)

Definition annotationField (info : FieldInfo) : option (smartPlaylistField * value) :=
  f ← smartPlaylistFields !! fi_name info;
  d ← spf_coalesceDefault f;
  Some (f, d).

Definition coalesced (f : smartPlaylistField) : colexpr :=
  match spf_coalesceDefault f with
  | None => Col (spf_expr f)
  | Some d => Coalesced (spf_expr f) d
  end.

Definition boolToFloat (b : bool) : spec_float := float64_of_int (if b then 1 else 0).

Definition toFloat (v : value) : option spec_float :=
  match v with
  | VNum x => Some x
  | VInt z => Some (float64_of_int z)
  | VStr s => ParseFloat s
  | _ => None
  end.

(** [Some wrapNull] is [ok = true]. *)
Definition bareNullInclusion (defaultVal : value) (c : comparator) (v : value) : option bool :=
  match defaultVal with
  | VBool b =>
      if ordering c then None
      else match ToBool v with
           | Some v => Some (satisfy c (boolToFloat b) (boolToFloat v))
           | None => None
           end
  | _ =>
      match toFloat defaultVal, toFloat v with
      | Some d, Some v => Some (satisfy c d v)
      | _, _ => None
      end
  end.

Definition annotationCond (f : smartPlaylistField) (d : value) (c : comparator) (v : value) : Sqlizer :=
  match bareNullInclusion d c v with
  | None => SqCmp c [(coalesced f, v)]
  | Some wrapNull =>
      let base := SqCmp c [(Col (spf_expr f), v)] in
      if negb wrapNull then base else SqOr [base; SqCmp cmpEq [(Col (spf_expr f), VNil)]]
  end.

(** ** Leaves *)

Definition jsonExpr (info : FieldInfo) (cond : option Sqlizer) (negate : bool) : Sqlizer :=
  if fi_IsRole info then roleCond (fi_name info) cond negate
  else tagCond (fi_name info) (fi_Numeric info) cond negate.

Definition comparisonExpr (values : list (string * value)) (c : comparator) : result criteria_error Sqlizer :=
  let '(_, v, info, ok) := singleField values in
  if ok && (fi_IsTag info || fi_IsRole info) then
    Ok (jsonExpr info (Some (build c [("value", v)])) false)
  else
    match (if ok then annotationField info else None) with
    | Some (f, d) => Ok (annotationCond f d c v)
    | None => try fields := sqlFields values in Ok (build c fields)
    end.

Definition isNotExpr (values : list (string * value)) : result criteria_error Sqlizer :=
  let '(_, v, info, ok) := singleField values in
  if ok && (fi_IsTag info || fi_IsRole info) then
    Ok (jsonExpr info (Some (build cmpEq [("value", v)])) true)
  else comparisonExpr values cmpNe.

Definition missingExpr (values : list (string * value)) (checkAbsence : bool) : result criteria_error Sqlizer :=
  let '(field, v, info, ok) := singleField values in
  if negb ok then
    if negb (length values =? 1)%nat then Err ErrSingleField else Err (ErrInvalidField field)
  else
    match v with
    | VBool b =>
        let negate := Bool.eqb checkAbsence b in
        if fi_IsTag info || fi_IsRole info then Ok (jsonExpr info None negate)
        else if fi_Nullable info then
          match smartPlaylistFields !! fi_name info with
          | None => Err (ErrInvalidField field)
          | Some f =>
              if String.eqb (spf_expr f) "" then Err (ErrInvalidField field) else
              let col := Col (spf_expr f) in
              let empties := if negb (fi_Numeric info) && negb (fi_Boolean info)
                             then "" :: spf_emptyValues f else [] in
              if negate
              then Ok (SqOr (SqCmp cmpEq [(col, VNil)] :: ((fun e => SqCmp cmpEq [(col, VStr e)]) <$> empties)))
              else Ok (SqAnd (SqCmp cmpNe [(col, VNil)] :: ((fun e => SqCmp cmpNe [(col, VStr e)]) <$> empties)))
          end
        else Err (ErrNotSupported field)
    | _ => Err (ErrInvalidBoolean field)
    end.

(** The three patterns, as what goes before and after the value. *)
Definition pattern : Type := string * string.
Definition pat_contains : pattern := ("%", "%").
Definition pat_prefix : pattern := ("", "%").
Definition pat_suffix : pattern := ("%", "").
Definition pat_of (p : pattern) (v : value) : string := p.1 +:+ Sprint v +:+ p.2.

Definition likeCond (col : colexpr) (p : string) (negate : bool) : Sqlizer := SqLike negate [(col, p)].

Definition likeExpr (values : list (string * value)) (p : pattern) (negate : bool) : result criteria_error Sqlizer :=
  let '(_, v, info, ok) := singleField values in
  if ok && (fi_IsTag info || fi_IsRole info) then
    Ok (jsonExpr info (Some (SqLike false [(Col "value", pat_of p v)])) negate)
  else
    match (if ok then annotationField info else None) with
    | Some (f, _) => Ok (likeCond (coalesced f) (pat_of p v) negate)
    | None =>
        try fields := sqlFields values in
        Ok (SqLike negate ((fun kv => (Col kv.1, pat_of p kv.2)) <$> fields))
    end.

Definition rangeExpr (values : list (string * value)) : result criteria_error Sqlizer :=
  let '(field, v, info, ok) := singleField values in
  if negb ok then Err (ErrInvalidField field)
  else if fi_IsTag info || fi_IsRole info then Err (ErrRange field)
  else
    match v with
    | VList [lo; hi] =>
        try low := comparisonExpr [(field, lo)] cmpGe in
        try high := comparisonExpr [(field, hi)] cmpLe in
        Ok (SqAnd [low; high])
    | _ => Err (ErrRange field)
    end.

(** The first field the iteration visits. *)
Definition periodExpr (now : Z) (values : list (string * value)) (negate : bool) : result criteria_error Sqlizer :=
  try fields := sqlFields values in
  let '(field, v) := match fields with kv :: _ => kv | [] => ("", VNil) end in
  match Atoi (Sprint v) with
  | None => Err ErrParseInt
  | Some days =>
      let firstDate := VStr (startOfPeriod days now) in
      if negate then Ok (SqOr [SqCmp cmpLt [(Col field, firstDate)]; SqCmp cmpEq [(Col field, VNil)]])
      else Ok (SqCmp cmpGt [(Col field, firstDate)])
  end.

Definition pathVariants (path : string) : list string :=
  [path] ++ (if negb (String.eqb (NFC path) path) then [NFC path] else [])
         ++ (if negb (String.eqb (NFD path) path) then [NFD path] else []).

(** The user a playlist is evaluated for. *)
Record Owner := mkOwner { ow_ID : string; ow_IsAdmin : bool }.

Definition playlist_ref (values : list (string * value)) : result criteria_error Sqlizer :=
  let by_path :=
    match map_get "path" values with
    | Some (VStr p) =>
        if String.eqb p "" then Err ErrNoPlaylist
        else Ok (SqCmp cmpEq [(Col "playlist.path", VList (VStr <$> pathVariants p))])
    | _ => Err ErrNoPlaylist
    end in
  match map_get "id" values with
  | Some (VStr i) => if String.eqb i "" then by_path else Ok (SqCmp cmpEq [(Col "pl.playlist_id", VStr i)])
  | _ => by_path
  end.

Definition inList (owner : Owner) (values : list (string * value)) (negate : bool) : result criteria_error Sqlizer :=
  try condition := playlist_ref values in
  let public := SqCmp cmpEq [(Col "playlist.public", VInt 1)] in
  let visible :=
    if ow_IsAdmin owner then []
    else if String.eqb (ow_ID owner) "" then [public]
    else [SqOr [public; SqCmp cmpEq [(Col "playlist.owner_id", VStr (ow_ID owner))]]] in
  Ok (SqInPlaylist negate (SqAnd (condition :: visible))).

(** ** Merging conditions on one field *)

Definition jsonCondBatchSize : nat := 350.

Record group := mkGroup {
  g_entries : list (nat * Sqlizer); g_isRole : bool; g_numeric : bool; g_tag : string }.

Definition add_entry (key : string) (new : group) (i : nat) (cond : Sqlizer) (groups : gmap string group)
  : gmap string group :=
  let g := default new (groups !! key) in
  <[key := mkGroup (g_entries g ++ [(i, cond)]) (g_isRole g) (g_numeric g) (g_tag g)]> groups.

Definition group_step (negated : bool) (groups : gmap string group) (ic : nat * Sqlizer) : gmap string group :=
  match ic.2 with
  | roleCond role (Some cond) not =>
      if Bool.eqb not negated
      then add_entry ("role:" +:+ role) (mkGroup [] true false "") ic.1 cond groups else groups
  | tagCond tag numeric (Some cond) not =>
      if Bool.eqb not negated
      then add_entry ("tag:" +:+ tag) (mkGroup [] false numeric tag) ic.1 cond groups else groups
  | _ => groups
  end.

(** [slices.Chunk]. *)
Fixpoint Chunk_loop {A} (fuel : nat) (n : nat) (l : list A) : list (list A) :=
  match fuel with
  | O => []
  | S fuel => match l with [] => [] | _ => take n l :: Chunk_loop fuel n (drop n l) end
  end.
Definition Chunk {A} (n : nat) (l : list A) : list (list A) := Chunk_loop (length l) n l.

Definition group_additions (negated : bool) (key : string) (g : group) : list Sqlizer :=
  if (length (g_entries g) <? 2)%nat then []
  else (fun batch => if g_isRole g then roleCondGroup (str_drop 5 key) batch negated
                     else tagCondGroup (g_tag g) (g_numeric g) batch negated)
         <$> Chunk jsonCondBatchSize (g_entries g).*2.

Definition group_removes (g : group) : list nat :=
  if (length (g_entries g) <? 2)%nat then [] else (g_entries g).*1.

(** The rewritten conditions; [None] when nothing was merged. *)
Definition mergeSameFieldConds (conds : list Sqlizer) (negated : bool) : option (list Sqlizer) :=
  let indexed := zip (seq 0 (length conds)) conds in
  let groups := foldl (group_step negated) ∅ indexed in
  let keyed := merge_sort key_le (map_to_list groups) in
  let remove := concat ((fun kg => group_removes kg.2) <$> keyed) in
  let additions := concat ((fun kg => group_additions negated kg.1 kg.2) <$> keyed) in
  match remove with
  | [] => None
  | _ => Some ((filter (fun ic => ic.1 ∉ remove) indexed).*2 ++ additions)
  end.

Definition mergeJsonConds (or : list Sqlizer) : Sqlizer :=
  match mergeSameFieldConds or false with Some merged => SqOr merged | None => SqOr or end.

Definition mergeNegatedJsonConds (and : list Sqlizer) : Sqlizer :=
  match mergeSameFieldConds and true with Some merged => SqAnd merged | None => SqAnd and end.

(** ** The translation *)

(** A loop that stops at the first error. *)
Definition map_result {E A B} (f : A -> result E B) : list A -> result E (list B) :=
  fix go l := match l with
              | [] => Ok []
              | x :: l => try y := f x in try ys := go l in Ok (y :: ys)
              end.

Context (owner : Owner) (now : Z).

Definition leafSQL (op : operator) (values : list (string * value)) : result criteria_error Sqlizer :=
  match op with
  | Is => comparisonExpr values cmpEq
  | IsNot => isNotExpr values
  | Gt => comparisonExpr values cmpGt
  | Lt => comparisonExpr values cmpLt
  | Before => comparisonExpr values cmpLt
  | After => comparisonExpr values cmpGt
  | Contains => likeExpr values pat_contains false
  | NotContains => likeExpr values pat_contains true
  | StartsWith => likeExpr values pat_prefix false
  | EndsWith => likeExpr values pat_suffix false
  | InTheRange => rangeExpr values
  | InTheLast => periodExpr now values false
  | NotInTheLast => periodExpr now values true
  | InPlaylist => inList owner values false
  | NotInPlaylist => inList owner values true
  | IsMissing => missingExpr values true
  | IsPresent => missingExpr values false
  end.

Fixpoint exprSQL (e : Expression) : result criteria_error Sqlizer :=
  match e with
  | All l => try and := map_result exprSQL l in Ok (mergeNegatedJsonConds and)
  | Any l => try or := map_result exprSQL l in Ok (mergeJsonConds or)
  | Leaf op values => leafSQL op values
  end.

Definition where_ (c : Criteria) : result criteria_error Sqlizer :=
  match c_Expression c with None => Ok SqTrue | Some e => exprSQL e end.

(** ** Joins and order *)

Definition fieldJoinType (name : string) : smartPlaylistJoinType :=
  match LookupField fm name with
  | None => smartPlaylistJoinNone
  | Some info => match smartPlaylistFields !! fi_name info with
                 | None => smartPlaylistJoinNone
                 | Some f => spf_joinType f
                 end
  end.

Definition or_joins (names : list string) (joins : smartPlaylistJoinType) : smartPlaylistJoinType :=
  foldl (fun joins name => Z.lor joins (fieldJoinType name)) joins names.

Definition expressionJoins (c : Criteria) : smartPlaylistJoinType :=
  match c_Expression c with
  | None => smartPlaylistJoinNone
  | Some e => foldl (fun joins e => or_joins (fields e).*1 joins) smartPlaylistJoinNone (Walk e)
  end.

Definition requiredJoins (c : Criteria) : smartPlaylistJoinType :=
  or_joins (SortFieldNames fm c) (expressionJoins c).

(** The tables the query reads once the joins are applied. *)
Definition applyJoins (joins : smartPlaylistJoinType) : list string :=
  ["media_file"; "annotation"] ++
  (if has joins smartPlaylistJoinAlbumAnnotation then ["album_annotation"] else []) ++
  (if has joins smartPlaylistJoinArtistAnnotation then ["artist_annotation"] else []) ++
  (if has joins smartPlaylistJoinAlbum then ["album"] else []).

(** An [ORDER BY] term: SQL text of its own, or an expression on a column or on
    the first element of a tag or role, as a number or not. *)
Inductive sort_term :=
| OrderText (sql : string)
| OrderCol (numeric : bool) (col : colexpr)
| OrderTag (numeric : bool) (tag : string)
| OrderRole (numeric : bool) (role : string).

Definition sortExpr (sortField : string) : option sort_term :=
  info ← LookupField fm sortField;
  let field := smartPlaylistFields !! fi_name info in
  match field with
  | Some f => if negb (String.eqb (spf_order f) "") then Some (OrderText (spf_order f)) else
              if fi_IsTag info then Some (OrderTag (fi_Numeric info) (fi_name info))
              else if fi_IsRole info then Some (OrderRole (fi_Numeric info) (fi_name info))
              else if String.eqb (spf_expr f) "" then None
              else Some (OrderCol (fi_Numeric info) (coalesced f))
  | None => if fi_IsTag info then Some (OrderTag (fi_Numeric info) (fi_name info))
            else if fi_IsRole info then Some (OrderRole (fi_Numeric info) (fi_name info))
            else None
  end.

Definition orderBy (c : Criteria) : list (sort_term * bool) :=
  omap (fun sf => (fun t => (t, sf_Desc sf)) <$> sortExpr (sf_Field sf)) (OrderByFields fm c).

End criteria_sql.
