(* ===== verification/CriteriaSqlFacts.v ===== *)
(** * Smart playlists select what their criteria say

    A database, as far as the generated conditions see it, is the class
    [Database]; its laws are those of SQL and of the query builder, stated for
    the conditions that are built.  The theorems compare the generated SQL with
    [matches], the meaning of a criteria on its own. *)

From Stdlib Require Import Ascii String Floats.SpecFloat.
From stdpp Require Import sorting.
From S2P Require Import Prelude GoStrings GoText GoFloat Criteria CriteriaSql.

Local Open Scope Z_scope.

(** ** The database *)

(** [R] is the type of rows and [V] that of the values in their columns.
    [holds r s] says that the condition is true of the row, neither false nor
    unknown. *)
Class Database (R V : Type) := {
  holds : R -> Sqlizer -> bool;
  cell : R -> string -> option V;
  compare : comparator -> V -> value -> bool;
  compare_expr : comparator -> V -> value -> bool;
  like : V -> string -> bool;
  literal : value -> V;
  cast_real : V -> V;
  tag_values : R -> string -> list V;
  credits : R -> string -> list (option V);
  playlist_rows : R -> list R;
  elem : V -> R }.

(** A comparison of a column with an argument: nothing compares with NULL, and
    [nil] asks for it. *)
Definition cmp_col {R V} `{Database R V} (r : R) (c : comparator) (col : string) (v : value) : bool :=
  match v, cell r col with
  | VNil, x => match c with
               | cmpEq => negb (bool_decide (is_Some x))
               | cmpNe => bool_decide (is_Some x)
               | _ => false
               end
  | _, Some x => compare c x v
  | _, None => false
  end.

Definition cmp_expr {R V} `{Database R V} (r : R) (c : comparator) (col : string) (d v : value) : bool :=
  match v with
  | VNil => bool_decide (c = cmpNe)
  | _ => compare_expr c (default (literal d) (cell r col)) v
  end.

Definition like_col {R V} `{Database R V} (r : R) (neg : bool) (e : colexpr) (p : string) : bool :=
  match e with
  | Col col => match cell r col with Some x => xorb neg (like x p) | None => false end
  | Coalesced col d => xorb neg (like (default (literal d) (cell r col)) p)
  end.

Definition cast {R V} `{Database R V} (numeric : bool) (x : V) : V := if numeric then cast_real x else x.

(** A decimal number written without exponent, as both Go and SQL read it. *)
Fixpoint all_digits (s : string) : bool :=
  match s with
  | EmptyString => true
  | String c s => bool_decide (is_Some (digit c)) && all_digits s
  end.
Definition decimal (s : string) : bool :=
  let s := match s with String "-" r => r | _ => s end in negb (String.eqb s "") && all_digits s.

Class DatabaseLaws (R V : Type) `{Database R V} `{CriteriaEnv} := {
  holds_and r l : holds r (SqAnd l) = forallb (holds r) l;
  holds_or r l : holds r (SqOr l) = existsb (holds r) l;
  holds_true r : holds r SqTrue = true;
  holds_cmp r c fs :
    holds r (SqCmp c fs) = forallb (fun cv => match cv.1 with
                                              | Col col => cmp_col r c col cv.2
                                              | Coalesced col d => cmp_expr r c col d cv.2
                                              end) fs;
  holds_like r neg fs : holds r (SqLike neg fs) = forallb (fun cp => like_col r neg cp.1 cp.2) fs;
  holds_tag r t num cond neg :
    holds r (tagCond t num (Some cond) neg) =
    xorb neg (existsb (fun x => holds (elem (cast num x)) cond) (tag_values r t));
  holds_tag_any r t num neg :
    holds r (tagCond t num None neg) = xorb neg (existsb (fun _ => true) (tag_values r t));
  holds_role r ro cond neg :
    holds r (roleCond ro (Some cond) neg) =
    xorb neg (existsb (fun x => match x with Some x => holds (elem x) cond | None => false end) (credits r ro));
  holds_role_any r ro neg :
    holds r (roleCond ro None neg) = xorb neg (existsb (fun _ => true) (credits r ro));
  holds_tag_group r t num conds neg :
    holds r (tagCondGroup t num conds neg) =
    xorb neg (existsb (fun x => existsb (holds (elem (cast num x))) conds) (tag_values r t));
  holds_role_group r ro conds neg :
    holds r (roleCondGroup ro conds neg) =
    xorb neg (existsb (fun x => match x with Some x => existsb (holds (elem x)) conds | None => false end)
                (credits r ro));
  holds_playlist r neg filters :
    holds r (SqInPlaylist neg filters) = xorb neg (existsb (fun p => holds p filters) (playlist_rows r));
  cell_elem x : cell (elem x) "value" = Some x;
  compare_ne x s : compare cmpNe x (VStr s) = negb (compare cmpEq x (VStr s));
  compare_zero c v x :
    toFloat v = Some x -> (forall s, v = VStr s -> decimal s = true) ->
    compare c (literal (VInt 0)) v = satisfy c (float64_of_int 0) x;
  compare_false c b :
    ordering c = false -> compare c (literal (VBool false)) (VBool b) = satisfy c (boolToFloat false) (boolToFloat b) }.

(** ** Merging *)

Section merge.
Context {R V : Type} `{DatabaseLaws R V} (r : R) (negated : bool).

(** Whether a condition decides its group: it is true of an [OR], or false of an
    [AND]. *)
Definition decides (s : Sqlizer) : bool := xorb negated (holds r s).

(** The key and inner condition a condition is grouped by, and the group it
    would open. *)
Definition keyed (s : Sqlizer) : option (string * Sqlizer) :=
  match s with
  | roleCond role (Some cond) not => if Bool.eqb not negated then Some ("role:" +:+ role, cond) else None
  | tagCond tag numeric (Some cond) not => if Bool.eqb not negated then Some ("tag:" +:+ tag, cond) else None
  | _ => None
  end.
Definition proto (s : Sqlizer) : group :=
  match s with
  | tagCond tag numeric _ _ => mkGroup [] false numeric tag
  | _ => mkGroup [] true false ""
  end.

Definition selected (k : string) (ic : nat * Sqlizer) : option (nat * Sqlizer) :=
  match keyed ic.2 with
  | Some (k', cond) => if String.eqb k' k then Some (ic.1, cond) else None
  | None => None
  end.

Lemma group_step_keyed groups ic :
  group_step negated groups ic =
  match keyed ic.2 with
  | Some (k, cond) => add_entry k (proto ic.2) ic.1 cond groups
  | None => groups
  end.
Proof.
  destruct ic as [i s]. unfold group_step, keyed. cbn [fst snd].
  destruct s as [| | | | | |? ? [?|] n|? [?|] n| |]; try done; by destruct (Bool.eqb n negated).
Qed.

(** What the map of groups holds for a key. *)
Definition group_for (ics : list (nat * Sqlizer)) (k : string) (og : option group) : Prop :=
  match og with
  | None => omap (selected k) ics = []
  | Some g =>
      g_entries g = omap (selected k) ics /\
      exists i s cond, (i, s) ∈ ics /\ keyed s = Some (k, cond) /\
        g_isRole g = g_isRole (proto s) /\ g_numeric g = g_numeric (proto s) /\ g_tag g = g_tag (proto s)
  end.

Lemma groups_built ics k : group_for ics k (foldl (group_step negated) ∅ ics !! k).
Proof.
  induction ics as [|[i s] ics IH] using rev_ind; [done|].
  rewrite foldl_app. cbn [foldl]. rewrite group_step_keyed. cbn [fst snd].
  set (G := foldl _ _ _) in *. destruct (keyed s) as [[k' cond]|] eqn:Ek.
  2:{ unfold group_for in *. assert (selected k (i, s) = None) as Hs by (unfold selected; cbn [fst snd]; by rewrite Ek).
      destruct (G !! k) as [g|]; rewrite omap_app; cbn [omap list_omap]; rewrite Hs, ?app_nil_r; [|done].
      destruct IH as (He & i' & s' & c' & Hin & ?). split; [done|]. exists i', s', c'. set_solver. }
  unfold add_entry. destruct (decide (k' = k)) as [->|Hk].
  - rewrite lookup_insert_eq. unfold group_for. cbn [g_entries g_isRole g_numeric g_tag].
    assert (selected k (i, s) = Some (i, cond)) as Hs by (unfold selected; cbn [fst snd]; by rewrite Ek, String.eqb_refl).
    rewrite omap_app. cbn [omap list_omap]. rewrite Hs. destruct (G !! k) as [g|] eqn:Eg; cbn [group_for default from_option id] in *.
    + destruct IH as (He & i' & s' & c' & Hin & ?). rewrite <- He. split; [done|]. exists i', s', c'. set_solver.
    + rewrite IH. destruct (proto s) eqn:Ep. split; [by destruct s; inversion Ep|].
      exists i, s, cond. rewrite Ep. set_solver.
  - rewrite lookup_insert_ne by done. unfold group_for in *.
    assert (selected k (i, s) = None) as Hs by (unfold selected; cbn [fst snd]; rewrite Ek; by rewrite (proj2 (String.eqb_neq _ _))).
    destruct (G !! k) as [g|]; rewrite omap_app; cbn [omap list_omap]; rewrite Hs, ?app_nil_r; [|done].
    destruct IH as (He & i' & s' & c' & Hin & ?). split; [done|]. exists i', s', c'. set_solver.
Qed.

Lemma elem_selected (ics : list (nat * Sqlizer)) k i cond :
  (i, cond) ∈ omap (selected k) ics <-> exists s, (i, s) ∈ ics /\ keyed s = Some (k, cond).
Proof.
  rewrite list_elem_of_omap. split.
  - intros ([j s] & Hin & Hs). unfold selected in Hs. cbn in Hs. destruct (keyed s) as [[k' c]|] eqn:E; [|done].
    destruct (String.eqb_spec k' k); simplify_eq. eauto.
  - intros (s & Hin & Hk). exists (i, s). split; [done|]. unfold selected. cbn. by rewrite Hk, String.eqb_refl.
Qed.

Lemma Chunk_concat {A} n (l : list A) : (0 < n)%nat -> concat (Chunk n l) = l.
Proof.
  intros Hn. unfold Chunk. assert (forall fuel (l : list A), (length l <= fuel)%nat -> concat (Chunk_loop fuel n l) = l) as Hg.
  { induction fuel as [|fuel IH]; intros [|x l'] Hl; cbn [length] in Hl; try done; [lia|].
    cbn [Chunk_loop concat]. rewrite IH; [apply take_drop|]. rewrite length_drop. cbn [length]. lia. }
  by apply Hg.
Qed.

(** The members of a group: same field, same polarity. *)
Definition same_field (s s' : Sqlizer) : Prop :=
  match s, s' with
  | tagCond t n (Some _) b, tagCond t' n' (Some _) b' => t = t' -> b = b' -> n = n'
  | _, _ => True
  end.

(** One batch of a group decides exactly when one of its members does. *)
Lemma batch_decides k s cond batch :
  keyed s = Some (k, cond) -> 
  decides (if g_isRole (proto s) then roleCondGroup (str_drop 5 k) batch negated
                     else tagCondGroup (g_tag (proto s)) (g_numeric (proto s)) batch negated) = true <->
  exists c, c ∈ batch /\
    match s with
    | tagCond t n _ b => decides (tagCond t n (Some c) b) = true
    | roleCond ro _ b => decides (roleCond ro (Some c) b) = true
    | _ => False
    end.
Proof.
  unfold decides. destruct s as [| | | | | |t n [c0|] b|ro [c0|] b| |]; try done; cbn [keyed proto g_isRole g_tag g_numeric];
    destruct (Bool.eqb_spec b negated) as [->|]; try done; intros [= <- <-].
  - rewrite holds_tag_group, <- xorb_assoc, xorb_nilpotent, xorb_false_l, existsb_exists. split.
    + intros (x & Hx & (c & Hc & Hh)%existsb_exists). exists c. rewrite list_elem_of_In. split; [done|].
      rewrite holds_tag, <- xorb_assoc, xorb_nilpotent, xorb_false_l, existsb_exists. eauto.
    + intros (c & Hc & Hh). rewrite holds_tag, <- xorb_assoc, xorb_nilpotent, xorb_false_l, existsb_exists in Hh.
      destruct Hh as (x & Hx & Hh). exists x. split; [done|]. apply existsb_exists. exists c. by rewrite <- list_elem_of_In.
  - change (str_drop 5 ("role:" +:+ ro)) with ro.
    rewrite holds_role_group, <- xorb_assoc, xorb_nilpotent, xorb_false_l, existsb_exists. split.
    + intros ([x|] & Hx & Hh); [|done]. apply existsb_exists in Hh as (c & Hc & Hh). exists c. rewrite list_elem_of_In.
      split; [done|]. rewrite holds_role, <- xorb_assoc, xorb_nilpotent, xorb_false_l, existsb_exists. by exists (Some x).
    + intros (c & Hc & Hh). rewrite holds_role, <- xorb_assoc, xorb_nilpotent, xorb_false_l, existsb_exists in Hh.
      destruct Hh as ([x|] & Hx & Hh); [|done]. exists (Some x). split; [done|]. apply existsb_exists. exists c.
      by rewrite <- list_elem_of_In.
Qed.

(** Two members of a group differ only in their inner condition. *)
Lemma keyed_same k s s' cond cond' :
  keyed s = Some (k, cond) -> keyed s' = Some (k, cond') -> same_field s s' ->
  match s with
  | tagCond t n _ b => s' = tagCond t n (Some cond') b
  | roleCond ro _ b => s' = roleCond ro (Some cond') b
  | _ => False
  end.
Proof.
  destruct s as [| | | | | |t n [c0|] b|ro [c0|] b| |]; try done; cbn [keyed];
    destruct (Bool.eqb_spec b negated) as [->|]; try done; intros [= <- <-];
    destruct s' as [| | | | | |t' n' [c1|] b'|ro' [c1|] b'| |]; try done; cbn [keyed];
    destruct (Bool.eqb_spec b' negated) as [->|]; try done; intros [= Hk <-]; autorewrite with gostr in Hk; try done;
    try (injection Hk as Hk); subst; cbn; [|done].
  intros Hn. f_equal. symmetry. by apply Hn.
Qed.

(** ** The groups of a list of conditions *)

Section merged.
Context (conds : list Sqlizer).
Hypothesis Hsame : forall s s', s ∈ conds -> s' ∈ conds -> same_field s s'.

Let ics := zip (seq 0 (length conds)) conds.
Let G := foldl (group_step negated) ∅ ics.
Let ks := merge_sort key_le (map_to_list G).
Let rem := concat ((fun kg => group_removes kg.2) <$> ks).

Lemma elem_ks k g : (k, g) ∈ ks <-> G !! k = Some g.
Proof. unfold ks. rewrite merge_sort_Permutation. apply elem_of_map_to_list. Qed.

Lemma group_entry k g i cond :
  G !! k = Some g -> (i, cond) ∈ g_entries g -> exists s, conds !! i = Some s /\ keyed s = Some (k, cond).
Proof.
  intros Hg Hin. pose proof (groups_built ics k) as Hb. fold G in Hb. rewrite Hg in Hb.
  destruct Hb as [He _]. rewrite He in Hin. apply elem_selected in Hin as (s & Hs & Hk).
  apply elem_indexed in Hs. eauto.
Qed.

Lemma elem_rem i :
  i ∈ rem <-> exists k g cond, G !! k = Some g /\ (2 <= length (g_entries g))%nat /\ (i, cond) ∈ g_entries g.
Proof.
  unfold rem. rewrite elem_concat_fmap. unfold group_removes. split.
  - intros ([k g] & Hkg & Hi). cbn [snd] in Hi. apply elem_ks in Hkg.
    destruct (_ <? _)%nat eqn:El; [by apply not_elem_of_nil in Hi|].
    apply list_elem_of_fmap in Hi as ([j cond] & -> & Hin). bprop. exists k, g, cond. repeat split; [done|lia|done].
  - intros (k & g & cond & Hg & Hl & Hin). exists (k, g). split; [by apply elem_ks|]. cbn [snd].
    rewrite (proj2 (Nat.ltb_ge _ _)) by lia. apply list_elem_of_fmap. by exists (i, cond).
Qed.

Lemma elem_batches {A} (l : list A) x :
  x ∈ l <-> exists batch, batch ∈ Chunk jsonCondBatchSize l /\ x ∈ batch.
Proof.
  rewrite <- (Chunk_concat jsonCondBatchSize l) at 1 by (unfold jsonCondBatchSize; lia).
  rewrite list_elem_of_In, in_concat. by setoid_rewrite list_elem_of_In.
Qed.

(** A batch of the group of [k] decides exactly when a condition merged into it does. *)
Lemma addition_decides k g batch :
  G !! k = Some g -> batch ∈ Chunk jsonCondBatchSize (g_entries g).*2 ->
  decides (if g_isRole g then roleCondGroup (str_drop 5 k) batch negated
           else tagCondGroup (g_tag g) (g_numeric g) batch negated) = true <->
  exists s c, s ∈ conds /\ keyed s = Some (k, c) /\ c ∈ batch /\ decides s = true.
Proof.
  intros Hg Hbatch. pose proof (groups_built ics k) as Hb. fold G in Hb. rewrite Hg in Hb.
  destruct Hb as (_ & i & s & cond & Hs & Hk & -> & -> & ->). apply elem_indexed, list_elem_of_lookup_2 in Hs.
  rewrite (batch_decides k s cond batch Hk). split.
  - intros (c & Hc & Hd). assert (c ∈ (g_entries g).*2) as Hce by (apply elem_batches; eauto).
    apply list_elem_of_fmap in Hce as ([j c'] & -> & Hin). destruct (group_entry k g j c' Hg Hin) as (s' & Hs' & Hk').
    apply list_elem_of_lookup_2 in Hs'. exists s', c'. repeat split; try done.
    pose proof (keyed_same k s s' cond c' Hk Hk' (Hsame _ _ Hs Hs')). by destruct s; subst.
  - intros (s' & c & Hs' & Hk' & Hc & Hd). exists c. split; [done|].
    pose proof (keyed_same k s s' cond c Hk Hk' (Hsame _ _ Hs Hs')). by destruct s; subst.
Qed.

(** The merged conditions decide exactly when the original ones do. *)
Lemma merge_decides merged :
  mergeSameFieldConds conds negated = Some merged ->
  (exists s, s ∈ merged /\ decides s = true) <-> (exists s, s ∈ conds /\ decides s = true).
Proof.
  unfold mergeSameFieldConds. fold ics G ks rem. intros Hm.
  assert (merged = (filter (fun ic => ic.1 ∉ rem) ics).*2 ++ concat ((fun kg => group_additions negated kg.1 kg.2) <$> ks))
    as -> by (destruct rem; [done|by injection Hm as <-]).
  clear Hm. split; intros (s & Hs & Hd).
  - apply elem_of_app in Hs as [Hs|Hs].
    + apply list_elem_of_fmap in Hs as ([i s'] & -> & Hs). apply list_elem_of_filter in Hs as [_ Hs].
      apply elem_indexed, list_elem_of_lookup_2 in Hs. eauto.
    + apply elem_concat_fmap in Hs as ([k g] & Hkg & Hs). apply elem_ks in Hkg. unfold group_additions in Hs. cbn [fst snd] in Hs.
      destruct (_ <? _)%nat; [by apply not_elem_of_nil in Hs|]. apply list_elem_of_fmap in Hs as (batch & -> & Hb).
      apply (addition_decides k g batch Hkg Hb) in Hd as (s' & c & Hs' & _ & _ & Hd). eauto.
  - apply list_elem_of_lookup_1 in Hs as [i Hi]. destruct (decide (i ∈ rem)) as [Hr|Hr].
    + apply elem_rem in Hr as (k & g & cond & Hg & Hl & Hin). destruct (group_entry k g i cond Hg Hin) as (s' & Hs' & Hk).
      assert (s' = s) as -> by congruence.
      assert (cond ∈ (g_entries g).*2) as Hce by (apply list_elem_of_fmap; by exists (i, cond)).
      apply elem_batches in Hce as (batch & Hb & Hcb). eexists. split.
      { apply elem_of_app. right. apply elem_concat_fmap. exists (k, g). split; [by apply elem_ks|].
        unfold group_additions. cbn [fst snd]. rewrite (proj2 (Nat.ltb_ge _ _)) by lia. apply list_elem_of_fmap. eauto. }
      apply (addition_decides k g batch Hg Hb). exists s, cond. split; [by eapply list_elem_of_lookup_2|done].
    + exists s. split; [|done]. apply elem_of_app. left. apply list_elem_of_fmap. exists (i, s). split; [done|].
      apply list_elem_of_filter. split; [done|by apply elem_indexed].
Qed.
End merged.

End merge.

(** ** The meaning of a criteria *)

(** What a field name denotes. *)
Inductive kind :=
| KTag (tag : string) (numeric : bool)
| KRole (role : string)
| KAnnotation (col : string) (d : value)
| KColumn (col : string).

Section meaning.
Context {R V : Type} `{Database R V} `{CriteriaEnv} (fm : gmap string FieldInfo) (owner : Owner) (now : Z).

Definition kind_of (name : string) : option kind :=
  info ← LookupField fm name;
  if fi_IsRole info then Some (KRole (fi_name info))
  else if fi_IsTag info then Some (KTag (fi_name info) (fi_Numeric info))
  else f ← smartPlaylistFields !! fi_name info;
       match spf_coalesceDefault f with
       | Some d => Some (KAnnotation (spf_expr f) d)
       | None => if String.eqb (spf_expr f) "" then None else Some (KColumn (spf_expr f))
       end.

(** A value the database compares with the default of an annotation as Go does. *)
Definition scalar (d v : value) (c : comparator) : bool := bool_decide (is_Some (bareNullInclusion d c v)).

(** Some value of the field compares with [v].  A track without an annotation
    has the default one. *)
Definition field_cmp (r : R) (k : kind) (c : comparator) (v : value) : bool :=
  match k with
  | KTag t num => existsb (fun x => cmp_col (elem (cast num x)) c "value" v) (tag_values r t)
  | KRole ro => existsb (fun x => match x with Some x => cmp_col (elem x) c "value" v | None => false end) (credits r ro)
  | KAnnotation col d =>
      if scalar d v c then compare c (default (literal d) (cell r col)) v else cmp_expr r c col d v
  | KColumn col => cmp_col r c col v
  end.

Definition field_like (r : R) (k : kind) (p : string) : bool :=
  match k with
  | KTag t num => existsb (fun x => like (cast num x) p) (tag_values r t)
  | KRole ro => existsb (fun x => match x with Some x => like x p | None => false end) (credits r ro)
  | KAnnotation col d => like (default (literal d) (cell r col)) p
  | KColumn col => match cell r col with Some x => like x p | None => false end
  end.

(** Whether the field has no value: no tag or credit, or a column that is NULL
    or holds one of its empty encodings. *)
Definition empties (name : string) : list string :=
  match LookupField fm name with
  | Some info => if fi_Numeric info || fi_Boolean info then []
                 else "" :: match smartPlaylistFields !! fi_name info with Some f => spf_emptyValues f | None => [] end
  | None => []
  end.
Definition field_missing (r : R) (name : string) (k : kind) : bool :=
  match k with
  | KTag t _ => negb (existsb (fun _ => true) (tag_values r t))
  | KRole ro => negb (existsb (fun _ => true) (credits r ro))
  | KAnnotation col _ | KColumn col =>
      match cell r col with
      | None => true
      | Some x => existsb (fun e => compare cmpEq x (VStr e)) (empties name)
      end
  end.

(** The playlist rows a reference selects for the owner. *)
Definition visible (p : R) : bool :=
  ow_IsAdmin owner || cmp_col p cmpEq "playlist.public" (VInt 1)
  || negb (String.eqb (ow_ID owner) "") && cmp_col p cmpEq "playlist.owner_id" (VStr (ow_ID owner)).
Definition refers (values : list (string * value)) (p : R) : bool :=
  match map_get "id" values, map_get "path" values with
  | Some (VStr (String a i)), _ => cmp_col p cmpEq "pl.playlist_id" (VStr (String a i))
  | _, Some (VStr path) => cmp_col p cmpEq "playlist.path" (VList (VStr <$> pathVariants path))
  | _, _ => false
  end.
Definition in_playlist (r : R) (values : list (string * value)) : bool :=
  existsb (fun p => refers values p && visible p) (playlist_rows r).

Definition multi (k : kind) : bool := match k with KTag _ _ | KRole _ => true | _ => false end.

Definition leaf_matches (r : R) (op : operator) (values : list (string * value)) : bool :=
  match op, values with
  | InPlaylist, _ => in_playlist r values
  | NotInPlaylist, _ => negb (in_playlist r values)
  | _, [(name, v)] =>
      match kind_of name with
      | None => false
      | Some k =>
          match op with
          | Is => field_cmp r k cmpEq v
          | IsNot => if multi k then negb (field_cmp r k cmpEq v) else field_cmp r k cmpNe v
          | Gt | After => field_cmp r k cmpGt v
          | Lt | Before => field_cmp r k cmpLt v
          | Contains => field_like r k (pat_of pat_contains v)
          | NotContains => match k with
                           | KColumn col => match cell r col with Some x => negb (like x (pat_of pat_contains v)) | None => false end
                           | _ => negb (field_like r k (pat_of pat_contains v))
                           end
          | StartsWith => field_like r k (pat_of pat_prefix v)
          | EndsWith => field_like r k (pat_of pat_suffix v)
          | InTheRange => match v with
                          | VList [lo; hi] => field_cmp r k cmpGe lo && field_cmp r k cmpLe hi
                          | _ => false
                          end
          | InTheLast | NotInTheLast =>
              match k, Atoi (Sprint v) with
              | (KAnnotation col _ | KColumn col), Some days =>
                  let date := VStr (startOfPeriod days now) in
                  match op with
                  | InTheLast => cmp_col r cmpGt col date
                  | _ => cmp_col r cmpLt col date || negb (bool_decide (is_Some (cell r col)))
                  end
              | _, _ => false
              end
          | IsMissing => match v with VBool b => Bool.eqb (field_missing r name k) b | _ => false end
          | IsPresent => match v with VBool b => Bool.eqb (field_missing r name k) (negb b) | _ => false end
          | _ => false
          end
      end
  | _, _ => false
  end.

Fixpoint matches (r : R) (e : Expression) : bool :=
  match e with
  | All l => forallb (matches r) l
  | Any l => existsb (matches r) l
  | Leaf op values => leaf_matches r op values
  end.

End meaning.

(** ** The translation is right, leaf by leaf *)

(** The registry describes fields the way the column table does, and a tag has
    one description. *)
Record registry_ok (fm : gmap string FieldInfo) : Prop := {
  names_lower : forall a info, LookupField fm a = Some info -> ToLower (fi_name info) = fi_name info;
  numeric_agree : forall a b ia ib, LookupField fm a = Some ia -> LookupField fm b = Some ib ->
    fi_IsRole ia = false -> fi_IsRole ib = false -> fi_name ia = fi_name ib -> fi_Numeric ia = fi_Numeric ib }.

(** Values that compare with an annotation the same way in Go and in SQL. *)
Definition value_ok `{CriteriaEnv} (k : kind) (v : value) : Prop :=
  forall col d, k = KAnnotation col d ->
    (d = VBool false -> forall b, ToBool v = Some b -> v = VBool b) /\
    (d = VInt 0 -> forall s x, v = VStr s -> ParseFloat s = Some x -> decimal s = true).

(** A leaf on one field whose value has been normalised: a truth value for the
    annotations that are one, and numbers written in decimal for the others. *)
Definition leaf_ok `{CriteriaEnv} (fm : gmap string FieldInfo) (op : operator) (values : list (string * value)) : Prop :=
  op = InPlaylist \/ op = NotInPlaylist \/
  exists name v, values = [(name, v)] /\
    forall k, kind_of fm name = Some k ->
      value_ok k v /\ forall lo hi, v = VList [lo; hi] -> value_ok k lo /\ value_ok k hi.

(** What is checked of every row of the column table holds of a field. *)
Lemma fields_checked (P : string * smartPlaylistField -> bool) k f :
  forallb P smartPlaylistFieldList = true -> smartPlaylistFields !! k = Some f -> P (k, f) = true.
Proof.
  unfold smartPlaylistFields. generalize smartPlaylistFieldList as l. intros l Hp Hf.
  apply elem_of_list_to_map_2, list_elem_of_In in Hf. rewrite forallb_forall in Hp. by apply Hp.
Qed.

Local Opaque smartPlaylistFields.

(** The defaults in the column table. *)
Lemma default_cases k f d :
  smartPlaylistFields !! k = Some f -> spf_coalesceDefault f = Some d -> d = VBool false \/ d = VInt 0.
Proof.
  intros Hf Hd. pose proof (fields_checked (fun kf => match spf_coalesceDefault kf.2 with
    | None | Some (VBool false) | Some (VInt 0) => true | _ => false end) k f ltac:(vm_compute; reflexivity) Hf) as Hc.
  cbn [snd] in Hc. rewrite Hd in Hc. destruct d as [|[]| |[]| | |]; try discriminate Hc; [left|right]; reflexivity.
Qed.

Section leaves.
Context {R V : Type} `{DatabaseLaws R V} (fm : gmap string FieldInfo) (owner : Owner) (now : Z) (r : R).

Lemma cmp_elem c x v : holds (elem x) (build c [("value", v)]) = cmp_col (elem x) c "value" v.
Proof. unfold build. rewrite holds_cmp. cbn. by rewrite andb_true_r. Qed.

Lemma holds_cmp1 c col v : holds r (SqCmp c [(Col col, v)]) = cmp_col r c col v.
Proof. rewrite holds_cmp. cbn. by rewrite andb_true_r. Qed.

Lemma like_elem x p : holds (elem x) (SqLike false [(Col "value", p)]) = like x p.
Proof. rewrite holds_like. cbn. rewrite cell_elem, andb_true_r. by destruct (like x p). Qed.

(** The index-friendly form of a comparison with an annotation means what the
    comparison with its default would. *)
Lemma annotationCond_holds f d c v :
  spf_coalesceDefault f = Some d -> d = VBool false \/ d = VInt 0 ->
  (d = VBool false -> forall b, ToBool v = Some b -> v = VBool b) ->
  (d = VInt 0 -> forall s x, v = VStr s -> ParseFloat s = Some x -> decimal s = true) ->
  holds r (annotationCond f d c v) = field_cmp r (KAnnotation (spf_expr f) d) c v.
Proof.
  intros Hd Hcases Hb Hn. unfold annotationCond, field_cmp, scalar.
  destruct (bareNullInclusion d c v) as [w|] eqn:Ew.
  2:{ rewrite bool_decide_eq_false_2 by (by intros []). unfold coalesced. rewrite Hd, holds_cmp. cbn. apply andb_true_r. }
  rewrite bool_decide_eq_true_2 by done.
  assert (v <> VNil /\ compare c (literal d) v = w) as [Hv Hw].
  { destruct Hcases as [-> | ->]; cbn in Ew.
    - destruct (ordering c) eqn:Eo; [done|]. destruct (ToBool v) as [b|] eqn:Eb; [|done].
      rewrite (Hb eq_refl b eq_refl) in *. split; [done|]. injection Ew as <-. by apply compare_false.
    - destruct (toFloat v) as [x|] eqn:Ex; [|done]. injection Ew as <-. split; [by intros ->|].
      apply compare_zero; [done|]. intros s ->. cbn in Ex. by eapply Hn. }
  assert (cmp_col r c (spf_expr f) v = match cell r (spf_expr f) with Some x => compare c x v | None => false end) as Hcol.
  { unfold cmp_col. by destruct v, (cell r (spf_expr f)). }
  destruct w; cbn [negb].
  - rewrite holds_or. cbn [existsb]. rewrite !holds_cmp1, Hcol, orb_false_r. cbn [cmp_col].
    destruct (cell r (spf_expr f)); cbn; [by rewrite orb_false_r|]. by rewrite Hw.
  - rewrite holds_cmp1, Hcol. by destruct (cell r (spf_expr f)).
Qed.

(** The fields of a leaf on one field. *)
Lemma sqlFields_single name v fs :
  registry_ok fm -> sqlFields fm [(name, v)] = Ok fs ->
  exists info f, LookupField fm name = Some info /\ fi_IsTag info = false /\ fi_IsRole info = false /\
    smartPlaylistFields !! fi_name info = Some f /\ spf_expr f <> "" /\ fs = [(spf_expr f, v)].
Proof.
  intros Hreg. unfold sqlFields. cbn [sqlFields_loop]. destruct (LookupField fm name) as [info|] eqn:El; [|done].
  destruct (fi_IsTag info) eqn:Et; [done|]. destruct (fi_IsRole info) eqn:Er; [done|]. cbn [orb].
  unfold fieldExpr. rewrite (names_lower fm Hreg name info El).
  destruct (smartPlaylistFields !! fi_name info) as [f|] eqn:Ef; [|done]. cbn [fmap option_fmap option_map].
  destruct (String.eqb_spec (spf_expr f) ""); [done|]. cbn [map_put]. intros [= <-]. eauto 10.
Qed.

Lemma kind_of_json name info :
  LookupField fm name = Some info -> fi_IsTag info || fi_IsRole info = true ->
  kind_of fm name = Some (if fi_IsRole info then KRole (fi_name info) else KTag (fi_name info) (fi_Numeric info)).
Proof.
  intros El Hj. unfold kind_of. rewrite El. cbn [mbind option_bind].
  destruct (fi_IsRole info); [done|]. rewrite orb_false_r in Hj. by rewrite Hj.
Qed.

Lemma kind_of_column name info f :
  LookupField fm name = Some info -> fi_IsTag info || fi_IsRole info = false ->
  smartPlaylistFields !! fi_name info = Some f ->
  kind_of fm name = match spf_coalesceDefault f with
                    | Some d => Some (KAnnotation (spf_expr f) d)
                    | None => if String.eqb (spf_expr f) "" then None else Some (KColumn (spf_expr f))
                    end.
Proof.
  intros El Hj Ef. apply orb_false_iff in Hj as [Ht Hr]. unfold kind_of. rewrite El. cbn [mbind option_bind].
  by rewrite Hr, Ht, Ef.
Qed.

(** A condition on the elements of a tag or role. *)
Lemma jsonExpr_holds info cond neg :
  holds r (jsonExpr info (Some cond) neg) =
  xorb neg (if fi_IsRole info
            then existsb (fun x => match x with Some x => holds (elem x) cond | None => false end) (credits r (fi_name info))
            else existsb (fun x => holds (elem (cast (fi_Numeric info) x)) cond) (tag_values r (fi_name info))).
Proof. unfold jsonExpr. destruct (fi_IsRole info); [apply holds_role|apply holds_tag]. Qed.

Lemma existsb_ext {A} (f g : A -> bool) l : (forall x, f x = g x) -> existsb f l = existsb g l.
Proof. intros Hfg. induction l as [|x l IH]; [done|]. simpl. by rewrite Hfg, IH. Qed.

Lemma jsonExpr_cmp name info c v neg k :
  LookupField fm name = Some info -> fi_IsTag info || fi_IsRole info = true -> kind_of fm name = Some k ->
  holds r (jsonExpr info (Some (build c [("value", v)])) neg) = xorb neg (field_cmp r k c v) /\ multi k = true.
Proof.
  intros El Hj Hk. rewrite (kind_of_json name info El Hj) in Hk. injection Hk as <-.
  rewrite jsonExpr_holds. destruct (fi_IsRole info); (split; [|done]); f_equal; apply existsb_ext.
  - intros [x|]; [apply cmp_elem|done].
  - intros x. apply cmp_elem.
Qed.

Lemma jsonExpr_like name info p neg k :
  LookupField fm name = Some info -> fi_IsTag info || fi_IsRole info = true -> kind_of fm name = Some k ->
  holds r (jsonExpr info (Some (SqLike false [(Col "value", p)])) neg) = xorb neg (field_like r k p) /\ multi k = true.
Proof.
  intros El Hj Hk. rewrite (kind_of_json name info El Hj) in Hk. injection Hk as <-.
  rewrite jsonExpr_holds. destruct (fi_IsRole info); (split; [|done]); f_equal; apply existsb_ext.
  - intros [x|]; [apply like_elem|done].
  - intros x. apply like_elem.
Qed.

Lemma comparisonExpr_holds name v c s :
  registry_ok fm -> comparisonExpr fm [(name, v)] c = Ok s ->
  exists k, kind_of fm name = Some k /\ (value_ok k v -> holds r s = field_cmp r k c v).
Proof.
  intros Hreg. unfold comparisonExpr, singleField. destruct (LookupField fm name) as [info|] eqn:El.
  2:{ cbn [andb]. unfold sqlFields. cbn [sqlFields_loop]. by rewrite El. }
  cbn [andb]. destruct (fi_IsTag info || fi_IsRole info) eqn:Ej.
  { intros [= <-]. rewrite (kind_of_json name info El Ej). eexists. split; [done|]. intros _.
    destruct (jsonExpr_cmp name info c v false _ El Ej (kind_of_json name info El Ej)) as [-> _]. by destruct (field_cmp _ _ _ _). }
  unfold annotationField. destruct (smartPlaylistFields !! fi_name info) as [f|] eqn:Ef; cbn [mbind option_bind].
  2:{ intros Hs. destruct (sqlFields fm [(name, v)]) as [fs|] eqn:Es; [|done].
      destruct (sqlFields_single name v fs Hreg Es) as (i & f & El' & _ & _ & Ef' & _). congruence. }
  rewrite (kind_of_column name info f El Ej Ef). destruct (spf_coalesceDefault f) as [d|] eqn:Ed; cbn [mbind option_bind].
  - intros [= <-]. eexists. split; [done|]. intros Hok. destruct (Hok _ _ eq_refl) as [H1' H2'].
    apply annotationCond_holds; [done|by eapply default_cases|done|done].
  - destruct (sqlFields fm [(name, v)]) as [fs|] eqn:Es; [|done]. cbn [result_bind]. intros [= <-].
    destruct (sqlFields_single name v fs Hreg Es) as (i & f' & El' & _ & _ & Ef' & Hne & ->).
    assert (f' = f) as -> by congruence. rewrite (proj2 (String.eqb_neq _ _) Hne).
    eexists. split; [done|]. intros _. apply holds_cmp1.
Qed.

Lemma isNotExpr_holds name v s :
  registry_ok fm -> isNotExpr fm [(name, v)] = Ok s ->
  exists k, kind_of fm name = Some k /\
    (value_ok k v -> holds r s = if multi k then negb (field_cmp r k cmpEq v) else field_cmp r k cmpNe v).
Proof.
  intros Hreg. unfold isNotExpr, singleField. destruct (LookupField fm name) as [info|] eqn:El.
  - cbn [andb]. destruct (fi_IsTag info || fi_IsRole info) eqn:Ej.
    + intros [= <-]. pose proof (kind_of_json name info El Ej) as Hk. eexists. split; [done|]. intros _.
      destruct (jsonExpr_cmp name info cmpEq v true _ El Ej Hk) as [-> ->]. by destruct (field_cmp _ _ _ _).
    + intros Hs. destruct (comparisonExpr_holds name v cmpNe s Hreg Hs) as (k & Hk & Hh). exists k. split; [done|].
      intros Hv. rewrite Hh by done. assert (multi k = false) as ->; [|done].
      unfold kind_of in Hk. rewrite El in Hk. cbn [mbind option_bind] in Hk. apply orb_false_iff in Ej as [Et Er].
      rewrite Er, Et in Hk. destruct (smartPlaylistFields !! fi_name info) as [f|]; [|done]. cbn [mbind option_bind] in Hk.
      destruct (spf_coalesceDefault f); [by simplify_eq|]. destruct (String.eqb _ _); [done|by simplify_eq].
  - cbn [andb]. intros Hs. destruct (comparisonExpr_holds name v cmpNe s Hreg Hs) as (k & Hk & _).
    unfold kind_of in Hk. by rewrite El in Hk.
Qed.

Lemma likeExpr_holds name v p neg s :
  registry_ok fm -> likeExpr fm [(name, v)] p neg = Ok s ->
  exists k, kind_of fm name = Some k /\
    holds r s = match k with
                | KColumn col => match cell r col with Some x => xorb neg (like x (pat_of p v)) | None => false end
                | _ => xorb neg (field_like r k (pat_of p v))
                end.
Proof.
  intros Hreg. unfold likeExpr, singleField. destruct (LookupField fm name) as [info|] eqn:El.
  2:{ cbn [andb]. unfold sqlFields. cbn [sqlFields_loop]. by rewrite El. }
  cbn [andb]. destruct (fi_IsTag info || fi_IsRole info) eqn:Ej.
  { intros [= <-]. pose proof (kind_of_json name info El Ej) as Hk. eexists. split; [done|].
    destruct (jsonExpr_like name info (pat_of p v) neg _ El Ej Hk) as [-> _]. by destruct (fi_IsRole info). }
  unfold annotationField. destruct (smartPlaylistFields !! fi_name info) as [f|] eqn:Ef; cbn [mbind option_bind].
  2:{ intros Hs. destruct (sqlFields fm [(name, v)]) as [fs|] eqn:Es; [|done].
      destruct (sqlFields_single name v fs Hreg Es) as (i & f & El' & _ & _ & Ef' & _). congruence. }
  rewrite (kind_of_column name info f El Ej Ef). destruct (spf_coalesceDefault f) as [d|] eqn:Ed; cbn [mbind option_bind].
  - intros [= <-]. eexists. split; [done|]. unfold likeCond, coalesced. rewrite Ed, holds_like. cbn. by rewrite andb_true_r.
  - destruct (sqlFields fm [(name, v)]) as [fs|] eqn:Es; [|done]. cbn [result_bind]. intros [= <-].
    destruct (sqlFields_single name v fs Hreg Es) as (i & f' & El' & _ & _ & Ef' & Hne & ->).
    assert (f' = f) as -> by congruence. rewrite (proj2 (String.eqb_neq _ _) Hne).
    eexists. split; [done|]. rewrite holds_like. cbn. by rewrite andb_true_r.
Qed.

Lemma rangeExpr_holds name v s :
  registry_ok fm -> rangeExpr fm [(name, v)] = Ok s ->
  exists k lo hi, kind_of fm name = Some k /\ v = VList [lo; hi] /\
    (value_ok k lo -> value_ok k hi -> holds r s = field_cmp r k cmpGe lo && field_cmp r k cmpLe hi).
Proof.
  intros Hreg. unfold rangeExpr, singleField. destruct (LookupField fm name) as [info|] eqn:El; [|done]. cbn [negb].
  destruct (fi_IsTag info || fi_IsRole info); [done|]. destruct v as [| | | | |[|lo [|hi [|]]]|]; try done.
  destruct (comparisonExpr fm [(name, lo)] cmpGe) as [low|] eqn:E1; [|done].
  destruct (comparisonExpr fm [(name, hi)] cmpLe) as [high|] eqn:E2; [|done]. cbn [result_bind]. intros [= <-].
  destruct (comparisonExpr_holds name lo cmpGe low Hreg E1) as (k & Hk & Hlow).
  destruct (comparisonExpr_holds name hi cmpLe high Hreg E2) as (k' & Hk' & Hhigh).
  assert (k' = k) as -> by congruence. exists k, lo, hi. split; [done|]. split; [done|]. intros Hlo Hhi.
  rewrite holds_and. cbn [forallb]. rewrite andb_true_r, Hlow, Hhigh by done. done.
Qed.

Lemma periodExpr_holds name v neg s :
  registry_ok fm -> periodExpr fm now [(name, v)] neg = Ok s ->
  exists k col days, kind_of fm name = Some k /\ (k = KColumn col \/ exists d, k = KAnnotation col d) /\
    Atoi (Sprint v) = Some days /\
    holds r s = if neg then cmp_col r cmpLt col (VStr (startOfPeriod days now)) || negb (bool_decide (is_Some (cell r col)))
                else cmp_col r cmpGt col (VStr (startOfPeriod days now)).
Proof.
  intros Hreg. unfold periodExpr. destruct (sqlFields fm [(name, v)]) as [fs|] eqn:Es; [|done]. cbn [result_bind].
  destruct (sqlFields_single name v fs Hreg Es) as (info & f & El & Et & Er & Ef & Hne & ->).
  destruct (Atoi (Sprint v)) as [days|]; [|done]. intros Hs.
  pose proof (kind_of_column name info f El ltac:(by rewrite Et, Er) Ef) as Hk. rewrite (proj2 (String.eqb_neq _ _) Hne) in Hk.
  assert (holds r s = if neg then cmp_col r cmpLt (spf_expr f) (VStr (startOfPeriod days now))
                                  || negb (bool_decide (is_Some (cell r (spf_expr f))))
                      else cmp_col r cmpGt (spf_expr f) (VStr (startOfPeriod days now))) as Hh.
  { destruct neg; injection Hs as <-; [|apply holds_cmp1]. rewrite holds_or. cbn [existsb].
    rewrite !holds_cmp1, orb_false_r. done. }
  destruct (spf_coalesceDefault f) as [d|]; eexists _, (spf_expr f), days; (split; [exact Hk|]);
    (split; [|split; [reflexivity|exact Hh]]); [right; by exists d|left; reflexivity].
Qed.

Lemma inList_holds values neg s :
  inList owner values neg = Ok s -> holds r s = xorb neg (in_playlist owner r values).
Proof.
  unfold inList. destruct (playlist_ref values) as [cond|] eqn:Ec; [|done]. cbn [result_bind]. intros [= <-].
  rewrite holds_playlist. unfold in_playlist. f_equal. apply existsb_ext. intros p.
  rewrite holds_and. cbn [forallb]. f_equal.
  - unfold playlist_ref in Ec. unfold refers.
    assert (forall path, (if String.eqb path "" then Err ErrNoPlaylist
      else Ok (SqCmp cmpEq [(Col "playlist.path", VList (VStr <$> pathVariants path))])) = Ok cond ->
      holds p cond = cmp_col p cmpEq "playlist.path" (VList (VStr <$> pathVariants path))) as Hpath.
    { intros path. destruct (String.eqb path ""); [done|]. intros [= <-]. rewrite holds_cmp. cbn. by rewrite andb_true_r. }
    destruct (map_get "id" values) as [[| | | |[|a i]| |]|]; 
      try (destruct (map_get "path" values) as [[| | | |path| |]|]; try done; by apply Hpath).
    injection Ec as <-. rewrite holds_cmp. cbn. by rewrite andb_true_r.
  - unfold visible. destruct (ow_IsAdmin owner); [done|]. destruct (String.eqb (ow_ID owner) ""); cbn [forallb orb negb andb].
    + rewrite holds_cmp. cbn. by rewrite !andb_true_r, orb_false_r.
    + rewrite holds_or. cbn [existsb]. rewrite !holds_cmp. cbn. by rewrite !andb_true_r, orb_false_r.
Qed.

(** Present and absent, for a nullable column with its empty encodings. *)
Lemma column_missing col es :
  let missing := match cell r col with
                 | None => true
                 | Some x => existsb (fun e => compare cmpEq x (VStr e)) es
                 end in
  holds r (SqOr (SqCmp cmpEq [(Col col, VNil)] :: ((fun e => SqCmp cmpEq [(Col col, VStr e)]) <$> es))) = missing /\
  holds r (SqAnd (SqCmp cmpNe [(Col col, VNil)] :: ((fun e => SqCmp cmpNe [(Col col, VStr e)]) <$> es))) = negb missing.
Proof.
  cbn zeta. rewrite holds_or, holds_and. cbn [existsb forallb]. rewrite !holds_cmp1. unfold cmp_col.
  destruct (cell r col) as [x|] eqn:Ex; [|done].
  rewrite bool_decide_eq_true_2 by done. cbn [negb orb andb].
  induction es as [|e es IH]; [done|]. cbn [fmap list_fmap existsb forallb]. rewrite !holds_cmp1. unfold cmp_col.
  rewrite Ex, compare_ne. destruct IH as [IH1 IH2]. split; [by rewrite IH1|]. rewrite negb_orb. by rewrite <- IH2.
Qed.

Lemma missingExpr_holds name v absent s :
  missingExpr fm [(name, v)] absent = Ok s ->
  exists k b, kind_of fm name = Some k /\ v = VBool b /\
    holds r s = Bool.eqb (field_missing fm r name k) (Bool.eqb absent b).
Proof.
  unfold missingExpr, singleField. destruct (LookupField fm name) as [info|] eqn:El; [|done]. cbn [negb].
  destruct v as [|b| | | | |]; try done. set (negate := Bool.eqb absent b).
  destruct (fi_IsTag info || fi_IsRole info) eqn:Ej.
  { intros [= <-]. pose proof (kind_of_json name info El Ej) as Hk. eexists _, b. split; [done|]. split; [done|].
    unfold jsonExpr. destruct (fi_IsRole info); cbn [field_missing];
      rewrite ?holds_role_any, ?holds_tag_any; fold negate; by destruct (existsb _ _), negate. }
  destruct (fi_Nullable info); [|done]. destruct (smartPlaylistFields !! fi_name info) as [f|] eqn:Ef; [|done].
  destruct (String.eqb (spf_expr f) "") eqn:Ee; [done|]. intros Hs.
  assert ((if negb (fi_Numeric info) && negb (fi_Boolean info) then "" :: spf_emptyValues f else []) = empties fm name) as Hes.
  { unfold empties. rewrite El, Ef. by destruct (fi_Numeric info), (fi_Boolean info). }
  rewrite Hes in Hs. destruct (column_missing (spf_expr f) (empties fm name)) as [Hm Hp].
  assert (holds r s = Bool.eqb (match cell r (spf_expr f) with
    | None => true | Some x => existsb (fun e => compare cmpEq x (VStr e)) (empties fm name) end) negate) as Hh.
  { destruct negate; injection Hs as <-; [rewrite Hm|rewrite Hp];
      (destruct (cell r (spf_expr f)); [by destruct (existsb _ _)|done]). }
  pose proof (kind_of_column name info f El Ej Ef) as Hk. rewrite Ee in Hk.
  destruct (spf_coalesceDefault f) as [d|]; eexists _, b; (split; [done|]); done.
Qed.

Lemma leafSQL_holds op values s :
  registry_ok fm -> leaf_ok fm op values -> leafSQL fm owner now op values = Ok s ->
  holds r s = leaf_matches fm owner now r op values.
Proof.
  intros Hreg Hok Hs. destruct Hok as [-> |[-> |(name & v & -> & Hv)]].
  { unfold leafSQL in Hs. rewrite (inList_holds _ _ _ Hs). cbn [leaf_matches]. apply xorb_false_l. }
  { unfold leafSQL in Hs. rewrite (inList_holds _ _ _ Hs). cbn [leaf_matches]. apply xorb_true_l. }
  unfold leafSQL in Hs. unfold leaf_matches.
  destruct op;
    first [ destruct (comparisonExpr_holds _ _ _ _ Hreg Hs) as (k & Hk & Hh); rewrite Hk; apply Hh, Hv, Hk
          | destruct (isNotExpr_holds _ _ _ Hreg Hs) as (k & Hk & Hh); rewrite Hk; apply Hh, Hv, Hk
          | rewrite (inList_holds _ _ _ Hs); first [apply xorb_false_l|apply xorb_true_l]
          | destruct (likeExpr_holds _ _ _ _ _ Hreg Hs) as (k & Hk & Hh); rewrite Hk, Hh; destruct k; cbn [field_like];
            rewrite ?xorb_false_l, ?xorb_true_l; try done; destruct (cell r _); by rewrite ?xorb_false_l, ?xorb_true_l
          | idtac ].
  - destruct (rangeExpr_holds _ _ _ Hreg Hs) as (k & lo & hi & Hk & -> & Hh). rewrite Hk.
    destruct (Hv k Hk) as [_ Hr]. destruct (Hr lo hi eq_refl) as [Hlo Hhi]. by apply Hh.
  - destruct (periodExpr_holds _ _ _ _ Hreg Hs) as (k & col & days & Hk & [-> |[d ->]] & Ha & Hh); by rewrite Hk, Ha, Hh.
  - destruct (periodExpr_holds _ _ _ _ Hreg Hs) as (k & col & days & Hk & [-> |[d ->]] & Ha & Hh); by rewrite Hk, Ha, Hh.
  - destruct (missingExpr_holds _ _ _ _ Hs) as (k & b & Hk & -> & Hh). rewrite Hk, Hh. by destruct b.
  - destruct (missingExpr_holds _ _ _ _ Hs) as (k & b & Hk & -> & Hh). rewrite Hk, Hh. by destruct b.
Qed.

End leaves.

(** ** The whole translation *)

(** Every leaf of the criteria is on one field with a normalised value. *)
Definition expr_ok `{CriteriaEnv} (fm : gmap string FieldInfo) (e : Expression) : Prop :=
  forall op values, Leaf op values ∈ Walk e -> leaf_ok fm op values.

Section whole.
Context {R V : Type} `{DatabaseLaws R V} (fm : gmap string FieldInfo) (owner : Owner) (now : Z).

Lemma map_result_ok {E A B} (f : A -> result E B) l ys :
  map_result f l = Ok ys <-> Forall2 (fun x y => f x = Ok y) l ys.
Proof.
  revert ys. induction l as [|x l IH]; intros ys; cbn [map_result].
  { split; [by intros [= <-]|]. intros Hf. by inversion Hf. }
  destruct (f x) as [y|e] eqn:Ex; cbn [result_bind].
  - destruct (map_result f l) as [zs|e] eqn:El; cbn [result_bind]; split.
    + intros [= <-]. constructor; [done|]. by apply IH.
    + intros Hf. inversion Hf as [|? ? ? ? Hy Hr]; subst. apply IH in Hr. congruence.
    + done.
    + intros Hf. inversion Hf as [|? ? ? ? Hy Hr]; subst. apply IH in Hr. congruence.
  - split; [done|]. intros Hf. inversion Hf; congruence.
Qed.

Lemma map_result_err {E A B} (f : A -> result E B) l e :
  map_result f l = Err e -> exists x, x ∈ l /\ f x = Err e.
Proof.
  induction l as [|x l IH]; cbn [map_result]; [done|]. destruct (f x) as [y|e'] eqn:Ex; cbn [result_bind].
  - destruct (map_result f l) as [zs|e'] eqn:El; cbn [result_bind]; [done|]. intros [= ->].
    destruct (IH eq_refl) as (z & Hz & Hf). exists z. split; [by right|done].
  - intros [= ->]. exists x. split; [by left|done].
Qed.

(** A tag condition comes from a field of the registry. *)
Definition from_registry (s : Sqlizer) : Prop :=
  match s with
  | tagCond t n _ _ => exists name info, LookupField fm name = Some info /\ fi_IsRole info = false /\
                         fi_name info = t /\ fi_Numeric info = n
  | _ => True
  end.

Lemma jsonExpr_registry name info cond neg : LookupField fm name = Some info -> from_registry (jsonExpr info cond neg).
Proof. intros El. unfold jsonExpr. destruct (fi_IsRole info) eqn:Er; cbn; [done|]. by exists name, info. Qed.

Lemma singleField_lookup values field v info ok :
  singleField fm values = (field, v, info, ok) -> ok = true -> exists name, LookupField fm name = Some info.
Proof.
  unfold singleField. destruct values as [|[n w] [|]]; intros Hs ->; try done.
  destruct (LookupField fm n) eqn:El; simplify_eq. eauto.
Qed.

Lemma comparison_registry values c s : comparisonExpr fm values c = Ok s -> from_registry s.
Proof.
  unfold comparisonExpr. destruct (singleField fm values) as [[[field v] info] ok] eqn:Es.
  destruct (ok && (fi_IsTag info || fi_IsRole info)) eqn:Ej.
  - apply andb_prop in Ej as [-> _]. destruct (singleField_lookup _ _ _ _ _ Es eq_refl) as (name & El).
    intros [= <-]. by eapply jsonExpr_registry.
  - destruct (if ok then annotationField info else None) as [[f d]|].
    + intros [= <-]. unfold annotationCond. destruct (bareNullInclusion d c v) as [[]|]; done.
    + destruct (sqlFields fm values); [|done]. by intros [= <-].
Qed.

Lemma isNot_registry values s : isNotExpr fm values = Ok s -> from_registry s.
Proof.
  unfold isNotExpr. destruct (singleField fm values) as [[[field v] info] ok] eqn:Es.
  destruct (ok && (fi_IsTag info || fi_IsRole info)) eqn:Ej; [|apply comparison_registry].
  apply andb_prop in Ej as [-> _]. destruct (singleField_lookup _ _ _ _ _ Es eq_refl) as (name & El).
  intros [= <-]. by eapply jsonExpr_registry.
Qed.

Lemma like_registry values p neg s : likeExpr fm values p neg = Ok s -> from_registry s.
Proof.
  unfold likeExpr. destruct (singleField fm values) as [[[field v] info] ok] eqn:Es.
  destruct (ok && (fi_IsTag info || fi_IsRole info)) eqn:Ej.
  - apply andb_prop in Ej as [-> _]. destruct (singleField_lookup _ _ _ _ _ Es eq_refl) as (name & El).
    intros [= <-]. by eapply jsonExpr_registry.
  - destruct (if ok then annotationField info else None) as [[f d]|]; [by intros [= <-]|].
    destruct (sqlFields fm values); [by intros [= <-]|done].
Qed.

Lemma missing_registry values absent s : missingExpr fm values absent = Ok s -> from_registry s.
Proof.
  unfold missingExpr. destruct (singleField fm values) as [[[field v] info] ok] eqn:Es.
  destruct ok; cbn [negb]; [|by destruct (negb _)]. destruct v; try done.
  destruct (fi_IsTag info || fi_IsRole info).
  - destruct (singleField_lookup _ _ _ _ _ Es eq_refl) as (name & El). intros [= <-]. by eapply jsonExpr_registry.
  - destruct (fi_Nullable info); [|done]. destruct (smartPlaylistFields !! fi_name info); [|done].
    destruct (String.eqb _ _); [done|]. destruct (Bool.eqb absent b); by intros [= <-].
Qed.

(** Ranges, periods and playlists build no tag condition. *)
Lemma range_registry values s : rangeExpr fm values = Ok s -> from_registry s.
Proof.
  unfold rangeExpr. destruct (singleField fm values) as [[[field v] info] ok].
  destruct ok, (fi_IsTag info || fi_IsRole info); try done. cbn [negb]. destruct v as [| | | | |[|lo [|hi [|]]]|]; try done.
  destruct (comparisonExpr fm [(field, lo)] cmpGe), (comparisonExpr fm [(field, hi)] cmpLe); try done. by intros [= <-].
Qed.

Lemma period_registry values neg s : periodExpr fm now values neg = Ok s -> from_registry s.
Proof.
  unfold periodExpr. destruct (sqlFields fm values) as [fs|]; [|done]. cbn [result_bind].
  destruct (match fs with [] => _ | kv :: _ => kv end) as [field v].
  destruct (Atoi (Sprint v)); [|done]. destruct neg; by intros [= <-].
Qed.

Lemma inList_registry values neg s : inList owner values neg = Ok s -> from_registry s.
Proof. unfold inList. destruct (playlist_ref values); [|done]. by intros [= <-]. Qed.

Lemma leafSQL_registry op values s : leafSQL fm owner now op values = Ok s -> from_registry s.
Proof.
  destruct op; cbn [leafSQL]; eauto using comparison_registry, isNot_registry, like_registry, missing_registry,
    range_registry, period_registry, inList_registry.
Qed.

Lemma exprSQL_registry e s : exprSQL fm owner now e = Ok s -> from_registry s.
Proof.
  destruct e as [l|l|op values]; cbn [exprSQL]; [| |apply leafSQL_registry].
  - destruct (map_result _ l) as [conds|]; [|done]. intros [= <-]. unfold mergeNegatedJsonConds. by case_match.
  - destruct (map_result _ l) as [conds|]; [|done]. intros [= <-]. unfold mergeJsonConds. by case_match.
Qed.

(** So conditions on one tag agree, and may be merged. *)
Lemma conds_same l conds :
  registry_ok fm -> Forall2 (fun e s => exprSQL fm owner now e = Ok s) l conds ->
  forall s s', s ∈ conds -> s' ∈ conds -> same_field s s'.
Proof.
  intros Hreg Hf s s' Hs Hs'.
  assert (forall s, s ∈ conds -> from_registry s) as Hall.
  { intros x Hx. apply list_elem_of_lookup_1 in Hx as [i Hi]. eapply Forall2_lookup_r in Hi as (e & _ & He); [|exact Hf].
    exact (exprSQL_registry _ _ He). }
  pose proof (Hall s Hs) as H1'. pose proof (Hall s' Hs') as H2'.
  destruct s as [| | | | | |t n [c|] b|ro c b| |], s' as [| | | | | |t' n' [c'|] b'|ro' c' b'| |]; try done.
  intros -> _. destruct H1' as (a & ia & Ha & Hra & Hta & <-), H2' as (a' & ib & Hb & Hrb & Htb & <-).
  apply (numeric_agree fm Hreg a a' ia ib); congruence.
Qed.

(** Merging keeps the meaning of both groups. *)
Lemma merge_or r conds :
  (forall s s', s ∈ conds -> s' ∈ conds -> same_field s s') ->
  holds r (mergeJsonConds conds) = existsb (holds r) conds.
Proof.
  intros Hs. unfold mergeJsonConds. destruct (mergeSameFieldConds conds false) as [merged|] eqn:Em; rewrite holds_or; [|done].
  apply eq_true_iff_eq. rewrite !existsb_exists. pose proof (merge_decides r false conds Hs merged Em) as Hd.
  unfold decides in Hd. setoid_rewrite xorb_false_l in Hd. setoid_rewrite list_elem_of_In in Hd. exact Hd.
Qed.

Lemma merge_and r conds :
  (forall s s', s ∈ conds -> s' ∈ conds -> same_field s s') ->
  holds r (mergeNegatedJsonConds conds) = forallb (holds r) conds.
Proof.
  intros Hs. unfold mergeNegatedJsonConds. destruct (mergeSameFieldConds conds true) as [merged|] eqn:Em; rewrite holds_and; [|done].
  pose proof (merge_decides r true conds Hs merged Em) as Hd. unfold decides in Hd.
  setoid_rewrite xorb_true_l in Hd. setoid_rewrite list_elem_of_In in Hd.
  assert (forall l, forallb (holds r) l = negb (existsb (fun s => negb (holds r s)) l)) as Hdual.
  { induction l as [|s l IH]; [done|]. simpl. rewrite IH. by destruct (holds r s). }
  rewrite !Hdual. f_equal. apply eq_true_iff_eq. by rewrite !existsb_exists.
Qed.

Lemma forallb_Forall2 {A B} (f : A -> bool) (g : B -> bool) l l' :
  Forall2 (fun x y => g y = f x) l l' -> forallb g l' = forallb f l /\ existsb g l' = existsb f l.
Proof. induction 1 as [|x y l l' Hxy _ [IH1 IH2]]; [done|]. simpl. by rewrite Hxy, IH1, IH2. Qed.

Lemma expr_ok_child e l x : (e = All l \/ e = Any l) -> expr_ok fm e -> x ∈ l -> expr_ok fm x.
Proof.
  intros He Hok Hx op values Hin. apply Hok. assert (Leaf op values ∈ concat (Walk <$> l)) as Hc by (apply elem_concat_fmap; eauto).
  destruct He as [-> | ->]; cbn [Walk]; by right.
Qed.

Lemma Forall2_with {A B} (P : A -> Prop) (Q T : A -> B -> Prop) l k :
  Forall P l -> Forall2 Q l k -> (forall x y, P x -> Q x y -> T x y) -> Forall2 T l k.
Proof. intros HP HQ HT. induction HQ; [done|]. inversion HP; subst. constructor; eauto. Qed.

Lemma exprSQL_holds r e : forall s,
  registry_ok fm -> expr_ok fm e -> exprSQL fm owner now e = Ok s ->
  holds r s = matches fm owner now r e.
Proof.
  induction e as [l IH|l IH|op values] using expression_rose_ind; intros s Hreg Hok; cbn [exprSQL matches].
  3:{ apply leafSQL_holds; [done|]. apply Hok. cbn [Walk]. by left. }
  all: destruct (map_result (exprSQL fm owner now) l) as [conds|] eqn:El; [|done]; intros [= <-];
    apply map_result_ok in El; rewrite ?merge_and, ?merge_or by (by eapply conds_same); apply forallb_Forall2;
    apply (Forall2_with (fun x => x ∈ l /\ forall s, registry_ok fm -> expr_ok fm x ->
      exprSQL fm owner now x = Ok s -> holds r s = matches fm owner now r x) _ _ _ _) with (2 := El).
  all: try (intros x y [Hx HIH] Hy; apply HIH; [done| |done]; eapply (expr_ok_child _ l); [|exact Hok|done]; first [by left|by right]).
  all: rewrite Forall_forall in IH |- *; intros x Hx; split; [by apply list_elem_of_In|by apply IH].
Qed.

Lemma exprSQL_err e err :
  exprSQL fm owner now e = Err err -> exists op values, Leaf op values ∈ Walk e /\ leafSQL fm owner now op values = Err err.
Proof.
  induction e as [l IH|l IH|op values] using expression_rose_ind; cbn [exprSQL].
  3:{ intros He. exists op, values. split; [cbn [Walk]; by left|done]. }
  all: destruct (map_result (exprSQL fm owner now) l) as [conds|e'] eqn:El; [done|]; intros [= ->];
    apply map_result_err in El as (x & Hx & He); rewrite Forall_forall in IH;
    destruct (IH x (proj1 (list_elem_of_In _ _) Hx) He) as (op & values & Hin & Hl); exists op, values;
    (split; [|done]); cbn [Walk]; right; apply elem_concat_fmap; eauto.
Qed.

End whole.
