(* ===== verification/CriteriaFacts.v ===== *)
(** * The registry of fields, the joins and the selection of a smart playlist

    The registry stays consistent while roles and tags are added to it; every
    column a generated query reads is in a table the query joins; and the
    generated condition selects what the criteria say. *)

From Stdlib Require Import Ascii String Floats.SpecFloat.
From stdpp Require Import sorting.
From S2P Require Import Prelude GoStrings GoText GoFloat Criteria CriteriaSql CriteriaSqlFacts.

Local Open Scope Z_scope.
Local Opaque smartPlaylistFields fieldMap.

(** ** The registry *)

(** The name an entry stands for. *)
Definition canonical (k : string) (f : FieldInfo) : string :=
  if String.eqb (fi_Alias f) "" then k else fi_Alias f.

Record registry_wf (fm : gmap string FieldInfo) : Prop := {
  wf_keys : forall k f, fm !! k = Some f -> ToLower k = k /\ ToLower (fi_Alias f) = fi_Alias f /\ k <> "";
  wf_tag_alias : forall k f, fm !! k = Some f -> fi_tagAlias f <> "" -> fi_Alias f = "";
  wf_agree : forall k k' f f', fm !! k = Some f -> fm !! k' = Some f' ->
    fi_IsRole f = false -> fi_IsRole f' = false -> canonical k f = canonical k' f' -> fi_Numeric f = fi_Numeric f';
  wf_dangling : forall k f, fm !! k = Some f -> fi_IsRole f = false -> fm !! canonical k f = None -> fi_Numeric f = false }.

Lemma registry_wf_ok fm : registry_wf fm -> registry_ok fm.
Proof.
  intros Hwf.
  assert (forall a info, LookupField fm a = Some info -> exists f, fm !! ToLower a = Some f /\
    fi_name info = canonical (ToLower a) f /\ fi_IsRole info = fi_IsRole f /\ fi_Numeric info = fi_Numeric f) as Hl.
  { intros a info. unfold LookupField. destruct (fm !! ToLower a) as [f|]; [|done]. cbn. intros [= <-]. by exists f. }
  split.
  - intros a info Ha. destruct (Hl a info Ha) as (f & Hf & -> & _ & _). unfold canonical.
    destruct (wf_keys fm Hwf _ _ Hf) as (H1 & H2 & _). by destruct (String.eqb _ _).
  - intros a b ia ib Ha Hb Hra Hrb Hn. destruct (Hl a ia Ha) as (fa & Hfa & Hna & Hra' & ->).
    destruct (Hl b ib Hb) as (fb & Hfb & Hnb & Hrb' & ->).
    apply (wf_agree fm Hwf (ToLower a) (ToLower b) fa fb); congruence.
Qed.

(** Checked on the initial entries. *)
Definition entry_check (l : list (string * FieldInfo)) (kf : string * FieldInfo) : bool :=
  negb (String.eqb kf.1 "") && String.eqb (ToLower kf.1) kf.1 && String.eqb (ToLower (fi_Alias kf.2)) (fi_Alias kf.2) &&
  (String.eqb (fi_tagAlias kf.2) "" || String.eqb (fi_Alias kf.2) "") &&
  forallb (fun kf' => negb (String.eqb (canonical kf.1 kf.2) (canonical kf'.1 kf'.2))
                      || Bool.eqb (fi_Numeric kf.2) (fi_Numeric kf'.2)) l &&
  (existsb (fun kf' => String.eqb kf'.1 (canonical kf.1 kf.2)) l || negb (fi_Numeric kf.2)).

Lemma registry_check fm : forallb (entry_check (map_to_list fm)) (map_to_list fm) = true -> registry_wf fm.
Proof.
  intros Hc. assert (forall k f, fm !! k = Some f -> entry_check (map_to_list fm) (k, f) = true) as He.
  { intros k f Hf. rewrite forallb_forall in Hc. apply Hc, list_elem_of_In, elem_of_map_to_list, Hf. }
  unfold entry_check in He. cbn [fst snd] in He. split.
  - intros k f Hf. specialize (He k f Hf). bprop. tauto.
  - intros k f Hf Ht. specialize (He k f Hf). bprop. tauto.
  - intros k k' f f' Hf Hf' _ _ Hn. specialize (He k f Hf). bprop. destruct He as [[_ Ha] _].
    rewrite forallb_forall in Ha. specialize (Ha (k', f') ltac:(by apply list_elem_of_In, elem_of_map_to_list)).
    cbn [fst snd] in Ha. rewrite Hn, String.eqb_refl in Ha. by apply Bool.eqb_prop.
  - intros k f Hf _ Hd. specialize (He k f Hf). bprop. destruct He as [_ [Hx|Hx]]; [|done].
    apply existsb_exists in Hx as ([k' f'] & Hin & Hk'). apply list_elem_of_In, elem_of_map_to_list in Hin.
    cbn [fst] in Hk'. apply String.eqb_eq in Hk'. congruence.
Qed.

Lemma registry_wf_initial : registry_wf fieldMap.
Proof. apply registry_check. vm_compute. reflexivity. Qed.

(** A new entry that stands for its own name. *)
Lemma registry_insert_own fm k f :
  registry_wf fm -> fm !! k = None -> ToLower k = k -> k <> "" -> fi_Alias f = "" ->
  fi_IsRole f = true \/ fi_Numeric f = false -> registry_wf (<[k := f]> fm).
Proof.
  intros Hwf Hk Hlow Hne0 Hal Hf.
  assert (canonical k f = k) as Hc by (unfold canonical; by rewrite Hal).
  assert (forall k' f', fm !! k' = Some f' -> fi_IsRole f' = false -> canonical k' f' = k -> fi_Numeric f' = false) as Hd.
  { intros k' f' Hk' Hr Hn. apply (wf_dangling fm Hwf k' f'); congruence. }
  split.
  - intros k' f' [[<- <-]|[_ Hk']]%lookup_insert_Some; [by rewrite Hal|]. by apply (wf_keys fm Hwf).
  - intros k' f' [[<- <-]|[_ Hk']]%lookup_insert_Some; [done|]. by apply (wf_tag_alias fm Hwf k').
  - intros a b fa fb [[<- <-]|[_ Ha]]%lookup_insert_Some [[<- <-]|[_ Hb]]%lookup_insert_Some Hra Hrb Hn; [done| | |].
    + destruct Hf as [Hf|Hf]; [congruence|]. rewrite Hf. symmetry. apply (Hd b fb); congruence.
    + destruct Hf as [Hf|Hf]; [congruence|]. rewrite Hf. apply (Hd a fa); congruence.
    + by apply (wf_agree fm Hwf a b).
  - intros a fa [[<- <-]|[Hne Ha]]%lookup_insert_Some Hr Hnone; apply lookup_insert_None in Hnone as [Hn Hne'].
    + by destruct Hne'.
    + by apply (wf_dangling fm Hwf a fa).
Qed.

Lemma addRole_wf fm role : role <> "" -> registry_wf fm -> registry_wf (addRole fm role).
Proof.
  intros Hne Hwf. unfold addRole. destruct (fm !! ToLower role) eqn:E; [done|].
  apply registry_insert_own; cbn; auto using ToLower_idemp. by rewrite ToLower_empty.
Qed.

(** A tag that a field names becomes an alias of that field. *)
Lemma registry_insert_alias fm name key f :
  registry_wf fm -> fm !! name = None -> ToLower name = name -> name <> "" -> fm !! key = Some f -> fi_tagAlias f <> "" ->
  registry_wf (<[name := mkField key (fi_IsTag f) (fi_IsRole f) (fi_Numeric f) (fi_Boolean f) (fi_Nullable f) "" (fi_name f)]> fm).
Proof.
  intros Hwf Hn Hlow Hn0 Hkey Hta. set (f' := mkField _ _ _ _ _ _ _ _).
  pose proof (wf_tag_alias fm Hwf key f Hkey Hta) as Hal.
  assert (canonical key f = key) as Hck by (unfold canonical; by rewrite Hal).
  destruct (wf_keys fm Hwf key f Hkey) as (Hkl & _ & Hk0).
  assert (canonical name f' = key) as Hcn by (unfold canonical; cbn; by rewrite (proj2 (String.eqb_neq _ _) Hk0)).
  assert (forall b fb, fm !! b = Some fb -> fi_IsRole fb = false -> fi_IsRole f = false ->
    canonical b fb = key -> fi_Numeric fb = fi_Numeric f) as Hag.
  { intros b fb Hb Hrb Hrf Hcan. apply (wf_agree fm Hwf b key fb f); congruence. }
  split.
  - intros a fa [[<- <-]|[_ Ha]]%lookup_insert_Some; [cbn; tauto|]. by apply (wf_keys fm Hwf).
  - intros a fa [[<- <-]|[_ Ha]]%lookup_insert_Some; [done|]. by apply (wf_tag_alias fm Hwf a).
  - intros a b fa fb [[<- <-]|[_ Ha]]%lookup_insert_Some [[<- <-]|[_ Hb]]%lookup_insert_Some Hra Hrb Hcan; [done| | |].
    + symmetry. apply (Hag b fb); [done|done|done|congruence].
    + apply (Hag a fa); [done|done|done|congruence].
    + by apply (wf_agree fm Hwf a b).
  - intros a fa [[<- <-]|[Hne Ha]]%lookup_insert_Some Hr Hnone; apply lookup_insert_None in Hnone as [Hnn Hne'].
    + rewrite Hcn in Hnn. congruence.
    + by apply (wf_dangling fm Hwf a fa).
Qed.

Lemma addTagName_wf fm tag : tag <> "" -> registry_wf fm -> registry_wf (addTagName fm tag).
Proof.
  intros Hne Hwf. unfold addTagName. destruct (fm !! ToLower tag) eqn:E; [done|].
  destruct (List.find _ _) as [[key f]|] eqn:Ef.
  - apply find_some in Ef as [Hin Hta]. apply list_elem_of_In, elem_of_map_to_list in Hin. cbn [snd] in Hta.
    apply String.eqb_eq in Hta. apply registry_insert_alias; try done; [apply ToLower_idemp|by rewrite ToLower_empty|].
    rewrite Hta. by rewrite ToLower_empty.
  - apply registry_insert_own; cbn; auto using ToLower_idemp. by rewrite ToLower_empty.
Qed.

(** A tag that no other entry stands for may become numeric. *)
Definition unaliased (fm : gmap string FieldInfo) (name : string) : Prop :=
  (forall f, fm !! name = Some f -> fi_Alias f = "") /\
  forall k f, fm !! k = Some f -> canonical k f = name -> k = name.

Lemma addNumericTag_wf fm tag :
  tag <> "" -> unaliased fm (ToLower tag) -> registry_wf fm -> registry_wf (addNumericTag fm tag).
Proof.
  intros Hne [Hown Hun] Hwf. unfold addNumericTag.
  set (name := ToLower tag) in *. assert (name <> "") as Hnn by (unfold name; by rewrite ToLower_empty).
  assert (forall f', fi_Alias f' = "" -> fi_tagAlias f' = default "" (fi_tagAlias <$> fm !! name) ->
    registry_wf (<[name := f']> fm)) as Hins.
  { intros f' Hal Hta. assert (canonical name f' = name) as Hc by (unfold canonical; by rewrite Hal). split.
    - intros a fa [[<- <-]|[_ Ha]]%lookup_insert_Some; [|by apply (wf_keys fm Hwf)]. rewrite Hal. repeat split; [apply ToLower_idemp|done].
    - intros a fa [[<- <-]|[_ Ha]]%lookup_insert_Some; [done|]. by apply (wf_tag_alias fm Hwf a).
    - intros a b fa fb [[<- <-]|[Hna Ha]]%lookup_insert_Some [[<- <-]|[Hnb Hb]]%lookup_insert_Some Hra Hrb Hcan; [done| | |].
      + destruct Hnb. symmetry. apply (Hun b fb); congruence.
      + destruct Hna. symmetry. apply (Hun a fa); congruence.
      + by apply (wf_agree fm Hwf a b).
    - intros a fa [[<- <-]|[Hna Ha]]%lookup_insert_Some Hr Hnone; apply lookup_insert_None in Hnone as [Hn0 Hne'].
      + congruence.
      + by apply (wf_dangling fm Hwf a fa). }
  destruct (fm !! name) as [f|] eqn:E; apply Hins; cbn; auto.
Qed.

Lemma unaliased_numeric fm tag name :
  unaliased fm name -> unaliased fm (ToLower tag) -> unaliased (addNumericTag fm tag) name.
Proof.
  intros [H1 H2] [H3 H4]. unfold addNumericTag. split.
  - intros f Hf. destruct (fm !! ToLower tag) as [g|] eqn:E; apply lookup_insert_Some in Hf as [[<- <-]|[_ Hf]]; cbn; auto.
  - intros k f Hf. destruct (fm !! ToLower tag) as [g|] eqn:E; apply lookup_insert_Some in Hf as [[<- <-]|[_ Hf]];
      try (by apply H2); unfold canonical; cbn; try done. by rewrite (H3 g eq_refl).
Qed.

Lemma AddNumericTags_wf fm tags :
  Forall (fun t => t <> "" /\ unaliased fm (ToLower t)) tags -> registry_wf fm -> registry_wf (AddNumericTags tags fm).
Proof.
  revert fm. induction tags as [|t tags IH]; intros fm Ht Hwf; [done|]. inversion Ht as [|? ? [Hne Hu] Hr]; subst.
  apply IH; [|by apply addNumericTag_wf]. eapply Forall_impl; [|exact Hr]. intros x [Hx Hux]. split; [done|].
  by apply unaliased_numeric.
Qed.

Lemma AddRoles_wf l fm : Forall (fun x => x <> "") l -> registry_wf fm -> registry_wf (AddRoles l fm).
Proof.
  revert fm. induction l as [|x l IH]; intros fm Hl Hwf; [done|]. inversion Hl; subst. apply IH; [done|]. by apply addRole_wf.
Qed.

Lemma AddTagNames_wf l fm : Forall (fun x => x <> "") l -> registry_wf fm -> registry_wf (AddTagNames l fm).
Proof.
  revert fm. induction l as [|x l IH]; intros fm Hl Hwf; [done|]. inversion Hl; subst. apply IH; [done|]. by apply addTagName_wf.
Qed.

(** The registry of fields stays consistent as the server fills it with its
    roles, the tags of the mappings file and the numeric ones: a field name
    always resolves to a lower-case name, and two names for one tag or column
    always agree on whether it is numeric, so conditions on it may be merged. *)
Theorem registry_consistent roles tags numeric :
  Forall (fun x => x <> "") (roles ++ tags) ->
  Forall (fun t => t <> "" /\ unaliased (AddTagNames tags (AddRoles roles fieldMap)) (ToLower t)) numeric ->
  registry_ok (AddNumericTags numeric (AddTagNames tags (AddRoles roles fieldMap))).
Proof.
  intros [Hr Ht]%Forall_app Hn.
  by apply registry_wf_ok, AddNumericTags_wf, AddTagNames_wf, AddRoles_wf, registry_wf_initial.
Qed.

(** ** Joins *)

Definition col_name (e : colexpr) : string := match e with Col c | Coalesced c _ => c end.

(** The columns of the outer query a condition reads. *)
Fixpoint columns (s : Sqlizer) : list string :=
  match s with
  | SqAnd l | SqOr l => concat (columns <$> l)
  | SqCmp _ fs => (fun cv => col_name cv.1) <$> fs
  | SqLike _ fs => (fun cp => col_name cp.1) <$> fs
  | _ => []
  end.

Fixpoint table_of (col : string) : string :=
  match col with
  | EmptyString => EmptyString
  | String c s => if Ascii.eqb c "." then EmptyString else String c (table_of s)
  end.

(** The column is in a table the query reads. *)
Definition readable (joins : Z) (col : string) : Prop := table_of col ∈ applyJoins joins.

Definition within (a b : Z) : Prop := Z.lor a b = b.

Lemma within_refl a : within a a.
Proof. apply Z.lor_diag. Qed.
Lemma within_lor_l a b c : within a b -> within a (Z.lor b c).
Proof. unfold within. intros Hw. by rewrite Z.lor_assoc, Hw. Qed.
Lemma within_lor_r a b c : within a c -> within a (Z.lor b c).
Proof. unfold within. intros Hw. by rewrite (Z.lor_comm b), Z.lor_assoc, Hw. Qed.

Lemma has_within a b x : within a b -> has a x = true -> has b x = true.
Proof.
  unfold within, has. intros <- Ha. apply negb_true_iff, Z.eqb_neq in Ha. apply negb_true_iff, Z.eqb_neq. intros Hz. apply Ha.
  rewrite Z.land_lor_distr_l in Hz. by apply Z.lor_eq_0_iff in Hz as [Hz _].
Qed.

Definition table_ok (kf : string * smartPlaylistField) : bool :=
  String.eqb (spf_expr kf.2) "" || bool_decide (table_of (spf_expr kf.2) ∈ applyJoins (spf_joinType kf.2)).

(** Every column of the table is readable with the join it names. *)
Lemma column_readable k f joins :
  smartPlaylistFields !! k = Some f -> spf_expr f <> "" -> within (spf_joinType f) joins -> readable joins (spf_expr f).
Proof.
  intros Hf Hne Hw. pose proof (fields_checked table_ok k f ltac:(vm_compute; reflexivity) Hf) as Hall.
  unfold table_ok in Hall. cbn [snd] in Hall. rewrite (proj2 (String.eqb_neq _ _) Hne) in Hall. cbn [orb] in Hall. apply bool_decide_eq_true in Hall.
  unfold readable, applyJoins in *. 
  assert (forall x t, table_of (spf_expr f) ∈ (if has (spf_joinType f) x then [t] else []) ->
    table_of (spf_expr f) ∈ (if has joins x then [t] else [])) as Hmono.
  { intros x t. destruct (has (spf_joinType f) x) eqn:E; [|intros Hx%not_elem_of_nil; destruct Hx].
    rewrite (has_within _ _ _ Hw E). exact id. }
  rewrite !elem_of_app in *. destruct Hall as [?|[?|[?|?]]]; eauto 10.
Qed.

(** ** The columns of the generated conditions *)

Section joins.
Context `{CriteriaEnv} (fm : gmap string FieldInfo) (owner : Owner) (now : Z).

(** The column belongs to one of the named fields. *)
Definition column_of (names : list string) (col : string) : Prop :=
  exists name info f, name ∈ names /\ LookupField fm name = Some info /\
    smartPlaylistFields !! fi_name info = Some f /\ spf_expr f = col /\ col <> "".

Lemma map_put_keys k v m col : col ∈ (map_put k v m).*1 -> col = k \/ col ∈ m.*1.
Proof.
  induction m as [|[k' v'] m IH]; cbn.
  - intros ->%list_elem_of_singleton. by left.
  - destruct (String.eqb_spec k' k) as [->|]; cbn; rewrite !elem_of_cons; tauto.
Qed.

Lemma sqlFields_columns values fs col :
  registry_ok fm -> sqlFields fm values = Ok fs -> col ∈ fs.*1 -> column_of values.*1 col.
Proof.
  intros Hreg. unfold sqlFields.
  assert (forall vs acc, sqlFields_loop fm vs acc = Ok fs -> col ∈ fs.*1 -> column_of vs.*1 col \/ col ∈ acc.*1) as Hgen.
  { induction vs as [|[field v] vs IH]; intros acc; cbn [sqlFields_loop]; [intros [= ->]; auto|].
    destruct (LookupField fm field) as [info|] eqn:El; [|done]. destruct (_ || _); [done|].
    unfold fieldExpr. rewrite (names_lower fm Hreg field info El).
    destruct (smartPlaylistFields !! fi_name info) as [f|] eqn:Ef; [|done]. cbn [fmap option_fmap option_map].
    destruct (String.eqb_spec (spf_expr f) "") as [|Hne]; [done|]. intros Hs Hc.
    destruct (IH _ Hs Hc) as [(n & i & g & Hn & Hrest)|Ha]; [left; exists n, i, g; split; [by right|done]|].
    apply map_put_keys in Ha as [->|Ha]; [|by right]. left. exists field, info, f. split; [by left|]. exact (conj El (conj Ef (conj eq_refl Hne))). }
  intros Hs Hc. destruct (Hgen values [] Hs Hc) as [Hd|Hd]; [done|by apply not_elem_of_nil in Hd].
Qed.

(** Conditions on columns of fields only. *)
Definition reads (names : list string) (s : Sqlizer) : Prop := forall col, col ∈ columns s -> column_of names col.

Lemma reads_nil names s : columns s = [] -> reads names s.
Proof. intros Hs col Hc. rewrite Hs in Hc. by apply not_elem_of_nil in Hc. Qed.

Lemma jsonExpr_reads names info cond neg : reads names (jsonExpr info cond neg).
Proof. apply reads_nil. unfold jsonExpr. by destruct (fi_IsRole info). Qed.

Lemma singleField_ok values field v info :
  singleField fm values = (field, v, info, true) -> values = [(field, v)] /\ LookupField fm field = Some info.
Proof.
  unfold singleField. destruct values as [|[n w] [|]]; try done. destruct (LookupField fm n) eqn:E; [|done].
  by intros [= <- <- <-].
Qed.

Lemma coalesced_name f : col_name (coalesced f) = spf_expr f.
Proof. unfold coalesced. by destruct (spf_coalesceDefault f). Qed.

Lemma annotation_column field info f d :
  LookupField fm field = Some info -> annotationField info = Some (f, d) -> column_of [field] (spf_expr f).
Proof.
  intros El. unfold annotationField. destruct (smartPlaylistFields !! fi_name info) as [g|] eqn:Ef; [|done].
  cbn [mbind option_bind]. destruct (spf_coalesceDefault g) as [d'|] eqn:Ed; [|done]. intros [= <- <-].
  exists field, info, g. split; [by left|]. split; [exact El|]. split; [exact Ef|]. split; [reflexivity|].
  pose proof (fields_checked (fun kf => match spf_coalesceDefault kf.2 with
    | Some _ => negb (String.eqb (spf_expr kf.2) "") | None => true end) _ g ltac:(vm_compute; reflexivity) Ef) as Hall.
  cbn [snd] in Hall. rewrite Ed in Hall. by bprop.
Qed.

Lemma annotationCond_columns f d c v col : col ∈ columns (annotationCond f d c v) -> col = spf_expr f.
Proof.
  unfold annotationCond. destruct (bareNullInclusion d c v) as [[]|]; cbn; rewrite ?coalesced_name, ?elem_of_cons, ?elem_of_nil; tauto.
Qed.

(** Columns found in a map of fields built by [sqlFields]. *)
Lemma sqlFields_reads {A} values fs (g : string * value -> colexpr * A) :
  registry_ok fm -> sqlFields fm values = Ok fs -> (forall kv, col_name (g kv).1 = kv.1) ->
  forall col, col ∈ (fun cv => col_name cv.1) <$> (g <$> fs) -> column_of values.*1 col.
Proof.
  intros Hreg Hs Hg col Hc. eapply sqlFields_columns; [done|exact Hs|].
  rewrite <- list_fmap_compose in Hc. apply list_elem_of_fmap in Hc as (kv & -> & Hin). cbn. rewrite Hg.
  apply list_elem_of_fmap. eauto.
Qed.

Lemma comparison_reads values c s : registry_ok fm -> comparisonExpr fm values c = Ok s -> reads values.*1 s.
Proof.
  intros Hreg. unfold comparisonExpr. destruct (singleField fm values) as [[[field v] info] ok] eqn:Es.
  destruct (ok && _); [intros [= <-]; apply jsonExpr_reads|].
  destruct (if ok then annotationField info else None) as [[f d]|] eqn:Ea.
  - destruct ok; [|done]. apply singleField_ok in Es as [-> El]. intros [= <-] col ->%annotationCond_columns.
    by eapply annotation_column.
  - destruct (sqlFields fm values) as [fs|] eqn:Ef; [|done]. intros [= <-] col Hc.
    exact (sqlFields_reads values fs (fun kv => (Col kv.1, kv.2)) Hreg Ef (fun _ => eq_refl) col Hc).
Qed.

Lemma isNot_reads values s : registry_ok fm -> isNotExpr fm values = Ok s -> reads values.*1 s.
Proof.
  intros Hreg. unfold isNotExpr. destruct (singleField fm values) as [[[field v] info] ok].
  destruct (ok && _); [intros [= <-]; apply jsonExpr_reads|by apply comparison_reads].
Qed.

Lemma like_reads values p neg s : registry_ok fm -> likeExpr fm values p neg = Ok s -> reads values.*1 s.
Proof.
  intros Hreg. unfold likeExpr. destruct (singleField fm values) as [[[field v] info] ok] eqn:Es.
  destruct (ok && _); [intros [= <-]; apply jsonExpr_reads|].
  destruct (if ok then annotationField info else None) as [[f d]|] eqn:Ea.
  - destruct ok; [|done]. apply singleField_ok in Es as [-> El]. intros [= <-] col. cbn. rewrite coalesced_name.
    intros ->%list_elem_of_singleton. by eapply annotation_column.
  - destruct (sqlFields fm values) as [fs|] eqn:Ef; [|done]. intros [= <-] col Hc.
    exact (sqlFields_reads values fs (fun kv => (Col kv.1, pat_of p kv.2)) Hreg Ef (fun _ => eq_refl) col Hc).
Qed.

Lemma reads_group names l : Forall (reads names) l -> reads names (SqAnd l) /\ reads names (SqOr l).
Proof.
  intros Hl. assert (forall col, col ∈ concat (columns <$> l) -> column_of names col) as Hc; [|done].
  intros col (s & Hs & Hcol)%elem_concat_fmap. rewrite Forall_forall in Hl.
  apply (Hl s); [by apply list_elem_of_In|done].
Qed.

Lemma range_reads values s : registry_ok fm -> rangeExpr fm values = Ok s -> reads values.*1 s.
Proof.
  intros Hreg. unfold rangeExpr. destruct (singleField fm values) as [[[field v] info] ok] eqn:Es.
  destruct ok; [|done]. apply singleField_ok in Es as [-> _]. destruct (_ || _); [done|]. cbn [negb].
  destruct v as [| | | | |[|lo [|hi [|]]]|]; try done.
  destruct (comparisonExpr fm [(field, lo)] cmpGe) as [low|] eqn:E1; [|done].
  destruct (comparisonExpr fm [(field, hi)] cmpLe) as [high|] eqn:E2; [|done]. intros [= <-].
  apply (reads_group [field] [low; high]). repeat constructor; [exact (comparison_reads _ _ _ Hreg E1)|exact (comparison_reads _ _ _ Hreg E2)].
Qed.

Lemma period_reads values neg s : registry_ok fm -> periodExpr fm now values neg = Ok s -> reads values.*1 s.
Proof.
  intros Hreg. unfold periodExpr. destruct (sqlFields fm values) as [fs|] eqn:Ef; [|done]. cbn [result_bind].
  destruct fs as [|[field v] fs]; [done|].
  destruct (Atoi (Sprint v)); [|done]. intros Hs. assert (forall col, col ∈ columns s -> col = field) as Hc.
  { destruct neg; injection Hs as <-; cbn; intros col; rewrite ?elem_of_cons, ?elem_of_nil; tauto. }
  intros col ->%Hc. eapply sqlFields_columns; [done|exact Ef|]. by left.
Qed.

Lemma missing_reads values absent s : registry_ok fm -> missingExpr fm values absent = Ok s -> reads values.*1 s.
Proof.
  intros Hreg. unfold missingExpr. destruct (singleField fm values) as [[[field v] info] ok] eqn:Es.
  destruct ok; cbn [negb]; [|by destruct (negb _)]. apply singleField_ok in Es as [-> El]. destruct v; try done.
  destruct (_ || _); [intros [= <-]; apply jsonExpr_reads|]. destruct (fi_Nullable info); [|done].
  destruct (smartPlaylistFields !! fi_name info) as [f|] eqn:Ef; [|done].
  destruct (String.eqb_spec (spf_expr f) "") as [|Hne]; [done|].
  set (es := if negb (fi_Numeric info) && _ then _ else _).
  assert (forall c v, reads [field] (SqCmp c [(Col (spf_expr f), v)])) as Hone.
  { intros c v col ->%list_elem_of_singleton. exists field, info, f. split; [by left|].
    exact (conj El (conj Ef (conj eq_refl Hne))). }
  assert (forall c, Forall (reads [field]) ((fun e => SqCmp c [(Col (spf_expr f), VStr e)]) <$> es)) as Hes.
  { intros c. apply Forall_forall. intros s' Hs'. apply list_elem_of_In, list_elem_of_fmap in Hs' as (e & -> & _). apply Hone. }
  destruct (Bool.eqb absent b); intros [= <-]; (eapply reads_group; constructor; [apply Hone|apply Hes]).
Qed.

Lemma leafSQL_reads op values s : registry_ok fm -> leafSQL fm owner now op values = Ok s -> reads values.*1 s.
Proof.
  intros Hreg. destruct op; cbn [leafSQL]; intros Hs;
    eauto using comparison_reads, isNot_reads, like_reads, range_reads, period_reads, missing_reads.
  all: unfold inList in Hs; destruct (playlist_ref values); [|done]; injection Hs as <-; by apply reads_nil.
Qed.

(** Merging adds no column. *)
Lemma merged_reads names conds neg merged :
  mergeSameFieldConds conds neg = Some merged -> Forall (reads names) conds -> Forall (reads names) merged.
Proof.
  unfold mergeSameFieldConds. set (ics := zip _ _). set (ks := merge_sort _ _). set (rm := concat (_ <$> ks)).
  intros Hm Hc. assert (merged = (filter (fun ic => ic.1 ∉ rm) ics).*2 ++ concat ((fun kg => group_additions neg kg.1 kg.2) <$> ks))
    as -> by (destruct rm; [done|by injection Hm as <-]).
  rewrite Forall_forall in Hc |- *. intros s Hs. apply list_elem_of_In, elem_of_app in Hs as [Hs|Hs].
  - apply list_elem_of_fmap in Hs as ([i s'] & -> & Hs). apply list_elem_of_filter in Hs as [_ Hs].
    apply elem_indexed, list_elem_of_lookup_2 in Hs. by apply Hc, list_elem_of_In.
  - apply elem_concat_fmap in Hs as ([k g] & _ & Hs). unfold group_additions in Hs.
    destruct (_ <? _)%nat; [by apply not_elem_of_nil in Hs|]. apply list_elem_of_fmap in Hs as (batch & -> & _).
    apply reads_nil. by destruct (g_isRole _).
Qed.

Definition all_fields (e : Expression) : list string := concat ((fun x => (fields x).*1) <$> Walk e).

Lemma column_of_mono names names' col : (forall n, n ∈ names -> n ∈ names') -> column_of names col -> column_of names' col.
Proof. intros Hn (n & i & f & Hin & Hrest). exists n, i, f. auto. Qed.

Lemma exprSQL_reads e : forall s, registry_ok fm -> exprSQL fm owner now e = Ok s -> reads (all_fields e) s.
Proof.
  induction e as [l IH|l IH|op values] using expression_rose_ind; intros s Hreg; cbn [exprSQL].
  3:{ intros Hs col Hc. eapply column_of_mono; [|by eapply leafSQL_reads].
      intros n Hn. unfold all_fields. cbn. by rewrite app_nil_r. }
  all: destruct (map_result (exprSQL fm owner now) l) as [conds|] eqn:El; [|done]; intros [= <-];
    apply map_result_ok in El; rewrite Forall_forall in IH.
  all: match goal with |- reads (all_fields ?e) _ => assert (Forall (reads (all_fields e)) conds) as Hconds end.
  1,3: (rewrite Forall_forall; intros s Hs; apply list_elem_of_In, list_elem_of_lookup_1 in Hs as [i Hi];
    eapply Forall2_lookup_r in Hi as (x & Hx & Hsx); [|exact El]; cbn beta in Hsx; apply list_elem_of_lookup_2 in Hx;
    intros col Hc; eapply column_of_mono; [|by eapply (IH x (proj1 (list_elem_of_In _ _) Hx))];
    intros n Hn; unfold all_fields in *; cbn [Walk fmap list_fmap concat fields app];
    apply elem_concat_fmap in Hn as (y & Hy & Hn); apply elem_concat_fmap; exists y; split; [|done];
    apply elem_concat_fmap; eauto).
  - unfold mergeNegatedJsonConds. destruct (mergeSameFieldConds conds true) eqn:Em; apply reads_group; [|done]. by eapply merged_reads.
  - unfold mergeJsonConds. destruct (mergeSameFieldConds conds false) eqn:Em; apply reads_group; [|done]. by eapply merged_reads.
Qed.

Lemma or_joins_within names j :
  within j (or_joins fm names j) /\ forall n, n ∈ names -> within (fieldJoinType fm n) (or_joins fm names j).
Proof.
  revert j. induction names as [|x names IH]; intros j; cbn [or_joins foldl].
  { split; [apply within_refl|]. intros n Hn. by apply not_elem_of_nil in Hn. }
  destruct (IH (Z.lor j (fieldJoinType fm x))) as [H1 H2]. unfold within in *.
  assert (forall a, Z.lor a (Z.lor j (fieldJoinType fm x)) = Z.lor j (fieldJoinType fm x) ->
    Z.lor a (or_joins fm names (Z.lor j (fieldJoinType fm x))) = or_joins fm names (Z.lor j (fieldJoinType fm x))) as Ht.
  { intros a Ha. rewrite <- H1. by rewrite Z.lor_assoc, Ha. }
  split; [apply Ht, within_lor_l, within_refl|]. intros n [->|Hn]%elem_of_cons; [|by apply H2].
  apply Ht, within_lor_r, within_refl.
Qed.

Lemma expressionJoins_within c e n :
  c_Expression c = Some e -> n ∈ all_fields e -> within (fieldJoinType fm n) (expressionJoins fm c).
Proof.
  intros He. unfold expressionJoins, all_fields. rewrite He. generalize smartPlaylistJoinNone as j. generalize (Walk e) as l.
  assert (forall l j, within j (foldl (fun joins e => or_joins fm (fields e).*1 joins) j l)) as Hmono.
  { induction l as [|x l IH]; intros j; cbn [foldl]; [apply within_refl|]. unfold within in *.
    rewrite <- IH, Z.lor_assoc. f_equal. apply or_joins_within. }
  induction l as [|x l IH]; intros j; cbn [foldl fmap list_fmap concat]; [intros Hn; by apply not_elem_of_nil in Hn|].
  intros [Hn|Hn]%elem_of_app; [|by apply IH]. pose proof (proj2 (or_joins_within (fields x).*1 j) n Hn) as Hw.
  specialize (Hmono l (or_joins fm (fields x).*1 j)). unfold within in *. by rewrite <- Hmono, Z.lor_assoc, Hw.
Qed.

Lemma column_of_readable names joins col :
  (forall n, n ∈ names -> within (fieldJoinType fm n) joins) -> column_of names col -> readable joins col.
Proof.
  intros Hw (n & info & f & Hn & El & Ef & <- & Hne). specialize (Hw n Hn). unfold fieldJoinType in Hw. rewrite El, Ef in Hw.
  exact (column_readable _ f joins Ef Hne Hw).
Qed.

Lemma sortExpr_readable name joins numeric col :
  within (fieldJoinType fm name) joins -> sortExpr fm name = Some (OrderCol numeric col) -> readable joins (col_name col).
Proof.
  unfold fieldJoinType, sortExpr. destruct (LookupField fm name) as [info|]; [|done]. cbn [mbind option_bind].
  destruct (smartPlaylistFields !! fi_name info) as [f|] eqn:Ef; intros Hw.
  - destruct (negb _); [discriminate|]. destruct (fi_IsTag info); [discriminate|]. destruct (fi_IsRole info); [discriminate|].
    destruct (String.eqb_spec (spf_expr f) "") as [|Hne]; [discriminate|]. intros [= <- <-]. rewrite coalesced_name.
    exact (column_readable _ f joins Ef Hne Hw).
  - destruct (fi_IsTag info); [discriminate|]. destruct (fi_IsRole info); discriminate.
Qed.

End joins.

(** Every column a smart playlist's query mentions is in a table the query
    joins: those of its condition with the joins of the expression alone (as the
    counting query uses them), and those of its condition and its order with the
    joins of the whole criteria. *)
Theorem joins_cover `{CriteriaEnv} fm owner now c s :
  registry_ok fm -> where_ fm owner now c = Ok s ->
  (forall col, col ∈ columns s -> readable (expressionJoins fm c) col /\ readable (requiredJoins fm c) col) /\
  (forall numeric col desc, (OrderCol numeric col, desc) ∈ orderBy fm c -> readable (requiredJoins fm c) (col_name col)).
Proof.
  intros Hreg Hs. unfold requiredJoins. split.
  - intros col Hc. unfold where_ in Hs. destruct (c_Expression c) as [e|] eqn:Ee.
    2:{ injection Hs as <-. by apply not_elem_of_nil in Hc. }
    pose proof (exprSQL_reads fm owner now e s Hreg Hs col Hc) as Hcol.
    pose proof (fun n => expressionJoins_within fm c e n Ee) as Hw.
    split; eapply column_of_readable; try exact Hcol; [exact Hw|]. intros n Hn. specialize (Hw n Hn).
    destruct (or_joins_within fm (SortFieldNames fm c) (expressionJoins fm c)) as [Hj _].
    unfold within in *. by rewrite <- Hj, Z.lor_assoc, Hw.
  - intros numeric col desc Ho. unfold orderBy in Ho. apply list_elem_of_omap in Ho as (sf & Hsf & Ht).
    destruct (sortExpr fm (sf_Field sf)) as [t|] eqn:Et; [|done]. cbn in Ht. injection Ht as -> _.
    eapply sortExpr_readable; [|exact Et]. apply or_joins_within. unfold SortFieldNames. apply list_elem_of_fmap. eauto.
Qed.

(** ** Selection *)



(** ** A small database *)

Inductive dval := DNum (x : spec_float) | DText (s : string).

Inductive drow := mkRow (cells : list (string * dval)) (tags : list (string * list dval))
  (crs : list (string * list (option dval))) (pls : list drow).

Definition assoc_get {A} (k : string) (l : list (string * A)) : option A :=
  snd <$> List.find (fun kv => String.eqb kv.1 k) l.

Definition dcell (r : drow) (col : string) : option dval := let '(mkRow cells _ _ _) := r in assoc_get col cells.
Definition dtags (r : drow) (t : string) : list dval := let '(mkRow _ tags _ _) := r in default [] (assoc_get t tags).
Definition dcredits (r : drow) (ro : string) : list (option dval) :=
  let '(mkRow _ _ crs _) := r in default [] (assoc_get ro crs).
Definition dplaylists (r : drow) : list drow := let '(mkRow _ _ _ pls) := r in pls.
Definition delem (x : dval) : drow := mkRow [("value", x)] [] [] [].

#[local] Instance toy_env : CriteriaEnv := {
  NFC := id; NFD := id; ParseFloat s := float64_of_int <$> Atoi s; fmt_float _ := "" }.

Definition dscalar (c : comparator) (x : dval) (v : value) : bool :=
  match x, v with
  | DNum a, VNum b => satisfy c a b
  | DNum a, VInt b => satisfy c a (float64_of_int b)
  | DNum a, VBool b => satisfy c a (boolToFloat b)
  | DNum a, VStr s => match Atoi s with Some b => satisfy c a (float64_of_int b)
                                      | None => bool_decide (c ∈ [cmpNe; cmpLt; cmpLe]) end
  | DText a, VStr b => match c with
                       | cmpEq => String.eqb a b
                       | cmpNe => negb (String.eqb a b)
                       | cmpGt => String.ltb b a | cmpGe => String.leb b a
                       | cmpLt => String.ltb a b | cmpLe => String.leb a b
                       end
  | _, _ => false
  end.
Definition dcompare (c : comparator) (x : dval) (v : value) : bool :=
  match v with
  | VList l => match c with
               | cmpEq => existsb (dscalar cmpEq x) l
               | cmpNe => negb (existsb (dscalar cmpEq x) l)
               | _ => false
               end
  | _ => dscalar c x v
  end.

Definition dliteral (v : value) : dval := match v with VInt z => DNum (float64_of_int z) | VBool b => DNum (boolToFloat b) | _ => DText "" end.

(** [LIKE], with [%] only. *)
Fixpoint like_match (fuel : nat) (s p : string) : bool :=
  match fuel with
  | O => false
  | S fuel =>
      match p, s with
      | EmptyString, EmptyString => true
      | EmptyString, _ => false
      | String a p', _ =>
          if Ascii.eqb a "%" then
            like_match fuel s p' || match s with String _ s' => like_match fuel s' p | EmptyString => false end
          else match s with String b s' => Ascii.eqb a b && like_match fuel s' p' | EmptyString => false end
      end
  end.
Definition dlike (x : dval) (p : string) : bool :=
  match x with DText s => like_match (S (String.length s + String.length p)) s p | DNum _ => false end.

Fixpoint dholds (s : Sqlizer) (r : drow) : bool :=
  let cmp c r (e : colexpr) v :=
    match e with
    | Col col => match v, dcell r col with
                 | VNil, x => match c with
                              | cmpEq => negb (bool_decide (is_Some x)) | cmpNe => bool_decide (is_Some x) | _ => false end
                 | _, Some x => dcompare c x v
                 | _, None => false
                 end
    | Coalesced col d => match v with
                         | VNil => bool_decide (c = cmpNe)
                         | _ => dcompare c (default (dliteral d) (dcell r col)) v
                         end
    end in
  let lk neg r (e : colexpr) p :=
    match e with
    | Col col => match dcell r col with Some x => xorb neg (dlike x p) | None => false end
    | Coalesced col d => xorb neg (dlike (default (dliteral d) (dcell r col)) p)
    end in
  match s with
  | SqAnd l => forallb (fun s => dholds s r) l
  | SqOr l => existsb (fun s => dholds s r) l
  | SqCmp c fs => forallb (fun cv => cmp c r cv.1 cv.2) fs
  | SqLike neg fs => forallb (fun cp => lk neg r cp.1 cp.2) fs
  | SqTrue => true
  | SqInPlaylist neg f => xorb neg (existsb (fun p => dholds f p) (dplaylists r))
  | tagCond t _ (Some c) neg => xorb neg (existsb (fun x => dholds c (delem x)) (dtags r t))
  | tagCond t _ None neg => xorb neg (existsb (fun _ => true) (dtags r t))
  | roleCond ro (Some c) neg =>
      xorb neg (existsb (fun x => match x with Some x => dholds c (delem x) | None => false end) (dcredits r ro))
  | roleCond ro None neg => xorb neg (existsb (fun _ => true) (dcredits r ro))
  | tagCondGroup t _ conds neg => xorb neg (existsb (fun x => existsb (fun s => dholds s (delem x)) conds) (dtags r t))
  | roleCondGroup ro conds neg =>
      xorb neg (existsb (fun x => match x with Some x => existsb (fun s => dholds s (delem x)) conds | None => false end)
                  (dcredits r ro))
  end.

#[local] Instance toy_db : Database drow dval := {
  holds r s := dholds s r; cell := dcell; compare := dcompare; compare_expr := dcompare; like := dlike;
  literal := dliteral; cast_real := id; tag_values := dtags; credits := dcredits; playlist_rows := dplaylists; elem := delem }.

#[local] Instance toy_laws : DatabaseLaws drow dval.
Proof.
  split; try done.
  - intros r t num cond neg. cbn. unfold cast. cbn. by destruct num.
  - intros r t num conds neg. cbn. unfold cast. cbn. by destruct num.
  - intros [a|a] s; cbn; [|done]. destruct (Atoi s); done.
  - intros c v x Hv Hd. destruct v; cbn in *; simplify_eq; try done.
    destruct (Atoi s) as [b|]; [|discriminate Hv]. cbn in Hv. by injection Hv as <-.
Qed.

(** ** Examples *)

Lemma unaliased_check fm name :
  forallb (fun kf => if String.eqb kf.1 name then String.eqb (fi_Alias kf.2) ""
                     else negb (String.eqb (canonical kf.1 kf.2) name)) (map_to_list fm) = true ->
  unaliased fm name.
Proof.
  rewrite forallb_forall. intros Hc.
  assert (forall k f, fm !! k = Some f -> if String.eqb k name then fi_Alias f = "" else canonical k f <> name) as Hk.
  { intros k f Hf. specialize (Hc (k, f)). rewrite <- list_elem_of_In, elem_of_map_to_list in Hc. specialize (Hc Hf).
    cbn in Hc. destruct (String.eqb k name); [by apply String.eqb_eq|]. by apply negb_true_iff, String.eqb_neq in Hc. }
  split.
  - intros f Hf. specialize (Hk _ _ Hf). by rewrite String.eqb_refl in Hk.
  - intros k f Hf Hn. specialize (Hk _ _ Hf). by destruct (String.eqb_spec k name).
Qed.

Definition sample_fields : gmap string FieldInfo :=
  AddNumericTags ["mood"] (AddTagNames ["mood"; "recordingdate"] (AddRoles ["composer"] fieldMap)).

Lemma registry_consistent_witness :
  is_Some (LookupField sample_fields "Mood") /\ registry_ok sample_fields.
Proof.
  split; [vm_compute; eauto|]. apply registry_consistent.
  - repeat constructor; done.
  - constructor; [|constructor]. split; [done|]. apply unaliased_check. vm_compute. reflexivity.
Defined.

Lemma sample_ok : registry_ok sample_fields.
Proof.
  apply registry_wf_ok, AddNumericTags_wf.
  - constructor; [|constructor]. split; [done|]. apply unaliased_check. vm_compute. reflexivity.
  - apply AddTagNames_wf, AddRoles_wf, registry_wf_initial; repeat constructor; done.
Qed.

(** Loved or highly rated tracks of a mood, not played lately, and not by a
    composer. *)
Definition sample_criteria : Criteria :=
  mkCriteria (Some (All [Any [Leaf Is [("loved", VBool true)]; Leaf Gt [("rating", VInt 3)]];
                         Any [Leaf Is [("mood", VNum (float64_of_int 3))]; Leaf Is [("mood", VNum (float64_of_int 5))]];
                         Leaf NotContains [("composer", VStr "Bach")];
                         Leaf NotInTheLast [("lastplayed", VInt 30)]])) "-rating,title" "" 10 0 0 0.
Definition sample_owner : Owner := mkOwner "u1" false.

Definition sample_row : drow :=
  mkRow [("annotation.rating", DNum (float64_of_int 4))] [("mood", [DNum (float64_of_int 5)])]
    [("composer", [Some (DText "Mahler")])] [].

Lemma sample_expr_ok e : c_Expression sample_criteria = Some e -> expr_ok sample_fields e.
Proof.
  intros [= <-] op values Hin. right. right.
  cbn -[sample_fields] in Hin. repeat (apply elem_of_cons in Hin as [Hin|Hin]; [try discriminate Hin|]).
  all: try (by apply not_elem_of_nil in Hin).
  all: injection Hin as -> ->; eexists _, _; split; [reflexivity|]; intros k Hk; split; [|intros ? ? [=]];
    intros col d ->; vm_compute in Hk; try discriminate Hk; injection Hk as <- <-.
  - split; [intros _ b [= <-]; reflexivity|discriminate].
  - split; [discriminate|discriminate].
Qed.


Lemma joins_cover_witness :
  exists s, where_ sample_fields sample_owner 0 sample_criteria = Ok s /\ columns s <> [] /\
    forall col, col ∈ columns s -> readable (expressionJoins sample_fields sample_criteria) col.
Proof.
  destruct (where_ sample_fields sample_owner 0 sample_criteria) as [s|] eqn:E; [|vm_compute in E; discriminate E].
  exists s. split; [done|]. split; [vm_compute in E; injection E as <-; discriminate|].
  intros col Hc. by apply (joins_cover sample_fields sample_owner 0 sample_criteria s sample_ok E).
Defined.

Definition sample_conds : list Sqlizer :=
  [tagCond "mood" true (Some (SqCmp cmpEq [(Col "value", VInt 3)])) false;
   roleCond "composer" (Some (SqLike false [(Col "value", "%Bach%")])) false;
   tagCond "mood" true (Some (SqCmp cmpEq [(Col "value", VInt 5)])) false].

