(* ===== verification/FloatFacts.v ===== *)
(** * Order and arithmetic of floating point numbers

    The comparisons of [SpecFloat] as a lexicographic order on integer keys, which
    makes them a total order on numbers that are not NaN, and the operations that
    never produce a NaN. *)

From Stdlib Require Import Floats.SpecFloat.
From S2P Require Import Prelude GoFloat.

Local Open Scope Z_scope.

(** ** Lexicographic order of integer lists *)

Fixpoint lexb (a b : list Z) : bool :=
  match a, b with
  | x :: a, y :: b => (x <? y) || ((x =? y) && lexb a b)
  | _, _ => false
  end.

Lemma lexb_irrefl a : lexb a a = false.
Proof. induction a as [|x a IH]; cbn; [done|]. by rewrite Z.ltb_irrefl, IH, andb_false_r. Qed.

Lemma lexb_trans a b c : lexb a b = true -> lexb b c = true -> lexb a c = true.
Proof.
  revert b c. induction a as [|x a IH]; intros [|y b] [|z c]; cbn; try done.
  rewrite !orb_true_iff, !andb_true_iff, !Z.ltb_lt, !Z.eqb_eq.
  intros [Hxy|[-> Hab]] [Hyz|[-> Hbc]]; try (left; lia). right. split; [done|]. by eapply IH.
Qed.

(** A longer key is decided by its first part unless the first parts agree. *)
Lemma lexb_app a b c d : length a = length b -> lexb (a ++ c) (b ++ d) = if bool_decide (a = b) then lexb c d else lexb a b.
Proof.
  revert b. induction a as [|x a IH]; intros [|y b]; try done. intros [= Hl]. cbn. rewrite IH by done.
  destruct (Z.eqb_spec x y) as [->|Hne].
  - rewrite Z.ltb_irrefl. cbn. repeat case_bool_decide; congruence.
  - rewrite andb_false_l, orb_false_r. case_bool_decide; [congruence|]. by rewrite orb_false_r.
Qed.

(** ** Floats *)

Definition is_nan (x : spec_float) : bool := match x with S754_nan => true | _ => false end.

Definition fkey (x : spec_float) : list Z :=
  match x with
  | S754_zero _ => [0; 0; 0]
  | S754_infinity s => [if s then -2 else 2; 0; 0]
  | S754_nan => [3; 0; 0]
  | S754_finite true m e => [-1; - e; - Zpos m]
  | S754_finite false m e => [1; e; Zpos m]
  end.

Lemma fkey_length x : length (fkey x) = 3%nat.
Proof. by destruct x as [| | |[]]. Qed.

Lemma SFcompare_fkey a b :
  is_nan a = false -> is_nan b = false ->
  SFcompare a b = Some (if bool_decide (fkey a = fkey b) then Eq else if lexb (fkey a) (fkey b) then Lt else Gt).
Proof.
  destruct a as [[]|[]| |[] m e], b as [[]|[]| |[] m' e']; intros Ha Hb; try discriminate; try reflexivity; cbn [SFcompare fkey];
    f_equal; change (Pos.compare_cont Eq m m') with (Pos.compare m m'); cbn [lexb];
    case_bool_decide as Hk; try (injection Hk as Hk1 Hk2).
  - assert (e = e') as -> by lia. subst. by rewrite Z.compare_refl, Pos.compare_refl.
  - destruct (Z.compare_spec e e'), (Pos.compare_spec m m'); subst; cbn;
      repeat (case_cond; bprop); try done; exfalso; try lia; apply Hk; f_equal; lia.
  - subst. by rewrite Z.compare_refl, Pos.compare_refl.
  - destruct (Z.compare_spec e e'), (Pos.compare_spec m m'); subst; cbn;
      repeat (case_cond; bprop); try done; exfalso; try lia; apply Hk; f_equal; lia.
Qed.

Lemma SFltb_fkey a b : is_nan a = false -> is_nan b = false -> SFltb a b = lexb (fkey a) (fkey b).
Proof.
  intros Ha Hb. unfold SFltb. rewrite SFcompare_fkey by done. case_bool_decide as Hk.
  - by rewrite Hk, lexb_irrefl.
  - by destruct (lexb _ _).
Qed.

Lemma SFeqb_fkey a b : is_nan a = false -> is_nan b = false -> SFeqb a b = bool_decide (fkey a = fkey b).
Proof.
  intros Ha Hb. unfold SFeqb. rewrite SFcompare_fkey by done. case_bool_decide; [done|]. by destruct (lexb _ _).
Qed.

(** ** Operations without NaN *)

Lemma shr_1_nonneg r : 0 <= shr_m r -> 0 <= shr_m (shr_1 r).
Proof. destruct r as [[|[]|[]] r s]; cbn; lia. Qed.

Lemma iter_shr_nonneg p r : 0 <= shr_m r -> 0 <= shr_m (SpecFloat.iter_pos shr_1 p r).
Proof.
  revert r. induction p as [p IH|p IH|]; intros r Hr; cbn [SpecFloat.iter_pos]; auto using shr_1_nonneg.
Qed.

Lemma shr_fexp_nonneg prec emax m e l : 0 <= m -> 0 <= shr_m (fst (shr_fexp prec emax m e l)).
Proof.
  intros Hm. unfold shr_fexp, shr. assert (0 <= shr_m (shr_record_of_loc m l)) by (by destruct l as [|[]]).
  destruct (_ - e); cbn [fst]; auto using iter_shr_nonneg.
Qed.

Lemma round_aux_not_nan prec emax s m e l : 0 <= m -> is_nan (binary_round_aux prec emax s m e l) = false.
Proof.
  intros Hm. unfold binary_round_aux. pose proof (shr_fexp_nonneg prec emax m e l Hm) as H1.
  destruct (shr_fexp prec emax m e l) as [r1 e1]. cbn [fst] in H1.
  assert (0 <= round_nearest_even (shr_m r1) (loc_of_shr_record r1)) as H2
    by (unfold round_nearest_even; destruct (loc_of_shr_record r1) as [|[]]; try destruct (Z.even _); lia).
  pose proof (shr_fexp_nonneg prec emax _ e1 loc_Exact H2) as H3.
  destruct (shr_fexp prec emax (round_nearest_even _ _) e1 loc_Exact) as [r2 e2]. cbn [fst] in H3.
  destruct (shr_m r2); [done| |lia]. by destruct (_ <=? _).
Qed.

Lemma normalize_not_nan prec emax m e s : is_nan (binary_normalize prec emax m e s) = false.
Proof.
  destruct m as [|m|m]; cbn [binary_normalize]; [done| |]; unfold binary_round;
    destruct (shl_align m e _); apply round_aux_not_nan; lia.
Qed.

Lemma div_finite_not_nan prec emax s m e s' m' e' :
  is_nan (SFdiv prec emax (S754_finite s m e) (S754_finite s' m' e')) = false.
Proof.
  cbn [SFdiv]. unfold SFdiv_core_binary.
  set (m'' := match _ with Z0 => _ | Zpos _ => _ | Zneg _ => _ end). assert (0 <= m'') as Hm''.
  { unfold m''. destruct (_ - Z.min _ _); [lia| |lia]. apply Z.shiftl_nonneg. lia. }
  pose proof (Z_div_mod m'' (Zpos m') ltac:(lia)) as Hd. destruct (Z.div_eucl m'' (Zpos m')) as [q r].
  apply round_aux_not_nan. nia.
Qed.
