(* ===== verification/Matcher.v ===== *)
(** * Matching songs of external services to the library

    [core/matcher/matcher.go] with the functions of [utils/str] it calls.  Songs
    named by a metadata agent are resolved to tracks of the library in four
    phases: by id, by MusicBrainz id, by ISRC, and by a fuzzy comparison of titles
    among the tracks credited to one of the song's artists.

    The queries to the database are the class [MatcherStore]; the string metric,
    the accent folding and the hash of a song come from libraries and are the class
    [MatcherEnv]. *)

From stdpp Require Import sorting.
From Stdlib Require Import Ascii Floats.SpecFloat.
From S2P Require Import Prelude GoStrings GoText Model GoFloat.

Local Open Scope Z_scope.
Local Open Scope go_scope.

(** ** Songs *)

(** [agents.Artist] and [agents.Song]. *)
Record Artist := mkArtist { ar_ID : string; ar_Name : string; ar_MBID : string }.
Record Song := mkSong {
  s_ID : string; s_Name : string; s_MBID : string; s_ISRC : string; s_Artists : list Artist;
  s_Album : string; s_AlbumMBID : string; s_Duration : Z }.

(** A row of the artist table. *)
Record ArtistRow := mkArtistRow { a_ID : string; a_OrderArtistName : string; a_MbzArtistID : string }.

(** The library functions, and the settings the matcher reads. *)
Class MatcherEnv := {
  JaroWinkler : string -> string -> spec_float;
  Accents : string -> string;
  Hash : Song -> Z;
  IgnoredArticles : string;
  FuzzyThreshold : Z;
  PreferStarred : bool }.

(** The filters of the matcher's queries; each also asks that the file is not
    missing. *)
Inductive FileFilter :=
| FilterID (ids : list string)
| FilterMBID (mbids : list string)
| FilterISRC (isrcs : list string)
| FilterCredited (artistIDs : list string).

(** The [Or] over the columns of the artist table; an absent column is an empty
    list. *)
Record ArtistFilter := mkAF { af_names : list string; af_mbids : list string; af_ids : list string }.

Class MatcherStore := {
  MediaFileGetAll : FileFilter -> result string (list MediaFile);
  ArtistGetAll : ArtistFilter -> result string (list ArtistRow) }.

(** ** Text *)

(** [utf8ToAscii]: the UTF-8 bytes of the punctuation that has an ASCII form. *)
Definition utf8ToAscii : list (string * ascii) :=
  let enc (l : list N) := foldr (fun b s => String (ascii_of_N b) s) "" l in
  ((fun b => (enc b, "'"%char)) <$> [[226; 128; 152]; [226; 128; 153]; [226; 128; 155]; [226; 128; 178]]%N) ++
  ((fun b => (enc b, "034"%char)) <$> [[239; 188; 130]; [227; 128; 131]; [203; 174]; [215; 178]; [225; 179; 147];
     [226; 128; 179]; [226; 128; 182]; [203; 182]; [202; 186]; [226; 128; 156]; [226; 128; 157]; [203; 157];
     [226; 128; 159]]%N) ++
  ((fun b => (enc b, "-"%char)) <$> [[226; 128; 144]; [226; 128; 147]; [226; 128; 148]; [226; 136; 146]; [226; 128; 149]]%N).

(** The replacer copies a byte or writes a replacement and skips the bytes it
    stands for. *)
Fixpoint replace_from (skip : nat) (s : string) : string :=
  match s with
  | EmptyString => EmptyString
  | String c rest =>
      match skip with
      | S skip => replace_from skip rest
      | O => match List.find (fun kv => HasPrefix s kv.1) utf8ToAscii with
             | Some (k, a) => String a (replace_from (String.length k - 1) rest)
             | None => String c (replace_from 0 rest)
             end
      end
  end.
Definition Clear (name : string) : string := replace_from 0 name.

Definition TrimPrefix (s pre : string) : string :=
  if HasPrefix s pre then str_drop (String.length pre) s else s.

Fixpoint RemoveArticle_loop (articles : list string) (name : string) : string :=
  match articles with
  | [] => name
  | a :: articles =>
      let n := TrimPrefix name (a +:+ " ") in
      if String.eqb n name then RemoveArticle_loop articles name else n
  end.

Section matcher.
Context `{MatcherEnv} `{MatcherStore}.

Definition RemoveArticle (name : string) : string := RemoveArticle_loop (SplitOn " " IgnoredArticles) name.

Definition SanitizeFieldForSorting (originalValue : string) : string :=
  let v := TrimSpace (Accents originalValue) in
  Clear (ToLower v).

Definition SanitizeFieldForSortingNoArticle (originalValue : string) : string :=
  let v := TrimSpace (Accents originalValue) in
  Clear (ToLower (TrimSpace (RemoveArticle v))).

Definition Equals (s other : Song) : bool := Hash s =? Hash other.

(** ** Exact phases *)

Definition indexed {A} (l : list A) : list (nat * A) := zip (seq 0 (length l)) l.

(** The keys a phase asks for: those of the songs not matched yet. *)
Definition wanted (key : Song -> string) (songs : list Song) (done : gmap nat MediaFile) : list string :=
  omap (fun '(i, s) => match done !! i with
                       | Some _ => None
                       | None => if String.eqb (key s) "" then None else Some (key s)
                       end) (indexed songs).

(** [result[i] = mf] for the songs whose key is in the table. *)
Definition fill (key : Song -> string) (by_key : gmap string MediaFile) (songs : list Song) (result : gmap nat MediaFile) : gmap nat MediaFile :=
  foldl (fun result '(i, s) =>
           match result !! i with
           | Some _ => result
           | None => if String.eqb (key s) "" then result
                     else match by_key !! key s with Some mf => <[i := mf]> result | None => result end
           end) result (indexed songs).

Definition put_first (k : string) (mf : MediaFile) (m : gmap string MediaFile) : gmap string MediaFile :=
  match m !! k with Some _ => m | None => <[k := mf]> m end.

Definition ids_of (songs : list Song) : list string := filter (fun id => id <> "") (s_ID <$> songs).
Definition fill_ids (byID : gmap string MediaFile) (songs : list Song) (result : gmap nat MediaFile) : gmap nat MediaFile :=
  foldl (fun result '(i, s) =>
           if String.eqb (s_ID s) "" then result
           else match byID !! s_ID s with Some mf => <[i := mf]> result | None => result end) result (indexed songs).

Definition matchByID (songs : list Song) (result : gmap nat MediaFile) : Prelude.result string (gmap nat MediaFile) :=
  let ids := ids_of songs in
  match ids with
  | [] => Ok result
  | _ =>
      match MediaFileGetAll (FilterID ids) with
      | Err e => Err e
      | Ok res =>
          let byID := foldl (fun m mf => <[mf_ID mf := mf]> m) ∅ res in
          Ok (fill_ids byID songs result)
      end
  end.

Definition matchByMBID (songs : list Song) (result : gmap nat MediaFile) : Prelude.result string (gmap nat MediaFile) :=
  let mbids := wanted s_MBID songs result in
  match mbids with
  | [] => Ok result
  | _ =>
      match MediaFileGetAll (FilterMBID mbids) with
      | Err e => Err e
      | Ok res =>
          let byMBID := foldl (fun m mf => if String.eqb (mf_MbzRecordingID mf) "" then m
                                           else put_first (mf_MbzRecordingID mf) mf m) ∅ res in
          Ok (fill s_MBID byMBID songs result)
      end
  end.

Definition matchByISRC (songs : list Song) (result : gmap nat MediaFile) : Prelude.result string (gmap nat MediaFile) :=
  let isrcs := wanted s_ISRC songs result in
  match isrcs with
  | [] => Ok result
  | _ =>
      match MediaFileGetAll (FilterISRC isrcs) with
      | Err e => Err e
      | Ok res =>
          let byISRC := foldl (fun m mf => foldl (fun m isrc => put_first isrc mf m) m (mf_ISRCs mf)) ∅ res in
          Ok (fill s_ISRC byISRC songs result)
      end
  end.

(** ** Scores *)

Record queryArtist := mkQA { qa_id : string; qa_name : string; qa_mbid : string }.
Record songQuery := mkQuery {
  q_title : string; q_artists : list queryArtist; q_album : string; q_albumMBID : string; q_durationMs : Z }.

Record matchScore := mkScore {
  titleSimilarity : spec_float; durationProximity_ : spec_float; preferredMatch : bool;
  specificityLevel : Z; artistOverlap : Z; albumSimilarity : spec_float }.

(** [a != b] of floats. *)
Definition float_ne (a b : spec_float) : bool := negb (SFeqb a b).

Definition betterThan (s other : matchScore) : bool :=
  if float_ne (titleSimilarity s) (titleSimilarity other) then SFltb (titleSimilarity other) (titleSimilarity s)
  else if float_ne (durationProximity_ s) (durationProximity_ other)
       then SFltb (durationProximity_ other) (durationProximity_ s)
  else if negb (specificityLevel s =? specificityLevel other) then specificityLevel s >? specificityLevel other
  else if negb (artistOverlap s =? artistOverlap other) then artistOverlap s >? artistOverlap other
  else if negb (Bool.eqb (preferredMatch s) (preferredMatch other)) then preferredMatch s
  else SFltb (albumSimilarity other) (albumSimilarity s).

Record sanitizedTrack := mkTrack {
  t_mf : MediaFile; t_title : string; t_artist : string; t_album : string;
  t_artistIDs : gset string; t_artistMBIDs : gset string }.

Definition newSanitizedTrack (mf : MediaFile) (artistIDs artistMBIDs : gset string) : sanitizedTrack :=
  mkTrack mf (SanitizeFieldForSorting (mf_Title mf)) (SanitizeFieldForSortingNoArticle (mf_Artist mf))
    (SanitizeFieldForSorting (mf_Album mf)) artistIDs artistMBIDs.

Definition float_one : spec_float := float64_of_int 1.

Definition similarityRatio (a b : string) : spec_float :=
  if String.eqb a b then float_one
  else if String.eqb a "" || String.eqb b "" then float64_of_int 0
  else JaroWinkler a b.

(** The level one of the query's artists gives. *)
Definition artistLevel (q : songQuery) (t : sanitizedTrack) (albumOK : bool) (a : queryArtist) : Z :=
  let nonempty s := negb (String.eqb s "") in
  let identity := (nonempty (qa_id a) && bool_decide (qa_id a ∈ t_artistIDs t)) ||
                  (nonempty (qa_mbid a) && bool_decide (qa_mbid a ∈ t_artistMBIDs t)) in
  if identity && nonempty (q_albumMBID q) && String.eqb (mf_MbzAlbumID (t_mf t)) (q_albumMBID q) then 5
  else if identity && nonempty (q_album q) && albumOK then 4
  else if nonempty (qa_name a) && nonempty (q_album q) && String.eqb (t_artist t) (qa_name a) && albumOK then 3
  else if identity then 2
  else if nonempty (qa_name a) && String.eqb (t_artist t) (qa_name a) then 1
  else 0.

Definition computeSpecificityLevel (q : songQuery) (t : sanitizedTrack) (albumThreshold : spec_float) : Z :=
  let albumOK := negb (String.eqb (q_album q) "") && SFleb albumThreshold (similarityRatio (t_album t) (q_album q)) in
  foldl (fun best a => let level := artistLevel q t albumOK a in if level >? best then level else best) 0 (q_artists q).

Definition durationProximity (durationMs : Z) (mediaFileDurationSec : float32) : spec_float :=
  if durationMs =? 0 then float_one
  else let durationSec := div64 (float64_of_int durationMs) (float64_of_int 1000) in
       let diff := SFabs (SFsub 53 1024 durationSec (of_bits32 mediaFileDurationSec)) in
       div64 float_one (SFadd 53 1024 float_one diff).

Definition isPreferredTrack (mf : MediaFile) : bool := mf_Starred mf || (mf_Rating mf >=? 4).

(** ** Title phase *)

Record indexedQuery := mkIQ { iq_index : nat; iq_query : songQuery }.

Definition queryArtists (artists : list Artist) : list queryArtist :=
  omap (fun a => let name := SanitizeFieldForSortingNoArticle (ar_Name a) in
                 if String.eqb (ar_ID a) "" && String.eqb name "" && String.eqb (ar_MBID a) "" then None
                 else Some (mkQA (ar_ID a) name (ar_MBID a))) artists.

Definition query_of (s : Song) : songQuery :=
  mkQuery (SanitizeFieldForSorting (s_Name s)) (queryArtists (s_Artists s)) (SanitizeFieldForSorting (s_Album s))
    (s_AlbumMBID s) (s_Duration s).

Definition groupQueries (songs : list Song) (result : gmap nat MediaFile) : list indexedQuery :=
  omap (fun '(i, s) => match result !! i with
                       | Some _ => None
                       | None => match queryArtists (s_Artists s) with
                                 | [] => None
                                 | _ => Some (mkIQ i (query_of s))
                                 end
                       end) (indexed songs).

Record resolvedArtists := mkResolved {
  ra_byQuery : gmap nat (gset string); ra_mbid : gmap string string; ra_allIDs : list string }.

Definition addToSet (m : gmap nat (gset string)) (k : nat) (v : string) : gmap nat (gset string) :=
  <[k := {[v]} ∪ default ∅ (m !! k)]> m.

(** The artists of all queries, each with the query that owns it. *)
Definition owned_artists (queries : list indexedQuery) : list (nat * queryArtist) :=
  concat ((fun iq => (fun a => (iq_index iq, a)) <$> q_artists (iq_query iq)) <$> queries).

Definition appendTo (k : string) (i : nat) (m : gmap string (list nat)) : gmap string (list nat) :=
  <[k := default [] (m !! k) ++ [i]]> m.

(** The artists that carry an id are owned directly. *)
Definition fastPath (queries : list indexedQuery) : gmap nat (gset string) * gset string :=
  foldl (fun '(byQuery, allIDs) '(i, a) =>
           if String.eqb (qa_id a) "" then (byQuery, allIDs)
           else (addToSet byQuery i (qa_id a), {[qa_id a]} ∪ allIDs)) (∅, ∅) (owned_artists queries).

Definition pendingArtists (queries : list indexedQuery) : list (nat * queryArtist) :=
  filter (fun '(i, a) => qa_id a = "") (owned_artists queries).

Definition toQueries (key : queryArtist -> string) (pending : list (nat * queryArtist)) : gmap string (list nat) :=
  foldl (fun m '(i, a) => if String.eqb (key a) "" then m else appendTo (key a) i m) ∅ pending.

(** One row of the artist table: its MBID, and the queries it answers. *)
Definition addRow (nameToQueries mbidToQueries : gmap string (list nat))
  (st : gmap nat (gset string) * gmap string string * gset string) (a : ArtistRow) :=
  let '(byQuery, mbid, allIDs) := st in
  let own := foldl (fun m idx => addToSet m idx (a_ID a)) in
  let byQuery := own byQuery (default [] (nameToQueries !! a_OrderArtistName a)) in
  let byQuery := if String.eqb (a_MbzArtistID a) "" then byQuery
                 else own byQuery (default [] (mbidToQueries !! a_MbzArtistID a)) in
  (byQuery, <[a_ID a := a_MbzArtistID a]> mbid, {[a_ID a]} ∪ allIDs).

Definition resolveArtists (queries : list indexedQuery) : Prelude.result string resolvedArtists :=
  let '(byQuery, allIDs) := fastPath queries in
  let pending := pendingArtists queries in
  let nameToQueries := toQueries qa_name pending in
  let mbidToQueries := toQueries qa_mbid pending in
  let names := (map_to_list nameToQueries).*1 in
  let mbids := (map_to_list mbidToQueries).*1 in
  match names, mbids, elements allIDs with
  | [], [], [] => Ok (mkResolved byQuery ∅ [])
  | _, _, _ =>
      match ArtistGetAll (mkAF names mbids (elements allIDs)) with
      | Err e => Err e
      | Ok artists =>
          let '(byQuery, mbid, allIDs) := foldl (addRow nameToQueries mbidToQueries) (byQuery, ∅, allIDs) artists in
          Ok (mkResolved byQuery mbid (elements allIDs))
      end
  end.

(** [scoredTrack] and [queryAccum]. *)
Record scoredTrack := mkScored { sc_track : sanitizedTrack; sc_overlap : Z }.
Record queryAccum := mkAccum { qa_overlap : Z; qa_ids : gset string; qa_mbids : gset string }.

Definition queriesByArtist (r : resolvedArtists) : gmap string (list nat) :=
  foldl (fun m '(idx, ids) => foldl (fun m id => appendTo id idx m) m (elements ids)) ∅ (map_to_list (ra_byQuery r)).

Definition creditTo (id mbid : string) (acc : gmap nat queryAccum) (idx : nat) : gmap nat queryAccum :=
  let a := default (mkAccum 0 ∅ ∅) (acc !! idx) in
  <[idx := mkAccum (qa_overlap a + 1) ({[id]} ∪ qa_ids a) (if String.eqb mbid "" then qa_mbids a else {[mbid]} ∪ qa_mbids a)]> acc.

(** One participant of a track. *)
Definition creditStep (r : resolvedArtists) (owners : gmap string (list nat))
  (st : gmap nat queryAccum * gset string) (id : string) : gmap nat queryAccum * gset string :=
  let '(acc, credited) := st in
  if bool_decide (id ∈ credited) then (acc, credited)
  else match owners !! id with
       | None => (acc, credited)
       | Some qs => (foldl (creditTo id (default "" (ra_mbid r !! id))) acc qs, {[id]} ∪ credited)
       end.

Definition accumulate (r : resolvedArtists) (owners : gmap string (list nat)) (mf : MediaFile) : gmap nat queryAccum :=
  fst (foldl (creditStep r owners) (∅, ∅) (mf_ArtistIDs mf)).

Definition bucketTracks (r : resolvedArtists) (tracks : list MediaFile) : gmap nat (list scoredTrack) :=
  let owners := queriesByArtist r in
  foldl (fun byQuery mf =>
           foldl (fun byQuery '(idx, a) =>
                    <[idx := default [] (byQuery !! idx) ++
                             [mkScored (newSanitizedTrack mf (qa_ids a) (qa_mbids a)) (qa_overlap a)]]> byQuery)
             byQuery (map_to_list (accumulate r owners mf))) ∅ tracks.

Definition fetchTracksCreditedTo (artistIDs : list string) : Prelude.result string (list MediaFile) :=
  match artistIDs with [] => Ok [] | _ => MediaFileGetAll (FilterCredited artistIDs) end.

Definition score (q : songQuery) (c : scoredTrack) (threshold : spec_float) : matchScore :=
  let t := sc_track c in
  let albumSim := if String.eqb (q_album q) "" then float64_of_int 0 else similarityRatio (q_album q) (t_album t) in
  mkScore (similarityRatio (q_title q) (t_title t)) (durationProximity (q_durationMs q) (mf_Duration (t_mf t)))
    (PreferStarred && isPreferredTrack (t_mf t)) (computeSpecificityLevel q t threshold) (sc_overlap c) albumSim.

Definition zeroScore : matchScore :=
  mkScore (float64_of_int (-1)) (float64_of_int 0) false 0 0 (float64_of_int 0).

Definition bestStep (q : songQuery) (threshold : spec_float) (st : option MediaFile * matchScore) (c : scoredTrack) :=
  let '(bestMatch, bestScore) := st in
  if SFltb (similarityRatio (q_title q) (t_title (sc_track c))) threshold then st
  else let sc := score q c threshold in
       if betterThan sc bestScore then (Some (t_mf (sc_track c)), sc) else st.

Definition findBestMatch (q : songQuery) (candidates : list scoredTrack) (threshold : spec_float) : option MediaFile :=
  fst (foldl (bestStep q threshold) (None, zeroScore) candidates).

Definition threshold : spec_float := div64 (float64_of_int FuzzyThreshold) (float64_of_int 100).

(** The matches found before an error are kept by the caller. *)
Definition matchByTitle (songs : list Song) (result : gmap nat MediaFile) : Prelude.result string (gmap nat MediaFile) :=
  let queries := groupQueries songs result in
  match queries with
  | [] => Ok result
  | _ =>
      match resolveArtists queries with
      | Err e => Err e
      | Ok resolved =>
          match ra_allIDs resolved with
          | [] => Ok result
          | _ =>
              match fetchTracksCreditedTo (ra_allIDs resolved) with
              | Err e => Err e
              | Ok tracks =>
                  let tracksByQuery := bucketTracks resolved tracks in
                  Ok (foldl (fun result iq =>
                               match findBestMatch (iq_query iq) (default [] (tracksByQuery !! iq_index iq)) threshold with
                               | Some mf => <[iq_index iq := mf]> result
                               | None => result
                               end) result queries)
              end
          end
      end
  end.

(** ** Whole matching *)

Definition resolveMatches (songs : list Song) : Prelude.result string (gmap nat MediaFile) :=
  try result := matchByID songs ∅ in
  try result := matchByMBID songs result in
  try result := matchByISRC songs result in
  match matchByTitle songs result with
  | Ok result => Ok result
  | Err e => if bool_decide (size result = 0%nat) then Err e else Ok result
  end.

Fixpoint orderAndDedup_loop (songs : list Song) (matches : gmap nat MediaFile) (count : Z) (rest : list (nat * Song))
  (addedBy : gmap string nat) (mfs : list MediaFile) : list MediaFile :=
  match rest with
  | [] => mfs
  | (i, s) :: rest =>
      if Z.of_nat (length mfs) =? count then mfs
      else match matches !! i with
           | None => orderAndDedup_loop songs matches count rest addedBy mfs
           | Some mf =>
               match addedBy !! mf_ID mf with
               | Some prevIdx =>
                   match songs !! prevIdx with
                   | Some prev => if Equals s prev then orderAndDedup_loop songs matches count rest addedBy (mfs ++ [mf])
                                  else orderAndDedup_loop songs matches count rest addedBy mfs
                   | None => orderAndDedup_loop songs matches count rest addedBy mfs
                   end
               | None => orderAndDedup_loop songs matches count rest (<[mf_ID mf := i]> addedBy) (mfs ++ [mf])
               end
           end
  end.
Definition orderAndDedup (songs : list Song) (matches : gmap nat MediaFile) (count : Z) : list MediaFile :=
  orderAndDedup_loop songs matches count (indexed songs) ∅ [].

Definition MatchSongs (songs : list Song) (count : Z) : Prelude.result string (list MediaFile) :=
  match songs with
  | [] => Ok []
  | _ => try matches := resolveMatches songs in Ok (orderAndDedup songs matches count)
  end.

Definition MatchSongsIndexed (songs : list Song) : Prelude.result string (gmap nat MediaFile) :=
  match songs with [] => Ok ∅ | _ => resolveMatches songs end.

End matcher.
