(* ===== verification/MatcherFacts.v ===== *)
(** * What the matcher guarantees

    The batched four-phase resolution agrees with a direct description of each
    song's match, and the ordered list with a direct description of which matches
    are repeated. *)

From stdpp Require Import sorting.
From Stdlib Require Import Floats.SpecFloat.
From S2P Require Import Prelude GoStrings GoText Model GoFloat FloatFacts Matcher.

Local Open Scope Z_scope.
Local Open Scope go_scope.

(** ** Scores are totally ordered *)

Definition score_clean (s : matchScore) : Prop :=
  is_nan (titleSimilarity s) = false /\ is_nan (durationProximity_ s) = false /\ is_nan (albumSimilarity s) = false.

Definition skey (s : matchScore) : list Z :=
  fkey (titleSimilarity s) ++ fkey (durationProximity_ s) ++
  [specificityLevel s] ++ [artistOverlap s] ++ [Z.b2z (preferredMatch s)] ++ fkey (albumSimilarity s).

Lemma lexb_one x y : lexb [x] [y] = (x <? y).
Proof. cbn. by rewrite andb_false_r, orb_false_r. Qed.

Lemma betterThan_key s o : score_clean s -> score_clean o -> betterThan s o = lexb (skey o) (skey s).
Proof.
  intros (Ht & Hd & Ha) (Ht' & Hd' & Ha'). unfold betterThan, float_ne, skey.
  rewrite !SFeqb_fkey, !SFltb_fkey by done.
  rewrite !lexb_app by (by rewrite ?fkey_length). rewrite !lexb_one.
  rewrite (bool_decide_ext (fkey (titleSimilarity s) = _) (fkey (titleSimilarity o) = fkey (titleSimilarity s))) by done.
  rewrite (bool_decide_ext (fkey (durationProximity_ s) = _) (fkey (durationProximity_ o) = fkey (durationProximity_ s))) by done.
  destruct (bool_decide (fkey (titleSimilarity o) = _)); cbn [negb]; [|done].
  destruct (bool_decide (fkey (durationProximity_ o) = _)); cbn [negb]; [|done].
  destruct (Z.eqb_spec (specificityLevel s) (specificityLevel o)) as [->|Hne]; cbn [negb].
  2:{ rewrite bool_decide_eq_false_2 by congruence. apply Z.gtb_ltb. }
  rewrite bool_decide_eq_true_2 by done. destruct (Z.eqb_spec (artistOverlap s) (artistOverlap o)) as [->|Hne]; cbn [negb].
  2:{ rewrite bool_decide_eq_false_2 by congruence. apply Z.gtb_ltb. }
  rewrite bool_decide_eq_true_2 by done. by destruct (preferredMatch s), (preferredMatch o).
Qed.

Lemma betterThan_trans a b c :
  score_clean a -> score_clean b -> score_clean c ->
  betterThan a b = true -> betterThan b c = true -> betterThan a c = true.
Proof. intros Ha Hb Hc. rewrite !betterThan_key by done. intros H1 H2. by eapply lexb_trans. Qed.

Lemma betterThan_irrefl a : score_clean a -> betterThan a a = false.
Proof. intros Ha. rewrite betterThan_key by done. apply lexb_irrefl. Qed.

(** A track's duration is a number. *)
Definition finite_duration (mf : MediaFile) : bool :=
  match of_bits32 (mf_Duration mf) with S754_zero _ | S754_finite _ _ _ => true | _ => false end.

Lemma durationProximity_not_nan ms mf : finite_duration mf = true -> is_nan (durationProximity ms (mf_Duration mf)) = false.
Proof.
  unfold finite_duration, durationProximity. intros Hf. destruct (ms =? 0); [done|].
  assert (is_nan (div64 (float64_of_int ms) (float64_of_int 1000)) = false) as Hs.
  { unfold div64. pose proof (normalize_not_nan 53 1024 ms 0 false) as Hn. fold (float64_of_int ms) in Hn.
    destruct (float64_of_int ms); try done. apply div_finite_not_nan. }
  revert Hs. generalize (div64 (float64_of_int ms) (float64_of_int 1000)). intros x Hx.
  assert (is_nan (SFsub 53 1024 x (of_bits32 (mf_Duration mf))) = false) as Hd.
  { destruct (of_bits32 _) as [s| | |s m e]; try done; destruct x as [s'|s'| |s' m' e']; try done;
      [by destruct s', s|]. apply normalize_not_nan. }
  revert Hd. generalize (SFsub 53 1024 x (of_bits32 (mf_Duration mf))). intros y Hy.
  assert (is_nan (SFadd 53 1024 float_one (SFabs y)) = false) as Ha.
  { destruct y; try done. apply normalize_not_nan. }
  revert Ha. generalize (SFadd 53 1024 float_one (SFabs y)). intros z Hz. destruct z; try done. apply div_finite_not_nan.
Qed.

(** ** What the database and the libraries promise *)

Definition available (files : list MediaFile) (mf : MediaFile) : Prop := mf ∈ files /\ mf_Missing mf = false.

Definition selects (f : FileFilter) (mf : MediaFile) : Prop :=
  match f with
  | FilterID ids => mf_ID mf ∈ ids
  | FilterMBID mbids => mf_MbzRecordingID mf ∈ mbids
  | FilterISRC isrcs => exists i, i ∈ mf_ISRCs mf /\ i ∈ isrcs
  | FilterCredited ids => exists a, a ∈ mf_ArtistIDs mf /\ a ∈ ids
  end.

(** A query that succeeds returns the rows of the tables that pass its filter;
    ids are keys of the tables, durations are numbers, and the string metric is
    between 0 and 1. *)
Class MatcherLaws `{MatcherEnv} `{MatcherStore} (files : list MediaFile) (artists : list ArtistRow) := {
  files_selected f l mf : MediaFileGetAll f = Ok l -> mf ∈ l <-> available files mf /\ selects f mf;
  artists_selected f l a :
    ArtistGetAll f = Ok l ->
    a ∈ l <-> a ∈ artists /\ (a_OrderArtistName a ∈ af_names f \/ a_MbzArtistID a ∈ af_mbids f \/ a_ID a ∈ af_ids f);
  file_key mf mf' : mf ∈ files -> mf' ∈ files -> mf_ID mf = mf_ID mf' -> mf = mf';
  artist_key a a' : a ∈ artists -> a' ∈ artists -> a_ID a = a_ID a' -> a = a';
  durations mf : mf ∈ files -> finite_duration mf = true;
  metric_range a b : SFleb (float64_of_int 0) (JaroWinkler a b) = true }.

(** ** Folding over keyed lists *)

(** A loop over pairs with distinct keys whose step touches only the key of the
    pair. *)
Section keyed.
Context {K A B : Type} `{Countable K} (g : gmap K B -> K * A -> gmap K B) (h : K -> A -> option B -> option B).
Hypothesis g_other : forall m k a k', k' <> k -> g m (k, a) !! k' = m !! k'.
Hypothesis g_own : forall m k a, g m (k, a) !! k = h k a (m !! k).

Lemma fold_other l m k : k ∉ l.*1 -> foldl g m l !! k = m !! k.
Proof.
  revert m. induction l as [|[k' a] l IH]; intros m Hk; cbn; [done|].
  apply not_elem_of_cons in Hk as [Hne Hk]. rewrite IH by done. by apply g_other.
Qed.

Lemma fold_own l m k a : NoDup l.*1 -> (k, a) ∈ l -> foldl g m l !! k = h k a (m !! k).
Proof.
  revert m. induction l as [|[k' a'] l IH]; intros m Hnd Hin; [by apply not_elem_of_nil in Hin|].
  cbn in Hnd. apply list.NoDup_cons in Hnd as [Hk' Hnd]. apply elem_of_cons in Hin as [[= <- <-]|Hin]; cbn [foldl].
  - rewrite fold_other by done. apply g_own.
  - rewrite IH by done. f_equal. apply g_other. intros ->. apply Hk'. apply list_elem_of_fmap. by exists (k', a).
Qed.
End keyed.

Lemma indexed_keys {A} (l : list A) : NoDup (indexed l).*1.
Proof.
  unfold indexed. rewrite fst_zip by (by rewrite length_seq). apply NoDup_seq.
Qed.

Lemma indexed_elem {A} (l : list A) i x : (i, x) ∈ indexed l <-> l !! i = Some x.
Proof. apply elem_indexed. Qed.

Lemma indexed_none {A} (l : list A) i : l !! i = None -> i ∉ (indexed l).*1.
Proof.
  intros Hn Hin. apply list_elem_of_fmap in Hin as ([j x] & -> & Hx). apply indexed_elem in Hx. cbn in Hn. congruence.
Qed.

(** ** The exact phases *)

Section phases.
Context `{MatcherLaws files artists} (songs : list Song).

Lemma fill_lookup key by_key m i s :
  songs !! i = Some s ->
  fill key by_key songs m !! i =
    match m !! i with Some mf => Some mf | None => if String.eqb (key s) "" then None else by_key !! key s end.
Proof.
  intros Hs. unfold fill.
  apply (fold_own _ (fun i s o => match o with Some mf => Some mf
                                  | None => if String.eqb (key s) "" then None else by_key !! key s end));
    [| |apply indexed_keys|by apply indexed_elem].
  - intros m' k a k' Hne. repeat (case_match; try done). by rewrite lookup_insert_ne.
  - intros m' k a. destruct (m' !! k) eqn:E; [done|]. destruct (String.eqb _ _); [done|].
    destruct (by_key !! key a); [by rewrite lookup_insert_eq|done].
Qed.

Lemma fill_none key by_key m i : songs !! i = None -> fill key by_key songs m !! i = m !! i.
Proof.
  intros Hs. unfold fill. apply fold_other; [|by apply indexed_none].
  intros m' k a k' Hne. repeat (case_match; try done). by rewrite lookup_insert_ne.
Qed.

(** A table of first occurrences. *)
Lemma put_first_lookup k mf m k' :
  put_first k mf m !! k' = match m !! k' with Some x => Some x | None => if bool_decide (k' = k) then Some mf else None end.
Proof.
  unfold put_first. case_bool_decide as Hk; subst.
  - destruct (m !! k) eqn:E; rewrite ?E; [done|]. by rewrite lookup_insert_eq.
  - destruct (m !! k) eqn:E; [by destruct (m !! k')|]. rewrite lookup_insert_ne by done. by destruct (m !! k').
Qed.

(** The keys under which a file is entered. *)
Definition table_ok (keys : MediaFile -> list string) (l : list MediaFile) (m : gmap string MediaFile) : Prop :=
  forall k, match m !! k with
            | Some mf => mf ∈ l /\ k ∈ keys mf
            | None => forall mf, mf ∈ l -> k ∉ keys mf
            end.

Lemma table_step keys l m mf m' :
  table_ok keys l m ->
  (forall k, m' !! k = match m !! k with Some x => Some x | None => if bool_decide (k ∈ keys mf) then Some mf else None end) ->
  table_ok keys (l ++ [mf]) m'.
Proof.
  intros Hm Hm' k. specialize (Hm k). rewrite Hm'. destruct (m !! k) as [x|].
  - destruct Hm. split; [|done]. apply elem_of_app. by left.
  - case_bool_decide.
    + split; [|done]. apply elem_of_app. right. by apply list_elem_of_singleton.
    + intros x [Hx|Hx%list_elem_of_singleton]%elem_of_app; [by apply Hm|by subst].
Qed.

Lemma table_fold keys f l :
  (forall m mf k, f m mf !! k = match m !! k with Some x => Some x | None => if bool_decide (k ∈ keys mf) then Some mf else None end) ->
  table_ok keys l (foldl f ∅ l).
Proof.
  intros Hf. induction l as [|mf l IH] using rev_ind.
  - intros k. cbn [foldl]. rewrite lookup_empty. by intros mf Hmf%not_elem_of_nil.
  - rewrite foldl_app. cbn. eapply table_step; [exact IH|]. intros k. apply Hf.
Qed.

Lemma put_all_lookup isrcs mf m k :
  foldl (fun m isrc => put_first isrc mf m) m isrcs !! k =
  match m !! k with Some x => Some x | None => if bool_decide (k ∈ isrcs) then Some mf else None end.
Proof.
  revert m. induction isrcs as [|i isrcs IH]; intros m; cbn; [by destruct (m !! k)|].
  rewrite IH, put_first_lookup. destruct (m !! k); [done|].
  repeat case_bool_decide; try done; try set_solver.
Qed.

(** [hit] relates a song to the files its key names. *)
Definition hit_key (key : Song -> string) (keys : MediaFile -> list string) (mf : MediaFile) (s : Song) : Prop :=
  key s <> "" /\ key s ∈ keys mf.

Definition phase_ok (hit : MediaFile -> Song -> Prop) (m m' : gmap nat MediaFile) : Prop :=
  (forall i, songs !! i = None -> m' !! i = m !! i) /\
  forall i s, songs !! i = Some s ->
    match m !! i with
    | Some mf => m' !! i = Some mf
    | None => match m' !! i with
              | Some mf => available files mf /\ hit mf s
              | None => forall mf, available files mf -> ~ hit mf s
              end
    end.

Lemma fill_phase key keys by_key (l : list MediaFile) m (Q : string -> Prop) :
  (forall mf, mf ∈ l <-> available files mf /\ exists k, k ∈ keys mf /\ Q k) ->
  (forall i s, songs !! i = Some s -> m !! i = None -> key s <> "" -> Q (key s)) ->
  (forall k, k <> "" -> match by_key !! k with Some mf => mf ∈ l /\ k ∈ keys mf | None => forall mf, mf ∈ l -> k ∉ keys mf end) ->
  phase_ok (hit_key key keys) m (fill key by_key songs m).
Proof.
  intros Hl HQ Ht. split; [intros i Hi; by apply fill_none|]. intros i s Hs. rewrite (fill_lookup _ _ _ _ s) by done.
  destruct (m !! i) eqn:E; [done|]. destruct (String.eqb_spec (key s) "") as [He|Hne]; [by intros mf _ [Hk _]|].
  specialize (Ht _ Hne). destruct (by_key !! key s) as [mf|].
  - destruct Ht as [Hin Hk]. apply Hl in Hin as [Ha _]. by split.
  - intros mf Ha [_ Hk]. refine (Ht mf _ Hk). apply Hl. split; [done|]. exists (key s). split; [done|]. by eapply HQ.
Qed.

Lemma elem_wanted key m k :
  k ∈ wanted key songs m <-> exists i s, songs !! i = Some s /\ m !! i = None /\ key s = k /\ k <> "".
Proof.
  unfold wanted. rewrite list_elem_of_omap. split.
  - intros ([i s] & Hin%indexed_elem & Hk). destruct (m !! i) eqn:E; [done|].
    destruct (String.eqb_spec (key s) ""); [done|]. simplify_eq. eauto 10.
  - intros (i & s & Hs & Hm & <- & Hne). exists (i, s). split; [by apply indexed_elem|]. rewrite Hm.
    by destruct (String.eqb_spec (key s) "").
Qed.

Lemma phase_nothing key keys m : wanted key songs m = [] -> phase_ok (hit_key key keys) m m.
Proof.
  intros Hw. split; [done|]. intros i s Hs. destruct (m !! i) eqn:E; [done|]. intros mf _ [Hk _].
  assert (key s ∈ wanted key songs m) as Hin by (apply elem_wanted; eauto 10). rewrite Hw in Hin. by apply not_elem_of_nil in Hin.
Qed.

Lemma mbid_table l :
  table_ok (fun mf => if String.eqb (mf_MbzRecordingID mf) "" then [] else [mf_MbzRecordingID mf]) l
    (foldl (fun m mf => if String.eqb (mf_MbzRecordingID mf) "" then m else put_first (mf_MbzRecordingID mf) mf m) ∅ l).
Proof.
  apply table_fold. intros m mf k. destruct (String.eqb (mf_MbzRecordingID mf) ""); [by destruct (m !! k)|].
  rewrite put_first_lookup. destruct (m !! k); [done|]. repeat case_bool_decide; set_solver.
Qed.

Lemma matchByMBID_ok m m' : matchByMBID songs m = Ok m' -> phase_ok (hit_key s_MBID (fun mf => [mf_MbzRecordingID mf])) m m'.
Proof.
  unfold matchByMBID. destruct (wanted s_MBID songs m) as [|k ks] eqn:Ew; [intros [= <-]; by apply phase_nothing|].
  rewrite <- Ew. destruct (MediaFileGetAll _) as [l|] eqn:El; [|done]. intros [= <-].
  apply (fill_phase _ _ _ l _ (fun k => k ∈ wanted s_MBID songs m)).
  - intros mf. rewrite (files_selected _ _ _ El). cbn. setoid_rewrite list_elem_of_singleton. naive_solver.
  - intros i s Hs Hm Hk. apply elem_wanted. eauto 10.
  - intros k0 Hk0. pose proof (mbid_table l k0) as Ht.
    destruct (_ !! k0) as [mf|].
    + destruct Ht as [Hin Hk1]. split; [done|]. destruct (String.eqb _ _); [by apply not_elem_of_nil in Hk1|done].
    + intros mf Hin Hk1. apply (Ht mf Hin). destruct (String.eqb_spec (mf_MbzRecordingID mf) ""); [|done].
      apply list_elem_of_singleton in Hk1. congruence.
Qed.

Lemma matchByISRC_ok m m' : matchByISRC songs m = Ok m' -> phase_ok (hit_key s_ISRC mf_ISRCs) m m'.
Proof.
  unfold matchByISRC. destruct (wanted s_ISRC songs m) as [|k ks] eqn:Ew; [intros [= <-]; by apply phase_nothing|].
  rewrite <- Ew. destruct (MediaFileGetAll _) as [l|] eqn:El; [|done]. intros [= <-].
  apply (fill_phase _ _ _ l _ (fun k => k ∈ wanted s_ISRC songs m)).
  - intros mf. by rewrite (files_selected _ _ _ El).
  - intros i s Hs Hm Hk. apply elem_wanted. eauto 10.
  - intros k0 _. apply (table_fold mf_ISRCs (fun m mf => foldl (fun m isrc => put_first isrc mf m) m (mf_ISRCs mf))).
    intros m0 mf k1. apply put_all_lookup.
Qed.

Lemma matchByID_ok m' : matchByID songs ∅ = Ok m' -> phase_ok (hit_key s_ID (fun mf => [mf_ID mf])) ∅ m'.
Proof.
  assert (forall k, k ∈ ids_of songs <-> exists i s, songs !! i = Some s /\ s_ID s = k /\ k <> "") as Hids.
  { intros k. unfold ids_of. rewrite list_elem_of_filter, list_elem_of_fmap. split.
    - intros [Hk (s & -> & Hs)]. apply list_elem_of_lookup in Hs as [i Hi]. eauto 10.
    - intros (i & s & Hs & <- & Hk). split; [done|]. exists s. split; [done|]. by eapply list_elem_of_lookup_2. }
  assert (forall by_key, phase_ok (hit_key s_ID (fun mf => [mf_ID mf])) ∅ (fill s_ID by_key songs ∅) ->
    phase_ok (hit_key s_ID (fun mf => [mf_ID mf])) ∅ (fill_ids by_key songs ∅)) as Hfill.
  { intros by_key [Hn Hs]. split.
    - intros i Hi. unfold fill_ids. apply fold_other; [|by apply indexed_none].
      intros m0 k a k' Hne. repeat (case_match; try done). by rewrite lookup_insert_ne.
    - intros i s Hi. specialize (Hs i s Hi). rewrite (fill_lookup _ _ _ _ s) in Hs by done. rewrite lookup_empty in *.
      pose proof (fold_own (fun (m : gmap nat MediaFile) '(i, s) => if String.eqb (s_ID s) "" then m
          else match by_key !! s_ID s with Some mf => <[i := mf]> m | None => m end)
        (fun i s o => if String.eqb (s_ID s) "" then o else match by_key !! s_ID s with Some mf => Some mf | None => o end)) as Hf.
      unfold fill_ids. rewrite Hf with (a := s); [| | |apply indexed_keys|by apply indexed_elem].
      + rewrite lookup_empty. destruct (String.eqb _ _); [done|].
        by destruct (by_key !! s_ID s).
      + intros m0 k a k' Hne. cbn. destruct (String.eqb (s_ID a) _); [done|]. destruct (by_key !! s_ID a); [by rewrite lookup_insert_ne|done].
      + intros m0 k a. cbn. destruct (String.eqb (s_ID a) _); [done|]. destruct (by_key !! s_ID a); [by rewrite lookup_insert_eq|done]. }
  unfold matchByID. destruct (ids_of songs) as [|k ks] eqn:Ei.
  { intros [= <-]. split; [done|]. intros i s Hs. rewrite lookup_empty. intros mf _ [Hk _].
    apply (not_elem_of_nil (s_ID s)), Hids. eauto. }
  rewrite <- Ei in Hids |- *. destruct (MediaFileGetAll _) as [l|] eqn:El; [|done]. intros [= <-]. apply Hfill.
  apply (fill_phase _ _ _ l _ (fun k => k ∈ ids_of songs)).
  - intros mf. rewrite (files_selected _ _ _ El). cbn. setoid_rewrite list_elem_of_singleton. naive_solver.
  - intros i s Hs _ Hk. apply Hids. eauto.
  - intros k0 _. assert (forall mf, mf ∈ l -> mf ∈ files) as Hl by (intros mf Hin; by apply (files_selected _ _ _ El) in Hin as [[] _]).
    clear -Hl H1. induction l as [|mf l IH] using rev_ind; cbn [foldl].
    { rewrite lookup_empty. by intros mf Hmf%not_elem_of_nil. }
    rewrite foldl_app. cbn [foldl]. specialize (IH ltac:(intros; apply Hl, elem_of_app; by left)).
    destruct (decide (k0 = mf_ID mf)) as [->|Hne].
    + rewrite lookup_insert_eq. set_solver.
    + rewrite lookup_insert_ne by done. destruct (_ !! k0) as [x|]; [set_solver|].
      intros x [Hx|Hx%list_elem_of_singleton]%elem_of_app; [by apply IH|]. subst. set_solver.
Qed.
End phases.

(** ** The artists of a song *)

Section direct.
Context (artists : list ArtistRow).

Definition answers (a : queryArtist) (row : ArtistRow) : Prop :=
  (qa_name a <> "" /\ a_OrderArtistName row = qa_name a) \/ (qa_mbid a <> "" /\ a_MbzArtistID row = qa_mbid a).
#[local] Instance answers_dec a row : Decision (answers a row).
Proof. unfold answers. apply _. Defined.

(** The ids an artist of a song stands for: its own, or those of the rows that
    have its name or MBID. *)
Definition resolve_one (a : queryArtist) : list string :=
  if String.eqb (qa_id a) "" then a_ID <$> filter (answers a) artists else [qa_id a].

Definition owners (q : songQuery) : gset string := list_to_set (concat (resolve_one <$> q_artists q)).

Definition mbid_of (id : string) : string :=
  default "" (a_MbzArtistID <$> List.find (fun a => String.eqb (a_ID a) id) artists).

(** The song's artists a track credits. *)
Definition credits (q : songQuery) (mf : MediaFile) : gset string := list_to_set (mf_ArtistIDs mf) ∩ owners q.

Definition candidate `{MatcherEnv} (q : songQuery) (mf : MediaFile) : scoredTrack :=
  let c := credits q mf in
  mkScored (newSanitizedTrack mf c (set_map mbid_of c ∖ {[""]})) (Z.of_nat (size c)).
End direct.

Lemma elem_addToSet m k v idx id :
  id ∈ default ∅ (addToSet m k v !! idx) <-> (idx = k /\ id = v) \/ id ∈ default ∅ (m !! idx).
Proof.
  unfold addToSet. destruct (decide (idx = k)) as [->|Hne].
  - rewrite lookup_insert_eq. cbn. set_solver.
  - rewrite lookup_insert_ne by done. set_solver.
Qed.

Lemma fastPath_spec (queries : list indexedQuery) :
  (forall idx id, id ∈ default ∅ (fst (fastPath queries) !! idx) <->
     exists a, (idx, a) ∈ owned_artists queries /\ qa_id a <> "" /\ id = qa_id a) /\
  (forall id, id ∈ snd (fastPath queries) <-> exists idx a, (idx, a) ∈ owned_artists queries /\ qa_id a <> "" /\ id = qa_id a).
Proof.
  unfold fastPath. generalize (owned_artists queries) as l. intros l. induction l as [|[i a] l IH] using rev_ind; cbn [foldl].
  { cbn. split; [intros idx id; rewrite lookup_empty; cbn|intros id]; set_solver. }
  rewrite foldl_app. cbn [foldl]. destruct (foldl _ _ l) as [byQuery allIDs]. cbn [fst snd] in IH. destruct IH as [IH1 IH2].
  setoid_rewrite elem_of_app. setoid_rewrite list_elem_of_singleton.
  destruct (String.eqb_spec (qa_id a) "") as [He|Hne]; cbn [fst snd].
  - split; [intros idx id; rewrite IH1|intros id; rewrite IH2]; naive_solver.
  - split.
    + intros idx id. rewrite elem_addToSet, IH1. naive_solver.
    + intros id. rewrite elem_of_union, elem_of_singleton, IH2. naive_solver.
Qed.

Lemma toQueries_spec key l k idx :
  idx ∈ default [] (toQueries key l !! k) <-> k <> "" /\ exists a, (idx, a) ∈ l /\ key a = k.
Proof.
  unfold toQueries. induction l as [|[i a] l IH] using rev_ind; cbn [foldl].
  { rewrite lookup_empty. cbn. set_solver. }
  rewrite foldl_app. cbn [foldl]. setoid_rewrite elem_of_app. setoid_rewrite list_elem_of_singleton.
  destruct (String.eqb_spec (key a) "") as [He|Hne]; [rewrite IH; naive_solver|].
  unfold appendTo. destruct (decide (k = key a)) as [->|Hk].
  - rewrite lookup_insert_eq. cbn. rewrite elem_of_app, list_elem_of_singleton, IH. naive_solver.
  - rewrite lookup_insert_ne by done. rewrite IH. naive_solver.
Qed.

(** A key of the table has a query. *)
Lemma toQueries_key key l k :
  k ∈ (map_to_list (toQueries key l)).*1 <-> k <> "" /\ exists idx a, (idx, a) ∈ l /\ key a = k.
Proof.
  assert (forall qs, toQueries key l !! k = Some qs -> qs <> []) as Hne.
  { unfold toQueries. induction l as [|[i a] l IH] using rev_ind; cbn [foldl]; [by rewrite lookup_empty|].
    rewrite foldl_app. cbn [foldl]. intros qs. destruct (String.eqb _ _); [apply IH|]. unfold appendTo.
    destruct (decide (k = key a)) as [->|Hk]; [rewrite lookup_insert_eq|rewrite lookup_insert_ne by done; apply IH].
    intros [= <-] Hnil. by apply app_eq_nil in Hnil as [_ ?]. }
  rewrite list_elem_of_fmap. split.
  - intros ([k' qs] & -> & Hin%elem_of_map_to_list). cbn [fst] in *. destruct qs as [|idx qs]; [by destruct (Hne _ Hin)|].
    destruct (proj1 (toQueries_spec key l k' idx)) as (Hk & a & Ha & Hka); [rewrite Hin; cbn; left|eauto 10].
  - intros (Hk & idx & a & Ha & Hka). pose proof (proj2 (toQueries_spec key l k idx)) as Hin.
    destruct (toQueries key l !! k) as [qs|] eqn:E.
    + exists (k, qs). split; [done|]. by apply elem_of_map_to_list.
    + cbn in Hin. exfalso. apply (not_elem_of_nil idx), Hin. eauto.
Qed.

Lemma own_fold id qs m idx x :
  x ∈ default ∅ (foldl (fun m idx => addToSet m idx id) m qs !! idx) <-> (idx ∈ qs /\ x = id) \/ x ∈ default ∅ (m !! idx).
Proof.
  revert m. induction qs as [|q qs IH]; intros m; cbn [foldl]; [set_solver|]. rewrite IH, elem_addToSet. set_solver.
Qed.

Lemma elem_snoc {A} (x y : A) l : x ∈ l ++ [y] <-> x ∈ l \/ x = y.
Proof. by rewrite elem_of_app, list_elem_of_singleton. Qed.

Lemma own_row (n2q m2q : gmap string (list nat)) a bq idx id :
  id ∈ default ∅ ((if String.eqb (a_MbzArtistID a) "" then
       foldl (fun m idx => addToSet m idx (a_ID a)) bq (default [] (n2q !! a_OrderArtistName a))
     else foldl (fun m idx => addToSet m idx (a_ID a))
       (foldl (fun m idx => addToSet m idx (a_ID a)) bq (default [] (n2q !! a_OrderArtistName a)))
       (default [] (m2q !! a_MbzArtistID a))) !! idx) <->
  (id = a_ID a /\ (idx ∈ default [] (n2q !! a_OrderArtistName a) \/
                   (a_MbzArtistID a <> "" /\ idx ∈ default [] (m2q !! a_MbzArtistID a)))) \/ id ∈ default ∅ (bq !! idx).
Proof.
  destruct (String.eqb_spec (a_MbzArtistID a) "") as [He|Hne]; rewrite !own_fold; tauto.
Qed.

Lemma addRows_spec n2q m2q l st byQuery' mbid' allIDs' :
  (forall a a', a ∈ l -> a' ∈ l -> a_ID a = a_ID a' -> a = a') -> st.1.2 = ∅ ->
  foldl (addRow n2q m2q) st l = (byQuery', mbid', allIDs') ->
  (forall idx id, id ∈ default ∅ (byQuery' !! idx) <-> id ∈ default ∅ (st.1.1 !! idx) \/
     exists a, a ∈ l /\ a_ID a = id /\ (idx ∈ default [] (n2q !! a_OrderArtistName a) \/
                                       (a_MbzArtistID a <> "" /\ idx ∈ default [] (m2q !! a_MbzArtistID a)))) /\
  (forall a, a ∈ l -> mbid' !! a_ID a = Some (a_MbzArtistID a)) /\
  (forall id, (forall a, a ∈ l -> a_ID a <> id) -> mbid' !! id = None) /\
  (forall id, id ∈ allIDs' <-> id ∈ st.2 \/ exists a, a ∈ l /\ a_ID a = id).
Proof.
  revert byQuery' mbid' allIDs'. induction l as [|a l IH] using rev_ind; intros byQuery' mbid' allIDs' Huniq Hst; cbn [foldl].
  { intros ->. cbn in *. subst. repeat split; intros; try done; try set_solver. }
  rewrite foldl_app. cbn [foldl]. destruct (foldl _ st l) as [[bq mb] ai] eqn:E.
  destruct (IH bq mb ai) as (I1 & I2 & I3 & I4); [intros; apply Huniq; rewrite ?elem_snoc; auto|done|done|].
  unfold addRow. intros [= <- <- <-]. split; [|split; [|split]].
  - intros idx id. etransitivity; [apply (own_row n2q m2q)|]. rewrite I1. split.
    + intros [[-> HP]|[H0|(x & Hx & Hid & HP)]]; [right; exists a; split; [apply elem_snoc; by right|done]|by left|].
      right. exists x. split; [apply elem_snoc; by left|done].
    + intros [H0|(x & [Hx|Hx%list_elem_of_singleton]%elem_of_app & Hid & HP)]; [by right; left|right; right; by exists x|].
      subst. by left.
  - intros x [Hx|Hx%list_elem_of_singleton]%elem_of_app; [|subst; by rewrite lookup_insert_eq].
    destruct (decide (a_ID x = a_ID a)) as [Heq|Hne]; [|rewrite lookup_insert_ne by done; by apply I2].
    assert (x = a) as -> by (apply Huniq; rewrite ?elem_snoc; auto). by rewrite lookup_insert_eq.
  - intros id Hid. rewrite lookup_insert_ne by (apply Hid, elem_snoc; by right).
    apply I3. intros x Hx. apply Hid, elem_snoc. by left.
  - intros id. rewrite elem_of_union, elem_of_singleton, I4. setoid_rewrite elem_snoc. split.
    + intros [->|[H0|(x & Hx & <-)]]; eauto.
    + intros [H0|(x & [Hx| ->] & <-)]; eauto.
Qed.

Lemma elem_resolve_one artists a id :
  id ∈ resolve_one artists a <->
  (qa_id a <> "" /\ id = qa_id a) \/ (qa_id a = "" /\ exists row, row ∈ artists /\ a_ID row = id /\ answers a row).
Proof.
  unfold resolve_one. destruct (String.eqb_spec (qa_id a) "") as [He|Hne].
  - rewrite list_elem_of_fmap. setoid_rewrite list_elem_of_filter. split.
    + intros (row & -> & Ha & Hr). right. eauto.
    + intros [[? _]|(_ & row & Hr & <- & Ha)]; [done|]. eauto.
  - rewrite list_elem_of_singleton. naive_solver.
Qed.

Lemma mbid_of_row artists row :
  (forall a a', a ∈ artists -> a' ∈ artists -> a_ID a = a_ID a' -> a = a') ->
  row ∈ artists -> mbid_of artists (a_ID row) = a_MbzArtistID row.
Proof.
  intros Hu Hr. unfold mbid_of. destruct (List.find _ artists) as [x|] eqn:E; cbn.
  - apply find_some in E as [Hx Heq]. apply String.eqb_eq in Heq. f_equal. apply Hu; [by apply list_elem_of_In|done|done].
  - pose proof (proj1 (list_find_none _ _) E row Hr) as Hn. cbn in Hn. by rewrite String.eqb_refl in Hn.
Qed.

Lemma mbid_of_none artists id : (forall row, row ∈ artists -> a_ID row <> id) -> mbid_of artists id = "".
Proof.
  intros Hn. unfold mbid_of. destruct (List.find _ artists) as [x|] eqn:E; [|done].
  apply find_some in E as [Hx Heq]. apply String.eqb_eq in Heq. by destruct (Hn x); [apply list_elem_of_In|].
Qed.

Section title.
Context `{MatcherLaws files artists}.

Definition resolved_ok (queries : list indexedQuery) (r : resolvedArtists) : Prop :=
  (forall idx id, id ∈ default ∅ (ra_byQuery r !! idx) <->
     exists a, (idx, a) ∈ owned_artists queries /\ id ∈ resolve_one artists a) /\
  (forall idx id, id ∈ default ∅ (ra_byQuery r !! idx) ->
     default "" (ra_mbid r !! id) = mbid_of artists id /\ id ∈ ra_allIDs r).

(** The rows the query for the artists returns are those that answer some artist
    or have the id of one. *)
Lemma rows_answer queries l :
  ArtistGetAll (mkAF (map_to_list (toQueries qa_name (pendingArtists queries))).*1
    (map_to_list (toQueries qa_mbid (pendingArtists queries))).*1 (elements (fastPath queries).2)) = Ok l ->
  (forall idx a row, (idx, a) ∈ owned_artists queries -> qa_id a = "" -> row ∈ artists -> answers a row -> row ∈ l) /\
  (forall idx a row, (idx, a) ∈ owned_artists queries -> qa_id a <> "" -> row ∈ artists -> a_ID row = qa_id a -> row ∈ l).
Proof.
  intros El. split; intros idx a row Ha Hid Hr Hans; apply (artists_selected _ _ _ El); (split; [done|]); cbn.
  - assert ((idx, a) ∈ pendingArtists queries) as Hp by (apply list_elem_of_filter; done).
    destruct Hans as [[Hn Heq]|[Hn Heq]]; [left|right; left]; rewrite Heq; apply toQueries_key; eauto.
  - right. right. apply elem_of_elements, fastPath_spec. eauto 10.
Qed.

Lemma resolve_answers queries idx row :
  idx ∈ default [] (toQueries qa_name (pendingArtists queries) !! a_OrderArtistName row) \/
  (a_MbzArtistID row <> "" /\ idx ∈ default [] (toQueries qa_mbid (pendingArtists queries) !! a_MbzArtistID row)) <->
  exists a, (idx, a) ∈ owned_artists queries /\ qa_id a = "" /\ answers a row.
Proof.
  rewrite !toQueries_spec. unfold pendingArtists. setoid_rewrite list_elem_of_filter. split.
  - intros [(Hn & a & [Hid Ha] & Heq)|(_ & Hn & a & [Hid Ha] & Heq)]; exists a; (split; [done|]; split; [done|]);
      [left|right]; by rewrite Heq.
  - intros (a & Ha & Hid & [[Hn Heq]|[Hn Heq]]); [left|right; split; [by rewrite Heq|]]; rewrite Heq; eauto.
Qed.

Local Abbreviation names queries := (map_to_list (toQueries qa_name (pendingArtists queries))).*1.
Local Abbreviation mbids queries := (map_to_list (toQueries qa_mbid (pendingArtists queries))).*1.

(** Either there is nothing to look up, or one query returns the rows. *)
Lemma resolveArtists_cases queries r :
  resolveArtists queries = Ok r ->
  (names queries = [] /\ mbids queries = [] /\ elements (fastPath queries).2 = [] /\ r = mkResolved (fastPath queries).1 ∅ []) \/
  exists l byQuery mbid allIDs,
    ArtistGetAll (mkAF (names queries) (mbids queries) (elements (fastPath queries).2)) = Ok l /\
    foldl (addRow (toQueries qa_name (pendingArtists queries)) (toQueries qa_mbid (pendingArtists queries)))
      ((fastPath queries).1, ∅, (fastPath queries).2) l = (byQuery, mbid, allIDs) /\
    r = mkResolved byQuery mbid (elements allIDs).
Proof.
  unfold resolveArtists. destruct (fastPath queries) as [bq ids]. cbn [fst snd].
  generalize (names queries) (mbids queries) (elements ids). intros ns ms is'.
  assert (forall x, match ArtistGetAll (mkAF ns ms is') with
    | Err e => Err e
    | Ok l => let '(byQuery, mbid, allIDs) := foldl (addRow (toQueries qa_name (pendingArtists queries))
                (toQueries qa_mbid (pendingArtists queries))) (bq, ∅, ids) l in
              Ok (mkResolved byQuery mbid (elements allIDs)) end = Ok (E := string) x ->
    exists l byQuery mbid allIDs, ArtistGetAll (mkAF ns ms is') = Ok l /\
      foldl (addRow (toQueries qa_name (pendingArtists queries)) (toQueries qa_mbid (pendingArtists queries)))
        (bq, ∅, ids) l = (byQuery, mbid, allIDs) /\ x = mkResolved byQuery mbid (elements allIDs)) as Hq.
  { intros x. destruct (ArtistGetAll _) as [l|]; [|done]. destruct (foldl _ _ l) as [[b m] i] eqn:E.
    intros [= <-]. by exists l, b, m, i. }
  destruct ns, ms, is'; try (by right; apply Hq). intros [= <-]. by left.
Qed.

Lemma resolve_nothing queries idx a id :
  names queries = [] -> mbids queries = [] -> elements (fastPath queries).2 = [] ->
  (idx, a) ∈ owned_artists queries -> id ∉ resolve_one artists a.
Proof.
  intros En Em Ei Ha [[Hid ->]|(Hid & row & _ & _ & Hans)]%elem_resolve_one.
  - apply (not_elem_of_nil (qa_id a)). rewrite <- Ei. apply elem_of_elements, fastPath_spec. eauto 10.
  - assert ((idx, a) ∈ pendingArtists queries) as Hp by (apply list_elem_of_filter; done).
    destruct Hans as [[Hn _]|[Hn _]].
    + apply (not_elem_of_nil (qa_name a)). rewrite <- En. apply toQueries_key. eauto.
    + apply (not_elem_of_nil (qa_mbid a)). rewrite <- Em. apply toQueries_key. eauto.
Qed.

Lemma resolveArtists_ok queries r : resolveArtists queries = Ok r -> resolved_ok queries r.
Proof.
  destruct (fastPath_spec queries) as [F1 F2].
  intros [(En & Em & Ei & ->)|(l & bq & mb & ids & El & Ed & ->)]%resolveArtists_cases.
  { assert (forall idx id, id ∉ default ∅ ((fastPath queries).1 !! idx)) as Hno.
    { intros idx id (a & Ha & Hid & ->)%F1. apply (resolve_nothing queries idx a (qa_id a) En Em Ei Ha), elem_resolve_one. by left. }
    split; cbn; intros idx id; [|by intros ?%Hno]. split; [by intros ?%Hno|].
    intros (a & Ha & Hid). by apply (resolve_nothing queries idx a id En Em Ei Ha) in Hid. }
  destruct (rows_answer queries l El) as [R1 R2].
  assert (forall row, row ∈ l -> row ∈ artists) as Hl by (intros row Hr; by apply (artists_selected _ _ _ El) in Hr as []).
  apply addRows_spec in Ed as (D1 & D2 & D3 & D4); [|intros a a' Ha Ha'; apply artist_key; auto|done]. cbn [fst snd] in *.
  assert (forall idx id, id ∈ default ∅ (bq !! idx) <-> exists a, (idx, a) ∈ owned_artists queries /\ id ∈ resolve_one artists a) as Hmain.
  { intros idx id. rewrite D1, F1. setoid_rewrite resolve_answers. setoid_rewrite elem_resolve_one. split.
    - intros [(a & Ha & Hid & ->)|(row & Hr & <- & a & Ha & Hid & Hans)]; exists a; (split; [done|]); [by left|].
      right. split; [done|]. exists row. auto.
    - intros (a & Ha & [[Hid ->]|(Hid & row & Hr & <- & Hans)]); [left; by exists a|]. right. exists row.
      split; [by eapply R1|]. split; [done|]. by exists a. }
  split; [exact Hmain|]. cbn. intros idx id Hid. destruct (proj1 (Hmain idx id) Hid) as (a & Ha & Hres). split.
  - destruct (decide (Exists (fun row => a_ID row = id) artists)) as [Hex|Hno].
    + apply Exists_exists in Hex as (row & Hr & <-). rewrite <- ?list_elem_of_In in Hr. rewrite (mbid_of_row artists row artist_key Hr).
      rewrite (D2 row); [done|]. apply elem_resolve_one in Hres as [[Hn Heq]|(Hn & row' & Hr' & Heq & Hans)]; [by eapply R2|].
      assert (row' = row) as -> by (by apply artist_key). by eapply R1.
    + rewrite mbid_of_none; [rewrite D3; [done|]|]; intros row Hr Heq; apply Hno, Exists_exists; exists row;
        rewrite <- ?list_elem_of_In; auto.
  - apply elem_of_elements, D4. apply D1 in Hid as [Hid|(row & Hr & Heq & _)]; [|right; by exists row].
    left. apply F2. apply F1 in Hid as (x & Hx). by exists idx, x.
Qed.
End title.

(** ** Candidate tracks *)

Lemma append_fold idx (l : list string) m id :
  NoDup l ->
  default [] (foldl (fun m id => appendTo id idx m) m l !! id) =
  default [] (m !! id) ++ (if bool_decide (id ∈ l) then [idx] else []).
Proof.
  revert m. induction l as [|x l IH]; intros m Hnd; cbn [foldl].
  { rewrite bool_decide_eq_false_2 by apply not_elem_of_nil. by rewrite app_nil_r. }
  apply list.NoDup_cons in Hnd as [Hx Hnd]. rewrite IH by done. unfold appendTo. destruct (decide (id = x)) as [->|Hne].
  - rewrite lookup_insert_eq, (bool_decide_eq_false_2 (x ∈ l)), bool_decide_eq_true_2 by (done || left). cbn. by rewrite app_nil_r.
  - rewrite lookup_insert_ne by done.
    by rewrite (bool_decide_ext (id ∈ x :: l) (id ∈ l)) by (rewrite elem_of_cons; naive_solver).
Qed.

Lemma queriesByArtist_spec r id :
  NoDup (default [] (queriesByArtist r !! id)) /\
  forall idx, idx ∈ default [] (queriesByArtist r !! id) <-> id ∈ default ∅ (ra_byQuery r !! idx).
Proof.
  set (pick := fun x : nat * gset string => if bool_decide (id ∈ x.2) then Some x.1 else None).
  assert (default [] (queriesByArtist r !! id) = omap pick (map_to_list (ra_byQuery r))) as ->.
  { unfold queriesByArtist. generalize (map_to_list (ra_byQuery r)) as l. intros l.
    induction l as [|[idx ids] l IH] using rev_ind; cbn [foldl]; [by rewrite lookup_empty|].
    rewrite foldl_app. cbn [foldl]. rewrite append_fold by apply NoDup_elements. rewrite IH, omap_app. f_equal. unfold pick. cbn.
    rewrite (bool_decide_ext (id ∈ elements ids) (id ∈ ids)) by apply elem_of_elements. by destruct (bool_decide (id ∈ ids)). }
  split.
  - eapply sublist_NoDup; [apply (NoDup_fst_map_to_list (ra_byQuery r))|].
    generalize (map_to_list (ra_byQuery r)) as l. intros l. induction l as [|[i s] l IH]; cbn; [done|].
    unfold pick at 1. cbn. case_bool_decide; by constructor.
  - intros idx. rewrite list_elem_of_omap. unfold pick. split.
    + intros ([i s] & Hin%elem_of_map_to_list & Hp). cbn in Hp. case_bool_decide; [|done]. simplify_eq. by rewrite Hin.
    + intros Hid. destruct (ra_byQuery r !! idx) as [s|] eqn:E; [|by apply not_elem_of_empty in Hid].
      exists (idx, s). split; [by apply elem_of_map_to_list|]. cbn in *. by rewrite bool_decide_eq_true_2.
Qed.

Lemma creditTo_fold id mb qs acc idx :
  NoDup qs ->
  foldl (creditTo id mb) acc qs !! idx = if bool_decide (idx ∈ qs) then creditTo id mb acc idx !! idx else acc !! idx.
Proof.
  revert acc. induction qs as [|q qs IH]; intros acc Hnd; cbn [foldl].
  { by rewrite bool_decide_eq_false_2 by apply not_elem_of_nil. }
  apply list.NoDup_cons in Hnd as [Hq Hnd]. rewrite IH by done. destruct (decide (idx = q)) as [->|Hne].
  - rewrite (bool_decide_eq_false_2 (q ∈ qs)), bool_decide_eq_true_2 by (done || left). done.
  - rewrite (bool_decide_ext (idx ∈ q :: qs) (idx ∈ qs)) by (rewrite elem_of_cons; naive_solver).
    unfold creditTo. rewrite !lookup_insert_eq. by rewrite lookup_insert_ne.
Qed.

(** The tally of one query over the participants seen so far. *)
Definition tally (mb : string -> string) (c : gset string) : option queryAccum :=
  if bool_decide (c = ∅) then None else Some (mkAccum (Z.of_nat (size c)) c (set_map mb c ∖ {[""]})).

Lemma tally_add mb c id (acc : gmap nat queryAccum) idx :
  id ∉ c -> acc !! idx = tally mb c -> creditTo id (mb id) acc idx !! idx = tally mb ({[id]} ∪ c).
Proof.
  intros Hid Hacc. unfold creditTo. rewrite lookup_insert_eq, Hacc. unfold tally.
  rewrite (bool_decide_eq_false_2 ({[id]} ∪ c = ∅)) by set_solver.
  rewrite size_union, size_singleton, set_map_union_L, set_map_singleton_L by set_solver. f_equal.
  case_bool_decide as Hc; cbn.
  - subst c. rewrite size_empty, set_map_empty, !union_empty_r_L. f_equal.
    destruct (String.eqb_spec (mb id) "") as [->|Hne]; set_solver.
  - f_equal; [lia|]. destruct (String.eqb_spec (mb id) "") as [He|Hne]; [rewrite He|]; set_solver.
Qed.

Lemma accumulate_spec r mf idx :
  accumulate r (queriesByArtist r) mf !! idx =
  tally (fun id => default "" (ra_mbid r !! id)) (list_to_set (mf_ArtistIDs mf) ∩ default ∅ (ra_byQuery r !! idx)).
Proof.
  set (mb := fun id => default "" (ra_mbid r !! id)). unfold accumulate. generalize (mf_ArtistIDs mf) as l. intros l.
  enough (forall acc credited, foldl (creditStep r (queriesByArtist r)) (∅, ∅) l = (acc, credited) ->
    (forall idx, acc !! idx = tally mb (list_to_set l ∩ default ∅ (ra_byQuery r !! idx))) /\
    (forall id, id ∈ credited -> id ∈ l) /\
    (forall id, id ∈ l -> (exists idx, id ∈ default ∅ (ra_byQuery r !! idx)) -> id ∈ credited)) as Hinv.
  { destruct (foldl _ _ l) as [acc credited]. by apply (Hinv acc credited). }
  induction l as [|x l IH] using rev_ind; cbn [foldl].
  { intros acc credited [= <- <-]. split; [|split; set_solver]. intros i. rewrite lookup_empty. unfold tally.
    by rewrite bool_decide_eq_true_2 by set_solver. }
  rewrite foldl_app. cbn [foldl]. destruct (foldl _ _ l) as [acc0 cred0]. destruct (IH _ _ eq_refl) as (I1 & I2 & I3).
  clear IH. unfold creditStep. intros acc credited Hst. destruct (queriesByArtist_spec r x) as [Hnd Hqs].
  assert (forall i, x ∉ default ∅ (ra_byQuery r !! i) \/ x ∈ l ->
    (list_to_set (l ++ [x]) : gset string) ∩ default ∅ (ra_byQuery r !! i) = list_to_set l ∩ default ∅ (ra_byQuery r !! i)) as Hsame.
  { intros i Hx. rewrite list_to_set_app_L. cbn. set_solver. }
  case_bool_decide as Hc; [|destruct (queriesByArtist r !! x) as [qs|]].
  - injection Hst as <- <-. split; [|split]; [|set_solver|set_solver].
    intros i. rewrite I1, Hsame; [done|]. right. by apply I2.
  - injection Hst as <- <-. cbn in Hnd, Hqs. split; [|split; set_solver]. intros i. rewrite creditTo_fold by done.
    case_bool_decide as Hi; [|rewrite I1, Hsame; [done|]; left; by rewrite <- Hqs].
    apply Hqs in Hi. fold (mb x). erewrite tally_add; [| |apply I1]; [|set_solver].
    f_equal. rewrite list_to_set_app_L. cbn. set_solver.
  - injection Hst as <- <-. cbn in Hqs. split; [|split]; [|set_solver|set_solver].
    intros i. rewrite I1, Hsame; [done|]. left. set_solver.
Qed.

Lemma bucketTracks_spec `{MatcherEnv} r tracks idx :
  default [] (bucketTracks r tracks !! idx) =
  omap (fun mf => (fun a => mkScored (newSanitizedTrack mf (qa_ids a) (qa_mbids a)) (qa_overlap a)) <$>
                  accumulate r (queriesByArtist r) mf !! idx) tracks.
Proof.
  unfold bucketTracks. induction tracks as [|mf tracks IH] using rev_ind; cbn [foldl]; [by rewrite lookup_empty|].
  rewrite foldl_app, omap_app. cbn [foldl]. rewrite <- IH. set (b := foldl _ ∅ tracks). clearbody b.
  set (g := fun (byQuery : gmap nat (list scoredTrack)) '(idx, a) => <[idx := default [] (byQuery !! idx) ++
    [mkScored (newSanitizedTrack mf (qa_ids a) (qa_mbids a)) (qa_overlap a)]]> byQuery).
  assert (forall m k a k', k' <> k -> g m (k, a) !! k' = m !! k') as Hother by (intros; by apply lookup_insert_ne).
  destruct (accumulate r (queriesByArtist r) mf !! idx) as [a|] eqn:E; cbn.
  - rewrite (fold_own g (fun k a o => Some (default [] o ++ [mkScored (newSanitizedTrack mf (qa_ids a) (qa_mbids a)) (qa_overlap a)])) Hother)
      with (a := a); [by rewrite E| |apply NoDup_fst_map_to_list|by apply elem_of_map_to_list]. intros. by apply lookup_insert_eq.
  - rewrite E. cbn. rewrite fold_other, app_nil_r; [done|done|]. intros Hin. apply list_elem_of_fmap in Hin as ([k a] & -> & Hin%elem_of_map_to_list).
    cbn in E. congruence.
Qed.

(** ** The best candidate *)

Section best.
Context `{MatcherLaws files artists}.

Lemma ratio_range a b :
  is_nan (similarityRatio a b) = false /\ SFltb (float64_of_int (-1)) (similarityRatio a b) = true /\
  SFeqb (similarityRatio a b) (float64_of_int (-1)) = false.
Proof.
  unfold similarityRatio. destruct (String.eqb a b); [done|]. destruct (_ || _); [done|].
  pose proof (metric_range a b) as Hr. destruct (JaroWinkler a b) as [s|[]| |[] m e]; try done.
Qed.

Lemma score_ok q c th :
  finite_duration (t_mf (sc_track c)) = true -> score_clean (score q c th) /\ betterThan (score q c th) zeroScore = true.
Proof.
  intros Hf. split.
  - split; [apply ratio_range|]. split; [by apply durationProximity_not_nan|]. unfold score. cbn.
    destruct (String.eqb _ _); [done|apply ratio_range].
  - unfold betterThan, float_ne. cbn [titleSimilarity score zeroScore].
    destruct (ratio_range (q_title q) (t_title (sc_track c))) as (_ & Hlt & ->). by rewrite Hlt.
Qed.

Definition clearsTitle (q : songQuery) (th : spec_float) (c : scoredTrack) : bool :=
  negb (SFltb (similarityRatio (q_title q) (t_title (sc_track c))) th).

Lemma bestStep_clears q th best sc c :
  bestStep q th (best, sc) c =
  if clearsTitle q th c then
    if betterThan (score q c th) sc then (Some (t_mf (sc_track c)), score q c th) else (best, sc)
  else (best, sc).
Proof. unfold bestStep, clearsTitle. by destruct (SFltb _ _). Qed.

(** The state of the search after some candidates: nothing cleared the threshold,
    or the best score is a candidate's that none so far beats. *)
Definition best_inv (q : songQuery) (th : spec_float) (cands : list scoredTrack) (st : option MediaFile * matchScore) : Prop :=
  match st.1 with
  | Some mf => exists c, c ∈ cands /\ t_mf (sc_track c) = mf /\ st.2 = score q c th /\ clearsTitle q th c = true /\
      forall c', c' ∈ cands -> clearsTitle q th c' = true -> betterThan (score q c' th) (score q c th) = false
  | None => st.2 = zeroScore /\ forall c, c ∈ cands -> clearsTitle q th c = false
  end.

Lemma best_inv_skip q th cands c st : clearsTitle q th c = false -> best_inv q th cands st -> best_inv q th (cands ++ [c]) st.
Proof.
  destruct st as [[mf|] sc]; unfold best_inv; cbn; intros Hc.
  - intros (b & Hb & Hmf & Hsc & Hcl & Hmax). exists b. split; [apply elem_snoc; by left|]. do 3 (split; [done|]).
    intros c' [Hc'| ->]%elem_snoc Hcl'; [by apply Hmax|congruence].
  - intros [-> Hno]. split; [done|]. intros c' [Hc'| ->]%elem_snoc; auto.
Qed.

Lemma best_inv_step q th cands c st :
  (forall c', c' ∈ cands ++ [c] -> finite_duration (t_mf (sc_track c')) = true) ->
  best_inv q th cands st -> best_inv q th (cands ++ [c]) (bestStep q th st c).
Proof.
  intros Hf Hst. destruct st as [best sc]. rewrite bestStep_clears. destruct (clearsTitle q th c) eqn:Ec; [|by apply best_inv_skip].
  assert (forall c', c' ∈ cands ++ [c] -> score_clean (score q c' th)) as Hclean by (intros c' Hc'; by apply score_ok, Hf).
  assert (c ∈ cands ++ [c]) as Hin by (apply elem_snoc; by right). unfold best_inv in Hst. cbn in Hst.
  destruct best as [mf|].
  - destruct Hst as (b & Hb & Hmf & -> & Hcl & Hmax). assert (b ∈ cands ++ [c]) as Hb' by (apply elem_snoc; by left).
    destruct (betterThan (score q c th) (score q b th)) eqn:Eb.
    + exists c. do 4 (split; [done|]). intros c' Hc'' Hcl'. pose proof Hc'' as [Hc'| ->]%elem_snoc; [|by apply betterThan_irrefl, Hclean].
      destruct (betterThan (score q c' th) (score q c th)) eqn:E'; [|done]. rewrite <- (Hmax c' Hc' Hcl'). symmetry.
      apply (betterThan_trans _ (score q c th)); auto.
    + exists b. do 4 (split; [done|]). intros c' [Hc'| ->]%elem_snoc Hcl'; auto.
  - destruct Hst as [-> Hno]. rewrite (proj2 (score_ok q c th (Hf c Hin))). exists c. do 4 (split; [done|]).
    intros c' [Hc'| ->]%elem_snoc Hcl'; [by rewrite (Hno c' Hc') in Hcl'|by apply betterThan_irrefl, Hclean].
Qed.

Lemma findBestMatch_spec q th cands :
  (forall c, c ∈ cands -> finite_duration (t_mf (sc_track c)) = true) ->
  match findBestMatch q cands th with
  | Some mf => exists c, c ∈ cands /\ t_mf (sc_track c) = mf /\ clearsTitle q th c = true /\
      forall c', c' ∈ cands -> clearsTitle q th c' = true -> betterThan (score q c' th) (score q c th) = false
  | None => forall c, c ∈ cands -> clearsTitle q th c = false
  end.
Proof.
  intros Hf. assert (best_inv q th cands (foldl (bestStep q th) (None, zeroScore) cands)) as Hinv.
  { induction cands as [|c cands IH] using rev_ind; [split; [done|]; by intros c Hc%not_elem_of_nil|].
    rewrite foldl_app. apply best_inv_step; [done|]. apply IH. intros c' Hc'. apply Hf, elem_snoc. by left. }
  unfold findBestMatch. unfold best_inv in Hinv. destruct (foldl _ _ cands) as [[mf|] sc]; cbn in *; naive_solver.
Qed.
End best.
