(* ===== verification/MatcherSpec.v ===== *)
(** * The matcher against its description

    The title phase, the composition of the phases, and the final ordered list. *)

From stdpp Require Import sorting.
From Stdlib Require Import Floats.SpecFloat.
From S2P Require Import Prelude GoStrings GoText Model GoFloat FloatFacts Matcher MatcherFacts.

Local Open Scope Z_scope.
Local Open Scope go_scope.

(** ** What a match is *)

Section spec.
Context `{MatcherEnv} (files : list MediaFile) (artists : list ArtistRow).

Definition by_id : MediaFile -> Song -> Prop := hit_key s_ID (fun mf => [mf_ID mf]).
Definition by_mbid : MediaFile -> Song -> Prop := hit_key s_MBID (fun mf => [mf_MbzRecordingID mf]).
Definition by_isrc : MediaFile -> Song -> Prop := hit_key s_ISRC mf_ISRCs.

(** A track credited to one of the song's artists whose title is close enough. *)
Definition title_candidate (mf : MediaFile) (s : Song) : Prop :=
  available files mf /\ credits artists (query_of s) mf <> ∅ /\
  clearsTitle (query_of s) threshold (candidate artists (query_of s) mf) = true.

Definition song_score (mf : MediaFile) (s : Song) : matchScore :=
  score (query_of s) (candidate artists (query_of s) mf) threshold.

(** No candidate beats it. *)
Definition by_title (mf : MediaFile) (s : Song) : Prop :=
  title_candidate mf s /\ forall mf', title_candidate mf' s -> betterThan (song_score mf' s) (song_score mf s) = false.

Definition none (hit : MediaFile -> Song -> Prop) (s : Song) : Prop := forall mf, available files mf -> ~ hit mf s.

(** The phase of highest priority that has a match. *)
Definition resolved_by (mf : MediaFile) (s : Song) : Prop :=
  by_id mf s \/
  (none by_id s /\ by_mbid mf s) \/
  (none by_id s /\ none by_mbid s /\ by_isrc mf s) \/
  (none by_id s /\ none by_mbid s /\ none by_isrc s /\ by_title mf s).
End spec.

Section title.
Context `{MatcherLaws files artists} (songs : list Song).

Lemma groupQueries_spec m iq :
  iq ∈ groupQueries songs m <->
  exists s, songs !! iq_index iq = Some s /\ m !! iq_index iq = None /\ queryArtists (s_Artists s) <> [] /\ iq_query iq = query_of s.
Proof.
  unfold groupQueries. rewrite list_elem_of_omap. split.
  - intros ([i s] & Hin%indexed_elem & Hq). destruct (m !! i) eqn:Em; [done|].
    destruct (queryArtists (s_Artists s)) as [|a l] eqn:Ea; [done|]. injection Hq as <-. cbn. exists s. by rewrite Ea.
  - intros (s & Hs & Hm & Ha & Hq). exists (iq_index iq, s). split; [by apply indexed_elem|]. rewrite Hm.
    destruct (queryArtists (s_Artists s)); [done|]. destruct iq as [i qs]. cbn in *. by subst.
Qed.

Lemma groupQueries_keys m : NoDup (iq_index <$> groupQueries songs m).
Proof.
  eapply sublist_NoDup; [apply (indexed_keys songs)|]. unfold groupQueries. generalize (indexed songs) as l. intros l.
  induction l as [|[i s] l IH]; cbn; [done|]. destruct (m !! i); [by constructor|].
  destruct (queryArtists _); by constructor.
Qed.

Lemma resolved_owners m r i s :
  resolved_ok (artists := artists) (groupQueries songs m) r -> songs !! i = Some s -> m !! i = None ->
  forall id, id ∈ default ∅ (ra_byQuery r !! i) <-> id ∈ owners artists (query_of s).
Proof.
  intros [Hr _] Hs Hm id. rewrite Hr. unfold owners, owned_artists. rewrite elem_of_list_to_set, elem_concat_fmap.
  setoid_rewrite elem_concat_fmap. setoid_rewrite list_elem_of_fmap. split.
  - intros (a & (iq & (s' & Hs' & _ & _ & Hq)%groupQueries_spec & (a' & [= -> ->] & Ha)) & Hid). exists a'.
    rewrite Hs in Hs'. injection Hs' as <-. by rewrite <- Hq.
  - intros (a & Ha & Hid). exists a. split; [|done]. exists (mkIQ i (query_of s)). split.
    + apply groupQueries_spec. exists s. repeat split; try done. cbn in Ha. by intros Hnil; rewrite Hnil in Ha; apply not_elem_of_nil in Ha.
    + by exists a.
Qed.

(** The bucket of a song holds its candidates. *)
Lemma bucket_candidates m r tracks i s :
  resolved_ok (artists := artists) (groupQueries songs m) r -> songs !! i = Some s -> m !! i = None ->
  default [] (bucketTracks r tracks !! i) =
  candidate artists (query_of s) <$> filter (fun mf => credits artists (query_of s) mf <> ∅) tracks.
Proof.
  intros Hr Hs Hm. pose proof (resolved_owners m r i s Hr Hs Hm) as Hown. rewrite bucketTracks_spec.
  induction tracks as [|mf tracks IH]; [done|]. cbn [omap list_omap]. rewrite IH, accumulate_spec.
  assert (list_to_set (mf_ArtistIDs mf) ∩ default ∅ (ra_byQuery r !! i) = credits artists (query_of s) mf) as ->
    by (unfold credits; set_solver).
  rewrite filter_cons. unfold tally. case_bool_decide as He; cbn.
  - rewrite decide_False by (by intros []). done.
  - rewrite decide_True by done. cbn. f_equal. unfold candidate. do 3 f_equal.
    apply leibniz_equiv. intros x. rewrite !elem_of_map. split; intros (id & -> & Hid); exists id; (split; [|done]);
      [|symmetry]; apply (proj2 Hr i id); apply Hown; unfold credits in Hid; set_solver.
Qed.

(** The tracks of a song's bucket are its candidates in the library. *)
Lemma title_tracks m r tracks i s :
  resolved_ok (artists := artists) (groupQueries songs m) r -> songs !! i = Some s -> m !! i = None ->
  fetchTracksCreditedTo (ra_allIDs r) = Ok tracks ->
  forall mf, mf ∈ filter (fun mf => credits artists (query_of s) mf <> ∅) tracks <->
    available files mf /\ credits artists (query_of s) mf <> ∅.
Proof.
  intros Hr Hs Hm Hf mf. rewrite list_elem_of_filter. pose proof (resolved_owners m r i s Hr Hs Hm) as Hown.
  split; intros [H3 H4]; [split; [|done]|split; [done|]].
  - unfold fetchTracksCreditedTo in Hf. destruct (ra_allIDs r); [injection Hf as <-; by apply not_elem_of_nil in H4|].
    by apply (files_selected _ _ _ Hf) in H4 as [].
  - apply set_choose_L in H4 as [id Hid]. unfold credits in Hid. apply elem_of_intersection in Hid as [Hid1 Hid2].
    apply elem_of_list_to_set in Hid1. apply Hown in Hid2. apply (proj2 Hr) in Hid2 as [_ Hall].
    unfold fetchTracksCreditedTo in Hf. destruct (ra_allIDs r) eqn:Ea; [by apply not_elem_of_nil in Hall|].
    rewrite <- Ea in Hf. apply (files_selected _ _ _ Hf). split; [done|]. exists id. by rewrite Ea.
Qed.

Lemma fold_queries {B} (f : gmap nat B -> nat -> songQuery -> gmap nat B) l m :
  foldl (fun m iq => f m (iq_index iq) (iq_query iq)) m l =
  foldl (fun m '(i, q) => f m i q) m ((fun iq => (iq_index iq, iq_query iq)) <$> l).
Proof. revert m. induction l as [|a l IH]; intros m; cbn; [done|]. by rewrite IH. Qed.

(** The title phase fills exactly the songs that have a candidate, with a best
    one. *)
Definition title_ok (m m' : gmap nat MediaFile) : Prop :=
  (forall i, songs !! i = None -> m' !! i = m !! i) /\
  forall i s, songs !! i = Some s ->
    match m !! i with
    | Some mf => m' !! i = Some mf
    | None => match m' !! i with
              | Some mf => by_title files artists mf s
              | None => forall mf, ~ title_candidate files artists mf s
              end
    end.

Lemma title_nothing m :
  (forall i s, songs !! i = Some s -> m !! i = None -> owners artists (query_of s) = ∅) -> title_ok m m.
Proof.
  intros Hno. split; [done|]. intros i s Hs. destruct (m !! i) eqn:Em; [done|]. intros mf (_ & Hc & _). apply Hc.
  unfold credits. rewrite (Hno i s Hs Em). set_solver.
Qed.

Lemma title_one m r tracks i s :
  resolved_ok (artists := artists) (groupQueries songs m) r -> songs !! i = Some s -> m !! i = None ->
  fetchTracksCreditedTo (ra_allIDs r) = Ok tracks ->
  match findBestMatch (query_of s) (default [] (bucketTracks r tracks !! i)) threshold with
  | Some mf => by_title files artists mf s
  | None => forall mf, ~ title_candidate files artists mf s
  end.
Proof.
  intros Hr Hs Hm Hf. pose proof (title_tracks m r tracks i s Hr Hs Hm Hf) as Ht.
  rewrite (bucket_candidates m r tracks i s Hr Hs Hm). set (l := filter _ tracks) in *.
  pose proof (findBestMatch_spec (query_of s) threshold (candidate artists (query_of s) <$> l)) as Hb.
  assert (forall c, c ∈ candidate artists (query_of s) <$> l -> finite_duration (t_mf (sc_track c)) = true) as Hfin.
  { intros c (mf & -> & Hmf)%list_elem_of_fmap. cbn. apply Ht in Hmf as [[Hmf _] _]. by apply durations. }
  specialize (Hb Hfin). clear Hfin. destruct (findBestMatch _ _ _) as [mf|].
  - destruct Hb as (c & (mf' & -> & Hmf)%list_elem_of_fmap & <- & Hcl & Hmax). cbn [t_mf sc_track candidate newSanitizedTrack].
    apply Ht in Hmf as [Hav Hcr]. split; [by split|]. intros mf2 (Hav2 & Hcr2 & Hcl2). apply Hmax; [|done].
    apply list_elem_of_fmap. exists mf2. split; [done|]. by apply Ht.
  - intros mf (Hav & Hcr & Hcl). rewrite Hb in Hcl; [done|]. apply list_elem_of_fmap. exists mf. split; [done|]. by apply Ht.
Qed.

Lemma matchByTitle_ok m m' : matchByTitle songs m = Ok m' -> title_ok m m'.
Proof.
  unfold matchByTitle. destruct (groupQueries songs m) as [|iq0 iqs] eqn:Eq.
  { intros [= <-]. apply title_nothing. intros i s Hs Hm. unfold owners. destruct (queryArtists (s_Artists s)) eqn:Ea; [cbn; by rewrite Ea|].
    exfalso. apply (not_elem_of_nil (mkIQ i (query_of s))). rewrite <- Eq. apply groupQueries_spec. exists s. by rewrite Ea. }
  rewrite <- Eq. clear Eq iq0 iqs. destruct (resolveArtists _) as [r|] eqn:Er; [|done]. apply resolveArtists_ok in Er.
  destruct (ra_allIDs r) as [|id0 ids] eqn:Ea.
  { intros [= <-]. apply title_nothing. intros i s Hs Hm. apply set_eq. intros id. rewrite <- (resolved_owners m r i s Er Hs Hm).
    split; [|set_solver]. intros Hid. apply (proj2 Er) in Hid as [_ Hid]. rewrite Ea in Hid. by apply not_elem_of_nil in Hid. }
  rewrite <- Ea. clear Ea id0 ids. destruct (fetchTracksCreditedTo _) as [tracks|] eqn:Ef; [|done]. intros [= <-].
  set (best := fun i q => findBestMatch q (default [] (bucketTracks r tracks !! i)) threshold).
  rewrite (fold_queries (fun m i q => match best i q with Some mf => <[i := mf]> m | None => m end)).
  set (l := (fun iq => (iq_index iq, iq_query iq)) <$> groupQueries songs m).
  assert (NoDup l.*1) as Hnd by (unfold l; rewrite <- list_fmap_compose; apply groupQueries_keys).
  set (g := fun (m : gmap nat MediaFile) '(i, q) => match best i q with Some mf => <[i := mf]> m | None => m end).
  assert (forall m k q k', k' <> k -> g m (k, q) !! k' = m !! k') as Hother
    by (intros m0 k q k' Hne; cbn; destruct (best k q); [by apply lookup_insert_ne|done]).
  assert (forall i, (forall s, songs !! i = Some s -> is_Some (m !! i) \/ queryArtists (s_Artists s) = []) ->
    foldl g m l !! i = m !! i) as Hout.
  { intros i Hi. apply fold_other; [done|]. intros Hin. unfold l in Hin. rewrite <- list_fmap_compose in Hin.
    apply list_elem_of_fmap in Hin as (iq & -> & (s & Hs & Hm & Hne & _)%groupQueries_spec).
    destruct (Hi s Hs) as [[x Hx]|]; [|done]. cbn in Hx. congruence. }
  split; [intros i Hi; apply Hout; congruence|]. intros i s Hs. destruct (m !! i) as [mf|] eqn:Em.
  { rewrite Hout, Em; [done|]. eauto. }
  destruct (queryArtists (s_Artists s)) as [|qa qas] eqn:Ea.
  - rewrite Hout, Em by (intros s' Hs'; right; congruence). intros mf (_ & Hc & _). apply Hc. unfold credits, owners, query_of.
    cbn. rewrite Ea. set_solver.
  - rewrite (fold_own g (fun i q o => match best i q with Some mf => Some mf | None => o end) Hother) with (a := query_of s);
      [|intros m0 k q; cbn; destruct (best k q); [by apply lookup_insert_eq|done]|done|].
    + rewrite Em. pose proof (title_one m r tracks i s Er Hs Em Ef) as Hone. fold (best i (query_of s)) in Hone.
      by destruct (best i (query_of s)).
    + apply list_elem_of_fmap. exists (mkIQ i (query_of s)). split; [done|]. apply groupQueries_spec. exists s. by rewrite Ea.
Qed.
End title.

(** ** The whole resolution *)

Section whole.
Context `{MatcherLaws files artists} (songs : list Song).

(** Some query of the store failed with the error. *)
Definition store_failed (e : string) : Prop :=
  (exists f, MediaFileGetAll f = Err e) \/ (exists f, ArtistGetAll f = Err e).

Lemma matchByTitle_err m e : matchByTitle songs m = Err e -> store_failed e.
Proof.
  unfold matchByTitle. destruct (groupQueries songs m); [done|]. destruct (resolveArtists _) as [r|e'] eqn:Er.
  - destruct (ra_allIDs r); [done|]. unfold fetchTracksCreditedTo. destruct (MediaFileGetAll _) eqn:E; [done|].
    intros [= <-]. left. eauto.
  - intros [= <-]. right. revert Er. unfold resolveArtists. destruct (fastPath _) as [b ids].
    generalize (map_to_list (toQueries qa_name (pendingArtists (i :: l)))).*1 (map_to_list (toQueries qa_mbid (pendingArtists (i :: l)))).*1 (elements ids).
    intros [|] [|] [|]; try done; destruct (ArtistGetAll _) as [rows|] eqn:E; try (by destruct (foldl _ _ rows) as [[] ?]);
      intros [= <-]; eauto.
Qed.

Lemma exact_err m e :
  matchByID songs m = Err e \/ matchByMBID songs m = Err e \/ matchByISRC songs m = Err e -> store_failed e.
Proof.
  unfold matchByID, matchByMBID, matchByISRC. intros [He|[He|He]]; left; revert He;
    [destruct (ids_of songs)|destruct (wanted s_MBID songs m)|destruct (wanted s_ISRC songs m)]; try done;
    destruct (MediaFileGetAll _) eqn:E; try done; intros [= <-]; eauto.
Qed.

(** What the exact phases leave behind. *)
Lemma exact_phases m1 m2 m3 i s :
  matchByID songs ∅ = Ok m1 -> matchByMBID songs m1 = Ok m2 -> matchByISRC songs m2 = Ok m3 -> songs !! i = Some s ->
  match m3 !! i with
  | Some mf => available files mf /\ resolved_by files artists mf s
  | None => none files by_id s /\ none files by_mbid s /\ none files by_isrc s
  end.
Proof.
  intros [_ H3]%matchByID_ok [_ H4]%matchByMBID_ok [_ H5]%matchByISRC_ok Hs.
  specialize (H3 i s Hs). specialize (H4 i s Hs). specialize (H5 i s Hs). rewrite lookup_empty in H3.
  destruct (m1 !! i) as [mf|]; [rewrite H4 in H5; rewrite H5; destruct H3; split; [done|by left]|].
  destruct (m2 !! i) as [mf|]; [rewrite H5; destruct H4; split; [done|right; by left]|].
  destruct (m3 !! i) as [mf|]; [destruct H5; split; [done|right; right; by left]|done].
Qed.

Lemma exact_outside m1 m2 m3 i :
  matchByID songs ∅ = Ok m1 -> matchByMBID songs m1 = Ok m2 -> matchByISRC songs m2 = Ok m3 -> songs !! i = None -> m3 !! i = None.
Proof.
  intros [H3 _]%matchByID_ok [H4 _]%matchByMBID_ok [H5 _]%matchByISRC_ok Hs. by rewrite H5, H4, H3.
Qed.
End whole.

(** C8: every song of an agent is matched as the priorities say, although the
    server asks the database for all songs at once.  A match is a track of the
    library that is not missing: the one with the song's id; else one with its
    MusicBrainz id; else one with its ISRC; else a track credited to one of the
    song's artists that clears the title threshold and that no other such track
    beats.  A song stays without a match only when none of these exists (or the
    title phase's queries failed); and the whole call fails only with the error of a
    query that failed. *)
Theorem match_resolution `{MatcherLaws files artists} songs :
  match resolveMatches songs with
  | Err e => store_failed e
  | Ok result =>
      forall i, match songs !! i with
                | None => result !! i = None
                | Some s =>
                    match result !! i with
                    | Some mf => available files mf /\ resolved_by files artists mf s
                    | None => none files by_id s /\ none files by_mbid s /\ none files by_isrc s /\
                        ((exists e, store_failed e) \/ forall mf, ~ title_candidate files artists mf s)
                    end
                end
  end.
Proof.
  unfold resolveMatches, result_bind.
  destruct (matchByID songs ∅) as [m1|e] eqn:E1; [|apply (exact_err songs ∅); auto].
  destruct (matchByMBID songs m1) as [m2|e] eqn:E2; [|apply (exact_err songs m1); auto].
  destruct (matchByISRC songs m2) as [m3|e] eqn:E3; [|apply (exact_err songs m2); auto].
  destruct (matchByTitle songs m3) as [m4|e] eqn:E4.
  - apply matchByTitle_ok in E4 as [Hout Hin]. intros i. destruct (songs !! i) as [s|] eqn:Es.
    + specialize (Hin i s Es). pose proof (exact_phases songs m1 m2 m3 i s E1 E2 E3 Es) as Hex.
      destruct (m3 !! i) as [mf|]; [by rewrite Hin|]. destruct Hex as (N1 & N2 & N3). destruct (m4 !! i) as [mf|]; [|by auto].
      split; [apply Hin|]. right. right. by right.
    + rewrite (Hout i Es). by eapply exact_outside.
  - apply matchByTitle_err in E4. case_bool_decide; [done|]. intros i. destruct (songs !! i) as [s|] eqn:Es.
    + pose proof (exact_phases songs m1 m2 m3 i s E1 E2 E3 Es) as Hex. destruct (m3 !! i); [done|]. naive_solver.
    + by eapply exact_outside.
Qed.

(** ** The ordered list *)

Section dedup.
Context `{MatcherEnv} (songs : list Song) (m : gmap nat MediaFile).

(** The first song matched to the same track. *)
Definition first_with (id : string) : option nat :=
  List.find (fun i => match m !! i with Some mf => String.eqb (mf_ID mf) id | None => false end) (seq 0 (length songs)).

(** A match is listed if it is the first of its track, or its song is the same
    as the first one's. *)
Definition listed (i : nat) : option MediaFile :=
  mf ← m !! i; k ← first_with (mf_ID mf); s ← songs !! i; s0 ← songs !! k;
  if Nat.eqb k i || Equals s s0 then Some mf else None.

Definition cap (count : Z) (l : list MediaFile) : list MediaFile :=
  if count <? 0 then l else take (Z.to_nat count) l.

Lemma find_seq (f : nat -> bool) a n :
  match List.find f (seq a n) with
  | Some k => (a <= k < a + n)%nat /\ f k = true /\ forall j, (a <= j < k)%nat -> f j = false
  | None => forall j, (a <= j < a + n)%nat -> f j = false
  end.
Proof.
  revert a. induction n as [|n IH]; intros a; cbn; [intros; lia|]. destruct (f a) eqn:Ea.
  - split; [lia|]. split; [done|]. intros; lia.
  - specialize (IH (S a)). destruct (List.find f (seq (S a) n)) as [k|].
    + destruct IH as (H1 & H2 & H3). split; [lia|]. split; [done|]. intros j Hj. destruct (decide (j = a)) as [->|]; [done|]. apply H3. lia.
    + intros j Hj. destruct (decide (j = a)) as [->|]; [done|]. apply IH. lia.
Qed.

Definition matched_to (id : string) (i : nat) : bool :=
  match m !! i with Some mf => String.eqb (mf_ID mf) id | None => false end.

Lemma first_with_spec id :
  match first_with id with
  | Some k => (k < length songs)%nat /\ matched_to id k = true /\ forall j, (j < k)%nat -> matched_to id j = false
  | None => forall j, (j < length songs)%nat -> matched_to id j = false
  end.
Proof.
  pose proof (find_seq (matched_to id) 0 (length songs)) as Hs. change (List.find _ _) with (first_with id) in Hs.
  destruct (first_with id) as [k|].
  - destruct Hs as (Hk & Hm & Hf). split; [lia|]. split; [done|]. intros j Hj. apply Hf. lia.
  - intros j Hj. apply Hs. lia.
Qed.

(** The first match of a track is a match of that track. *)
Lemma first_with_id id n mf : first_with id = Some n -> m !! n = Some mf -> mf_ID mf = id.
Proof.
  intros Hf Hm. pose proof (first_with_spec id) as Hs. rewrite Hf in Hs. destruct Hs as (_ & Hk & _).
  unfold matched_to in Hk. rewrite Hm in Hk. by apply String.eqb_eq.
Qed.

Lemma first_with_matched id n : first_with id = Some n -> is_Some (m !! n).
Proof.
  intros Hf. pose proof (first_with_spec id) as Hs. rewrite Hf in Hs. destruct Hs as (_ & Hk & _).
  unfold matched_to in Hk. by destruct (m !! n).
Qed.

(** The table of tracks listed so far, before song [n]. *)
Definition table_before (n : nat) (addedBy : gmap string nat) : Prop :=
  forall id, addedBy !! id = (k ← first_with id; if (k <? n)%nat then Some k else None).

Lemma table_skip n addedBy :
  (forall id, first_with id <> Some n) -> table_before n addedBy -> table_before (S n) addedBy.
Proof.
  intros Hn Ht id. rewrite Ht. specialize (Hn id). destruct (first_with id) as [k|]; [|done]. cbn [mbind option_bind].
  assert (k <> n) by congruence. destruct (Nat.ltb_spec k n), (Nat.ltb_spec k (S n)); try done; lia.
Qed.

Lemma table_put n addedBy mf :
  m !! n = Some mf -> first_with (mf_ID mf) = Some n -> table_before n addedBy ->
  table_before (S n) (<[mf_ID mf := n]> addedBy).
Proof.
  intros Hm Hf Ht id. destruct (decide (id = mf_ID mf)) as [->|Hne].
  - rewrite lookup_insert_eq, Hf. cbn [mbind option_bind]. by rewrite (proj2 (Nat.ltb_lt _ _)) by lia.
  - rewrite lookup_insert_ne by done. rewrite Ht. destruct (first_with id) as [k|] eqn:Ek; [|done]. cbn [mbind option_bind].
    assert (k <> n) by (intros ->; apply Hne; symmetry; by eapply first_with_id).
    destruct (Nat.ltb_spec k n), (Nat.ltb_spec k (S n)); try done; lia.
Qed.

Lemma cap_more count mfs l : count < 0 \/ Z.of_nat (length mfs) <= count ->
  (Z.of_nat (length mfs) = count -> cap count (mfs ++ l) = mfs) /\ (l = [] -> cap count (mfs ++ l) = mfs).
Proof.
  intros Hc. unfold cap. destruct (Z.ltb_spec count 0); split; intros Hl; subst; rewrite ?app_nil_r; try done; try lia.
  - rewrite take_app_length'; [done|lia].
  - rewrite take_ge; [done|lia].
Qed.

Lemma dedup_loop count rest n addedBy mfs :
  drop n songs = rest -> (n <= length songs)%nat -> table_before n addedBy ->
  count < 0 \/ Z.of_nat (length mfs) <= count ->
  orderAndDedup_loop songs m count (zip (seq n (length rest)) rest) addedBy mfs =
  cap count (mfs ++ omap listed (seq n (length rest))).
Proof.
  revert n addedBy mfs. induction rest as [|s rest IH]; intros n addedBy mfs Hd Hn Ht Hc; cbn [length seq zip_with orderAndDedup_loop].
  { symmetry. by apply cap_more. }
  assert (songs !! n = Some s) as Hs by (rewrite <- (Nat.add_0_r n), <- lookup_drop, Hd; done).
  pose proof (lookup_lt_Some _ _ _ Hs) as Hlt.
  assert (drop (S n) songs = rest) as Hd' by (replace (S n) with (n + 1)%nat by lia; rewrite <- drop_drop, Hd; done).
  destruct (Z.eqb_spec (Z.of_nat (length mfs)) count) as [He|Hne]; [symmetry; by apply (proj1 (cap_more _ _ _ Hc))|].
  cbn [omap list_omap]. unfold listed at 1. destruct (m !! n) as [mf|] eqn:Em; cbn [mbind option_bind].
  2:{ apply IH; [done|lia| |done]. apply table_skip; [|done]. intros id [x Hx]%first_with_matched. congruence. }
  pose proof (first_with_spec (mf_ID mf)) as Hq.
  assert (matched_to (mf_ID mf) n = true) as Hmt by (unfold matched_to; rewrite Em; apply String.eqb_refl).
  pose proof (Ht (mf_ID mf)) as Hadd. rewrite Hs.
  destruct (first_with (mf_ID mf)) as [k|] eqn:Ef; [|rewrite Hq in Hmt by lia; done]. cbn [mbind option_bind] in *.
  destruct Hq as (Hk & Hkm & Hfirst). assert (k <= n)%nat by (destruct (decide (k <= n)%nat); [done|rewrite Hfirst in Hmt by lia; done]).
  destruct (lookup_lt_is_Some_2 songs k ltac:(lia)) as [s0 Hs0]. rewrite Hs0. cbn [mbind option_bind].
  destruct (Nat.ltb_spec k n) as [Hkn|Hkn]; rewrite Hadd.
  - rewrite Hs0. destruct (Nat.eqb_spec k n); [lia|]. cbn [orb].
    assert (table_before (S n) addedBy) as Ht'.
    { apply table_skip; [|done]. intros id Hf. rewrite (first_with_id id n mf Hf Em) in Ef. rewrite Ef in Hf. injection Hf. lia. }
    destruct (Equals s s0); rewrite (IH (S n)); try done; try lia; [by rewrite <- app_assoc|]. rewrite length_app. cbn. lia.
  - assert (k = n) as -> by lia. rewrite Nat.eqb_refl. cbn [orb].
    rewrite (IH (S n)); try done; try lia; [by rewrite <- app_assoc|by apply table_put|]. rewrite length_app. cbn. lia.
Qed.
End dedup.

(** The list the matcher returns is the matches in the order of the songs, at
    most as many as asked for, each track listed for the first song it matches and
    again only for songs identical to that one. *)
Theorem match_songs_listed `{MatcherEnv} `{MatcherStore} songs count :
  match MatchSongs songs count with
  | Err e => resolveMatches songs = Err e
  | Ok mfs => songs = [] /\ mfs = [] \/ exists m, resolveMatches songs = Ok m /\
      mfs = cap count (omap (listed songs m) (seq 0 (length songs)))
  end.
Proof.
  unfold MatchSongs. destruct songs as [|s songs]; [by left|]. destruct (resolveMatches _) as [m|e]; [|done]. cbn [result_bind].
  right. exists m. split; [done|]. unfold orderAndDedup, indexed. rewrite (dedup_loop _ m count (s :: songs) 0); [done|done|lia| |].
  - intros id. rewrite lookup_empty. by destruct (first_with _ _ _).
  - destruct (Z.ltb_spec count 0); [by left|right; cbn; lia].
Qed.

(** ** A small library *)

Definition demoTrack (id title album mbid : string) (isrcs artists : list string) (starred missing : bool) : MediaFile :=
  mkMediaFile id "/music" id title "mp3" 1128824832 0 320 44100 None 2 "mp3" "" 0 1 "Queen" "al1" "aa1" artists
    album mbid "" isrcs starred 0 missing.

Definition demoFiles : list MediaFile :=
  [demoTrack "t1" "One Vision" "Live" "" [] ["q"] false false; demoTrack "t2" "One Vision" "Magic" "" [] ["q"; "b"] false false;
   demoTrack "t3" "Body Language" "Hot Space" "m3" ["I3"] ["q"] false false; demoTrack "t4" "Fun It" "Jazz" "" [] ["q"] false true].
Definition demoArtists : list ArtistRow := [mkArtistRow "q" "queen" "mq"; mkArtistRow "b" "bowie" ""].

#[local] Instance demoEnv : MatcherEnv := {
  JaroWinkler _ _ := float64_of_int 0; Accents := id; Hash s := Z.of_nat (String.length (s_Name s));
  IgnoredArticles := "The A"; FuzzyThreshold := 85; PreferStarred := true }.

Definition selectsb (f : FileFilter) (mf : MediaFile) : bool :=
  match f with
  | FilterID ids => bool_decide (mf_ID mf ∈ ids)
  | FilterMBID mbids => bool_decide (mf_MbzRecordingID mf ∈ mbids)
  | FilterISRC isrcs => existsb (fun i => bool_decide (i ∈ isrcs)) (mf_ISRCs mf)
  | FilterCredited ids => existsb (fun i => bool_decide (i ∈ ids)) (mf_ArtistIDs mf)
  end.

#[local] Instance demoStore : MatcherStore := {
  MediaFileGetAll f := Ok (List.filter (fun mf => negb (mf_Missing mf) && selectsb f mf) demoFiles);
  ArtistGetAll f := Ok (List.filter (fun a => bool_decide (a_OrderArtistName a ∈ af_names f) ||
    bool_decide (a_MbzArtistID a ∈ af_mbids f) || bool_decide (a_ID a ∈ af_ids f)) demoArtists) }.

#[local] Instance demoLaws : MatcherLaws demoFiles demoArtists.
Proof.
  split.
  - intros f l mf Hl.
    assert (l = List.filter (fun mf => negb (mf_Missing mf) && selectsb f mf) demoFiles) as -> by (by injection Hl as <-). rewrite list_elem_of_In, filter_In, <- list_elem_of_In, andb_true_iff, negb_true_iff.
    unfold available. enough (selectsb f mf = true <-> selects f mf) by tauto.
    destruct f; cbn; rewrite ?bool_decide_eq_true, ?existsb_exists; try done; setoid_rewrite <- list_elem_of_In;
      setoid_rewrite bool_decide_eq_true; done.
  - intros f l a Hl. assert (l = List.filter (fun a => bool_decide (a_OrderArtistName a ∈ af_names f) ||
      bool_decide (a_MbzArtistID a ∈ af_mbids f) || bool_decide (a_ID a ∈ af_ids f)) demoArtists) as -> by (by injection Hl as <-).
    rewrite list_elem_of_In, filter_In, <- list_elem_of_In, !orb_true_iff, !bool_decide_eq_true. tauto.
  - intros mf mf' Hm Hm'. unfold demoFiles in *. set_unfold in Hm. set_unfold in Hm'. naive_solver.
  - intros a a' Ha Ha'. unfold demoArtists in *. set_unfold in Ha. set_unfold in Ha'. naive_solver.
  - intros mf Hm. assert (forallb finite_duration demoFiles = true) as Hf by (vm_compute; reflexivity).
    rewrite forallb_forall in Hf. apply Hf. by apply list_elem_of_In.
  - done.
Qed.

Definition demoSongs : list Song :=
  [mkSong "" "One Vision" "" "" [mkArtist "" "The Queen" ""; mkArtist "" "Bowie" ""] "" "" 200500;
   mkSong "t3" "Anything" "" "" [] "" "" 0; mkSong "" "Other" "m3" "" [] "" "" 0; mkSong "t4" "Fun It" "" "" [] "" "" 0].

(** The two-artist song prefers the track that credits both. *)
Lemma match_resolution_witness :
  exists result, resolveMatches demoSongs = Ok result /\ (mf_ID <$> result !! 0%nat) = Some "t2" /\ result !! 3%nat = None /\
    forall mf, result !! 0%nat = Some mf -> forall s, demoSongs !! 0%nat = Some s -> resolved_by demoFiles demoArtists mf s.
Proof.
  pose proof (match_resolution (files := demoFiles) (artists := demoArtists) demoSongs) as Hm.
  destruct (resolveMatches demoSongs) as [result|] eqn:E; [|vm_compute in E; discriminate E].
  exists result. split; [done|]. split; [vm_compute in E; injection E as <-; vm_compute; reflexivity|].
  split; [vm_compute in E; injection E as <-; vm_compute; reflexivity|].
  intros mf Hr s Hs. specialize (Hm 0%nat). rewrite Hs, Hr in Hm. apply Hm.
Defined.
