(* ===== verification/SimpleCache.v ===== *)
(** * The loading cache

    [utils/cache/simple_cache.go].  The entries live in a cache of the
    [ttlcache] library, which is the class [TTLCache]; this file models what is
    built on it: the periodic eviction, the plain operations, and
    [GetWithLoader], which lets concurrent misses of a key share one call of the
    loader.

    Callers of [GetWithLoader] interleave.  Each access to the library, each
    section under [loadsMu] and each channel operation is one step of a process;
    a flight is a cell of a heap, because the map and the waiting processes share
    it through a pointer. *)

From S2P Require Import Prelude Model.

Local Open Scope Z_scope.

(** The operations of [ttlcache.Cache] at a given time; [Range] visits items with
    whether they have expired, and [Set] says whether it returned an item. *)
Class TTLCache (K V D : Type) := {
  tc_Get : time -> K -> D -> option V;
  tc_Set : time -> K -> V -> Z -> D -> D * bool;
  tc_Delete : K -> D -> D;
  tc_DeleteExpired : time -> D -> D;
  tc_Range : time -> D -> list (K * V * bool);
  tc_Len : D -> Z }.

(** [ttlcache.DefaultTTL]. *)
Definition DefaultTTL : Z := 0.

Definition evictionTimeout : Z := 3600 * second.

Inductive cache_error (E : Type) := FailedToAdd | ItemNotFound | LoaderReturned (e : E).
Arguments FailedToAdd {E}.
Arguments ItemNotFound {E}.
Arguments LoaderReturned {E} e.

(** What a loader can fail with: its own error, or [errLoaderPanicked]. *)
Inductive load_error (E : Type) := errLoaderPanicked | LoadError (e : E).
Arguments errLoaderPanicked {E}.
Arguments LoadError {E} e.

Section cache.
Context {K V D E : Type} `{Countable K} `{TTLCache K V D}.

(** [flight]: the outcome is [val] when [err] is nil. *)
Record flight := mkFlight { fl_done : bool; fl_outcome : result (load_error E) V }.

Definition flight_result (f : flight) : result (cache_error (load_error E)) V :=
  match fl_outcome f with
  | Err e => Err (LoaderReturned e)
  | Ok v => Ok v
  end.

Record simpleCache := mkCache {
  c_data : D; c_evictionDeadline : option time; c_loads : gmap K nat }.

Definition set_data (c : simpleCache) (d : D) : simpleCache := mkCache d (c_evictionDeadline c) (c_loads c).
Definition set_loads (c : simpleCache) (l : gmap K nat) : simpleCache := mkCache (c_data c) (c_evictionDeadline c) l.

Definition evictExpired (now : time) (c : simpleCache) : simpleCache :=
  let due := match c_evictionDeadline c with None => true | Some t => t <? now end in
  if due then mkCache (tc_DeleteExpired now (c_data c)) (Some (now + evictionTimeout)) (c_loads c) else c.

Definition AddWithTTL (now : time) (key : K) (value : V) (ttl : Z) (c : simpleCache)
  : simpleCache * result (cache_error E) unit :=
  let c := evictExpired now c in
  let '(d, ok) := tc_Set now key value ttl (c_data c) in
  (set_data c d, if ok then Ok () else Err FailedToAdd).

Definition Add (now : time) (key : K) (value : V) (c : simpleCache) : simpleCache * result (cache_error E) unit :=
  AddWithTTL now key value DefaultTTL (evictExpired now c).

Definition Remove (key : K) (c : simpleCache) : simpleCache := set_data c (tc_Delete key (c_data c)).

Definition Get (now : time) (key : K) (c : simpleCache) : result (cache_error E) V :=
  match tc_Get now key (c_data c) with
  | None => Err ItemNotFound
  | Some v => Ok v
  end.

Definition liveItems (now : time) (c : simpleCache) : list (K * V) :=
  omap (fun '(k, v, expired) => if (expired : bool) then None else Some (k, v)) (tc_Range now (c_data c)).
Definition Keys (now : time) (c : simpleCache) : list K := (liveItems now c).*1.
Definition Values (now : time) (c : simpleCache) : list V := (liveItems now c).*2.
Definition Len (c : simpleCache) : Z := tc_Len (c_data c).

(** ** Concurrent loads *)

(** Where a caller of [GetWithLoader] is.  [Closing] knows whether the deferred
    function runs because of a panic. *)
Inductive pc :=
| Starting (k : K)
| Missed (k : K)
| Waiting (f : nat)
| Leading (k : K) (f : nat)
| Loading (k : K) (f : nat)
| Closing (k : K) (f : nat) (panicked : bool)
| Deregistering (k : K) (f : nat) (panicked : bool)
| Returned (f : option nat) (r : result (cache_error (load_error E)) V)
| Panicked (f : nat).

(** [w_calls] records the flights whose loader was called, last first. *)
Record world := mkWorld {
  w_now : time; w_cache : simpleCache; w_flights : gmap nat flight; w_procs : gmap nat pc; w_calls : list nat }.

Definition goto (w : world) (p : nat) (x : pc) : world :=
  mkWorld (w_now w) (w_cache w) (w_flights w) (<[p := x]> (w_procs w)) (w_calls w).
Definition with_cache (w : world) (c : simpleCache) : world :=
  mkWorld (w_now w) c (w_flights w) (w_procs w) (w_calls w).
Definition with_flight (w : world) (f : nat) (fl : flight) : world :=
  mkWorld (w_now w) (w_cache w) (<[f := fl]> (w_flights w)) (w_procs w) (w_calls w).

(** [if item := c.data.Get(key); item != nil { return ... }]. *)
Definition look (w : world) (p : nat) (k : K) : world :=
  match tc_Get (w_now w) k (c_data (w_cache w)) with
  | Some v => goto w p (Returned None (Ok v))
  | None => goto w p (Missed k)
  end.

(** The section under [loadsMu]: join the flight of the key, or register one. *)
Definition join (w : world) (p : nat) (k : K) : world :=
  match c_loads (w_cache w) !! k with
  | Some f => goto w p (Waiting f)
  | None =>
      let f := fresh (dom (w_flights w)) in
      let w := with_flight w f (mkFlight false (Err errLoaderPanicked)) in
      goto (with_cache w (set_loads (w_cache w) (<[k := f]> (c_loads (w_cache w))))) p (Leading k f)
  end.

(** The second look, after registering. *)
Definition secondLook (w : world) (p : nat) (k : K) (f : nat) : world :=
  match tc_Get (w_now w) k (c_data (w_cache w)) with
  | Some v => goto (with_flight w f (mkFlight false (Ok v))) p (Closing k f false)
  | None =>
      let w := with_cache w (evictExpired (w_now w) (w_cache w)) in
      let w := goto w p (Loading k f) in
      mkWorld (w_now w) (w_cache w) (w_flights w) (w_procs w) (f :: w_calls w)
  end.

(** How a loader ends. *)
Inductive loaded := LoadOk (v : V) (ttl : Z) | LoadErr (e : E) | LoadPanic.

Definition load (w : world) (p : nat) (k : K) (f : nat) (l : loaded) : world :=
  match l with
  | LoadOk v ttl =>
      let w := with_flight w f (mkFlight false (Ok v)) in
      let w := with_cache w (set_data (w_cache w) (fst (tc_Set (w_now w) k v ttl (c_data (w_cache w))))) in
      goto w p (Closing k f false)
  | LoadErr e => goto (with_flight w f (mkFlight false (Err (LoadError e)))) p (Closing k f false)
  | LoadPanic => goto w p (Closing k f true)
  end.

(** [close(f.done)]. *)
Definition close (w : world) (p : nat) (k : K) (f : nat) (panicked : bool) (fl : flight) : world :=
  goto (with_flight w f (mkFlight true (fl_outcome fl))) p (Deregistering k f panicked).

(** [delete(c.loads, key)], and the return. *)
Definition deregister (w : world) (p : nat) (k : K) (f : nat) (panicked : bool) (fl : flight) : world :=
  let w := with_cache w (set_loads (w_cache w) (delete k (c_loads (w_cache w)))) in
  goto w p (if panicked then Panicked f else Returned (Some f) (flight_result fl)).

(** One step of process [p]. *)
Inductive pstep (w : world) (p : nat) : world -> Prop :=
| step_lookup k : w_procs w !! p = Some (Starting k) -> pstep w p (look w p k)
| step_join k : w_procs w !! p = Some (Missed k) -> pstep w p (join w p k)
| step_wait f fl : w_procs w !! p = Some (Waiting f) -> w_flights w !! f = Some fl -> fl_done fl = true ->
    pstep w p (goto w p (Returned (Some f) (flight_result fl)))
| step_secondLook k f : w_procs w !! p = Some (Leading k f) -> pstep w p (secondLook w p k f)
| step_load k f l : w_procs w !! p = Some (Loading k f) -> pstep w p (load w p k f l)
| step_close k f b fl : w_procs w !! p = Some (Closing k f b) -> w_flights w !! f = Some fl -> pstep w p (close w p k f b fl)
| step_deregister k f b fl : w_procs w !! p = Some (Deregistering k f b) -> w_flights w !! f = Some fl ->
    pstep w p (deregister w p k f b fl).

(** The rest of the program: new calls, the other operations of the cache, the
    library's own eviction, and the clock. *)
Inductive wstep (w : world) : world -> Prop :=
| wstep_proc p w' : pstep w p w' -> wstep w w'
| wstep_call p k : w_procs w !! p = None -> wstep w (goto w p (Starting k))
| wstep_add k v ttl : wstep w (with_cache w (fst (AddWithTTL (w_now w) k v ttl (w_cache w))))
| wstep_remove k : wstep w (with_cache w (Remove k (w_cache w)))
| wstep_expire : wstep w (with_cache w (set_data (w_cache w) (tc_DeleteExpired (w_now w) (c_data (w_cache w)))))
| wstep_tick now : w_now w <= now -> wstep w (mkWorld now (w_cache w) (w_flights w) (w_procs w) (w_calls w)).

Definition idle (now : time) (d : D) : world := mkWorld now (mkCache d None ∅) ∅ ∅ [].

Definition reachable (w : world) : Prop := exists now d, steps wstep (idle now d) w.

(** ** Invariant *)

(** The flight a process leads, and whether it has closed its channel. *)
Definition leads (x : pc) : option (K * nat) :=
  match x with
  | Leading k f | Loading k f | Closing k f _ | Deregistering k f _ => Some (k, f)
  | _ => None
  end.
Definition closed (x : pc) : bool := match x with Deregistering _ _ _ => true | _ => false end.

Record winv (w : world) : Prop := {
  wi_loads k f : c_loads (w_cache w) !! k = Some f -> exists p x, w_procs w !! p = Some x /\ leads x = Some (k, f);
  wi_lead p x k f : w_procs w !! p = Some x -> leads x = Some (k, f) ->
    c_loads (w_cache w) !! k = Some f /\ exists fl, w_flights w !! f = Some fl /\ fl_done fl = closed x;
  wi_unique p p' x x' k k' f : w_procs w !! p = Some x -> w_procs w !! p' = Some x' ->
    leads x = Some (k, f) -> leads x' = Some (k', f) -> p = p';
  wi_wait p f : w_procs w !! p = Some (Waiting f) ->
    exists fl, w_flights w !! f = Some fl /\
      (fl_done fl = false -> exists p' x k, w_procs w !! p' = Some x /\ leads x = Some (k, f));
  wi_returned p f r : w_procs w !! p = Some (Returned (Some f) r) ->
    exists fl, w_flights w !! f = Some fl /\ fl_done fl = true /\ flight_result fl = r;
  wi_calls : NoDup (w_calls w) /\ forall f, f ∈ w_calls w ->
    is_Some (w_flights w !! f) /\ forall p k, w_procs w !! p <> Some (Leading k f) }.

Lemma evictExpired_loads now c : c_loads (evictExpired now c) = c_loads c.
Proof. unfold evictExpired. destruct (c_evictionDeadline c) as [t|]; cbn; [by destruct (t <? now)|done]. Qed.

Lemma winv_idle now d : winv (idle now d).
Proof.
  split; cbn; intros; rewrite ?lookup_empty in *; try done. split; [constructor|]. by intros f Hf%not_elem_of_nil.
Qed.

(** The data of the cache plays no part. *)
Lemma winv_env w now c : c_loads c = c_loads (w_cache w) -> winv w ->
  winv (mkWorld now c (w_flights w) (w_procs w) (w_calls w)).
Proof. intros Hc [H1 H2 H3 H4 H5 H6]. split; cbn; rewrite ?Hc; eauto. Qed.

(** A process that leads no flight moves to a state in which it leads none. *)
Lemma winv_quiet w p x' :
  winv w -> (forall x, w_procs w !! p = Some x -> leads x = None) -> leads x' = None ->
  match x' with
  | Waiting f => exists k, c_loads (w_cache w) !! k = Some f
  | Returned (Some f) r => exists fl, w_flights w !! f = Some fl /\ fl_done fl = true /\ flight_result fl = r
  | _ => True
  end -> winv (goto w p x').
Proof.
  intros Hw Hx Hl Hok. destruct Hw as [H1 H2 H3 H4 H5 H6].
  assert (forall q y k f, w_procs w !! q = Some y -> leads y = Some (k, f) -> <[p := x']> (w_procs w) !! q = Some y) as Hkeep.
  { intros q y k f Hq Hy. rewrite lookup_insert_ne; [done|]. intros <-. specialize (Hx _ Hq). congruence. }
  assert (forall q y k f, <[p := x']> (w_procs w) !! q = Some y -> leads y = Some (k, f) -> w_procs w !! q = Some y) as Hback.
  { intros q y k f [[<- <-]|[_ Hq]]%lookup_insert_Some Hy; [congruence|done]. }
  split; cbn.
  - intros k f Hk. destruct (H1 _ _ Hk) as (q & y & Hq & Hy). eauto.
  - intros q y k f Hq Hy. eauto.
  - intros q q' y y' k k' f Hq Hq' Hy Hy'. eapply H3; eauto.
  - intros q f [[<- ->]|[_ Hq]]%lookup_insert_Some.
    + destruct Hok as (k & Hk). destruct (H1 _ _ Hk) as (q & y & Hq & Hy). destruct (H2 _ _ _ _ Hq Hy) as (_ & fl & Hfl & _).
      exists fl. split; [done|]. eauto 10.
    + destruct (H4 _ _ Hq) as (fl & Hfl & Hd). exists fl. split; [done|]. intros Hf. destruct (Hd Hf) as (q' & y & k & Hq' & Hy). eauto 10.
  - intros q f r [[<- ->]|[_ Hq]]%lookup_insert_Some; eauto.
  - split; [apply H6|]. intros f Hf. destruct (proj2 H6 f Hf) as [Hs Hn]. split; [done|].
    intros q k [[<- ->]|[_ Hq]]%lookup_insert_Some; [done|]. by eapply Hn.
Qed.

(** The leader of a flight moves on, maybe recording the outcome. *)
Lemma winv_leader w p x x' k f fl' :
  winv w -> w_procs w !! p = Some x -> leads x = Some (k, f) -> leads x' = Some (k, f) -> closed x = false ->
  fl_done fl' = closed x' -> (forall k f, x' <> Leading k f) ->
  winv (goto (with_flight w f fl') p x').
Proof.
  intros Hw Hx Hl Hl' Hcx Hcl Hnl. destruct Hw as [H1 H2 H3 H4 H5 H6].
  assert (forall q y, q <> p -> <[p := x']> (w_procs w) !! q = Some y <-> w_procs w !! q = Some y) as Hne
    by (intros q y Hq; by rewrite lookup_insert_ne).
  assert (exists fl, w_flights w !! f = Some fl /\ fl_done fl = false) as (fl & Hfl & Hfd)
    by (destruct (H2 _ _ _ _ Hx Hl) as (_ & fl & ? & ?); exists fl; split; congruence).
  split; cbn.
  - intros k' f' Hk. destruct (H1 _ _ Hk) as (q & y & Hq & Hy). destruct (decide (q = p)) as [->|Hqp].
    + exists p, x'. rewrite lookup_insert_eq. split; [done|]. congruence.
    + exists q, y. by rewrite Hne.
  - intros q y k' f' [[<- <-]|[Hqp Hq]]%lookup_insert_Some Hy.
    + rewrite Hl' in Hy. injection Hy as <- <-. split; [by apply (H2 p x)|]. exists fl'. by rewrite lookup_insert_eq.
    + destruct (H2 _ _ _ _ Hq Hy) as (Hk & fl0 & Hfl0 & Hd). split; [done|]. exists fl0. rewrite lookup_insert_ne; [done|].
      intros <-. apply Hqp. by eapply H3.
  - intros q q' y y' k1 k2 f' Hq Hq' Hy Hy'. apply lookup_insert_Some in Hq, Hq'.
    destruct Hq as [[<- <-]|[? Hq]], Hq' as [[<- <-]|[? Hq']]; [done| | |].
    + rewrite Hl' in Hy. injection Hy as <- <-. by eapply (H3 _ _ x y').
    + rewrite Hl' in Hy'. injection Hy' as <- <-. by eapply (H3 _ _ y x).
    + by eapply (H3 _ _ y y').
  - intros q f' [[<- ->]|[Hqp Hq]]%lookup_insert_Some; [done|]. destruct (H4 _ _ Hq) as (fl0 & Hfl0 & Hd).
    destruct (decide (f' = f)) as [->|Hf].
    + exists fl'. rewrite lookup_insert_eq. split; [done|]. intros _. exists p, x', k. by rewrite lookup_insert_eq.
    + exists fl0. rewrite lookup_insert_ne by done. split; [done|]. intros Hdn. destruct (Hd Hdn) as (q' & y & k' & Hq' & Hy).
      exists q', y, k'. rewrite Hne; [done|]. intros ->. congruence.
  - intros q f' r [[<- ->]|[Hqp Hq]]%lookup_insert_Some; [done|]. destruct (H5 _ _ _ Hq) as (fl0 & Hfl0 & Hd & Hr).
    exists fl0. rewrite lookup_insert_ne; [done|]. intros <-. congruence.
  - split; [apply H6|]. intros f' Hf'. destruct (proj2 H6 f' Hf') as [Hs Hn]. split.
    + destruct (decide (f' = f)) as [->|]; [by rewrite lookup_insert_eq|by rewrite lookup_insert_ne].
    + intros q k' [[<- ->]|[_ Hq]]%lookup_insert_Some; [by eapply Hnl|]. by eapply Hn.
Qed.

Lemma winv_register w p k :
  winv w -> w_procs w !! p = Some (Missed k) -> winv (join w p k).
Proof.
  intros Hw Hp. unfold join. destruct (c_loads (w_cache w) !! k) as [f|] eqn:Ek.
  { apply winv_quiet; [done| |done|eauto]. intros x Hx. rewrite Hp in Hx. by injection Hx as <-. }
  set (f := fresh (dom (w_flights w))). assert (w_flights w !! f = None) as Hf by (apply not_elem_of_dom, is_fresh).
  destruct Hw as [H1 H2 H3 H4 H5 H6].
  assert (forall q y, <[p := Leading k f]> (w_procs w) !! q = Some y -> q = p /\ y = Leading k f \/ q <> p /\ w_procs w !! q = Some y)
    as Hin by (intros q y [[<- <-]|[? Hq]]%lookup_insert_Some; auto).
  assert (forall q y k' f', w_procs w !! q = Some y -> leads y = Some (k', f') -> f' <> f /\ k' <> k /\ q <> p) as Hold.
  { intros q y k' f' Hq Hy. destruct (H2 _ _ _ _ Hq Hy) as (Hk & fl & Hfl & _). repeat split; [congruence|congruence|].
    intros ->. rewrite Hp in Hq. injection Hq as <-. done. }
  assert (forall f' fl, w_flights w !! f' = Some fl -> <[f := mkFlight false (Err errLoaderPanicked)]> (w_flights w) !! f' = Some fl) as Hfl'
    by (intros f' fl Hfl; rewrite lookup_insert_ne; [done|congruence]).
  split; cbn.
  - intros k' f' [[<- <-]|[Hne Hk]]%lookup_insert_Some; [exists p, (Leading k f); by rewrite lookup_insert_eq|].
    destruct (H1 _ _ Hk) as (q & y & Hq & Hy). exists q, y. rewrite lookup_insert_ne; [done|]. by destruct (Hold _ _ _ _ Hq Hy) as (_ & _ & ?).
  - intros q y k' f' [[-> ->]|[Hne Hq]]%Hin Hy.
    + injection Hy as <- <-. rewrite !lookup_insert_eq. split; [done|]. by eexists.
    + destruct (H2 _ _ _ _ Hq Hy) as (Hk & fl & Hfl & Hd). destruct (Hold _ _ _ _ Hq Hy) as (_ & ? & _).
      rewrite lookup_insert_ne by done. split; [done|]. eauto.
  - intros q q' y y' k1 k2 f' [[-> ->]|[Hne Hq]]%Hin [[-> ->]|[Hne' Hq']]%Hin Hy Hy'; [done| | |by eapply (H3 _ _ y y')].
    + injection Hy as <- <-. by destruct (Hold _ _ _ _ Hq' Hy') as (? & _).
    + injection Hy' as <- <-. by destruct (Hold _ _ _ _ Hq Hy) as (? & _).
  - intros q f' [[-> [=]]|[Hne Hq]]%Hin. destruct (H4 _ _ Hq) as (fl & Hfl & Hd). exists fl. split; [auto|].
    intros Hdn. destruct (Hd Hdn) as (q' & y & k' & Hq' & Hy). exists q', y, k'. rewrite lookup_insert_ne; [done|].
    by destruct (Hold _ _ _ _ Hq' Hy) as (_ & _ & ?).
  - intros q f' r [[-> [=]]|[Hne Hq]]%Hin. destruct (H5 _ _ _ Hq) as (fl & Hfl & Hd). eauto.
  - split; [apply H6|]. intros f' Hf'. destruct (proj2 H6 f' Hf') as [[fl Hs] Hn]. split; [rewrite (Hfl' _ _ Hs); eauto|].
    intros q k' [[-> [= <- <-]]|[_ Hq]]%Hin; [congruence|]. by eapply Hn.
Qed.

Lemma winv_deregister w p k f b fl :
  winv w -> w_procs w !! p = Some (Deregistering k f b) -> w_flights w !! f = Some fl -> winv (deregister w p k f b fl).
Proof.
  intros Hw Hp Hfl. unfold deregister. set (x' := if b then _ else _). assert (leads x' = None) as Hl by (by unfold x'; destruct b).
  destruct Hw as [H1 H2 H3 H4 H5 H6]. destruct (H2 _ _ _ _ Hp eq_refl) as (Hk0 & fl0 & Hfl0 & Hd0).
  assert (fl0 = fl) as -> by congruence. clear Hfl0. cbn in Hd0.
  assert (forall q y k' f', <[p := x']> (w_procs w) !! q = Some y -> leads y = Some (k', f') ->
    w_procs w !! q = Some y /\ q <> p /\ k' <> k /\ f' <> f) as Hother.
  { intros q y k' f' [[<- <-]|[Hne Hq]]%lookup_insert_Some Hy; [congruence|]. destruct (H2 _ _ _ _ Hq Hy) as (Hk & _).
    assert (f' <> f) as Hf'. { intros ->. destruct Hne. by eapply (H3 _ _ (Deregistering k f b) y). }
    repeat split; [done|done| |done]. intros ->. congruence. }
  split; cbn.
  - intros k' f' [Hne Hk]%lookup_delete_Some. destruct (H1 _ _ Hk) as (q & y & Hq & Hy). exists q, y.
    rewrite lookup_insert_ne; [done|]. intros <-. rewrite Hp in Hq. injection Hq as <-. injection Hy as <- <-. done.
  - intros q y k' f' Hq Hy. destruct (Hother _ _ _ _ Hq Hy) as (Hq' & _ & Hne & _). destruct (H2 _ _ _ _ Hq' Hy) as (Hk & Hfl').
    by rewrite lookup_delete_ne.
  - intros q q' y y' k1 k2 f' Hq Hq' Hy Hy'. destruct (Hother _ _ _ _ Hq Hy) as (? & _), (Hother _ _ _ _ Hq' Hy') as (? & _).
    by eapply (H3 _ _ y y').
  - intros q f' [[<- Hw]|[Hne Hq]]%lookup_insert_Some; [by destruct b|]. destruct (H4 _ _ Hq) as (fl1 & Hfl1 & Hd). exists fl1. split; [done|].
    intros Hdn. destruct (Hd Hdn) as (q' & y & k' & Hq' & Hy). exists q', y, k'. rewrite lookup_insert_ne; [done|].
    intros <-. rewrite Hp in Hq'. injection Hq' as <-. injection Hy as <- <-. congruence.
  - intros q f' r [[<- Hw]|[Hne Hq]]%lookup_insert_Some; [|by eapply H5]. unfold x' in Hw. destruct b; [done|]. injection Hw as <- <-. eauto.
  - split; [apply H6|]. intros f' Hf'. destruct (proj2 H6 f' Hf') as [Hs Hn]. split; [done|].
    intros q k' [[<- Hw]|[_ Hq]]%lookup_insert_Some; [unfold x' in Hw; by destruct b|]. by eapply Hn.
Qed.

Lemma winv_secondLook w p k f : winv w -> w_procs w !! p = Some (Leading k f) -> winv (secondLook w p k f).
Proof.
  intros Hw Hp. unfold secondLook. destruct (tc_Get _ _ _) as [v|]; [by eapply winv_leader|].
  destruct (wi_lead _ Hw _ _ _ _ Hp eq_refl) as (_ & fl & Hfl & Hd).
  assert (winv (goto (with_flight w f fl) p (Loading k f))) as Hw' by (by eapply winv_leader).
  assert (f ∉ w_calls w) as Hnew by (intros Hf; by destruct (proj2 (wi_calls _ Hw) f Hf) as [_ Hn]; eapply Hn).
  replace (with_flight w f fl) with w in Hw' by (destruct w; unfold with_flight; cbn in *; by rewrite insert_id).
  destruct Hw' as [H1 H2 H3 H4 H5 H6]. cbn in *. split; cbn; rewrite ?evictExpired_loads; eauto.
  split; [constructor; [done|apply H6]|]. intros f' [->|Hf']%elem_of_cons; [|by apply H6]. split; [eauto|].
  intros q k' Hq. apply lookup_insert_Some in Hq as [[<- [=]]|[Hne Hq]]. apply Hne. by eapply (wi_unique _ Hw _ _ _ _ _ _ f Hp Hq).
Qed.

Lemma winv_step w w' : winv w -> wstep w w' -> winv w'.
Proof.
  intros Hw Hs. destruct Hs as [p w' Hs|p k Hp| | | |].
  2:{ apply winv_quiet; [done| |done|done]. intros x Hx. congruence. }
  2:{ apply winv_env; [|done]. unfold AddWithTTL. destruct (tc_Set _ _ _ _ _). cbn. apply evictExpired_loads. }
  2-4: by apply winv_env.
  destruct Hs as [k Hp|k Hp|f fl Hp Hfl Hd|k f Hp|k f l Hp|k f b fl Hp Hfl|k f b fl Hp Hfl].
  - unfold look. destruct (tc_Get _ _ _); (apply winv_quiet; [done| |done|done]); intros x Hx; rewrite Hp in Hx; by injection Hx as <-.
  - by apply winv_register.
  - apply winv_quiet; [done| |done|eauto]. intros x Hx. rewrite Hp in Hx. by injection Hx as <-.
  - by apply winv_secondLook.
  - destruct (wi_lead _ Hw _ _ _ _ Hp eq_refl) as (_ & fl & Hfl & Hd). destruct l as [v ttl|e|]; cbn.
    + assert (winv (goto (with_flight w f (mkFlight false (Ok v))) p (Closing k f false))) as Hw' by (by eapply winv_leader).
      by apply (winv_env _ (w_now w) (set_data (w_cache w) (fst (tc_Set (w_now w) k v ttl (c_data (w_cache w)))))) in Hw'.
    + by eapply winv_leader.
    + assert (winv (goto (with_flight w f fl) p (Closing k f true))) as Hw' by (by eapply winv_leader).
      destruct w; unfold with_flight in Hw'; cbn in *. by rewrite insert_id in Hw'.
  - by eapply winv_leader.
  - by apply winv_deregister.
Qed.

Lemma winv_reachable w : reachable w -> winv w.
Proof. intros (now & d & Hr). eapply steps_invariant; [|apply winv_idle|exact Hr]. intros; by eapply winv_step. Qed.
End cache.
