(* ===== verification/SimpleCacheFacts.v ===== *)
(** * What the loading cache guarantees

    Loads are shared and complete under every interleaving, and the cache is the
    session cache the play tracker asks for. *)

From S2P Require Import Prelude Model PlayTracker SimpleCache.

Local Open Scope Z_scope.

Section flights.
Context {K V D E : Type} `{Countable K} `{TTLCache K V D}.
Implicit Types w : world (K := K) (V := V) (D := D) (E := E).

Definition finished (x : pc (K := K) (V := V) (E := E)) : bool :=
  match x with Returned _ _ | Panicked _ => true | _ => false end.

(** The steps a call still has at most. *)
Definition rank_pc (x : pc (K := K) (V := V) (E := E)) : nat :=
  match x with
  | Starting _ => 6 | Missed _ => 5 | Leading _ _ => 4 | Loading _ _ => 3 | Closing _ _ _ => 2
  | Waiting _ | Deregistering _ _ _ => 1
  | Returned _ _ | Panicked _ => 0
  end.
Definition rank w : nat := map_fold (fun _ x n => (rank_pc x + n)%nat) 0%nat (w_procs w).

Lemma rank_goto w p x x' :
  w_procs w !! p = Some x -> (rank (goto w p x') + rank_pc x = rank w + rank_pc x')%nat.
Proof.
  intros Hp. unfold rank. cbn.
  rewrite (map_fold_delete_L _ _ p x (w_procs w)) by (intros; lia || done).
  rewrite (map_fold_delete_L _ _ p x' (<[p := x']> (w_procs w))); [|intros; lia|by rewrite lookup_insert_eq].
  rewrite delete_insert_eq. lia.
Qed.

Lemma pstep_rank w p w' : pstep w p w' -> (rank w' < rank w)%nat.
Proof.
  intros Hs.
  assert (exists x x', w_procs w !! p = Some x /\ (rank_pc x' < rank_pc x)%nat /\ w_procs w' = <[p := x']> (w_procs w)) as
    (x & x' & Hx & Hlt & Hw').
  { destruct Hs as [k Hp|k Hp|f fl Hp Hfl Hd|k f Hp|k f l Hp|k f b fl Hp Hfl|k f b fl Hp Hfl];
      unfold look, join, secondLook, load, deregister; [destruct (tc_Get _ _ _)|destruct (c_loads _ !! _)| |destruct (tc_Get _ _ _)|destruct l| |];
      eexists _, _; (split; [exact Hp|]); (split; [|reflexivity]); cbn; try lia. destruct b; cbn; lia. }
  pose proof (rank_goto w p x x' Hx) as Hr. assert (rank w' = rank (goto w p x')) as -> by (unfold rank; by rewrite Hw'). lia.
Qed.

(** An unfinished call can move, or waits for a flight whose leader can. *)
Lemma progress w p x : winv w -> w_procs w !! p = Some x -> finished x = false -> exists q w', pstep w q w'.
Proof.
  assert (forall q y k f, winv w -> w_procs w !! q = Some y -> leads y = Some (k, f) -> exists w', pstep w q w') as Hlead.
  { intros q y k f Hw Hq Hy. destruct (wi_lead _ Hw _ _ _ _ Hq Hy) as (_ & fl & Hfl & _).
    destruct y as [| | |k' f'|k' f'|k' f' b|k' f' b| |]; try done; injection Hy as -> ->; eexists.
    - by apply step_secondLook.
    - by apply (step_load w q k f LoadPanic).
    - by eapply step_close.
    - by eapply step_deregister. }
  intros Hw Hp Hx. destruct (leads x) as [[k f]|] eqn:El; [destruct (Hlead _ _ _ _ Hw Hp El) as (w' & Hs); eauto|].
  destruct x as [k|k|f| | | | | |]; try done.
  - exists p. eexists. by apply step_lookup.
  - exists p. eexists. by apply step_join.
  - destruct (wi_wait _ Hw _ _ Hp) as (fl & Hfl & Hd). destruct (fl_done fl) eqn:Ed.
    + exists p. eexists. by eapply step_wait.
    + destruct (Hd eq_refl) as (q & y & k & Hq & Hy). destruct (Hlead _ _ _ _ Hw Hq Hy) as (w' & Hs). eauto.
Qed.

Definition all_finished w : Prop := forall p x, w_procs w !! p = Some x -> finished x = true.

(** Only steps of the calls under way. *)
Definition psteps : world (K := K) (V := V) (D := D) (E := E) -> world -> Prop := steps (fun w w' => exists p, pstep w p w').

Lemma unfinished w : all_finished w \/ exists p x, w_procs w !! p = Some x /\ finished x = false.
Proof.
  destruct (decide (map_Forall (fun _ x => finished x = true) (w_procs w))) as [Hd|Hn]; [by left|]. right.
  apply map_not_Forall in Hn as (p & x & Hp & Hx); [|apply _]. exists p, x. split; [done|]. by destruct (finished x).
Qed.

Lemma finished_no_flight w : winv w -> all_finished w -> c_loads (w_cache w) = ∅.
Proof.
  intros Hw Hf. apply map_empty. intros k. destruct (c_loads (w_cache w) !! k) as [f|] eqn:Ek; [|done].
  destruct (wi_loads _ Hw _ _ Ek) as (p & x & Hp & Hx). specialize (Hf _ _ Hp). by destruct x.
Qed.

Lemma completes w : winv w -> exists w', psteps w w' /\ all_finished w'.
Proof.
  intros Hw. remember (rank w) as n eqn:En. revert w Hw En. induction n as [n IH] using lt_wf_ind. intros w Hw ->.
  destruct (unfinished w) as [Hf|(p & x & Hp & Hx)]; [exists w; split; [constructor|done]|].
  destruct (progress w p x Hw Hp Hx) as (q & w1 & Hs).
  destruct (IH (rank w1) (pstep_rank _ _ _ Hs) w1) as (w' & Hr & Hf); [eapply winv_step; [done|by eapply wstep_proc]|done|].
  exists w'. split; [|done]. eapply steps_trans; [|exact Hr]. apply steps_one. eauto.
Qed.
End flights.

(** C9: concurrent misses of a key share one load.  In every reachable state at
    most one loader runs for a key, no flight calls its loader twice, every caller
    that joined a flight returns that flight's outcome, so that all of them return
    the same, and when no call is under way no flight stays registered. *)
Theorem single_flight {K V D E} `{Countable K} `{TTLCache K V D} (w : world (E := E)) :
  reachable w ->
  (forall k p p' f f', w_procs w !! p = Some (Loading k f) -> w_procs w !! p' = Some (Loading k f') -> p = p') /\
  NoDup (w_calls w) /\
  (forall p f r, w_procs w !! p = Some (Returned (Some f) r) -> exists fl, w_flights w !! f = Some fl /\ flight_result fl = r) /\
  (forall p p' f r r', w_procs w !! p = Some (Returned (Some f) r) -> w_procs w !! p' = Some (Returned (Some f) r') -> r = r') /\
  (all_finished w -> c_loads (w_cache w) = ∅).
Proof.
  intros Hw%winv_reachable. split; [|split; [apply (wi_calls _ Hw)|split; [|split]]].
  - intros k p p' f f' Hp Hp'. destruct (wi_lead _ Hw _ _ _ _ Hp eq_refl) as [Hk _], (wi_lead _ Hw _ _ _ _ Hp' eq_refl) as [Hk' _].
    assert (f' = f) as -> by congruence. by eapply (wi_unique _ Hw _ _ _ _ _ _ f Hp Hp').
  - intros p f r Hp. destruct (wi_returned _ Hw _ _ _ Hp) as (fl & Hfl & _ & Hr). eauto.
  - intros p p' f r r' Hp Hp'. destruct (wi_returned _ Hw _ _ _ Hp) as (fl & Hfl & _ & Hr).
    destruct (wi_returned _ Hw _ _ _ Hp') as (fl' & Hfl' & _ & Hr'). congruence.
  - by apply finished_no_flight.
Qed.

(** C21: no caller waits forever.  Every step of a call brings it closer to its
    end, and from every reachable state, even when a loader panics, the calls under
    way can be run until all have returned. *)
Theorem loads_complete {K V D E} `{Countable K} `{TTLCache K V D} (w : world (E := E)) :
  reachable w ->
  (forall p w', pstep w p w' -> (rank w' < rank w)%nat) /\
  (forall p x, w_procs w !! p = Some x -> finished x = false -> exists q w', pstep w q w') /\
  exists w', psteps w w' /\ all_finished w' /\ c_loads (w_cache w') = ∅.
Proof.
  intros Hr. pose proof (winv_reachable w Hr) as Hw. split; [intros; by eapply pstep_rank|]. split; [intros; by eapply progress|].
  destruct (completes w Hw) as (w' & Hs & Hf). exists w'. split; [done|]. split; [done|].
  apply finished_no_flight; [|done]. eapply steps_invariant; [|exact Hw|exact Hs].
  intros a b Ha (p & Hp). eapply winv_step; [done|by eapply wstep_proc].
Qed.

(** ** The session cache of the play tracker *)

(** What the library documents of a cache without a size limit: a stored item is
    found until it expires, other keys are untouched, and evicting expired items
    removes nothing that would be found. *)
Class TTLLaws (K V D : Type) `{TTLCache K V D} := {
  get_set_eq now k v ttl d : 0 < ttl -> tc_Get now k (fst (tc_Set now k v ttl d)) = Some v;
  get_set_ne now k k' v ttl d : k <> k' -> tc_Get now k' (fst (tc_Set now k v ttl d)) = tc_Get now k' d;
  get_delete_eq now k d : tc_Get now k (tc_Delete k d) = None;
  get_delete_ne now k k' d : k <> k' -> tc_Get now k' (tc_Delete k d) = tc_Get now k' d;
  get_expired now k d : tc_Get now k (tc_DeleteExpired now d) = tc_Get now k d;
  range_live now k v d : tc_Get now k d = Some v -> (k, v, false) ∈ tc_Range now d }.

(** The cache at one instant, as the tracker uses it: it ignores the error of
    storing and treats any error of [Get] as a miss. *)
Definition trackerCache {D} `{TTLCache string PlaybackSession D} (now : time)
  : PlayTracker.SimpleCache (simpleCache (K := string) (D := D)) := {|
  PlayTracker.Get k c := match SimpleCache.Get (E := string) now k c with Ok s => Some s | Err _ => None end;
  PlayTracker.AddWithTTL k s ttl c := fst (SimpleCache.AddWithTTL (E := string) now k s ttl c);
  PlayTracker.CacheRemove := SimpleCache.Remove;
  PlayTracker.Values := SimpleCache.Values now;
  PlayTracker.CacheLen := SimpleCache.Len |}.

Lemma get_evict {K V D E} `{Countable K} `{TTLLaws K V D} now k c :
  SimpleCache.Get (E := E) now k (evictExpired now c) = SimpleCache.Get now k c.
Proof.
  unfold SimpleCache.Get, evictExpired. destruct (c_evictionDeadline c) as [t|]; cbn; [destruct (t <? now); cbn|]; by rewrite ?get_expired.
Qed.

(** The cache is what the play tracker relies on: at every instant, a session
    stored with a positive time to live is found again, a removed one is not, other
    clients' sessions are untouched even when expired entries are evicted, and every
    session that is found is listed. *)
Theorem tracker_cache_laws {D} `{TTLLaws string PlaybackSession D} now :
  @SimpleCacheLaws (simpleCache (K := string) (D := D)) (trackerCache now).
Proof.
  assert (forall k k' s ttl (c : simpleCache (K := string) (D := D)), SimpleCache.Get (E := string) now k' (fst (SimpleCache.AddWithTTL (E := string) now k s ttl c)) =
    match tc_Get now k' (fst (tc_Set now k s ttl (c_data (evictExpired now c)))) with Some v => Ok v | None => Err ItemNotFound end) as Hadd.
  { intros k k' s ttl c. unfold SimpleCache.AddWithTTL, SimpleCache.Get. by destruct (tc_Set _ _ _ _ _). }
  split; cbn.
  - intros k s ttl c Ht. by rewrite Hadd, get_set_eq.
  - intros k k' s ttl c Hne. rewrite Hadd, get_set_ne by done. rewrite <- (get_evict now k' c). done.
  - intros k c. unfold SimpleCache.Get. cbn. by rewrite get_delete_eq.
  - intros k k' c Hne. unfold SimpleCache.Get. cbn. by rewrite get_delete_ne.
  - intros k s c. unfold SimpleCache.Get. destruct (tc_Get now k (c_data c)) as [v|] eqn:E; [|done]. intros [= ->].
    unfold SimpleCache.Values, liveItems. apply list_elem_of_fmap. exists (k, s). split; [done|]. apply list_elem_of_omap.
    exists (k, s, false). split; [by apply range_live|done].
Qed.

(** ** Examples *)

(** A cache as a map with expiry times. *)
#[local] Instance mapTTL {K V} `{Countable K} : TTLCache K V (gmap K (V * time)) := {
  tc_Get now k d := match d !! k with Some (v, t) => if now <? t then Some v else None | None => None end;
  tc_Set now k v ttl d := (<[k := (v, now + ttl)]> d, true);
  tc_Delete k d := delete k d;
  tc_DeleteExpired now d := filter (fun kv => now < kv.2.2) d;
  tc_Range now d := (fun kv => (kv.1, kv.2.1, negb (now <? kv.2.2))) <$> map_to_list d;
  tc_Len d := Z.of_nat (size d) }.

#[local] Instance mapTTL_laws {K V} `{Countable K} : TTLLaws K V (gmap K (V * time)).
Proof.
  split; cbn.
  - intros now k v ttl d Ht. rewrite lookup_insert_eq. by rewrite (proj2 (Z.ltb_lt _ _)) by lia.
  - intros now k k' v ttl d Hne. by rewrite lookup_insert_ne.
  - intros now k d. by rewrite lookup_delete_eq.
  - intros now k k' d Hne. by rewrite lookup_delete_ne.
  - intros now k d. destruct (d !! k) as [[v t]|] eqn:E.
    + destruct (Z.ltb_spec now t) as [Hlt|Hge].
      * rewrite (map_lookup_filter_Some_2 (fun kv => now < kv.2.2) d k (v, t)) by done. by rewrite (proj2 (Z.ltb_lt _ _)).
      * rewrite map_lookup_filter_None_2; [done|]. right. intros x Hx. pose proof (eq_trans (eq_sym E) Hx) as Hxe. injection Hxe as <-. cbn. lia.
    + rewrite map_lookup_filter_None_2; [done|]. by left.
  - intros now k v d Hg. destruct (d !! k) as [[v' t]|] eqn:E; [|done]. destruct (now <? t) eqn:Et; [|done]. injection Hg as ->.
    apply list_elem_of_fmap. exists (k, (v, t)). cbn. rewrite Et. split; [done|]. by apply elem_of_map_to_list.
Qed.

Lemma tracker_cache_laws_witness :
  exists c : simpleCache (K := string) (D := gmap string (PlaybackSession * time)),
    @SimpleCacheLaws _ (trackerCache (D := gmap string (PlaybackSession * time)) 0) /\ SimpleCache.Len c = 0.
Proof. exists (mkCache ∅ None ∅). split; [apply tracker_cache_laws|reflexivity]. Defined.

(** Two callers of one key: the second waits, and the loader runs once. *)
Definition w0 : world (K := string) (V := Z) (D := gmap string (Z * time)) (E := string) := idle 0 ∅.
Definition w_two := goto (goto w0 1 (Starting "k")) 2 (Starting "k").
Definition w_missed := look (look w_two 1 "k") 2 "k".
Definition w_joined := join (join w_missed 1 "k") 2 "k".
Definition w_loading := secondLook w_joined 1 "k" 0.
Definition w_loaded := load w_loading 1 "k" 0 (LoadOk 7 60).

Lemma w_loading_reachable : reachable w_loading.
Proof.
  exists 0, ∅. fold w0.
  eapply steps_snoc; [|eapply wstep_proc; apply (step_secondLook w_joined 1 "k" 0); reflexivity].
  eapply steps_snoc; [|eapply wstep_proc; apply (step_join (join w_missed 1 "k") 2 "k"); reflexivity].
  eapply steps_snoc; [|eapply wstep_proc; apply (step_join w_missed 1 "k"); reflexivity].
  eapply steps_snoc; [|eapply wstep_proc; apply (step_lookup (look w_two 1 "k") 2 "k"); reflexivity].
  eapply steps_snoc; [|eapply wstep_proc; apply (step_lookup w_two 1 "k"); reflexivity].
  eapply steps_snoc; [|apply (wstep_call (goto w0 1 (Starting "k")) 2 "k"); reflexivity].
  eapply steps_snoc; [apply steps_refl|]. apply (wstep_call w0 1 "k"). reflexivity.
Qed.

Lemma w_loaded_reachable : reachable w_loaded.
Proof.
  destruct w_loading_reachable as (now & d & Hr). exists now, d. eapply steps_snoc; [exact Hr|].
  eapply wstep_proc. apply (step_load w_loading 1 "k" 0 (LoadOk 7 60)). reflexivity.
Qed.

Lemma single_flight_witness :
  w_procs w_loaded !! 2%nat = Some (Waiting 0) /\ w_calls w_loaded = [0%nat] /\ NoDup (w_calls w_loaded).
Proof.
  split; [reflexivity|]. split; [reflexivity|]. apply (single_flight w_loaded w_loaded_reachable).
Defined.

Lemma loads_complete_witness :
  w_procs w_loading !! 1%nat = Some (Loading "k" 0) /\ exists w', psteps w_loading w' /\ all_finished w' /\ c_loads (w_cache w') = ∅.
Proof. split; [reflexivity|]. apply (loads_complete w_loading w_loading_reachable). Defined.
