(* ===== verification/PlaylistDb.v ===== *)
(** * Playlists in the database

    The tables behind playlists and the statements the repositories run on them:
    [persistence/playlist_repository.go] and [playlist_track_repository.go].

    The rows of [playlist_tracks] are keyed by the columns of its unique index,
    playlist and position.  A statement that moves rows visits them one by one, in
    an order the engine chooses ([visit]), and is undone when a row would take a
    position that is occupied.  Any statement may fail: [d_faults] says which of
    the coming ones do. *)

From stdpp Require Import sorting.
From S2P Require Import Prelude GoStrings Model Criteria.

Local Open Scope Z_scope.

Inductive perr :=
| SqlError (e : string)
| UniqueViolation
| ErrNotFound
| ErrNotAuthorized
| ErrPlaylistNotEditable
| ErrIDRequired
| NilRepository.

Record Counters := mkCounters { k_SongCount : Z; k_Duration : float32; k_Size : Z }.

(** The columns of [model.Playlist] the repositories and the service use;
    [p_Tracks] holds the media file ids of [Tracks], which is not a column. *)
Record Playlist := mkPlaylist {
  p_ID : string; p_Name : string; p_Comment : string; p_OwnerID : string; p_Public : bool; p_Path : string; p_Sync : bool;
  p_CreatedAt : time; p_UpdatedAt : time; p_Rules : option Criteria; p_EvaluatedAt : option time; p_Counters : Counters;
  p_Tracks : list string }.

Definition IsSmartPlaylist (p : Playlist) : bool :=
  match p_Rules p with Some c => match c_Expression c with Some _ => true | None => false end | None => false end.
Definition TracksEditable (p : Playlist) : bool := negb (IsSmartPlaylist p) && negb (p_Sync p).

Record User := mkUser { u_ID : string; u_IsAdmin : bool }.

(** Which ids a query for albums, artists or discs asks for. *)
Inductive media_cond := ByAlbums (ids : list string) | ByArtists (ids : list string) | ByDiscs (discs : list (string * string * Z)).

(** The engine and the rest of the schema: the order in which a statement visits
    rows, the totals over a list of media files, the media files the user can
    read, the media files of a condition, and the integer a text is compared as. *)
Class PlaylistEnv := {
  visit : list Z -> list Z;
  Stats : list string -> Counters;
  accessible : string -> bool;
  MediaIDs : media_cond -> list string;
  text_as_id : string -> option Z }.

Record db := mkDb {
  d_playlists : gmap string Playlist; d_tracks : gmap (string * Z) string; d_artwork : list string;
  d_now : time; d_faults : list (option string) }.

Definition set_tracks (t : gmap (string * Z) string) (d : db) : db :=
  mkDb (d_playlists d) t (d_artwork d) (d_now d) (d_faults d).
Definition set_playlists (p : gmap string Playlist) (d : db) : db :=
  mkDb p (d_tracks d) (d_artwork d) (d_now d) (d_faults d).
Definition set_artwork (q : list string) (d : db) : db :=
  mkDb (d_playlists d) (d_tracks d) q (d_now d) (d_faults d).
Definition set_faults (f : list (option string)) (d : db) : db :=
  mkDb (d_playlists d) (d_tracks d) (d_artwork d) (d_now d) f.

(** ** Statements *)

Definition M (A : Type) : Type := db -> db * result perr A.
Definition ret {A} (a : A) : M A := fun d => (d, Ok a).
Definition fail {A} (e : perr) : M A := fun d => (d, Err e).
Definition bind {A B} (m : M A) (k : A -> M B) : M B :=
  fun d => let '(d, r) := m d in match r with Ok a => k a d | Err e => (d, Err e) end.

Declare Scope db_scope.
Delimit Scope db_scope with db.
Notation "'let*' x := m 'in' k" := (bind m (fun x => k)) (at level 10, x name, m at level 100, k at level 200) : db_scope.
Notation "m ;; k" := (bind m (fun _ => k)) (at level 100, k at level 200, right associativity) : db_scope.
Local Open Scope db_scope.

(** A statement either fails before it does anything, or runs; a statement that
    violates a constraint is undone. *)
Definition exec {A} (f : db -> result perr (db * A)) : M A :=
  fun d =>
    match d_faults d with
    | Some e :: faults => (set_faults faults d, Err (SqlError e))
    | faults => let d := set_faults (tail faults) d in
                match f d with Ok (d', a) => (d', Ok a) | Err e => (d, Err e) end
    end.

(** The error is logged and dropped. *)
Definition ignore {A} (m : M A) : M unit := fun d => let '(d, _) := m d in (d, Ok ()).

(** The positions of a playlist, in order, and its media files. *)
Definition positions (pid : string) (t : gmap (string * Z) string) : list Z :=
  merge_sort Z.le (omap (fun '((p, i), _) => if String.eqb p pid then Some i else None) (map_to_list t)).
Definition contents (pid : string) (t : gmap (string * Z) string) : list string :=
  omap (fun i => t !! (pid, i)) (positions pid t).

(** One row of an [UPDATE ... SET id = f(id)]. *)
Definition move_row (pid : string) (f : Z -> Z) (i : Z) (t : gmap (string * Z) string) : option (gmap (string * Z) string) :=
  match t !! (pid, i) with
  | None => Some t
  | Some mf =>
      let t' := delete (pid, i) t in
      match t' !! (pid, f i) with Some _ => None | None => Some (<[(pid, f i) := mf]> t') end
  end.
Fixpoint move_rows (pid : string) (f : Z -> Z) (ids : list Z) (t : gmap (string * Z) string) : option (gmap (string * Z) string) :=
  match ids with
  | [] => Some t
  | i :: ids => t ← move_row pid f i t; move_rows pid f ids t
  end.

Fixpoint put_rows (pid : string) (rows : list (Z * string)) (t : gmap (string * Z) string) : option (gmap (string * Z) string) :=
  match rows with
  | [] => Some t
  | (i, mf) :: rows => match t !! (pid, i) with Some _ => None | None => put_rows pid rows (<[(pid, i) := mf]> t) end
  end.

Section repository.
Context `{PlaylistEnv}.

(** [UPDATE playlist_tracks SET id = f(id) WHERE playlist_id = pid AND cond(id)];
    the number of rows. *)
Definition updateIDs (pid : string) (cond : Z -> bool) (f : Z -> Z) : M Z :=
  exec (fun d =>
    let ids := visit (List.filter cond (positions pid (d_tracks d))) in
    match move_rows pid f ids (d_tracks d) with
    | Some t => Ok (set_tracks t d, Z.of_nat (length ids))
    | None => Err UniqueViolation
    end).

Definition deleteIDs (pid : string) (cond : Z -> bool) : M unit :=
  exec (fun d => Ok (set_tracks (filter (fun '((p, i), _) => ~ (p = pid /\ cond i = true)) (d_tracks d)) d, ())).

Definition insertRows (pid : string) (rows : list (Z * string)) : M unit :=
  exec (fun d => match put_rows pid rows (d_tracks d) with
                 | Some t => Ok (set_tracks t d, ())
                 | None => Err UniqueViolation
                 end).

(** [max(id)] read as a nullable 32-bit integer: 0 when there are no rows. *)
Definition maxID (pid : string) : M Z :=
  exec (fun d => let m := default 0 (list.last (positions pid (d_tracks d))) in
                 if m <? 2 ^ 31 then Ok (d, m) else Err (SqlError "value out of range")).

(** ** The playlist repository *)

Definition with_counters (c : Counters) (now : time) (p : Playlist) : Playlist :=
  mkPlaylist (p_ID p) (p_Name p) (p_Comment p) (p_OwnerID p) (p_Public p) (p_Path p) (p_Sync p) (p_CreatedAt p) now
    (p_Rules p) (p_EvaluatedAt p) c (p_Tracks p).

(** The totals are read, then written with the time; the pair is what the caller's
    copy of the playlist gets. *)
Definition refreshCounters (pid : string) : M (Counters * time) :=
  let* res := exec (fun d => Ok (d, Stats (contents pid (d_tracks d)))) in
  exec (fun d => Ok (set_playlists (alter (with_counters res (d_now d)) pid (d_playlists d)) d, (res, d_now d))).

Definition enqueueCoverRebuild (pid : string) : M unit :=
  ignore (exec (fun d => Ok (set_artwork (d_artwork d ++ [pid]) d, ()))).

(** [ROW_NUMBER() OVER (ORDER BY id DESC)] of the row at position [i]. *)
Definition row_number (pid : string) (t : gmap (string * Z) string) (i : Z) : Z :=
  Z.of_nat (length (List.filter (fun j => i <=? j) (positions pid t))).

Definition renumber (pid : string) : M unit :=
  let* _n := updateIDs pid (fun i => 0 <? i) (fun i => - i) in
  let* _m := (fun d => updateIDs pid (fun _ => true) (row_number pid (d_tracks d)) d) in
  enqueueCoverRebuild pid ;;
  let* _c := refreshCounters pid in
  ret ().

(** [slice.Unique] and [slices.Chunk]. *)
Fixpoint Unique_loop (l : list string) (seen : gset string) : list string :=
  match l with
  | [] => []
  | x :: l => if bool_decide (x ∈ seen) then Unique_loop l seen else x :: Unique_loop l ({[x]} ∪ seen)
  end.
Definition Unique (l : list string) : list string := Unique_loop l ∅.

Fixpoint chunks {A} (fuel n : nat) (l : list A) : list (list A) :=
  match fuel with
  | O => []
  | S fuel => match l with [] => [] | _ => take n l :: chunks fuel n (drop n l) end
  end.

Fixpoint found_in (cs : list (list string)) : M (gset string) :=
  match cs with
  | [] => ret ∅
  | c :: cs =>
      let* found := exec (fun d => Ok (d, List.filter accessible c)) in
      let* rest := found_in cs in
      ret (list_to_set found ∪ rest)
  end.

Definition keepAccessible (mediaFileIds : list string) : M (list string) :=
  let* ok := found_in (chunks (length mediaFileIds) 200 (Unique mediaFileIds)) in
  ret (List.filter (fun id => bool_decide (id ∈ ok)) mediaFileIds).

(** The rows of one chunk, numbered from [pos]. *)
Definition number_from (pos : Z) (ids : list string) : list (Z * string) :=
  imap (fun i id => (pos + Z.of_nat i, id)) ids.

Fixpoint insert_chunks (pid : string) (pos : Z) (cs : list (list string)) : M unit :=
  match cs with
  | [] => ret ()
  | c :: cs => insertRows pid (number_from pos c) ;; insert_chunks pid (pos + Z.of_nat (length c)) cs
  end.

Definition addTracks (pid : string) (startingPos : Z) (mediaFileIds : list string) : M Z :=
  let* ids := keepAccessible mediaFileIds in
  insert_chunks pid startingPos (chunks (length ids) 200 ids) ;;
  enqueueCoverRebuild pid ;;
  let* _c := refreshCounters pid in
  ret (Z.of_nat (length ids)).

Definition updatePlaylist (pid : string) (mediaFileIds : list string) : M Z :=
  deleteIDs pid (fun _ => true) ;;
  addTracks pid 1 mediaFileIds.

(** [userFilter]. *)
Definition visible (u : User) (p : Playlist) : bool := u_IsAdmin u || p_Public p || String.eqb (p_OwnerID p) (u_ID u).

Definition GetPlaylist (u : User) (id : string) : M Playlist :=
  let* found := exec (fun d => Ok (d, d_playlists d !! id)) in
  match found with
  | Some p => if visible u p then ret p else fail ErrNotFound
  | None => fail ErrNotFound
  end.

(** [put] of the base repository, with the columns of [PostMapArgs]: the counters
    of a smart playlist and the rules of another one are left as they are, and the
    creation time always is. *)
Definition written (p old : Playlist) : Playlist :=
  mkPlaylist (p_ID p) (p_Name p) (p_Comment p) (p_OwnerID p) (p_Public p) (p_Path p) (p_Sync p) (p_CreatedAt old) (p_UpdatedAt p)
    (if IsSmartPlaylist p then p_Rules p else p_Rules old) (p_EvaluatedAt p)
    (if IsSmartPlaylist p then p_Counters old else p_Counters p) [].
Definition inserted (p : Playlist) (id : string) : Playlist :=
  mkPlaylist id (p_Name p) (p_Comment p) (p_OwnerID p) (p_Public p) (p_Path p) (p_Sync p) (p_CreatedAt p) (p_UpdatedAt p)
    (if IsSmartPlaylist p then p_Rules p else None) (p_EvaluatedAt p)
    (if IsSmartPlaylist p then mkCounters 0 0 0 else p_Counters p) [].

Definition insertPlaylist (id : string) (p : Playlist) : M string :=
  exec (fun d => match d_playlists d !! id with
                 | Some _ => Err UniqueViolation
                 | None => Ok (set_playlists (<[id := inserted p id]> (d_playlists d)) d, id)
                 end).

(** The row is updated; when there is none it is inserted. *)
Definition upsertPlaylist (id : string) (write : Playlist -> Playlist) (p : Playlist) : M string :=
  let* updated := exec (fun d => match d_playlists d !! id with
                                 | Some old => Ok (set_playlists (<[id := write old]> (d_playlists d)) d, true)
                                 | None => Ok (d, false)
                                 end) in
  if (updated : bool) then ret id else insertPlaylist id p.

(** [newID] is [id.NewRandom()]. *)
Definition putRow (newID : string) (p : Playlist) : M string :=
  if String.eqb (p_ID p) "" then insertPlaylist newID p else upsertPlaylist (p_ID p) (written p) p.

Definition stamped (p : Playlist) (isNew : bool) (now : time) : Playlist :=
  mkPlaylist (p_ID p) (p_Name p) (p_Comment p) (p_OwnerID p) (p_Public p) (p_Path p) (p_Sync p)
    (if isNew then now else p_CreatedAt p) now (p_Rules p) (p_EvaluatedAt p) (p_Counters p) (p_Tracks p).

(** [Put] without columns. *)
Definition Put (newID : string) (p : Playlist) : M string :=
  let isNew := String.eqb (p_ID p) "" in
  let* now := (fun d => (d, Ok (d_now d))) in
  let* id := putRow newID (stamped p isNew now) in
  if IsSmartPlaylist p then ret id
  else match p_Tracks p with
       | _ :: _ => let* _n := updatePlaylist id (p_Tracks p) in ret id
       | [] => (if isNew then enqueueCoverRebuild id else ret ()) ;; let* _c := refreshCounters id in ret id
       end.

(** [Put] with columns: only the columns named are written. *)
Definition written_cols (cols : list string) (p old : Playlist) : Playlist :=
  let has c := bool_decide (c ∈ cols) in
  mkPlaylist (p_ID old) (p_Name old) (p_Comment old) (p_OwnerID old) (if has "public" then p_Public p else p_Public old) (p_Path old)
    (if has "sync" then p_Sync p else p_Sync old) (p_CreatedAt old) (p_UpdatedAt old) (p_Rules old) (p_EvaluatedAt old) (p_Counters old) (p_Tracks old).
Definition PutCols (p : Playlist) (cols : list string) : M unit :=
  if String.eqb (p_ID p) "" then fail ErrIDRequired
  else let* _id := upsertPlaylist (p_ID p) (written_cols cols p) p in ret ().

(** [Delete]: the rows the user can see, and by the foreign key their tracks. *)
Definition DeletePlaylist (u : User) (id : string) : M unit :=
  exec (fun d => match d_playlists d !! id with
                 | Some p => if visible u p
                             then Ok (mkDb (delete id (d_playlists d)) (filter (fun '((p, _), _) => p <> id) (d_tracks d))
                                        (d_artwork d) (d_now d) (d_faults d), ())
                             else Ok (d, ())
                 | None => Ok (d, ())
                 end).

(** [removeOrphans]: the playlists with rows whose media file is gone, as they are
    grouped, are cleaned one by one. *)
Section orphans.
Context (in_library : string -> bool) (grouped : list string -> list string).

Definition orphaned (d : db) : list string :=
  grouped (List.filter (fun pid => existsb (fun mf => negb (in_library mf)) (contents pid (d_tracks d))) (fst <$> map_to_list (d_playlists d))).

Definition deleteOrphans (pid : string) : M Z :=
  exec (fun d =>
    let t := filter (fun '((p, _), mf) => ~ (p = pid /\ in_library mf = false)) (d_tracks d) in
    Ok (set_tracks t d, Z.of_nat (size (d_tracks d)) - Z.of_nat (size t))).

Fixpoint clean_each (pids : list string) : M unit :=
  match pids with
  | [] => ret ()
  | pid :: pids =>
      let* n := deleteOrphans pid in
      if n =? 0 then fail (SqlError "deleting orphan tracks")
      else renumber pid ;; clean_each pids
  end.

Definition removeOrphans : M unit :=
  let* pids := exec (fun d => Ok (d, orphaned d)) in clean_each pids.
End orphans.

(** ** The track repository *)

Definition wrap32 (z : Z) : Z := (z + 2 ^ 31) mod 2 ^ 32 - 2 ^ 31.

Definition AddToPlaylist (pid : string) (mediaFileIds : list string) : M Z :=
  match mediaFileIds with
  | [] => ret 0
  | _ => let* last := maxID pid in addTracks pid (wrap32 (last + 1)) mediaFileIds
  end.

Definition Insert (pid : string) (mediaFileIds : list string) (pos : Z) : M Z :=
  match mediaFileIds with
  | [] => ret 0
  | _ =>
      let pos := Z.max pos 1 in
      let n := Z.of_nat (length mediaFileIds) in
      let* _s := updateIDs pid (fun i => pos <=? i) (fun i => - (i + n)) in
      let* res := updateIDs pid (fun i => i <? 0) (fun i => - i) in
      if res =? 0 then AddToPlaylist pid mediaFileIds
      else let* count := addTracks pid pos mediaFileIds in
           if count =? n then ret count
           else renumber pid ;; ret count
  end.

Definition addMediaFileIds (pid : string) (cond : media_cond) : M Z :=
  let* ids := exec (fun d => Ok (d, MediaIDs cond)) in AddToPlaylist pid ids.
Definition AddAlbums (pid : string) (albumIds : list string) : M Z := addMediaFileIds pid (ByAlbums albumIds).
Definition AddArtists (pid : string) (artistIds : list string) : M Z := addMediaFileIds pid (ByArtists artistIds).
Definition AddDiscs (pid : string) (discs : list (string * string * Z)) : M Z :=
  match discs with [] => ret 0 | _ => addMediaFileIds pid (ByDiscs discs) end.

Definition names_position (ids : list string) (i : Z) : bool :=
  existsb (fun s => match text_as_id s with Some z => z =? i | None => false end) ids.

Fixpoint delete_chunks (pid : string) (cs : list (list string)) : M unit :=
  match cs with
  | [] => ret ()
  | c :: cs => deleteIDs pid (names_position c) ;; delete_chunks pid cs
  end.

Definition deleteChunkSize : nat := 200.

Definition DeleteFromPlaylist (pid : string) (ids : list string) : M unit :=
  delete_chunks pid (chunks (length ids) deleteChunkSize ids) ;; renumber pid.

Definition DeleteAll (pid : string) : M unit :=
  deleteIDs pid (fun _ => true) ;; renumber pid.

Definition sentinel : Z := -999999.

Definition Reorder (pid : string) (pos newPos : Z) : M unit :=
  let* last := maxID pid in
  if (pos <? 1) || (last <? pos) then fail ErrNotFound
  else
    let newPos := Z.min (Z.max newPos 1) last in
    if pos =? newPos then ret ()
    else
      updateIDs pid (fun i => i =? pos) (fun _ => sentinel) ;;
      (if pos <? newPos then updateIDs pid (fun i => (pos <? i) && (i <=? newPos)) (fun i => - (i - 1))
       else updateIDs pid (fun i => (newPos <=? i) && (i <? pos)) (fun i => - (i + 1))) ;;
      updateIDs pid (fun i => (i <? 0) && negb (i =? sentinel)) (fun i => - i) ;;
      updateIDs pid (fun i => i =? sentinel) (fun _ => newPos) ;;
      ret ().

End repository.
