(* ===== verification/PlaylistTracks.v ===== *)
(** * The rows of a playlist are a list

    The statements of the track repository move rows between positions, one by
    one and in any order, under a unique index.  Here they are shown to implement
    the plain operations on lists. *)

From stdpp Require Import sorting.
From S2P Require Import Prelude GoStrings Model Criteria PlaylistDb.

Local Open Scope Z_scope.
Local Open Scope db_scope.

(** A statement visits every row it selects once. *)
Class PlaylistLaws `{PlaylistEnv} := { visit_perm l : visit l ≡ₚ l }.

(** ** Rows that hold a list *)

(** The rows of one playlist, and those of a list numbered from 1. *)
Definition rows (pid : string) (d : db) (i : Z) : option string := d_tracks d !! (pid, i).
Definition lrows (l : list string) (i : Z) : option string := if 1 <=? i then l !! Z.to_nat (i - 1) else None.
Definition holds (pid : string) (d : db) (l : list string) : Prop := forall i, rows pid d i = lrows l i.

Local Abbreviation len l := (Z.of_nat (length l)).

Lemma lrows_is_Some l i : is_Some (lrows l i) <-> 1 <= i <= len l.
Proof.
  unfold lrows. destruct (Z.leb_spec 1 i); [|split; [by intros []|lia]]. rewrite lookup_lt_is_Some. lia.
Qed.
Lemma lrows_None l i : lrows l i = None <-> i < 1 \/ len l < i.
Proof. rewrite eq_None_not_Some, lrows_is_Some. lia. Qed.

Lemma lrows_app l k i : lrows (l ++ k) i = if i <=? len l then lrows l i else lrows k (i - len l).
Proof.
  destruct (Z.leb_spec i (len l)); unfold lrows; destruct (Z.leb_spec 1 i); try done.
  - by rewrite lookup_app_l by lia.
  - rewrite lookup_app_r by lia. destruct (Z.leb_spec 1 (i - len l)); [|lia]. f_equal. lia.
  - destruct (Z.leb_spec 1 (i - len l)); [lia|done].
Qed.
Lemma lrows_take n l i : (n <= length l)%nat -> lrows (take n l) i = if i <=? Z.of_nat n then lrows l i else None.
Proof.
  intros Hn. unfold lrows. destruct (Z.leb_spec 1 i); [|by destruct (_ <=? _)].
  destruct (Z.leb_spec i (Z.of_nat n)); [by rewrite lookup_take_lt by lia|]. apply lookup_take_ge. lia.
Qed.
Lemma lrows_drop n l i : lrows (drop n l) i = if 1 <=? i then lrows l (i + Z.of_nat n) else None.
Proof.
  unfold lrows. destruct (Z.leb_spec 1 i); [|done]. rewrite lookup_drop. destruct (Z.leb_spec 1 (i + Z.of_nat n)); [|lia]. f_equal. lia.
Qed.

(** ** Positions *)

Lemma elem_positions pid t i : i ∈ positions pid t <-> is_Some (t !! (pid, i)).
Proof.
  unfold positions. rewrite merge_sort_Permutation, list_elem_of_omap. split.
  - intros ([[p j] mf] & Hin%elem_of_map_to_list & Hp). destruct (String.eqb_spec p pid) as [->|]; [|done]. injection Hp as ->. eauto.
  - intros [mf Hmf]. exists ((pid, i), mf). split; [by apply elem_of_map_to_list|]. by rewrite String.eqb_refl.
Qed.

Lemma NoDup_positions pid t : NoDup (positions pid t).
Proof.
  unfold positions. rewrite merge_sort_Permutation.
  pose proof (NoDup_fst_map_to_list t) as Hnd. induction (map_to_list t) as [|[[p i] mf] l IH]; [constructor|].
  cbn in Hnd. apply list.NoDup_cons in Hnd as [Hn Hnd]. cbn. destruct (String.eqb_spec p pid) as [->|]; [|by apply IH].
  apply list.NoDup_cons. split; [|by apply IH]. intros ([[p j] mf'] & Hin & Hp)%list_elem_of_omap. apply Hn.
  destruct (String.eqb_spec p pid) as [->|]; [|done]. injection Hp as ->. apply list_elem_of_fmap. by exists ((pid, i), mf').
Qed.

(** The positions are the only sorted list of the occupied ones. *)
Lemma positions_eq pid t l :
  StronglySorted Z.lt l -> (forall i, i ∈ l <-> is_Some (t !! (pid, i))) -> positions pid t = l.
Proof.
  intros Hs Hl. apply (StronglySorted_unique Z.le).
  - apply StronglySorted_merge_sort; apply _.
  - clear Hl. induction Hs as [|x l Hs IH Hf]; constructor; [done|]. eapply Forall_impl; [|exact Hf]. cbn. intros; lia.
  - apply NoDup_Permutation; [apply NoDup_positions| |intros i; by rewrite elem_positions, Hl].
    clear Hl. induction Hs as [|x l Hs IH Hf]; [constructor|]. apply list.NoDup_cons. split; [|done].
    intros Hx. rewrite Forall_forall in Hf. apply (Z.lt_irrefl x), Hf. by apply list_elem_of_In.
Qed.

(** ** Moving rows *)

(** The row at a position once the rows selected by [cond] went from [i] to [f i];
    [g] takes them back. *)
Definition moved (cond : Z -> bool) (f g : Z -> Z) (r : Z -> option string) (j : Z) : option string :=
  match (if cond (g j) && (f (g j) =? j) then r (g j) else None) with
  | Some mf => Some mf
  | None => if cond j then None else r j
  end.

Lemma move_rows_spec pid f ids t :
  NoDup ids -> (forall i, i ∈ ids -> is_Some (t !! (pid, i))) ->
  (forall i j, i ∈ ids -> j ∈ ids -> f i = f j -> i = j) -> (forall i, i ∈ ids -> t !! (pid, f i) = None) ->
  exists t', move_rows pid f ids t = Some t' /\
    (forall p j, p <> pid -> t' !! (p, j) = t !! (p, j)) /\
    (forall i, i ∈ ids -> t' !! (pid, f i) = t !! (pid, i)) /\
    (forall j, (forall i, i ∈ ids -> f i <> j) -> t' !! (pid, j) = if bool_decide (j ∈ ids) then None else t !! (pid, j)).
Proof.
  revert t. induction ids as [|i ids IH]; intros t Hnd Hocc Hinj Hfree.
  { exists t. split; [done|]. split; [done|]. split; [by intros i Hi%not_elem_of_nil|]. intros j _. by rewrite bool_decide_eq_false_2 by apply not_elem_of_nil. }
  apply list.NoDup_cons in Hnd as [Hi Hnd]. destruct (Hocc i) as [mf Hmf]; [left|].
  assert (f i <> i) as Hfi by (intros Heq; pose proof (Hfree i ltac:(left)) as Hn; rewrite Heq in Hn; congruence).
  cbn [move_rows]. unfold move_row. rewrite Hmf, lookup_delete_ne, (Hfree i) by (left || congruence). cbn [mbind option_bind].
  set (t1 := <[(pid, f i) := mf]> (delete (pid, i) t)).
  assert (forall j, j <> i -> j <> f i -> t1 !! (pid, j) = t !! (pid, j)) as Ht1.
  { intros j H1 H2. unfold t1. rewrite lookup_insert_ne, lookup_delete_ne by congruence. done. }
  assert (forall j, j ∈ ids -> j <> i /\ j <> f i /\ f j <> i /\ f j <> f i) as Hne.
  { intros j Hj. pose proof (Hfree i ltac:(left)) as Hfi0. destruct (Hocc j ltac:(by right)) as [x Hx].
    repeat split; [intros ->; done|intros ->; congruence| |].
    - intros Heq. pose proof (Hfree j ltac:(by right)) as Hn. rewrite Heq in Hn. congruence.
    - intros Heq. apply Hi. rewrite (Hinj i j) by (done || left || by right). done. }
  destruct (IH t1) as (t' & Hrun & Hother & Hto & Hstay).
  - done.
  - intros j Hj. destruct (Hne j Hj) as (? & ? & _). rewrite Ht1 by done. apply Hocc. by right.
  - intros j k Hj Hk. apply Hinj; by right.
  - intros j Hj. destruct (Hne j Hj) as (_ & _ & ? & ?). rewrite Ht1 by done. apply Hfree. by right.
  - exists t'. split; [done|]. split; [|split].
    + intros p j Hp. rewrite Hother by done. unfold t1. by rewrite lookup_insert_ne, lookup_delete_ne by congruence.
    + intros j [->|Hj]%elem_of_cons.
      * rewrite Hstay by (intros k Hk; by destruct (Hne k Hk) as (_ & _ & _ & ?)).
        rewrite bool_decide_eq_false_2 by (intros Hin; by destruct (Hne _ Hin) as (_ & ? & _)).
        unfold t1. by rewrite lookup_insert_eq.
      * rewrite Hto by done. destruct (Hne j Hj) as (? & ? & _). by apply Ht1.
    + intros j Hj. rewrite Hstay by (intros k Hk; apply Hj; by right). specialize (Hj i ltac:(left)).
      destruct (decide (j = i)) as [->|Hji].
      * rewrite bool_decide_eq_false_2, bool_decide_eq_true_2 by (done || left). unfold t1. by rewrite lookup_insert_ne, lookup_delete_eq by congruence.
      * rewrite (bool_decide_ext (j ∈ i :: ids) (j ∈ ids)) by (rewrite elem_of_cons; naive_solver). by rewrite Ht1.
Qed.

(** Compares positions, prunes the impossible cases, and compares what is read. *)
Ltac row_cases :=
  repeat match goal with
         | |- context [?a <=? ?b] => destruct (Z.leb_spec a b); cbn [andb orb negb]; try lia
         | |- context [?a <? ?b] => destruct (Z.ltb_spec a b); cbn [andb orb negb]; try lia
         | |- context [?a =? ?b] => destruct (Z.eqb_spec a b); cbn [andb orb negb]; try lia
         end.
Ltac row_eq l :=
  cbn [andb orb negb];
  repeat match goal with
         | |- context [match lrows l ?i with Some _ => _ | None => _ end] => destruct (lrows l i) eqn:?; cbn [andb orb negb]
         end;
  repeat match goal with
         | H : lrows l _ = Some _ |- _ => pose proof (proj1 (lrows_is_Some l _) (mk_is_Some _ _ H)); revert H
         | H : lrows l _ = None |- _ => apply lrows_None in H
         end; intros;
  try lia;
  first [ done | symmetry; apply lrows_None; lia | apply lrows_None; lia
        | match goal with H : lrows l _ = Some _ |- _ => rewrite <- H; f_equal; lia | |- lrows l _ = lrows l _ => f_equal; lia end ].

(** What no operation on a playlist changes. *)
Definition same_others (pid : string) (d d' : db) : Prop :=
  d_faults d' = d_faults d /\ d_now d' = d_now d /\ (forall p j, p <> pid -> rows p d' j = rows p d j) /\
  (forall p, p <> pid -> d_playlists d' !! p = d_playlists d !! p).

#[global] Instance same_others_preorder pid : PreOrder (same_others pid).
Proof.
  split; [by repeat split|]. intros d1 d2 d3 (H1 & H2 & H3 & H4) (G1 & G2 & G3 & G4).
  split; [congruence|]. split; [congruence|]. split; intros; [rewrite G3, H3|rewrite G4, H4]; done.
Qed.

Section repository.
Context `{PlaylistLaws} (pid : string).

Lemma exec_ok {A} (f : db -> result perr (db * A)) d d' a :
  d_faults d = [] -> f d = Ok (d', a) -> exec f d = (d', Ok a).
Proof.
  intros Hf Hr. unfold exec. rewrite Hf. cbn [tail].
  replace (set_faults [] d) with d by (destruct d; cbn in *; by subst). by rewrite Hr.
Qed.

Lemma moved_stays (f : Z -> Z) (ids : list Z) t' d cond j :
  (forall i, i ∈ ids <-> cond i = true /\ is_Some (rows pid d i)) ->
  (forall j, (forall i, i ∈ ids -> f i <> j) -> t' !! (pid, j) = if bool_decide (j ∈ ids) then None else d_tracks d !! (pid, j)) ->
  (forall i, i ∈ ids -> f i <> j) -> rows pid (set_tracks t' d) j = if cond j then None else rows pid d j.
Proof.
  intros Hids Hstay Hno. unfold rows. cbn. rewrite Hstay by done.
  case_bool_decide as Hj; [apply Hids in Hj as [-> _]; done|]. destruct (cond j) eqn:Ec; [|done].
  destruct (d_tracks d !! (pid, j)) eqn:Ej; [|done]. destruct Hj. apply Hids. unfold rows. rewrite Ej. eauto.
Qed.

(** A statement whose targets are free and distinct runs. *)
Lemma updateIDs_ok cond f g d :
  d_faults d = [] ->
  (forall i, cond i = true -> is_Some (rows pid d i) -> g (f i) = i /\ rows pid d (f i) = None) ->
  exists d' n, updateIDs pid cond f d = (d', Ok n) /\ same_others pid d d' /\ d_playlists d' = d_playlists d /\
    (forall j, rows pid d' j = moved cond f g (rows pid d) j) /\
    (n = 0 <-> forall i, cond i = true -> rows pid d i = None).
Proof.
  intros Hf Hinv. set (ids := visit (List.filter cond (positions pid (d_tracks d)))).
  assert (forall i, i ∈ ids <-> cond i = true /\ is_Some (rows pid d i)) as Hids.
  { intros i. unfold ids. rewrite visit_perm, list_elem_of_In, filter_In, <- list_elem_of_In, elem_positions. unfold rows. tauto. }
  destruct (move_rows_spec pid f ids (d_tracks d)) as (t' & Hrun & Hother & Hto & Hstay).
  - unfold ids. rewrite visit_perm. apply NoDup_ListNoDup, List.NoDup_filter, NoDup_ListNoDup, NoDup_positions.
  - intros i Hi. by apply Hids.
  - intros i j [Hi Hsi]%Hids [Hj Hsj]%Hids Heq. destruct (Hinv i), (Hinv j); try done. congruence.
  - intros i [Hi Hsi]%Hids. by apply Hinv.
  - exists (set_tracks t' d), (Z.of_nat (length ids)). split; [|split; [|split; [|split]]]; [|by repeat split|done| |].
    + unfold updateIDs. apply exec_ok; [done|]. fold ids. by rewrite Hrun.
    + intros j. unfold moved. destruct (cond (g j) && (f (g j) =? j)) eqn:Eg; [destruct (rows pid d (g j)) as [mf|] eqn:Er|].
      * apply andb_true_iff in Eg as [Hc Hj%Z.eqb_eq]. rewrite <- Er, <- Hj at 1. apply Hto, Hids. rewrite Er. eauto.
      * apply (moved_stays f ids t' d cond); [done..|]. intros i [Hi Hsi]%Hids <-. destruct (Hinv i) as [Hg _]; [done..|].
        rewrite Hg in Er. rewrite Er in Hsi. by destruct Hsi.
      * apply (moved_stays f ids t' d cond); [done..|]. intros i [Hi Hsi]%Hids <-. destruct (Hinv i) as [Hg _]; [done..|].
        rewrite Hg, Hi, Z.eqb_refl in Eg. done.
    + split.
      * intros Hz i Hc. destruct (rows pid d i) eqn:Ei; [|done]. exfalso.
        assert (i ∈ ids) as Hin by (apply Hids; rewrite Ei; eauto). destruct ids; [by apply not_elem_of_nil in Hin|cbn in Hz; lia].
      * intros Hno. destruct ids as [|i ids'] eqn:Ei; [done|]. destruct (proj1 (Hids i) ltac:(left)) as [Hc Hs].
        rewrite Hno in Hs by done. by destruct Hs.
Qed.
Lemma bind_ok {A B} (m : M A) (k : A -> M B) d d' a : m d = (d', Ok a) -> bind m k d = k a d'.
Proof. intros Hm. unfold bind. by rewrite Hm. Qed.

(** The same, from a description of the rows to another. *)
Lemma updateIDs_rows cond f g r r' d :
  d_faults d = [] -> (forall i, rows pid d i = r i) ->
  (forall i, cond i = true -> is_Some (r i) -> g (f i) = i /\ r (f i) = None) ->
  (forall j, moved cond f g r j = r' j) ->
  exists d' n, updateIDs pid cond f d = (d', Ok n) /\ same_others pid d d' /\ d_playlists d' = d_playlists d /\ d_faults d' = [] /\
    (forall j, rows pid d' j = r' j) /\ (n = 0 <-> forall i, cond i = true -> r i = None).
Proof.
  intros Hf Hr Hinv Hr'. destruct (updateIDs_ok cond f g d Hf) as (d' & n & Hrun & Hs & Hp & Hrows & Hn).
  { intros i. rewrite !Hr. apply Hinv. }
  exists d', n. split; [done|]. split; [done|]. split; [done|]. split; [destruct Hs as [-> _]; done|]. split.
  - intros j. rewrite Hrows, <- Hr'. unfold moved. by rewrite !Hr.
  - rewrite Hn. by setoid_rewrite Hr.
Qed.

(** ** Reading a list back *)

Lemma positions_holds d l : holds pid d l -> positions pid (d_tracks d) = (fun n => Z.of_nat n + 1) <$> seq 0 (length l).
Proof.
  intros Hl. apply positions_eq.
  - generalize 0%nat. induction (length l) as [|n IH]; intros s; cbn; constructor; [apply IH|].
    apply Forall_forall. intros x (m & -> & Hm)%list_elem_of_In%list_elem_of_fmap. apply elem_of_seq in Hm. lia.
  - intros i. fold (rows pid d i). rewrite Hl, lrows_is_Some, list_elem_of_fmap. split.
    + intros (n & -> & Hn%elem_of_seq). lia.
    + intros Hi. exists (Z.to_nat (i - 1)). rewrite elem_of_seq. lia.
Qed.

Lemma contents_holds d l : holds pid d l -> contents pid (d_tracks d) = l.
Proof.
  intros Hl. unfold contents. rewrite (positions_holds d l Hl).
  enough (forall k s, omap (fun i => d_tracks d !! (pid, i)) ((fun n => Z.of_nat n + 1) <$> seq s k) = take k (drop s l)) as ->.
  { by rewrite drop_0, firstn_all. }
  induction k as [|k IH]; intros s; [done|]. cbn [seq fmap list_fmap omap list_omap]. rewrite IH. fold (rows pid d (Z.of_nat s + 1)). rewrite Hl.
  unfold lrows. destruct (Z.leb_spec 1 (Z.of_nat s + 1)); [|lia]. replace (Z.to_nat _) with s by lia.
  destruct (l !! s) as [x|] eqn:Es.
  - by rewrite (drop_S l x s Es).
  - apply lookup_ge_None in Es. by rewrite !drop_ge, !take_nil by lia.
Qed.

Lemma maxID_holds d l : d_faults d = [] -> holds pid d l -> len l < 2 ^ 31 -> maxID pid d = (d, Ok (len l)).
Proof.
  intros Hf Hl Hn. unfold maxID. apply exec_ok; [done|]. rewrite (positions_holds d l Hl).
  replace (default 0 _) with (len l); [by destruct (Z.ltb_spec (len l) (2 ^ 31)); [|lia]|].
  rewrite last_lookup, list_lookup_fmap, length_fmap, length_seq. destruct (length l) as [|n]; [done|].
  cbn [pred]. rewrite lookup_seq_lt by lia. cbn. lia.
Qed.

(** ** Reordering *)

(** The entry at [pos] taken out and put back at [newPos]. *)
Definition reorder (l : list string) (pos newPos : Z) : list string :=
  let l' := take (Z.to_nat (pos - 1)) l ++ drop (Z.to_nat pos) l in
  take (Z.to_nat (newPos - 1)) l' ++ take 1 (drop (Z.to_nat (pos - 1)) l) ++ drop (Z.to_nat (newPos - 1)) l'.

Lemma lrows_reorder l pos newPos j :
  1 <= pos <= len l -> 1 <= newPos <= len l ->
  lrows (reorder l pos newPos) j =
    if j =? newPos then lrows l pos
    else if (pos <=? j) && (j <? newPos) then lrows l (j + 1)
    else if (newPos <? j) && (j <=? pos) then lrows l (j - 1)
    else lrows l j.
Proof.
  intros Hp Hn. unfold reorder.
  rewrite !lrows_app, !lrows_take, !lrows_drop, !lrows_app, !lrows_take, !lrows_drop; rewrite ?length_take, ?length_app, ?length_take, ?length_drop; try lia.
  replace (Z.of_nat (Z.to_nat (newPos - 1) `min` (Z.to_nat (pos - 1) `min` length l + (length l - Z.to_nat pos)))) with (newPos - 1) by lia.
  replace (Z.of_nat (1 `min` (length l - Z.to_nat (pos - 1)))) with 1 by lia.
  replace (Z.of_nat (Z.to_nat (pos - 1) `min` length l)) with (pos - 1) by lia.
  rewrite !Z2Nat.id by lia. change (Z.of_nat 1) with 1. row_cases; row_eq l.
Qed.

(** The three statements that follow the one that set the moved entry aside:
    the range [lo]..[hi] is shifted by [by_] and the entry put at [newPos]. *)
Definition shifted (l : list string) (pos lo hi by_ : Z) (j : Z) : option string :=
  if j =? sentinel then lrows l pos
  else if (lo + by_ <=? - j) && (- j <=? hi + by_) then lrows l (- j - by_)
  else if ((lo <=? j) && (j <=? hi)) || (j =? pos) then None
  else lrows l j.

Lemma shift_range l pos lo hi by_ newPos cond f d :
  d_faults d = [] -> 1 <= lo <= hi -> hi <= len l -> len l < 999999 -> (by_ = 1 /\ newPos = lo /\ pos = hi + 1 \/ by_ = -1 /\ newPos = hi /\ pos = lo - 1) ->
  1 <= pos <= len l ->
  (forall i, rows pid d i = if i =? sentinel then lrows l pos else if i =? pos then None else lrows l i) ->
  (forall i, cond i = (lo <=? i) && (i <=? hi)) -> (forall i, f i = - (i + by_)) ->
  exists d', (updateIDs pid cond f ;; updateIDs pid (fun i => (i <? 0) && negb (i =? sentinel)) (fun i => - i) ;;
              updateIDs pid (fun i => i =? sentinel) (fun _ => newPos) ;; ret ()) d = (d', Ok ()) /\
    same_others pid d d' /\ d_playlists d' = d_playlists d /\ holds pid d' (reorder l pos newPos).
Proof.
  intros Hf Hlo Hhi Hlen Hby Hpos Hr Hc Hfe. unfold sentinel in *.
  destruct (updateIDs_rows cond f (fun j => - j - by_) _ (shifted l pos lo hi by_) d Hf Hr) as (d1 & n1 & R1 & S1 & P1 & F1 & H1 & _).
  { intros i. rewrite Hc, Hfe, andb_true_iff, !Z.leb_le. intros Hi _. split; [lia|]. row_cases. apply lrows_None. lia. }
  { intros j. unfold moved, shifted, sentinel. rewrite !Hc, !Hfe. row_cases; row_eq l. }
  destruct (updateIDs_rows (fun i => (i <? 0) && negb (i =? sentinel)) (fun i => - i) (fun i => - i) _
              (fun j => if j =? sentinel then lrows l pos else if j =? newPos then None else lrows (reorder l pos newPos) j) d1 F1 H1)
    as (d2 & n2 & R2 & S2 & P2 & F2 & H2 & _).
  { intros i. unfold shifted, sentinel. rewrite andb_true_iff, Z.ltb_lt, negb_true_iff, Z.eqb_neq. intros [Hi Hns] Hsm. split; [lia|].
    revert Hsm. row_cases; rewrite ?lrows_is_Some; intros; row_eq l. }
  { intros j. unfold moved, shifted, sentinel. rewrite lrows_reorder by lia. row_cases; row_eq l. }
  destruct (updateIDs_rows (fun i => i =? sentinel) (fun _ => newPos) (fun _ => sentinel) _ (lrows (reorder l pos newPos)) d2 F2 H2)
    as (d3 & n3 & R3 & S3 & P3 & F3 & H4 & _).
  { intros i ->%Z.eqb_eq _. split; [done|]. unfold sentinel. by row_cases. }
  { intros j. unfold moved, sentinel. rewrite !lrows_reorder by lia. row_cases; row_eq l. }
  exists d3. rewrite (bind_ok _ _ _ _ _ R1), (bind_ok _ _ _ _ _ R2), (bind_ok _ _ _ _ _ R3).
  split; [done|]. split; [by rewrite S1, S2|]. split; [congruence|done].
Qed.

Lemma Reorder_outside l pos newPos d :
  d_faults d = [] -> holds pid d l -> len l < 2 ^ 31 -> pos < 1 \/ len l < pos -> Reorder pid pos newPos d = (d, Err ErrNotFound).
Proof.
  intros Hf Hl Hlen Hpos. unfold Reorder. rewrite (bind_ok _ _ _ _ _ (maxID_holds d l Hf Hl Hlen)). by row_cases.
Qed.

Lemma Reorder_ok l pos newPos d :
  d_faults d = [] -> holds pid d l -> len l < 999999 -> 1 <= pos <= len l ->
  exists d', Reorder pid pos newPos d = (d', Ok ()) /\ same_others pid d d' /\ d_playlists d' = d_playlists d /\
    holds pid d' (reorder l pos (Z.min (Z.max newPos 1) (len l))).
Proof.
  intros Hf Hl Hlen Hpos. unfold Reorder. rewrite (bind_ok _ _ _ _ _ (maxID_holds d l Hf Hl ltac:(lia))).
  destruct (Z.ltb_spec pos 1), (Z.ltb_spec (len l) pos); try lia. cbn [orb].
  set (n := Z.min (Z.max newPos 1) (len l)). assert (1 <= n <= len l) by lia. clearbody n.
  destruct (Z.eqb_spec pos n) as [<-|Hne].
  { exists d. split; [done|]. split; [done|]. split; [done|]. intros j. rewrite Hl, lrows_reorder by lia. row_cases; row_eq l. }
  destruct (updateIDs_rows (fun i => i =? pos) (fun _ => sentinel) (fun _ => pos) _
              (fun i => if i =? sentinel then lrows l pos else if i =? pos then None else lrows l i) d Hf Hl) as (d1 & n1 & R1 & S1 & P1 & F1 & H5 & _).
  { intros i ->%Z.eqb_eq _. split; [done|]. apply lrows_None. unfold sentinel. lia. }
  { intros j. unfold moved, sentinel. row_cases; row_eq l. }
  rewrite (bind_ok _ _ _ _ _ R1). destruct (Z.ltb_spec pos n).
  - destruct (shift_range l pos (pos + 1) n (-1) n (fun i => (pos <? i) && (i <=? n)) (fun i => - (i - 1)) d1) as (d' & -> & S2 & P2 & H7);
      try done || lia || (intros i; row_cases; done) || (intros; lia).
    exists d'. split; [done|]. split; [by rewrite S1|]. split; [congruence|done].
  - destruct (shift_range l pos n (pos - 1) 1 n (fun i => (n <=? i) && (i <? pos)) (fun i => - (i + 1)) d1) as (d' & -> & S2 & P2 & H7);
      try done || lia || (intros i; row_cases; done) || (intros; lia).
    exists d'. split; [done|]. split; [by rewrite S1|]. split; [congruence|done].
Qed.

(** ** Appending and inserting *)

Lemma put_rows_ok xs pos t :
  (forall i, pos <= i < pos + len xs -> t !! (pid, i) = None) ->
  exists t', put_rows pid (number_from pos xs) t = Some t' /\ (forall p j, p <> pid -> t' !! (p, j) = t !! (p, j)) /\
    forall j, t' !! (pid, j) = if (pos <=? j) && (j <? pos + len xs) then lrows xs (j - pos + 1) else t !! (pid, j).
Proof.
  revert pos t. induction xs as [|x xs IH]; intros pos t Hfree; cbn [length] in *.
  { exists t. split; [done|]. split; [done|]. intros j. by row_cases. }
  unfold number_from in *. cbn [imap put_rows]. rewrite Z.add_0_r, Hfree by lia.
  destruct (IH (pos + 1) (<[(pid, pos) := x]> t)) as (t' & Hrun & Hother & Ht').
  { intros i Hi. rewrite lookup_insert_ne by (intros [=]; lia). apply Hfree. lia. }
  exists t'. split; [rewrite <- Hrun; f_equal; apply imap_ext; intros; unfold compose; f_equal; lia|].
  split; [intros p j Hp; rewrite Hother by done; by rewrite lookup_insert_ne by congruence|].
  intros j. rewrite Ht'. destruct (Z.eqb_spec j pos) as [->|Hj].
  - row_cases. rewrite lookup_insert_eq. by rewrite Z.sub_diag.
  - rewrite lookup_insert_ne by congruence. row_cases; try done. change (x :: xs) with ([x] ++ xs). rewrite lrows_app. cbn [length]. row_cases. f_equal. lia.
Qed.

Lemma chunks_concat {A} fuel n (l : list A) : (0 < n)%nat -> (length l <= fuel)%nat -> concat (chunks fuel n l) = l.
Proof.
  intros Hn. revert l. induction fuel as [|fuel IH]; intros [|x l] Hl; try done; [cbn in Hl; lia|]. cbn [chunks concat].
  rewrite IH; [apply take_drop|]. rewrite length_drop. cbn [length] in *. lia.
Qed.

Lemma insert_chunks_ok cs pos d :
  d_faults d = [] -> (forall i, pos <= i < pos + len (concat cs) -> rows pid d i = None) ->
  exists d', insert_chunks pid pos cs d = (d', Ok ()) /\ same_others pid d d' /\ d_playlists d' = d_playlists d /\ d_faults d' = [] /\
    forall j, rows pid d' j = if (pos <=? j) && (j <? pos + len (concat cs)) then lrows (concat cs) (j - pos + 1) else rows pid d j.
Proof.
  revert pos d. induction cs as [|c cs IH]; intros pos d Hf Hfree.
  { exists d. split; [done|]. split; [done|]. split; [done|]. split; [done|]. intros j. cbn. by row_cases. }
  cbn [concat insert_chunks] in *. rewrite length_app, Nat2Z.inj_add in *.
  destruct (put_rows_ok c pos (d_tracks d)) as (t & Hrun & Hother & Ht); [intros i Hi; apply Hfree; lia|].
  assert (insertRows pid (number_from pos c) d = (set_tracks t d, Ok ())) as Hi by (apply exec_ok; [done|]; by rewrite Hrun).
  destruct (IH (pos + len c) (set_tracks t d)) as (d' & Hrun' & S' & P' & F' & Hd'); [done| |].
  { intros i Hi'. unfold rows. cbn. rewrite Ht. row_cases. apply Hfree. lia. }
  exists d'. rewrite (bind_ok _ _ _ _ _ Hi). split; [done|]. split; [rewrite <- S'; by repeat split|]. split; [done|]. split; [done|].
  intros j. rewrite Hd'. unfold rows. cbn. rewrite Ht, lrows_app. row_cases; try done; f_equal; lia.
Qed.

Lemma elem_Unique x l : x ∈ Unique l <-> x ∈ l.
Proof.
  unfold Unique. enough (forall seen, x ∈ Unique_loop l seen <-> x ∈ l /\ x ∉ seen) as He by (rewrite He; set_solver).
  induction l as [|y l IH]; intros seen; cbn [Unique_loop]; [split; [by intros ?%not_elem_of_nil|by intros [?%not_elem_of_nil _]]|].
  case_bool_decide; rewrite ?elem_of_cons, IH, ?elem_of_cons; [|destruct (decide (x = y)) as [->|]; set_solver].
  split; [tauto|]. intros [[->|] ?]; done.
Qed.

Lemma length_Unique l : (length (Unique l) <= length l)%nat.
Proof.
  unfold Unique. generalize (∅ : gset string). induction l as [|y l IH]; intros seen; cbn [Unique_loop length]; [done|].
  case_bool_decide; [pose proof (IH seen); lia|]. cbn [length]. pose proof (IH ({[y]} ∪ seen)). lia.
Qed.

Lemma found_in_ok cs d :
  d_faults d = [] -> exists found, found_in cs d = (d, Ok found) /\ forall x, x ∈ found <-> x ∈ concat cs /\ accessible x = true.
Proof.
  intros Hf. induction cs as [|c cs (found & Hrun & Hin)]; [exists ∅; split; [done|]; cbn; set_solver|].
  exists (list_to_set (List.filter accessible c) ∪ found). split.
  - cbn [found_in]. rewrite (bind_ok _ _ d d (List.filter accessible c)) by (by apply exec_ok). by rewrite (bind_ok _ _ _ _ _ Hrun).
  - intros x. cbn. rewrite elem_of_union, Hin, elem_of_list_to_set, list_elem_of_In, filter_In, <- list_elem_of_In, elem_of_app. tauto.
Qed.

Lemma keepAccessible_ok ids d : d_faults d = [] -> keepAccessible ids d = (d, Ok (List.filter accessible ids)).
Proof.
  intros Hf. unfold keepAccessible. destruct (found_in_ok (chunks (length ids) 200 (Unique ids)) d Hf) as (found & Hrun & Hin).
  rewrite (bind_ok _ _ _ _ _ Hrun). unfold ret. do 2 f_equal. apply filter_ext_in. intros x Hx%list_elem_of_In.
  setoid_rewrite chunks_concat in Hin; [|lia|apply length_Unique]. setoid_rewrite elem_Unique in Hin.
  destruct (accessible x) eqn:Ex; [apply bool_decide_eq_true_2; by apply Hin|apply bool_decide_eq_false_2]. rewrite Hin. intros [_ ?]; congruence.
Qed.

(** The totals are those of the rows. *)
Definition counted (d : db) : Prop := forall p, d_playlists d !! pid = Some p -> p_Counters p = Stats (contents pid (d_tracks d)).

Lemma refresh_ok {A} (a : A) d :
  d_faults d = [] ->
  exists d', (enqueueCoverRebuild pid ;; let* _c := refreshCounters pid in ret a) d = (d', Ok a) /\ same_others pid d d' /\ d_faults d' = [] /\
    d_tracks d' = d_tracks d /\ counted d'.
Proof.
  intros Hf. unfold enqueueCoverRebuild, ignore, refreshCounters, bind, ret.
  erewrite exec_ok by done. erewrite exec_ok by done. erewrite exec_ok by done.
  eexists. split; [done|]. cbn. split; [|split; [done|split; [done|]]].
  - split; [done|]. split; [done|]. split; [done|]. intros p Hp. cbn. by rewrite lookup_alter_ne.
  - intros p. cbn. rewrite lookup_alter_eq. destruct (d_playlists d !! pid); cbn; [|done]. by intros [= <-].
Qed.

Lemma addTracks_ok ids pos d :
  let acc := List.filter accessible ids in
  d_faults d = [] -> (forall i, pos <= i < pos + len acc -> rows pid d i = None) ->
  exists d', addTracks pid pos ids d = (d', Ok (len acc)) /\ same_others pid d d' /\ d_faults d' = [] /\ counted d' /\
    forall j, rows pid d' j = if (pos <=? j) && (j <? pos + len acc) then lrows acc (j - pos + 1) else rows pid d j.
Proof.
  intros acc Hf Hfree. unfold addTracks. rewrite (bind_ok _ _ _ _ _ (keepAccessible_ok ids d Hf)). fold acc.
  destruct (insert_chunks_ok (chunks (length acc) 200 acc) pos d Hf) as (d1 & R1 & S1 & P1 & F1 & H1); rewrite ?chunks_concat in * by lia; [done|].
  rewrite (bind_ok _ _ _ _ _ R1). destruct (refresh_ok (len acc) d1 F1) as (d2 & R2 & S2 & F2 & T2 & C2).
  exists d2. split; [done|]. split; [by rewrite S1|]. split; [done|]. split; [done|]. intros j. rewrite <- H1. unfold rows. by rewrite T2.
Qed.

(** ** Renumbering *)

Lemma length_filter_perm {A} (f : A -> bool) l k : l ≡ₚ k -> length (List.filter f l) = length (List.filter f k).
Proof.
  induction 1 as [|x l k _ IH|x y l|l1 l2 l3 _ IH1 _ IH2]; cbn; [done| | |congruence].
  - destruct (f x); cbn; by rewrite IH.
  - by destruct (f x), (f y).
Qed.

Lemma rank_sorted (ps : list Z) k i :
  StronglySorted Z.lt ps -> ps !! k = Some i -> length (List.filter (fun j => - i <=? - j) ps) = S k.
Proof.
  intros Hs. revert k. induction Hs as [|p ps Hs IH Hf]; intros k Hk; [done|]. rewrite Forall_forall in Hf.
  assert (forall x, x ∈ ps -> p < x) as Hlt by (intros x Hx; by apply Hf, list_elem_of_In). destruct k as [|k]; cbn in Hk |- *.
  - injection Hk as ->. rewrite Z.leb_refl. cbn. f_equal. rewrite (filter_ext_in _ (fun _ => false)); [by rewrite List.filter_false|].
    intros x Hx%list_elem_of_In%Hlt. lia.
  - pose proof (Hlt i (list_elem_of_lookup_2 _ _ _ Hk)). destruct (Z.leb_spec (- i) (- p)); [|lia]. cbn. by rewrite (IH k).
Qed.

Lemma sorted_positions t : StronglySorted Z.lt (positions pid t).
Proof.
  pose proof (NoDup_positions pid t) as Hnd. assert (StronglySorted Z.le (positions pid t)) as Hs by (apply StronglySorted_merge_sort; apply _).
  revert Hnd. induction Hs as [|x l Hs IH Hf]; intros Hnd; constructor; apply list.NoDup_cons in Hnd as [Hx Hnd]; [auto|].
  rewrite Forall_forall in *. intros y Hy. specialize (Hf y Hy). assert (x <> y) by (intros ->; by apply Hx, list_elem_of_In). lia.
Qed.

Lemma lookup_omap_all (r : Z -> option string) (ps : list Z) (n : nat) :
  (forall x, x ∈ ps -> is_Some (r x)) -> omap r ps !! n = (ps !! n) ≫= r.
Proof.
  revert n. induction ps as [|p ps IH]; intros n Hall; [done|]. cbn. destruct (Hall p ltac:(left)) as [y Hy]. rewrite Hy.
  destruct n; cbn; [done|]. apply IH. intros x Hx. apply Hall. by right.
Qed.

Lemma row_number_negated d d1 k i :
  (forall j, rows pid d1 j = if j <? 0 then rows pid d (- j) else None) -> (forall j, j <= 0 -> rows pid d j = None) ->
  positions pid (d_tracks d) !! k = Some i -> row_number pid (d_tracks d1) (- i) = Z.of_nat k + 1.
Proof.
  intros H1 Hpos Hk. unfold row_number.
  assert (positions pid (d_tracks d1) ≡ₚ Z.opp <$> positions pid (d_tracks d)) as Hp.
  { apply NoDup_Permutation; [apply NoDup_positions|apply NoDup_fmap_2; [intros ??; lia|apply NoDup_positions]|].
    intros j. rewrite elem_positions, list_elem_of_fmap. setoid_rewrite elem_positions. fold (rows pid d1 j). rewrite H1.
    split.
    - destruct (Z.ltb_spec j 0); [|by intros []]. intros Hj. exists (- j). split; [lia|done].
    - intros (x & -> & Hx). destruct (Z.ltb_spec (- x) 0); [by rewrite Z.opp_involutive|]. fold (rows pid d x) in Hx.
      rewrite Hpos in Hx by lia. by destruct Hx. }
  rewrite (length_filter_perm _ _ _ Hp).
  enough (length (List.filter (fun j => - i <=? j) (Z.opp <$> positions pid (d_tracks d))) = S k) as -> by lia.
  rewrite <- (rank_sorted _ _ _ (sorted_positions _) Hk). clear Hk Hp. induction (positions pid (d_tracks d)) as [|x ps IH]; [done|].
  cbn. destruct (- i <=? - x); cbn; by rewrite <- IH.
Qed.

Lemma renumber_ok d :
  d_faults d = [] -> (forall j, j <= 0 -> rows pid d j = None) ->
  exists d', renumber pid d = (d', Ok ()) /\ same_others pid d d' /\ d_faults d' = [] /\ counted d' /\ holds pid d' (contents pid (d_tracks d)).
Proof.
  intros Hf Hpos. unfold renumber. set (ps := positions pid (d_tracks d)).
  destruct (updateIDs_rows (fun i => 0 <? i) (fun i => - i) (fun i => - i) _ (fun j => if j <? 0 then rows pid d (- j) else None) d Hf (fun _ => eq_refl))
    as (d1 & n1 & R1 & S1 & P1 & F1 & H1 & _).
  { intros i Hi%Z.ltb_lt _. split; [lia|]. apply Hpos. lia. }
  { intros j. unfold moved. rewrite Z.opp_involutive, Z.eqb_refl. row_cases; try (destruct (rows pid d (- j)); [done|]); done || (apply Hpos; lia). }
  rewrite (bind_ok _ _ _ _ _ R1). set (g j := - default 0 (if 1 <=? j then ps !! Z.to_nat (j - 1) else None)).
  assert (forall j i, 1 <= j -> ps !! Z.to_nat (j - 1) = Some i -> row_number pid (d_tracks d1) (g j) = j /\ rows pid d1 (g j) = rows pid d i) as Hg.
  { intros j i Hj Hi. unfold g. destruct (Z.leb_spec 1 j); [|lia]. rewrite Hi. cbn. rewrite (row_number_negated d d1 _ _ H1 Hpos Hi), H1. split; [lia|].
    destruct (Z.ltb_spec (- i) 0); [by rewrite Z.opp_involutive|]. symmetry. apply Hpos. lia. }
  destruct (updateIDs_rows (fun _ => true) (row_number pid (d_tracks d1)) g _ (lrows (contents pid (d_tracks d))) d1 F1 H1)
    as (d2 & n2 & R2 & S2 & P2 & F2 & H2 & _).
  { intros i _ Hi. cbv beta in Hi. destruct (Z.ltb_spec i 0); [|by destruct Hi].
    apply elem_positions, list_elem_of_lookup in Hi as [k Hk]. fold ps in Hk. pose proof (row_number_negated d d1 _ _ H1 Hpos Hk) as Hn.
    rewrite Z.opp_involutive in Hn. rewrite Hn. destruct (Z.ltb_spec (Z.of_nat k + 1) 0); [lia|]. split; [|done].
    unfold g. destruct (Z.leb_spec 1 (Z.of_nat k + 1)); [|lia]. replace (Z.to_nat _) with k by lia. rewrite Hk. cbn. lia. }
  { intros j. unfold moved, lrows, contents. fold ps. setoid_rewrite <- H1.
    assert (ps !! Z.to_nat (j - 1) = None \/ j < 1 -> rows pid d1 (g j) = None) as Hnone.
    { intros Hj. rewrite H1. unfold g. destruct (Z.leb_spec 1 j); [destruct Hj as [->|]; [done|lia]|done]. }
    destruct (Z.leb_spec 1 j); [|rewrite Hnone by lia; by destruct (_ && _)].
    rewrite lookup_omap_all by (intros x; by rewrite <- elem_positions). destruct (ps !! Z.to_nat (j - 1)) as [i|] eqn:Ei.
    - destruct (Hg j i) as [-> ->]; [done..|]. rewrite Z.eqb_refl. cbn. unfold rows. by destruct (d_tracks d !! (pid, i)).
    - rewrite Hnone by eauto. by destruct (_ && _). }
  rewrite (bind_ok _ _ d1 d2 n2) by done. destruct (refresh_ok () d2 F2) as (d3 & R3 & S3 & F3 & T3 & C3).
  exists d3. split; [done|]. split; [by rewrite S1, S2|]. split; [done|]. split; [done|]. intros j. rewrite <- H2. unfold rows. by rewrite T3.
Qed.

End repository.
