(* ===== verification/PlaylistSpec.v ===== *)
(** * The track repository refines lists

    What the operations on a playlist's tracks promise, as functions on the list of
    its songs, and the proof that the statements of [PlaylistDb] keep the promise. *)

From stdpp Require Import sorting.
From S2P Require Import Prelude GoStrings Model Criteria PlaylistDb PlaylistTracks.

Local Open Scope Z_scope.
Local Open Scope db_scope.
Local Abbreviation len l := (Z.of_nat (length l)).

(** The methods of [model.PlaylistTrackRepository] that write. *)
Inductive track_op :=
| OpAdd (ids : list string)
| OpInsert (ids : list string) (pos : Z)
| OpAddAlbums (ids : list string)
| OpAddArtists (ids : list string)
| OpAddDiscs (discs : list (string * string * Z))
| OpDelete (ids : list string)
| OpDeleteAll
| OpReorder (pos newPos : Z).

Section specification.
Context `{PlaylistEnv}.

Definition run_op (pid : string) (op : track_op) : M Z :=
  match op with
  | OpAdd ids => AddToPlaylist pid ids
  | OpInsert ids pos => Insert pid ids pos
  | OpAddAlbums ids => AddAlbums pid ids
  | OpAddArtists ids => AddArtists pid ids
  | OpAddDiscs discs => AddDiscs pid discs
  | OpDelete ids => DeleteFromPlaylist pid ids ;; ret 0
  | OpDeleteAll => DeleteAll pid ;; ret 0
  | OpReorder pos newPos => Reorder pid pos newPos ;; ret 0
  end.

(** The entries from position [i] on that are kept; those whose position is not
    named. *)
Fixpoint kept_by (keep : Z -> string -> bool) (i : Z) (l : list string) : list string :=
  match l with
  | [] => []
  | x :: l => if keep i x then x :: kept_by keep (i + 1) l else kept_by keep (i + 1) l
  end.
Definition kept (ids : list string) : Z -> list string -> list string := kept_by (fun i _ => negb (names_position ids i)).

(** The songs asked for: those the user can read are added. *)
Definition asked (op : track_op) : list string :=
  match op with
  | OpAdd ids | OpInsert ids _ => ids
  | OpAddAlbums ids => MediaIDs (ByAlbums ids)
  | OpAddArtists ids => MediaIDs (ByArtists ids)
  | OpAddDiscs [] => []
  | OpAddDiscs discs => MediaIDs (ByDiscs discs)
  | _ => []
  end.

Definition apply_op (op : track_op) (l : list string) : list string * result perr Z :=
  let acc := List.filter accessible (asked op) in
  match op with
  | OpAdd _ | OpAddAlbums _ | OpAddArtists _ | OpAddDiscs _ => (l ++ acc, Ok (len acc))
  | OpInsert _ pos => let k := Z.to_nat (Z.max pos 1 - 1) in (take k l ++ acc ++ drop k l, Ok (len acc))
  | OpDelete ids => (kept ids 1 l, Ok 0)
  | OpDeleteAll => ([], Ok 0)
  | OpReorder pos newPos =>
      if (pos <? 1) || (len l <? pos) then (l, Err ErrNotFound)
      else (reorder l pos (Z.min (Z.max newPos 1) (len l)), Ok 0)
  end.

Fixpoint run_ops (pid : string) (ops : list track_op) (d : db) : db * list (result perr Z) :=
  match ops with
  | [] => (d, [])
  | op :: ops => let '(d, r) := run_op pid op d in let '(d, rs) := run_ops pid ops d in (d, r :: rs)
  end.
Fixpoint apply_ops (ops : list track_op) (l : list string) : list string * list (result perr Z) :=
  match ops with
  | [] => (l, [])
  | op :: ops => let '(l, r) := apply_op op l in let '(l, rs) := apply_ops ops l in (l, r :: rs)
  end.

(** A playlist in the database and the list it stands for: the rows hold the list,
    and the totals are those of its songs. *)
Definition stands_for (pid : string) (d : db) (l : list string) : Prop :=
  d_faults d = [] /\ holds pid d l /\
  forall p, d_playlists d !! pid = Some p -> exists k, k ≡ₚ l /\ p_Counters p = Stats k.
End specification.

Section refinement.
Context `{PlaylistLaws} (pid : string).

Lemma counted_stands d l : d_faults d = [] -> holds pid d l -> counted pid d -> stands_for pid d l.
Proof.
  intros Hf Hl Hc. split; [done|]. split; [done|]. intros p Hp. exists l. split; [done|]. by rewrite (Hc p Hp), (contents_holds pid d l Hl).
Qed.

(** ** Appending *)

Lemma wrap32_id z : 0 <= z < 2 ^ 31 -> wrap32 z = z.
Proof. intros Hz. unfold wrap32. rewrite Z.mod_small by lia. lia. Qed.

Lemma Add_refines ids d l :
  stands_for pid d l -> len l + 1 < 2 ^ 31 ->
  exists d', AddToPlaylist pid ids d = (d', Ok (len (List.filter accessible ids))) /\ same_others pid d d' /\
    stands_for pid d' (l ++ List.filter accessible ids).
Proof.
  intros (Hf & Hl & Hc) Hlen. destruct ids as [|id ids].
  { exists d. cbn. rewrite app_nil_r. by repeat split. }
  unfold AddToPlaylist. rewrite (bind_ok _ _ _ _ _ (maxID_holds pid d l Hf Hl ltac:(lia))), wrap32_id by lia.
  destruct (addTracks_ok pid (id :: ids) (len l + 1) d Hf) as (d' & Hrun & Hs & Hf' & Hc' & Hr).
  { intros i Hi. rewrite Hl. apply lrows_None. lia. }
  exists d'. split; [done|]. split; [done|]. apply counted_stands; [done| |done].
  intros j. rewrite Hr, lrows_app, Hl. row_cases; try done; [f_equal; lia|].
  transitivity (@None string); [|symmetry]; apply lrows_None; lia.
Qed.

Lemma addMedia_refines c d l :
  stands_for pid d l -> len l + 1 < 2 ^ 31 ->
  exists d', addMediaFileIds pid c d = (d', Ok (len (List.filter accessible (MediaIDs c)))) /\ same_others pid d d' /\
    stands_for pid d' (l ++ List.filter accessible (MediaIDs c)).
Proof.
  intros Hl Hlen. unfold addMediaFileIds. rewrite (bind_ok _ _ d d (MediaIDs c)) by (apply exec_ok; [apply Hl|done]). by apply Add_refines.
Qed.
(** ** Inserting *)

(** [count] positions from [s]. *)
Definition span (s : Z) (count : nat) : list Z := (fun n => Z.of_nat n + s) <$> seq 0 count.

Lemma elem_span s count i : i ∈ span s count <-> s <= i < s + Z.of_nat count.
Proof.
  unfold span. rewrite list_elem_of_fmap. split.
  - intros (n & -> & Hn%elem_of_seq). lia.
  - intros Hi. exists (Z.to_nat (i - s)). rewrite elem_of_seq. lia.
Qed.

Lemma span_S s count : span s (S count) = s :: span (s + 1) count.
Proof.
  unfold span. cbn [seq fmap list_fmap]. f_equal. rewrite <- seq_shift. change (S <$> ?l) with (map S l). rewrite <- list_fmap_compose.
  apply list_fmap_ext. intros _ n _. unfold compose. lia.
Qed.

Lemma span_sorted s count : StronglySorted Z.lt (span s count).
Proof.
  revert s. induction count as [|count IH]; intros s; [constructor|]. rewrite span_S. constructor; [apply IH|].
  apply Forall_forall. intros x Hx%list_elem_of_In%elem_span. lia.
Qed.

Lemma omap_span (r : Z -> option string) s l :
  (forall j, s <= j < s + len l -> r j = lrows l (j - s + 1)) -> omap r (span s (length l)) = l.
Proof.
  revert s. induction l as [|x l IH]; intros s Hr; [done|]. cbn [length] in *. rewrite span_S. cbn [omap list_omap].
  rewrite Hr by lia. replace (s - s + 1) with 1 by lia. cbn [lrows]. unfold lrows at 1. cbn. f_equal. apply IH. intros j Hj.
  rewrite Hr by lia. change (x :: l) with ([x] ++ l). rewrite lrows_app. cbn [length]. row_cases. f_equal. lia.
Qed.

(** Two lists with a hole between them are read as one. *)
Lemma contents_gap d l1 l2 k :
  len l1 <= k -> (forall j, rows pid d j = if j <=? len l1 then lrows l1 j else if j <=? k then None else lrows l2 (j - k)) ->
  contents pid (d_tracks d) = l1 ++ l2.
Proof.
  intros Hk Hr. unfold contents. rewrite (positions_eq pid _ (span 1 (length l1) ++ span (k + 1) (length l2))).
  - rewrite omap_app. f_equal; apply omap_span; intros j Hj; fold (rows pid d j); rewrite Hr; row_cases; f_equal; lia.
  - apply StronglySorted_app_2; [|apply span_sorted..]. intros x y Hx%elem_span Hy%elem_span. lia.
  - intros i. fold (rows pid d i). rewrite Hr, elem_of_app, !elem_span. row_cases; rewrite ?lrows_is_Some; try lia.
    split; [lia|by intros []].
Qed.

Lemma shift_tail (ids : list string) pos d l :
  d_faults d = [] -> holds pid d l -> 0 < len ids -> 1 <= pos ->
  exists d1 d2 n1 n2,
    updateIDs pid (fun i => pos <=? i) (fun i => - (i + len ids)) d = (d1, Ok n1) /\
    updateIDs pid (fun i => i <? 0) (fun i => - i) d1 = (d2, Ok n2) /\
    same_others pid d d2 /\ d_playlists d2 = d_playlists d /\ d_faults d2 = [] /\ (n2 = 0 <-> len l < pos) /\
    forall j, rows pid d2 j = if j <? pos then lrows l j else if j <? pos + len ids then None else lrows l (j - len ids).
Proof.
  intros Hf Hl Hn Hpos. set (n := len ids) in *. clearbody n.
  destruct (updateIDs_rows pid (fun i => pos <=? i) (fun i => - (i + n)) (fun j => - j - n) _
              (fun j => if j <=? - (pos + n) then lrows l (- j - n) else if j <? pos then lrows l j else None) d Hf Hl)
    as (d1 & n1 & R1 & S1 & P1 & F1 & H1 & _).
  { intros i Hi%Z.leb_le _. split; [lia|]. apply lrows_None. lia. }
  { intros j. unfold moved. row_cases; row_eq l. }
  destruct (updateIDs_rows pid (fun i => i <? 0) (fun i => - i) (fun i => - i) _
              (fun j => if j <? pos then lrows l j else if j <? pos + n then None else lrows l (j - n)) d1 F1 H1)
    as (d2 & n2 & R2 & S2 & P2 & F2 & H2 & N2).
  { intros i Hi%Z.ltb_lt Hs. split; [lia|]. revert Hs. row_cases; rewrite lrows_is_Some; intros; try lia; done || row_eq l. }
  { intros j. unfold moved. row_cases; row_eq l. }
  exists d1, d2, n1, n2. split; [done|]. split; [done|]. split; [by rewrite S1|]. split; [congruence|]. split; [done|]. split; [|done].
  rewrite N2. split.
  - intros Hno. specialize (Hno (- (pos + n)) ltac:(lia)). revert Hno. row_cases. rewrite lrows_None. lia.
  - intros Hlt i Hi%Z.ltb_lt. row_cases; apply lrows_None; lia.
Qed.

Lemma length_accessible ids : len (List.filter accessible ids) <= len ids.
Proof. pose proof (filter_length_le accessible ids). lia. Qed.

Lemma match_nonempty {A B} (l : list A) (a b : B) : l <> [] -> match l with [] => a | _ :: _ => b end = b.
Proof. by destruct l. Qed.

Lemma Insert_refines ids pos d l :
  stands_for pid d l -> len l + 1 < 2 ^ 31 ->
  let acc := List.filter accessible ids in let k := Z.to_nat (Z.max pos 1 - 1) in
  exists d', Insert pid ids pos d = (d', Ok (len acc)) /\ same_others pid d d' /\ stands_for pid d' (take k l ++ acc ++ drop k l).
Proof.
  intros (Hf & Hl & Hc) Hlen acc k. destruct (decide (ids = [])) as [->|Hids].
  { exists d. subst acc. cbn. rewrite take_drop. by repeat split. }
  unfold Insert. rewrite match_nonempty by done. assert (0 < len ids) as Hpos0 by (destruct ids; cbn; [done|lia]).
  pose proof (length_accessible ids) as Hacc. fold acc in Hacc.
  set (p := Z.max pos 1) in *. assert (1 <= p) as Hp1 by lia. clearbody p. subst k.
  destruct (shift_tail ids p d l) as (d1 & d2 & n1 & n2 & R1 & R2 & S2 & P2 & F2 & N2 & H2); [done..|].
  rewrite (bind_ok _ _ _ _ _ R1), (bind_ok _ _ _ _ _ R2). destruct (Z.eqb_spec n2 0) as [Hz|Hz].
  { apply N2 in Hz. destruct (Add_refines ids d2 l) as (d' & Hrun & S' & Hst); [|done|].
    - split; [done|]. split; [|by rewrite P2]. intros j. rewrite H2. row_cases; try done; transitivity (@None string); [|symmetry| |symmetry]; done || (apply lrows_None; lia).
    - exists d'. split; [done|]. split; [by rewrite S2|]. rewrite take_ge, drop_ge, app_nil_r by lia. done. }
  assert (p <= len l) as Hpl by lia. assert (len (take (Z.to_nat (p - 1)) l) = p - 1) as Ht by (rewrite length_take; lia).
  destruct (addTracks_ok pid ids p d2 F2) as (d3 & R3 & S3 & F3 & C3 & H3).
  { intros i Hi. rewrite H2. fold acc in Hi. by row_cases. }
  fold acc in R3, H3. rewrite (bind_ok _ _ _ _ _ R3). destruct (Z.eqb_spec (len acc) (len ids)) as [He|Hne].
  - exists d3. split; [done|]. split; [by rewrite S2|]. apply counted_stands; [done| |done].
    intros j. rewrite H3, H2, !lrows_app, Ht, lrows_take, lrows_drop by lia. row_cases; try done; f_equal; lia.
  - destruct (renumber_ok pid d3 F3) as (d4 & R4 & S4 & F4 & C4 & H4).
    { intros j Hj. rewrite H3, H2. row_cases. apply lrows_None. lia. }
    exists d4. rewrite (bind_ok _ _ _ _ _ R4). split; [done|]. split; [by rewrite S2, S3|]. apply counted_stands; [done| |done].
    rewrite (contents_gap d3 (take (Z.to_nat (p - 1)) l ++ acc) (drop (Z.to_nat (p - 1)) l) (p - 1 + len ids)) in H4; rewrite ?length_app, ?Nat2Z.inj_add, ?Ht;
      [by rewrite app_assoc|lia|].
    intros j. rewrite H3, H2, lrows_app, Ht, lrows_take, lrows_drop by lia. row_cases; try done; f_equal; lia.
Qed.

(** ** Deleting *)

Lemma deleteIDs_ok cond d :
  d_faults d = [] ->
  exists d', deleteIDs pid cond d = (d', Ok ()) /\ same_others pid d d' /\ d_faults d' = [] /\
    forall j, rows pid d' j = if cond j then None else rows pid d j.
Proof.
  intros Hf. eexists. split; [by apply exec_ok|].
  assert (forall p j, filter (fun '((q, i), _) => ~ (q = pid /\ cond i = true)) (d_tracks d) !! (p, j) =
                      if bool_decide (p = pid) && cond j then None else d_tracks d !! (p, j)) as Hlk.
  { intros p j. destruct (bool_decide (p = pid) && cond j) eqn:E.
    - apply andb_true_iff in E as [->%bool_decide_eq_true Hc]. apply map_lookup_filter_None_2. right. intros x _. tauto.
    - destruct (d_tracks d !! (p, j)) as [x|] eqn:Ex; [|apply map_lookup_filter_None_2; by left].
      apply map_lookup_filter_Some_2; [done|]. intros [-> Hc]. by rewrite bool_decide_eq_true_2, Hc in E. }
  split; [|split; [done|]].
  - split; [done|]. split; [done|]. split; [|done]. intros p j Hp. unfold rows. cbn. rewrite Hlk. by rewrite bool_decide_eq_false_2.
  - intros j. unfold rows. cbn. rewrite Hlk. by rewrite bool_decide_eq_true_2.
Qed.

Lemma delete_chunks_ok cs d :
  d_faults d = [] ->
  exists d', delete_chunks pid cs d = (d', Ok ()) /\ same_others pid d d' /\ d_faults d' = [] /\
    forall j, rows pid d' j = if names_position (concat cs) j then None else rows pid d j.
Proof.
  revert d. induction cs as [|c cs IH]; intros d Hf; [by exists d|].
  destruct (deleteIDs_ok (names_position c) d Hf) as (d1 & R1 & S1 & F1 & H1). destruct (IH d1 F1) as (d2 & R2 & S2 & F2 & H2).
  exists d2. cbn [delete_chunks concat]. rewrite (bind_ok _ _ _ _ _ R1). split; [done|]. split; [by rewrite S1|]. split; [done|].
  intros j. rewrite H2, H1. unfold names_position. rewrite existsb_app. by destruct (existsb _ c), (existsb _ (concat cs)).
Qed.

(** Rows that were taken out are skipped. *)
Lemma contents_kept (keep : Z -> string -> bool) d l :
  (forall j, rows pid d j = match lrows l j with Some x => if keep j x then Some x else None | None => None end) ->
  contents pid (d_tracks d) = kept_by keep 1 l.
Proof.
  intros Hr. unfold contents. set (occupied j := match rows pid d j with Some _ => true | None => false end).
  rewrite (positions_eq pid _ (List.filter occupied (span 1 (length l)))).
  - enough (forall s, 1 <= s -> (forall j, s <= j -> rows pid d j = match lrows l (j - s + 1) with Some x => if keep j x then Some x else None | None => None end) ->
              omap (rows pid d) (List.filter occupied (span s (length l))) = kept_by keep s l) as Hs.
    { apply Hs; [lia|]. intros j _. rewrite Hr. by replace (j - 1 + 1) with j by lia. }
    clear Hr. induction l as [|x l IH]; intros s Hs Hr; [done|]. cbn [length kept_by]. rewrite span_S. cbn [List.filter].
    pose proof (Hr s ltac:(lia)) as Hx. replace (s - s + 1) with 1 in Hx by lia. change (lrows (x :: l) 1) with (Some x) in Hx. cbv iota in Hx.
    assert (omap (rows pid d) (List.filter occupied (span (s + 1) (length l))) = kept_by keep (s + 1) l) as IHs.
    { apply IH; [lia|]. intros j Hj. rewrite Hr by lia. change (x :: l) with ([x] ++ l). rewrite lrows_app. cbn [length]. row_cases.
      match goal with |- context [lrows l ?a] => by replace a with (j - (s + 1) + 1) by lia end. }
    unfold occupied at 1. rewrite Hx. destruct (keep s x); cbn [omap list_omap]; rewrite ?Hx; [by f_equal|done].
  - generalize (span_sorted 1 (length l)). induction 1 as [|x ps Hs IH Hf]; cbn; [constructor|]. destruct (occupied x); [|done].
    constructor; [done|]. rewrite Forall_forall in *. intros y [Hy _]%filter_In. by apply Hf.
  - intros i. rewrite list_elem_of_In, filter_In, <- list_elem_of_In, elem_span. unfold occupied. fold (rows pid d i).
    pose proof (Hr i) as Hi. pose proof (lrows_is_Some l i) as Hl.
    destruct (rows pid d i); [|split; [by intros [_ ?]|by intros []]]. destruct (lrows l i); [|done]. split; [eauto|]. intros _. split; [|done].
    assert (1 <= i <= len l) by (apply Hl; eauto). lia.
Qed.

Lemma Delete_refines ids d l :
  stands_for pid d l ->
  exists d', DeleteFromPlaylist pid ids d = (d', Ok ()) /\ same_others pid d d' /\ stands_for pid d' (kept ids 1 l).
Proof.
  intros (Hf & Hl & Hc). unfold DeleteFromPlaylist, deleteChunkSize.
  destruct (delete_chunks_ok (chunks (length ids) 200 ids) d Hf) as (d1 & R1 & S1 & F1 & H1). rewrite chunks_concat in H1 by lia.
  rewrite (bind_ok _ _ _ _ _ R1). destruct (renumber_ok pid d1 F1) as (d2 & R2 & S2 & F2 & C2 & H2).
  { intros j Hj. rewrite H1, Hl. destruct (names_position ids j); [done|]. apply lrows_None. lia. }
  exists d2. split; [done|]. split; [by rewrite S1|]. apply counted_stands; [done| |done].
  rewrite (contents_kept (fun i _ => negb (names_position ids i)) d1 l) in H2; [done|].
  intros j. rewrite H1, Hl. by destruct (names_position ids j), (lrows l j).
Qed.

Lemma DeleteAll_refines d l :
  stands_for pid d l -> exists d', DeleteAll pid d = (d', Ok ()) /\ same_others pid d d' /\ stands_for pid d' [].
Proof.
  intros (Hf & Hl & Hc). unfold DeleteAll. destruct (deleteIDs_ok (fun _ => true) d Hf) as (d1 & R1 & S1 & F1 & H1).
  rewrite (bind_ok _ _ _ _ _ R1). destruct (renumber_ok pid d1 F1) as (d2 & R2 & S2 & F2 & C2 & H2); [intros j _; apply H1|].
  exists d2. split; [done|]. split; [by rewrite S1|]. apply counted_stands; [done| |done].
  rewrite (contents_holds pid d1 []) in H2; [done|]. intros j. rewrite H1. unfold lrows. by destruct (1 <=? j).
Qed.

(** ** The refinement *)

Lemma reorder_perm l pos newPos : 1 <= pos -> reorder l pos newPos ≡ₚ l.
Proof.
  intros Hp. unfold reorder. set (k := Z.to_nat (pos - 1)). replace (Z.to_nat pos) with (S k) by lia.
  set (l' := take k l ++ drop (S k) l). rewrite Permutation_app_swap_app, take_drop. subst l'. rewrite Permutation_app_swap_app.
  replace (drop (S k) l) with (drop 1 (drop k l)) by (rewrite drop_drop; f_equal; lia). by rewrite !take_drop.
Qed.

(** How long a playlist gets. *)
Definition bounded (ops : list track_op) (l : list string) : Prop :=
  len l + foldr (fun op n => len (asked op) + n) 0 ops < 999999.

Lemma length_kept keep i l : len (kept_by keep i l) <= len l.
Proof.
  revert i. induction l as [|x l IH]; intros i; cbn [kept_by]; [done|]. pose proof (IH (i + 1)). destruct (keep i x); cbn [length]; lia.
Qed.

Lemma length_apply_op op l : len (apply_op op l).1 <= len l + len (asked op).
Proof.
  pose proof (length_accessible (asked op)). destruct op; cbn [apply_op fst asked] in *; rewrite ?length_app, ?length_take, ?length_drop; try lia.
  - unfold kept. pose proof (length_kept (fun i _ => negb (names_position ids i)) 1 l). lia.
  - destruct (Z.ltb_spec pos 1), (Z.ltb_spec (len l) pos); cbn [orb fst]; try lia. rewrite reorder_perm by lia. cbn. lia.
Qed.

Lemma op_refines op d l :
  stands_for pid d l -> len l < 999999 ->
  exists d', run_op pid op d = (d', (apply_op op l).2) /\ same_others pid d d' /\ stands_for pid d' (apply_op op l).1.
Proof.
  intros Hl Hlen. destruct op; cbn [run_op apply_op asked fst snd].
  - apply Add_refines; [done|lia].
  - apply Insert_refines; [done|lia].
  - apply addMedia_refines; [done|lia].
  - apply addMedia_refines; [done|lia].
  - destruct discs as [|x discs]; [|apply addMedia_refines; [done|lia]]. exists d. cbn. by rewrite app_nil_r.
  - destruct (Delete_refines ids d l Hl) as (d' & Hrun & Hs & Hst). exists d'. by rewrite (bind_ok _ _ _ _ _ Hrun).
  - destruct (DeleteAll_refines d l Hl) as (d' & Hrun & Hs & Hst). exists d'. by rewrite (bind_ok _ _ _ _ _ Hrun).
  - destruct Hl as (Hf & Hl & Hc). destruct (Z.ltb_spec pos 1); [|destruct (Z.ltb_spec (len l) pos)]; cbn [orb].
    1, 2: exists d; unfold bind at 1; rewrite (Reorder_outside pid l) by (done || lia); by repeat split.
    destruct (Reorder_ok pid l pos newPos d) as (d' & Hrun & Hs & Hp & Hh); [done || lia..|]. exists d'.
    rewrite (bind_ok _ _ _ _ _ Hrun). split; [done|]. split; [done|]. split; [destruct Hs as [-> _]; done|]. split; [done|].
    intros p Hlk. rewrite Hp in Hlk. destruct (Hc p Hlk) as (k & Hk & HS). exists k. split; [|done]. cbn. rewrite reorder_perm by lia. done.
Qed.

(** C3: the track repository refines lists. Whatever sequence of adds, inserts, deletes and reorders runs on a playlist,
    whatever order the engine visits rows in, each call returns what the list operation returns (the count, or "not found" for
    a position outside the playlist), the rows end up numbered from 1 without gaps and hold the resulting list, the stored
    totals are those of its songs, and no other playlist's rows or record change. No statement violates the unique index,
    for a playlist that stays below 999,999 entries. *)
Theorem track_ops_refine ops d l :
  stands_for pid d l -> bounded ops l ->
  let '(d', rs) := run_ops pid ops d in
  rs = (apply_ops ops l).2 /\ stands_for pid d' (apply_ops ops l).1 /\ same_others pid d d'.
Proof.
  revert d l. induction ops as [|op ops IH]; intros d l Hl Hb; [done|]. unfold bounded in *. cbn [foldr] in Hb.
  assert (0 <= foldr (fun op n => len (asked op) + n) 0 ops) by (clear; induction ops; cbn; lia).
  destruct (op_refines op d l Hl ltac:(lia)) as (d1 & Hrun & Hs & Hl1). cbn [run_ops apply_ops]. rewrite Hrun.
  pose proof (length_apply_op op l) as Hlen. destruct (apply_op op l) as [l1 r]. cbn [fst snd] in *.
  specialize (IH d1 l1 Hl1 ltac:(lia)). destruct (run_ops pid ops d1) as [d' rs], (apply_ops ops l1) as [l' rs']. cbn [fst snd] in *.
  destruct IH as (-> & Hst & Hs'). split; [done|]. split; [done|]. by rewrite Hs.
Qed.

End refinement.

(** ** A run *)

(** Rows visited last to first; every song can be read but "x". *)
Definition reversed_env : PlaylistEnv :=
  {| visit := @rev Z; Stats l := mkCounters (Z.of_nat (length l)) 0 0; accessible s := negb (String.eqb s "x");
     MediaIDs c := match c with ByAlbums ids => ids | _ => [] end;
     text_as_id := Atoi |}.
Lemma reversed_laws : @PlaylistLaws reversed_env.
Proof. constructor. intros l. symmetry. apply Permutation_rev. Qed.

Definition two_playlists : db :=
  mkDb {[ "p" := mkPlaylist "p" "mix" "" "u" false "" false 0 0 None None (mkCounters 3 0 0) [] ]}
    (list_to_map [(("p", 1), "a"); (("p", 2), "b"); (("p", 3), "c"); (("q", 1), "z")]) [] 5 [].
Definition some_ops : list track_op :=
  [OpInsert ["d"; "x"; "e"] 2; OpReorder 1 9; OpAddAlbums ["f"]; OpDelete ["2"; "4"]; OpReorder 8 1; OpAdd ["a"]].

Lemma two_playlists_hold : stands_for (H := reversed_env) "p" two_playlists ["a"; "b"; "c"].
Proof.
  split; [done|]. split.
  - intros i. unfold rows, lrows, two_playlists. cbn [d_tracks list_to_map foldr fst snd uncurry].
    destruct (decide (i = 1)) as [->|]; [done|]. destruct (decide (i = 2)) as [->|]; [done|]. destruct (decide (i = 3)) as [->|]; [done|].
    rewrite !lookup_insert_ne by congruence. rewrite lookup_empty. destruct (Z.leb_spec 1 i); [|done]. symmetry. apply lookup_ge_None. cbn. lia.
  - intros p [= <-]. exists ["a"; "b"; "c"]. done.
Qed.

Lemma track_ops_refine_witness :
  let '(d, rs) := run_ops (H := reversed_env) "p" some_ops two_playlists in
  rs = [Ok 2; Ok 0; Ok 1; Ok 0; Err ErrNotFound; Ok 1] /\ holds "p" d ["d"; "b"; "a"; "f"; "a"] /\
  same_others "p" two_playlists d.
Proof.
  pose proof (track_ops_refine (H0 := reversed_laws) "p" some_ops two_playlists ["a"; "b"; "c"] two_playlists_hold ltac:(done)) as Hr.
  destruct (run_ops _ _ _) as [d rs]. destruct Hr as (-> & (_ & Hl & _) & Hs). split; [reflexivity|]. split; [|exact Hs].
  exact Hl.
Defined.
