(* ===== verification/PlaylistOrphans.v ===== *)
(** * Removing orphan tracks

    [removeOrphans] of [persistence/playlist_repository.go] on playlists that hold
    lists: the songs that left the library are gone, the others keep their order. *)

From stdpp Require Import sorting.
From S2P Require Import Prelude GoStrings Model Criteria PlaylistDb PlaylistTracks PlaylistSpec.

Local Open Scope Z_scope.
Local Open Scope db_scope.

Section orphans.
Context `{PlaylistLaws} (in_library : string -> bool) (grouped : list string -> list string).
Hypothesis grouped_perm : forall l, grouped l ≡ₚ l.

Lemma kept_filter f i l : kept_by (fun _ x => f x) i l = List.filter f l.
Proof. revert i. induction l as [|x l IH]; intros i; cbn; [done|]. destruct (f x); by rewrite IH. Qed.

Lemma lookup_orphans pid d q i :
  filter (fun '((p, _), mf) => ~ (p = pid /\ in_library mf = false)) (d_tracks d) !! (q, i) =
  match rows q d i with Some mf => if bool_decide (q = pid) && negb (in_library mf) then None else Some mf | None => None end.
Proof.
  unfold rows. destruct (d_tracks d !! (q, i)) as [mf|] eqn:E; [|apply map_lookup_filter_None_2; by left].
  destruct (bool_decide (q = pid) && negb (in_library mf)) eqn:Eb.
  - apply andb_true_iff in Eb as [->%bool_decide_eq_true Hn%negb_true_iff]. apply map_lookup_filter_None_2. right. intros x Hx. replace x with mf by congruence. tauto.
  - apply map_lookup_filter_Some_2; [done|]. intros [-> Hn]. by rewrite bool_decide_eq_true_2, Hn in Eb.
Qed.

(** Cleaning a playlist that has an orphan. *)
Lemma clean_one pid d l :
  stands_for pid d l -> existsb (fun mf => negb (in_library mf)) l = true ->
  exists d1 n d2, deleteOrphans in_library pid d = (d1, Ok n) /\ n <> 0 /\ renumber pid d1 = (d2, Ok ()) /\ same_others pid d d2 /\
    stands_for pid d2 (List.filter in_library l).
Proof.
  intros (Hf & Hl & Hc) Hex. unfold deleteOrphans.
  set (t := filter (fun '((p, _), mf) => ~ (p = pid /\ in_library mf = false)) (d_tracks d)).
  assert (forall q i, t !! (q, i) = match rows q d i with Some mf => if bool_decide (q = pid) && negb (in_library mf) then None else Some mf | None => None end) as Ht
    by apply lookup_orphans.
  exists (set_tracks t d), (Z.of_nat (size (d_tracks d)) - Z.of_nat (size t)).
  destruct (renumber_ok pid (set_tracks t d)) as (d2 & R2 & S2 & F2 & C2 & H2); [done| |].
  { intros j Hj. unfold rows. cbn. rewrite Ht, Hl. by rewrite (proj2 (lrows_None l j)) by lia. }
  exists d2. split; [by apply exec_ok|]. split; [|split; [done|split]].
  - apply existsb_exists in Hex as (mf & Hin%list_elem_of_In & Hn). apply list_elem_of_lookup in Hin as [k Hk].
    assert (rows pid d (Z.of_nat k + 1) = Some mf) as Hrow.
    { rewrite Hl. unfold lrows. destruct (Z.leb_spec 1 (Z.of_nat k + 1)); [|lia]. by replace (Z.to_nat _) with k by lia. }
    assert (t ⊆ d_tracks d) as Hsub by apply map_filter_subseteq. pose proof (map_subseteq_size _ _ Hsub).
    intros Hz. assert (t = d_tracks d) as Heq by (apply map_subseteq_size_eq; [done|lia]).
    specialize (Ht pid (Z.of_nat k + 1)). rewrite Hrow, Hn, bool_decide_eq_true_2, Heq in Ht by done. unfold rows in Hrow. cbn in Ht. congruence.
  - etrans; [|exact S2]. split; [done|]. split; [done|]. split; [|done]. intros p j Hp. unfold rows at 1. cbn. rewrite Ht.
    rewrite bool_decide_eq_false_2 by done. cbn. by destruct (rows p d j).
  - apply counted_stands; [done| |done]. rewrite (contents_kept pid (fun _ => in_library) (set_tracks t d) l), kept_filter in H2; [done|].
    intros j. unfold rows. cbn. rewrite Ht, bool_decide_eq_true_2, Hl by done. cbn. destruct (lrows l j) as [x|]; [|done]. by destruct (in_library x).
Qed.

Lemma stands_same pid q d d' l : q <> pid -> same_others pid d d' -> stands_for q d l -> stands_for q d' l.
Proof.
  intros Hq (S1 & S2 & S3 & S4) (Hf & Hl & Hc). split; [congruence|]. split; [intros i; by rewrite S3|]. intros p. rewrite S4 by done. apply Hc.
Qed.

Lemma clean_each_ok pids d lists :
  NoDup pids -> d_faults d = [] -> (forall q, q ∈ pids -> stands_for q d (lists q) /\ existsb (fun mf => negb (in_library mf)) (lists q) = true) ->
  exists d', clean_each in_library pids d = (d', Ok ()) /\ (forall q, q ∈ pids -> stands_for q d' (List.filter in_library (lists q))) /\
    forall q l, q ∉ pids -> stands_for q d l -> stands_for q d' l.
Proof.
  revert d. induction pids as [|pid pids IH]; intros d Hnd Hf Hst; cbn [clean_each].
  { exists d. split; [done|]. split; [by intros q ?%not_elem_of_nil|done]. }
  apply list.NoDup_cons in Hnd as [Hpid Hnd]. destruct (Hst pid ltac:(left)) as [Hp He].
  destruct (clean_one pid d (lists pid) Hp He) as (d1 & n & d2 & R1 & Hn & R2 & S2 & Hp2).
  destruct (IH d2) as (d' & Hrun & Hdone & Hkeep); [done|by destruct Hp2| |].
  { intros q Hq. destruct (Hst q ltac:(by right)) as [Hq1 Hq2]. split; [|done]. eapply stands_same; [|done..]. by intros ->. }
  exists d'. rewrite (bind_ok _ _ _ _ _ R1). destruct (Z.eqb_spec n 0) as [|_]; [done|]. rewrite (bind_ok _ _ _ _ _ R2). split; [done|]. split.
  - intros q [->|Hq]%elem_of_cons; [by apply Hkeep|by apply Hdone].
  - intros q l Hq Hql. apply not_elem_of_cons in Hq as [Hq1 Hq2]. apply Hkeep; [done|]. by eapply stands_same.
Qed.

(** Without failures the cleaning succeeds, and every playlist is left with its songs
    that are in the library, in order and renumbered. *)
Theorem orphans_removed d lists :
  d_faults d = [] -> (forall q p, d_playlists d !! q = Some p -> stands_for q d (lists q)) ->
  exists d', removeOrphans in_library grouped d = (d', Ok ()) /\
    forall q p, d_playlists d !! q = Some p -> stands_for q d' (List.filter in_library (lists q)).
Proof.
  intros Hf Hst. unfold removeOrphans. rewrite (bind_ok _ _ d d (orphaned in_library grouped d)) by (by apply exec_ok).
  assert (forall q, q ∈ orphaned in_library grouped d <-> (exists p, d_playlists d !! q = Some p) /\ existsb (fun mf => negb (in_library mf)) (lists q) = true) as Hor.
  { intros q. unfold orphaned. rewrite grouped_perm, list_elem_of_In, filter_In, <- list_elem_of_In, list_elem_of_fmap. split.
    - intros [([k p] & -> & Hin%elem_of_map_to_list) He]. cbn in *. split; [eauto|]. by rewrite (contents_holds k d (lists k)) in He by (by eapply Hst).
    - intros [[p Hp] He]. split; [exists (q, p); split; [done|by apply elem_of_map_to_list]|]. by rewrite (contents_holds q d (lists q)) by (by eapply Hst). }
  destruct (clean_each_ok (orphaned in_library grouped d) d lists) as (d' & Hrun & Hdone & Hkeep); [|done| |].
  - unfold orphaned. rewrite grouped_perm. apply NoDup_ListNoDup, List.NoDup_filter, NoDup_ListNoDup, NoDup_fst_map_to_list.
  - intros q [[p Hp] He]%Hor. eauto.
  - exists d'. split; [done|]. intros q p Hp. destruct (existsb (fun mf => negb (in_library mf)) (lists q)) eqn:He; [apply Hdone, Hor; eauto|].
    replace (List.filter in_library (lists q)) with (lists q); [apply Hkeep; [rewrite Hor, He; by intros [_ ?]|eauto]|].
    clear -He. induction (lists q) as [|x l IH]; [done|]. cbn in *. apply orb_false_iff in He as [Hx%negb_false_iff Hl]. rewrite Hx. by f_equal; apply IH.
Qed.
End orphans.
