(* ===== verification/PlaylistService.v ===== *)
(** * The playlist service

    [core/playlists/playlists.go] and the REST adapter in front of it,
    [core/playlists/rest_adapter.go]: who may change which playlist, and what runs
    in a transaction ([persistence/persistence.go]). *)

From Stdlib Require Import SpecFloat.
From S2P Require Import Prelude GoStrings Model Criteria PlaylistDb.

Local Open Scope Z_scope.
Local Open Scope db_scope.

(** ** Transactions *)

Definition nop : M unit := exec (fun d => Ok (d, ())).

(** [WithTx]: a failure of the body, which may be a panic, or of the commit undoes
    everything the body did. *)
Definition WithTx {A} (block : M A) : M A :=
  fun d =>
    let '(d1, began) := nop d in
    match began with
    | Err e => (d1, Err e)
    | Ok _ =>
        let '(d2, r) := bind block (fun a => nop ;; ret a) d1 in
        match r with Ok a => (d2, Ok a) | Err e => (set_faults (d_faults d2) d, Err e) end
    end.

(** The lock flag is set before and deleted after the body, errors or not. *)
Definition WithTxImmediate {A} (block : M A) : M A :=
  WithTx (ignore nop ;; (fun d => let '(d, r) := block d in let '(d, _) := nop d in (d, r))).

(** ** Comparing rules *)

(** [reflect.DeepEqual] of values, of expressions and of rules; the maps of
    conditions are equal when they have the same keys with equal values. *)
Fixpoint value_eqb (v w : value) {struct v} : bool :=
  match v, w with
  | VNil, VNil => true
  | VBool a, VBool b => Bool.eqb a b
  | VNum x, VNum y => SFeqb x y
  | VInt a, VInt b => a =? b
  | VStr s, VStr t => String.eqb s t
  | VList l, VList k =>
      (fix list_eqb (l k : list value) : bool :=
         match l, k with [], [] => true | v :: l, w :: k => value_eqb v w && list_eqb l k | _, _ => false end) l k
  | VMap m, VMap n =>
      (length m =? length n)%nat &&
      (fix entries (m : list (string * value)) : bool :=
         match m with
         | [] => true
         | (key, v) :: m => match map_get key n with Some w => value_eqb v w | None => false end && entries m
         end) m
  | _, _ => false
  end.

Fixpoint expr_eqb (e f : Expression) {struct e} : bool :=
  let list_eqb := fix list_eqb (l k : list Expression) : bool :=
    match l, k with [], [] => true | e :: l, f :: k => expr_eqb e f && list_eqb l k | _, _ => false end in
  match e, f with
  | All l, All k => list_eqb l k
  | Any l, Any k => list_eqb l k
  | Leaf op m, Leaf op' n => bool_decide (op = op') && value_eqb (VMap m) (VMap n)
  | _, _ => false
  end.

Definition rulesEqual (a b : option Criteria) : bool :=
  match a, b with
  | None, None => true
  | Some a, Some b =>
      match c_Expression a, c_Expression b with
      | None, None => true
      | Some e, Some f => expr_eqb e f
      | _, _ => false
      end && String.eqb (c_Sort a) (c_Sort b) && String.eqb (c_Order a) (c_Order b) && (c_Limit a =? c_Limit b) &&
      (c_LimitPercent a =? c_LimitPercent b) && (c_Offset a =? c_Offset b) && (c_RefreshDelay a =? c_RefreshDelay b)
  | _, _ => false
  end.

Section service.
Context `{PlaylistEnv} (u : User).

(** ** Permissions *)

Definition may_write (p : Playlist) : bool := u_IsAdmin u || String.eqb (p_OwnerID p) (u_ID u).

Definition checkWritable (id : string) : M Playlist :=
  let* pls := GetPlaylist u id in
  if negb (u_IsAdmin u) && negb (String.eqb (p_OwnerID pls) (u_ID u)) then fail ErrNotAuthorized else ret pls.

Definition checkTracksEditable (playlistID : string) : M Playlist :=
  let* pls := checkWritable playlistID in
  if negb (TracksEditable pls) then fail ErrPlaylistNotEditable else ret pls.

(** The repository of a playlist's tracks; a playlist that cannot be read gives nil,
    and the call that follows panics. *)
Definition Tracks (id : string) : M unit :=
  fun d => let '(d, r) := GetPlaylist u id d in match r with Ok _ => (d, Ok ()) | Err _ => (d, Err NilRepository) end.

(** ** Mutations *)

(** [AddMediaFilesByID] of a playlist without tracks. *)
Definition with_tracks (ids : list string) (p : Playlist) : Playlist :=
  mkPlaylist (p_ID p) (p_Name p) (p_Comment p) (p_OwnerID p) (p_Public p) (p_Path p) (p_Sync p) (p_CreatedAt p) (p_UpdatedAt p)
    (p_Rules p) (p_EvaluatedAt p) (mkCounters (Z.of_nat (length ids)) 0 0) ids.

Definition new_playlist (name : string) : Playlist :=
  mkPlaylist "" name "" (u_ID u) false "" false 0 0 None None (mkCounters 0 0 0) [].

Definition Create (newID playlistId name : string) (ids : list string) : M string :=
  WithTxImmediate (
    let* pls := (if String.eqb playlistId "" then ret (new_playlist name)
                 else let* pls := GetPlaylist u playlistId in
                      if negb (u_IsAdmin u) && negb (String.eqb (p_OwnerID pls) (u_ID u)) then fail ErrNotAuthorized
                      else if negb (TracksEditable pls) then fail ErrPlaylistNotEditable
                      else ret pls) in
    Put newID (with_tracks ids pls)).

Definition Delete (id : string) : M unit :=
  let* _pls := checkWritable id in DeletePlaylist u id.

Definition with_metadata (name comment : option string) (public : option bool) (p : Playlist) : Playlist :=
  mkPlaylist (p_ID p) (default (p_Name p) name) (default (p_Comment p) comment) (p_OwnerID p) (default (p_Public p) public) (p_Path p) (p_Sync p)
    (p_CreatedAt p) (p_UpdatedAt p) (p_Rules p) (p_EvaluatedAt p) (p_Counters p) (p_Tracks p).

(** [newID] matters only for a playlist without an id. *)
Definition updateMetadata (pls : Playlist) (name comment : option string) (public : option bool) : M unit :=
  let* _id := Put "" (with_metadata name comment public pls) in ret ().

(** What [Update] runs in its transaction. *)
Definition updateBlock (playlistID : string) (pls : Playlist) (name comment : option string) (public : option bool) (idsToAdd : list string) (idxToRemove : list Z) : M unit :=
  match idxToRemove with
  | _ :: _ =>
      Tracks playlistID ;;
      DeleteFromPlaylist playlistID ((fun idx => Itoa (wrap64 (idx + 1))) <$> idxToRemove) ;;
      match idsToAdd with [] => ret () | _ => let* _n := AddToPlaylist playlistID idsToAdd in ret () end ;;
      updateMetadata pls name comment public
  | [] =>
      match idsToAdd with [] => ret () | _ => Tracks playlistID ;; let* _n := AddToPlaylist playlistID idsToAdd in ret () end ;;
      match name, comment, public with
      | None, None, None => ret ()
      | _, _, _ => updateMetadata pls name comment public
      end
  end.

Definition Update (playlistID : string) (name comment : option string) (public : option bool) (idsToAdd : list string) (idxToRemove : list Z) : M unit :=
  let* pls := (match idsToAdd, idxToRemove with
               | [], [] => checkWritable playlistID
               | _, _ => checkTracksEditable playlistID
               end) in
  WithTxImmediate (updateBlock playlistID pls name comment public idsToAdd idxToRemove).

(** ** Tracks *)

Definition AddTracks (playlistID : string) (ids : list string) : M Z :=
  checkTracksEditable playlistID ;; Tracks playlistID ;; AddToPlaylist playlistID ids.
Definition InsertTracks (playlistID : string) (ids : list string) (pos : Z) : M Z :=
  checkTracksEditable playlistID ;; WithTxImmediate (Tracks playlistID ;; Insert playlistID ids pos).
Definition ServiceAddAlbums (playlistID : string) (albumIds : list string) : M Z :=
  checkTracksEditable playlistID ;; Tracks playlistID ;; AddAlbums playlistID albumIds.
Definition ServiceAddArtists (playlistID : string) (artistIds : list string) : M Z :=
  checkTracksEditable playlistID ;; Tracks playlistID ;; AddArtists playlistID artistIds.
Definition ServiceAddDiscs (playlistID : string) (discs : list (string * string * Z)) : M Z :=
  checkTracksEditable playlistID ;; Tracks playlistID ;; AddDiscs playlistID discs.
Definition RemoveTracks (playlistID : string) (trackIds : list string) : M unit :=
  checkTracksEditable playlistID ;; WithTx (Tracks playlistID ;; DeleteFromPlaylist playlistID trackIds).
Definition ReorderTrack (playlistID : string) (pos newPos : Z) : M unit :=
  checkTracksEditable playlistID ;; WithTxImmediate (Tracks playlistID ;; Reorder playlistID pos newPos).

(** ** The REST adapter *)

Definition savePlaylist (newID : string) (pls : Playlist) : M string :=
  Put newID (mkPlaylist "" (p_Name pls) (p_Comment pls) (u_ID u) (p_Public pls) "" false (p_CreatedAt pls) (p_UpdatedAt pls) (p_Rules pls) None
               (p_Counters pls) (p_Tracks pls)).

Definition sentFields (cols : list string) (field : string) : bool :=
  match cols with [] => true | _ => existsb (fun c => String.eqb (ToLower c) (ToLower field)) cols end.

Definition applyContentUpdate (current entity : Playlist) (sent : string -> bool) (nameChanged commentChanged ownerChanged rulesChanged : bool) : M unit :=
  let current := mkPlaylist (p_ID current) (p_Name current) (p_Comment current) (if ownerChanged then p_OwnerID entity else p_OwnerID current)
    (p_Public current) (p_Path current)
    (if sent "sync" && negb (String.eqb (p_Path current) "") && negb (Bool.eqb (p_Sync current) (p_Sync entity)) then p_Sync entity else p_Sync current)
    (p_CreatedAt current) (p_UpdatedAt current)
    (if rulesChanged then p_Rules entity else p_Rules current) (if rulesChanged then None else p_EvaluatedAt current)
    (p_Counters current) (p_Tracks current) in
  updateMetadata current (if nameChanged then Some (p_Name entity) else None) (if commentChanged then Some (p_Comment entity) else None)
    (if sent "public" then Some (p_Public entity) else None).

Definition with_flags (sync public : bool) (p : Playlist) : Playlist :=
  mkPlaylist (p_ID p) (p_Name p) (p_Comment p) (p_OwnerID p) public (p_Path p) sync (p_CreatedAt p) (p_UpdatedAt p) (p_Rules p) (p_EvaluatedAt p)
    (p_Counters p) (p_Tracks p).

Definition applyFlagsOnly (current entity : Playlist) (sent : string -> bool) : M unit :=
  let syncs := sent "sync" && negb (String.eqb (p_Path current) "") && negb (Bool.eqb (p_Sync current) (p_Sync entity)) in
  let publics := sent "public" && negb (Bool.eqb (p_Public current) (p_Public entity)) in
  match (if syncs then ["sync"] else []) ++ (if publics then ["public"] else []) with
  | [] => ret ()
  | cols => PutCols (with_flags (if syncs then p_Sync entity else p_Sync current) (if publics then p_Public entity else p_Public current) current) cols
  end.

(** What [updatePlaylistEntity] does with the record it may write. *)
Definition applyEntity (current entity : Playlist) (cols : list string) : M unit :=
  let sent := sentFields cols in
  let ownerChanged := sent "ownerId" && negb (String.eqb (p_OwnerID entity) "") && negb (String.eqb (p_OwnerID entity) (p_OwnerID current)) in
  if negb (u_IsAdmin u) && ownerChanged then fail ErrNotAuthorized
  else
    let nameChanged := sent "name" && negb (String.eqb (p_Name entity) (p_Name current)) in
    let commentChanged := sent "comment" && negb (String.eqb (p_Comment entity) (p_Comment current)) in
    let rulesChanged := sent "rules" && negb (rulesEqual (p_Rules current) (p_Rules entity)) in
    if nameChanged || commentChanged || ownerChanged || rulesChanged
    then applyContentUpdate current entity sent nameChanged commentChanged ownerChanged rulesChanged
    else applyFlagsOnly current entity sent.

Definition updatePlaylistEntity (id : string) (entity : Playlist) (cols : list string) : M unit :=
  let* current := checkWritable id in applyEntity current entity cols.

Fixpoint DeleteMany (ids : list string) : M unit :=
  match ids with
  | [] => ret ()
  | id :: ids => Delete id ;; DeleteMany ids
  end.

(** ** Calls *)

Inductive service_call :=
| CallCreate (newID playlistId name : string) (ids : list string)
| CallDelete (id : string)
| CallUpdate (id : string) (name comment : option string) (public : option bool) (idsToAdd : list string) (idxToRemove : list Z)
| CallAddTracks (id : string) (ids : list string)
| CallInsertTracks (id : string) (ids : list string) (pos : Z)
| CallAddAlbums (id : string) (ids : list string)
| CallAddArtists (id : string) (ids : list string)
| CallAddDiscs (id : string) (discs : list (string * string * Z))
| CallRemoveTracks (id : string) (trackIds : list string)
| CallReorderTrack (id : string) (pos newPos : Z)
| CallSave (newID : string) (entity : Playlist)
| CallUpdateEntity (id : string) (entity : Playlist) (cols : list string)
| CallDeleteMany (ids : list string).

Definition void {A} (m : M A) : M unit := let* _a := m in ret ().

Definition run_call (c : service_call) : M unit :=
  match c with
  | CallCreate newID playlistId name ids => void (Create newID playlistId name ids)
  | CallDelete id => Delete id
  | CallUpdate id name comment public idsToAdd idxToRemove => Update id name comment public idsToAdd idxToRemove
  | CallAddTracks id ids => void (AddTracks id ids)
  | CallInsertTracks id ids pos => void (InsertTracks id ids pos)
  | CallAddAlbums id ids => void (ServiceAddAlbums id ids)
  | CallAddArtists id ids => void (ServiceAddArtists id ids)
  | CallAddDiscs id discs => void (ServiceAddDiscs id discs)
  | CallRemoveTracks id trackIds => RemoveTracks id trackIds
  | CallReorderTrack id pos newPos => ReorderTrack id pos newPos
  | CallSave newID entity => void (savePlaylist newID entity)
  | CallUpdateEntity id entity cols => updatePlaylistEntity id entity cols
  | CallDeleteMany ids => DeleteMany ids
  end.
End service.
