(* ===== verification/PlaylistAccess.v ===== *)
(** * Who changes which playlist

    Frame conditions of the repository's statements, whatever fails, and what the
    checks of the service make of them. *)

From stdpp Require Import sorting.
From S2P Require Import Prelude GoStrings Model Criteria PlaylistDb PlaylistTracks PlaylistService.

Local Open Scope Z_scope.
Local Open Scope db_scope.

(** ** Relations every outcome satisfies *)

Definition always (R : relation db) {A} (m : M A) : Prop := forall d, R d (m d).1.

(** A relation the consumption of faults respects. *)
Class Outcome (R : relation db) := { outcome_pre :: PreOrder R; outcome_faults f d : R d (set_faults f d) }.

Section always.
Context `{Outcome R}.

Lemma always_ret {A} (a : A) : always R (ret a).
Proof. intros d. done. Qed.
Lemma always_fail {A} e : always R (@fail A e).
Proof. intros d. done. Qed.
Lemma always_bind {A B} (m : M A) (k : A -> M B) : always R m -> (forall a, always R (k a)) -> always R (bind m k).
Proof.
  intros Hm Hk d. specialize (Hm d). unfold bind. destruct (m d) as [d1 [a|e]]; cbn in *; [|done]. etrans; [exact Hm|]. apply Hk.
Qed.
Lemma always_bind_value {A B} (m : M A) (k : A -> M B) a :
  always R m -> (forall d x, (m d).2 = Ok x -> x = a) -> always R (k a) -> always R (bind m k).
Proof.
  intros Hm Ha Hk d. specialize (Hm d). unfold bind. specialize (Ha d). destruct (m d) as [d1 [x|e]]; cbn in *; [|done].
  rewrite (Ha x eq_refl). etrans; [exact Hm|]. apply Hk.
Qed.
Lemma always_ignore {A} (m : M A) : always R m -> always R (ignore m).
Proof. intros Hm d. specialize (Hm d). unfold ignore. by destruct (m d). Qed.
Lemma always_exec {A} (f : db -> result perr (db * A)) : (forall d d' a, f d = Ok (d', a) -> R d d') -> always R (exec f).
Proof.
  intros Hf d. unfold exec.
  assert (forall d, R d (match f d with Ok (d', a) => (d', Ok a) | Err e => (d, Err e) end).1) as Hgo.
  { intros d0. destruct (f d0) as [[d' a]|e] eqn:E; [by eapply Hf|done]. }
  destruct (d_faults d) as [|[e|] faults]; [|apply outcome_faults|]; (etrans; [apply outcome_faults|apply Hgo]).
Qed.
Lemma always_WithTx {A} (m : M A) : always R m -> always R (WithTx m).
Proof.
  intros Hm d. unfold WithTx. assert (always R nop) as Hnop by (apply always_exec; by intros d0 d1 a [= ->]).
  pose proof (Hnop d) as H1. destruct (nop d) as [d1 [[]|e]]; cbn in *; [|done].
  pose proof (always_bind m (fun a => nop ;; ret a) Hm (fun a => always_bind _ _ Hnop (fun _ => always_ret a)) d1) as H2.
  destruct (bind m _ d1) as [d2 [a|e]]; cbn in *; [by etrans|apply outcome_faults].
Qed.
Lemma always_WithTxImmediate {A} (m : M A) : always R m -> always R (WithTxImmediate m).
Proof.
  intros Hm. assert (always R nop) as Hnop by (apply always_exec; by intros d0 d1 a [= ->]).
  apply always_WithTx, always_bind; [by apply always_ignore|]. intros _ d. specialize (Hm d). destruct (m d) as [d1 r]. cbn in Hm.
  specialize (Hnop d1). destruct (nop d1) as [d2 r2]. cbn in *. by etrans.
Qed.
Lemma always_GetPlaylist u id : always R (GetPlaylist u id).
Proof.
  apply always_bind; [apply always_exec; by intros d0 d1 a [= -> _]|]. intros [p|]; [destruct (visible u p)|]; apply always_ret || apply always_fail.
Qed.
Lemma always_Tracks u id : always R (Tracks u id).
Proof. intros d. pose proof (always_GetPlaylist u id d). unfold Tracks. by destruct (GetPlaylist u id d) as [d1 [|]]. Qed.
End always.

(** Walks through a program; the statements are in the hint database. *)
Create HintDb frame.
Ltac walk :=
  repeat first [ apply always_ret | apply always_fail | solve [auto 1 with frame] | apply always_GetPlaylist | apply always_Tracks
               | apply always_ignore | apply always_WithTxImmediate | apply always_WithTx | apply always_bind | intros ? ].

(** ** Edits of one playlist *)

(** What identifies a record and its owner. *)
Definition who (p : Playlist) : string * string * list string := (p_ID p, p_OwnerID p, p_Tracks p).

(** Nothing but [pid] changes; its rows only if [ed]; its record keeps its id and its
    owner, unless it is written anew, with the owner [o]. *)
Record edits (pid o : string) (ed : bool) (d d' : db) : Prop := {
  edits_records q : q <> pid -> d_playlists d' !! q = d_playlists d !! q;
  edits_rows q i : q <> pid \/ ed = false -> rows q d' i = rows q d i;
  edits_record p' : d_playlists d' !! pid = Some p' ->
    (exists p, d_playlists d !! pid = Some p /\ who p' = who p) \/ who p' = (pid, o, []) }.

#[export] Instance edits_outcome pid o ed : Outcome (edits pid o ed).
Proof.
  split; [split|].
  - intros d. split; eauto.
  - intros d1 d2 d3 [A1 A2 A3] [B1 B2 B3]. split.
    + intros q Hq. by rewrite B1, A1.
    + intros q i Hq. by rewrite B2, A2.
    + intros p3 H3. destruct (B3 p3 H3) as [(p2 & H2 & ->)|]; [|by right]. destruct (A3 p2 H2) as [(p1 & H1 & ->)|]; eauto.
  - intros f d. split; eauto.
Qed.

Lemma move_rows_others pid f ids t t' q i : q <> pid -> move_rows pid f ids t = Some t' -> t' !! (q, i) = t !! (q, i).
Proof.
  intros Hq. revert t. induction ids as [|j ids IH]; intros t; cbn; [by intros [= <-]|]. unfold move_row.
  destruct (t !! (pid, j)); cbn; [|by apply IH]. destruct (delete (pid, j) t !! (pid, f j)); cbn; [done|]. intros Hm.
  rewrite (IH _ Hm), lookup_insert_ne, lookup_delete_ne by congruence. done.
Qed.
Lemma put_rows_others pid l t t' q i : q <> pid -> put_rows pid l t = Some t' -> t' !! (q, i) = t !! (q, i).
Proof.
  intros Hq. revert t. induction l as [|[j mf] l IH]; intros t; cbn; [by intros [= <-]|]. destruct (t !! (pid, j)); [done|].
  intros Hm. by rewrite (IH _ Hm), lookup_insert_ne by congruence.
Qed.

Section statements.
Context `{PlaylistEnv} (pid o : string).

Lemma edits_set_tracks d t : (forall q i, q <> pid -> t !! (q, i) = d_tracks d !! (q, i)) -> edits pid o true d (set_tracks t d).
Proof. intros Ht. split; [done| |eauto]. intros q i [Hq|]; [|done]. by apply Ht. Qed.

Lemma always_read {A} ed (f : db -> A) : always (edits pid o ed) (exec (fun d => Ok (d, f d))).
Proof. apply always_exec. by intros d d' a [= -> _]. Qed.
Lemma updateIDs_edits cond f : always (edits pid o true) (updateIDs pid cond f).
Proof.
  apply always_exec. intros d d' n. cbv zeta. destruct (move_rows pid f _ (d_tracks d)) as [t|] eqn:E; [|done]. intros [= <- _]. apply edits_set_tracks.
  intros q i Hq. by apply (move_rows_others pid _ _ _ _ _ _ Hq E).
Qed.
Lemma deleteIDs_edits cond : always (edits pid o true) (deleteIDs pid cond).
Proof.
  apply always_exec. intros d d' n [= <- _]. apply edits_set_tracks. intros q i Hq. destruct (d_tracks d !! (q, i)) as [x|] eqn:E.
  - apply map_lookup_filter_Some_2; [done|]. by intros [-> _].
  - apply map_lookup_filter_None_2. by left.
Qed.
Lemma insertRows_edits l : always (edits pid o true) (insertRows pid l).
Proof.
  apply always_exec. intros d d' n. destruct (put_rows pid l (d_tracks d)) as [t|] eqn:E; [|done]. intros [= <- _]. apply edits_set_tracks.
  intros q i Hq. by apply (put_rows_others pid _ _ _ _ _ Hq E).
Qed.
Lemma maxID_edits ed : always (edits pid o ed) (maxID pid).
Proof. apply always_exec. intros d d' a. cbv zeta. destruct (_ <? _); [|done]. by intros [= -> _]. Qed.
Lemma enqueue_edits ed : always (edits pid o ed) (enqueueCoverRebuild pid).
Proof. apply always_ignore, always_exec. intros d d' a [= <- _]. split; eauto. Qed.
Lemma refreshCounters_edits ed : always (edits pid o ed) (refreshCounters pid).
Proof.
  apply always_bind; [apply always_read|]. intros c. apply always_exec. intros d d' a [= <- _]. split; cbn; [|done|].
  - intros q Hq. by rewrite lookup_alter_ne.
  - rewrite lookup_alter_eq. destruct (d_playlists d !! pid) as [p|]; [|done]. intros p' [= <-]. left. by exists p.
Qed.
Hint Resolve updateIDs_edits deleteIDs_edits insertRows_edits maxID_edits enqueue_edits refreshCounters_edits always_read : frame.

Lemma renumber_edits : always (edits pid o true) (renumber pid).
Proof. unfold renumber. apply always_bind; [|intros _; apply always_bind; [intros d; apply updateIDs_edits|]]; walk. Qed.
Lemma found_in_edits cs : always (edits pid o true) (found_in cs).
Proof. induction cs as [|c cs IH]; cbn [found_in]; walk. Qed.
Lemma insert_chunks_edits pos cs : always (edits pid o true) (insert_chunks pid pos cs).
Proof. revert pos. induction cs as [|c cs IH]; intros pos; cbn [insert_chunks]; walk. Qed.
Lemma delete_chunks_edits cs : always (edits pid o true) (delete_chunks pid cs).
Proof. induction cs as [|c cs IH]; cbn [delete_chunks]; walk. Qed.
Hint Resolve renumber_edits found_in_edits insert_chunks_edits delete_chunks_edits : frame.

Lemma addTracks_edits pos ids : always (edits pid o true) (addTracks pid pos ids).
Proof. unfold addTracks, keepAccessible. walk. Qed.
Hint Resolve addTracks_edits : frame.
Lemma updatePlaylist_edits ids : always (edits pid o true) (updatePlaylist pid ids).
Proof. unfold updatePlaylist. walk. Qed.
Lemma AddToPlaylist_edits ids : always (edits pid o true) (AddToPlaylist pid ids).
Proof. unfold AddToPlaylist. destruct ids; walk. Qed.
Hint Resolve updatePlaylist_edits AddToPlaylist_edits : frame.
Lemma Insert_edits ids pos : always (edits pid o true) (Insert pid ids pos).
Proof.
  unfold Insert. destruct ids; [walk|]. do 2 (apply always_bind; [walk|]; intros ?).
  destruct (_ =? 0); [walk|]. apply always_bind; [walk|]. intros n. destruct (_ =? _); walk.
Qed.
Lemma addMediaFileIds_edits c : always (edits pid o true) (addMediaFileIds pid c).
Proof. unfold addMediaFileIds. walk. Qed.
Lemma DeleteFromPlaylist_edits ids : always (edits pid o true) (DeleteFromPlaylist pid ids).
Proof. unfold DeleteFromPlaylist. walk. Qed.
Lemma Reorder_edits pos newPos : always (edits pid o true) (Reorder pid pos newPos).
Proof.
  unfold Reorder. apply always_bind; [walk|]. intros last. destruct (_ || _); [walk|].
  destruct (_ =? _); [walk|]. destruct (_ <? _); walk.
Qed.

Lemma insertPlaylist_edits p ed : p_OwnerID p = o -> always (edits pid o ed) (insertPlaylist pid p).
Proof.
  intros Ho. apply always_exec. intros d d' a. destruct (d_playlists d !! pid) as [old|]; [done|]. intros [= <- _]. split; cbn; [|done|].
  - intros q Hq. by rewrite lookup_insert_ne.
  - rewrite lookup_insert_eq. intros p' [= <-]. right. unfold who. cbn. by rewrite Ho.
Qed.
Lemma upsert_edits write p ed :
  p_OwnerID p = o -> (forall old, who (write old) = who old \/ who (write old) = (pid, o, [])) ->
  always (edits pid o ed) (upsertPlaylist pid write p).
Proof.
  intros Ho Hw. apply always_bind; [|intros [|]; [walk|by apply insertPlaylist_edits]].
  apply always_exec. intros d d' a. destruct (d_playlists d !! pid) as [old|] eqn:Eo; intros [= <- _]; [|done]. split; cbn; [|done|].
  - intros q Hq. by rewrite lookup_insert_ne.
  - rewrite lookup_insert_eq. intros p' [= <-]. destruct (Hw old); eauto.
Qed.
Lemma putRow_edits newID p ed :
  p_OwnerID p = o -> (if String.eqb (p_ID p) "" then newID else p_ID p) = pid -> always (edits pid o ed) (putRow newID p).
Proof.
  intros Ho Hid. unfold putRow. destruct (String.eqb (p_ID p) ""); rewrite Hid; [by apply insertPlaylist_edits|].
  apply upsert_edits; [done|]. intros old. right. unfold who. cbn. congruence.
Qed.
Lemma exec_returns {A} (f : db -> result perr (db * A)) (P : A -> Prop) d a :
  (forall d d' a, f d = Ok (d', a) -> P a) -> (exec f d).2 = Ok a -> P a.
Proof.
  intros Hf. unfold exec.
  assert (forall d, (match f d with Ok (d', a) => (d', Ok a) | Err e => (d, Err e) end).2 = Ok a -> P a) as Hgo.
  { intros d0. destruct (f d0) as [[d' b]|e] eqn:E; cbn; [|done]. intros [= <-]. by eapply Hf. }
  destruct (d_faults d) as [|[e|] faults]; [apply Hgo|done|apply Hgo].
Qed.
Lemma putRow_returns newID p d id : (putRow newID p d).2 = Ok id -> id = if String.eqb (p_ID p) "" then newID else p_ID p.
Proof.
  assert (forall i d x, (insertPlaylist i p d).2 = Ok x -> x = i) as Hins.
  { intros i d0 x. apply (exec_returns _ (fun x => x = i)). intros d1 d2 y. destruct (d_playlists d1 !! i); [done|]. by intros [= _ <-]. }
  unfold putRow. destruct (String.eqb (p_ID p) ""); [apply Hins|]. unfold upsertPlaylist, bind.
  destruct (exec _ d) as [d1 [[|]|e]]; cbn; [by intros [= <-]|apply Hins|done].
Qed.

Lemma Put_edits newID p ed :
  p_OwnerID p = o -> (if String.eqb (p_ID p) "" then newID else p_ID p) = pid -> (ed = true \/ p_Tracks p = []) ->
  always (edits pid o ed) (Put newID p).
Proof.
  intros Ho Hid Hed. unfold Put. apply always_bind; [by intros d|]. intros now. apply (always_bind_value _ _ pid); [by apply putRow_edits| |].
  { intros d x Hx%putRow_returns. cbn in Hx. by rewrite <- Hid. }
  destruct (IsSmartPlaylist p); [walk|]. destruct (p_Tracks p) as [|mf l]; [|destruct Hed as [->|]; [walk|done]].
  apply always_bind; [destruct (String.eqb (p_ID p) "")|]; walk.
Qed.

Lemma PutCols_edits p cols ed : p_OwnerID p = o -> p_ID p = pid -> always (edits pid o ed) (PutCols p cols).
Proof.
  intros Ho Hid. unfold PutCols. destruct (String.eqb (p_ID p) ""); [walk|]. rewrite Hid. apply always_bind; [|walk].
  apply upsert_edits; [done|]. by left.
Qed.
End statements.

#[export] Hint Resolve AddToPlaylist_edits Insert_edits addMediaFileIds_edits DeleteFromPlaylist_edits Reorder_edits : frame.

(** ** The checks *)

Section service.
Context `{PlaylistEnv} (u : User).

(** A check leaves the tables alone, and what it lets through is in them. *)
Definition passes (P : db -> Playlist -> Prop) (m : M Playlist) : Prop :=
  forall d, exists f, (m d).1 = set_faults f d /\ forall p, (m d).2 = Ok p -> P d p.

Lemma passes_GetPlaylist id : passes (fun d p => d_playlists d !! id = Some p) (GetPlaylist u id).
Proof.
  intros d. unfold GetPlaylist, bind, exec.
  destruct (d_faults d) as [|[e|] faults]; cbn; [|exists faults; done|]; eexists; destruct (d_playlists d !! id) as [p|]; cbn;
    try (destruct (visible u p); cbn); split; try done; by intros p' [= ->].
Qed.

Lemma passes_bind P (m : M Playlist) (guard : Playlist -> bool) e :
  passes P m -> passes (fun d p => P d p /\ guard p = false) (let* p := m in if guard p then fail e else ret p).
Proof.
  intros Hm d. destruct (Hm d) as (f & Hd & Hp). exists f. unfold bind. destruct (m d) as [d1 [p|e']]; cbn in *; [|done]. subst d1.
  destruct (guard p) eqn:Eg; cbn; [done|]. split; [done|]. intros p' [= ->]. auto.
Qed.

Lemma may_write_guard p : negb (u_IsAdmin u) && negb (String.eqb (p_OwnerID p) (u_ID u)) = negb (may_write u p).
Proof. unfold may_write. by destruct (u_IsAdmin u), (String.eqb _ _). Qed.

Lemma passes_checkWritable id : passes (fun d p => d_playlists d !! id = Some p /\ may_write u p = true) (checkWritable u id).
Proof.
  intros d. destruct (passes_bind _ _ (fun p => negb (u_IsAdmin u) && negb (String.eqb (p_OwnerID p) (u_ID u))) ErrNotAuthorized (passes_GetPlaylist id) d)
    as (f & Hd & Hp). exists f. split; [done|]. intros p (? & Hg)%Hp. rewrite may_write_guard in Hg. by apply negb_false_iff in Hg.
Qed.

Lemma passes_checkTracksEditable id :
  passes (fun d p => (d_playlists d !! id = Some p /\ may_write u p = true) /\ negb (TracksEditable p) = false) (checkTracksEditable u id).
Proof. exact (passes_bind _ _ (fun p => negb (TracksEditable p)) ErrPlaylistNotEditable (passes_checkWritable id)). Qed.

(** A check and what runs after it. *)
Lemma passes_then {A} P (m : M Playlist) (k : Playlist -> M A) d :
  passes P m ->
  (exists f e, bind m k d = (set_faults f d, Err e)) \/ exists f p, P d p /\ bind m k d = k p (set_faults f d).
Proof.
  intros Hm. destruct (Hm d) as (f & Hd & Hp). unfold bind. destruct (m d) as [d1 [p|e]]; cbn in *; subst d1; [|eauto].
  right. exists f, p. auto.
Qed.

(** ** What a call is allowed to do *)

(** Records are filed under their id and carry no tracks. *)
Definition keyed (d : db) : Prop := forall q p, d_playlists d !! q = Some p -> p_ID p = q /\ p_Tracks p = [].

Record allowed (d d' : db) : Prop := {
  allowed_keyed : keyed d';
  allowed_others q p : d_playlists d !! q = Some p -> may_write u p = false ->
    d_playlists d' !! q = Some p /\ forall i, rows q d' i = rows q d i;
  allowed_tracks q p : d_playlists d !! q = Some p -> TracksEditable p = false ->
    d_playlists d' !! q = None \/ forall i, rows q d' i = rows q d i;
  allowed_owner q p p' : d_playlists d !! q = Some p -> d_playlists d' !! q = Some p' -> u_IsAdmin u = false -> p_OwnerID p' = p_OwnerID p }.

Lemma allowed_nothing d f : keyed d -> allowed d (set_faults f d).
Proof. intros Hk. split; [done|eauto..|]. intros q p p'. cbn. intros ->. by intros [= ->]. Qed.

Lemma allowed_edits pid o ed d f d' p :
  keyed d -> edits pid o ed (set_faults f d) d' -> d_playlists d !! pid = Some p -> may_write u p = true ->
  (ed = true -> TracksEditable p = true) -> (u_IsAdmin u = false -> o = p_OwnerID p) -> allowed d d'.
Proof.
  intros Hk [Hrec Hrow Hwho] Hp Hw Hed Ho. cbn in *. split.
  - intros q p' Hp'. destruct (decide (q = pid)) as [->|Hq]; [|rewrite Hrec in Hp' by done; by apply Hk].
    destruct (Hwho p' Hp') as [(p0 & Hp0 & [= H1 H2 H3])|[= H1 H2 H3]]; [|done]. rewrite H1, H3. by apply Hk.
  - intros q p0 Hp0 Hn. assert (q <> pid) by congruence. rewrite Hrec by done. split; [done|]. intros i. apply Hrow. by left.
  - intros q p0 Hp0 Hn. right. intros i. destruct (decide (q = pid)) as [->|Hq]; apply Hrow; [|by left]. right.
    destruct ed; [|done]. replace p0 with p in Hn by congruence. by rewrite Hed in Hn.
  - intros q p0 p' Hp0 Hp' Hna. destruct (decide (q = pid)) as [->|Hq]; [|rewrite Hrec in Hp' by done; congruence].
    replace p0 with p in * by congruence. destruct (Hwho p' Hp') as [(p1 & Hp1 & [= H1 H2 H3])|[= H1 H2 H3]]; [congruence|].
    rewrite H2. by apply Ho.
Qed.

Lemma allowed_new pid o d f d' :
  keyed d -> d_playlists d !! pid = None -> edits pid o true (set_faults f d) d' -> allowed d d'.
Proof.
  intros Hk Hp [Hrec Hrow Hwho]. cbn in *. assert (forall q p, d_playlists d !! q = Some p -> q <> pid) as Hne by congruence. split.
  - intros q p' Hp'. destruct (decide (q = pid)) as [->|Hq]; [|rewrite Hrec in Hp' by done; by apply Hk].
    destruct (Hwho p' Hp') as [(p0 & Hp0 & _)|[= H1 H2 H3]]; [congruence|done].
  - intros q p0 Hp0 _. pose proof (Hne q p0 Hp0). rewrite Hrec by done. split; [done|]. intros i. apply Hrow. by left.
  - intros q p0 Hq%Hne _. right. intros i. apply Hrow. by left.
  - intros q p0 p' Hp0 Hp' _. rewrite Hrec in Hp' by (by eapply Hne). congruence.
Qed.

(** ** The calls *)

Lemma void_fst {A} (m : M A) d : (void m d).1 = (m d).1.
Proof. unfold void, bind. by destruct (m d) as [d1 [a|e]]. Qed.

(** An edit of tracks after the check. *)
Lemma tracks_allowed {A} id (k : M A) d :
  keyed d -> (forall o, always (edits id o true) k) -> allowed d (bind (checkTracksEditable u id) (fun _ => k) d).1.
Proof.
  intros Hk Hed. destruct (passes_then _ _ (fun _ => k) d (passes_checkTracksEditable id)) as [(f & e & ->)|(f & p & [[Hp Hw] Ht] & ->)].
  - by apply allowed_nothing.
  - eapply (allowed_edits id (p_OwnerID p) true); [done|apply Hed|done|done| |done]. intros _. by apply negb_false_iff in Ht.
Qed.

Lemma updateMetadata_edits id p name comment public ed :
  p_ID p = id -> (p_Tracks p = []) -> always (edits id (p_OwnerID p) ed) (updateMetadata p name comment public).
Proof.
  intros Hid Ht. apply always_bind; [|walk]. apply Put_edits; [done| |by right]. cbn. rewrite Hid. destruct (String.eqb_spec id ""); congruence.
Qed.

Lemma updateBlock_edits id p name comment public idsToAdd idxToRemove ed :
  p_ID p = id -> p_Tracks p = [] -> (ed = true \/ idsToAdd = [] /\ idxToRemove = []) ->
  always (edits id (p_OwnerID p) ed) (updateBlock u id p name comment public idsToAdd idxToRemove).
Proof.
  intros Hid Ht Hed. pose proof (updateMetadata_edits id p name comment public ed Hid Ht) as Hmeta. unfold updateBlock.
  assert (always (edits id (p_OwnerID p) ed) (match name, comment, public with None, None, None => ret () | _, _, _ => updateMetadata p name comment public end)) as Hm.
  { destruct name, comment, public; done || walk. }
  destruct Hed as [->|[-> ->]]; [|apply always_bind; [walk|done]].
  destruct idxToRemove, idsToAdd; repeat (apply always_bind; [walk|]; intros _); done.
Qed.

Lemma passes_Update id (idsToAdd : list string) (idxToRemove : list Z) :
  passes (fun d p => (d_playlists d !! id = Some p /\ may_write u p = true) /\ (TracksEditable p = true \/ idsToAdd = [] /\ idxToRemove = []))
    (match idsToAdd, idxToRemove with [], [] => checkWritable u id | _, _ => checkTracksEditable u id end).
Proof.
  assert (passes (fun d p => (d_playlists d !! id = Some p /\ may_write u p = true) /\ (TracksEditable p = true \/ idsToAdd = [] /\ idxToRemove = []))
            (checkTracksEditable u id)) as Ht.
  { intros d0. destruct (passes_checkTracksEditable id d0) as (f & Hf & Hp). exists f. split; [done|]. intros p [? ?%negb_false_iff]%Hp. auto. }
  destruct idsToAdd, idxToRemove; try exact Ht. intros d0. destruct (passes_checkWritable id d0) as (f & Hf & Hp).
  exists f. split; [done|]. intros p ?%Hp. auto.
Qed.

Lemma Update_allowed id name comment public idsToAdd idxToRemove d :
  keyed d -> allowed d (Update u id name comment public idsToAdd idxToRemove d).1.
Proof.
  intros Hk. unfold Update.
  destruct (passes_then _ _ (fun pls => WithTxImmediate (updateBlock u id pls name comment public idsToAdd idxToRemove)) d (passes_Update id idsToAdd idxToRemove))
    as [(f & e & ->)|(f & p & [[Hp Hw] Ht] & ->)]; [by apply allowed_nothing|].
  destruct (Hk id p Hp) as [Hid Htr].
  eapply (allowed_edits id (p_OwnerID p) (TracksEditable p)); [done|apply always_WithTxImmediate, updateBlock_edits; done|done..].
Qed.

(** New playlists: an id that is taken is refused. *)
Lemma Put_taken newID p old d :
  p_ID p = "" -> d_playlists d !! newID = Some old -> exists f, (Put newID p d).1 = set_faults f d.
Proof.
  intros Hid Hold. unfold Put, bind at 1, bind at 1. unfold putRow. cbn [stamped p_ID]. rewrite Hid. cbn [String.eqb].
  assert (exists f e, insertPlaylist newID (stamped p true (d_now d)) d = (set_faults f d, Err e)) as (f & e & ->); [|by exists f].
  unfold insertPlaylist, exec. destruct (d_faults d) as [|[e|] faults]; cbn; rewrite ?Hold; eauto.
Qed.

Lemma Put_new_allowed newID p d f : keyed d -> p_ID p = "" -> allowed d (Put newID p (set_faults f d)).1.
Proof.
  intros Hk Hid. destruct (d_playlists d !! newID) as [old|] eqn:Eo.
  - destruct (Put_taken newID p old (set_faults f d) Hid Eo) as [f' ->]. by apply (allowed_nothing d f').
  - eapply (allowed_new newID (p_OwnerID p)); [done..|]. apply Put_edits; [done| |by left]. by rewrite Hid.
Qed.

Lemma updatePlaylistEntity_allowed id entity cols d : keyed d -> allowed d (updatePlaylistEntity u id entity cols d).1.
Proof.
  intros Hk. unfold updatePlaylistEntity.
  destruct (passes_then _ _ (fun current => applyEntity u current entity cols) d (passes_checkWritable id))
    as [(f & e & ->)|(f & p & [Hp Hw] & ->)]; [by apply allowed_nothing|]. unfold applyEntity.
  cbv zeta. set (oc := _ && negb (String.eqb (p_OwnerID entity) (p_OwnerID p))). destruct (Hk id p Hp) as [Hid Htr].
  destruct (negb (u_IsAdmin u) && oc) eqn:Eo; [by apply allowed_nothing|].
  destruct (_ || _ || _ || _).
  - eapply (allowed_edits id (if oc then p_OwnerID entity else p_OwnerID p) false); [done| |done|done|done|].
    + unfold applyContentUpdate. match goal with |- edits _ _ _ _ (updateMetadata ?c ?n ?m ?b _).1 => exact (updateMetadata_edits id c n m b false Hid Htr _) end.
    + intros Hna. rewrite Hna in Eo. cbn in Eo. by rewrite Eo.
  - eapply (allowed_edits id (p_OwnerID p) false); [done| |done|done|done|done]. unfold applyFlagsOnly.
    case_match; [apply always_ret|by apply PutCols_edits].
Qed.

(** ** Transactions *)

Lemma nop_fst d : exists f, (nop d).1 = set_faults f d.
Proof. unfold nop, exec. destruct (d_faults d) as [|[e|] faults]; cbn; eauto. Qed.

(** A transaction changes nothing, or what its body changes when it succeeds. *)
Lemma WithTx_outcome {A} (m : M A) d :
  (exists f e, WithTx m d = (set_faults f d, Err e)) \/
  exists f f' d' a, m (set_faults f d) = (d', Ok a) /\ WithTx m d = (set_faults f' d', Ok a).
Proof.
  unfold WithTx. pose proof (nop_fst d) as [f Hf]. destruct (nop d) as [d1 [[]|e]]; cbn in Hf; subst d1; [|eauto].
  unfold bind. destruct (m (set_faults f d)) as [d2 [a|e]] eqn:Em; [|eauto].
  pose proof (nop_fst d2) as [f' Hf']. destruct (nop d2) as [d3 [[]|e]]; cbn in Hf'; subst d3; [|eauto]. cbn. right. eauto 6.
Qed.

Lemma WithTxImmediate_outcome {A} (m : M A) d :
  (exists f e, WithTxImmediate m d = (set_faults f d, Err e)) \/
  exists f f' d' a, m (set_faults f d) = (d', Ok a) /\ WithTxImmediate m d = (set_faults f' d', Ok a).
Proof.
  unfold WithTxImmediate. destruct (WithTx_outcome (ignore nop ;; (fun d => let '(d, r) := m d in let '(d, _) := nop d in (d, r))) d)
    as [?|(f & f' & d' & a & Hm & ->)]; [by left|]. right. unfold bind, ignore in Hm.
  pose proof (nop_fst (set_faults f d)) as [f1 H1]. destruct (nop (set_faults f d)) as [d1 r1]. cbn in H1. subst d1.
  destruct (m _) as [d2 r] eqn:Em. pose proof (nop_fst d2) as [f2 H2]. destruct (nop d2) as [d3 r3]. cbn in H2. subst d3.
  injection Hm as <- ->. exists f1, f', d2, a. done.
Qed.

Lemma allowed_faults d d' f : allowed d d' -> allowed d (set_faults f d').
Proof. intros [H1 H2 H3 H4]. split; eauto. Qed.

Lemma Create_allowed newID playlistId name ids d : keyed d -> allowed d (Create u newID playlistId name ids d).1.
Proof.
  intros Hk. unfold Create. match goal with |- context [WithTxImmediate ?m d] => set (body := m) end.
  enough (forall f, allowed d (body (set_faults f d)).1) as Hb.
  { destruct (WithTxImmediate_outcome body d) as [(f & e & ->)|(f & f' & d' & a & Hm & ->)]; [by apply allowed_nothing|].
    apply allowed_faults. specialize (Hb f). by rewrite Hm in Hb. }
  intros f. subst body. destruct (String.eqb_spec playlistId ""); [by apply Put_new_allowed|].
  assert (passes (fun d p => (d_playlists d !! playlistId = Some p /\ may_write u p = true) /\ negb (TracksEditable p) = false)
    (let* pls := GetPlaylist u playlistId in
     if negb (u_IsAdmin u) && negb (String.eqb (p_OwnerID pls) (u_ID u)) then fail ErrNotAuthorized
     else if negb (TracksEditable pls) then fail ErrPlaylistNotEditable else ret pls)) as Hpass.
  { intros d0. destruct (passes_checkTracksEditable playlistId d0) as (f0 & Hf0 & Hp0). exists f0.
    unfold checkTracksEditable, checkWritable, bind in *. destruct (GetPlaylist u playlistId d0) as [d1 [p|e]]; [|done].
    by destruct (negb (u_IsAdmin u) && _). }
  destruct (passes_then _ _ (fun pls => Put newID (with_tracks ids pls)) (set_faults f d) Hpass) as [(f' & e & ->)|(f' & p & [[Hp Hw] Ht] & ->)].
  - by apply (allowed_nothing d f').
  - cbn in Hp. destruct (Hk playlistId p Hp) as [Hid Htr]. eapply (allowed_edits playlistId (p_OwnerID p) true d f'); [done| |done|done| |done].
    + apply Put_edits; [done| |by left]. cbn. rewrite Hid. by destruct (String.eqb_spec playlistId "").
    + intros _. by apply negb_false_iff in Ht.
Qed.

(** ** Deleting playlists *)

(** Whole playlists are gone, and those the user may write. *)
Record removes (d d' : db) : Prop := {
  removes_left q p : d_playlists d' !! q = Some p -> d_playlists d !! q = Some p /\ forall i, rows q d' i = rows q d i;
  removes_gone q p : d_playlists d !! q = Some p -> d_playlists d' !! q = None -> may_write u p = true }.

Instance removes_outcome : Outcome removes.
Proof.
  split; [split|].
  - intros d. split; [done|congruence].
  - intros d1 d2 d3 [A1 A2] [B1 B2]. split.
    + intros q p [Hp Hr]%B1. apply A1 in Hp as [Hp Hr']. split; [done|]. intros i. by rewrite Hr, Hr'.
    + intros q p Hp Hn. destruct (d_playlists d2 !! q) as [p2|] eqn:E2; [|by apply (A2 q)].
      assert (p2 = p) as -> by (apply A1 in E2 as [? _]; congruence). by apply (B2 q).
  - intros f d. split; cbn; [done|congruence].
Qed.

Lemma Delete_removes id : always removes (Delete u id).
Proof.
  intros d. unfold Delete. destruct (passes_then _ _ (fun _ => DeletePlaylist u id) d (passes_checkWritable id)) as [(f & e & ->)|(f & p & [Hp Hw] & ->)].
  { apply outcome_faults. }
  etrans; [apply (outcome_faults f)|]. set (d1 := set_faults f d). assert (d_playlists d1 !! id = Some p) as Hp1 by done. clearbody d1.
  unfold DeletePlaylist, exec. enough (forall d2, d_playlists d2 = d_playlists d1 -> d_tracks d2 = d_tracks d1 -> removes d1
    (mkDb (delete id (d_playlists d2)) (filter (fun '((p, _), _) => p <> id) (d_tracks d2)) (d_artwork d2) (d_now d2) (d_faults d2))) as He.
  { destruct (d_faults d1) as [|[e|] faults]; [|apply outcome_faults|]; cbn; rewrite Hp1; destruct (visible u p); cbn; try apply outcome_faults; by apply (He (set_faults _ _)). }
  intros d2 H1 H2. split; cbn; rewrite H1.
  - intros q p' [Hne Hq]%lookup_delete_Some. split; [done|]. intros i. unfold rows. cbn. rewrite H2. destruct (d_tracks d1 !! (q, i)) eqn:E.
    + by apply map_lookup_filter_Some_2.
    + apply map_lookup_filter_None_2. by left.
  - intros q p' Hq [<-|Hn]%lookup_delete_None; congruence.
Qed.

Lemma DeleteMany_removes ids : always removes (DeleteMany u ids).
Proof. induction ids as [|id ids IH]; cbn [DeleteMany]; [apply always_ret|]. apply always_bind; [apply Delete_removes|done]. Qed.

Lemma removes_allowed d d' : keyed d -> removes d d' -> allowed d d'.
Proof.
  intros Hk [Hl Hg]. split.
  - intros q p [Hp _]%Hl. by apply Hk.
  - intros q p Hp Hw. destruct (d_playlists d' !! q) as [p'|] eqn:E; [|by rewrite (Hg q p Hp E) in Hw].
    apply Hl in E as [Hp' Hr]. split; [congruence|done].
  - intros q p Hp _. destruct (d_playlists d' !! q) as [p'|] eqn:E; [right; by apply Hl in E as [_ ?]|by left].
  - intros q p p' Hp [Hp' _]%Hl _. congruence.
Qed.

End service.
