(* ===== verification/PlaylistEdits.v ===== *)
(** * Edits of tracks are all or nothing

    What the service's transactional edits leave when statements fail: either
    nothing, or exactly the list operation of [PlaylistSpec]. *)

From stdpp Require Import sorting.
From S2P Require Import Prelude GoStrings Model Criteria PlaylistDb PlaylistTracks PlaylistSpec PlaylistService PlaylistAccess.

Local Open Scope Z_scope.
Local Open Scope db_scope.
Local Abbreviation len l := (Z.of_nat (length l)).

(** ** A run that succeeds is a run without failures *)

(** The tables that matter: requests to rebuild covers may be lost. *)
Definition agrees (d e : db) : Prop := d_playlists d = d_playlists e /\ d_tracks d = d_tracks e /\ d_now d = d_now e.

Definition robust {A} (m : M A) : Prop :=
  forall d e d' a, agrees d e -> d_faults e = [] -> m d = (d', Ok a) -> exists e', m e = (e', Ok a) /\ agrees d' e' /\ d_faults e' = [].

Lemma robust_ret {A} (a : A) : robust (ret a).
Proof. intros d e d' b Ha Hf [= <- <-]. by exists e. Qed.
Lemma robust_fail {A} err : robust (@fail A err).
Proof. by intros d e d' b Ha Hf. Qed.
Lemma robust_bind {A B} (m : M A) (k : A -> M B) : robust m -> (forall a, robust (k a)) -> robust (bind m k).
Proof.
  intros Hm Hk d e d' b Ha Hf. unfold bind. destruct (m d) as [d1 [a|err]] eqn:E; [|done]. intros Hr.
  destruct (Hm d e d1 a Ha Hf E) as (e1 & -> & Ha1 & Hf1). by apply (Hk a d1 e1).
Qed.
Lemma robust_exec {A} (f : db -> result perr (db * A)) :
  (forall d e d' a, agrees d e -> f d = Ok (d', a) -> exists e', f e = Ok (e', a) /\ agrees d' e' /\ d_faults e' = d_faults e) -> robust (exec f).
Proof.
  intros Hf d e d' a Ha He Hr. assert (exists fs, f (set_faults fs d) = Ok (d', a)) as [fs Hok].
  { unfold exec in Hr. destruct (d_faults d) as [|[err|] faults]; [| done |]; cbn [tail] in Hr;
      match type of Hr with context [set_faults ?fs _] => exists fs end; (destruct (f _) as [[d1 b]|err]; [by injection Hr as -> ->|done]). }
  destruct (Hf (set_faults fs d) e d' a Ha Hok) as (e' & He' & Ha' & Hfs). exists e'. split; [by apply exec_ok|]. split; [done|congruence].
Qed.
Lemma robust_read {A} (f : db -> A) : (forall d e, agrees d e -> f d = f e) -> robust (exec (fun d => Ok (d, f d))).
Proof. intros Hf. apply robust_exec. intros d e d' a Ha [= <- <-]. exists e. by rewrite (Hf d e Ha). Qed.

Create HintDb robust.
Ltac robustly :=
  repeat first [ apply robust_ret | apply robust_fail | solve [auto 1 with robust] | apply robust_bind; [|intros ?] ].

Section statements.
Context `{PlaylistEnv}.

Lemma robust_updateIDs pid cond f : robust (updateIDs pid cond f).
Proof.
  unfold updateIDs. apply robust_exec. intros d e d' a (H1 & H2 & H3). cbv zeta. rewrite H2. destruct (move_rows _ _ _ _) as [t|]; [|done].
  intros [= <- <-]. by exists (set_tracks t e).
Qed.
Lemma robust_deleteIDs pid cond : robust (deleteIDs pid cond).
Proof. apply robust_exec. intros d e d' a (H1 & H2 & H3). rewrite H2. intros [= <- <-]. by eexists. Qed.
Lemma robust_insertRows pid l : robust (insertRows pid l).
Proof.
  apply robust_exec. intros d e d' a (H1 & H2 & H3). rewrite H2. destruct (put_rows _ _ _) as [t|]; [|done].
  intros [= <- <-]. by exists (set_tracks t e).
Qed.
Lemma robust_maxID pid : robust (maxID pid).
Proof.
  apply robust_exec. intros d e d' a Ha. cbv zeta. pose proof Ha as (H1 & H2 & H3). rewrite H2. destruct (_ <? _); [|done]. intros [= <- <-]. by exists e.
Qed.
Lemma robust_enqueue pid : robust (enqueueCoverRebuild pid).
Proof.
  intros d e d' a (H1 & H2 & H3) Hf Hr. unfold enqueueCoverRebuild, ignore in *. rewrite (exec_ok _ e (set_artwork (d_artwork e ++ [pid]) e) ()) by done.
  eexists. split; [by destruct a|]. split; [|done]. unfold exec in Hr. destruct (d_faults d) as [|[err|] faults]; by injection Hr as <- _.
Qed.
Lemma robust_refreshCounters pid : robust (refreshCounters pid).
Proof.
  apply robust_bind; [apply robust_read; by intros d e (H1 & -> & H3)|]. intros c. apply robust_exec. intros d e d' a (H1 & H2 & H3) [= <- <-].
  eexists. split; [by rewrite H3|]. split; [|done]. split; [|split]; cbn; congruence.
Qed.
Lemma robust_GetPlaylist u id : robust (GetPlaylist u id).
Proof.
  apply robust_bind; [apply robust_read; by intros d e (-> & H2 & H3)|]. intros [p|]; [destruct (visible u p)|]; robustly.
Qed.
Lemma robust_Tracks u id : robust (Tracks u id).
Proof.
  intros d e d' [] Ha Hf. unfold Tracks. destruct (GetPlaylist u id d) as [d1 [p|err]] eqn:E; [|done]. intros [= <-].
  destruct (robust_GetPlaylist u id d e d1 p Ha Hf E) as (e1 & -> & Ha1 & Hf1). by exists e1.
Qed.
Hint Resolve robust_updateIDs robust_deleteIDs robust_insertRows robust_maxID robust_enqueue robust_refreshCounters robust_GetPlaylist robust_Tracks : robust.

Lemma robust_renumber pid : robust (renumber pid).
Proof.
  unfold renumber. robustly. intros d e d' b Ha Hf. pose proof Ha as (_ & -> & _). by apply robust_updateIDs.
Qed.
Lemma robust_found_in cs : robust (found_in cs).
Proof. induction cs as [|c cs IH]; cbn [found_in]; robustly. apply (robust_read (fun _ => _)). done. Qed.
Lemma robust_insert_chunks pid pos cs : robust (insert_chunks pid pos cs).
Proof. revert pos. induction cs as [|c cs IH]; intros pos; cbn [insert_chunks]; robustly. Qed.
Lemma robust_delete_chunks pid cs : robust (delete_chunks pid cs).
Proof. induction cs as [|c cs IH]; cbn [delete_chunks]; robustly. Qed.
Hint Resolve robust_renumber robust_found_in robust_insert_chunks robust_delete_chunks : robust.
Lemma robust_addTracks pid pos ids : robust (addTracks pid pos ids).
Proof. unfold addTracks, keepAccessible. robustly. Qed.
Hint Resolve robust_addTracks : robust.
Lemma robust_AddToPlaylist pid ids : robust (AddToPlaylist pid ids).
Proof. unfold AddToPlaylist. destruct ids; robustly. Qed.
Hint Resolve robust_AddToPlaylist : robust.
Lemma robust_Insert pid ids pos : robust (Insert pid ids pos).
Proof.
  unfold Insert. destruct ids; robustly. destruct (_ =? 0); robustly. destruct (_ =? _); robustly.
Qed.
Lemma robust_DeleteFromPlaylist pid ids : robust (DeleteFromPlaylist pid ids).
Proof. unfold DeleteFromPlaylist. robustly. Qed.
Lemma robust_Reorder pid pos newPos : robust (Reorder pid pos newPos).
Proof.
  unfold Reorder. robustly. destruct (_ || _); robustly. destruct (_ =? _); robustly. destruct (_ <? _); robustly.
Qed.
End statements.
#[export] Hint Resolve robust_Insert robust_DeleteFromPlaylist robust_Reorder robust_Tracks robust_GetPlaylist : robust.

(** ** Transactional edits *)

(** What both kinds of transaction promise: all or nothing, and the body's result
    when nothing fails. *)
Class Transaction {A} (tx : M A -> M A) := {
  tx_outcome m d : (exists f e, tx m d = (set_faults f d, Err e)) \/
                   exists f f' d' a, m (set_faults f d) = (d', Ok a) /\ tx m d = (set_faults f' d', Ok a);
  tx_run m d d' r : d_faults d = [] -> m d = (d', r) -> d_faults d' = [] -> (tx m d).2 = r }.

Lemma nop_ok d : d_faults d = [] -> nop d = (d, Ok ()).
Proof. intros Hf. by apply exec_ok. Qed.

#[export] Instance WithTx_transaction {A} : Transaction (@WithTx A).
Proof.
  split; [apply WithTx_outcome|]. intros m d d' r Hf Hm Hf'. unfold WithTx, bind. rewrite nop_ok by done. rewrite Hm.
  destruct r as [a|e]; [|done]. by rewrite nop_ok.
Qed.
#[export] Instance WithTxImmediate_transaction {A} : Transaction (@WithTxImmediate A).
Proof.
  split; [apply WithTxImmediate_outcome|]. intros m d d' r Hf Hm Hf'. unfold WithTxImmediate. eapply tx_run; [done| |exact Hf'].
  unfold bind, ignore. rewrite nop_ok by done. rewrite Hm. by rewrite nop_ok.
Qed.

Section atomic.
Context `{PlaylistLaws} (u : User) (pid : string) (p : Playlist) (l : list string).

Definition voided {A} (r : result perr A) : result perr unit := match r with Ok _ => Ok () | Err e => Err e end.

(** The playlist is the user's to edit, and stands for [l] but for failures to come. *)
Record editable (d : db) : Prop := {
  ed_record : d_playlists d !! pid = Some p; ed_owner : may_write u p = true; ed_tracks : TracksEditable p = true;
  ed_list : stands_for pid (set_faults [] d) l; ed_short : len l < 999999 }.

Lemma editable_faults f d : editable d -> editable (set_faults f d).
Proof. intros [H1 H2 H3 H4 H5]. by split. Qed.

Lemma GetPlaylist_ok d : editable d -> d_faults d = [] -> GetPlaylist u pid d = (d, Ok p).
Proof.
  intros [Hp Hw _ _ _] Hf. unfold GetPlaylist. rewrite (bind_ok _ _ d d (Some p)) by (apply exec_ok; [done|by rewrite Hp]).
  unfold visible. unfold may_write in Hw. destruct (u_IsAdmin u); [done|]. cbn in *. by rewrite Hw, orb_true_r.
Qed.

Lemma checked_ok d : editable d -> d_faults d = [] -> checkTracksEditable u pid d = (d, Ok p).
Proof.
  intros He Hf. unfold checkTracksEditable, checkWritable, bind. rewrite GetPlaylist_ok by done. rewrite may_write_guard, (ed_owner _ He). cbn.
  by rewrite (ed_tracks _ He).
Qed.

(** The body of a transaction, without failures. *)
Lemma body_ok {A} (m : M A) op d :
  editable d -> d_faults d = [] -> (forall d, void m d = void (run_op pid op) d) ->
  exists d' r, (Tracks u pid ;; m) d = (d', r) /\ voided r = voided (apply_op op l).2 /\ same_others pid d d' /\ stands_for pid d' (apply_op op l).1.
Proof.
  intros He Hf Hm. rewrite (bind_ok _ _ d d ()) by (unfold Tracks; by rewrite GetPlaylist_ok).
  destruct (op_refines pid op d l) as (d' & Hrun & Hs & Hst).
  { replace d with (set_faults [] d) by (destruct d; cbn in *; by subst). apply He. }
  { apply He. }
  exists d', (m d).2. specialize (Hm d). unfold void, bind in Hm. rewrite Hrun in Hm. destruct (m d) as [d1 [a|e]]; cbn.
  all: destruct (apply_op op l) as [l' [n|e']]; injection Hm; intros; subst; try done.
Qed.

(** The outcome of an edit: nothing changed, or the list operation was done. *)
Definition all_or_nothing (op : track_op) (d d' : db) (r : result perr unit) : Prop :=
  (exists e f, r = Err e /\ d' = set_faults f d) \/
  (r = Ok () /\ voided (apply_op op l).2 = Ok () /\ stands_for pid (set_faults [] d') (apply_op op l).1 /\
   same_others pid (set_faults [] d) (set_faults [] d')).

Lemma agrees_stands d e d0 k :
  agrees d e -> stands_for pid e k -> same_others pid d0 e -> d_faults d0 = [] -> stands_for pid (set_faults [] d) k /\ same_others pid d0 (set_faults [] d).
Proof.
  intros (H1 & H2 & H3) (_ & Hl & Hc) (S1 & S2 & S3 & S4) Hf. unfold rows, holds in *. split.
  - split; [done|]. unfold holds, rows. cbn. rewrite H1, H2. done.
  - split; [done|]. unfold rows. cbn. rewrite H1, H2, H3. done.
Qed.

Lemma tx_all_or_nothing {A} tx (m : M A) op d :
  Transaction tx -> editable d -> robust m -> (forall d, void m d = void (run_op pid op) d) ->
  let '(d', r) := void (checkTracksEditable u pid ;; tx (Tracks u pid ;; m)) d in
  (d_faults d = [] -> r = voided (apply_op op l).2) /\ all_or_nothing op d d' r.
Proof.
  intros Htx He Hrob Hm. set (body := Tracks u pid ;; m). assert (robust body) as Hb by (apply robust_bind; [apply robust_Tracks|done]).
  destruct (body_ok m op (set_faults [] d)) as (e1 & r1 & He1 & Hr1 & Hs1 & Hst1); [by apply editable_faults|done|done|]. fold body in He1.
  destruct (void _ d) as [d' r] eqn:E. unfold void in E. unfold bind at 1 in E. split.
  - intros Hf. rewrite (bind_ok _ _ _ _ _ (checked_ok d He Hf)) in E.
    assert (set_faults [] d = d) as Hd by (destruct d; cbn in *; by subst). rewrite Hd in He1.
    pose proof (tx_run body d e1 _ Hf He1 (proj1 Hst1)) as Hr. destruct (tx body d) as [d2 r2]. cbn in Hr. subst r2. rewrite <- Hr1.
    destruct r1; by injection E as _ <-.
  - destruct (passes_then _ _ (fun _ => tx body) d (passes_checkTracksEditable u pid)) as [(f & e & Hn)|(f & p0 & _ & Hk)].
    { left. rewrite Hn in E. injection E as <- <-. by exists e, f. }
    rewrite Hk in E. destruct (tx_outcome body (set_faults f d)) as [(f1 & e & Ht)|(f1 & f' & d2 & a & Hrun & Ht)]; rewrite Ht in E; injection E as <- <-.
    + left. by exists e, f1.
    + right. destruct (Hb (set_faults f1 (set_faults f d)) (set_faults [] d) _ _ (conj eq_refl (conj eq_refl eq_refl)) eq_refl Hrun) as (e' & Hrun' & Ha & Hf').
      rewrite He1 in Hrun'. injection Hrun' as <- ->. split; [done|]. split; [by rewrite <- Hr1|]. by apply (agrees_stands _ e1).
Qed.
End atomic.

(** The calls that edit the tracks of a playlist in a transaction, and the list
    operations they stand for. *)
Definition edit_of (c : service_call) : option (string * track_op) :=
  match c with
  | CallInsertTracks id ids pos => Some (id, OpInsert ids pos)
  | CallRemoveTracks id trackIds => Some (id, OpDelete trackIds)
  | CallReorderTrack id pos newPos => Some (id, OpReorder pos newPos)
  | _ => None
  end.

Section edits.
Context `{PlaylistLaws} (u : User).

Lemma void_unit (m : M unit) d : void m d = m d.
Proof. unfold void, bind. by destruct (m d) as [d1 [[]|e]]. Qed.
Lemma void_ret0 (m : M unit) d : void m d = void (m ;; ret 0) d.
Proof. unfold void, bind. by destruct (m d) as [d1 [[]|e]]. Qed.

(** C22: edits of tracks are all or nothing. When the owner or an administrator inserts, removes or moves tracks of an editable playlist,
    whichever statements fail on the way, either the call fails and no table changed, or it succeeds and the playlist is the result of
    the list operation, renumbered, with its totals, and every other playlist is as it was; and when nothing fails, the call returns what the
    list operation returns. *)
Theorem track_edits_atomic c pid op p l d :
  edit_of c = Some (pid, op) -> editable u pid p l d ->
  let '(d', r) := run_call u c d in
  (d_faults d = [] -> r = voided (apply_op op l).2) /\ all_or_nothing pid l op d d' r.
Proof.
  intros Hc He. destruct c; try done; injection Hc as <- <-; cbn [run_call].
  - apply (tx_all_or_nothing u id p l WithTxImmediate (Insert id ids pos)); [apply _|done|apply robust_Insert|done].
  - rewrite <- void_unit. apply (tx_all_or_nothing u id p l WithTx (DeleteFromPlaylist id trackIds)); [apply _|done|apply robust_DeleteFromPlaylist|].
    apply void_ret0.
  - rewrite <- void_unit. apply (tx_all_or_nothing u id p l WithTxImmediate (Reorder id pos newPos)); [apply _|done|apply robust_Reorder|].
    apply void_ret0.
Qed.
End edits.

(** ** Runs *)

Definition owner : User := mkUser "u" false.
Definition stranger : User := mkUser "v" false.

(** The statement after the one that sets the moved entry aside fails. *)
Definition busy_soon : db := set_faults [None; None; None; None; None; None; Some "busy"] two_playlists.

Lemma busy_editable : editable (H := reversed_env) owner "p" (mkPlaylist "p" "mix" "" "u" false "" false 0 0 None None (mkCounters 3 0 0) []) ["a"; "b"; "c"] busy_soon.
Proof. split; [done..| |done]. apply two_playlists_hold. Qed.

Lemma track_edits_atomic_witness :
  let '(d', r) := run_call (H := reversed_env) owner (CallReorderTrack "p" 1 3) busy_soon in
  r = Err (SqlError "busy") /\ all_or_nothing (H := reversed_env) "p" ["a"; "b"; "c"] (OpReorder 1 3) busy_soon d' r.
Proof.
  pose proof (track_edits_atomic (H0 := reversed_laws) owner (CallReorderTrack "p" 1 3) "p" _ _ _ busy_soon eq_refl busy_editable) as Hr.
  assert ((run_call (H := reversed_env) owner (CallReorderTrack "p" 1 3) busy_soon).2 = Err (SqlError "busy")) as He by (vm_compute; reflexivity).
  destruct (run_call _ _ _) as [d' r]. split; [exact He|apply Hr].
Defined.

Lemma two_playlists_keyed : keyed two_playlists.
Proof. intros q p Hp. cbn [two_playlists d_playlists] in Hp. apply lookup_singleton_Some in Hp as [<- <-]. done. Qed.


(** ** Surprises *)

(** Replacing the tracks of a playlist by none leaves them as they are. *)
Lemma create_without_songs `{PlaylistEnv} u newID pid name d i :
  keyed d -> pid <> "" -> rows pid (Create u newID pid name [] d).1 i = rows pid d i.
Proof.
  intros Hk Hpid. unfold Create. match goal with |- context [WithTxImmediate ?m d] => set (body := m) end.
  destruct (WithTxImmediate_outcome body d) as [(f & e & ->)|(f & f' & d' & a & Hm & ->)]; [done|]. cbn.
  assert (d' = (body (set_faults f d)).1) as -> by (by rewrite Hm). clear Hm. subst body. destruct (String.eqb_spec pid ""); [done|].
  unfold bind at 2. destruct (passes_GetPlaylist u pid (set_faults f d)) as (f1 & Hf1 & Hp). unfold bind.
  destruct (GetPlaylist u pid (set_faults f d)) as [d1 [p|err]]; cbn in *; subst d1; [|done].
  destruct (Hk pid p (Hp p eq_refl)) as [Hid Ht].
  assert (always (edits pid (p_OwnerID p) false) (Put newID (with_tracks [] p))) as Hed.
  { apply Put_edits; [done| |by right]. cbn. rewrite Hid. by destruct (String.eqb_spec pid ""). }
  destruct (u_IsAdmin u), (String.eqb (p_OwnerID p) (u_ID u)), (TracksEditable p); cbn; try done;
    (apply (edits_rows _ _ _ _ _ (Hed (set_faults f1 (set_faults f d)))); by right).
Qed.

Definition rock : Criteria := mkCriteria (Some (Leaf Is [("genre", VStr "Rock")])) "" "" 0 0 0 0.
Definition smart_playlist : db :=
  mkDb {[ "s" := mkPlaylist "s" "rock" "" "u" false "" false 0 0 (Some rock) (Some 3) (mkCounters 0 0 0) [] ]} ∅ [] 5 [].

(** Rules that a request clears stay in the database; the request succeeds. *)
Lemma rules_not_cleared :
  let '(d, r) := updatePlaylistEntity (H := reversed_env) owner "s" (mkPlaylist "" "" "" "" false "" false 0 0 None None (mkCounters 0 0 0) []) ["rules"] smart_playlist in
  r = Ok () /\ p_Rules <$> d_playlists d !! "s" = Some (Some rock).
Proof. vm_compute. done. Qed.

(** Tracks sent with a new playlist are stored. *)
Lemma saved_with_tracks :
  let '(d, r) := savePlaylist (H := reversed_env) owner "n" (mkPlaylist "" "new" "" "" false "" false 0 0 None None (mkCounters 0 0 0) ["a"; "b"]) smart_playlist in
  r = Ok "n" /\ contents "n" (d_tracks d) = ["a"; "b"].
Proof. vm_compute. done. Qed.

(** A playlist that cannot be read again after the check makes the call panic. *)
Lemma unreadable_after_check :
  (AddTracks (H := reversed_env) owner "p" ["d"] (set_faults [None; Some "busy"] two_playlists)).2 = Err NilRepository.
Proof. vm_compute. done. Qed.
