(* ===== verification/SmartRefresh.v ===== *)
(** * Refreshing smart playlists

    [persistence/smart_playlist_repository.go], with the resolution of references
    between playlists in [model/playlist.go]: a smart playlist that is read after its
    refresh window is evaluated again, the playlists it refers to first. *)

From Stdlib Require Import Ascii String.
From stdpp Require Import sorting.
From S2P Require Import Prelude GoStrings GoText Model Criteria CriteriaSql PlaylistDb PlaylistTracks PlaylistService PlaylistAccess.

Local Open Scope Z_scope.
Local Open Scope db_scope.

(** ** Paths *)

Definition IsAbs (path : string) : bool := HasPrefix path "/".
(** [filepath.Dir]: up to the last separator. *)
Definition Dir (path : string) : string :=
  match removelast (SplitOn "/" path) with [] => Clean "" | dir => Clean (Join dir "/" +:+ "/") end.

Definition isAbsPlaylistRef (path : string) : bool := IsAbs path.

Definition normalizeChildPathRule (rule : list (string * value)) (referencingPlaylistPath : string) : list (string * value) :=
  match map_get "path" rule with
  | Some (VStr path) =>
      if String.eqb path "" then rule
      else map_put "path" (VStr (if isAbsPlaylistRef path then Clean path
                                 else if negb (String.eqb referencingPlaylistPath "") then PathJoin [Dir referencingPlaylistPath; path]
                                 else path)) rule
  | _ => rule
  end.

Fixpoint normalizePlaylistPaths (inputRule : Expression) (referencingPlaylistPath : string) : Expression :=
  match inputRule with
  | Any l => Any ((fun e => normalizePlaylistPaths e referencingPlaylistPath) <$> l)
  | All l => All ((fun e => normalizePlaylistPaths e referencingPlaylistPath) <$> l)
  | Leaf ((InPlaylist | NotInPlaylist) as op) values => Leaf op (normalizeChildPathRule values referencingPlaylistPath)
  | Leaf _ _ => inputRule
  end.

Definition with_expression (e : Expression) (c : Criteria) : Criteria :=
  mkCriteria (Some e) (c_Sort c) (c_Order c) (c_Limit c) (c_LimitPercent c) (c_Offset c) (c_RefreshDelay c).
Definition NormalizedRules (p : Playlist) : option Criteria :=
  match p_Rules p with
  | Some c => match c_Expression c with
              | Some e => Some (with_expression (normalizePlaylistPaths e (p_Path p)) c)
              | None => Some c
              end
  | None => None
  end.

Example normalize_relative :
  normalizeChildPathRule [("path", VStr "../rock.nsp")] "/music/lists/mix.nsp" = [("path", VStr "/music/rock.nsp")] /\
  normalizeChildPathRule [("path", VStr "jazz.nsp")] "mix.nsp" = [("path", VStr "jazz.nsp")].
Proof. done. Qed.

(** ** Evaluation *)

(** The engine's answers to the queries over media files: the rows of a condition in
    their order, each with its row number, and their count; the order in which
    playlists are listed; and the configured refresh window. *)
Class RefreshEnv := {
  query_rows : gmap string Playlist -> gmap (string * Z) string -> smartPlaylistJoinType -> Sqlizer -> list (sort_term * bool) -> list (Z * string);
  query_count : gmap string Playlist -> gmap (string * Z) string -> smartPlaylistJoinType -> Sqlizer -> Z;
  listing : list Playlist -> list Playlist;
  SmartPlaylistRefreshDelay : Z }.

Definition RefreshDelay `{RefreshEnv} (p : Playlist) : Z :=
  match p_Rules p with
  | Some c => if IsSmartPlaylist p && (0 <? c_RefreshDelay c) then c_RefreshDelay c else SmartPlaylistRefreshDelay
  | None => SmartPlaylistRefreshDelay
  end.

Section refresh.
Context `{PlaylistEnv} `{CriteriaEnv} `{RefreshEnv} (fm : gmap string FieldInfo) (u : User).

Definition rules_owner : Owner := mkOwner (u_ID u) (u_IsAdmin u).

Definition shouldRefreshSmartPlaylist (p : Playlist) (now : time) : bool :=
  IsSmartPlaylist p &&
  negb (match p_EvaluatedAt p with Some t => now - t <? RefreshDelay p | None => false end) &&
  String.eqb (p_OwnerID p) (u_ID u).

Definition criteria_sql (c : Criteria) : M Sqlizer :=
  fun d => match where_ fm rules_owner (d_now d) c with Ok s => (d, Ok s) | Err _ => (d, Err (SqlError "invalid criteria")) end.

Definition resolvePercentageLimit (rules : Criteria) : M Criteria :=
  if negb (IsPercentageLimit rules) then ret rules
  else
    let* cond := criteria_sql rules in
    let* count := exec (fun d => Ok (d, query_count (d_playlists d) (d_tracks d) (expressionJoins fm rules) cond)) in
    ret (ResolveLimit rules count).

(** [LIMIT] and [OFFSET], which apply after the rows are numbered; the engine refuses
    an offset that is negative before it is made unsigned. *)
Definition limited (c : Criteria) (rows : list (Z * string)) : result perr (list (Z * string)) :=
  if 0 <? c_Limit c then
    if c_Offset c <? 0 then Err (SqlError "datatype mismatch")
    else Ok (take (Z.to_nat (c_Limit c)) (drop (Z.to_nat (c_Offset c)) rows))
  else Ok rows.

Definition insertSelected (pid : string) (rules : Criteria) (cond : Sqlizer) : M unit :=
  exec (fun d =>
    match limited rules (query_rows (d_playlists d) (d_tracks d) (requiredJoins fm rules) cond (orderBy fm rules)) with
    | Err e => Err e
    | Ok selected => match put_rows pid selected (d_tracks d) with
                     | Some t => Ok (set_tracks t d, ())
                     | None => Err UniqueViolation
                     end
    end).

Definition with_evaluated (now : time) (p : Playlist) : Playlist :=
  mkPlaylist (p_ID p) (p_Name p) (p_Comment p) (p_OwnerID p) (p_Public p) (p_Path p) (p_Sync p) (p_CreatedAt p) (p_UpdatedAt p)
    (p_Rules p) (Some now) (p_Counters p) (p_Tracks p).

(** What follows the refresh of the referenced playlists. *)
Definition evaluate (pid : string) (rules : Criteria) : M unit :=
  let* rules := resolvePercentageLimit rules in
  let* cond := criteria_sql rules in
  insertSelected pid rules cond ;;
  let* written := refreshCounters pid in
  exec (fun d => Ok (set_playlists (alter (with_evaluated written.2) pid (d_playlists d)) d, ())).

Definition GetAll (cond : Playlist -> bool) : M (list Playlist) :=
  exec (fun d => Ok (d, listing (List.filter (fun p => cond p && visible u p) (snd <$> map_to_list (d_playlists d))))).

Definition references (ids paths : list string) (p : Playlist) : bool :=
  bool_decide (p_ID p ∈ ids) || bool_decide (p_Path p ∈ concat (pathVariants <$> paths)).

(** A refresh: the playlists visited, the database, and whether it was done. *)
Definition outcome : Type := option (gset string * db * bool).

Fixpoint refresh_each (tree : Playlist -> gset string -> db -> outcome) (children : list Playlist) (visited : gset string) (d : db) : outcome :=
  match children with
  | [] => Some (visited, d, true)
  | c :: children =>
      match tree c visited d with
      | Some (visited, d, _) => refresh_each tree children visited d
      | None => None
      end
  end.

Definition refreshChildPlaylists (tree : Playlist -> gset string -> db -> outcome) (rules : Criteria) (visited : gset string) (d : db) : outcome :=
  match ChildPlaylistIds rules, ChildPlaylistPaths rules with
  | [], [] => Some (visited, d, true)
  | ids, paths =>
      let '(d, r) := GetAll (references ids paths) d in
      match r with
      | Err _ => Some (visited, d, false)
      | Ok children => refresh_each tree children visited d
      end
  end.

Fixpoint refreshSmartPlaylistTree (fuel : nat) (p : Playlist) (visited : gset string) (d : db) : outcome :=
  if bool_decide (p_ID p ∈ visited) then Some (visited, d, false)
  else match fuel with
  | O => None
  | S fuel =>
      let visited := {[p_ID p]} ∪ visited in
      if negb (shouldRefreshSmartPlaylist p (d_now d)) then Some (visited, d, false)
      else
        let '(d, r) := deleteIDs (p_ID p) (fun _ => true) d in
        match r, NormalizedRules p with
        | Ok _, Some rules =>
            match refreshChildPlaylists (refreshSmartPlaylistTree fuel) rules visited d with
            | Some (visited, d, true) =>
                let '(d, r) := evaluate (p_ID p) rules d in
                Some (visited, d, match r with Ok _ => true | Err _ => false end)
            | other => other
            end
        | _, _ => Some (visited, d, false)
        end
  end.

(** One unit of fuel for every playlist there is. *)
Definition refreshSmartPlaylist (p : Playlist) (d : db) : outcome :=
  refreshSmartPlaylistTree (size (d_playlists d)) p ∅ d.
End refresh.
