(* ===== verification/SmartRefreshFacts.v ===== *)
(** * Refreshing smart playlists ends, and touches nothing else *)

From stdpp Require Import sorting.
From S2P Require Import Prelude GoStrings Model Criteria CriteriaSql PlaylistDb PlaylistTracks PlaylistService PlaylistAccess SmartRefresh.

Local Open Scope Z_scope.
Local Open Scope db_scope.

(** Playlists are listed once each. *)
Class RefreshLaws `{RefreshEnv} := { listing_perm l : listing l ≡ₚ l }.

(** A record without what evaluation writes. *)
Definition core (p : Playlist) : Playlist :=
  mkPlaylist (p_ID p) (p_Name p) (p_Comment p) (p_OwnerID p) (p_Public p) (p_Path p) (p_Sync p) (p_CreatedAt p) 0 (p_Rules p) None
    (mkCounters 0 0 0) (p_Tracks p).

(** ** Statements on one playlist *)

Record touches (pid : string) (d d' : db) : Prop := {
  touches_now : d_now d' = d_now d;
  touches_core q : core <$> d_playlists d' !! q = core <$> d_playlists d !! q;
  touches_others q : q <> pid -> d_playlists d' !! q = d_playlists d !! q /\ forall i, rows q d' i = rows q d i }.

#[export] Instance touches_outcome pid : Outcome (touches pid).
Proof.
  split; [split|].
  - intros d. by split.
  - intros d1 d2 d3 [A1 A2 A3] [B1 B2 B3]. split; [congruence|intros; by rewrite B2, A2|].
    intros q Hq. destruct (A3 q Hq) as [H1 H2], (B3 q Hq) as [H3 H4]. split; [congruence|]. intros i. by rewrite H4, H2.
  - intros f d. by split.
Qed.

Lemma touches_tracks pid d t : (forall q i, q <> pid -> t !! (q, i) = d_tracks d !! (q, i)) -> touches pid d (set_tracks t d).
Proof. intros Ht. split; [done|done|]. intros q Hq. split; [done|]. intros i. by apply Ht. Qed.

Lemma touches_alter pid d f : (forall p, core (f p) = core p) -> touches pid d (set_playlists (alter f pid (d_playlists d)) d).
Proof.
  intros Hf. split; cbn; [done| |].
  - intros q. destruct (decide (q = pid)) as [->|]; [|by rewrite lookup_alter_ne]. rewrite lookup_alter_eq.
    destruct (d_playlists d !! pid); cbn; [by rewrite Hf|done].
  - intros q Hq. by rewrite lookup_alter_ne.
Qed.

Lemma exec_inv {A} (f : db -> result perr (db * A)) d d' a : exec f d = (d', Ok a) -> exists fs, f (set_faults fs d) = Ok (d', a).
Proof.
  unfold exec. destruct (d_faults d) as [|[e|] faults]; [|done|]; cbn [tail]; intros Hr;
    match type of Hr with context [set_faults ?fs _] => exists fs end; (destruct (f _) as [[d1 b]|err]; [by injection Hr as -> ->|done]).
Qed.
Lemma bind_inv {A B} (m : M A) (k : A -> M B) d d' b :
  bind m k d = (d', Ok b) -> exists d1 a, m d = (d1, Ok a) /\ k a d1 = (d', Ok b).
Proof. unfold bind. destruct (m d) as [d1 [a|e]]; [eauto|done]. Qed.

Section refresh.
Context `{PlaylistEnv} `{CriteriaEnv} `{RefreshLaws} (fm : gmap string FieldInfo) (u : User).

Lemma deleteIDs_touches pid cond : always (touches pid) (deleteIDs pid cond).
Proof.
  apply always_exec. intros d d' n [= <- _]. apply touches_tracks. intros q i Hq. destruct (d_tracks d !! (q, i)) as [x|] eqn:E.
  - apply map_lookup_filter_Some_2; [done|]. by intros [-> _].
  - apply map_lookup_filter_None_2. by left.
Qed.

Lemma criteria_sql_touches pid c : always (touches pid) (criteria_sql fm u c).
Proof. intros d. unfold criteria_sql. by destruct (where_ _ _ _ _). Qed.

Lemma evaluate_touches pid rules : always (touches pid) (evaluate fm u pid rules).
Proof.
  unfold evaluate, resolvePercentageLimit, refreshCounters. apply always_bind; [|intros rules'; apply always_bind; [apply criteria_sql_touches|intros cond]].
  - destruct (negb _); [apply always_ret|]. apply always_bind; [apply criteria_sql_touches|]. intros cond. apply always_bind; [|intros ?; apply always_ret].
    apply always_exec. by intros d d' a [= -> _].
  - apply always_bind; [|intros _; apply always_bind; [apply always_bind; [|intros c]|intros w]]; apply always_exec; intros d d' a.
    + destruct (limited _ _) as [sel|e]; [|done]. destruct (put_rows pid sel (d_tracks d)) as [t|] eqn:E; [|done]. intros [= <- _].
      apply touches_tracks. intros q i Hq. by apply (put_rows_others pid _ _ _ _ _ Hq E).
    + by intros [= -> _].
    + intros [= <- _]. by apply touches_alter.
    + intros [= <- _]. by apply touches_alter.
Qed.

(** ** The whole tree *)

Definition own_smart (p : Playlist) : bool := IsSmartPlaylist p && String.eqb (p_OwnerID p) (u_ID u).

(** Only smart playlists of the user, and none of [visited], are evaluated; no record
    changes but in what evaluation writes. *)
Record refreshes (visited : gset string) (d d' : db) : Prop := {
  rf_now : d_now d' = d_now d;
  rf_core q : core <$> d_playlists d' !! q = core <$> d_playlists d !! q;
  rf_keep q : q ∈ visited \/ (forall p, d_playlists d !! q = Some p -> own_smart p = false) ->
    d_playlists d' !! q = d_playlists d !! q /\ forall i, rows q d' i = rows q d i }.

Lemma refreshes_refl V d f : refreshes V d (set_faults f d).
Proof. by split. Qed.
Lemma refreshes_trans V V' d1 d2 d3 : V ⊆ V' -> refreshes V d1 d2 -> refreshes V' d2 d3 -> refreshes V d1 d3.
Proof.
  intros HV [A1 A2 A3] [B1 B2 B3]. split; [congruence|intros; by rewrite B2, A2|].
  intros q Hq. destruct (A3 q Hq) as [H5 H6]. destruct (B3 q) as [H7 H8].
  { destruct Hq as [Hq|Hq]; [left; by apply HV|right]. by rewrite H5. }
  split; [congruence|]. intros i. by rewrite H8, H6.
Qed.

(** A copy of a record, read before others were evaluated. *)
Definition copy_of (p : Playlist) (d : db) : Prop := core <$> d_playlists d !! p_ID p = Some (core p).

Lemma core_own p q : core p = core q -> own_smart p = own_smart q.
Proof. intros Hc. injection Hc as _ _ _ Ho _ _ _ _ Hr _. unfold own_smart, IsSmartPlaylist. by rewrite Ho, Hr. Qed.

Lemma copy_own p q d : copy_of p d -> d_playlists d !! p_ID p = Some q -> own_smart q = own_smart p.
Proof. unfold copy_of. intros Hc Hq. rewrite Hq in Hc. apply (inj Some) in Hc. by apply core_own. Qed.

Lemma touches_refreshes V p d d' : copy_of p d -> p_ID p ∉ V -> own_smart p = true -> touches (p_ID p) d d' -> refreshes V d d'.
Proof.
  intros Hcopy HV Hown [T1 T2 T3]. split; [done|done|]. intros q Hq. apply T3. intros ->. destruct Hq as [Hq|Hq]; [done|].
  destruct (d_playlists d !! p_ID p) as [p0|] eqn:E; [|unfold copy_of in Hcopy; by rewrite E in Hcopy].
  pose proof (copy_own p p0 d Hcopy E). specialize (Hq p0 eq_refl). congruence.
Qed.

Lemma copy_refreshes V p d d' : copy_of p d -> refreshes V d d' -> copy_of p d'.
Proof. unfold copy_of. intros Hc [_ R2 _]. by rewrite R2. Qed.
Lemma keyed_refreshes V d d' : keyed d -> refreshes V d d' -> keyed d'.
Proof.
  intros Hk [_ R2 _] q p' Hp'. specialize (R2 q). rewrite Hp' in R2. destruct (d_playlists d !! q) as [p|] eqn:E; [|done].
  injection R2 as Q1 _ _ _ _ _ _ _ _ Q2. rewrite Q1, Q2. by apply Hk.
Qed.
Lemma dom_refreshes V d d' : refreshes V d d' -> dom (d_playlists d') = dom (d_playlists d).
Proof.
  intros [_ R2 _]. apply set_eq. intros q. rewrite !elem_of_dom. specialize (R2 q).
  destruct (d_playlists d' !! q), (d_playlists d !! q); try done; split; by intros [].
Qed.
(** What a refresh that was done evaluated: the rules, once the playlist was emptied and
    the playlists it refers to were refreshed. *)
Definition evaluated_from (p : Playlist) (V : gset string) (d d' : db) : Prop :=
  exists rules dq, NormalizedRules p = Some rules /\ refreshes V d dq /\ (forall i, rows (p_ID p) dq i = None) /\
    evaluate fm u (p_ID p) rules dq = (d', Ok ()).

(** What a call to the tree promises. *)
Definition tree_ok (fuel : nat) (tree : Playlist -> gset string -> db -> outcome) : Prop :=
  forall p V d, keyed d -> copy_of p d -> (size (dom (d_playlists d) ∖ V) <= fuel)%nat ->
    exists V' d' b, tree p V d = Some (V', d', b) /\ V ⊆ V' /\ refreshes V d d' /\ (b = true -> evaluated_from p V d d').

Lemma refresh_each_ok fuel tree children V d :
  tree_ok fuel tree -> keyed d -> (forall c, c ∈ children -> copy_of c d) -> (size (dom (d_playlists d) ∖ V) <= fuel)%nat ->
  exists V' d' b, refresh_each tree children V d = Some (V', d', b) /\ V ⊆ V' /\ refreshes V d d'.
Proof.
  intros Ht. revert V d. induction children as [|c children IH]; intros V d Hk Hc Hsize; cbn [refresh_each].
  { exists V, d, true. split; [done|]. split; [done|]. by split. }
  destruct (Ht c V d Hk) as (V1 & d1 & b1 & -> & HV1 & Hr1 & _); [apply Hc; left|done|].
  destruct (IH V1 d1) as (V2 & d2 & b2 & -> & HV2 & Hr2).
  - by eapply keyed_refreshes.
  - intros c' Hc'. eapply copy_refreshes; [|done]. apply Hc. by right.
  - rewrite (dom_refreshes _ _ _ Hr1). etrans; [|exact Hsize]. apply subseteq_size. set_solver.
  - exists V2, d2, b2. split; [done|]. split; [set_solver|]. by eapply refreshes_trans.
Qed.

Lemma GetAll_ok cond d :
  keyed d -> exists f, (GetAll u cond d).1 = set_faults f d /\ forall children, (GetAll u cond d).2 = Ok children -> forall c, c ∈ children -> copy_of c d.
Proof.
  intros Hk. unfold GetAll, exec.
  assert (forall c, c ∈ listing (List.filter (fun p => cond p && visible u p) (snd <$> map_to_list (d_playlists d))) -> copy_of c d) as Hc.
  { intros c. rewrite listing_perm, list_elem_of_In, filter_In, <- list_elem_of_In. intros [([q p] & -> & Hin)%list_elem_of_fmap _].
    apply elem_of_map_to_list in Hin. unfold copy_of. cbn. destruct (Hk q p Hin) as [-> _]. by rewrite Hin. }
  destruct (d_faults d) as [|[e|] faults]; cbn; eexists; split; try done; by intros children [= <-].
Qed.

Lemma refreshChildPlaylists_ok fuel tree rules V d :
  tree_ok fuel tree -> keyed d -> (size (dom (d_playlists d) ∖ V) <= fuel)%nat ->
  exists V' d' b, refreshChildPlaylists u tree rules V d = Some (V', d', b) /\ V ⊆ V' /\ refreshes V d d'.
Proof.
  intros Ht Hk Hsize. unfold refreshChildPlaylists.
  assert (forall ids paths, exists V' d' b, (let '(d, r) := GetAll u (references ids paths) d in
            match r with Err _ => Some (V, d, false) | Ok children => refresh_each tree children V d end) = Some (V', d', b) /\ V ⊆ V' /\ refreshes V d d') as Hgo.
  { intros ids paths. destruct (GetAll_ok (references ids paths) d Hk) as (f & Hd & Hc). destruct (GetAll u _ d) as [d1 [children|e]]; cbn in *; subst d1.
    - destruct (refresh_each_ok fuel tree children V (set_faults f d)) as (V' & d' & b & -> & HV & Hr); [done|done|by apply (Hc children)|done|].
      exists V', d', b. split; [done|]. split; [done|]. destruct Hr as [R1 R2 R3]. by split.
    - eexists _, _, _. split; [done|]. split; [done|]. apply refreshes_refl. }
  destruct (ChildPlaylistIds rules), (ChildPlaylistPaths rules); [exists V, d, true|apply Hgo..]. split; [done|]. split; [done|]. by split.
Qed.

Lemma should_own p now : shouldRefreshSmartPlaylist u p now = true -> own_smart p = true /\ exists rules, NormalizedRules p = Some rules.
Proof.
  unfold shouldRefreshSmartPlaylist, own_smart. rewrite !andb_true_iff. intros [[Hs _] Ho]. split; [done|].
  unfold IsSmartPlaylist, NormalizedRules in *. destruct (p_Rules p) as [c|]; [|done]. destruct (c_Expression c); [eauto|done].
Qed.

Lemma deleteIDs_empties pid d d' : deleteIDs pid (fun _ => true) d = (d', Ok ()) -> forall i, rows pid d' i = None.
Proof.
  intros [f Hd]%exec_inv i. injection Hd as <-. unfold rows. cbn. apply map_lookup_filter_None_2. right. intros x _. by intros [].
Qed.

Lemma smaller (X V : gset string) x fuel : x ∈ X -> x ∉ V -> (size (X ∖ V) <= S fuel)%nat -> (size (X ∖ ({[x]} ∪ V)) <= fuel)%nat.
Proof.
  intros Hx HV Hs. replace (X ∖ ({[x]} ∪ V)) with ((X ∖ V) ∖ {[x]}) by set_solver.
  rewrite size_difference by set_solver. rewrite size_singleton. lia.
Qed.

Lemma copy_dom p d : copy_of p d -> p_ID p ∈ dom (d_playlists d).
Proof. unfold copy_of. intros Hc. apply elem_of_dom. destruct (d_playlists d !! p_ID p); [eauto|done]. Qed.

Lemma tree_terminates fuel : tree_ok fuel (refreshSmartPlaylistTree fm u fuel).
Proof.
  induction fuel as [|fuel IH]; intros p V d Hk Hcopy Hsize; cbn [refreshSmartPlaylistTree];
    (case_bool_decide as HV; [exists V, d, false; split; [done|]; split; [done|]; by repeat split|]); pose proof (copy_dom p d Hcopy) as Hd.
  { exfalso. assert (dom (d_playlists d) ∖ V = ∅) as He by (apply leibniz_equiv, size_empty_inv; lia). set_solver. }
  set (V1 := {[p_ID p]} ∪ V). destruct (shouldRefreshSmartPlaylist u p (d_now d)) eqn:Es; cbn [negb];
    [|exists V1, d, false; split; [done|]; split; [set_solver|]; by repeat split].
  apply should_own in Es as [Hown [rules Hrules]]. rewrite Hrules.
  pose proof (deleteIDs_touches (p_ID p) (fun _ => true) d) as Hdel. destruct (deleteIDs (p_ID p) (fun _ => true) d) as [d1 r1] eqn:Edel. cbn in Hdel.
  pose proof (touches_refreshes V p d d1 Hcopy HV Hown Hdel) as Hr1.
  destruct r1 as [[]|e]; [|exists V1, d1, false; split; [done|]; split; [set_solver|done]].
  destruct (refreshChildPlaylists_ok fuel (refreshSmartPlaylistTree fm u fuel) rules V1 d1) as (V2 & d2 & b & -> & HV2 & Hr2).
  { done. } { by eapply keyed_refreshes. }
  { rewrite (dom_refreshes _ _ _ Hr1). by apply smaller. }
  assert (refreshes V d d2) as Hr by (eapply refreshes_trans; [|done..]; set_solver).
  destruct b; [|exists V2, d2, false; split; [done|]; split; [set_solver|done]].
  pose proof (evaluate_touches (p_ID p) rules d2) as Hev. destruct (evaluate fm u (p_ID p) rules d2) as [d3 r3] eqn:Eev. cbn in Hev.
  eexists _, _, _. split; [done|]. split; [set_solver|]. split.
  - eapply (refreshes_trans _ V); [done..|]. eapply touches_refreshes; [|done..]. by eapply copy_refreshes.
  - intros Hb. exists rules, d2. split; [done|]. split; [done|]. split; [|destruct r3 as [[]|]; done].
    intros i. destruct (rf_keep _ _ _ Hr2 (p_ID p)) as [_ ->]; [left; set_solver|]. by apply (deleteIDs_empties _ d).
Qed.

(** ** What a refresh writes *)

Lemma put_rows_lookup pid l t t' i :
  put_rows pid l t = Some t' -> t' !! (pid, i) = match (list_to_map l : gmap Z string) !! i with Some mf => Some mf | None => t !! (pid, i) end.
Proof.
  revert t. induction l as [|[j mf] l IH]; intros t; cbn; [by intros [= <-]|]. destruct (t !! (pid, j)) eqn:E; [done|]. intros Hp. rewrite (IH _ Hp).
  destruct (decide (j = i)) as [->|Hne].
  - rewrite !lookup_insert_eq. destruct (_ !! i) eqn:Ei; [|done]. exfalso. clear IH E. apply elem_of_list_to_map_2 in Ei.
    revert Hp. assert (is_Some (<[(pid, i) := mf]> t !! (pid, i))) as Hs by (rewrite lookup_insert_eq; eauto). revert Hs.
    generalize (<[(pid, i) := mf]> t). induction l as [|[k x] l IH]; intros t0 Hs; cbn; [by apply not_elem_of_nil in Ei|].
    apply elem_of_cons in Ei as [[= -> ->]|Hin]; [destruct Hs as [y ->]; done|]. destruct (t0 !! (pid, k)) eqn:Ek; [done|].
    apply IH; [done|]. destruct (decide (k = i)) as [->|]; [rewrite lookup_insert_eq; eauto|by rewrite lookup_insert_ne by congruence].
  - rewrite (lookup_insert_ne (list_to_map l)) by done. destruct (_ !! i); [done|]. by rewrite lookup_insert_ne by congruence.
Qed.

(** The rules with a percentage made a number of tracks, out of those that match. *)
Definition resolved (d : db) (rules : Criteria) (rules' : Criteria) : Prop :=
  if IsPercentageLimit rules
  then exists cond, where_ fm (rules_owner u) (d_now d) rules = Ok cond /\
         rules' = ResolveLimit rules (query_count (d_playlists d) (d_tracks d) (expressionJoins fm rules) cond)
  else rules' = rules.

(** The playlist holds the answer to its query, with its totals and the time. *)
Record fresh (p : Playlist) (d d' : db) : Prop := {
  fresh_rows : exists rules rules' cond selected dq,
    NormalizedRules p = Some rules /\ refreshes ∅ d dq /\ resolved dq rules rules' /\
    where_ fm (rules_owner u) (d_now d) rules' = Ok cond /\
    limited rules' (query_rows (d_playlists dq) (d_tracks dq) (requiredJoins fm rules') cond (orderBy fm rules')) = Ok selected /\
    forall i, rows (p_ID p) d' i = (list_to_map selected : gmap Z string) !! i;
  fresh_record q : d_playlists d' !! p_ID p = Some q -> p_EvaluatedAt q = Some (d_now d) /\ p_Counters q = Stats (contents (p_ID p) (d_tracks d')) }.

Lemma criteria_sql_inv c d d' cond : criteria_sql fm u c d = (d', Ok cond) -> d' = d /\ where_ fm (rules_owner u) (d_now d) c = Ok cond.
Proof. unfold criteria_sql. destruct (where_ _ _ _ _); [|done]. by intros [= -> ->]. Qed.

Lemma resolve_inv rules d d' rules' :
  resolvePercentageLimit fm u rules d = (d', Ok rules') -> (exists f, d' = set_faults f d) /\ resolved d rules rules'.
Proof.
  unfold resolvePercentageLimit, resolved. destruct (IsPercentageLimit rules); cbn [negb].
  - intros (d1 & cond & [-> Hw]%criteria_sql_inv & (d2 & n & [f Hq]%exec_inv & Hret)%bind_inv)%bind_inv.
    injection Hq as <- <-. injection Hret as <- <-. eauto 6.
  - intros [= <- <-]. split; [exists (d_faults d); by destruct d|done].
Qed.

Lemma refreshCounters_inv pid d d' w :
  refreshCounters pid d = (d', Ok w) -> w.2 = d_now d /\ d_now d' = d_now d /\ d_tracks d' = d_tracks d /\
  d_playlists d' = alter (with_counters (Stats (contents pid (d_tracks d))) (d_now d)) pid (d_playlists d).
Proof.
  intros (d1 & c & [f Hc]%exec_inv & [f' Hw]%exec_inv)%bind_inv. injection Hc as <- <-. injection Hw as <- <-. done.
Qed.

Lemma evaluated_fresh p d d' : evaluated_from p ∅ d d' -> fresh p d d'.
Proof.
  intros (rules & dq & Hn & Hr & Hempty & Hev). unfold evaluate in Hev.
  apply bind_inv in Hev as (d1 & rules' & [[f1 ->] Hres]%resolve_inv & Hev). apply bind_inv in Hev as (d2 & cond & [-> Hw]%criteria_sql_inv & Hev).
  apply bind_inv in Hev as (d3 & [] & [f3 Hins]%exec_inv & Hev). apply bind_inv in Hev as (d4 & w & (Hw2 & Hnow & Ht & Hp)%refreshCounters_inv & Hev).
  apply exec_inv in Hev as [f5 Hev]. injection Hev as <-. destruct (limited _ _) as [sel|e] eqn:El; [|done].
  destruct (put_rows (p_ID p) sel (d_tracks (set_faults f3 (set_faults f1 dq)))) as [t|] eqn:Et; [|done]. injection Hins as <-. cbn in *.
  pose proof (rf_now _ _ _ Hr) as Hdnow. split.
  - exists rules, rules', cond, sel, dq. split; [done|]. split; [done|]. split; [done|]. rewrite <- Hdnow. split; [done|]. split; [done|].
    intros i. unfold rows. cbn. rewrite Ht. rewrite (put_rows_lookup _ _ _ _ i Et). fold (rows (p_ID p) dq i). rewrite Hempty. by destruct (_ !! i).
  - intros q. cbn. rewrite Hp, Ht. rewrite lookup_alter_eq, lookup_alter_eq. destruct (d_playlists dq !! p_ID p); [|done].
    intros [= <-]. cbn. rewrite Hw2. by rewrite Hdnow.
Qed.

(** C10: refreshing a smart playlist ends and stays within bounds. Whatever playlists refer to each other, in cycles too, and whichever
    statements fail, the refresh terminates; only smart playlists of the user are evaluated, and every other playlist keeps its record and its
    tracks; no record changes but in its totals and times; and when the refresh reports that it was done, the playlist holds exactly the rows of
    its query, put once the playlists it refers to were refreshed, with the totals of its songs and the time of evaluation. *)
Theorem smart_refresh p d :
  keyed d -> d_playlists d !! p_ID p = Some p ->
  exists V d' done_, refreshSmartPlaylist fm u p d = Some (V, d', done_) /\ refreshes ∅ d d' /\ (done_ = true -> fresh p d d').
Proof.
  intros Hk Hp. destruct (tree_terminates (size (d_playlists d)) p ∅ d) as (V & d' & b & Hrun & _ & Hr & Hev); [done| | |].
  - unfold copy_of. by rewrite Hp.
  - rewrite difference_empty_L, size_dom. done.
  - exists V, d', b. split; [done|]. split; [done|]. intros Hb. by apply evaluated_fresh, Hev.
Qed.

End refresh.

(** ** A run *)

Definition plain_text : CriteriaEnv := {| NFC s := s; NFD s := s; ParseFloat _ := None; fmt_float _ := "" |}.
Definition plain_env : PlaylistEnv :=
  {| visit l := l; Stats l := mkCounters (Z.of_nat (length l)) 0 0; accessible _ := true; MediaIDs _ := []; text_as_id := Atoi |}.
(** Every query answers with three songs. *)
Definition three_songs : RefreshEnv :=
  {| query_rows _ _ _ _ _ := [(1, "a"); (2, "b"); (3, "c")]; query_count _ _ _ _ := 3; listing l := l; SmartPlaylistRefreshDelay := 60 |}.
Lemma three_laws : @RefreshLaws three_songs.
Proof. constructor. done. Qed.

Definition refers (id : string) (limit : Z) : Criteria := mkCriteria (Some (All [Leaf InPlaylist [("id", VStr id)]])) "" "" limit 0 0 0.
Definition smart (id other : string) (limit : Z) : Playlist :=
  mkPlaylist id id "" "u" false "" false 0 0 (Some (refers other limit)) None (mkCounters 0 0 0) [].

(** Two smart playlists that refer to each other, and one of another user. *)
Definition cycle : db :=
  mkDb (list_to_map [("x", smart "x" "y" 2); ("y", smart "y" "x" 0); ("z", mkPlaylist "z" "z" "" "v" true "" false 0 0 (Some (refers "x" 0)) None (mkCounters 0 0 0) [])])
    (list_to_map [(("x", 1), "old"); (("z", 1), "kept")]) [] 100 [].

Lemma cycle_keyed : keyed cycle.
Proof.
  intros q p Hp. apply elem_of_list_to_map_2 in Hp. cbn in Hp. repeat (apply elem_of_cons in Hp as [[= -> ->]|Hp]; [done|]). by apply not_elem_of_nil in Hp.
Qed.

Lemma smart_refresh_witness :
  exists V d', refreshSmartPlaylist (H := plain_env) (H0 := plain_text) (H1 := three_songs) ∅ (mkUser "u" false) (smart "x" "y" 2) cycle = Some (V, d', true) /\
    fresh (H := plain_env) (H0 := plain_text) (H1 := three_songs) ∅ (mkUser "u" false) (smart "x" "y" 2) cycle d' /\
    contents "x" (d_tracks d') = ["a"; "b"] /\ contents "y" (d_tracks d') = ["a"; "b"; "c"] /\ contents "z" (d_tracks d') = ["kept"].
Proof.
  destruct (smart_refresh (H := plain_env) (H0 := plain_text) (H1 := three_songs) (H2 := three_laws) ∅ (mkUser "u" false) (smart "x" "y" 2) cycle cycle_keyed eq_refl)
    as (V & d' & b & Hrun & _ & Hf).
  assert (match refreshSmartPlaylist (H := plain_env) (H0 := plain_text) (H1 := three_songs) ∅ (mkUser "u" false) (smart "x" "y" 2) cycle with
          | Some (_, d', b) => b = true /\ contents "x" (d_tracks d') = ["a"; "b"] /\ contents "y" (d_tracks d') = ["a"; "b"; "c"] /\ contents "z" (d_tracks d') = ["kept"]
          | None => False
          end) as Hc by (vm_compute; auto).
  rewrite Hrun in Hc. destruct Hc as [-> Hc]. exists V, d'. split; [exact Hrun|]. split; [exact (Hf eq_refl)|exact Hc].
Defined.

(** A refresh whose rules cannot be translated leaves the playlist empty, with the totals it had. *)
Definition unknown_field : Playlist :=
  mkPlaylist "x" "x" "" "u" false "" false 0 0 (Some (mkCriteria (Some (All [Leaf Is [("nosuch", VStr "1")]])) "" "" 0 0 0 0)) None (mkCounters 1 0 0) [].
Lemma failed_refresh_empties :
  let d := mkDb {[ "x" := unknown_field ]} {[ ("x", 1) := "old" ]} [] 100 [] in
  match refreshSmartPlaylist (H := plain_env) (H0 := plain_text) (H1 := three_songs) ∅ (mkUser "u" false) unknown_field d with
  | Some (_, d', b) => b = false /\ contents "x" (d_tracks d') = [] /\ p_Counters <$> d_playlists d' !! "x" = Some (mkCounters 1 0 0)
  | None => False
  end.
Proof. vm_compute. done. Qed.
