(* ===== verification/TaskQueue.v ===== *)
(** * The task queue of a plugin

    [plugins/host_taskqueue.go]: tasks in a table, workers that take them one by
    one and call the plugin, retries with exponential backoff, cancellation,
    retention, and recovery after a shutdown.  Every statement is one action, and
    may fail: [fault] is the error it fails with, if any. *)

From S2P Require Import Prelude GoStrings.

Local Open Scope Z_scope.

Definition defaultConcurrency : Z := 1.
Definition defaultBackoffMs : Z := 1000.
Definition defaultRetentionMs : Z := 3600000.
Definition minRetentionMs : Z := 60000.
Definition maxRetentionMs : Z := 604800000.
Definition maxQueueNameLength : Z := 128.
Definition maxPayloadSize : Z := 1 * 1024 * 1024.
Definition maxBackoffMs : Z := 3600000.

Inductive taskStatus := taskStatusPending | taskStatusRunning | taskStatusCompleted | taskStatusFailed | taskStatusCancelled.
#[export] Instance taskStatus_eq_dec : EqDecision taskStatus.
Proof. solve_decision. Defined.

Definition terminal (s : taskStatus) : bool :=
  match s with taskStatusCompleted | taskStatusFailed | taskStatusCancelled => true | _ => false end.

Record QueueConfig := mkQueueConfig {
  qc_Concurrency : Z; qc_MaxRetries : Z; qc_BackoffMs : Z; qc_DelayMs : Z; qc_RetentionMs : Z }.

Record task := mkTask {
  tk_queue : string; tk_payload : string; tk_status : taskStatus; tk_attempt : Z; tk_maxRetries : Z;
  tk_nextRunAt : Z; tk_createdAt : Z; tk_updatedAt : Z; tk_message : string }.

#[export] Instance task_eq_dec : EqDecision task.
Proof. solve_decision. Defined.

Definition set_status (s : taskStatus) (now : Z) (t : task) : task :=
  mkTask (tk_queue t) (tk_payload t) s (tk_attempt t) (tk_maxRetries t) (tk_nextRunAt t) (tk_createdAt t) now (tk_message t).
Definition set_message (m : string) (t : task) : task :=
  mkTask (tk_queue t) (tk_payload t) (tk_status t) (tk_attempt t) (tk_maxRetries t) (tk_nextRunAt t) (tk_createdAt t) (tk_updatedAt t) m.
Definition set_attempt (n : Z) (t : task) : task :=
  mkTask (tk_queue t) (tk_payload t) (tk_status t) n (tk_maxRetries t) (tk_nextRunAt t) (tk_createdAt t) (tk_updatedAt t) (tk_message t).
Definition set_nextRunAt (n : Z) (t : task) : task :=
  mkTask (tk_queue t) (tk_payload t) (tk_status t) (tk_attempt t) (tk_maxRetries t) n (tk_createdAt t) (tk_updatedAt t) (tk_message t).

(** What a worker took from the table. *)
Record taken := mkTaken { k_id : string; k_payload : string; k_attempt : Z; k_maxRetries : Z }.

(** Where a worker is in [processTask]: between tasks, waiting for the rate limiter,
    in the callback, or back from it with its message and error. *)
Inductive worker_pc := Idle | Waiting (k : taken) | Calling (k : taken) | Returned (k : taken) (message : string) (callbackErr : option string).
Record worker := mkWorker { w_queue : string; w_config : QueueConfig; w_pc : worker_pc }.

Record taskQueue := mkTaskQueue {
  s_maxConcurrency : Z; s_queues : gmap string QueueConfig; s_table : gmap string QueueConfig; s_tasks : gmap string task;
  s_workers : list worker; s_cancelled : bool; s_closed : bool; s_now : Z }.

Definition set_tasks (t : gmap string task) (s : taskQueue) : taskQueue :=
  mkTaskQueue (s_maxConcurrency s) (s_queues s) (s_table s) t (s_workers s) (s_cancelled s) (s_closed s) (s_now s).
Definition set_workers (w : list worker) (s : taskQueue) : taskQueue :=
  mkTaskQueue (s_maxConcurrency s) (s_queues s) (s_table s) (s_tasks s) w (s_cancelled s) (s_closed s) (s_now s).
Definition set_table (t : gmap string QueueConfig) (s : taskQueue) : taskQueue :=
  mkTaskQueue (s_maxConcurrency s) (s_queues s) t (s_tasks s) (s_workers s) (s_cancelled s) (s_closed s) (s_now s).
Definition add_queue (name : string) (config : QueueConfig) (s : taskQueue) : taskQueue :=
  mkTaskQueue (s_maxConcurrency s) (<[name := config]> (s_queues s)) (s_table s) (s_tasks s)
    (s_workers s ++ repeat (mkWorker name config Idle) (Z.to_nat (qc_Concurrency config))) (s_cancelled s) (s_closed s) (s_now s).

Inductive tqerr :=
| EmptyName | NameTooLong | BudgetExhausted | QueueExists | NoQueue | PayloadTooLarge | TaskNotFound
| CannotCancel (status : taskStatus) | StatementFailed (e : string).

(** A statement on the tasks; [fault] undoes it, as does a context that was cancelled
    ([bound] says whether the statement runs under the service's context). *)
Definition statement (fault : option string) (bound : bool) (f : gmap string task -> gmap string task) (s : taskQueue) : result tqerr taskQueue :=
  match fault with
  | Some e => Err (StatementFailed e)
  | None => if s_closed s || bound && s_cancelled s then Err (StatementFailed "context canceled") else Ok (set_tasks (f (s_tasks s)) s)
  end.

(** ** Queues *)

Definition applyConfigDefaults (c : QueueConfig) : QueueConfig :=
  let concurrency := if qc_Concurrency c <=? 0 then defaultConcurrency else qc_Concurrency c in
  let backoff := if qc_BackoffMs c <=? 0 then defaultBackoffMs else qc_BackoffMs c in
  let retention := if qc_RetentionMs c <=? 0 then defaultRetentionMs else qc_RetentionMs c in
  let retention := if retention <? minRetentionMs then minRetentionMs else retention in
  let retention := if maxRetentionMs <? retention then maxRetentionMs else retention in
  mkQueueConfig concurrency (qc_MaxRetries c) backoff (qc_DelayMs c) retention.

Definition wrap_int32 (z : Z) : Z := (z + 2 ^ 31) mod 2 ^ 32 - 2 ^ 31.
Definition allocated (s : taskQueue) : Z := wrap_int32 (map_fold (fun _ c n => qc_Concurrency c + n) 0 (s_queues s)).

Definition with_concurrency (n : Z) (c : QueueConfig) : QueueConfig :=
  mkQueueConfig n (qc_MaxRetries c) (qc_BackoffMs c) (qc_DelayMs c) (qc_RetentionMs c).

Definition clampConcurrency (s : taskQueue) (c : QueueConfig) : result tqerr QueueConfig :=
  let available := wrap_int32 (s_maxConcurrency s - allocated s) in
  if available <=? 0 then Err BudgetExhausted
  else Ok (if available <? qc_Concurrency c then with_concurrency available c else c).

(** Running tasks of a queue were left by a crash. *)
Definition reset_stale (name : string) (now : Z) : gmap string task -> gmap string task :=
  fmap (fun t => if String.eqb (tk_queue t) name && bool_decide (tk_status t = taskStatusRunning) then set_status taskStatusPending now t else t).

Definition CreateQueue (name : string) (config : QueueConfig) (fault1 fault2 : option string) (s : taskQueue) : taskQueue * result tqerr unit :=
  if String.eqb name "" then (s, Err EmptyName)
  else if maxQueueNameLength <? Z.of_nat (String.length name) then (s, Err NameTooLong)
  else
    match clampConcurrency s (applyConfigDefaults config) with
    | Err e => (s, Err e)
    | Ok config =>
        match s_queues s !! name with
        | Some _ => (s, Err QueueExists)
        | None =>
            match statement fault1 false id s with
            | Err e => (s, Err e)
            | Ok _ =>
                let s := set_table (<[name := config]> (s_table s)) s in
                match statement fault2 false (reset_stale name (s_now s)) s with
                | Err e => (s, Err e)
                | Ok s => (add_queue name config s, Ok ())
                end
            end
        end
    end.

(** ** Tasks *)

(** [taskID] is [id.NewRandom()]; an id that is taken violates the primary key. *)
Definition Enqueue (taskID queueName payload : string) (fault : option string) (s : taskQueue) : taskQueue * result tqerr string :=
  match s_queues s !! queueName with
  | None => (s, Err NoQueue)
  | Some c =>
      if maxPayloadSize <? Z.of_nat (String.length payload) then (s, Err PayloadTooLarge)
      else match s_tasks s !! taskID with
           | Some _ => (s, Err (StatementFailed "UNIQUE constraint failed"))
           | None =>
               let t := mkTask queueName payload taskStatusPending 0 (qc_MaxRetries c) (s_now s) (s_now s) (s_now s) "" in
               match statement fault false <[taskID := t]> s with
               | Ok s => (s, Ok taskID)
               | Err e => (s, Err e)
               end
           end
  end.

Definition Get (taskID : string) (fault : option string) (s : taskQueue) : result tqerr (taskStatus * string * Z) :=
  match statement fault false id s with
  | Err e => Err e
  | Ok _ => match s_tasks s !! taskID with
            | Some t => Ok (tk_status t, tk_message t, tk_attempt t)
            | None => Err TaskNotFound
            end
  end.

Definition cancel_task (now : Z) (t : task) : task :=
  if bool_decide (tk_status t = taskStatusPending) then set_status taskStatusCancelled now t else t.

(** [fault2] is a failure of the query that finds out why nothing was cancelled. *)
Definition Cancel (taskID : string) (fault fault2 : option string) (s : taskQueue) : taskQueue * result tqerr unit :=
  match statement fault false (alter (cancel_task (s_now s)) taskID) s with
  | Err e => (s, Err e)
  | Ok s' =>
      match s_tasks s !! taskID with
      | Some (mkTask _ _ taskStatusPending _ _ _ _ _ _) => (s', Ok ())
      | row => match fault2, row with
               | Some e, _ => (s', Err (StatementFailed e))
               | None, None => (s', Err TaskNotFound)
               | None, Some t => (s', Err (CannotCancel (tk_status t)))
               end
      end
  end.

Definition pending_in (queueName : string) (t : task) : bool :=
  String.eqb (tk_queue t) queueName && bool_decide (tk_status t = taskStatusPending).

Definition ClearQueue (queueName : string) (fault : option string) (s : taskQueue) : taskQueue * result tqerr Z :=
  match s_queues s !! queueName with
  | None => (s, Err NoQueue)
  | Some _ =>
      match statement fault false (fmap (fun t => if pending_in queueName t then cancel_task (s_now s) t else t)) s with
      | Err e => (s, Err e)
      | Ok s' => (s', Ok (Z.of_nat (size (filter (fun '(_, t) => pending_in queueName t = true) (s_tasks s)))))
      end
  end.

(** ** Workers *)

Definition due (queueName : string) (now : Z) (t : task) : bool := pending_in queueName t && (tk_nextRunAt t <=? now).
Definition before (t u : task) : bool :=
  (tk_nextRunAt t <? tk_nextRunAt u) || (tk_nextRunAt t =? tk_nextRunAt u) && (tk_createdAt t <? tk_createdAt u).

(** The row the inner query may choose: a due task no due task comes before. *)
Definition chosen (queueName : string) (now : Z) (tasks : gmap string task) (taskID : string) : bool :=
  match tasks !! taskID with
  | Some t => due queueName now t && forallb (fun '(_, u) => negb (due queueName now u && before u t)) (map_to_list tasks)
  | None => false
  end.
Definition none_due (queueName : string) (now : Z) (tasks : gmap string task) : bool :=
  forallb (fun '(_, u) => negb (due queueName now u)) (map_to_list tasks).

Definition dequeued (now : Z) (t : task) : task := set_attempt (tk_attempt t + 1) (set_status taskStatusRunning now t).

(** The statement that takes a task: [choice] is the row the engine chose, if any. *)
Definition dequeue (queueName : string) (choice : option string) (fault : option string) (s : taskQueue) : result tqerr (taskQueue * option taken) :=
  match choice with
  | None => match statement fault true id s with Ok s => Ok (s, None) | Err e => Err e end
  | Some taskID =>
      match s_tasks s !! taskID, statement fault true (alter (dequeued (s_now s)) taskID) s with
      | Some t, Ok s => Ok (s, Some (mkTaken taskID (tk_payload t) (tk_attempt t + 1) (tk_maxRetries t)))
      | None, Ok s => Ok (s, None)
      | _, Err e => Err e
      end
  end.

(** A failed statement of a worker is logged. *)
Definition logged (fault : option string) (bound : bool) (f : gmap string task -> gmap string task) (s : taskQueue) : taskQueue :=
  match statement fault bound f s with Ok s => s | Err _ => s end.

Definition revert_task (now : Z) (t : task) : task :=
  if bool_decide (tk_status t = taskStatusRunning) then set_attempt (Z.max (tk_attempt t - 1) 0) (set_status taskStatusPending now t) else t.
Definition revertTaskToPending (taskID : string) (fault : option string) (s : taskQueue) : taskQueue :=
  logged fault false (alter (revert_task (s_now s)) taskID) s.

Definition completeTask (taskID message : string) (fault : option string) (s : taskQueue) : taskQueue :=
  logged fault true (alter (fun t => set_message message (set_status taskStatusCompleted (s_now s) t)) taskID) s.

Definition backoff_for (backoffMs attempt : Z) : Z :=
  let backoff := wrap64 (Z.shiftl backoffMs (attempt - 1)) in
  if (backoff <=? 0) || (maxBackoffMs <? backoff) then maxBackoffMs else backoff.

Definition handleTaskFailure (k : taken) (config : QueueConfig) (callbackErr message : string) (fault : option string) (s : taskQueue) : taskQueue :=
  let message := if String.eqb message "" then callbackErr else message in
  if k_maxRetries k <? k_attempt k
  then logged fault true (alter (fun t => set_message message (set_status taskStatusFailed (s_now s) t)) (k_id k)) s
  else logged fault true (alter (fun t => set_nextRunAt (s_now s + backoff_for (qc_BackoffMs config) (k_attempt k))
                                            (set_status taskStatusPending (s_now s) t)) (k_id k)) s.

(** What follows the callback. *)
Definition finishTask (config : QueueConfig) (k : taken) (message : string) (callbackErr : option string) (fault : option string) (s : taskQueue) : taskQueue :=
  if s_cancelled s then revertTaskToPending (k_id k) fault s
  else match callbackErr with
       | None => completeTask (k_id k) message fault s
       | Some e => handleTaskFailure k config e message fault s
       end.

(** ** Retention and shutdown *)

Definition expired (name : string) (retentionMs now : Z) (t : task) : bool :=
  String.eqb (tk_queue t) name && terminal (tk_status t) && (tk_updatedAt t + retentionMs <? now).
(** One queue of [runCleanup]. *)
Definition cleanup_queue (name : string) (fault : option string) (s : taskQueue) : taskQueue :=
  match s_queues s !! name with
  | Some c => logged fault true (filter (fun '(_, t) => expired name (qc_RetentionMs c) (s_now s) t = false)) s
  | None => s
  end.

Definition cancel_service (s : taskQueue) : taskQueue :=
  mkTaskQueue (s_maxConcurrency s) (s_queues s) (s_table s) (s_tasks s) (s_workers s) true (s_closed s) (s_now s).
(** The last statement of [Close], and the end of the connection. *)
Definition close_database (fault : option string) (s : taskQueue) : taskQueue :=
  let s := logged fault false (fmap (fun t => if bool_decide (tk_status t = taskStatusRunning) then set_status taskStatusPending (s_now s) t else t)) s in
  mkTaskQueue (s_maxConcurrency s) (s_queues s) (s_table s) (s_tasks s) (s_workers s) true true (s_now s).

(** A service on the database another one left, by [Close] or by a crash. *)
Definition newTaskQueueService (maxConcurrency : Z) (s : taskQueue) : taskQueue :=
  mkTaskQueue maxConcurrency ∅ (s_table s) (s_tasks s) [] false false (s_now s).
