(* ===== verification/TaskQueueFacts.v ===== *)
(** * What the task queue guarantees

    The operations, the workers, the clock, the cleanup and the shutdown interleave
    in any order, with any statement failing.  A log records the calls of the plugin
    and the failures it reported. *)

From S2P Require Import Prelude GoStrings TaskQueue.

Local Open Scope Z_scope.

Inductive event := CallOf (taskID : string) (attempt : Z) | FailureOf (taskID : string).
#[export] Instance event_eq_dec : EqDecision event.
Proof. solve_decision. Defined.

Record world := mkWorld { svc : taskQueue; log : list event; used : gset string }.

Definition with_pc (i : nat) (p : worker_pc) (s : taskQueue) : taskQueue :=
  set_workers (alter (fun w => mkWorker (w_queue w) (w_config w) p) i (s_workers s)) s.
Definition tick (n : Z) (s : taskQueue) : taskQueue :=
  mkTaskQueue (s_maxConcurrency s) (s_queues s) (s_table s) (s_tasks s) (s_workers s) (s_cancelled s) (s_closed s) (s_now s + n).

(** The failure was recorded: the statement that follows it ran. *)
Definition failure_event (s : taskQueue) (k : taken) (err : option string) (fault : option string) : list event :=
  match err, fault with
  | Some _, None => if s_cancelled s || s_closed s then [] else [FailureOf (k_id k)]
  | _, _ => []
  end.

Inductive step : world -> world -> Prop :=
| step_tick s l u n : 0 <= n -> step (mkWorld s l u) (mkWorld (tick n s) l u)
| step_create s l u name config f1 f2 : step (mkWorld s l u) (mkWorld (CreateQueue name config f1 f2 s).1 l u)
| step_enqueue s l u taskID queueName payload f :
    taskID ∉ u -> step (mkWorld s l u) (mkWorld (Enqueue taskID queueName payload f s).1 l ({[taskID]} ∪ u))
| step_cancel s l u taskID f f2 : step (mkWorld s l u) (mkWorld (Cancel taskID f f2 s).1 l u)
| step_clear s l u queueName f : step (mkWorld s l u) (mkWorld (ClearQueue queueName f s).1 l u)
| step_cleanup s l u name f : step (mkWorld s l u) (mkWorld (cleanup_queue name f s) l u)
| step_dequeue s s' l u i w taskID f k :
    s_workers s !! i = Some w -> w_pc w = Idle -> chosen (w_queue w) (s_now s) (s_tasks s) taskID = true ->
    dequeue (w_queue w) (Some taskID) f s = Ok (s', Some k) ->
    step (mkWorld s l u) (mkWorld (with_pc i (Waiting k) s') l u)
| step_call s l u i w k :
    s_workers s !! i = Some w -> w_pc w = Waiting k ->
    step (mkWorld s l u) (mkWorld (with_pc i (Calling k) s) (l ++ [CallOf (k_id k) (k_attempt k)]) u)
| step_wait_cancelled s l u i w k f :
    s_workers s !! i = Some w -> w_pc w = Waiting k -> s_cancelled s = true ->
    step (mkWorld s l u) (mkWorld (with_pc i Idle (revertTaskToPending (k_id k) f s)) l u)
| step_return s l u i w k message err :
    s_workers s !! i = Some w -> w_pc w = Calling k ->
    step (mkWorld s l u) (mkWorld (with_pc i (Returned k message err) s) l u)
| step_finish s l u i w k message err f :
    s_workers s !! i = Some w -> w_pc w = Returned k message err ->
    step (mkWorld s l u) (mkWorld (with_pc i Idle (finishTask (w_config w) k message err f s)) (l ++ failure_event s k err f) u)
| step_shutdown s l u : step (mkWorld s l u) (mkWorld (cancel_service s) l u)
| step_close s l u f : s_cancelled s = true -> step (mkWorld s l u) (mkWorld (close_database f s) l u)
| step_restart s l u maxConcurrency : - 2 ^ 31 <= maxConcurrency < 2 ^ 31 -> step (mkWorld s l u) (mkWorld (newTaskQueueService maxConcurrency s) l u).

(** ** The invariant *)

Definition held_at (p : worker_pc) : option taken :=
  match p with Idle => None | Waiting k | Calling k | Returned k _ _ => Some k end.
Definition holding (w : worker) : option taken := held_at (w_pc w).

Definition failures (taskID : string) (l : list event) : Z := Z.of_nat (length (List.filter (fun e => bool_decide (e = FailureOf taskID)) l)).

(** How many failures a task in a given state may have. *)
Definition tolerated (t : task) : Z :=
  let retries := Z.max 0 (tk_maxRetries t) in
  match tk_status t with
  | taskStatusPending => Z.min (tk_attempt t) retries
  | taskStatusRunning => Z.min (tk_attempt t - 1) retries
  | taskStatusFailed => retries + 1
  | taskStatusCompleted | taskStatusCancelled => retries
  end.

Definition total (queues : gmap string QueueConfig) : Z := map_fold (fun _ c n => qc_Concurrency c + n) 0 queues.

(** The worker holds its task: nobody else changes it. *)
Definition holds_task (s : taskQueue) (w : worker) (k : taken) : Prop :=
  exists t, s_tasks s !! k_id k = Some t /\ tk_status t = taskStatusRunning /\ tk_queue t = w_queue w /\
    tk_attempt t = k_attempt k /\ tk_maxRetries t = k_maxRetries k /\ tk_payload t = k_payload k.

Definition task_ok (t : task) : Prop := 0 <= tk_attempt t /\ (tk_status t = taskStatusRunning -> 1 <= tk_attempt t).
Definition about (e : event) : string := match e with CallOf taskID _ | FailureOf taskID => taskID end.
Definition config_ok (c : QueueConfig) : Prop :=
  1 <= qc_Concurrency c /\ 1 <= qc_BackoffMs c /\ minRetentionMs <= qc_RetentionMs c <= maxRetentionMs.

Record inv (w : world) : Prop := {
  inv_tasks taskID t : s_tasks (svc w) !! taskID = Some t -> taskID ∈ used w /\ task_ok t /\ failures taskID (log w) <= tolerated t;
  inv_log e : e ∈ log w -> about e ∈ used w;
  inv_held i v k : s_closed (svc w) = false -> s_workers (svc w) !! i = Some v -> holding v = Some k -> holds_task (svc w) v k;
  inv_exclusive i j v v' k k' : s_closed (svc w) = false -> s_workers (svc w) !! i = Some v -> s_workers (svc w) !! j = Some v' ->
    holding v = Some k -> holding v' = Some k' -> k_id k = k_id k' -> i = j;
  inv_heldused i v k : s_workers (svc w) !! i = Some v -> holding v = Some k -> k_id k ∈ used w;
  inv_queue i v : s_workers (svc w) !! i = Some v -> s_queues (svc w) !! w_queue v = Some (w_config v);
  inv_config name c : s_queues (svc w) !! name = Some c -> config_ok c;
  inv_max : - 2 ^ 31 <= s_maxConcurrency (svc w) < 2 ^ 31;
  inv_budget : total (s_queues (svc w)) <= Z.max 0 (s_maxConcurrency (svc w));
  inv_workers : Z.of_nat (length (s_workers (svc w))) = total (s_queues (svc w)) }.

(** A service that has just started on whatever a database holds. *)
Definition initial (w : world) : Prop :=
  log w = [] /\ s_workers (svc w) = [] /\ s_queues (svc w) = ∅ /\ - 2 ^ 31 <= s_maxConcurrency (svc w) < 2 ^ 31 /\
  forall taskID t, s_tasks (svc w) !! taskID = Some t -> taskID ∈ used w /\ task_ok t.

Lemma total_empty : total ∅ = 0.
Proof. reflexivity. Qed.

Lemma total_insert name c queues : queues !! name = None -> total (<[name := c]> queues) = qc_Concurrency c + total queues.
Proof. intros. unfold total. rewrite map_fold_insert_L; [done|lia|done]. Qed.

Lemma total_nonneg queues : (forall name c, queues !! name = Some c -> config_ok c) -> 0 <= total queues.
Proof.
  induction queues as [|name c queues Hn IH] using map_ind; intros Hok; [rewrite total_empty; lia|].
  rewrite total_insert by done. destruct (Hok name c) as [H _]; [by rewrite lookup_insert_eq|].
  enough (0 <= total queues) by lia. apply IH. intros name' c' Hc. apply (Hok name').
  rewrite lookup_insert_ne; [done|]. intros ->. congruence.
Qed.

Lemma initial_inv w : initial w -> inv w.
Proof.
  destruct w as [s l u]; intros (Hl & Hw & Hq & Hm & Ht); simpl in *.
  constructor; simpl; rewrite ?Hl, ?Hw, ?Hq, ?total_empty; try lia.
  - intros taskID t H. destruct (Ht _ _ H) as [? Hok]. split_and!; [done|done|].
    destruct Hok as [Ha Hr]. unfold failures, tolerated; simpl. destruct (tk_status t); try lia. specialize (Hr eq_refl). lia.
  - intros e He. by apply not_elem_of_nil in He.
  - intros * _ Hi. by rewrite lookup_nil in Hi.
  - intros * _ Hi. by rewrite lookup_nil in Hi.
  - intros * Hi. by rewrite lookup_nil in Hi.
  - intros * Hi. by rewrite lookup_nil in Hi.
  - intros * Hi. by rewrite lookup_empty in Hi.
  - done.
Qed.

(** A step in which the workers give up or keep what they hold, and keep it as it was. *)
Lemma inv_weaken s l u s' l' :
  inv (mkWorld s l u) ->
  s_queues s' = s_queues s -> s_maxConcurrency s' = s_maxConcurrency s -> (s_closed s' = false -> s_closed s = false) ->
  length (s_workers s') = length (s_workers s) ->
  (forall e, e ∈ l' -> about e ∈ u) ->
  (forall taskID t', s_tasks s' !! taskID = Some t' -> taskID ∈ u /\ task_ok t' /\ failures taskID l' <= tolerated t') ->
  (forall i v', s_workers s' !! i = Some v' -> exists v, s_workers s !! i = Some v /\ w_queue v' = w_queue v /\ w_config v' = w_config v /\
     (forall k, holding v' = Some k -> holding v = Some k /\ (s_closed s' = false -> s_tasks s' !! k_id k = s_tasks s !! k_id k))) ->
  inv (mkWorld s' l' u).
Proof.
  intros Hinv Hq Hm Hc Hlen Hl Ht Hw. constructor; simpl.
  - exact Ht.
  - exact Hl.
  - intros i v' k Hcl Hi Hk. destruct (Hw _ _ Hi) as (v & Hv & Eq & _ & Hh). destruct (Hh _ Hk) as [Hk' Et].
    destruct (inv_held _ Hinv i v k (Hc Hcl) Hv Hk') as (t & Hlt & Hrest). exists t. rewrite Et, Eq by done. done.
  - intros i j v v' k k' Hcl Hi Hj Hk Hk' E.
    destruct (Hw _ _ Hi) as (x & Hx & _ & _ & Hhx), (Hw _ _ Hj) as (y & Hy & _ & _ & Hhy).
    eapply (inv_exclusive _ Hinv i j); eauto; [by apply Hhx|by apply Hhy].
  - intros i v k Hi Hk. destruct (Hw _ _ Hi) as (x & Hx & _ & _ & Hhx). eapply (inv_heldused _ Hinv i); [done|by apply Hhx].
  - intros i v Hi. destruct (Hw _ _ Hi) as (x & Hx & -> & -> & _). rewrite Hq. by apply (inv_queue _ Hinv i).
  - rewrite Hq. apply (inv_config _ Hinv).
  - rewrite Hm. apply (inv_max _ Hinv).
  - rewrite Hm, Hq. apply (inv_budget _ Hinv).
  - rewrite Hlen, Hq. apply (inv_workers _ Hinv).
Qed.

(** ** Single steps *)

(** What a statement outside the workers may do to a row. *)
Inductive benign (closing : bool) (queues : gmap string QueueConfig) : option task -> option task -> Prop :=
| benign_same o : benign closing queues o o
| benign_cancel t now : tk_status t = taskStatusPending -> benign closing queues (Some t) (Some (set_status taskStatusCancelled now t))
| benign_reset t now : tk_status t = taskStatusRunning -> closing = true \/ queues !! tk_queue t = None ->
    benign closing queues (Some t) (Some (set_status taskStatusPending now t))
| benign_remove t : terminal (tk_status t) = true -> benign closing queues (Some t) None.

Lemma benign_task closing queues o t' n :
  benign closing queues o (Some t') ->
  (forall t, o = Some t -> task_ok t /\ n <= tolerated t) -> task_ok t' /\ n <= tolerated t'.
Proof.
  intros Hb Ho. inversion Hb as [|t now Hs|t now Hs Hq|]; subst; [by apply Ho|..];
    destruct (Ho t eq_refl) as [[Ha Hr] Hn]; unfold task_ok, tolerated in *; simpl; rewrite Hs in Hn; (split; [|lia]); split; (done || lia).
Qed.

(** Statements that leave alone what the workers hold. *)
Lemma inv_benign s l u s' :
  inv (mkWorld s l u) ->
  s_queues s' = s_queues s -> s_maxConcurrency s' = s_maxConcurrency s -> s_workers s' = s_workers s ->
  (s_closed s' = false -> s_closed s = false) ->
  (forall taskID, benign (s_closed s') (s_queues s) (s_tasks s !! taskID) (s_tasks s' !! taskID)) ->
  inv (mkWorld s' l u).
Proof.
  intros Hinv Hq Hm Hw Hc Hb. apply (inv_weaken s l u); try done.
  - by rewrite Hw.
  - apply (inv_log _ Hinv).
  - intros taskID t' Ht'. specialize (Hb taskID). rewrite Ht' in Hb. split.
    + destruct (s_tasks s !! taskID) as [t|] eqn:E; [by apply (inv_tasks _ Hinv _ _ E)|inversion Hb].
    + eapply benign_task; [exact Hb|]. intros t Ht. by apply (inv_tasks _ Hinv _ _ Ht).
  - intros i v' Hi. rewrite Hw in Hi. exists v'. split_and!; try done. intros k Hk. split; [done|]. intros Hcl.
    destruct (inv_held _ Hinv i v' k (Hc Hcl) Hi Hk) as (t & Ht & Hs & Eq & _). pose proof (inv_queue _ Hinv i v' Hi) as HQ. simpl in *.
    specialize (Hb (k_id k)). rewrite Ht, Hcl in Hb. rewrite Ht.
    inversion Hb as [|t1 ? Hs1|t1 ? ? [?|Hn]|t1 Hs1]; subst; try congruence. by rewrite Hs in Hs1.
Qed.

Lemma benign_refl s l u s' :
  inv (mkWorld s l u) ->
  s_queues s' = s_queues s -> s_maxConcurrency s' = s_maxConcurrency s -> s_workers s' = s_workers s -> s_tasks s' = s_tasks s ->
  (s_closed s' = false -> s_closed s = false) -> inv (mkWorld s' l u).
Proof. intros Hinv Hq Hm Hw Ht Hc. apply (inv_benign s); try done. intros taskID. rewrite Ht. constructor. Qed.

(** A statement that ran changed the tasks and nothing else. *)
Lemma statement_Ok fault bound f s s' : statement fault bound f s = Ok s' -> s' = set_tasks (f (s_tasks s)) s /\ s_closed s = false.
Proof. unfold statement. destruct fault, (s_closed s); simpl; try done. destruct (bound && s_cancelled s); [done|]. by intros [= <-]. Qed.

Lemma statement_Ok_bound fault f s s' : statement fault true f s = Ok s' -> fault = None /\ s_cancelled s = false /\ s_closed s = false.
Proof. unfold statement. destruct fault, (s_closed s), (s_cancelled s); done. Qed.

Lemma logged_cases fault bound f s : logged fault bound f s = s \/ logged fault bound f s = set_tasks (f (s_tasks s)) s /\ s_closed s = false.
Proof. unfold logged. destruct (statement fault bound f s) eqn:E; [right|by left]. by apply statement_Ok in E as [-> ?]. Qed.

Lemma inv_set_tasks s l u tasks :
  inv (mkWorld s l u) -> (forall taskID, benign (s_closed s) (s_queues s) (s_tasks s !! taskID) (tasks !! taskID)) ->
  inv (mkWorld (set_tasks tasks s) l u).
Proof. intros Hinv Hb. by apply (inv_benign s). Qed.

Lemma benign_alter_cancel closing queues (tasks : gmap string task) (taskID taskID' : string) now :
  benign closing queues (tasks !! taskID') (alter (cancel_task now) taskID tasks !! taskID').
Proof.
  destruct (decide (taskID = taskID')) as [->|]; [|rewrite lookup_alter_ne by done; constructor].
  rewrite lookup_alter_eq. destruct (tasks !! taskID') as [t|]; [|constructor]. simpl. unfold cancel_task. case_bool_decide; by constructor.
Qed.

Lemma inv_cancel s l u taskID f f2 : inv (mkWorld s l u) -> inv (mkWorld (Cancel taskID f f2 s).1 l u).
Proof.
  intros Hinv. unfold Cancel. destruct (statement f false _ s) as [s'|e] eqn:E; [|done].
  apply statement_Ok in E as [-> _].
  assert (inv (mkWorld (set_tasks (alter (cancel_task (s_now s)) taskID (s_tasks s)) s) l u)) by (apply inv_set_tasks; [done|intros; apply benign_alter_cancel]).
  destruct (s_tasks s !! taskID) as [[? ? [] ? ? ? ? ? ?]|], f2; done.
Qed.

Lemma inv_clear s l u queueName f : inv (mkWorld s l u) -> inv (mkWorld (ClearQueue queueName f s).1 l u).
Proof.
  intros Hinv. unfold ClearQueue. destruct (s_queues s !! queueName); [|done]. destruct (statement f false _ s) as [s'|e] eqn:E; [|done].
  apply statement_Ok in E as [-> _]. apply inv_set_tasks; [done|]. intros taskID. rewrite lookup_fmap.
  destruct (s_tasks s !! taskID) as [t|]; [|constructor]. simpl. destruct (pending_in queueName t); [|constructor].
  unfold cancel_task. case_bool_decide; by constructor.
Qed.

Lemma inv_cleanup s l u name f : inv (mkWorld s l u) -> inv (mkWorld (cleanup_queue name f s) l u).
Proof.
  intros Hinv. unfold cleanup_queue. destruct (s_queues s !! name) as [c|]; [|done].
  destruct (logged_cases f true (filter (fun '(_, t) => expired name (qc_RetentionMs c) (s_now s) t = false)) s) as [->|[-> _]]; [done|].
  apply inv_set_tasks; [done|]. intros taskID. destruct (s_tasks s !! taskID) as [t|] eqn:Ht.
  - destruct (expired name (qc_RetentionMs c) (s_now s) t) eqn:E.
    + replace (filter _ _ !! taskID) with (@None task); [|symmetry; apply map_lookup_filter_None; right; naive_solver congruence].
      constructor. unfold expired in E. apply andb_prop in E as [E _]. by apply andb_prop in E as [_ E].
    + replace (filter _ _ !! taskID) with (Some t); [constructor|symmetry; by apply map_lookup_filter_Some].
  - replace (filter _ _ !! taskID) with (@None task); [constructor|symmetry; apply map_lookup_filter_None; by left].
Qed.

(** *** The workers *)

Lemma with_pc_lookup s i p j v' :
  s_workers (with_pc i p s) !! j = Some v' ->
  exists v, s_workers s !! j = Some v /\ w_queue v' = w_queue v /\ w_config v' = w_config v /\ w_pc v' = if decide (i = j) then p else w_pc v.
Proof.
  simpl. destruct (decide (i = j)) as [->|].
  - rewrite list_lookup_alter_eq. destruct (s_workers s !! j) as [v|]; simpl; intros [= <-]. by exists v.
  - rewrite list_lookup_alter_ne by done. intros ->. by exists v'.
Qed.

(** Worker [i] goes on with what it holds, or lets it go; its task may change then. *)
Lemma inv_worker s l u s' l' i v p :
  inv (mkWorld s l u) ->
  s_queues s' = s_queues s -> s_maxConcurrency s' = s_maxConcurrency s -> s_workers s' = s_workers s -> s_closed s' = s_closed s ->
  s_workers s !! i = Some v -> held_at p = None \/ held_at p = holding v ->
  (forall e, e ∈ l' -> about e ∈ u) ->
  (forall taskID t', s_tasks s' !! taskID = Some t' -> taskID ∈ u /\ task_ok t' /\ failures taskID l' <= tolerated t') ->
  (forall taskID, s_tasks s' !! taskID <> s_tasks s !! taskID ->
     s_closed s = false /\ held_at p = None /\ exists k, holding v = Some k /\ k_id k = taskID) ->
  inv (mkWorld (with_pc i p s') l' u).
Proof.
  intros Hinv Hq Hm Hw Hc Hi Hp Hl Ht Hch. apply (inv_weaken s l u); try done.
  - simpl. by rewrite Hc.
  - simpl. by rewrite length_alter, Hw.
  - intros j v' Hj. apply with_pc_lookup in Hj as (x & Hx & Eq & Ec & Ep). rewrite Hw in Hx. exists x. split_and!; try done.
    intros k Hk. assert (Hxk : holding x = Some k).
    { unfold holding in Hk. rewrite Ep in Hk. destruct (decide (i = j)) as [->|]; [|done]. simplify_eq. destruct Hp as [Hp|Hp]; [by rewrite Hp in Hk|by rewrite <- Hp]. }
    split; [done|]. simpl. intros Hcl. destruct (decide (s_tasks s' !! k_id k = s_tasks s !! k_id k)) as [|Hne]; [done|].
    destruct (Hch _ Hne) as (Hcs & Hnone & k0 & Hk0 & Eid). exfalso.
    pose proof (inv_exclusive _ Hinv i j v x k0 k Hcs Hi Hx Hk0 Hxk Eid) as ->.
    unfold holding in Hk. rewrite Ep, decide_True in Hk by done. congruence.
Qed.

Lemma failures_app taskID l l' : failures taskID (l ++ l') = failures taskID l + failures taskID l'.
Proof. unfold failures. rewrite List.filter_app, length_app. lia. Qed.

Lemma failures_call taskID taskID' a : failures taskID [CallOf taskID' a] = 0.
Proof. reflexivity. Qed.

Lemma failures_failure taskID taskID' : failures taskID [FailureOf taskID'] = if decide (taskID = taskID') then 1 else 0.
Proof. unfold failures. simpl. destruct (decide (taskID = taskID')) as [->|]; case_bool_decide; simplify_eq; done. Qed.

Lemma failures_none taskID l : (forall e, e ∈ l -> about e <> taskID) -> failures taskID l = 0.
Proof.
  intros H. unfold failures. enough (List.filter (fun e => bool_decide (e = FailureOf taskID)) l = []) as -> by done.
  induction l as [|e l IH]; [done|]. simpl. case_bool_decide as E.
  - exfalso. apply (H e); [by left|]. by rewrite E.
  - apply IH. intros e' He'. apply H. by right.
Qed.

(** The workers' moves between the statements. *)
Lemma inv_move s l u i v p l' :
  inv (mkWorld s l u) -> s_workers s !! i = Some v -> held_at p = holding v ->
  (forall e, e ∈ l' -> about e ∈ u) -> (forall taskID, failures taskID l' = failures taskID l) ->
  inv (mkWorld (with_pc i p s) l' u).
Proof.
  intros Hinv Hi Hh Hl Hf. apply (inv_worker s l u s l' i v); try done; [by right|].
  intros taskID t' Ht. destruct (inv_tasks _ Hinv _ _ Ht) as (? & ? & ?). rewrite Hf. done.
Qed.

Lemma inv_call s l u i v k :
  inv (mkWorld s l u) -> s_workers s !! i = Some v -> w_pc v = Waiting k ->
  inv (mkWorld (with_pc i (Calling k) s) (l ++ [CallOf (k_id k) (k_attempt k)]) u).
Proof.
  intros Hinv Hi Hp. apply (inv_move s l u i v); try done.
  - unfold holding. by rewrite Hp.
  - intros e He. apply elem_of_app in He as [He|He]; [by apply (inv_log _ Hinv)|]. apply list_elem_of_singleton in He as ->.
    apply (inv_heldused _ Hinv i v); [done|]. unfold holding. by rewrite Hp.
  - intros taskID. rewrite failures_app, failures_call. lia.
Qed.

(** The statement a worker ends with changes its own task or nothing. *)
Lemma inv_release s l u i v k g fault bound l' :
  inv (mkWorld s l u) -> s_workers s !! i = Some v -> holding v = Some k ->
  (forall e, e ∈ l' -> about e ∈ u) ->
  (forall taskID, failures taskID l <= failures taskID l') ->
  (forall taskID, taskID <> k_id k -> failures taskID l' = failures taskID l) ->
  (forall e, statement fault bound (alter g (k_id k)) s = Err e -> forall taskID, failures taskID l' = failures taskID l) ->
  (forall t, s_closed s = false -> s_tasks s !! k_id k = Some t -> holds_task s v k -> task_ok t -> failures (k_id k) l <= tolerated t ->
     fault = None -> (bound = true -> s_cancelled s = false) -> task_ok (g t) /\ failures (k_id k) l' <= tolerated (g t)) ->
  inv (mkWorld (with_pc i Idle (logged fault bound (alter g (k_id k)) s)) l' u).
Proof.
  intros Hinv Hi Hk Hl Hmon Hother Herr Hg.
  assert (Hst : logged fault bound (alter g (k_id k)) s = s /\ (forall taskID, failures taskID l' = failures taskID l) \/
    logged fault bound (alter g (k_id k)) s = set_tasks (alter g (k_id k) (s_tasks s)) s /\ s_closed s = false /\ fault = None /\ (bound = true -> s_cancelled s = false)).
  { unfold logged. destruct (statement fault bound _ s) as [s'|e] eqn:E; [right|left; eauto].
    pose proof (statement_Ok _ _ _ _ _ E) as [-> ?]. split_and!; try done.
    - unfold statement in E. by destruct fault.
    - intros Hbound. rewrite Hbound in E. by apply statement_Ok_bound in E as (_ & -> & _). }
  destruct Hst as [[-> Hf]|(-> & Hc & Hn & Hb)].
  - apply (inv_worker s l u s l' i v); try done; [by left|].
    intros taskID t' Ht. destruct (inv_tasks _ Hinv _ _ Ht) as (? & ? & ?). by rewrite Hf.
  - apply (inv_worker s l u _ l' i v); try done; [by left|..].
    + simpl. intros taskID t' Ht'. destruct (decide (taskID = k_id k)) as [->|Hne].
      * rewrite lookup_alter_eq in Ht'. destruct (s_tasks s !! k_id k) as [t|] eqn:Et; [|done]. simpl in Ht'. simplify_eq.
        destruct (inv_tasks _ Hinv _ _ Et) as (? & ? & ?). split; [done|]. apply Hg; try done. by apply (inv_held _ Hinv i).
      * rewrite lookup_alter_ne in Ht' by done. destruct (inv_tasks _ Hinv _ _ Ht') as (? & ? & ?). by rewrite Hother.
    + simpl. intros taskID Hne. split_and!; [done|done|]. exists k. split; [done|]. apply dec_stable. intros Hne'. by rewrite lookup_alter_ne in Hne.
Qed.

Lemma inv_revert s l u i v k fault :
  inv (mkWorld s l u) -> s_workers s !! i = Some v -> holding v = Some k ->
  inv (mkWorld (with_pc i Idle (revertTaskToPending (k_id k) fault s)) l u).
Proof.
  intros Hinv Hi Hk. apply (inv_release s l u i v k); try done; [apply (inv_log _ Hinv)|].
  intros t _ Ht (t0 & Ht0 & Hs & _) [Ha Hr] Hf _ _. simplify_eq. specialize (Hr Hs). unfold revert_task. rewrite bool_decide_true by done.
  unfold task_ok, tolerated in *. rewrite Hs in Hf. simpl. split; [|lia]. split; [lia|done].
Qed.

Lemma failure_event_other s k err fault taskID : taskID <> k_id k -> failures taskID (failure_event s k err fault) = 0.
Proof. intros Hne. unfold failure_event. destruct err, fault; try done. destruct (_ || _); [done|]. rewrite failures_failure. by rewrite decide_False. Qed.

Lemma failure_event_about s k err fault e : e ∈ failure_event s k err fault -> about e = k_id k.
Proof. unfold failure_event. destruct err, fault; try set_solver. destruct (_ || _); set_solver. Qed.

Lemma failures_nonneg taskID l : 0 <= failures taskID l.
Proof. unfold failures. lia. Qed.

(** Each of the three ends of a call is one statement of the worker. *)
Lemma finishTask_statement config k message err fault s :
  s_cancelled s = false ->
  exists g, finishTask config k message err fault s = logged fault true (alter g (k_id k)) s /\
    forall t, tk_attempt (g t) = tk_attempt t /\ tk_maxRetries (g t) = tk_maxRetries t /\ tk_queue (g t) = tk_queue t /\
      tk_payload (g t) = tk_payload t /\ tk_createdAt (g t) = tk_createdAt t /\
      tk_status (g t) = match err with
                        | None => taskStatusCompleted
                        | Some _ => if k_maxRetries k <? k_attempt k then taskStatusFailed else taskStatusPending
                        end.
Proof.
  intros Hc. unfold finishTask, completeTask, handleTaskFailure. rewrite Hc. destruct err as [e|]; [|by eexists].
  destruct (k_maxRetries k <? k_attempt k); by eexists.
Qed.

Lemma inv_finish s l u i v k message err fault :
  inv (mkWorld s l u) -> s_workers s !! i = Some v -> holding v = Some k ->
  inv (mkWorld (with_pc i Idle (finishTask (w_config v) k message err fault s)) (l ++ failure_event s k err fault) u).
Proof.
  intros Hinv Hi Hk. destruct (s_cancelled s) eqn:Hc.
  { unfold finishTask, failure_event. rewrite Hc. replace (match err with Some _ => _ | _ => _ end) with (@nil event) by (destruct err, fault; done).
    rewrite app_nil_r. by apply (inv_revert s l u i v). }
  destruct (finishTask_statement (w_config v) k message err fault s Hc) as (g & -> & Hg).
  apply (inv_release s l u i v k); try done.
  - intros e He. apply elem_of_app in He as [He|He]; [by apply (inv_log _ Hinv)|].
    rewrite (failure_event_about _ _ _ _ _ He). by apply (inv_heldused _ Hinv i v).
  - intros taskID. rewrite failures_app. pose proof (failures_nonneg taskID (failure_event s k err fault)). lia.
  - intros taskID Hne. rewrite failures_app, failure_event_other by done. lia.
  - intros e He taskID. rewrite failures_app. unfold statement in He. unfold failure_event.
    destruct fault; [destruct err; unfold failures at 2; simpl; lia|]. rewrite Hc in *. rewrite andb_false_r, orb_false_r in He.
    destruct (s_closed s); [|done]. destruct err; unfold failures at 2; simpl; lia.
  - intros t Hcl Ht (t0 & Ht0 & Hs & _ & Ea & Em & _) [Ha Hr] Hf -> _. simplify_eq. specialize (Hr Hs). destruct (Hg t) as (Ga & Gm & _ & _ & _ & Gs).
    rewrite failures_app. unfold failure_event. rewrite Hc, Hcl. simpl. unfold task_ok, tolerated in *. rewrite Hs in Hf. rewrite Ga, Gm, Gs.
    destruct err; [rewrite failures_failure, decide_True by done|].
    + destruct (k_maxRetries k <? k_attempt k) eqn:E; (split; [split; [lia|done]|lia]).
    + replace (failures (k_id k) []) with 0 by done. split; [split; [lia|done]|lia].
Qed.

Lemma inv_enqueue s l u taskID queueName payload fault :
  inv (mkWorld s l u) -> taskID ∉ u -> inv (mkWorld (Enqueue taskID queueName payload fault s).1 l ({[taskID]} ∪ u)).
Proof.
  intros Hinv Hnew.
  assert (Hgrow : forall s', s_queues s' = s_queues s -> s_maxConcurrency s' = s_maxConcurrency s -> s_workers s' = s_workers s -> s_closed s' = s_closed s ->
    (forall x, x <> taskID -> s_tasks s' !! x = s_tasks s !! x) ->
    (forall t, s_tasks s' !! taskID = Some t -> task_ok t /\ 0 <= tolerated t) -> inv (mkWorld s' l ({[taskID]} ∪ u))).
  { intros s' Hq Hm Hw Hc Hsame Ht. constructor; simpl; rewrite ?Hw, ?Hq, ?Hm, ?Hc; try apply Hinv.
    - intros x t Hx. destruct (decide (x = taskID)) as [->|Hne].
      + destruct (Ht _ Hx) as [? ?]. split_and!; [set_solver|done|]. rewrite failures_none; [done|].
        intros e He <-. apply Hnew. by apply (inv_log _ Hinv).
      + rewrite Hsame in Hx by done. destruct (inv_tasks _ Hinv _ _ Hx) as (? & ? & ?). simpl in *. set_solver.
    - intros e He. apply elem_of_union_r. by apply (inv_log _ Hinv).
    - intros i v k Hcl Hi Hk. destruct (inv_held _ Hinv i v k Hcl Hi Hk) as (t & Htt & Hrest). exists t. simpl in *. rewrite Hsame; [done|].
      intros <-. apply Hnew. by apply (inv_heldused _ Hinv i v).
    - intros i v k Hi Hk. apply elem_of_union_r. by apply (inv_heldused _ Hinv i v). }
  assert (Hfresh : s_tasks s !! taskID = None) by (destruct (s_tasks s !! taskID) as [t|] eqn:E; [|done]; by destruct (inv_tasks _ Hinv _ _ E)).
  assert (Hsame : inv (mkWorld s l ({[taskID]} ∪ u))) by (apply Hgrow; try done; intros t Ht; simplify_eq).
  unfold Enqueue. destruct (s_queues s !! queueName) as [c|]; [|done]. destruct (_ <? _); [done|]. rewrite Hfresh.
  destruct (statement fault false _ s) as [s'|e] eqn:E; [|done]. apply statement_Ok in E as [-> _]. apply Hgrow; try done; simpl.
  - intros x Hne. by rewrite lookup_insert_ne.
  - intros t. rewrite lookup_insert_eq. intros [= <-]. split; [by split|]. unfold tolerated; simpl. lia.
Qed.

Lemma due_spec queueName now t :
  due queueName now t = true <-> tk_queue t = queueName /\ tk_status t = taskStatusPending /\ tk_nextRunAt t <= now.
Proof. unfold due, pending_in. rewrite !andb_true_iff, bool_decide_eq_true, String.eqb_eq, Z.leb_le. tauto. Qed.

Lemma chosen_due queueName now tasks taskID :
  chosen queueName now tasks taskID = true -> exists t, tasks !! taskID = Some t /\ due queueName now t = true.
Proof. unfold chosen. destruct (tasks !! taskID) as [t|]; [|done]. intros H. apply andb_prop in H as [H _]. by exists t. Qed.

Lemma dequeue_Ok queueName taskID fault s s' k :
  dequeue queueName (Some taskID) fault s = Ok (s', Some k) ->
  exists t, s_tasks s !! taskID = Some t /\ k = mkTaken taskID (tk_payload t) (tk_attempt t + 1) (tk_maxRetries t) /\
    s' = set_tasks (alter (dequeued (s_now s)) taskID (s_tasks s)) s /\ s_closed s = false /\ s_cancelled s = false.
Proof.
  unfold dequeue. destruct (s_tasks s !! taskID) as [t|]; destruct (statement fault true _ s) as [x|] eqn:E; try done.
  intros [= <- <-]. pose proof (statement_Ok _ _ _ _ _ E) as [-> ?]. apply statement_Ok_bound in E as (_ & ? & _). by exists t.
Qed.

Lemma inv_dequeue s s' l u i v taskID fault k :
  inv (mkWorld s l u) -> s_workers s !! i = Some v -> w_pc v = Idle -> chosen (w_queue v) (s_now s) (s_tasks s) taskID = true ->
  dequeue (w_queue v) (Some taskID) fault s = Ok (s', Some k) -> inv (mkWorld (with_pc i (Waiting k) s') l u).
Proof.
  intros Hinv Hi Hidle Hch Hd. apply chosen_due in Hch as (t & Ht & Hdue). apply due_spec in Hdue as (Hq & Hs & _).
  apply dequeue_Ok in Hd as (t0 & Ht0 & -> & -> & Hcl & _). simplify_eq.
  destruct (inv_tasks _ Hinv _ _ Ht) as (Hu & [Ha _] & Hf). simpl in *.
  assert (Hnot : forall j x y, s_workers s !! j = Some x -> holding x = Some y -> k_id y <> taskID).
  { intros j x y Hj Hy E. destruct (inv_held _ Hinv j x y Hcl Hj Hy) as (t1 & Ht1 & Hs1 & _). simpl in Ht1. rewrite E in Ht1. congruence. }
  assert (Hw : forall j x y, s_workers (with_pc i (Waiting (mkTaken taskID (tk_payload t) (tk_attempt t + 1) (tk_maxRetries t))) s) !! j = Some x ->
    holding x = Some y -> j = i /\ w_queue x = w_queue v /\ y = mkTaken taskID (tk_payload t) (tk_attempt t + 1) (tk_maxRetries t) \/
    exists x0, j <> i /\ s_workers s !! j = Some x0 /\ holding x0 = Some y /\ w_queue x = w_queue x0).
  { intros j x y Hj Hy. apply with_pc_lookup in Hj as (x0 & Hx0 & Eq & _ & Ep). unfold holding in *. rewrite Ep in Hy.
    destruct (decide (i = j)) as [->|]; [left; naive_solver congruence|right; exists x0; split_and!; try done; congruence]. }
  constructor; simpl in *; try apply Hinv.
  - intros x t' Hx. destruct (decide (x = taskID)) as [->|Hne]; [|rewrite lookup_alter_ne in Hx by done; by apply (inv_tasks _ Hinv)].
    rewrite lookup_alter_eq, Ht in Hx. simpl in Hx. injection Hx as <-. unfold task_ok, tolerated in *. rewrite Hs in Hf. simpl. split_and!; [done|lia..].
  - intros j x y _ Hj Hy. destruct (Hw j x y Hj Hy) as [(-> & Eq & ->)|(x0 & Hne & Hj0 & Hy0 & Eq)].
    + exists (dequeued (s_now s) t). simpl. rewrite lookup_alter_eq, Ht. by rewrite Eq.
    + destruct (inv_held _ Hinv j x0 y Hcl Hj0 Hy0) as (t1 & Ht1 & Hrest). exists t1. simpl. rewrite lookup_alter_ne by (apply not_eq_sym; eauto). by rewrite Eq.
  - intros j j' x x' y y' _ Hj Hj' Hy Hy' E.
    destruct (Hw j x y Hj Hy) as [(-> & _ & ->)|(x0 & Hne & Hj0 & Hy0 & _)], (Hw j' x' y' Hj' Hy') as [(-> & _ & ->)|(x0' & Hne' & Hj0' & Hy0' & _)];
      simpl in *; [done|by destruct (Hnot _ _ _ Hj0' Hy0')|by destruct (Hnot _ _ _ Hj0 Hy0)|by apply (inv_exclusive _ Hinv j j' x0 x0' y y')].
  - intros j x y Hj Hy. destruct (Hw j x y Hj Hy) as [(-> & _ & ->)|(x0 & _ & Hj0 & Hy0 & _)]; [done|by apply (inv_heldused _ Hinv j x0)].
  - intros j x Hj. destruct (with_pc_lookup s _ _ _ _ Hj) as (x0 & Hx0 & -> & -> & _). by apply (inv_queue _ Hinv j).
  - rewrite length_alter. apply (inv_workers _ Hinv).
Qed.

(** The configuration of a queue that was created fits the budget. *)
Lemma allocated_total s l u : inv (mkWorld s l u) -> allocated s = total (s_queues s).
Proof.
  intros Hinv. pose proof (total_nonneg _ (inv_config _ Hinv)). pose proof (inv_budget _ Hinv). pose proof (inv_max _ Hinv). simpl in *.
  unfold allocated, wrap_int32. change (map_fold _ _ _) with (total (s_queues s)). rewrite Z.mod_small; lia.
Qed.

Lemma applyConfigDefaults_ok c : config_ok (applyConfigDefaults c).
Proof. unfold config_ok, applyConfigDefaults, defaultConcurrency, defaultBackoffMs, defaultRetentionMs, minRetentionMs, maxRetentionMs. simpl. repeat case_match; lia. Qed.

Lemma clampConcurrency_ok s l u config c :
  inv (mkWorld s l u) -> clampConcurrency s (applyConfigDefaults config) = Ok c ->
  config_ok c /\ total (s_queues s) + qc_Concurrency c <= s_maxConcurrency s.
Proof.
  intros Hinv. pose proof (applyConfigDefaults_ok config) as Hd. revert Hd. generalize (applyConfigDefaults config) as d. intros d (? & ? & ?).
  unfold clampConcurrency. rewrite (allocated_total s l u) by done.
  pose proof (total_nonneg _ (inv_config _ Hinv)). pose proof (inv_budget _ Hinv). pose proof (inv_max _ Hinv). simpl in *.
  unfold wrap_int32. rewrite Z.mod_small by lia.
  destruct (_ <=? 0) eqn:E; [done|]. intros [= <-]. destruct (_ <? _) eqn:E2; unfold config_ok; simpl; lia.
Qed.

Lemma inv_add_queue s l u name c :
  inv (mkWorld s l u) -> s_queues s !! name = None -> config_ok c -> total (s_queues s) + qc_Concurrency c <= s_maxConcurrency s ->
  inv (mkWorld (add_queue name c s) l u).
Proof.
  intros Hinv Hn Hc Hb.
  assert (Hw : forall i v, s_workers (add_queue name c s) !! i = Some v -> s_workers s !! i = Some v \/ v = mkWorker name c Idle).
  { intros i v Hi. simpl in Hi. apply lookup_app_Some in Hi as [Hi|[_ Hi]]; [by left|right]. apply list_elem_of_lookup_2 in Hi.
    apply list_elem_of_In, repeat_spec in Hi. done. }
  constructor; simpl in *; try apply Hinv.
  - intros i v k Hcl Hi Hk. destruct (Hw _ _ Hi) as [Hi'| ->]; [|done]. by apply (inv_held _ Hinv i).
  - intros i j v v' k k' Hcl Hi Hj Hk Hk' E. destruct (Hw _ _ Hi) as [Hi'| ->], (Hw _ _ Hj) as [Hj'| ->]; try done. by apply (inv_exclusive _ Hinv i j v v' k k').
  - intros i v k Hi Hk. destruct (Hw _ _ Hi) as [Hi'| ->]; [|done]. by apply (inv_heldused _ Hinv i v).
  - intros i v Hi. destruct (Hw _ _ Hi) as [Hi'| ->]; [|by rewrite lookup_insert_eq].
    pose proof (inv_queue _ Hinv i v Hi') as Hq. simpl in Hq. rewrite lookup_insert_ne; [done|]. intros E. rewrite <- E in Hq. congruence.
  - intros name' c'. destruct (decide (name = name')) as [<-|]; [rewrite lookup_insert_eq; by intros [= <-]|].
    rewrite lookup_insert_ne by done. apply (inv_config _ Hinv).
  - rewrite total_insert by done. lia.
  - rewrite total_insert, length_app, repeat_length by done. pose proof (inv_workers _ Hinv). destruct Hc. simpl in *. lia.
Qed.

Lemma inv_create s l u name config f1 f2 : inv (mkWorld s l u) -> inv (mkWorld (CreateQueue name config f1 f2 s).1 l u).
Proof.
  intros Hinv. unfold CreateQueue. destruct (String.eqb name ""); [done|]. destruct (_ <? _); [done|].
  destruct (clampConcurrency s (applyConfigDefaults config)) as [c|e] eqn:Ec; [|done].
  destruct (s_queues s !! name) eqn:Eq; [done|]. destruct (statement f1 false id s); [|done]. simpl.
  set (s0 := set_table _ s). assert (Hinv0 : inv (mkWorld s0 l u)) by (by apply (benign_refl s)).
  destruct (statement f2 false (reset_stale name (s_now s)) s0) as [s1|] eqn:E; [|done]. apply statement_Ok in E as [-> _].
  destruct (clampConcurrency_ok s l u config c Hinv Ec). apply inv_add_queue; try done.
  apply inv_set_tasks; [done|]. intros taskID. unfold reset_stale. rewrite lookup_fmap. destruct (s_tasks s0 !! taskID) as [t|]; [|constructor]. simpl.
  destruct (String.eqb_spec (tk_queue t) name) as [<-|]; simpl; [|constructor]. case_bool_decide; constructor; [done|by right].
Qed.

Lemma inv_close s l u fault : inv (mkWorld s l u) -> inv (mkWorld (close_database fault s) l u).
Proof.
  intros Hinv. apply (inv_benign s); try done; unfold close_database; simpl;
    match goal with |- context [logged ?f ?b ?g s] => destruct (logged_cases f b g s) as [->|[-> _]] end; try done; intros taskID; simpl; [constructor|].
  rewrite lookup_fmap. destruct (s_tasks s !! taskID) as [t|]; [|constructor]. simpl. case_bool_decide; constructor; [done|by left].
Qed.

Lemma inv_restart s l u m : - 2 ^ 31 <= m < 2 ^ 31 -> inv (mkWorld s l u) -> inv (mkWorld (newTaskQueueService m s) l u).
Proof.
  intros Hm Hinv. constructor; simpl; try apply Hinv; try done; try (intros * Hi; by rewrite lookup_nil in Hi); try (intros * _ Hi; by rewrite lookup_nil in Hi).
  rewrite total_empty. lia.
Qed.

Lemma step_inv w w' : step w w' -> inv w -> inv w'.
Proof.
  intros Hst Hinv. destruct Hst;
    eauto using inv_create, inv_enqueue, inv_cancel, inv_clear, inv_cleanup, inv_dequeue, inv_call, inv_close, inv_restart.
  - by apply (benign_refl s).
  - apply (inv_revert s l u i w); try done. unfold holding. by rewrite H0.
  - apply (inv_move s l u i w); try done; [unfold holding; by rewrite H0|apply (inv_log _ Hinv)].
  - apply (inv_finish s l u i w); try done. unfold holding. by rewrite H0.
  - by apply (benign_refl s).
Qed.

Lemma reachable_inv w w' : initial w -> steps step w w' -> inv w'.
Proof. intros Hi. apply steps_invariant; [intros a b Ha Hab; by apply (step_inv a)|by apply initial_inv]. Qed.

(** *** A run: one queue, one task, one call *)

Definition demo0 : taskQueue := mkTaskQueue 4 ∅ ∅ ∅ [] false false 1000.
Definition demo_taken : taken := mkTaken "t" "p" 1 1.
Definition demo1 : taskQueue := (CreateQueue "q" (mkQueueConfig 0 1 0 0 0) None None demo0).1.
Definition demo2 : taskQueue := (Enqueue "t" "q" "p" None demo1).1.
Definition demo3 : taskQueue :=
  with_pc 0 (Waiting demo_taken) (match dequeue "q" (Some "t") None demo2 with Ok (s, _) => s | Err _ => demo2 end).
Definition demo4 : taskQueue := with_pc 0 (Calling demo_taken) demo3.
Definition demo5 (err : option string) : taskQueue := with_pc 0 (Returned demo_taken "" err) demo4.
Definition demo6 (err : option string) : taskQueue :=
  with_pc 0 Idle (finishTask (mkQueueConfig 1 1 1000 0 3600000) demo_taken "" err None (demo5 err)).
Definition demo_log (err : option string) : list event := [CallOf "t" 1] ++ failure_event (demo5 err) demo_taken err None.

Lemma demo_initial : initial (mkWorld demo0 [] ∅).
Proof. unfold initial; simpl. split_and!; [done..|lia|lia|]. intros taskID t H. by rewrite lookup_empty in H. Qed.

Lemma demo_steps err : steps step (mkWorld demo0 [] ∅) (mkWorld (demo6 err) (demo_log err) ({["t"]} ∪ ∅)).
Proof.
  eapply steps_snoc; [eapply steps_snoc; [eapply steps_snoc; [eapply steps_snoc; [eapply steps_snoc; [apply steps_one|]|]|]|]|].
  - apply (step_create demo0 [] ∅ "q" (mkQueueConfig 0 1 0 0 0) None None).
  - apply (step_enqueue demo1 [] ∅ "t" "q" "p" None). set_solver.
  - apply (step_dequeue demo2 (match dequeue "q" (Some "t") None demo2 with Ok (s, _) => s | Err _ => demo2 end) [] _ 0
      (mkWorker "q" (mkQueueConfig 1 1 1000 0 3600000) Idle) "t" None demo_taken); vm_compute; reflexivity.
  - apply (step_call demo3 [] _ 0 (mkWorker "q" (mkQueueConfig 1 1 1000 0 3600000) (Waiting demo_taken)) demo_taken); vm_compute; reflexivity.
  - apply (step_return demo4 _ _ 0 (mkWorker "q" (mkQueueConfig 1 1 1000 0 3600000) (Calling demo_taken)) demo_taken "" err); vm_compute; reflexivity.
  - apply (step_finish (demo5 err) _ _ 0 (mkWorker "q" (mkQueueConfig 1 1 1000 0 3600000) (Returned demo_taken "" err)) demo_taken "" err None); vm_compute; reflexivity.
Qed.

(** ** The properties *)



(** *** Tasks that are over *)

Definition calls (taskID : string) (l : list event) : list event :=
  List.filter (fun e => match e with CallOf x _ => String.eqb x taskID | FailureOf _ => false end) l.

(** The task is done, or its row has been removed after the least retention. *)
Definition over (taskID : string) (t : task) (n : list event) (w : world) : Prop :=
  taskID ∈ used w /\ (s_tasks (svc w) !! taskID = Some t \/ s_tasks (svc w) !! taskID = None /\ tk_updatedAt t + minRetentionMs < s_now (svc w)) /\
  (forall i v k, s_workers (svc w) !! i = Some v -> holding v = Some k -> k_id k <> taskID) /\ calls taskID (log w) = n.

Lemma over_tasks taskID t n s l u s' l' :
  over taskID t n (mkWorld s l u) -> s_tasks s' !! taskID = s_tasks s !! taskID -> s_now s <= s_now s' ->
  (forall i v' k, s_workers s' !! i = Some v' -> holding v' = Some k -> (exists j v, s_workers s !! j = Some v /\ holding v = Some k) \/ k_id k <> taskID) ->
  calls taskID l' = calls taskID l -> over taskID t n (mkWorld s' l' u).
Proof.
  intros (Hu & Ht & Hw & Hn) Et Hnow Hw' Hl. unfold over; simpl in *. rewrite Et, Hl. split_and!; try done.
  - destruct Ht as [Ht|[Ht ?]]; [by left|right]. split; [done|lia].
  - intros i v k Hi Hk. destruct (Hw' i v k Hi Hk) as [(j & x & Hj & Hx)|]; [by apply (Hw j x)|done].
Qed.

Lemma over_same_workers taskID t n s l u s' :
  over taskID t n (mkWorld s l u) -> s_tasks s' !! taskID = s_tasks s !! taskID -> s_now s <= s_now s' -> s_workers s' = s_workers s ->
  over taskID t n (mkWorld s' l u).
Proof. intros Ho Ht Hn Hw. apply (over_tasks taskID t n s l u); try done. rewrite Hw. eauto. Qed.

Lemma over_with_pc taskID t n s l u s' l' i v p :
  over taskID t n (mkWorld s l u) -> s_tasks s' !! taskID = s_tasks s !! taskID -> s_now s' = s_now s -> s_workers s' = s_workers s ->
  s_workers s !! i = Some v -> (forall k, held_at p = Some k -> holding v = Some k \/ k_id k <> taskID) ->
  calls taskID l' = calls taskID l -> over taskID t n (mkWorld (with_pc i p s') l' u).
Proof.
  intros Ho Ht Hn Hw Hi Hp Hl. apply (over_tasks taskID t n s l u); try done; [simpl; lia|].
  intros j v' k Hj Hk. apply with_pc_lookup in Hj as (x & Hx & _ & _ & Ep). rewrite Hw in Hx. unfold holding in Hk. rewrite Ep in Hk.
  destruct (decide (i = j)) as [->|]; [|left; by exists j, x]. destruct (Hp k Hk); [|by right]. left. by exists j, v.
Qed.

(** A row that is over is out of reach of every statement but the cleanup. *)
Lemma terminal_fixed taskID t n s l u (f : task -> task) :
  terminal (tk_status t) = true -> over taskID t n (mkWorld s l u) -> (forall x, terminal (tk_status x) = true -> f x = x) ->
  (f <$> s_tasks s) !! taskID = s_tasks s !! taskID /\ forall y, alter f y (s_tasks s) !! taskID = s_tasks s !! taskID.
Proof.
  intros Hterm (_ & Ht & _) Hf. rewrite lookup_fmap. simpl in Ht. split.
  - destruct Ht as [->|[-> _]]; [|done]. simpl. by rewrite Hf.
  - intros y. destruct (decide (y = taskID)) as [->|]; [|by rewrite lookup_alter_ne]. rewrite lookup_alter_eq.
    destruct Ht as [->|[-> _]]; [|done]. simpl. by rewrite Hf.
Qed.

Lemma over_logged taskID t n s l u i v k p fault bound g l' :
  over taskID t n (mkWorld s l u) -> s_workers s !! i = Some v -> holding v = Some k -> held_at p = None -> calls taskID l' = calls taskID l ->
  over taskID t n (mkWorld (with_pc i p (logged fault bound (alter g (k_id k)) s)) l' u).
Proof.
  intros Ho Hi Hk Hp Hl. pose proof (proj1 (proj2 (proj2 Ho)) i v k Hi Hk) as Hne.
  destruct (logged_cases fault bound (alter g (k_id k)) s) as [->|[-> _]]; apply (over_with_pc taskID t n s l u _ _ i v); try done; rewrite ?Hp; try done.
  simpl. by rewrite lookup_alter_ne.
Qed.

Lemma over_create taskID t n s l u name config f1 f2 :
  terminal (tk_status t) = true -> over taskID t n (mkWorld s l u) -> over taskID t n (mkWorld (CreateQueue name config f1 f2 s).1 l u).
Proof.
  intros Hterm Ho. unfold CreateQueue. destruct (String.eqb name ""); [done|]. destruct (_ <? _); [done|].
  destruct (clampConcurrency s (applyConfigDefaults config)) as [c|e]; [|done]. destruct (s_queues s !! name); [done|].
  destruct (statement f1 false id s); [|done]. simpl. set (s0 := set_table _ s).
  assert (Ho0 : over taskID t n (mkWorld s0 l u)) by (by apply (over_same_workers taskID t n s)).
  destruct (statement f2 false _ s0) as [s1|] eqn:E; [|done]. apply statement_Ok in E as [-> _]. apply (over_tasks taskID t n s0 l u); simpl; try done.
  - refine (proj1 (terminal_fixed taskID t n s0 l u _ Hterm Ho0 _)). intros x Hx. destruct (String.eqb _ _); simpl; [|done].
    case_bool_decide as Es; [|done]. by rewrite Es in Hx.
  - intros i v k Hi Hk. apply lookup_app_Some in Hi as [Hi|[_ Hi]]; [left; by exists i, v|].
    apply list_elem_of_lookup_2, list_elem_of_In, repeat_spec in Hi. by subst.
Qed.

Lemma over_enqueue taskID t n s l u newID queueName payload fault :
  over taskID t n (mkWorld s l u) -> newID ∉ u -> over taskID t n (mkWorld (Enqueue newID queueName payload fault s).1 l ({[newID]} ∪ u)).
Proof.
  intros (Hu & Ho) Hnew. assert (Hgo : forall s', over taskID t n (mkWorld s' l u) -> over taskID t n (mkWorld s' l ({[newID]} ∪ u))).
  { intros s' (? & ?). split; [set_solver|done]. }
  apply Hgo. unfold Enqueue. destruct (s_queues s !! queueName); [|done]. destruct (_ <? _); [done|]. destruct (s_tasks s !! newID); [done|].
  destruct (statement fault false _ s) as [s'|] eqn:E; [|done]. apply statement_Ok in E as [-> _].
  apply (over_same_workers taskID t n s); try done. simpl. rewrite lookup_insert_ne; [done|]. intros <-. done.
Qed.

Lemma cancel_task_terminal now x : terminal (tk_status x) = true -> cancel_task now x = x.
Proof. intros Hx. unfold cancel_task. case_bool_decide as Es; [|done]. by rewrite Es in Hx. Qed.

Lemma over_cancel taskID t n s l u x f f2 :
  terminal (tk_status t) = true -> over taskID t n (mkWorld s l u) -> over taskID t n (mkWorld (Cancel x f f2 s).1 l u).
Proof.
  intros Hterm Ho. unfold Cancel. destruct (statement f false _ s) as [s'|e] eqn:E; [|done]. apply statement_Ok in E as [-> _].
  assert (over taskID t n (mkWorld (set_tasks (alter (cancel_task (s_now s)) x (s_tasks s)) s) l u)).
  { apply (over_same_workers taskID t n s); try done. apply (terminal_fixed taskID t n s l u); try done. apply cancel_task_terminal. }
  destruct (s_tasks s !! x) as [[? ? [] ? ? ? ? ? ?]|], f2; done.
Qed.

Lemma over_clear taskID t n s l u queueName f :
  terminal (tk_status t) = true -> over taskID t n (mkWorld s l u) -> over taskID t n (mkWorld (ClearQueue queueName f s).1 l u).
Proof.
  intros Hterm Ho. unfold ClearQueue. destruct (s_queues s !! queueName); [|done]. destruct (statement f false _ s) as [s'|e] eqn:E; [|done].
  apply statement_Ok in E as [-> _]. apply (over_same_workers taskID t n s); try done. simpl.
  refine (proj1 (terminal_fixed taskID t n s l u _ Hterm Ho _)). intros x Hx. destruct (pending_in queueName x); [|done]. by apply cancel_task_terminal.
Qed.

Lemma over_cleanup taskID t n s l u name f :
  inv (mkWorld s l u) -> over taskID t n (mkWorld s l u) -> over taskID t n (mkWorld (cleanup_queue name f s) l u).
Proof.
  intros Hinv Ho. unfold cleanup_queue. destruct (s_queues s !! name) as [c|] eqn:Ec; [|done].
  destruct (inv_config _ Hinv name c Ec) as (_ & _ & Hmin & _).
  match goal with |- context [logged ?f ?b ?g s] => destruct (logged_cases f b g s) as [->|[-> _]] end; [done|].
  destruct Ho as (Hu & Ht & Hrest). split; [done|]. split; [|done]. simpl in *. destruct Ht as [Ht|[Ht ?]].
  - destruct (expired name (qc_RetentionMs c) (s_now s) t) eqn:E.
    + right. split; [apply map_lookup_filter_None; right; naive_solver congruence|].
      unfold expired in E. apply andb_prop in E as [_ E]. apply Z.ltb_lt in E. lia.
    + left. by apply map_lookup_filter_Some.
  - right. split; [|done]. apply map_lookup_filter_None. by left.
Qed.

Lemma over_dequeue taskID t n s s' l u i v x fault k :
  terminal (tk_status t) = true -> over taskID t n (mkWorld s l u) -> s_workers s !! i = Some v -> chosen (w_queue v) (s_now s) (s_tasks s) x = true ->
  dequeue (w_queue v) (Some x) fault s = Ok (s', Some k) -> over taskID t n (mkWorld (with_pc i (Waiting k) s') l u).
Proof.
  intros Hterm Ho Hi Hch Hd. apply chosen_due in Hch as (y & Hy & Hdue). apply due_spec in Hdue as (_ & Hs & _).
  apply dequeue_Ok in Hd as (y0 & Hy0 & -> & -> & _). simplify_eq.
  assert (x <> taskID) by (intros ->; destruct Ho as (_ & [Ht|[Ht _]] & _); simpl in Ht; simplify_eq; by rewrite Hs in Hterm).
  apply (over_with_pc taskID t n s l u _ _ i v); try done.
  - simpl. by rewrite lookup_alter_ne.
  - intros k [= <-]. by right.
Qed.

Lemma calls_app taskID l l' : calls taskID (l ++ l') = calls taskID l ++ calls taskID l'.
Proof. apply List.filter_app. Qed.

Lemma calls_failure taskID s k err fault : calls taskID (failure_event s k err fault) = [].
Proof. unfold failure_event. destruct err, fault; try done. by destruct (_ || _). Qed.

Lemma over_finish taskID t n s l u i v k message err fault :
  over taskID t n (mkWorld s l u) -> s_workers s !! i = Some v -> holding v = Some k ->
  over taskID t n (mkWorld (with_pc i Idle (finishTask (w_config v) k message err fault s)) (l ++ failure_event s k err fault) u).
Proof.
  intros Ho Hi Hk. assert (Hl : calls taskID (l ++ failure_event s k err fault) = calls taskID l) by (by rewrite calls_app, calls_failure, app_nil_r).
  destruct (s_cancelled s) eqn:Hc.
  - unfold finishTask. rewrite Hc. by apply (over_logged taskID t n s l u i v k).
  - destruct (finishTask_statement (w_config v) k message err fault s Hc) as (g & -> & _). by apply (over_logged taskID t n s l u i v k).
Qed.

Lemma step_over taskID t n w w' : terminal (tk_status t) = true -> inv w -> step w w' -> over taskID t n w -> over taskID t n w'.
Proof.
  intros Hterm Hinv Hst Ho. destruct Hst;
    eauto using over_create, over_enqueue, over_cancel, over_clear, over_cleanup, over_dequeue.
  - apply (over_same_workers taskID t n s); simpl; try done. lia.
  - assert (Hk : holding w = Some k) by (unfold holding; by rewrite H0).
    apply (over_with_pc taskID t n s l u _ _ i w); try done; [naive_solver|].
    rewrite calls_app. simpl. destruct (String.eqb_spec (k_id k) taskID) as [E|]; [|by rewrite app_nil_r].
    by destruct (proj1 (proj2 (proj2 Ho)) i w k H Hk).
  - apply (over_logged taskID t n s l u i w k); try done. unfold holding. by rewrite H0.
  - apply (over_with_pc taskID t n s l u _ _ i w); try done. unfold holding. rewrite H0. naive_solver.
  - apply over_finish; [done|done|]. unfold holding. by rewrite H0.
  - apply (over_same_workers taskID t n s); try done; unfold close_database; simpl;
      match goal with |- context [logged ?f ?b ?g s] => destruct (logged_cases f b g s) as [->|[-> _]] end; simpl; try done; try lia.
    refine (proj1 (terminal_fixed taskID t n s l u _ Hterm Ho _)). intros x Hx. case_bool_decide as Es; [|done]. by rewrite Es in Hx.
  - apply (over_tasks taskID t n s l u); simpl; try done.
Qed.

(** A task that was completed, failed or cancelled stays exactly as it is, through every later call, failure,
    shutdown and restart, until the cleanup removes it, more than a minute after its last change; the plugin is never called
    with it again. *)
Theorem terminal_tasks_final w0 w w' taskID t :
  initial w0 -> steps step w0 w -> s_closed (svc w) = false -> s_tasks (svc w) !! taskID = Some t -> terminal (tk_status t) = true ->
  steps step w w' ->
  (s_tasks (svc w') !! taskID = Some t \/ s_tasks (svc w') !! taskID = None /\ tk_updatedAt t + minRetentionMs < s_now (svc w')) /\
  calls taskID (log w') = calls taskID (log w).
Proof.
  intros Hi Hs Hc Ht Hterm Hs'. pose proof (reachable_inv w0 w Hi Hs) as Hinv.
  assert (Ho : over taskID t (calls taskID (log w)) w).
  { split_and!; [by apply (inv_tasks _ Hinv _ _ Ht)|by left| |done]. intros i v k Hv Hk E.
    destruct (inv_held _ Hinv i v k Hc Hv Hk) as (t1 & Ht1 & Hr & _). rewrite E in Ht1. simplify_eq. by rewrite Hr in Hterm. }
  assert (Hboth : inv w' /\ over taskID t (calls taskID (log w)) w').
  { revert Hs'. apply (steps_invariant step (fun x => inv x /\ over taskID t (calls taskID (log w)) x)); [|done].
    intros a b [Ha Hoa] Hab. split; [by apply (step_inv a)|by apply (step_over taskID t _ a b)]. }
  destruct Hboth as [_ (_ & Hrow & _ & Hcalls)]. done.
Qed.

Lemma terminal_tasks_final_witness :
  match s_tasks (demo6 None) !! "t" with
  | Some t => tk_status t = taskStatusCompleted /\
      calls "t" (log (mkWorld (newTaskQueueService 4 (demo6 None)) (demo_log None) ({["t"]} ∪ ∅))) = calls "t" (demo_log None)
  | None => False
  end.
Proof.
  destruct (s_tasks (demo6 None) !! "t") as [t|] eqn:E; [|vm_compute in E; discriminate].
  split; [vm_compute in E; injection E as <-; reflexivity|].
  refine (proj2 (terminal_tasks_final _ (mkWorld (demo6 None) (demo_log None) ({["t"]} ∪ ∅)) _ "t" t demo_initial (demo_steps None) _ E _ _)).
  - vm_compute. reflexivity.
  - vm_compute in E. injection E as <-. reflexivity.
  - apply steps_one, step_restart. lia.
Defined.

(** ** Backoff *)

(** The delay before a retry is the configured backoff doubled with every attempt and capped at an hour, for every
    attempt: the shift that loses all its bits, or turns negative, still ends at the cap. *)
Theorem backoff_exponential backoffMs attempt :
  1 <= backoffMs <= maxBackoffMs -> 1 <= attempt ->
  backoff_for backoffMs attempt = Z.min (backoffMs * 2 ^ (attempt - 1)) maxBackoffMs.
Proof.
  intros Hb Ha. unfold backoff_for, maxBackoffMs in *. rewrite Z.shiftl_mul_pow2 by lia. set (n := attempt - 1). assert (0 <= n) by lia. clearbody n.
  destruct (Z_lt_le_dec n 22) as [Hn|Hn].
  - assert (2 ^ n <= 2 ^ 22) by (apply Z.pow_le_mono_r; lia). assert (1 <= 2 ^ n) by (apply (Z.pow_le_mono_r 2 0 n); lia).
    rewrite wrap64_id by (unfold in_int, int_min, int_max; nia). destruct (_ <=? 0) eqn:E1, (_ <? backoffMs * 2 ^ n) eqn:E2; simpl; nia.
  - assert (Hm : exists q, wrap64 (backoffMs * 2 ^ n) = q * 2 ^ 22).
    { exists (backoffMs * 2 ^ (n - 22) - 2 ^ 42 * ((backoffMs * 2 ^ n + 2 ^ 63) / 2 ^ 64)). unfold wrap64.
      rewrite (Z.mod_eq (_ + _)) by lia. replace n with (n - 22 + 22) at 1 by lia. rewrite Z.pow_add_r by lia. lia. }
    assert (2 ^ 22 <= 2 ^ n) by (apply Z.pow_le_mono_r; lia). destruct Hm as [q Hq]. rewrite Hq.
    destruct (_ <=? 0) eqn:E1, (_ <? q * 2 ^ 22) eqn:E2; simpl; nia.
Qed.

Lemma backoff_exponential_witness : backoff_for 1000 5 = 16000 /\ backoff_for 1000 70 = 3600000.
Proof.
  split; (etransitivity; [apply backoff_exponential; unfold maxBackoffMs; lia|vm_compute; reflexivity]).
Defined.

(** A configured backoff far above the cap is capped at first, and its shift then wraps to almost no delay. *)
Example backoff_wraps : backoff_for (2 ^ 62 + 1) 1 = maxBackoffMs /\ backoff_for (2 ^ 62 + 1) 3 = 4.
Proof. split; vm_compute; reflexivity. Qed.
