(* ===== verification/KVStore.v ===== *)
(** * The key-value store of a plugin

    [plugins/host_kvstore.go]: a table of values with an optional expiry, a limit on
    what the live ones take, and queries by key, by a list of keys and by prefix.
    The clock counts seconds, as SQLite's [datetime] does.  [fault] is the error a
    statement fails with, if any; where an operation runs several statements it is
    given the store each of them found. *)

From Stdlib Require Import Ascii String.
From stdpp Require Import sorting.
From S2P Require Import Prelude GoStrings Criteria.

Local Open Scope Z_scope.

Definition defaultMaxKVStoreSize : Z := 1 * 1024 * 1024.
Definition maxKeyLength : Z := 256.
Definition batchSize : nat := 200.

(** What the code relies on of SQLite: [LIKE] with [ESCAPE '\'], and a modifier of
    [datetime], [None] when the date is out of its range. *)
Class Sqlite := { like : string -> string -> bool; datetime_after : Z -> Z -> option Z }.

Record row := mkRow { r_value : string; r_size : Z; r_created : Z; r_updated : Z; r_expires : option Z }.
Record kvstore := mkKV { kv_maxSize : Z; kv_rows : gmap string row; kv_now : Z; kv_closed : bool }.

Definition set_rows (rows : gmap string row) (s : kvstore) : kvstore := mkKV (kv_maxSize s) rows (kv_now s) (kv_closed s).

Inductive kverr := EmptyKey | KeyTooLong | LimitExceeded | InvalidTTL | EmptyPrefix | InvalidMaxSize | QueryFailed (e : string).

(** The limit a plugin asks for; [ParseBytes] yields an unsigned number. *)
Definition kv_limit (ParseBytes : string -> option Z) (MaxSize : option string) : result kverr Z :=
  match MaxSize with
  | None | Some "" => Ok defaultMaxKVStoreSize
  | Some m => match ParseBytes m with Some parsed => Ok (wrap64 parsed) | None => Err InvalidMaxSize end
  end.

(** A statement that cannot run: it failed, or the database is closed. *)
Definition query_error (fault : option string) (s : kvstore) : option kverr :=
  match fault with
  | Some e => Some (QueryFailed e)
  | None => if kv_closed s then Some (QueryFailed "database is closed") else None
  end.

(** [notExpiredFilter]. *)
Definition not_expired (now : Z) (r : row) : bool := match r_expires r with None => true | Some t => now <=? t end.

Definition used_bytes (s : kvstore) : Z := map_fold (fun _ r n => (if not_expired (kv_now s) r then r_size r else 0) + n) 0 (kv_rows s).

Definition storageUsed (fault : option string) (s : kvstore) : result kverr Z :=
  match query_error fault s with Some e => Err e | None => Ok (used_bytes s) end.
Definition GetStorageUsed := storageUsed.

Definition checkStorageLimit (delta : Z) (fault : option string) (s : kvstore) : result kverr unit :=
  if delta <=? 0 then Ok ()
  else match storageUsed fault s with
       | Err e => Err e
       | Ok u => if kv_maxSize s <? wrap64 (u + delta) then Err LimitExceeded else Ok ()
       end.

Definition oldSize (key : string) (s : kvstore) : Z :=
  match kv_rows s !! key with Some r => if not_expired (kv_now s) r then r_size r else 0 | None => 0 end.

Definition upsert (key value : string) (expires : option Z) (s : kvstore) : kvstore :=
  let created := match kv_rows s !! key with Some r => r_created r | None => kv_now s end in
  set_rows (<[key := mkRow value (Z.of_nat (String.length value)) created (kv_now s) expires]> (kv_rows s)) s.

Section Operations.
Context `{Sqlite}.

(** [s1] and [s2] are what its two reads see, [s] is what its write finds. *)
Definition setValue (key value : string) (ttlSeconds : Z) (f1 f2 f3 : option string) (s1 s2 s : kvstore) : kvstore * result kverr unit :=
  if String.eqb key "" then (s, Err EmptyKey)
  else if maxKeyLength <? Z.of_nat (String.length key) then (s, Err KeyTooLong)
  else
    let newValueSize := Z.of_nat (String.length value) in
    match query_error f1 s1 with
    | Some e => (s, Err e)
    | None =>
        match checkStorageLimit (newValueSize - oldSize key s1) f2 s2 with
        | Err e => (s, Err e)
        | Ok _ =>
            let expiresAt := if 0 <? ttlSeconds then datetime_after (kv_now s) ttlSeconds else None in
            match query_error f3 s with
            | Some e => (s, Err e)
            | None => (upsert key value expiresAt s, Ok ())
            end
        end
    end.

Definition KVSet (key value : string) := setValue key value 0.

Definition SetWithTTL (key value : string) (ttlSeconds : Z) (f1 f2 f3 : option string) (s1 s2 s : kvstore) : kvstore * result kverr unit :=
  if ttlSeconds <=? 0 then (s, Err InvalidTTL) else setValue key value ttlSeconds f1 f2 f3 s1 s2 s.

Definition Get (key : string) (fault : option string) (s : kvstore) : result kverr (option string) :=
  match query_error fault s with
  | Some e => Err e
  | None => Ok (match kv_rows s !! key with Some r => if not_expired (kv_now s) r then Some (r_value r) else None | None => None end)
  end.

Definition Delete (key : string) (fault : option string) (s : kvstore) : kvstore * result kverr unit :=
  match query_error fault s with Some e => (s, Err e) | None => (set_rows (delete key (kv_rows s)) s, Ok ()) end.

Definition Has (key : string) (fault : option string) (s : kvstore) : result kverr bool :=
  match query_error fault s with
  | Some e => Err e
  | None => Ok (match kv_rows s !! key with Some r => not_expired (kv_now s) r | None => false end)
  end.

(** [strings.ReplaceAll(s, c, "\c")]. *)
Fixpoint escape_char (c : ascii) (s : string) : string :=
  match s with
  | EmptyString => EmptyString
  | String d s => if Ascii.eqb d c then String "\" (String c (escape_char c s)) else String d (escape_char c s)
  end.
Definition escapedPrefix (prefix : string) : string := escape_char "_" (escape_char "%" prefix).

Definition selected_keys (p : string -> row -> bool) (rows : gmap string row) : list string :=
  merge_sort str_le (omap (fun '(k, r) => if p k r then Some k else None) (map_to_list rows)).

Definition List_ (prefix : string) (fault : option string) (s : kvstore) : result kverr (list string) :=
  match query_error fault s with
  | Some e => Err e
  | None =>
      Ok (if String.eqb prefix "" then selected_keys (fun _ r => not_expired (kv_now s) r) (kv_rows s)
          else selected_keys (fun k r => like (escapedPrefix prefix +:+ "%") k && not_expired (kv_now s) r) (kv_rows s))
  end.

Definition DeleteByPrefix (prefix : string) (fault : option string) (s : kvstore) : kvstore * result kverr Z :=
  if String.eqb prefix "" then (s, Err EmptyPrefix)
  else
    match query_error fault s with
    | Some e => (s, Err e)
    | None =>
        let hit := fun kr : string * row => like (escapedPrefix prefix +:+ "%") kr.1 = true in
        (set_rows (filter (fun kr => ~ hit kr) (kv_rows s)) s, Ok (Z.of_nat (size (filter hit (kv_rows s)))))
    end.

(** [slice.CollectChunks]. *)
Fixpoint CollectChunks {A} (n : nat) (s : list A) (it : list A) : list (list A) :=
  match it with
  | [] => match s with [] => [] | _ => [s] end
  | x :: it => let s := s ++ [x] in if (n <=? length s)%nat then s :: CollectChunks n [] it else CollectChunks n s it
  end.

(** The values of the live keys among [keys]. *)
Definition batch_values (keys : list string) (s : kvstore) : gmap string string :=
  omap (fun r => if not_expired (kv_now s) r then Some (r_value r) else None) (filter (fun kr : string * row => kr.1 ∈ keys) (kv_rows s)).

(** One query per batch; [view i] is the store the [i]-th of them finds. *)
Fixpoint GetMany_loop (i : nat) (chunks : list (list string)) (faults : nat -> option string) (view : nat -> kvstore)
  (acc : gmap string string) : result kverr (gmap string string) :=
  match chunks with
  | [] => Ok acc
  | chunk :: chunks =>
      match query_error (faults i) (view i) with
      | Some e => Err e
      | None => GetMany_loop (S i) chunks faults view (batch_values chunk (view i) ∪ acc)
      end
  end.
Definition GetMany (keys : list string) (faults : nat -> option string) (view : nat -> kvstore) : result kverr (gmap string string) :=
  match keys with [] => Ok ∅ | _ => GetMany_loop 0 (CollectChunks batchSize [] keys) faults view ∅ end.

Definition cleanupExpired (fault : option string) (s : kvstore) : kvstore :=
  match query_error fault s with
  | Some _ => s
  | None => set_rows (filter (fun kr : string * row => not_expired (kv_now s) kr.2 = true) (kv_rows s)) s
  end.

Definition Close (s : kvstore) : kvstore := mkKV (kv_maxSize s) (kv_rows s) (kv_now s) true.

End Operations.
