(* ===== verification/KVStoreFacts.v ===== *)
(** * What the key-value store guarantees

    Its operations are those of a map of the live values, the limit holds as long as
    calls do not overlap, and a prefix matches as [LIKE] does. *)

From Stdlib Require Import Ascii String.
From stdpp Require Import sorting.
From S2P Require Import Prelude GoStrings Criteria KVStore.

Local Open Scope Z_scope.

(** Documented behaviour of SQLite: letters match in either case, [%] and [_] are
    wildcards unless escaped, and a pattern that ends in [%] matches any rest. *)
Class SqliteLaws `{Sqlite} := {
  like_end d s : like "" (String d s) = false;
  like_any s : like "%" s = true;
  like_literal c p d s : c <> "%"%char -> c <> "_"%char -> c <> "\"%char ->
    like (String c p) (String d s) = Ascii.eqb (byte_lower c) (byte_lower d) && like p s;
  like_literal_end c p : c <> "%"%char -> like (String c p) "" = false;
  like_escaped c p d s : c = "%"%char \/ c = "_"%char \/ c = "\"%char ->
    like (String "\" (String c p)) (String d s) = Ascii.eqb c d && like p s;
  datetime_after_some now n t : datetime_after now n = Some t -> t = now + n }.

(** ** Sums over a table *)

Section Sums.
Context {A : Type}.
Implicit Types m : gmap string A.

Definition sum (f : A -> Z) m : Z := map_fold (fun _ r n => f r + n) 0 m.

Lemma sum_insert f m k r : m !! k = None -> sum f (<[k := r]> m) = f r + sum f m.
Proof. intros. unfold sum. rewrite map_fold_insert_L; [done|lia|done]. Qed.

Lemma sum_delete f m k r : m !! k = Some r -> sum f m = f r + sum f (delete k m).
Proof. intros Hk. rewrite <- (sum_insert f (delete k m) k r) by apply lookup_delete_eq. by rewrite insert_delete_id. Qed.

Lemma sum_update f m k r : sum f (<[k := r]> m) = sum f m - from_option f 0 (m !! k) + f r.
Proof.
  rewrite <- insert_delete_eq. rewrite sum_insert by apply lookup_delete_eq. destruct (m !! k) as [r'|] eqn:E; simpl.
  - rewrite (sum_delete f m k r' E). lia.
  - rewrite delete_id by done. lia.
Qed.

Lemma sum_nonneg f m : (forall k, 0 <= from_option f 0 (m !! k)) -> 0 <= sum f m.
Proof.
  induction m as [|k r m Hk IH] using map_ind; intros H; [done|]. rewrite sum_insert by done.
  pose proof (H k) as Hr. rewrite lookup_insert_eq in Hr. simpl in Hr. enough (0 <= sum f m) by lia.
  apply IH. intros k'. destruct (decide (k = k')) as [<-|]; [by rewrite Hk|]. specialize (H k'). by rewrite lookup_insert_ne in H.
Qed.

Lemma sum_le f g m m' : (forall k, from_option f 0 (m !! k) <= from_option g 0 (m' !! k)) -> sum f m <= sum g m'.
Proof.
  revert m'. induction m as [|k r m Hk IH] using map_ind; intros m' H.
  { change (sum f ∅) with 0. apply sum_nonneg. intros k. specialize (H k). by rewrite lookup_empty in H. }
  assert (Hrest : forall k', k' <> k -> from_option f 0 (m !! k') <= from_option g 0 (m' !! k')).
  { intros k' Hne. specialize (H k'). by rewrite lookup_insert_ne in H. }
  pose proof (H k) as Hr. rewrite lookup_insert_eq in Hr. simpl in Hr. rewrite sum_insert by done. destruct (m' !! k) as [r'|] eqn:E; simpl in Hr.
  - rewrite (sum_delete g m' k r' E). enough (sum f m <= sum g (delete k m')) by lia. apply IH.
    intros k'. destruct (decide (k = k')) as [<-|]; [by rewrite Hk, lookup_delete_eq|]. rewrite lookup_delete_ne by done. by apply Hrest.
  - enough (sum f m <= sum g m') by lia. apply IH. intros k'. destruct (decide (k = k')) as [<-|]; [by rewrite Hk, E|by apply Hrest].
Qed.

End Sums.

(** ** The limit *)

Definition weight (now : Z) (r : row) : Z := if not_expired now r then r_size r else 0.

Definition rows_ok (s : kvstore) : Prop := forall k r, kv_rows s !! k = Some r -> r_size r = Z.of_nat (String.length (r_value r)).

Definition kv_tick (n : Z) (s : kvstore) : kvstore := mkKV (kv_maxSize s) (kv_rows s) (kv_now s + n) (kv_closed s).

Lemma used_sum s : used_bytes s = sum (weight (kv_now s)) (kv_rows s).
Proof. reflexivity. Qed.

Lemma oldSize_weight key s : oldSize key s = from_option (weight (kv_now s)) 0 (kv_rows s !! key).
Proof. unfold oldSize. by destruct (kv_rows s !! key). Qed.

Lemma weight_nonneg s now k : rows_ok s -> 0 <= from_option (weight now) 0 (kv_rows s !! k).
Proof. intros Hok. destruct (kv_rows s !! k) as [r|] eqn:Er; simpl; [|done]. pose proof (Hok k r Er). unfold weight. destruct (not_expired now r); lia. Qed.

Section Facts.
Context `{SqliteLaws}.

(** The calls, one after the other; the plugin is bound to values that fit in memory. *)
Inductive kv_step : kvstore -> kvstore -> Prop :=
| kv_step_tick s n : 0 <= n -> kv_step s (kv_tick n s)
| kv_step_set s key value ttl f1 f2 f3 : Z.of_nat (String.length value) <= 2 ^ 61 -> kv_step s (setValue key value ttl f1 f2 f3 s s s).1
| kv_step_delete s key f : kv_step s (Delete key f s).1
| kv_step_delete_prefix s pre f : kv_step s (DeleteByPrefix pre f s).1
| kv_step_cleanup s f : kv_step s (cleanupExpired f s)
| kv_step_close s : kv_step s (Close s).

Definition within_limit (s : kvstore) : Prop :=
  rows_ok s /\ kv_maxSize s <= 2 ^ 61 /\ used_bytes s <= Z.max 0 (kv_maxSize s).

(** Rows that stay are as they were; the others are gone or expired. *)
Lemma within_limit_fewer s s' :
  within_limit s -> kv_maxSize s' = kv_maxSize s -> kv_now s <= kv_now s' ->
  (forall k, kv_rows s' !! k = kv_rows s !! k \/ kv_rows s' !! k = None) -> within_limit s'.
Proof.
  intros (Hok & Hm & Hu) Em Hnow Hrows. split_and!.
  - intros k r Hr. destruct (Hrows k) as [E|E]; rewrite E in Hr; [by apply (Hok k)|done].
  - by rewrite Em.
  - rewrite Em. transitivity (used_bytes s); [|done]. rewrite !used_sum. apply sum_le. intros k.
    destruct (Hrows k) as [->| ->]; simpl.
    + destruct (kv_rows s !! k) as [r|] eqn:Er; simpl; [|done]. pose proof (Hok k r Er). unfold weight, not_expired.
      destruct (r_expires r); [|lia]. repeat case_match; lia.
    + by apply weight_nonneg.
Qed.

Lemma filter_subtable (P : string * row -> Prop) `{!forall x, Decision (P x)} (m : gmap string row) k :
  filter P m !! k = m !! k \/ filter P m !! k = None.
Proof. rewrite map_lookup_filter. destruct (m !! k) as [r|]; simpl; [|by left]. case_guard; simpl; auto. Qed.

Lemma within_limit_set s key value ttl f1 f2 f3 :
  Z.of_nat (String.length value) <= 2 ^ 61 -> within_limit s -> within_limit (setValue key value ttl f1 f2 f3 s s s).1.
Proof.
  intros Hlen Hw. unfold setValue. destruct (String.eqb key ""); [done|]. destruct (_ <? _); [done|]. destruct (query_error f1 s); [done|].
  destruct (checkStorageLimit _ f2 s) as [u|] eqn:Ec; [|done]. cbv zeta. destruct (query_error f3 s); [done|]. simpl.
  destruct Hw as (Hok & Hm & Hu). split_and!; simpl.
  - intros k r. unfold upsert. simpl. destruct (decide (key = k)) as [<-|]; [rewrite lookup_insert_eq; by intros [= <-]|].
    rewrite lookup_insert_ne by done. apply Hok.
  - done.
  - rewrite used_sum in *. simpl. rewrite sum_update. rewrite oldSize_weight in Ec. set (old := from_option _ _ _) in *.
    match goal with |- context [weight _ ?r] => assert (weight (kv_now s) r <= Z.of_nat (String.length value)) by (unfold weight; destruct (not_expired _ _); simpl; lia) end.
    unfold checkStorageLimit in Ec. destruct (_ <=? 0) eqn:E0; [lia|]. unfold storageUsed in Ec. destruct (query_error f2 s); [done|].
    rewrite used_sum in Ec. assert (0 <= sum (weight (kv_now s)) (kv_rows s)).
    { apply sum_nonneg. intros k. by apply weight_nonneg. }
    assert (0 <= old) by (by apply weight_nonneg).
    rewrite wrap64_id in Ec by (unfold in_int, int_min, int_max; lia). destruct (_ <? _) eqn:E1; [done|]. lia.
Qed.

Lemma kv_step_within s s' : within_limit s -> kv_step s s' -> within_limit s'.
Proof.
  intros Hw Hst. destruct Hst.
  - apply (within_limit_fewer s); simpl; [done|done|lia|by left].
  - by apply within_limit_set.
  - unfold Delete. destruct (query_error f s); [done|]. apply (within_limit_fewer s); simpl; try done. intros k.
    destruct (decide (key = k)) as [<-|]; [right; apply lookup_delete_eq|left; by apply lookup_delete_ne].
  - unfold DeleteByPrefix. destruct (String.eqb pre ""); [done|]. destruct (query_error f s); [done|].
    apply (within_limit_fewer s); simpl; try done. apply filter_subtable.
  - unfold cleanupExpired. destruct (query_error f s); [done|]. apply (within_limit_fewer s); simpl; try done. apply filter_subtable.
  - apply (within_limit_fewer s); simpl; try done. by left.
Qed.


(** ** The map of live values *)

Definition contents (s : kvstore) : gmap string string :=
  omap (fun r => if not_expired (kv_now s) r then Some (r_value r) else None) (kv_rows s).

Lemma contents_lookup s k :
  contents s !! k = match kv_rows s !! k with Some r => if not_expired (kv_now s) r then Some (r_value r) else None | None => None end.
Proof. unfold contents. rewrite lookup_omap. by destruct (kv_rows s !! k). Qed.

Definition ready (s : kvstore) : Prop := kv_closed s = false.

Lemma ready_query s : ready s -> query_error None s = None.
Proof. unfold query_error. by intros ->. Qed.

Lemma setValue_Ok key value ttl f1 f2 f3 s1 s2 s s' :
  setValue key value ttl f1 f2 f3 s1 s2 s = (s', Ok ()) -> s' = upsert key value (if 0 <? ttl then datetime_after (kv_now s) ttl else None) s.
Proof.
  unfold setValue. repeat (case_match; try (intros; congruence)). Qed.

Lemma setValue_Err key value ttl f1 f2 f3 s1 s2 s s' e : setValue key value ttl f1 f2 f3 s1 s2 s = (s', Err e) -> s' = s.
Proof. unfold setValue. repeat (case_match; try (intros; congruence)). Qed.

(** A value that was just written is live: an expiry lies ahead. *)
Lemma fresh_live now ttl value size created : not_expired now (mkRow value size created now (if 0 <? ttl then datetime_after now ttl else None)) = true.
Proof.
  unfold not_expired. simpl. destruct (0 <? ttl) eqn:E; [|done]. destruct (datetime_after now ttl) as [t|] eqn:Et; [|done].
  rewrite (datetime_after_some _ _ _ Et). lia.
Qed.

Lemma contents_upsert key value ttl s :
  contents (upsert key value (if 0 <? ttl then datetime_after (kv_now s) ttl else None) s) = <[key := value]> (contents s).
Proof.
  apply map_eq. intros k. rewrite contents_lookup. simpl. destruct (decide (key = k)) as [<-|].
  - rewrite !lookup_insert_eq. by rewrite fresh_live.
  - rewrite !lookup_insert_ne by done. by rewrite contents_lookup.
Qed.

Lemma contents_filter (P : string * row -> Prop) (Q : string -> Prop) `{!forall x, Decision (P x)} `{!forall kv : string * string, Decision (Q kv.1)} s :
  (forall k r, kv_rows s !! k = Some r -> not_expired (kv_now s) r = true -> P (k, r) <-> Q k) ->
  contents (set_rows (filter P (kv_rows s)) s) = filter (fun kv : string * string => Q kv.1) (contents s).
Proof.
  intros HPQ. apply map_eq. intros k. rewrite contents_lookup. simpl. rewrite !map_lookup_filter, contents_lookup.
  destruct (kv_rows s !! k) as [r|] eqn:Er; simpl; [|done]. destruct (not_expired (kv_now s) r) eqn:El.
  - pose proof (HPQ k r Er El). simpl. repeat case_guard; simpl; rewrite ?El; tauto.
  - case_guard; simpl; by rewrite ?El.
Qed.

Lemma batch_values_lookup keys s k : batch_values keys s !! k = if decide (k ∈ keys) then contents s !! k else None.
Proof.
  unfold batch_values. rewrite lookup_omap, map_lookup_filter, contents_lookup. destruct (kv_rows s !! k) as [r|]; simpl; [|by case_decide].
  repeat case_guard || case_decide; simpl; done.
Qed.

Lemma CollectChunks_concat {A} n (acc it : list A) : concat (CollectChunks n acc it) = acc ++ it.
Proof.
  revert acc. induction it as [|x it IH]; intros acc; simpl; [destruct acc; simpl; by rewrite ?app_nil_r|].
  destruct (n <=? _)%nat; simpl; rewrite IH; by rewrite <- app_assoc.
Qed.

Lemma GetMany_loop_Ok s i chunks acc :
  ready s -> exists m, GetMany_loop i chunks (fun _ => None) (fun _ => s) acc = Ok m /\
    forall k, m !! k = if decide (k ∈ concat chunks) then match contents s !! k with Some v => Some v | None => acc !! k end else acc !! k.
Proof.
  intros Hr. revert i acc. induction chunks as [|c chunks IH]; intros i acc; cbn [GetMany_loop concat].
  { exists acc. split; [done|]. intros k. rewrite decide_False; [done|set_solver]. }
  rewrite ready_query by done. destruct (IH (S i) (batch_values c s ∪ acc)) as (m & -> & Hm). exists m. split; [done|]. intros k.
  rewrite Hm, lookup_union, batch_values_lookup.
  destruct (contents s !! k) as [v|] eqn:Ev; repeat case_decide; rewrite ?Ev; destruct (acc !! k); simpl; try done; set_solver.
Qed.

Lemma GetMany_contents s keys :
  ready s -> GetMany keys (fun _ => None) (fun _ => s) = Ok (filter (fun kv : string * string => kv.1 ∈ keys) (contents s)).
Proof.
  intros Hr. assert (Hgo : forall m : gmap string string, (forall k, m !! k = if decide (k ∈ keys) then contents s !! k else None) ->
    m = filter (fun kv : string * string => kv.1 ∈ keys) (contents s)).
  { intros m Hm. apply map_eq. intros k. rewrite Hm, map_lookup_filter. destruct (contents s !! k); simpl; repeat case_decide || case_guard; done. }
  unfold GetMany. destruct keys as [|x keys].
  - f_equal. apply Hgo. intros k. rewrite decide_False by set_solver. apply lookup_empty.
  - destruct (GetMany_loop_Ok s 0 (CollectChunks batchSize [] (x :: keys)) ∅ Hr) as (m & -> & Hm). f_equal. apply Hgo. intros k.
    rewrite Hm, CollectChunks_concat, lookup_empty. simpl. repeat case_decide; try done. by destruct (contents s !! k).
Qed.

(** C24: the operations are those of a map from keys to values in which an expired key is not there: reads return what the map has,
    a list of keys is answered alike however it is split into batches, a write that succeeds sets one key and one
    that fails changes nothing, and the cleanup is invisible. *)
Theorem kv_refines_map s :
  ready s ->
  (forall key, Get key None s = Ok (contents s !! key) /\ Has key None s = Ok (bool_decide (is_Some (contents s !! key)))) /\
  (forall keys, GetMany keys (fun _ => None) (fun _ => s) = Ok (filter (fun kv : string * string => kv.1 ∈ keys) (contents s))) /\
  (forall key value ttl f1 f2 f3 s1 s2 s' res, setValue key value ttl f1 f2 f3 s1 s2 s = (s', res) ->
     contents s' = match res with Ok _ => <[key := value]> (contents s) | Err _ => contents s end) /\
  (forall key, contents (Delete key None s).1 = delete key (contents s)) /\
  (forall fault, contents (cleanupExpired fault s) = contents s).
Proof.
  intros Hr. split_and!.
  - intros key. unfold Get, Has. rewrite (ready_query s Hr), contents_lookup. split; [done|]. f_equal.
    destruct (kv_rows s !! key) as [r|]; [destruct (not_expired (kv_now s) r)|]; case_bool_decide as E; naive_solver.
  - intros keys. by apply GetMany_contents.
  - intros key value ttl f1 f2 f3 s1 s2 s' [[]|e] E; [apply setValue_Ok in E as ->; apply contents_upsert|by apply setValue_Err in E as ->].
  - intros key. unfold Delete. rewrite (ready_query s Hr). simpl. apply map_eq. intros k. rewrite contents_lookup. simpl.
    destruct (decide (key = k)) as [<-|]; [by rewrite !lookup_delete_eq|]. rewrite !lookup_delete_ne by done. by rewrite contents_lookup.
  - intros fault. unfold cleanupExpired. destruct (query_error fault s); [done|].
    rewrite (contents_filter _ (fun _ => True)) by done. by apply map_filter_id.
Qed.

(** ** Prefixes *)

Fixpoint has_backslash (s : string) : bool := match s with "" => false | String c s => Ascii.eqb c "\" || has_backslash s end.

(** The prefix without regard to case. *)
Definition fold_prefix (pre key : string) : bool := HasPrefix (ToLower key) (ToLower pre).

Lemma escapedPrefix_cons c pre :
  escapedPrefix (String c pre) =
  if Ascii.eqb c "%" || Ascii.eqb c "_" then String "\" (String c (escapedPrefix pre)) else String c (escapedPrefix pre).
Proof.
  unfold escapedPrefix. simpl. destruct (Ascii.eqb_spec c "%") as [->|]; [reflexivity|]. simpl.
  by destruct (Ascii.eqb_spec c "_") as [->|].
Qed.

Lemma byte_lower_wild c d : c = "%"%char \/ c = "_"%char -> Ascii.eqb c d = Ascii.eqb (byte_lower c) (byte_lower d).
Proof. intros [-> | ->]; destruct d as [[] [] [] [] [] [] [] []]; reflexivity. Qed.

Lemma fold_prefix_cons c pre d key : fold_prefix (String c pre) (String d key) = Ascii.eqb (byte_lower c) (byte_lower d) && fold_prefix pre key.
Proof.
  unfold fold_prefix, HasPrefix. simpl. destruct (ascii_dec (byte_lower c) (byte_lower d)) as [->|Hne]; [by rewrite Ascii.eqb_refl|].
  by rewrite (proj2 (Ascii.eqb_neq _ _)).
Qed.

Lemma like_prefix pre key : has_backslash pre = false -> like (escapedPrefix pre +:+ "%") key = fold_prefix pre key.
Proof.
  revert key. induction pre as [|c pre IH]; intros key Hb; [change (escapedPrefix "" +:+ "%") with "%"; rewrite like_any; by destruct key|].
  simpl in Hb. apply orb_false_iff in Hb as [Hc Hb]. apply Ascii.eqb_neq in Hc. rewrite escapedPrefix_cons.
  destruct (Ascii.eqb c "%" || Ascii.eqb c "_") eqn:Ew; rewrite !string_app_cons.
  - apply orb_true_iff in Ew. rewrite !Ascii.eqb_eq in Ew. destruct key as [|d key]; [by apply like_literal_end|].
    rewrite like_escaped, IH, fold_prefix_cons by tauto. by rewrite byte_lower_wild.
  - apply orb_false_iff in Ew. rewrite !Ascii.eqb_neq in Ew. destruct Ew. destruct key as [|d key]; [by apply like_literal_end|].
    by rewrite like_literal, IH, fold_prefix_cons.
Qed.

#[local] Instance str_le_total : Total str_le.
Proof. intros a b. apply String.leb_total. Qed.

Lemma selected_keys_spec p rows :
  Sorted str_le (selected_keys p rows) /\ NoDup (selected_keys p rows) /\
  forall k, k ∈ selected_keys p rows <-> exists r, rows !! k = Some r /\ p k r = true.
Proof.
  unfold selected_keys. split_and!.
  - apply (Sorted_merge_sort str_le).
  - rewrite merge_sort_Permutation. apply (NoDup_fmap_1 id). rewrite list_fmap_id. pose proof (NoDup_fst_map_to_list rows) as Hnd.
    induction (map_to_list rows) as [|[k r] l IH]; [constructor|]. simpl in *. apply list.NoDup_cons in Hnd as [Hk Hnd].
    destruct (p k r); [|by apply IH]. constructor; [|by apply IH]. rewrite list_elem_of_omap. intros ([k' r'] & Hin & E).
    destruct (p k' r'); simplify_eq. apply Hk. by apply (list_elem_of_fmap_2 fst) in Hin.
  - intros k. rewrite merge_sort_Permutation, list_elem_of_omap. split.
    + intros ([k' r] & Hin & E). apply elem_of_map_to_list in Hin. destruct (p k' r) eqn:Ep; simplify_eq. by exists r.
    + intros (r & Hr & Hp). exists (k, r). rewrite Hp. split; [by apply elem_of_map_to_list|done].
Qed.

(** A prefix without a backslash selects the keys that start with it when case is ignored: [List] returns exactly
    the live ones, each once and in order, and [DeleteByPrefix] removes exactly them and leaves every other value as it is. *)
Theorem kv_prefix s pre :
  ready s -> pre <> "" -> has_backslash pre = false ->
  (exists keys, List_ pre None s = Ok keys /\ Sorted str_le keys /\ NoDup keys /\
     forall k, k ∈ keys <-> is_Some (contents s !! k) /\ fold_prefix pre k = true) /\
  contents (DeleteByPrefix pre None s).1 = filter (fun kv : string * string => fold_prefix pre kv.1 = false) (contents s).
Proof.
  intros Hr Hne Hb. unfold List_, DeleteByPrefix. rewrite (proj2 (String.eqb_neq _ _) Hne), (ready_query s Hr). split.
  - eexists. split; [reflexivity|]. match goal with |- context [selected_keys ?p ?m] => destruct (selected_keys_spec p m) as (Hs & Hn & Hk) end.
    split_and!; [done|done|]. intros k. rewrite Hk, contents_lookup. split.
    + intros (r & -> & E). apply andb_prop in E as [E ->]. rewrite like_prefix in E by done. split; [by eexists|done].
    + intros [[v E] Hp]. destruct (kv_rows s !! k) as [r|] eqn:Er; [|done]. exists r. split; [done|]. rewrite like_prefix, Hp by done.
      by destruct (not_expired (kv_now s) r).
  - simpl. apply (contents_filter _ (fun k => fold_prefix pre k = false)). intros k r _ _. simpl. rewrite like_prefix by done. by destruct (fold_prefix pre k).
Qed.

(** A backslash in the prefix is not escaped: it turns the wildcard into a percent sign. *)
Theorem kv_backslash_prefix s key : ready s -> fold_prefix "a\" key = true -> forall keys, List_ "a\" None s = Ok keys -> key ∉ keys.
Proof.
  intros Hr Hp keys. unfold List_. rewrite (ready_query s Hr). simpl. intros [= <-] Hin.
  apply selected_keys_spec in Hin as (r & _ & E). apply andb_prop in E as [E _]. change (escapedPrefix "a\" +:+ "%") with "a\%" in E.
  destruct key as [|c [|d key]]; [done|by rewrite fold_prefix_cons, andb_false_r in Hp|]. rewrite !fold_prefix_cons in Hp.
  rewrite like_literal, like_escaped in E by (discriminate || tauto). apply andb_prop in Hp as [_ Hp]. apply andb_prop in Hp as [Hp _].
  apply andb_prop in E as [_ E]. apply andb_prop in E as [E _]. apply Ascii.eqb_eq in E as <-. done.
Qed.

(** A value set with a time to live can be read for as many seconds, and no longer. *)
Theorem kv_ttl s s' key value ttl f1 f2 f3 s1 s2 n :
  ready s -> SetWithTTL key value ttl f1 f2 f3 s1 s2 s = (s', Ok ()) -> datetime_after (kv_now s) ttl = Some (kv_now s + ttl) -> 0 <= n ->
  Get key None (kv_tick n s') = Ok (if n <=? ttl then Some value else None).
Proof.
  intros Hr E Hd Hn. unfold SetWithTTL in E. destruct (ttl <=? 0) eqn:Et; [done|]. apply setValue_Ok in E as ->. replace (0 <? ttl) with true by lia.
  unfold Get, query_error. simpl. rewrite Hr, lookup_insert_eq. unfold not_expired. simpl. rewrite Hd.
  destruct (n <=? ttl) eqn:E1, (kv_now s + n <=? kv_now s + ttl) eqn:E2; lia || done.
Qed.

End Facts.

(** ** A concrete engine *)

(** [%] tries every rest. *)
Fixpoint like_ref (p : string) : string -> bool :=
  match p with
  | "" => fun s => match s with "" => true | _ => false end
  | String c p' =>
      if Ascii.eqb c "%" then fix any (s : string) : bool := like_ref p' s || match s with "" => false | String _ s => any s end
      else if Ascii.eqb c "_" then fun s => match s with "" => false | String _ s => like_ref p' s end
      else if Ascii.eqb c "\" then match p' with
        | "" => fun _ => false
        | String e p'' => fun s => match s with "" => false | String d s => Ascii.eqb e d && like_ref p'' s end
        end
      else fun s => match s with "" => false | String d s => Ascii.eqb (byte_lower c) (byte_lower d) && like_ref p' s end
  end.

#[local] Instance demo_sqlite : Sqlite := {| like := like_ref; datetime_after now n := Some (now + n) |}.

#[local] Instance demo_sqlite_laws : SqliteLaws.
Proof.
  split; cbn [like datetime_after demo_sqlite].
  - done.
  - induction s as [|c s IH]; [done|]. simpl in *. exact IH.
  - intros c p d s H1 H2 H3. simpl. by rewrite (proj2 (Ascii.eqb_neq _ _) H1), (proj2 (Ascii.eqb_neq _ _) H2), (proj2 (Ascii.eqb_neq _ _) H3).
  - intros c p H1. simpl. rewrite (proj2 (Ascii.eqb_neq _ _) H1). destruct (Ascii.eqb c "_"); [done|]. destruct (Ascii.eqb c "\"); [by destruct p|done].
  - intros c p d s _. done.
  - intros now n t [= <-]. done.
Qed.

Definition kv_demo : kvstore := mkKV 10 ∅ 100 false.

Lemma kv_demo_within : within_limit kv_demo.
Proof. split_and!; [|simpl; lia|vm_compute; discriminate]. intros k r Hr. simpl in Hr; by rewrite lookup_empty in Hr. Qed.


Definition kv_demo2 : kvstore := mkKV 10 {["Abc" := mkRow "1" 1 90 90 None; "abd" := mkRow "2" 1 90 90 (Some 110); "abe" := mkRow "3" 1 90 90 (Some 99)]} 100 false.

Lemma kv_refines_map_witness : Get "abd" None kv_demo2 = Ok (Some "2") /\ Has "abe" None kv_demo2 = Ok false.
Proof.
  destruct (kv_refines_map kv_demo2 ltac:(reflexivity)) as (Hg & _). split.
  - rewrite (proj1 (Hg "abd")). vm_compute. reflexivity.
  - rewrite (proj2 (Hg "abe")). vm_compute. reflexivity.
Defined.

(** The prefix ["ab"] also finds ["Abc"]. *)
Lemma kv_prefix_witness : List_ "ab" None kv_demo2 = Ok ["Abc"; "abd"] /\ contents (DeleteByPrefix "ab" None kv_demo2).1 = ∅.
Proof.
  split; [vm_compute; reflexivity|]. refine (eq_trans (proj2 (kv_prefix kv_demo2 "ab" _ _ _)) _); [reflexivity|discriminate|reflexivity|].
  vm_compute. reflexivity.
Defined.

(** Two calls that overlap: both find the store empty, and their values exceed the limit. *)
Example overlapping_sets_exceed_the_limit :
  let s1 := (setValue "a" "12345678" 0 None None None kv_demo kv_demo kv_demo).1 in
  let '(s2, res) := setValue "b" "12345678" 0 None None None kv_demo kv_demo s1 in res = Ok () /\ used_bytes s2 = 16 /\ kv_maxSize s2 = 10.
Proof. vm_compute. split; [reflexivity|split; reflexivity]. Qed.
