(* ===== verification/ScannerMoves.v ===== *)
(** * Files that moved

    Phase 2 of a library scan, [scanner/phase_2_missing_tracks.go]: the tracks whose
    file is gone are paired with new tracks, and take over their place and their
    data while they keep their identity.  With it the statements of
    [persistence/mediafile_repository.go], [album_repository.go] and
    [sql_annotations.go] it runs.  Any statement may fail: [sd_faults] says which of
    the coming ones do. *)

From Stdlib Require Import Ascii String.
From stdpp Require Import sorting.
From S2P Require Import Prelude GoStrings Model Criteria.

Local Open Scope Z_scope.

(** The columns of [model.MediaFile] the phase reads; [f_rest] stands for the others. *)
Record file := mkFile {
  f_ID : string; f_PID : string; f_LibraryID : Z; f_Path : string; f_AlbumID : string; f_Missing : bool; f_BirthTime : time; f_CreatedAt : time;
  f_MbzReleaseTrackID : string; f_Title : string; f_Album : string; f_Size : Z; f_Suffix : string; f_DiscNumber : Z; f_TrackNumber : Z; f_rest : string }.
#[export] Instance file_eq_dec : EqDecision file.
Proof. solve_decision. Defined.

Record annotation := mkAnnotation { a_rating : Z; a_rest : string }.
Record album := mkAlbum { al_created_at : option string; al_average_rating : Z }.

Inductive dberr := Busy | Failed (e : string) | NotFound | Cancelled | PermissionDenied.

(** [sd_annotations] are those of albums, by user and album. *)
Record sdb := mkSdb {
  sd_files : gmap string file; sd_albums : gmap string album; sd_annotations : gmap (string * string) annotation;
  sd_last_scan : gmap Z time; sd_now : time; sd_admin : bool; sd_cancelled : bool; sd_faults : list (option dberr) }.

Definition set_files (x : gmap string file) (d : sdb) : sdb :=
  mkSdb x (sd_albums d) (sd_annotations d) (sd_last_scan d) (sd_now d) (sd_admin d) (sd_cancelled d) (sd_faults d).
Definition set_albums (x : gmap string album) (d : sdb) : sdb :=
  mkSdb (sd_files d) x (sd_annotations d) (sd_last_scan d) (sd_now d) (sd_admin d) (sd_cancelled d) (sd_faults d).
Definition set_annotations (x : gmap (string * string) annotation) (d : sdb) : sdb :=
  mkSdb (sd_files d) (sd_albums d) x (sd_last_scan d) (sd_now d) (sd_admin d) (sd_cancelled d) (sd_faults d).
Definition set_sfaults (x : list (option dberr)) (d : sdb) : sdb :=
  mkSdb (sd_files d) (sd_albums d) (sd_annotations d) (sd_last_scan d) (sd_now d) (sd_admin d) (sd_cancelled d) x.

(** The hash of a file's tags and audio properties, the order in which a query
    finds rows, and the average the engine computes. *)
Class ScanEnv := { Hash : file -> string; found_order : list file -> list file; average : list Z -> Z }.

(** ** Names *)

Fixpoint drop_slashes (r : string) : string := match r with String c r' => if Ascii.eqb c "/" then drop_slashes r' else r | "" => "" end.
Fixpoint upto_slash (r : string) : string := match r with String c r => if Ascii.eqb c "/" then "" else String c (upto_slash r) | "" => "" end.
(** [path.Base]. *)
Definition path_Base (p : string) : string :=
  if String.eqb p "" then "."
  else let b := String.rev (upto_slash (drop_slashes (String.rev p))) in if String.eqb b "" then "/" else b.
Fixpoint ext_rev (r acc : string) : string :=
  match r with
  | "" => ""
  | String c r => if Ascii.eqb c "/" then "" else if Ascii.eqb c "." then String c acc else ext_rev r (String c acc)
  end.
(** [path.Ext]. *)
Definition path_Ext (p : string) : string := ext_rev (String.rev p) "".
Definition BaseName (filePath : string) : string :=
  let p := path_Base filePath in String.substring 0 (String.length p - String.length (path_Ext p)) p.

Section scanner.
Context `{ScanEnv}.

Definition Equals (mf other : file) : bool := String.eqb (Hash mf) (Hash other).
Definition IsEquivalent (mf other : file) : bool := String.eqb (BaseName (f_Path mf)) (BaseName (f_Path other)).

(** ** Statements *)

Definition S2 (A : Type) : Type := sdb -> sdb * result dberr A.
Definition sret {A} (a : A) : S2 A := fun d => (d, Ok a).
Definition serr {A} (e : dberr) : S2 A := fun d => (d, Err e).
Definition sbind {A B} (m : S2 A) (k : A -> S2 B) : S2 B :=
  fun d => let '(d, r) := m d in match r with Ok a => k a d | Err e => (d, Err e) end.
Notation "'do' x := m 'in' k" := (sbind m (fun x => k)) (at level 10, x name, m at level 100, k at level 200).
Notation "m ;; k" := (sbind m (fun _ => k)) (at level 100, k at level 200, right associativity).

Definition sexec {A} (f : sdb -> sdb * A) : S2 A :=
  fun d =>
    match sd_faults d with
    | Some e :: faults => (set_sfaults faults d, Err e)
    | faults => let '(d, a) := f (set_sfaults (tail faults) d) in (d, Ok a)
    end.
Definition squery {A} (f : sdb -> A) : S2 A := sexec (fun d => (d, f d)).
(** A statement on tables that are not modelled. *)
Definition other : S2 unit := squery (fun _ => ()).
(** The error is logged. *)
Definition warn {A} (m : S2 A) : S2 unit := fun d => let '(d, _) := m d in (d, Ok ()).

Definition Transactional {A} (m : S2 A) : S2 A :=
  fun d =>
    match other d with
    | (d, Err e) => (d, Err e)
    | (d, Ok _) =>
        match m d with
        | (d', Err e) => (set_sfaults (sd_faults d') d, Err e)
        | (d', Ok a) => match other d' with
                        | (d'', Ok _) => (d'', Ok a)
                        | (d'', Err e) => (set_sfaults (sd_faults d'') d, Err e)
                        end
        end
    end.

Definition txMaxRetries : nat := 3.
Fixpoint retry_loop {A} (tries : nat) (m : S2 A) : S2 A :=
  fun d =>
    match Transactional m d with
    | (d', Err Busy) => match tries with
                        | O => (d', Err Busy)
                        | S tries => if sd_cancelled d' then (d', Err Cancelled) else retry_loop tries m d'
                        end
    | res => res
    end.
Definition WithTxRetry {A} (m : S2 A) : S2 A := retry_loop txMaxRetries m.

(** *** [persistence/mediafile_repository.go] *)

(** An update leaves the columns [created_at] and [birth_time]. *)
Definition updated (m row : file) : file :=
  mkFile (f_ID m) (f_PID m) (f_LibraryID m) (f_Path m) (f_AlbumID m) (f_Missing m) (f_BirthTime row) (f_CreatedAt row)
    (f_MbzReleaseTrackID m) (f_Title m) (f_Album m) (f_Size m) (f_Suffix m) (f_DiscNumber m) (f_TrackNumber m) (f_rest m).

Definition put (m : file) : S2 unit :=
  do count := sexec (fun d => match sd_files d !! f_ID m with
                              | Some row => (set_files (<[f_ID m := updated m row]> (sd_files d)) d, 1)
                              | None => (d, 0)
                              end) in
  if 0 <? count then sret () else sexec (fun d => (set_files (<[f_ID m := m]> (sd_files d)) d, ())).

Definition with_created (t : time) (f : file) : file :=
  mkFile (f_ID f) (f_PID f) (f_LibraryID f) (f_Path f) (f_AlbumID f) (f_Missing f) (f_BirthTime f) t
    (f_MbzReleaseTrackID f) (f_Title f) (f_Album f) (f_Size f) (f_Suffix f) (f_DiscNumber f) (f_TrackNumber f) (f_rest f).
Definition with_id (i : string) (f : file) : file :=
  mkFile i (f_PID f) (f_LibraryID f) (f_Path f) (f_AlbumID f) (f_Missing f) (f_BirthTime f) (f_CreatedAt f)
    (f_MbzReleaseTrackID f) (f_Title f) (f_Album f) (f_Size f) (f_Suffix f) (f_DiscNumber f) (f_TrackNumber f) (f_rest f).

(** [Put] of a file that has an id, with its participants and tags. *)
Definition Put (m : file) : S2 unit :=
  fun d => let m := if IsZero (f_CreatedAt m) then with_created (sd_now d) m else m in (put m;; other;; other) d.

Definition Delete (i : string) : S2 unit := sexec (fun d => (set_files (delete i (sd_files d)) d, ())).

Definition DeleteAllMissing : S2 Z :=
  fun d => if negb (sd_admin d) then (d, Err PermissionDenied)
           else sexec (fun d => (set_files (filter (fun kf : string * file => f_Missing kf.2 = false) (sd_files d)) d,
                                 Z.of_nat (size (filter (fun kf : string * file => f_Missing kf.2 = true) (sd_files d))))) d.

Definition pid_le (a b : file) : Prop := str_le (f_PID a) (f_PID b).
#[export] Instance pid_le_dec : RelDecision pid_le.
Proof. intros a b. unfold pid_le. apply _. Defined.
Definition newer (a b : file) : Prop := f_CreatedAt b <= f_CreatedAt a.
#[export] Instance newer_dec : RelDecision newer.
Proof. intros a b. unfold newer. apply _. Defined.

Definition rows_where (p : file -> bool) (d : sdb) : list file := List.filter p (found_order (map_to_list (sd_files d)).*2).

Definition missing_pid (libId : Z) (d : sdb) (pid : string) : bool :=
  existsb (fun f => f_Missing f && (f_LibraryID f =? libId) && String.eqb (f_PID f) pid) (map_to_list (sd_files d)).*2.
Definition GetMissingAndMatching (libId : Z) : S2 (list file) :=
  squery (fun d => merge_sort pid_le
    (rows_where (fun f => missing_pid libId d (f_PID f) &&
       (f_Missing f || match sd_last_scan d !! f_LibraryID f with Some t => t <? f_CreatedAt f | None => false end)) d)).

Definition FindRecentFilesByMBZTrackID (missing : file) (since : time) : S2 (list file) :=
  squery (fun d => merge_sort newer
    (rows_where (fun f => negb (f_LibraryID f =? f_LibraryID missing) && String.eqb (f_MbzReleaseTrackID f) (f_MbzReleaseTrackID missing) &&
       negb (String.eqb (f_MbzReleaseTrackID f) "") && String.eqb (f_Suffix f) (f_Suffix missing) && (since <? f_CreatedAt f) && negb (f_Missing f)) d)).

Definition FindRecentFilesByProperties (missing : file) (since : time) : S2 (list file) :=
  squery (fun d => merge_sort newer
    (rows_where (fun f => negb (f_LibraryID f =? f_LibraryID missing) && String.eqb (f_Title f) (f_Title missing) && (f_Size f =? f_Size missing) &&
       String.eqb (f_Suffix f) (f_Suffix missing) && (f_DiscNumber f =? f_DiscNumber missing) && (f_TrackNumber f =? f_TrackNumber missing) &&
       String.eqb (f_Album f) (f_Album missing) && String.eqb (f_MbzReleaseTrackID f) "" && (since <? f_CreatedAt f) && negb (f_Missing f)) d)).

(** *** Albums *)

(** A row stays where its user annotated both. *)
Definition reassign_rows (prevID newID : string) (t : gmap (string * string) annotation) : gmap (string * string) annotation :=
  fold_left (fun t '((u, i), a) =>
    if String.eqb i prevID then match t !! (u, newID) with None => <[(u, newID) := a]> (delete (u, prevID) t) | Some _ => t end else t)
    (map_to_list t) t.

Definition ratings (albumID : string) (t : gmap (string * string) annotation) : list Z :=
  omap (fun '((_, i), a) => if String.eqb i albumID && (0 <? a_rating a) then Some (a_rating a) else None) (map_to_list t).
Definition updateAvgRating (albumID : string) : S2 unit :=
  sexec (fun d => (set_albums (alter (fun al => mkAlbum (al_created_at al) (average (ratings albumID (sd_annotations d)))) albumID (sd_albums d)) d, ())).

Definition ReassignAnnotation (prevID newID : string) : S2 unit :=
  if String.eqb prevID newID || String.eqb prevID "" || String.eqb newID "" then sret ()
  else sexec (fun d => (set_annotations (reassign_rows prevID newID (sd_annotations d)) d, ()));; updateAvgRating newID.

(** [CopyAttributes(fromID, toID, "created_at")]: a zero date is not copied. *)
Definition CopyAttributes (fromID toID : string) : S2 unit :=
  do from := squery (fun d => sd_albums d !! fromID) in
  match from with
  | None => serr NotFound
  | Some al =>
      match al_created_at al with
      | None | Some "" => sret ()
      | Some v => if HasPrefix v "0001-" then sret ()
                  else sexec (fun d => (set_albums (alter (fun al => mkAlbum (Some v) (al_average_rating al)) toID (sd_albums d)) d, ()))
      end
  end.

(** ** The phase *)

Record phase := mkPhase {
  ph_db : sdb; ph_processed : gset string; ph_totalMatched : Z; ph_changesDetected : bool }.

(** [processedAlbumAnnotations] is claimed before the transaction, and released when it fails. *)
Definition move_tx (reassignAlbum : bool) (target missing : file) : S2 unit :=
  WithTxRetry (
    let moved := with_id (f_ID missing) (with_created (f_CreatedAt missing) target) in
    Put moved;;
    Delete (f_ID target);;
    if reassignAlbum then
      warn (ReassignAnnotation (f_AlbumID missing) (f_AlbumID target));;
      warn (CopyAttributes (f_AlbumID missing) (f_AlbumID target))
    else sret ()).

Definition moveMatched (target missing : file) (p : phase) : phase * result dberr unit :=
  let oldAlbumID := f_AlbumID missing in
  let newAlbumID := f_AlbumID target in
  let differs := negb (String.eqb oldAlbumID newAlbumID) in
  let reassignAlbum := differs && negb (bool_decide (newAlbumID ∈ ph_processed p)) in
  let claimed := if differs then {[newAlbumID]} ∪ ph_processed p else ph_processed p in
  match move_tx reassignAlbum target missing (ph_db p) with
  | (d, Err e) => (mkPhase d (if reassignAlbum then claimed ∖ {[newAlbumID]} else claimed) (ph_totalMatched p) (ph_changesDetected p), Err e)
  | (d, Ok _) => (mkPhase d claimed (ph_totalMatched p) true, Ok ())
  end.

Definition count_match (p : phase) : phase := mkPhase (ph_db p) (ph_processed p) (ph_totalMatched p + 1) (ph_changesDetected p).

Record missingTracks := mkMissing { mt_pid : string; mt_missing : list file; mt_matched : list file }.

Definition putIfMatched (mt : missingTracks) : list missingTracks :=
  if negb (String.eqb (mt_pid mt) "") && negb (bool_decide (mt_missing mt = [])) then [mt] else [].

(** The rows of one library, which come in the order of their pids. *)
Fixpoint group_rows (mt : missingTracks) (cursor : list (result dberr file)) : list missingTracks * option dberr :=
  match cursor with
  | [] => (putIfMatched mt, None)
  | Err e :: _ => ([], Some e)
  | Ok mf :: cursor =>
      let '(out, mt) := if String.eqb (mt_pid mt) (f_PID mf) then ([], mt) else (putIfMatched mt, mkMissing (f_PID mf) [] []) in
      let mt := if f_Missing mf then mkMissing (mt_pid mt) (mt_missing mt ++ [mf]) (mt_matched mt)
                else mkMissing (mt_pid mt) (mt_missing mt) (mt_matched mt ++ [mf]) in
      let '(gs, e) := group_rows mt cursor in (out ++ gs, e)
  end.

Fixpoint produce (libs : list Z) (d : sdb) : sdb * list missingTracks * option dberr :=
  match libs with
  | [] => (d, [], None)
  | lib :: libs =>
      match GetMissingAndMatching lib d with
      | (d, Err e) => (d, [], Some e)
      | (d, Ok rows) =>
          match group_rows (mkMissing "" [] []) (Ok <$> rows) with
          | (gs, Some e) => (d, gs, Some e)
          | (gs, None) => let '(d, gs', e) := produce libs d in (d, gs ++ gs', e)
          end
      end
  end.

(** The exact match, if there is one; and the last equivalent one before it. *)
Fixpoint find_matches (usedMatched : gset string) (ms : file) (matched : list file) (equivalentMatch : option file) : option file * option file :=
  match matched with
  | [] => (None, equivalentMatch)
  | mt :: matched =>
      if bool_decide (f_ID mt ∈ usedMatched) then find_matches usedMatched ms matched equivalentMatch
      else if Equals ms mt then (Some mt, equivalentMatch)
      else find_matches usedMatched ms matched (if IsEquivalent ms mt then Some mt else equivalentMatch)
  end.

(** A match with no id is none. *)
Definition identified (m : option file) : option file :=
  match m with Some f => if String.eqb (f_ID f) "" then None else Some f | None => None end.

Definition choose_match (usedMatched : gset string) (missing matched : list file) (ms : file) : option file :=
  let '(exactMatch, equivalentMatch) := find_matches usedMatched ms matched None in
  match identified exactMatch with
  | Some m => Some m
  | None =>
      match missing, matched with
      | [_], [single] => if bool_decide (f_ID single ∈ usedMatched) then identified equivalentMatch else Some single
      | _, _ => identified equivalentMatch
      end
  end.

Fixpoint process_loop (input : missingTracks) (todo : list file) (usedMatched : gset string) (hasMatches : bool) (p : phase) : phase * result dberr bool :=
  match todo with
  | [] => (p, Ok hasMatches)
  | ms :: todo =>
      match choose_match usedMatched (mt_missing input) (mt_matched input) ms with
      | None => process_loop input todo usedMatched hasMatches p
      | Some m =>
          match moveMatched m ms p with
          | (p, Err e) => (p, Err e)
          | (p, Ok _) => process_loop input todo ({[f_ID m]} ∪ usedMatched) true (count_match p)
          end
      end
  end.

(** What is handed on to the next stage. *)
Definition processMissingTracks (input : missingTracks) (p : phase) : phase * result dberr (option missingTracks) :=
  match process_loop input (mt_missing input) ∅ false p with
  | (p, Err e) => (p, Err e)
  | (p, Ok true) => (p, Ok None)
  | (p, Ok false) => (p, Ok (Some input))
  end.

(** The exact match among what a query found, or the only one when it is equivalent. *)
Definition pick (missing : file) (matches : list file) : option file :=
  match List.find (Equals missing) matches with
  | Some m => Some m
  | None => match matches with [m] => if IsEquivalent missing m then Some m else None | _ => None end
  end.

Definition findCrossLibraryMatch (missing : file) : S2 (option file) :=
  fun d =>
    let '(d, first) :=
      if String.eqb (f_MbzReleaseTrackID missing) "" then (d, None)
      else match FindRecentFilesByMBZTrackID missing (f_CreatedAt missing) d with
           | (d, Err _) => (d, None)
           | (d, Ok matches) => (d, pick missing matches)
           end in
    match first with
    | Some m => (d, Ok (Some m))
    | None => match FindRecentFilesByProperties missing (f_CreatedAt missing) d with
              | (d, Err e) => (d, Err e)
              | (d, Ok matches) => (d, Ok (pick missing matches))
              end
    end.

Fixpoint cross_loop (todo : list file) (p : phase) : phase :=
  match todo with
  | [] => p
  | missing :: todo =>
      let '(d, r) := findCrossLibraryMatch missing (ph_db p) in
      let p := mkPhase d (ph_processed p) (ph_totalMatched p) (ph_changesDetected p) in
      match r with
      | Ok m =>
          match identified m with
          | Some found => match moveMatched found missing p with
                          | (p, Err _) => cross_loop todo p
                          | (p, Ok _) => cross_loop todo (count_match p)
                          end
          | None => cross_loop todo p
          end
      | Err _ => cross_loop todo p
      end
  end.

Definition processCrossLibraryMoves (totalLibraryCount : Z) (input : option missingTracks) (p : phase) : phase :=
  match input with
  | None => p
  | Some mt => if totalLibraryCount =? 1 then p else cross_loop (mt_missing mt) p
  end.

(** The two stages on the groups, one after the other; an error ends the phase. *)
Fixpoint run_stages (totalLibraryCount : Z) (groups : list missingTracks) (p : phase) : phase * option dberr :=
  match groups with
  | [] => (p, None)
  | g :: groups =>
      match processMissingTracks g p with
      | (p, Err e) => (p, Some e)
      | (p, Ok out) => run_stages totalLibraryCount groups (processCrossLibraryMoves totalLibraryCount out p)
      end
  end.

Inductive purge := PurgeMissingNever | PurgeMissingAlways | PurgeMissingFull.
#[export] Instance purge_eq_dec : EqDecision purge.
Proof. solve_decision. Defined.

Definition purgeMissing (p : phase) : phase * result dberr unit :=
  match WithTxRetry DeleteAllMissing (ph_db p) with
  | (d, Err e) => (mkPhase d (ph_processed p) (ph_totalMatched p) (ph_changesDetected p), Err e)
  | (d, Ok deleted) => (mkPhase d (ph_processed p) (ph_totalMatched p) (if 0 <? deleted then true else ph_changesDetected p), Ok ())
  end.

Definition finalize (setting : purge) (fullScan : bool) (err : option dberr) (p : phase) : phase * option dberr :=
  match err with
  | Some e => (p, Some e)
  | None =>
      if bool_decide (setting = PurgeMissingAlways) || bool_decide (setting = PurgeMissingFull) && fullScan
      then match purgeMissing p with (p, Ok _) => (p, None) | (p, Err e) => (p, Some e) end
      else (p, None)
  end.

End scanner.
