(* ===== verification/ScannerMovesFacts.v ===== *)
(** * What the search for moved files guarantees

    A transaction takes effect as a whole or not at all; a track takes over exactly
    one new file and keeps its identity; no file is taken twice; no track is left
    missing while a file that matches it is free. *)

From Stdlib Require Import Ascii String.
From stdpp Require Import sorting.
From S2P Require Import Prelude GoStrings Model Criteria ScannerMoves.

Local Open Scope Z_scope.

(** A query finds every row once, in any order. *)
Class ScanLaws `{ScanEnv} := { found_perm l : found_order l ≡ₚ l }.

Section facts.
Context `{ScanEnv}.

(** ** Transactions *)

(** The same database, whatever statements are to fail. *)
Definition same_db (d d' : sdb) : Prop := set_sfaults [] d = set_sfaults [] d'.

#[export] Instance same_db_equivalence : Equivalence same_db.
Proof. split; red; unfold same_db; congruence. Qed.

Lemma same_db_files d d' : same_db d d' -> sd_files d = sd_files d'.
Proof. intros E. by injection E. Qed.

Lemma same_db_faults f d : same_db (set_sfaults f d) d.
Proof. reflexivity. Qed.

Lemma same_db_eta d d' : same_db d d' -> d = set_sfaults (sd_faults d) d'.
Proof. destruct d, d'. unfold same_db, set_sfaults. simpl. by intros [= <- <- <- <- <- <- <-]. Qed.

(** What a program does to the files when it succeeds; it may do anything to the
    albums and annotations, and when it fails it may have done a part. *)
Definition effect {A} (g : gmap string file -> gmap string file) (m : S2 A) : Prop :=
  forall d d' a, m d = (d', Ok a) -> sd_files d' = g (sd_files d).

Lemma effect_bind {A B} g h (m : S2 A) (k : A -> S2 B) : effect g m -> (forall a, effect h (k a)) -> effect (fun x => h (g x)) (sbind m k).
Proof. intros Hm Hk d d' b. unfold sbind. destruct (m d) as [d1 [a|]] eqn:E; [|done]. intros E2. rewrite (Hk a _ _ _ E2), (Hm _ _ _ E). done. Qed.

Lemma effect_ret {A} (a : A) : effect id (sret a).
Proof. intros d d' b [= <- _]. done. Qed.

Lemma effect_exec {A} g (f : sdb -> sdb * A) : (forall d, sd_files (f d).1 = g (sd_files d)) -> effect g (sexec f).
Proof.
  intros Hf d d' a. unfold sexec. specialize (Hf (set_sfaults (tail (sd_faults d)) d)).
  destruct (sd_faults d) as [|[e|] fs]; simpl in *; [|done|]; destruct (f _) as [d1 b]; intros [= <- _]; done.
Qed.

Lemma effect_query {A} (f : sdb -> A) : effect id (squery f).
Proof. by apply effect_exec. Qed.

Definition frame {A} (m : S2 A) : Prop := forall d, sd_files (m d).1 = sd_files d.

Lemma effect_warn {A} (m : S2 A) : frame m -> effect id (warn m).
Proof. intros Hm d d' a. unfold warn. specialize (Hm d). destruct (m d) as [d1 r]. intros [= <- _]. done. Qed.

Lemma frame_exec {A} (f : sdb -> sdb * A) : (forall d, sd_files (f d).1 = sd_files d) -> frame (sexec f).
Proof.
  intros Hf d. unfold sexec. specialize (Hf (set_sfaults (tail (sd_faults d)) d)). destruct (sd_faults d) as [|[e|] fs]; simpl in *; [|done|]; by destruct (f _).
Qed.

Lemma frame_bind {A B} (m : S2 A) (k : A -> S2 B) : frame m -> (forall a, frame (k a)) -> frame (sbind m k).
Proof. intros Hm Hk d. unfold sbind. specialize (Hm d). destruct (m d) as [d1 [a|]]; [|done]. by rewrite (Hk a d1). Qed.

Lemma frame_ReassignAnnotation a b : frame (ReassignAnnotation a b).
Proof. unfold ReassignAnnotation. destruct (_ || _); [by intros d|]. apply frame_bind; [by apply frame_exec|intros _; by apply frame_exec]. Qed.

Lemma frame_CopyAttributes a b : frame (CopyAttributes a b).
Proof.
  unfold CopyAttributes. apply frame_bind; [by apply frame_exec|]. intros [al|]; [|by intros d]. destruct (al_created_at al) as [[|c v]|]; try by intros d.
  destruct (HasPrefix _ _); [by intros d|]. by apply frame_exec.
Qed.

Lemma other_outcome d : exists f, other d = (set_sfaults f d, Ok ()) \/ exists e, other d = (set_sfaults f d, Err e).
Proof. unfold other, squery, sexec. destruct (sd_faults d) as [|[e|] fs]; simpl; [exists []; by left|exists fs; right; by exists e|exists fs; by left]. Qed.

(** A transaction that fails leaves nothing behind. *)
Lemma Transactional_outcome {A} (m : S2 A) d d' r :
  Transactional m d = (d', r) ->
  match r with
  | Err _ => same_db d' d
  | Ok a => exists f d1, m (set_sfaults f d) = (d1, Ok a) /\ same_db d' d1
  end.
Proof.
  unfold Transactional. destruct (other_outcome d) as [f [-> |[e ->]]]; [|intros [= <- <-]; apply same_db_faults].
  destruct (m (set_sfaults f d)) as [d1 [a|e]] eqn:E.
  - destruct (other_outcome d1) as [f1 [-> |[e ->]]]; intros [= <- <-]; [|reflexivity]. exists f, d1. split; [done|apply same_db_faults].
  - intros [= <- <-]. reflexivity.
Qed.

Lemma retry_outcome {A} tries (m : S2 A) d d' r :
  retry_loop tries m d = (d', r) ->
  match r with
  | Err _ => same_db d' d
  | Ok a => exists f d1, m (set_sfaults f d) = (d1, Ok a) /\ same_db d' d1
  end.
Proof.
  revert d. induction tries as [|tries IH]; intros d; simpl; destruct (Transactional m d) as [d1 r1] eqn:E; pose proof (Transactional_outcome m d d1 r1 E) as Ho.
  - destruct r1 as [a|[]]; intros [= <- <-]; done.
  - destruct r1 as [a|[]]; try (intros [= <- <-]; done). destruct (sd_cancelled d1); [intros [= <- <-]; done|]. intros E2.
    apply IH in E2. apply same_db_eta in Ho. rewrite Ho in E2. destruct r; done.
Qed.

(** ** One move *)

(** The row of [missing] takes the data of [target], whose row goes. *)
Definition take_over (target missing row : file) (files : gmap string file) : gmap string file :=
  delete (f_ID target) (<[f_ID missing := updated (with_id (f_ID missing) target) row]> files).

Lemma put_existing m row d d' :
  sd_files d !! f_ID m = Some row -> put m d = (d', Ok ()) -> sd_files d' = <[f_ID m := updated m row]> (sd_files d).
Proof.
  intros Hrow. unfold put, sbind, sexec. destruct (sd_faults d) as [|[e|] fs]; simpl; [|done|]; rewrite Hrow; intros [= <-]; done.
Qed.

Lemma Put_existing m row d d' :
  sd_files d !! f_ID m = Some row -> Put m d = (d', Ok ()) -> sd_files d' = <[f_ID m := updated m row]> (sd_files d).
Proof.
  intros Hrow. unfold Put. set (m' := if IsZero (f_CreatedAt m) then _ else m).
  assert (Em : f_ID m' = f_ID m /\ updated m' row = updated m row) by (unfold m'; by destruct (IsZero (f_CreatedAt m))). destruct Em as [Ei Eu]. clearbody m'.
  unfold sbind at 1. destruct (put m' d) as [d1 [[]|]] eqn:E; [|done]. apply (put_existing m' row) in E; [|by rewrite Ei]. rewrite Ei, Eu in E.
  intros E2. rewrite <- E. revert E2. apply (effect_bind id id); [apply effect_query|intros _; apply effect_query].
Qed.

(** The rest of the transaction removes the target's row. *)
Lemma move_rest_effect (reassign : bool) (target missing : file) d d' :
  sbind (Delete (f_ID target)) (fun _ =>
    if reassign then sbind (warn (ReassignAnnotation (f_AlbumID missing) (f_AlbumID target))) (fun _ => warn (CopyAttributes (f_AlbumID missing) (f_AlbumID target)))
    else sret ()) d = (d', Ok ()) -> sd_files d' = delete (f_ID target) (sd_files d).
Proof.
  intros E. apply (effect_bind (delete (f_ID target)) id) in E; [done|by apply effect_exec|].
  intros _. destruct reassign; [|apply effect_ret]. apply (effect_bind id id); [|intros _]; apply effect_warn; auto using frame_ReassignAnnotation, frame_CopyAttributes.
Qed.

Lemma move_tx_outcome reassign target missing row d d' r :
  sd_files d !! f_ID missing = Some row -> move_tx reassign target missing d = (d', r) ->
  match r with
  | Err _ => same_db d' d
  | Ok _ => sd_files d' = take_over target missing row (sd_files d)
  end.
Proof.
  intros Hrow E. apply retry_outcome in E. destruct r as [[]|e]; [|done]. destruct E as (f & d1 & E & Hs). rewrite (same_db_files _ _ Hs).
  unfold sbind at 1 in E. destruct (Put _ _) as [d2 [[]|]] eqn:Ep; [|done].
  apply (Put_existing _ row) in Ep; [|done]. simpl in Ep.
  apply (move_rest_effect reassign) in E. rewrite E, Ep. done.
Qed.

Lemma moveMatched_outcome target missing row p p' r :
  sd_files (ph_db p) !! f_ID missing = Some row -> moveMatched target missing p = (p', r) ->
  match r with
  | Err _ => same_db (ph_db p') (ph_db p)
  | Ok _ => sd_files (ph_db p') = take_over target missing row (sd_files (ph_db p))
  end /\ ph_totalMatched p' = ph_totalMatched p.
Proof.
  intros Hrow. unfold moveMatched. cbv zeta. destruct (move_tx _ target missing (ph_db p)) as [d [[]|e]] eqn:E;
    apply (move_tx_outcome _ _ _ row) in E; try done; intros [= <- <-]; done.
Qed.

(** ** The choice *)

Lemma find_matches_spec used ms matched eqv0 ex eqv :
  find_matches used ms matched eqv0 = (ex, eqv) ->
  match ex with
  | Some m => m ∈ matched /\ f_ID m ∉ used /\ Equals ms m = true
  | None => forall mt, mt ∈ matched -> f_ID mt ∉ used -> Equals ms mt = false
  end /\
  match eqv with
  | Some m => eqv0 = Some m \/ m ∈ matched /\ f_ID m ∉ used /\ IsEquivalent ms m = true
  | None => eqv0 = None /\ (ex = None -> forall mt, mt ∈ matched -> f_ID mt ∉ used -> IsEquivalent ms mt = false)
  end.
Proof.
  revert eqv0. induction matched as [|m matched IH]; intros eqv0; simpl.
  { intros [= <- <-]. split; [set_solver|]. destruct eqv0; [by left|set_solver]. }
  case_bool_decide as Hu; [intros E; apply IH in E|]; [|destruct (Equals ms m) eqn:Ee; [intros [= <- <-]|intros E; apply IH in E]].
  - destruct ex, eqv; set_solver.
  - split; [set_solver|]. destruct eqv0; [by left|done].
  - destruct (IsEquivalent ms m) eqn:Ei, ex, eqv; naive_solver set_solver.
Qed.

(** Why a file is taken. *)
Definition matches (g : missingTracks) (ms mt : file) : Prop :=
  Equals ms mt = true \/ IsEquivalent ms mt = true \/ exists x, mt_missing g = [x] /\ mt_matched g = [mt].

Lemma identified_Some m f : identified m = Some f -> m = Some f.
Proof. destruct m as [x|]; simpl; [|done]. by destruct (String.eqb (f_ID x) ""). Qed.

Lemma choose_sound g used ms m :
  choose_match used (mt_missing g) (mt_matched g) ms = Some m -> m ∈ mt_matched g /\ f_ID m ∉ used /\ matches g ms m.
Proof.
  unfold choose_match, matches. destruct (find_matches _ _ _ _) as [ex eqv] eqn:E. apply find_matches_spec in E as [Hex Heq].
  destruct (identified ex) as [x|] eqn:Ex; [intros [= ->]; apply identified_Some in Ex as ->; naive_solver|].
  assert (Hs : identified eqv = Some m -> m ∈ mt_matched g /\ f_ID m ∉ used /\ IsEquivalent ms m = true) by (intros Hs; apply identified_Some in Hs as ->; naive_solver).
  destruct (mt_missing g) as [|x [|]] eqn:Em, (mt_matched g) as [|y [|]] eqn:Et; try naive_solver.
  case_bool_decide; [naive_solver|]. intros [= <-]. split_and!; [set_solver|done|eauto].
Qed.

Lemma choose_complete g used ms :
  (forall mt, mt ∈ mt_matched g -> f_ID mt <> "") ->
  match choose_match used (mt_missing g) (mt_matched g) ms with
  | None => forall mt, mt ∈ mt_matched g -> f_ID mt ∉ used -> Equals ms mt = false /\ IsEquivalent ms mt = false
  | Some m => Equals ms m = true \/ forall mt, mt ∈ mt_matched g -> f_ID mt ∉ used -> Equals ms mt = false
  end.
Proof.
  intros Hid. unfold choose_match. destruct (find_matches _ _ _ _) as [ex eqv] eqn:E. apply find_matches_spec in E as [Hex Heq].
  assert (Hi : forall m, m ∈ mt_matched g -> identified (Some m) = Some m) by (intros m Hm; simpl; by rewrite (proj2 (String.eqb_neq _ _) (Hid m Hm))).
  destruct ex as [m|]; [rewrite Hi by naive_solver; naive_solver|]. simpl.
  destruct eqv as [m|].
  - assert (m ∈ mt_matched g) by naive_solver. rewrite Hi by done. destruct (mt_missing g) as [|? [|]], (mt_matched g) as [|? [|]]; try case_bool_decide; naive_solver.
  - simpl. destruct (mt_missing g) as [|? [|]], (mt_matched g) as [|? [|]]; try case_bool_decide; naive_solver.
Qed.

(** ** Runs without failures *)

(** No statement is left to fail. *)
Definition calm {A} (m : S2 A) : Prop := forall d, sd_faults d = [] -> sd_faults (m d).1 = [].
Definition quiet {A} (m : S2 A) : Prop := forall d, sd_faults d = [] -> sd_faults (m d).1 = [] /\ exists a, (m d).2 = Ok a.

Lemma quiet_exec {A} (f : sdb -> sdb * A) : (forall d, sd_faults (f d).1 = sd_faults d) -> quiet (sexec f).
Proof. intros Hf d Hd. unfold sexec. rewrite Hd. simpl. specialize (Hf (set_sfaults [] d)). destruct (f _) as [d1 a]. simpl in *. eauto. Qed.

Lemma quiet_ret {A} (a : A) : quiet (sret a).
Proof. intros d Hd. simpl. eauto. Qed.

Lemma quiet_bind {A B} (m : S2 A) (k : A -> S2 B) : quiet m -> (forall a, quiet (k a)) -> quiet (sbind m k).
Proof. intros Hm Hk d Hd. destruct (Hm d Hd) as [Hf [a Ha]]. unfold sbind. destruct (m d) as [d1 r]. simpl in *. subst r. by apply Hk. Qed.

Lemma calm_bind {A B} (m : S2 A) (k : A -> S2 B) : calm m -> (forall a, calm (k a)) -> calm (sbind m k).
Proof. intros Hm Hk d Hd. specialize (Hm d Hd). unfold sbind. destruct (m d) as [d1 [a|]]; simpl in *; [by apply Hk|done]. Qed.

Lemma quiet_calm {A} (m : S2 A) : quiet m -> calm m.
Proof. intros Hm d Hd. by apply Hm. Qed.

Lemma quiet_warn {A} (m : S2 A) : calm m -> quiet (warn m).
Proof. intros Hm d Hd. specialize (Hm d Hd). unfold warn. destruct (m d). simpl in *. eauto. Qed.

Lemma quiet_other : quiet other.
Proof. by apply quiet_exec. Qed.

Lemma quiet_ReassignAnnotation a b : quiet (ReassignAnnotation a b).
Proof. unfold ReassignAnnotation. destruct (_ || _); [apply quiet_ret|]. apply quiet_bind; [by apply quiet_exec|intros _; by apply quiet_exec]. Qed.

Lemma calm_CopyAttributes a b : calm (CopyAttributes a b).
Proof.
  unfold CopyAttributes. apply calm_bind; [apply quiet_calm; by apply quiet_exec|]. intros [al|]; [|by intros d].
  destruct (al_created_at al) as [[|c v]|]; try by intros d. destruct (HasPrefix _ _); [by intros d|]. apply quiet_calm. by apply quiet_exec.
Qed.

Lemma quiet_Put m : quiet (Put m).
Proof.
  intros d Hd. unfold Put. revert d Hd.
  enough (Hq : forall m, quiet (sbind (put m) (fun _ => sbind other (fun _ => other)))) by (intros d Hd; apply (Hq (if IsZero (f_CreatedAt m) then with_created (sd_now d) m else m) d Hd)).
  clear m. intros m. apply quiet_bind; [|intros _; apply quiet_bind; [|intros _]; apply quiet_other]. unfold put. apply quiet_bind.
  - apply quiet_exec. intros d. by destruct (sd_files d !! f_ID m).
  - intros c. destruct (0 <? c); [apply quiet_ret|by apply quiet_exec].
Qed.

Lemma quiet_Transactional {A} (m : S2 A) : quiet m -> quiet (Transactional m).
Proof.
  intros Hm d Hd. unfold Transactional. destruct (quiet_other d Hd) as [H1 [[] E1]]. destruct (other d) as [d1 r1]. simpl in *. subst r1.
  destruct (Hm d1 H1) as [H2 [a E2]]. destruct (m d1) as [d2 r2]. simpl in *. subst r2.
  destruct (quiet_other d2 H2) as [H3 [[] E3]]. destruct (other d2) as [d3 r3]. simpl in *. subst r3. eauto.
Qed.

(** A transaction that would succeed does so although the database is busy, as often as it is tried again. *)
Lemma retry_busy {A} tries n (m : S2 A) d :
  quiet m -> (n <= tries)%nat -> sd_faults d = replicate n (Some Busy) -> ((0 < n)%nat -> sd_cancelled d = false) ->
  sd_faults (retry_loop tries m d).1 = [] /\ exists a, (retry_loop tries m d).2 = Ok a.
Proof.
  intros Hm. revert n d. induction tries as [|tries IH]; intros [|n] d Hn Hd Hc; try lia; simpl.
  - destruct (quiet_Transactional m Hm d Hd) as [? [a Ha]]. destruct (Transactional m d) as [d1 r]. simpl in *. subst r. eauto.
  - destruct (quiet_Transactional m Hm d Hd) as [? [a Ha]]. destruct (Transactional m d) as [d1 r]. simpl in *. subst r. eauto.
  - unfold Transactional at 1 2. unfold other, squery, sexec. rewrite Hd. simpl. rewrite Hc by lia. apply (IH n); simpl; [lia|done|]. intros _. apply Hc. lia.
Qed.

Lemma quiet_move reassign target missing n d :
  (n <= 3)%nat -> sd_faults d = replicate n (Some Busy) -> ((0 < n)%nat -> sd_cancelled d = false) ->
  sd_faults (move_tx reassign target missing d).1 = [] /\ (move_tx reassign target missing d).2 = Ok ().
Proof.
  intros Hn Hd Hc. unfold move_tx. destruct (retry_busy txMaxRetries n (
    sbind (Put (with_id (f_ID missing) (with_created (f_CreatedAt missing) target))) (fun _ => sbind (Delete (f_ID target)) (fun _ =>
    if reassign then sbind (warn (ReassignAnnotation (f_AlbumID missing) (f_AlbumID target))) (fun _ => warn (CopyAttributes (f_AlbumID missing) (f_AlbumID target)))
    else sret ()))) d) as [Hf [[] Ha]]; try done.
  apply quiet_bind; [apply quiet_Put|]. intros _. apply quiet_bind; [by apply quiet_exec|]. intros _.
  destruct reassign; [|apply quiet_ret]. apply quiet_bind; [|intros _]; apply quiet_warn; [apply quiet_calm, quiet_ReassignAnnotation|apply calm_CopyAttributes].
Qed.

Lemma quiet_process g todo used has p :
  sd_faults (ph_db p) = [] -> exists b, (process_loop g todo used has p).2 = Ok b.
Proof.
  revert used has p. induction todo as [|ms todo IH]; intros used has p Hf; simpl; [by eexists|].
  destruct (choose_match _ _ _ ms) as [m|]; [|by apply IH]. unfold moveMatched. cbv zeta.
  match goal with |- context [move_tx ?b m ms ?d] => destruct (quiet_move b m ms 0 d) as [Hf1 Hr]; [lia|done|lia|];
    destruct (move_tx b m ms d) as [d1 r1] end.
  simpl in *. subst r1. by apply IH.
Qed.

(** ** A group *)

Definition present (files : gmap string file) (l : list file) : Prop := forall f, f ∈ l -> files !! f_ID f = Some f.

(** The moves of a group, each a missing track and the file it takes. *)
Definition takes (pairs : list (file * file)) (files : gmap string file) : gmap string file :=
  fold_left (fun files '(ms, mt) => take_over mt ms ms files) pairs files.

Lemma take_over_other mt ms files i : i <> f_ID mt -> i <> f_ID ms -> take_over mt ms ms files !! i = files !! i.
Proof. intros Ht Hs. unfold take_over. by rewrite lookup_delete_ne, lookup_insert_ne by done. Qed.

Lemma process_loop_spec g todo used has p p' r :
  NoDup (f_ID <$> todo ++ mt_matched g) -> present (sd_files (ph_db p)) todo ->
  (forall mt, mt ∈ mt_matched g -> f_ID mt <> "") ->
  process_loop g todo used has p = (p', r) ->
  exists pairs, sd_files (ph_db p') = takes pairs (sd_files (ph_db p)) /\
    pairs.*1 `sublist_of` todo /\ NoDup (f_ID <$> pairs.*2) /\
    (forall ms mt, (ms, mt) ∈ pairs -> mt ∈ mt_matched g /\ f_ID mt ∉ used /\ matches g ms mt) /\
    ph_totalMatched p' = ph_totalMatched p + Z.of_nat (length pairs) /\
    (forall b, r = Ok b -> b = has || negb (bool_decide (pairs = [])) /\
       forall ms mt, ms ∈ todo -> ms ∉ pairs.*1 -> mt ∈ mt_matched g -> mt ∉ pairs.*2 -> f_ID mt ∉ used -> Equals ms mt = false /\ IsEquivalent ms mt = false).
Proof.
  intros Hnd Hp Hid. revert used has p Hp. induction todo as [|ms todo IH]; intros used has p Hp; simpl.
  { intros [= <- <-]. exists []. split_and!; [done|constructor|constructor|by intros ? ? ?%not_elem_of_nil|simpl; lia|].
    intros b [= <-]. split; [by rewrite orb_false_r|by intros ? ? ?%not_elem_of_nil]. }
  simpl in Hnd. apply list.NoDup_cons in Hnd as [Hms Hnd]. specialize (IH Hnd).
  pose proof (choose_complete g used ms Hid) as Hc. destruct (choose_match used (mt_missing g) (mt_matched g) ms) as [m|] eqn:Em.
  - destruct (choose_sound g used ms m Em) as (Hm & Hu & Hmatch).
    destruct (moveMatched m ms p) as [p1 r1] eqn:E1. apply (moveMatched_outcome _ _ ms) in E1 as [E1 Et]; [|apply Hp; set_solver].
    destruct r1 as [[]|e].
    + intros E. apply IH in E as (pairs & Hf & Hsub & Hnd' & Hpairs & Htot & Hok).
      * exists ((ms, m) :: pairs). simpl in *. split_and!.
        -- rewrite Hf. simpl in *. by rewrite E1.
        -- by apply sublist_skip.
        -- apply list.NoDup_cons. split; [|done]. rewrite list_elem_of_fmap. intros (mt & Eid & Hin).
           apply list_elem_of_fmap in Hin as ([ms' mt'] & -> & Hin). apply Hpairs in Hin. simpl in *. set_solver.
        -- intros a b [[= -> ->]|Hin]%elem_of_cons; [done|]. destruct (Hpairs _ _ Hin) as (? & ? & ?). set_solver.
        -- lia.
        -- intros b Hb. destruct (Hok b Hb) as [-> Hmax]. split; [by rewrite orb_true_r|]. intros a mt Ha Hna Hmt Hnmt Hus.
           apply Hmax; [set_solver..|]. intros Hin. apply elem_of_union in Hin as [Hin%elem_of_singleton|]; [|done].
           apply Hnmt. replace mt with m; [by left|]. rewrite fmap_app in Hnd. apply list.NoDup_app in Hnd as (_ & _ & Hnd2).
           apply list_elem_of_lookup in Hm as [i Hi], Hmt as [j Hj].
           assert (i = j) as ->; [|congruence]. eapply NoDup_lookup; [exact Hnd2|rewrite list_lookup_fmap, Hi; done|rewrite list_lookup_fmap, Hj; simpl; by rewrite Hin].
      * intros f Hf. simpl. rewrite E1, take_over_other; [apply Hp; by right| |].
        -- intros Eid. rewrite fmap_app in Hnd. apply list.NoDup_app in Hnd as (_ & Hdis & _). apply (Hdis (f_ID f)); [by apply list_elem_of_fmap_2|]. rewrite Eid. by apply list_elem_of_fmap_2.
        -- intros Eid. apply Hms. rewrite <- Eid. apply list_elem_of_fmap_2. set_solver.
    + intros [= <- <-]. exists []. simpl. rewrite (same_db_files _ _ E1). split_and!; try done; [apply sublist_nil_l|constructor|set_solver|lia].
  - intros E. apply IH in E as (pairs & Hf & Hsub & Hnd' & Hpairs & Htot & Hok); [|intros f Hf; apply Hp; by right].
    exists pairs. split_and!; try done; [by apply sublist_cons|]. intros b Hb. destruct (Hok b Hb) as [Hb' Hmax]. split; [done|].
    intros a mt [->|Ha]%elem_of_cons Hna Hmt Hnmt Hus; [by apply Hc|by apply Hmax].
Qed.

Lemma takes_other pairs files i : (forall ms mt, (ms, mt) ∈ pairs -> i <> f_ID ms /\ i <> f_ID mt) -> takes pairs files !! i = files !! i.
Proof.
  revert files. induction pairs as [|[ms mt] pairs IH]; intros files Hi; [done|]. unfold takes. simpl. fold (takes pairs (take_over mt ms ms files)).
  rewrite IH by (intros; apply Hi; by right). destruct (Hi ms mt); [by left|]. by apply take_over_other.
Qed.

(** What the row of a track becomes when it takes the file [mt]. *)
Definition relocated (ms mt : file) : file := updated (with_id (f_ID ms) mt) ms.

Lemma takes_pair pairs files ms mt :
  NoDup (f_ID <$> pairs.*1 ++ pairs.*2) -> (ms, mt) ∈ pairs -> takes pairs files !! f_ID ms = Some (relocated ms mt) /\ takes pairs files !! f_ID mt = None.
Proof.
  revert files. induction pairs as [|[a b] pairs IH]; intros files Hnd Hin; [by apply not_elem_of_nil in Hin|].
  assert (Hperm : f_ID <$> ((a, b) :: pairs).*1 ++ ((a, b) :: pairs).*2 ≡ₚ f_ID a :: f_ID b :: (f_ID <$> pairs.*1 ++ pairs.*2)).
  { simpl. apply perm_skip. rewrite !fmap_app. simpl. by rewrite <- Permutation_middle. }
  rewrite Hperm in Hnd. apply list.NoDup_cons in Hnd as [Ha Hnd]. apply list.NoDup_cons in Hnd as [Hb Hnd].
  unfold takes. simpl. fold (takes pairs (take_over b a a files)). apply elem_of_cons in Hin as [[= -> ->]|Hin]; [|by apply IH].
  assert (Hdis : forall x y, (x, y) ∈ pairs -> f_ID x ∈ f_ID <$> pairs.*1 ++ pairs.*2 /\ f_ID y ∈ f_ID <$> pairs.*1 ++ pairs.*2).
  { intros x y Hxy. rewrite fmap_app. split; apply elem_of_app; [left|right]; apply list_elem_of_fmap_2; [by apply (list_elem_of_fmap_2 fst) in Hxy|by apply (list_elem_of_fmap_2 snd) in Hxy]. }
  split; rewrite takes_other.
  - unfold take_over. rewrite lookup_delete_ne; [by rewrite lookup_insert_eq|]. intros E. rewrite E in Ha. apply Ha. by left.
  - intros x y Hxy. destruct (Hdis x y Hxy). split; intros E; apply Ha; right; by rewrite E.
  - apply lookup_delete_eq.
  - intros x y Hxy. destruct (Hdis x y Hxy). split; intros E; apply Hb; by rewrite E.
Qed.

Lemma pairs_distinct g pairs :
  NoDup (f_ID <$> mt_missing g ++ mt_matched g) -> pairs.*1 `sublist_of` mt_missing g -> NoDup (f_ID <$> pairs.*2) ->
  (forall ms mt, (ms, mt) ∈ pairs -> mt ∈ mt_matched g) -> NoDup (f_ID <$> pairs.*1 ++ pairs.*2).
Proof.
  intros Hnd Hsub Hnd' Hpairs. rewrite fmap_app in *. apply list.NoDup_app in Hnd as (Hn1 & Hdis & _). apply list.NoDup_app. split_and!; [|intros i Hi Hi'|done].
  - eapply sublist_NoDup; [exact Hn1|]. by apply fmap_sublist.
  - apply (Hdis i); [eapply sublist_subseteq; [apply fmap_sublist, Hsub|done]|].
    apply list_elem_of_fmap in Hi' as (x & -> & Hx). apply list_elem_of_fmap in Hx as ([ms mt] & -> & Hx). apply list_elem_of_fmap_2. by apply (Hpairs ms mt).
Qed.

Lemma process_out g p p' r :
  processMissingTracks g p = (p', r) ->
  exists b, process_loop g (mt_missing g) ∅ false p = (p', b) /\
    match r with Ok None => b = Ok true | Ok (Some x) => b = Ok false /\ x = g | Err e => b = Err e end.
Proof.
  unfold processMissingTracks. destruct (process_loop g (mt_missing g) ∅ false p) as [p1 [[]|e]]; intros [= <- <-]; eauto.
Qed.

(** C5: a group of tracks with one persistent id: tracks that went missing take over new files, each a different one, that match them; the
    row of such a track keeps its id and its dates and is otherwise the new file's, whose own row is gone; every other row is left as
    it was, also when a transaction fails half-way; and when none fails, no track stays missing while a file that equals it, or has its
    name, is free. *)
Theorem missing_tracks_moved g p p' r :
  NoDup (f_ID <$> mt_missing g ++ mt_matched g) -> present (sd_files (ph_db p)) (mt_missing g) ->
  (forall mt, mt ∈ mt_matched g -> f_ID mt <> "") -> processMissingTracks g p = (p', r) ->
  exists pairs,
    pairs.*1 `sublist_of` mt_missing g /\ NoDup (f_ID <$> pairs.*2) /\ ph_totalMatched p' = ph_totalMatched p + Z.of_nat (length pairs) /\
    (forall ms mt, (ms, mt) ∈ pairs -> mt ∈ mt_matched g /\ matches g ms mt /\
       sd_files (ph_db p') !! f_ID ms = Some (relocated ms mt) /\ sd_files (ph_db p') !! f_ID mt = None) /\
    (forall i, (forall ms mt, (ms, mt) ∈ pairs -> i <> f_ID ms /\ i <> f_ID mt) -> sd_files (ph_db p') !! i = sd_files (ph_db p) !! i) /\
    (forall next, r = Ok next -> forall ms mt, ms ∈ mt_missing g -> ms ∉ pairs.*1 -> mt ∈ mt_matched g -> mt ∉ pairs.*2 ->
       Equals ms mt = false /\ IsEquivalent ms mt = false) /\
    (sd_faults (ph_db p) = [] -> exists next, r = Ok next).
Proof.
  intros Hnd Hp Hid E. apply process_out in E as (b & E & Hb). pose proof (quiet_process g (mt_missing g) ∅ false p) as Hq. rewrite E in Hq.
  apply process_loop_spec in E as (pairs & Hf & Hsub & Hnd' & Hpairs & Htot & Hok); try done. exists pairs.
  assert (Hall : NoDup (f_ID <$> pairs.*1 ++ pairs.*2)) by (apply (pairs_distinct g); naive_solver).
  split_and!; try done.
  - intros ms mt Hin. destruct (Hpairs ms mt Hin) as (? & _ & ?). rewrite Hf. by destruct (takes_pair pairs (sd_files (ph_db p)) ms mt Hall Hin).
  - intros i Hi. rewrite Hf. by apply takes_other.
  - intros next -> ms mt Hms Hnms Hmt Hnmt. destruct next as [x|]; [destruct Hb as [-> _]|subst b]; destruct (Hok _ eq_refl) as [_ Hmax]; apply Hmax; try done; set_solver.
  - intros Hq0. destruct (Hq Hq0) as [b' Eb]. simpl in Eb. destruct r as [next|e]; [by eexists|]. congruence.
Qed.

(** ** Places *)

Definition unique_paths (files : gmap string file) : Prop :=
  forall i j f g, files !! i = Some f -> files !! j = Some g -> f_LibraryID f = f_LibraryID g -> f_Path f = f_Path g -> i = j.

Lemma unique_paths_move files target (i : string) x :
  unique_paths files -> files !! f_ID target = Some target -> f_ID target <> i -> f_LibraryID x = f_LibraryID target -> f_Path x = f_Path target ->
  unique_paths (delete (f_ID target) (<[i := x]> files)).
Proof.
  intros Hu Ht Hne Hl Hp. assert (Hcase : forall j f, delete (f_ID target) (<[i := x]> files) !! j = Some f -> j = i /\ f = x \/ j <> i /\ j <> f_ID target /\ files !! j = Some f).
  { intros j f. destruct (decide (j = f_ID target)) as [->|]; [by rewrite lookup_delete_eq|]. rewrite lookup_delete_ne by done.
    destruct (decide (j = i)) as [->|]; [rewrite lookup_insert_eq; intros [= <-]; by left|]. rewrite lookup_insert_ne by done. intros Hj. by right. }
  intros a b f g Ha Hb El Ep. destruct (Hcase a f Ha) as [[-> ->]|(? & Hat & Hfa)], (Hcase b g Hb) as [[-> ->]|(? & Hbt & Hgb)].
  - done.
  - destruct Hbt. symmetry. apply (Hu _ _ _ _ Ht Hgb); congruence.
  - destruct Hat. apply (Hu _ _ _ _ Hfa Ht); congruence.
  - by apply (Hu a b f g).
Qed.

Lemma takes_unique pairs files :
  NoDup (f_ID <$> pairs.*1 ++ pairs.*2) -> present files pairs.*2 -> unique_paths files -> unique_paths (takes pairs files).
Proof.
  revert files. induction pairs as [|[a b] pairs IH]; intros files Hnd Hp Hu; [done|].
  assert (Hperm : f_ID <$> ((a, b) :: pairs).*1 ++ ((a, b) :: pairs).*2 ≡ₚ f_ID a :: f_ID b :: (f_ID <$> pairs.*1 ++ pairs.*2)).
  { simpl. apply perm_skip. rewrite !fmap_app. simpl. by rewrite <- Permutation_middle. }
  rewrite Hperm in Hnd. apply list.NoDup_cons in Hnd as [Ha Hnd]. apply list.NoDup_cons in Hnd as [Hb Hnd].
  unfold takes. simpl. fold (takes pairs (take_over b a a files)). apply IH; [done| |].
  - intros f Hf. assert (Hin : f_ID f ∈ f_ID <$> pairs.*1 ++ pairs.*2) by (apply list_elem_of_fmap_2, elem_of_app; by right).
    rewrite take_over_other; [apply Hp; by right| |]; intros E; rewrite E in Hin; [done|apply Ha; by right].
  - apply unique_paths_move; try done; [apply Hp; by left|]. intros E. apply Ha. rewrite E. by left.
Qed.

Lemma put_new m d d' : sd_files d !! f_ID m = None -> put m d = (d', Ok ()) -> sd_files d' = <[f_ID m := m]> (sd_files d).
Proof.
  intros Hrow. unfold put. unfold sbind, sexec at 1. destruct (sd_faults d) as [|[e|] fs]; simpl; [|done|]; rewrite Hrow; simpl;
    unfold sexec; simpl; [|destruct fs as [|[e|] fs]; simpl; [|done|]]; intros [= <-]; done.
Qed.

(** A move puts one row in the place of the target's, whatever row there was. *)
Definition replaces (target missing : file) (x : file) (files : gmap string file) : Prop :=
  f_ID x = f_ID missing /\ f_LibraryID x = f_LibraryID target /\ f_Path x = f_Path target /\
  (IsZero (f_CreatedAt missing) = false -> (forall row, files !! f_ID missing = Some row -> f_CreatedAt row = f_CreatedAt missing) ->
   f_CreatedAt x = f_CreatedAt missing).

Lemma Put_any target missing d d' :
  Put (with_id (f_ID missing) (with_created (f_CreatedAt missing) target)) d = (d', Ok ()) ->
  exists x, sd_files d' = <[f_ID missing := x]> (sd_files d) /\ replaces target missing x (sd_files d).
Proof.
  set (m := with_id _ _). intros E. destruct (sd_files d !! f_ID missing) as [row|] eqn:Er.
  - exists (updated m row). rewrite (Put_existing m row d d' Er E). split; [done|]. unfold replaces. simpl. rewrite Er. split_and!; try done. intros _ Hr. by apply Hr.
  - unfold Put in E. unfold sbind at 1 in E. destruct (put _ d) as [d1 [[]|]] eqn:Ep; [|done].
    exists (if IsZero (f_CreatedAt m) then with_created (sd_now d) m else m). apply (effect_bind id id) in E; [|apply effect_query|intros _; apply effect_query].
    unfold id in E. rewrite E. split.
    + apply put_new in Ep; [|by destruct (IsZero (f_CreatedAt m))]. rewrite Ep. by destruct (IsZero (f_CreatedAt m)).
    + unfold replaces. simpl. destruct (IsZero (f_CreatedAt missing)) eqn:Ez; simpl; split_and!; done.
Qed.

Lemma move_tx_places reassign target missing d d' :
  move_tx reassign target missing d = (d', Ok ()) ->
  exists x, sd_files d' = delete (f_ID target) (<[f_ID missing := x]> (sd_files d)) /\ replaces target missing x (sd_files d).
Proof.
  intros E. apply retry_outcome in E. destruct E as (f & d1 & E & Hs). rewrite (same_db_files _ _ Hs).
  unfold sbind at 1 in E. destruct (Put _ _) as [d2 [[]|]] eqn:Ep; [|done]. apply Put_any in Ep as (x & Hx & Hr). exists x. split; [|done].
  apply (move_rest_effect reassign) in E. by rewrite E, Hx.
Qed.

(** What the second stage keeps: rows are stored under their id, places are
    unique, and the tracks still to come have the dates they were loaded with. *)
Record placed (files : gmap string file) (todo : list file) : Prop := {
  placed_keyed i f : files !! i = Some f -> f_ID f = i;
  placed_unique : unique_paths files;
  placed_dated ms row : ms ∈ todo -> files !! f_ID ms = Some row -> f_CreatedAt row = f_CreatedAt ms }.

Lemma moveMatched_placed target missing todo p p' r :
  placed (sd_files (ph_db p)) (missing :: todo) -> NoDup (f_ID <$> missing :: todo) ->
  sd_files (ph_db p) !! f_ID target = Some target -> f_ID target <> f_ID missing ->
  moveMatched target missing p = (p', r) -> placed (sd_files (ph_db p')) todo.
Proof.
  intros [Hk Hu Hd] Hnd Ht Hne. unfold moveMatched. cbv zeta. destruct (move_tx _ target missing (ph_db p)) as [d r1] eqn:E.
  assert (Hnext : placed (sd_files (ph_db p)) todo) by (constructor; [done|done|intros ms row Hms; apply Hd; by right]).
  destruct r1 as [[]|e]; intros [= <- <-]; simpl.
  - apply move_tx_places in E as (x & -> & Hid & Hl & Hp & _). constructor.
    + intros i f Hi. apply lookup_delete_Some in Hi as [_ Hi]. apply lookup_insert_Some in Hi as [[<- <-]|[_ Hi]]; [done|by apply Hk].
    + by apply unique_paths_move.
    + intros ms row Hms Hrow. apply lookup_delete_Some in Hrow as [_ Hrow]. apply lookup_insert_Some in Hrow as [[Eid _]|[_ Hrow]].
      * simpl in Hnd. apply list.NoDup_cons in Hnd as [Hn _]. destruct Hn. rewrite Eid. by apply list_elem_of_fmap_2.
      * apply (Hd ms); [by right|done].
  - apply retry_outcome in E. by rewrite (same_db_files _ _ E).
Qed.

Lemma query_db {A} (f : sdb -> A) d d' r :
  squery f d = (d', r) -> same_db d' d /\ forall a, r = Ok a -> exists fs, a = f (set_sfaults fs d).
Proof.
  unfold squery, sexec. destruct (sd_faults d) as [|[e|] fs]; intros E; apply pair_equal_spec in E as [<- <-]; (split; [reflexivity|]); intros a Ha; [| discriminate Ha|]; injection Ha as <-; by eexists.
Qed.

Lemma pick_elem missing ms m : pick missing ms = Some m -> m ∈ ms.
Proof.
  unfold pick. destruct (List.find _ ms) as [x|] eqn:E; [intros [= <-]; apply find_some in E as [E _]; by apply list_elem_of_In|].
  destruct ms as [|x []]; try done. destruct (IsEquivalent missing x); [|done]. intros [= <-]. by left.
Qed.

Context `{!ScanLaws}.

Lemma rows_where_elem p d f : f ∈ merge_sort newer (rows_where p d) -> (exists i, sd_files d !! i = Some f) /\ p f = true.
Proof.
  rewrite merge_sort_Permutation. unfold rows_where. rewrite list_elem_of_In, List.filter_In, <- list_elem_of_In, found_perm.
  rewrite list_elem_of_fmap. intros [([i x] & -> & Hin) Hp]. split; [|done]. exists i. by apply elem_of_map_to_list in Hin.
Qed.

(** Whatever the search finds is a row of another date than the track's. *)
Lemma findCross_spec missing d d' r :
  (forall i f, sd_files d !! i = Some f -> f_ID f = i) -> findCrossLibraryMatch missing d = (d', r) ->
  same_db d' d /\ forall m, r = Ok (Some m) -> sd_files d !! f_ID m = Some m /\ f_CreatedAt missing < f_CreatedAt m.
Proof.
  intros Hk. unfold findCrossLibraryMatch.
  assert (Hrow : forall x p m fs, m ∈ merge_sort newer (rows_where p (set_sfaults fs x)) -> same_db x d ->
    (forall f, p f = true -> f_CreatedAt missing < f_CreatedAt f) -> sd_files d !! f_ID m = Some m /\ f_CreatedAt missing < f_CreatedAt m).
  { intros x p m fs Hm Hs Hp. apply rows_where_elem in Hm as [[i Hi] Hpm]. simpl in Hi. rewrite (same_db_files _ _ Hs) in Hi. split; [by rewrite (Hk _ _ Hi)|by apply Hp]. }
  set (first := if String.eqb (f_MbzReleaseTrackID missing) "" then _ else _).
  assert (Hfirst : same_db first.1 d /\ forall m, first.2 = Some m -> sd_files d !! f_ID m = Some m /\ f_CreatedAt missing < f_CreatedAt m).
  { unfold first. destruct (String.eqb _ ""); [done|]. destruct (FindRecentFilesByMBZTrackID _ _ d) as [d1 [ms|]] eqn:E; apply query_db in E as [Hs Ha]; [|done].
    split; [done|]. simpl. intros m Hm. destruct (Ha _ eq_refl) as [fs ->]. apply pick_elem in Hm. eapply (Hrow d); [exact Hm|done|].
    intros f Hf. repeat (apply andb_prop in Hf as [Hf ?]). lia. }
  destruct first as [d1 [m|]]; simpl in Hfirst; destruct Hfirst as [Hs1 Hm1].
  - intros [= <- <-]. split; [done|]. intros m' [= <-]. by apply Hm1.
  - destruct (FindRecentFilesByProperties _ _ d1) as [d2 [ms|]] eqn:E; apply query_db in E as [Hs2 Ha]; intros [= <- <-]; (split; [by etransitivity|]); [|done].
    intros m [= Hm]. destruct (Ha _ eq_refl) as [fs ->]. apply pick_elem in Hm. eapply (Hrow d1); [exact Hm|done|].
    intros f Hf. repeat (apply andb_prop in Hf as [Hf ?]). lia.
Qed.

Lemma cross_loop_placed todo p : placed (sd_files (ph_db p)) todo -> NoDup (f_ID <$> todo) -> placed (sd_files (ph_db (cross_loop todo p))) [].
Proof.
  revert p. induction todo as [|missing todo IH]; intros p Hpl Hnd; [done|]. cbn [cross_loop].
  destruct (findCrossLibraryMatch missing (ph_db p)) as [d r] eqn:E. apply findCross_spec in E as [Hs Hm]; [|apply Hpl].
  assert (Hnd' : NoDup (f_ID <$> todo)) by (by apply list.NoDup_cons in Hnd as [_ ?]).
  assert (Hpl1 : placed (sd_files d) (missing :: todo)) by (by rewrite (same_db_files _ _ Hs)).
  assert (Hnext : placed (sd_files d) todo) by (destruct Hpl1 as [? ? Hd]; constructor; [done|done|intros ms row Hms; apply Hd; by right]).
  destruct r as [m|e]; [|by apply IH]. destruct (identified m) as [found|] eqn:Ei; [|by apply IH]. apply identified_Some in Ei as ->.
  destruct (Hm found eq_refl) as [Hfd Hlt]. rewrite <- (same_db_files _ _ Hs) in Hfd.
  assert (Hne : f_ID found <> f_ID missing).
  { intros Eid. rewrite Eid in Hfd. assert (f_CreatedAt found = f_CreatedAt missing) by (apply (placed_dated _ _ Hpl1 missing); [by left|done]). lia. }
  destruct (moveMatched found missing _) as [p1 [[]|e]] eqn:Em; apply (moveMatched_placed _ _ todo) in Em; try done; by apply IH.
Qed.

(** C25: the phase never leaves two rows for one file: after both stages have dealt with a group that is as it was loaded, no two rows have the same library
    and path, if there were none before. *)
Theorem moved_places_unique totalLibraryCount g p p' r :
  NoDup (f_ID <$> mt_missing g ++ mt_matched g) -> present (sd_files (ph_db p)) (mt_missing g ++ mt_matched g) ->
  (forall mt, mt ∈ mt_matched g -> f_ID mt <> "") -> (forall i f, sd_files (ph_db p) !! i = Some f -> f_ID f = i) ->
  unique_paths (sd_files (ph_db p)) -> processMissingTracks g p = (p', r) ->
  unique_paths (sd_files (ph_db (processCrossLibraryMoves totalLibraryCount (match r with Ok out => out | Err _ => None end) p'))).
Proof.
  intros Hnd Hp Hid Hk Hu E. apply process_out in E as (b & E & Hb).
  apply process_loop_spec in E as (pairs & Hf & Hsub & Hnd' & Hpairs & _ & Hok); [|done|intros f Hf; apply Hp; set_solver|done].
  assert (Hall : NoDup (f_ID <$> pairs.*1 ++ pairs.*2)) by (apply (pairs_distinct g); naive_solver).
  assert (Hu' : unique_paths (sd_files (ph_db p'))).
  { rewrite Hf. apply takes_unique; try done. intros f Hff. apply Hp, elem_of_app. right. apply list_elem_of_fmap in Hff as ([ms mt] & -> & Hin). by apply (Hpairs ms mt). }
  destruct r as [[x|]|e]; try done. destruct Hb as [-> ->]. destruct (Hok false eq_refl) as [Hnil _]. simpl in Hnil.
  destruct pairs; [|done]. simpl. unfold processCrossLibraryMoves. destruct (_ =? 1); [done|].
  apply (placed_unique _ []). apply cross_loop_placed.
  - rewrite Hf. simpl. constructor; [done|done|]. intros ms row Hms Hrow. rewrite (Hp ms) in Hrow by set_solver. by simplify_eq.
  - rewrite fmap_app in Hnd. by apply list.NoDup_app in Hnd as (? & _).
Qed.

(** ** Groups *)

Lemma str_le_iff a b : str_le a b <-> String.le a b.
Proof. unfold str_le, String.le. symmetry. apply Is_true_true. Qed.

#[export] Instance pid_le_trans : Transitive pid_le.
Proof. intros a b c. unfold pid_le. rewrite !str_le_iff. by intros ->. Qed.

#[export] Instance pid_le_total : Total pid_le.
Proof. intros a b. unfold pid_le. rewrite !str_le_iff. apply (total String.le). Qed.

Lemma pid_le_antisym a b : pid_le a b -> pid_le b a -> f_PID a = f_PID b.
Proof. unfold pid_le. rewrite !str_le_iff. apply (anti_symm String.le). Qed.

(** The tracks and the files of one persistent id. *)
Definition group_of (rows : list file) (pid : string) : missingTracks :=
  mkMissing pid (List.filter (fun f => String.eqb (f_PID f) pid && f_Missing f) rows)
    (List.filter (fun f => String.eqb (f_PID f) pid && negb (f_Missing f)) rows).

Definition worthwhile (g : missingTracks) : Prop := mt_pid g <> "" /\ mt_missing g <> [].

Lemma putIfMatched_elem mt g : g ∈ putIfMatched mt <-> g = mt /\ worthwhile mt.
Proof.
  unfold putIfMatched, worthwhile. destruct (String.eqb_spec (mt_pid mt) ""); [set_solver|]. case_bool_decide; set_solver.
Qed.

Lemma group_of_other rows pid : (forall f, f ∈ rows -> f_PID f <> pid) -> group_of rows pid = mkMissing pid [] [].
Proof.
  intros Hr. unfold group_of. f_equal; induction rows as [|f rows IH]; try done; simpl; rewrite (proj2 (String.eqb_neq _ _) (Hr f ltac:(by left))); apply IH; set_solver.
Qed.

Definition join_groups (a b : missingTracks) : missingTracks := mkMissing (mt_pid a) (mt_missing a ++ mt_missing b) (mt_matched a ++ mt_matched b).

Lemma putIfMatched_pids mt : NoDup (mt_pid <$> putIfMatched mt).
Proof. unfold putIfMatched. destruct (_ && _); [apply NoDup_singleton|constructor]. Qed.

Lemma join_nothing rows mt : (forall f, f ∈ rows -> f_PID f <> mt_pid mt) -> join_groups mt (group_of rows (mt_pid mt)) = mt.
Proof. intros Hr. rewrite group_of_other by done. destruct mt. unfold join_groups. simpl. by rewrite !app_nil_r. Qed.

(** What the group that is being built becomes, and the groups that follow it. *)
Definition groups_after (mt : missingTracks) (rows : list file) (gs : list missingTracks) : Prop :=
  NoDup (mt_pid <$> gs) /\ (forall g, g ∈ gs -> str_le (mt_pid mt) (mt_pid g)) /\
  forall g, g ∈ gs <-> worthwhile g /\ (g = join_groups mt (group_of rows (mt_pid mt)) \/ mt_pid g <> mt_pid mt /\ g = group_of rows (mt_pid g)).

Lemma putIfMatched_spec mt : groups_after mt [] (putIfMatched mt).
Proof.
  split_and!; [apply putIfMatched_pids| |].
  - intros g Hg. apply putIfMatched_elem in Hg as [-> _]. apply str_le_iff. reflexivity.
  - intros g. rewrite putIfMatched_elem, join_nothing by set_solver. split; [intros [-> Hw]; by split; [|left]|].
    intros [Hw [->|[_ Hg]]]; [done|]. destruct Hw as [_ Hm]. by rewrite Hg in Hm.
Qed.

Lemma group_of_skip f rows pid : f_PID f <> pid -> group_of (f :: rows) pid = group_of rows pid.
Proof. intros Hne. unfold group_of. simpl. by rewrite (proj2 (String.eqb_neq _ _) Hne). Qed.

Lemma group_rows_spec rows mt :
  StronglySorted pid_le rows -> (forall f, f ∈ rows -> str_le (mt_pid mt) (f_PID f)) ->
  exists gs, group_rows mt (Ok <$> rows) = (gs, None) /\ groups_after mt rows gs.
Proof.
  revert mt. induction rows as [|f rows IH]; intros mt Hs Hle.
  { exists (putIfMatched mt). split; [done|]. apply putIfMatched_spec. }
  apply StronglySorted_inv in Hs as [Hs Hall]. rewrite List.Forall_forall in Hall. rewrite fmap_cons. cbn [group_rows].
  destruct (String.eqb_spec (mt_pid mt) (f_PID f)) as [Ef|Ef].
  - set (mt' := if f_Missing f then _ else _). assert (Epid : mt_pid mt' = mt_pid mt) by (unfold mt'; by destruct (f_Missing f)).
    destruct (IH mt' Hs) as (gs & Eg & Hnd & Hge & Hgs); [intros x Hx; rewrite Epid; apply Hle; by right|]. exists gs.
    rewrite Eg. rewrite Epid in *. split; [done|]. split_and!; try done. intros g. rewrite Hgs.
    assert (Ej : join_groups mt' (group_of rows (mt_pid mt)) = join_groups mt (group_of (f :: rows) (mt_pid mt))).
    { unfold join_groups, group_of, mt'. simpl. rewrite (proj2 (String.eqb_eq _ _) (eq_sym Ef)). destruct (f_Missing f); simpl; by rewrite <- !app_assoc. }
    assert (Eo : forall q, q <> mt_pid mt -> group_of rows q = group_of (f :: rows) q) by (intros q Hq; rewrite group_of_skip; [done|congruence]).
    rewrite Ej. split; intros [Hw [Hj|[Hq Hg]]]; (split; [done|]); [by left|right; by rewrite <- Eo|by left|right; by rewrite Eo].
  - set (mt' := if f_Missing f then _ else _). assert (Epid : mt_pid mt' = f_PID f) by (unfold mt'; by destruct (f_Missing f)).
    destruct (IH mt' Hs) as (gs & Eg & Hnd & Hge & Hgs); [intros x Hx; rewrite Epid; apply Hall; by apply list_elem_of_In|].
    exists (putIfMatched mt ++ gs). rewrite Eg. rewrite Epid in *.
    assert (Hlt : forall x, x ∈ f :: rows -> f_PID x <> mt_pid mt).
    { intros x Hx E. apply Ef. apply String.leb_antisym; [apply Hle; by left|]. rewrite <- E. apply elem_of_cons in Hx as [->|Hx]; [apply str_le_iff; reflexivity|].
      apply Hall. by apply list_elem_of_In. }
    assert (Hgne : forall g, g ∈ gs -> mt_pid g <> mt_pid mt).
    { intros g Hg E. apply Ef. apply String.leb_antisym; [apply Hle; by left|]. rewrite <- E. by apply Hge. }
    pose proof (join_nothing (f :: rows) mt Hlt) as Ej.
    assert (Ej' : join_groups mt' (group_of rows (f_PID f)) = group_of (f :: rows) (f_PID f)).
    { unfold join_groups, group_of, mt'. simpl. rewrite String.eqb_refl. destruct (f_Missing f); done. }
    split; [done|]. split_and!.
    + rewrite fmap_app. apply list.NoDup_app. split_and!; [apply putIfMatched_pids| |done].
      intros q Hq Hq'. apply list_elem_of_fmap in Hq as (a & -> & Ha), Hq' as (b & Eb & Hb). apply putIfMatched_elem in Ha as [-> _]. by destruct (Hgne b Hb).
    + intros g [Hg|Hg]%elem_of_app; [apply putIfMatched_elem in Hg as [-> _]; apply str_le_iff; reflexivity|].
      apply str_le_iff. transitivity (f_PID f); apply str_le_iff; [apply Hle; by left|by apply Hge].
    + intros g. rewrite elem_of_app, putIfMatched_elem, Hgs, Ej, Ej'. split.
      * intros [[-> Hw]|[Hw Hg]]; [by split; [|left]|]. split; [done|right]. destruct Hg as [->|[Hq Hg]]; [split; [simpl; congruence|done]|].
        assert (Hin : g ∈ gs) by (apply Hgs; split; [done|by right]). split; [by apply Hgne|]. rewrite Hg at 1. rewrite group_of_skip; [done|congruence].
      * intros [Hw [->|[Hq Hg]]]; [by left|right; split; [done|]]. destruct (decide (mt_pid g = f_PID f)) as [E|Hne]; [left; by rewrite Hg, E|].
        right. split; [done|]. rewrite Hg at 1. rewrite group_of_skip; [done|congruence].
Qed.

Lemma loaded_rows libId d d' rows :
  (forall i f, sd_files d !! i = Some f -> f_ID f = i) -> GetMissingAndMatching libId d = (d', Ok rows) ->
  StronglySorted pid_le rows /\ NoDup (f_ID <$> rows) /\ present (sd_files d) rows.
Proof.
  intros Hk E. apply query_db in E as [_ Hr]. destruct (Hr rows eq_refl) as [fs ->]. split_and!.
  - apply (StronglySorted_merge_sort pid_le).
  - rewrite merge_sort_Permutation. unfold rows_where. simpl. assert (Hnd : NoDup (f_ID <$> found_order (map_to_list (sd_files d)).*2)).
    { rewrite found_perm. assert (Heq : f_ID <$> (map_to_list (sd_files d)).*2 = (map_to_list (sd_files d)).*1).
      { rewrite <- list_fmap_compose. apply list_fmap_ext. intros i [k f] Hi. simpl. apply list_elem_of_lookup_2, elem_of_map_to_list in Hi. by apply Hk. }
      rewrite Heq. apply NoDup_fst_map_to_list. }
    revert Hnd. generalize (found_order (map_to_list (sd_files d)).*2) as l. intros l. induction l as [|f l IH]; intros Hnd; [constructor|].
    simpl in *. apply list.NoDup_cons in Hnd as [Hf Hnd]. destruct (_ && _); [|by apply IH]. simpl. constructor; [|by apply IH].
    intros Hin. apply Hf. apply list_elem_of_fmap in Hin as (x & -> & Hx). apply list_elem_of_fmap_2. apply list_elem_of_In, List.filter_In in Hx as [Hx _]. by apply list_elem_of_In.
  - intros f Hf. rewrite merge_sort_Permutation in Hf. unfold rows_where in Hf. simpl in Hf. apply list_elem_of_In, List.filter_In in Hf as [Hf _].
    rewrite <- list_elem_of_In, found_perm in Hf. apply list_elem_of_fmap in Hf as ([i x] & -> & Hx). apply elem_of_map_to_list in Hx. simpl. by rewrite (Hk _ _ Hx).
Qed.

Lemma group_of_perm rows pid : mt_missing (group_of rows pid) ++ mt_matched (group_of rows pid) ≡ₚ List.filter (fun f => String.eqb (f_PID f) pid) rows.
Proof.
  induction rows as [|f rows IH]; simpl; [done|]. unfold group_of in *. simpl in *. destruct (String.eqb (f_PID f) pid); simpl; [|done].
  destruct (f_Missing f); simpl; [by rewrite IH|]. rewrite <- Permutation_middle. by rewrite IH.
Qed.

(** The groups handed to the stages are the rows of each persistent id that has a missing track: all of them, split into missing tracks and
    new files, one group per id; and a group is as the moves need it, its rows the current ones with an id each. *)
Theorem groups_by_pid libId d d' rows :
  (forall i f, sd_files d !! i = Some f -> f_ID f = i) -> GetMissingAndMatching libId d = (d', Ok rows) ->
  exists gs, group_rows (mkMissing "" [] []) (Ok <$> rows) = (gs, None) /\ NoDup (mt_pid <$> gs) /\
    forall g, g ∈ gs <-> worthwhile g /\ g = group_of rows (mt_pid g) /\
      NoDup (f_ID <$> mt_missing g ++ mt_matched g) /\ present (sd_files d) (mt_missing g ++ mt_matched g).
Proof.
  intros Hk E. destruct (loaded_rows libId d d' rows Hk E) as (Hs & Hnd & Hp).
  destruct (group_rows_spec rows (mkMissing "" [] []) Hs) as (gs & -> & Hn & _ & Hg); [intros f _; simpl; by destruct (f_PID f)|].
  exists gs. split_and!; try done. intros g. rewrite Hg. split.
  - intros [Hw Hcase]. assert (Eg : g = group_of rows (mt_pid g)) by (destruct Hcase as [->|[_ ?]]; [by destruct Hw|done]).
    assert (Hsub : NoDup (f_ID <$> mt_missing g ++ mt_matched g) /\ present (sd_files d) (mt_missing g ++ mt_matched g)).
    { rewrite Eg. generalize (mt_pid g) as pid. intros pid. split.
      - rewrite group_of_perm. eapply sublist_NoDup; [exact Hnd|]. apply fmap_sublist. clear. induction rows as [|f rows IH]; simpl; [done|].
        destruct (String.eqb _ _); by constructor.
      - intros f Hf. rewrite group_of_perm in Hf. apply Hp. apply list_elem_of_In, List.filter_In in Hf as [Hf _]. by apply list_elem_of_In. }
    naive_solver.
  - intros (Hw & Eg & _). split; [done|]. right. split; [by destruct Hw|done].
Qed.

End facts.

(** ** Examples *)

(** Tracks are equal when their titles are, and rows are found in the order of the table. *)
#[local] Instance demo_env : ScanEnv := {| Hash := f_Title; found_order l := l; average := foldr Z.add 0 |}.

#[local] Instance demo_laws : ScanLaws.
Proof. by constructor. Qed.

Definition demo_file (i pid : string) (lib : Z) (path : string) (missing : bool) (created : time) : file :=
  mkFile i pid lib path "al" missing created created "" "Song" "Album" 10 "mp3" 1 1 "".
Definition demo_db (l : list file) : sdb :=
  mkSdb (list_to_map ((fun f => (f_ID f, f)) <$> l)) ∅ ∅ {[1 := 50; 2 := 50]} 200 true false [].
Definition demo_phase (l : list file) : phase := mkPhase (demo_db l) ∅ 0 false.

(** A file that was renamed within library 1. *)
Definition renamed : list file := [demo_file "m" "p" 1 "old/song.mp3" true 10; demo_file "t" "p" 1 "new/song.mp3" false 100].
Definition renamed_group : missingTracks := mkMissing "p" [demo_file "m" "p" 1 "old/song.mp3" true 10] [demo_file "t" "p" 1 "new/song.mp3" false 100].

Lemma renamed_present : present (sd_files (ph_db (demo_phase renamed))) (mt_missing renamed_group ++ mt_matched renamed_group).
Proof. intros f Hf. simpl in Hf. repeat (apply elem_of_cons in Hf as [->|Hf]; [reflexivity|]). by apply not_elem_of_nil in Hf. Qed.

Lemma missing_tracks_moved_witness :
  sd_files (ph_db (processMissingTracks renamed_group (demo_phase renamed)).1) !! "m" =
    Some (demo_file "m" "p" 1 "new/song.mp3" false 10) /\
  exists pairs : list (file * file), pairs.*1 `sublist_of` mt_missing renamed_group.
Proof.
  split; [vm_compute; reflexivity|].
  destruct (missing_tracks_moved renamed_group (demo_phase renamed) (processMissingTracks renamed_group (demo_phase renamed)).1
    (processMissingTracks renamed_group (demo_phase renamed)).2) as (pairs & Hp & _).
  - apply (bool_decide_unpack _). vm_compute. exact I.
  - intros f Hf. apply renamed_present. apply elem_of_app. by left.
  - intros mt Hmt. apply list_elem_of_singleton in Hmt as ->. discriminate.
  - apply surjective_pairing.
  - by exists pairs.
Defined.

Lemma demo_unique l : (forall f g, f ∈ l -> g ∈ l -> f_LibraryID f = f_LibraryID g -> f_Path f = f_Path g -> f = g) -> unique_paths (sd_files (demo_db l)).
Proof.
  intros Hl i j f g Hi Hj El Ep. simpl in *. apply elem_of_list_to_map_2, list_elem_of_fmap in Hi as (f' & [= -> ->] & Hf), Hj as (g' & [= -> ->] & Hg).
  by rewrite (Hl f' g').
Qed.

Lemma demo_keyed l i f : sd_files (demo_db l) !! i = Some f -> f_ID f = i.
Proof. simpl. intros Hi. apply elem_of_list_to_map_2, list_elem_of_fmap in Hi as (f' & [= -> ->] & _). done. Qed.

Lemma moved_places_unique_witness :
  unique_paths (sd_files (ph_db (processMissingTracks renamed_group (demo_phase renamed)).1)).
Proof.
  apply (moved_places_unique 2 renamed_group (demo_phase renamed) (processMissingTracks renamed_group (demo_phase renamed)).1 (Ok None)).
  - apply (bool_decide_unpack _). vm_compute. exact I.
  - apply renamed_present.
  - intros mt Hmt. apply list_elem_of_singleton in Hmt as ->. discriminate.
  - apply demo_keyed.
  - apply demo_unique. unfold renamed. intros f g Hf Hg. repeat (apply elem_of_cons in Hf as [->|Hf]; [|]); repeat (apply elem_of_cons in Hg as [->|Hg]; [|]);
      try (by apply not_elem_of_nil in Hf); try (by apply not_elem_of_nil in Hg); done.
  - vm_compute. reflexivity.
Defined.

Lemma groups_by_pid_witness :
  match GetMissingAndMatching 1 (demo_db renamed) with
  | (_, Ok rows) => group_rows (mkMissing "" [] []) (Ok <$> rows) = ([renamed_group], None)
  | _ => False
  end.
Proof.
  destruct (GetMissingAndMatching 1 (demo_db renamed)) as [d [rows|e]] eqn:E; [|vm_compute in E; discriminate].
  destruct (groups_by_pid 1 (demo_db renamed) d rows (demo_keyed renamed) E) as (gs & _ & _). vm_compute in E. injection E as <- <-. vm_compute. reflexivity.
Defined.

(** Two copies of a track vanish from library 1 and one file appears in library 2.  The older copy takes
    over the row the newer one has just become, which is deleted. *)
Definition two_copies : list file :=
  [demo_file "m1" "p" 1 "a.mp3" true 20; demo_file "m2" "p" 1 "b.mp3" true 10; demo_file "t" "q" 2 "c.mp3" false 100].

Example second_track_takes_the_first :
  let '(p, _) := run_stages 2 [mkMissing "p" [demo_file "m1" "p" 1 "a.mp3" true 20; demo_file "m2" "p" 1 "b.mp3" true 10] []] (demo_phase two_copies) in
  sd_files (ph_db p) = {["m2" := demo_file "m2" "q" 2 "c.mp3" false 10]} /\ ph_totalMatched p = 2.
Proof. vm_compute. split; reflexivity. Qed.

(** A track vanishes from library 1 while its copy is renamed in library 2.  The first group takes the new
    file from the second, which was loaded before: two rows end up with one path. *)
Definition renamed_copy : list file :=
  [demo_file "m1" "p" 1 "a.mp3" true 20; demo_file "m2" "q" 2 "b.mp3" true 10; demo_file "t" "q" 2 "c.mp3" false 100].

Example stale_group_duplicates_a_path :
  match produce [1; 2] (demo_db renamed_copy) with
  | (d, groups, None) =>
      let '(p, _) := run_stages 2 groups (mkPhase d ∅ 0 false) in
      (f_Path <$> sd_files (ph_db p) !! "m1") = Some "c.mp3" /\ (f_Path <$> sd_files (ph_db p) !! "m2") = Some "c.mp3" /\
      (f_LibraryID <$> sd_files (ph_db p) !! "m1") = Some 2 /\ (f_LibraryID <$> sd_files (ph_db p) !! "m2") = Some 2
  | _ => False
  end.
Proof. vm_compute. split_and!; reflexivity. Qed.
