(* ===== verification/PlaylistImport.v ===== *)
(** * Playlist files in the M3U format

    [core/playlists/parse_m3u.go], with the library matcher of
    [model/library_matcher.go], the lookup [FindByPaths] of
    [persistence/mediafile_repository.go], the line reader of [utils/slice] and the
    export [ToM3U8] of [model/mediafile.go]. *)

From Stdlib Require Import Ascii String.
From stdpp Require Import sorting.
From S2P Require Import Prelude GoStrings GoText Model KVStore.

Local Open Scope Z_scope.

(** What the import uses of other packages: Unicode normalisation and case, the
    types of file extensions, the configuration, the order of the rows of a query,
    the title of a playlist without one, and the duration as a number of seconds. *)
Class ImportEnv := {
  NFC : string -> string;
  NFD : string -> string;
  Lower : string -> string;
  TypeByExtension : string -> string;
  EnableM3UExternalAlbumArt : bool;
  query_order : list MediaFile -> list MediaFile;
  now_title : string;
  show_duration : float32 -> string }.

(** ** Reading lines *)

(** The longest line a [bufio.Scanner] takes. *)
Definition MaxScanTokenSize : Z := 64 * 1024.

(** [scanLines]: the first line and what follows it, if there is any. *)
Fixpoint scan_line (s : string) : string * option string :=
  match s with
  | "" => ("", None)
  | String c s' =>
      if Ascii.eqb c LF then ("", Some s')
      else if Ascii.eqb c CR then ("", Some (match s' with String d s'' => if Ascii.eqb d LF then s'' else s' | "" => s' end))
      else let '(line, rest) := scan_line s' in (String c line, rest)
  end.

(** [LinesFrom]: the scanner stops for good at a line that does not fit its buffer. *)
Fixpoint lines_loop (fuel : nat) (s : string) : list string :=
  match fuel with
  | O => []
  | S fuel =>
      if String.eqb s "" then []
      else let '(line, rest) := scan_line s in
           if MaxScanTokenSize <=? Z.of_nat (String.length line) then []
           else line :: match rest with Some r => lines_loop fuel r | None => [] end
  end.
Definition LinesFrom (s : string) : list string := lines_loop (String.length s) s.

(** ** Paths *)

(** [strings.CutPrefix]. *)
Fixpoint CutPrefix (s pre : string) : option string :=
  match pre, s with
  | "", _ => Some s
  | String c pre, String d s => if Ascii.eqb c d then CutPrefix s pre else None
  | _, _ => None
  end.

Definition unhex (c : ascii) : option nat :=
  let n := nat_of_ascii c in
  if ((48 <=? n) && (n <=? 57))%nat then Some (n - 48)%nat
  else if ((97 <=? n) && (n <=? 102))%nat then Some (n - 87)%nat
  else if ((65 <=? n) && (n <=? 70))%nat then Some (n - 55)%nat else None.

(** [url.PathUnescape]. *)
Fixpoint PathUnescape (s : string) : option string :=
  match s with
  | "" => Some ""
  | String c s1 =>
      if Ascii.eqb c "%" then
        match s1 with
        | String a (String b s2) => x ← unhex a; y ← unhex b; r ← PathUnescape s2; Some (String (ascii_of_nat (16 * x + y)) r)
        | _ => None
        end
      else r ← PathUnescape s1; Some (String c r)
  end.

Definition IsAbs (p : string) : bool := HasPrefix p "/".

Fixpoint ext_from (r acc : string) : string :=
  match r with
  | "" => ""
  | String c r => if Ascii.eqb c "/" then "" else if Ascii.eqb c "." then String c acc else ext_from r (String c acc)
  end.
(** [filepath.Ext]. *)
Definition Ext (p : string) : string := ext_from (String.rev p) "".

(** The elements of a cleaned path. *)
Definition elements (p : string) : list string := reverse (foldl (clean_elem (IsAbs p)) [] (split_slash "" p)).

Fixpoint strip_common (base targ : list string) : list string * list string :=
  match base, targ with
  | b :: base', t :: targ' => if String.eqb b t then strip_common base' targ' else (base, targ)
  | _, _ => (base, targ)
  end.

(** [filepath.Rel]. *)
Definition Rel (basepath targpath : string) : option string :=
  if String.eqb (Clean basepath) (Clean targpath) then Some "."
  else if negb (Bool.eqb (IsAbs basepath) (IsAbs targpath)) then None
  else match strip_common (elements basepath) (elements targpath) with
       | (".." :: _, _) => None
       | (b, t) => Some (Join (((fun _ => "..") <$> b) ++ t) "/")
       end.

(** *** [model/library_matcher.go] *)

Record Library := mkLibrary { lib_ID : Z; lib_Path : string }.

Definition longer (a b : Library) : Prop := (String.length (lib_Path b) <= String.length (lib_Path a))%nat.
#[export] Instance longer_dec : RelDecision longer.
Proof. intros a b. unfold longer. apply _. Defined.

Definition LibraryMatcher : Type := list (Library * string).

Definition NewLibraryMatcher (libs : list Library) : LibraryMatcher :=
  (fun lib => (lib, Clean (lib_Path lib))) <$> merge_sort longer libs.

Definition in_library (absolutePath libPath : string) : bool :=
  match CutPrefix absolutePath libPath with
  | Some rest => String.eqb rest "" || HasPrefix rest "/" || HasPrefix (String.rev libPath) "/"
  | None => false
  end.

Definition FindLibrary (lm : LibraryMatcher) (absolutePath : string) : option Library :=
  fst <$> List.find (fun '(_, libPath) => in_library absolutePath libPath) lm.

(** *** [model/file_types.go] and [model/user.go] *)

Section import.
Context `{ImportEnv}.

Definition excludeAudioType : list string := ["audio/mpegurl"; "audio/x-mpegurl"; "audio/x-scpls"].
Definition IsAudioFile (filePath : string) : bool :=
  let mimeType := TypeByExtension (Ext filePath) in negb (bool_decide (mimeType ∈ excludeAudioType)) && HasPrefix mimeType "audio/".
Definition IsImageFile (filePath : string) : bool := HasPrefix (TypeByExtension (Ext filePath)) "image/".

Record Owner := mkOwner { o_IsAdmin : bool; o_Libraries : list Z }.
Definition HasLibraryAccess (u : Owner) (libraryID : Z) : bool := o_IsAdmin u || bool_decide (libraryID ∈ o_Libraries u).

(** ** Lines of a playlist *)

(** A folder is given by its absolute path. *)
Definition resolvePath (lm : LibraryMatcher) (line : string) (folder : option string) : option (string * string * Z) :=
  let absolutePath := match folder with
                      | Some dir => if IsAbs line then Clean line else Clean (PathJoin [dir; line])
                      | None => Clean line
                      end in
  match FindLibrary lm absolutePath with
  | Some lib => Some (absolutePath, Clean (lib_Path lib), lib_ID lib)
  | None => None
  end.

Definition qualified (libraryID : Z) (path : string) : string := Itoa libraryID +:+ ":" +:+ path.

Definition ToQualifiedString (r : string * string * Z) : option string :=
  let '(absolutePath, libraryPath, libraryID) := r in qualified libraryID <$> Rel libraryPath absolutePath.

Definition resolvePaths (lm : LibraryMatcher) (folder : option string) (lines : list string) : list string :=
  omap (fun line => r ← resolvePath lm line folder; ToQualifiedString r) lines.

Definition resolveLocalPath (value : string) (folder : option string) : option string :=
  match CutPrefix value "file://" with
  | Some after => Clean <$> PathUnescape after
  | None => if IsAbs value then Some (Clean value)
            else match folder with Some dir => Some (Clean (PathJoin [dir; value])) | None => None end
  end.

Definition resolveImageURL (value : string) (folder : option string) (lm : LibraryMatcher) (owner : Owner) : string :=
  let value := TrimSpace value in
  if String.eqb value "" then ""
  else if HasPrefix value "http://" || HasPrefix value "https://" then (if EnableM3UExternalAlbumArt then value else "")
  else match resolveLocalPath value folder with
       | Some localPath =>
           if negb (IsImageFile localPath) then ""
           else match FindLibrary lm localPath with
                | Some lib => match folder with
                              | None => if HasLibraryAccess owner (lib_ID lib) then localPath else ""
                              | Some _ => localPath
                              end
                | None => ""
                end
       | None => ""
       end.

Record parsing := mkParsing { g_Name : string; g_Image : string; g_tracks : list MediaFile }.

(** One line: the path it names, if any. *)
Definition read_line (lm : LibraryMatcher) (folder : option string) (owner : Owner) (line : string) (p : parsing) : parsing * option string :=
  let line := TrimSpace line in
  match CutPrefix line "#PLAYLIST:", CutPrefix line "#EXTALBUMARTURL:" with
  | Some after, _ => (mkParsing after (g_Image p) (g_tracks p), None)
  | None, Some after => (mkParsing (g_Name p) (resolveImageURL after folder lm owner) (g_tracks p), None)
  | None, None =>
      if String.eqb line "" || HasPrefix line "#" then (p, None)
      else let line := match CutPrefix line "file://" with Some after => default "" (PathUnescape after) | None => line end in
           (p, if IsAudioFile line then Some line else None)
  end.

Fixpoint read_lines (lm : LibraryMatcher) (folder : option string) (owner : Owner) (lines : list string) (p : parsing) : parsing * list string :=
  match lines with
  | [] => (p, [])
  | line :: lines =>
      let '(p, path) := read_line lm folder owner line p in
      let '(p, paths) := read_lines lm folder owner lines p in
      (p, option_list path ++ paths)
  end.

(** [seen] keeps the first of equal candidates. *)
Definition add_candidate (l : list string) (x : string) : list string := if bool_decide (x ∈ l) then l else l ++ [x].
Definition lookupCandidates (paths : list string) : list string :=
  foldl (fun l path => let nfcRaw := NFC path in let nfdRaw := NFD path in
    foldl add_candidate l [nfcRaw; nfdRaw; Lower nfcRaw; Lower nfdRaw]) [] paths.

(** [strings.Cut(path, ":")]. *)
Fixpoint cut_colon (s : string) : option (string * string) :=
  match s with
  | "" => None
  | String c s => if Ascii.eqb c ":" then Some ("", s) else '(a, b) ← cut_colon s; Some (String c a, b)
  end.

(** A candidate finds a row by its path in the library it names, or by its whole
    text in any library; [collate nocase] folds ASCII letters. *)
Definition finds (candidate : string) (mf : MediaFile) : bool :=
  EqualFold candidate (mf_Path mf) ||
  match cut_colon candidate with
  | Some (i, rest) => match Atoi i with Some libraryID => (mf_LibraryID mf =? libraryID) && EqualFold rest (mf_Path mf) | None => false end
  | None => false
  end.

(** [files] are the media files the user may read. *)
Definition FindByPaths (files : list MediaFile) (fault : option string) (paths : list string) : result string (list MediaFile) :=
  match paths, fault with
  | [], _ => Ok []
  | _, Some e => Err e
  | _, None => Ok (query_order (List.filter (fun mf => existsb (fun c => finds c mf) paths) files))
  end.

Definition file_key (mf : MediaFile) : string := qualified (mf_LibraryID mf) (Lower (NFC (mf_Path mf))).

(** The last row of a key wins. *)
Definition existing (found : list MediaFile) : gmap string MediaFile := foldl (fun m mf => <[file_key mf := mf]> m) ∅ found.

Definition parse_chunk (lm : LibraryMatcher) (folder : option string) (owner : Owner) (files : list MediaFile) (fault : option string)
  (lines : list string) (p : parsing) : parsing :=
  let '(p, filteredLines) := read_lines lm folder owner lines p in
  let resolvedPaths := resolvePaths lm folder filteredLines in
  match FindByPaths files fault (lookupCandidates resolvedPaths) with
  | Err _ => p
  | Ok found => mkParsing (g_Name p) (g_Image p) (g_tracks p ++ omap (fun path => existing found !! Lower (NFC path)) resolvedPaths)
  end.

Fixpoint parse_chunks (lm : LibraryMatcher) (folder : option string) (owner : Owner) (files : list MediaFile) (faults : list (option string))
  (chunks : list (list string)) (p : parsing) : parsing :=
  match chunks with
  | [] => p
  | lines :: chunks => parse_chunks lm folder owner files (tail faults) chunks (parse_chunk lm folder owner files (mjoin (head faults)) lines p)
  end.

(** [libs] is the answer of the query for the libraries; [name] the name the playlist has so far. *)
Definition parseM3U (libs : result string (list Library)) (name : string) (folder : option string) (owner : Owner) (files : list MediaFile)
  (faults : list (option string)) (reader : string) : result string parsing :=
  match libs with
  | Err e => Err e
  | Ok libs =>
      let p := parse_chunks (NewLibraryMatcher libs) folder owner files faults (CollectChunks 100 [] (LinesFrom reader)) (mkParsing name "" []) in
      Ok (if String.eqb (g_Name p) "" then mkParsing now_title (g_Image p) (g_tracks p) else p)
  end.

(** ** Export *)

Definition extinf (t : MediaFile) : string := "#EXTINF:" +:+ show_duration (mf_Duration t) +:+ "," +:+ mf_Artist t +:+ " - " +:+ mf_Title t.
Definition ToM3U8 (title : string) (absolutePaths : bool) (mfs : list MediaFile) : string :=
  "#EXTM3U" +:+ newline +:+ ("#PLAYLIST:" +:+ title +:+ newline) +:+
  String.concat "" ((fun t => extinf t +:+ newline +:+ ((if absolutePaths then AbsolutePath t else mf_Path t) +:+ newline)) <$> mfs).

End import.
