(* ===== verification/PathFacts.v ===== *)
(** * Lemmas on paths

    What [Clean], [PathJoin], [elements] and [Rel] make of paths whose elements are
    ordinary names: nothing is lost and nothing is added. *)

From Stdlib Require Import Ascii String.
From S2P Require Import Prelude GoStrings PlaylistImport.

Local Open Scope Z_scope.

Fixpoint no_slash (s : string) : bool := match s with "" => true | String c s => negb (Ascii.eqb c "/") && no_slash s end.

(** An element of a path that is neither empty nor a dot. *)
Definition proper (x : string) : Prop := no_slash x = true /\ x <> "" /\ x <> ".".

Lemma no_slash_app a b : no_slash (a +:+ b) = no_slash a && no_slash b.
Proof. induction a as [|c a IH]; [done|]. rewrite string_app_cons. simpl. rewrite IH. by destruct (Ascii.eqb c "/"). Qed.

Lemma split_slash_elem acc s : no_slash acc = true -> Forall (fun x => no_slash x = true) (split_slash acc s).
Proof.
  revert acc. induction s as [|c s IH]; intros acc Ha; simpl; [by constructor|]. destruct (Ascii.eqb c "/") eqn:E; [constructor; auto|].
  apply IH. rewrite no_slash_app. simpl. by rewrite Ha, E.
Qed.

Lemma split_slash_plain acc s rest :
  no_slash s = true -> split_slash acc (s +:+ rest) = split_slash (acc +:+ s) rest.
Proof.
  revert acc. induction s as [|c s IH]; intros acc Hs; [by rewrite string_app_nil_r|]. rewrite string_app_cons. simpl in Hs |- *.
  apply andb_prop in Hs as [Hc Hs]. apply negb_true_iff in Hc. rewrite Hc, IH by done. by rewrite string_app_assoc, string_app_cons, string_app_nil_l.
Qed.

Lemma split_slash_Join l : l <> [] -> Forall (fun x => no_slash x = true) l -> split_slash "" (Join l "/") = l.
Proof.
  intros Hne Hl. induction Hl as [|x l Hx Hl IH]; [done|]. destruct l as [|y l].
  - simpl. rewrite <- (string_app_nil_r x) at 1. rewrite split_slash_plain by done. done.
  - change (Join (x :: y :: l) "/") with (x +:+ "/" +:+ Join (y :: l) "/"). rewrite split_slash_plain by done. rewrite string_app_nil_l.
    rewrite string_app_cons. cbn [split_slash Ascii.eqb]. simpl Ascii.eqb. rewrite string_app_nil_l. f_equal. by apply IH.
Qed.

Lemma split_slash_app a b : split_slash "" (a +:+ "/" +:+ b) = split_slash "" a ++ split_slash "" b.
Proof.
  enough (Hg : forall acc, split_slash acc (a +:+ "/" +:+ b) = split_slash acc a ++ split_slash "" b) by apply Hg.
  induction a as [|c a IH]; intros acc; [done|]. rewrite string_app_cons. simpl. destruct (Ascii.eqb c "/"); simpl; by rewrite IH.
Qed.

Lemma clean_foldl_proper r l out : Forall (fun x => no_slash x = true) l -> Forall proper out -> Forall proper (foldl (clean_elem r) out l).
Proof.
  intros Hl. revert out. induction Hl as [|x l Hx Hl IH]; intros out Ho; [done|]. apply IH. unfold clean_elem.
  destruct (String.eqb_spec x ""); [done|]. destruct (String.eqb_spec x "."); [done|]. simpl. destruct (String.eqb_spec x "..").
  - destruct out as [|y out]; [destruct r; repeat constructor; done|]. destruct (String.eqb y ".."); [constructor; [by split_and!|done]|by inversion Ho].
  - by constructor.
Qed.

Lemma clean_foldl_rooted l out : Forall (fun x => x <> "..") out -> Forall (fun x => x <> "..") (foldl (clean_elem true) out l).
Proof.
  revert out. induction l as [|x l IH]; intros out Ho; [done|]. apply IH. unfold clean_elem.
  destruct (_ || _); [done|]. destruct (String.eqb_spec x ".."); [|by constructor].
  destruct out as [|y out]; [done|]. inversion Ho; subst. by rewrite (proj2 (String.eqb_neq _ _)).
Qed.

Lemma elements_proper p : Forall proper (elements p).
Proof. unfold elements. apply Forall_reverse. apply clean_foldl_proper; [by apply split_slash_elem|constructor]. Qed.

Lemma elements_rooted p : IsAbs p = true -> Forall (fun x => x <> "..") (elements p).
Proof. intros Ha. unfold elements. rewrite Ha. apply Forall_reverse. by apply clean_foldl_rooted. Qed.

Lemma Clean_rooted p : IsAbs p = true -> Clean p = "/" +:+ Join (elements p) "/".
Proof. intros Ha. unfold Clean, elements. change (HasPrefix p "/") with (IsAbs p). by rewrite Ha. Qed.

(** Elements that stay: [filepath.Clean] pushes each of them. *)
Definition stays (x : string) : Prop := proper x /\ x <> "..".

Lemma clean_foldl_stays r l out : Forall stays l -> foldl (clean_elem r) out l = reverse l ++ out.
Proof.
  intros Hl. revert out. induction Hl as [|x l [(_ & H1 & H2) H3] Hl IH]; intros out; [done|]. simpl. rewrite IH. unfold clean_elem.
  rewrite (proj2 (String.eqb_neq _ _) H1), (proj2 (String.eqb_neq _ _) H2), (proj2 (String.eqb_neq _ _) H3). simpl.
  rewrite reverse_cons, <- app_assoc. done.
Qed.

Lemma stays_no_slash l : Forall stays l -> Forall (fun x => no_slash x = true) l.
Proof. apply Forall_impl. by intros x [(? & _) _]. Qed.

Lemma elements_stay p : IsAbs p = true -> Forall stays (elements p).
Proof.
  intros Ha. pose proof (elements_proper p) as H1. pose proof (elements_rooted p Ha) as H2.
  rewrite list.Forall_forall in H1, H2 |- *. intros x Hx. split; [by apply H1|by apply H2].
Qed.

Lemma IsAbs_slash s : IsAbs ("/" +:+ s) = true.
Proof. by destruct s. Qed.

Lemma IsAbs_app a b : IsAbs a = true -> IsAbs (a +:+ b) = true.
Proof.
  destruct a as [|c a]; [done|]. rewrite string_app_cons. unfold IsAbs, HasPrefix. cbn [String.prefix].
  destruct (ascii_dec "/" c); [intros _; by destruct (a +:+ b)|done].
Qed.

(** The elements of [p/l], for a path [p] and elements [l]. *)
Lemma elements_rooted_join l : Forall stays l -> elements ("/" +:+ Join l "/") = l.
Proof.
  intros Hl. unfold elements. rewrite IsAbs_slash.
  change ("/" +:+ Join l "/") with ("" +:+ "/" +:+ Join l "/"). rewrite split_slash_app. rewrite foldl_app. change (foldl (clean_elem true) [] (split_slash "" "")) with (@nil string).
  destruct l as [|x l]; [done|]. rewrite split_slash_Join by (done || by apply stays_no_slash). rewrite clean_foldl_stays by done. by rewrite app_nil_r, reverse_involutive.
Qed.

Lemma Clean_join l : Forall stays l -> Clean ("/" +:+ Join l "/") = "/" +:+ Join l "/".
Proof. intros Hl. rewrite Clean_rooted by apply IsAbs_slash. by rewrite elements_rooted_join. Qed.

Lemma split_Clean p : IsAbs p = true -> ".." ∉ split_slash "" (Clean p).
Proof.
  intros Ha. rewrite Clean_rooted by done. change ("/" +:+ Join (elements p) "/") with ("" +:+ "/" +:+ Join (elements p) "/"). rewrite split_slash_app.
  intros [Hin|Hin]%elem_of_app; [by apply list_elem_of_singleton in Hin|]. pose proof (elements_stay p Ha) as Hs.
  destruct (elements p) as [|x l]; [by apply list_elem_of_singleton in Hin|]. rewrite split_slash_Join in Hin by (done || by apply stays_no_slash).
  rewrite list.Forall_forall in Hs. by destruct (Hs _ Hin).
Qed.

Lemma PathJoin_abs lib l :
  IsAbs lib = true -> Forall stays l -> l <> [] -> PathJoin [lib; Join l "/"] = "/" +:+ Join (elements lib ++ l) "/".
Proof.
  intros Ha Hl Hne. assert (Hlib : lib <> "") by (by intros ->).
  assert (Hp : Join l "/" <> "") by (intros E; pose proof (split_slash_Join l Hne (stays_no_slash l Hl)) as Hs; rewrite E in Hs; simpl in Hs; subst l; inversion Hl as [|? ? [(_ & ? & _) _]]; done).
  unfold PathJoin. simpl. rewrite (proj2 (String.eqb_neq _ _) Hlib), (proj2 (String.eqb_neq _ _) Hp). simpl.
  rewrite Clean_rooted by (by apply IsAbs_app). f_equal. f_equal. unfold elements at 1.
  rewrite IsAbs_app by done.
  rewrite split_slash_app, foldl_app, split_slash_Join by (done || by apply stays_no_slash). rewrite clean_foldl_stays by done.
  rewrite reverse_app, reverse_involutive. unfold elements. by rewrite Ha.
Qed.

Lemma strip_common_app l m : strip_common l (l ++ m) = ([], m).
Proof. induction l as [|x l IH]; [by destruct m|]. simpl. by rewrite String.eqb_refl. Qed.

Lemma Rel_inside lib l :
  IsAbs lib = true -> Forall stays l -> l <> [] -> Rel (Clean lib) ("/" +:+ Join (elements lib ++ l) "/") = Some (Join l "/").
Proof.
  intros Ha Hl Hne. pose proof (elements_stay lib Ha) as Hs. assert (Hall : Forall stays (elements lib ++ l)) by (by apply Forall_app).
  unfold Rel. rewrite (Clean_rooted lib Ha), !Clean_join, !elements_rooted_join by done.
  destruct (String.eqb_spec ("/" +:+ Join (elements lib) "/") ("/" +:+ Join (elements lib ++ l) "/")) as [E|_].
  - exfalso. pose proof (elements_rooted_join _ Hs) as E1. rewrite E, elements_rooted_join in E1 by done. apply (f_equal length) in E1. rewrite length_app in E1. destruct l; simpl in E1; [done|lia].
  - rewrite !IsAbs_slash. simpl. by rewrite strip_common_app.
Qed.

(** ** Relative paths *)

(** A path from its elements; the root of a library is ["."]. *)
Definition path_str (segs : list string) : string := match segs with [] => "." | _ => Join segs "/" end.

Lemma stays_app segs t : Forall stays (segs ++ t) <-> Forall stays segs /\ Forall stays t.
Proof. apply Forall_app. Qed.

Lemma split_path_str segs : Forall stays segs -> split_slash "" (path_str segs) = match segs with [] => ["."] | _ => segs end.
Proof. destruct segs as [|x segs]; [done|]. intros H. apply split_slash_Join; [done|by apply stays_no_slash]. Qed.

Lemma path_str_inj segs segs' : Forall stays segs -> Forall stays segs' -> path_str segs = path_str segs' -> segs = segs'.
Proof.
  intros H H' E. apply (f_equal (split_slash "")) in E. rewrite !split_path_str in E by done.
  destruct segs as [|x l], segs' as [|x' l']; try done; simplify_eq.
  - inversion H' as [|? ? [(_ & _ & ?) _]]; done.
  - inversion H as [|? ? [(_ & _ & ?) _]]; done.
Qed.

Lemma path_str_relative segs : Forall stays segs -> IsAbs (path_str segs) = false.
Proof.
  destruct segs as [|x l]; [done|]. intros H. inversion H as [|? ? [(Hs & Hne & _) _] _]; subst.
  destruct x as [|c x]; [done|]. simpl in Hs. apply andb_prop in Hs as [Hc _].
  assert (Hj : exists r, Join (String c x :: l) "/" = String c r) by (destruct l; simpl; eauto).
  destruct Hj as [r Hr]. unfold path_str, IsAbs, HasPrefix. rewrite Hr. cbn [String.prefix].
  destruct (ascii_dec "/" c) as [<-|]; [done|done].
Qed.

Lemma path_str_nonempty segs : Forall stays segs -> path_str segs <> "".
Proof.
  intros H E. pose proof (split_path_str segs H) as Hs. rewrite E in Hs. destruct segs as [|x l]; simpl in Hs; [done|]. simplify_eq.
  inversion H as [|? ? [(_ & ? & _) _]]; done.
Qed.

(** [Clean] of a relative path made of elements that stay, with dots between them. *)
Lemma Clean_relative p segs :
  IsAbs p = false -> Forall stays segs -> foldl (clean_elem false) [] (split_slash "" p) = reverse segs -> Clean p = path_str segs.
Proof.
  intros Ha H E. unfold Clean. change (HasPrefix p "/") with (IsAbs p). rewrite Ha, E, reverse_involutive.
  destruct segs as [|x l]; [done|]. pose proof (path_str_nonempty _ H) as Hne. unfold path_str in *.
  by rewrite (proj2 (String.eqb_neq _ _) Hne).
Qed.

Lemma Clean_path_str segs : Forall stays segs -> Clean (path_str segs) = path_str segs.
Proof.
  intros H. apply Clean_relative; [by apply path_str_relative|done|]. rewrite split_path_str by done.
  destruct segs as [|x l]; [done|]. rewrite clean_foldl_stays by done. by rewrite app_nil_r.
Qed.

Lemma PathJoin_path_str segs x : Forall stays segs -> stays x -> PathJoin [path_str segs; x] = path_str (segs ++ [x]).
Proof.
  intros H Hx. assert (H' : Forall stays (segs ++ [x])) by (apply Forall_app; split; [done|by constructor]).
  pose proof (path_str_nonempty segs H) as Hne. assert (Hxe : x <> "") by (by destruct Hx as [(_ & ? & _) _]).
  unfold PathJoin. simpl. rewrite (proj2 (String.eqb_neq _ _) Hne), (proj2 (String.eqb_neq _ _) Hxe). cbn [Join negb].
  apply Clean_relative; [|done|].
  - pose proof (path_str_relative segs H) as Hr. destruct (path_str segs) as [|c p]; [done|]. rewrite string_app_cons. revert Hr.
    unfold IsAbs, HasPrefix. cbn [String.prefix]. destruct (ascii_dec "/" c); [|done]. by destruct p.
  - rewrite split_slash_app, foldl_app, split_path_str by done.
    assert (Hd : foldl (clean_elem false) [] match segs with [] => ["."] | _ => segs end = reverse segs)
      by (destruct segs; [done|]; rewrite clean_foldl_stays by done; by rewrite app_nil_r).
    rewrite Hd. change (split_slash "" x) with (split_slash "" (Join [x] "/")).
    rewrite split_slash_Join by (done || by repeat constructor; destruct Hx as [(? & _) _]). rewrite clean_foldl_stays by (by constructor).
    by rewrite reverse_app.
Qed.
