(* ===== verification/PlaylistImportFacts.v ===== *)
(** * What importing a playlist file guarantees

    A playlist that was exported is imported with the same tracks in the same
    order, and an image of a playlist file lies inside a library. *)

From Stdlib Require Import Ascii String.
From stdpp Require Import sorting pretty.
From S2P Require Import Prelude GoStrings GoText Model KVStore KVStoreFacts PlaylistImport PathFacts.

Local Open Scope Z_scope.

(** ** Numbers *)

Lemma digit_char (x : N) : (x < 10)%N -> digit (pretty_N_char x) = Some (Z.of_N x).
Proof.
  intros Hx. assert (Hc : (x = 0 \/ x = 1 \/ x = 2 \/ x = 3 \/ x = 4 \/ x = 5 \/ x = 6 \/ x = 7 \/ x = 8 \/ x = 9)%N) by lia.
  repeat destruct Hc as [->|Hc]; try reflexivity. by subst.
Qed.

Lemma digits_value_pretty x s : digits_value 0 (pretty_N_go x s) = digits_value (Z.of_N x) s.
Proof.
  revert s. induction (N.lt_wf_0 x) as [x _ IH]. intros s. destruct (decide (x = 0)%N) as [->|Hx]; [by rewrite pretty_N_go_0|].
  rewrite pretty_N_go_step by lia. rewrite IH by (apply N.div_lt; lia). simpl.
  rewrite digit_char by (apply N.mod_lt; lia). f_equal. pose proof (N.div_mod x 10). lia.
Qed.

Lemma digits_value_Itoa n : 0 <= n -> digits_value 0 (Itoa n) = Some n /\ Itoa n <> "".
Proof.
  intros Hn. destruct n as [|p|p]; [by split|..|lia]. unfold Itoa. change (pretty (Z.pos p)) with (pretty_N_go (N.pos p) "").
  rewrite digits_value_pretty. split; [done|]. intros E. pose proof (digits_value_pretty (N.pos p) "") as Hd. by rewrite E in Hd.
Qed.

Lemma digit_colon c : digit c <> None -> c <> ":"%char /\ c <> "-"%char /\ c <> "+"%char.
Proof. intros Hd. split_and!; intros ->; by apply Hd. Qed.

Lemma cut_colon_digits acc i v rest : digits_value acc i = Some v -> cut_colon (i +:+ ":" +:+ rest) = Some (i, rest).
Proof.
  revert acc. induction i as [|c i IH]; intros acc Hv; [done|]. rewrite string_app_cons. simpl in Hv |- *. destruct (digit c) eqn:Ed; [|done].
  destruct (Ascii.eqb_spec c ":") as [->|]; [done|]. by rewrite (IH _ Hv).
Qed.

Lemma Atoi_unsigned c s :
  c <> "-"%char -> c <> "+"%char ->
  Atoi (String c s) = match unsigned_value (String c s) with Some z => if in_intb z then Some z else None | None => None end.
Proof. intros Hm Hp. destruct c as [[] [] [] [] [] [] [] []]; try reflexivity; by destruct Hm || destruct Hp. Qed.

Lemma Atoi_Itoa n : 0 <= n <= int_max -> Atoi (Itoa n) = Some n.
Proof.
  intros Hn. destruct (digits_value_Itoa n) as [Hd Hne]; [lia|]. destruct (Itoa n) as [|c s] eqn:E; [done|].
  assert (Hc : digit c <> None) by (intros Hc; simpl in Hd; by rewrite Hc in Hd). apply digit_colon in Hc as (_ & Hm & Hp).
  rewrite Atoi_unsigned by done. change (unsigned_value (String c s)) with (digits_value 0 (String c s)). rewrite Hd.
  assert (in_intb n = true) as -> by (apply in_intb_spec; unfold in_int, int_min; lia). done.
Qed.

(** ** Lines *)

Lemma scan_line_newline line rest : one_line line = true -> scan_line (line +:+ newline +:+ rest) = (line, Some rest).
Proof.
  induction line as [|c line IH]; intros Hl; [done|]. rewrite string_app_cons. simpl in Hl |- *. apply andb_prop in Hl as [Hc Hl]. apply andb_prop in Hc as [H1 H2].
  apply negb_true_iff in H1, H2. rewrite H1, H2, IH by done. done.
Qed.

(** The text of some lines. *)
Fixpoint text (lines : list string) : string := match lines with [] => "" | line :: lines => line +:+ newline +:+ text lines end.

Lemma lines_loop_text lines fuel :
  Forall (fun line => one_line line = true /\ Z.of_nat (String.length line) < MaxScanTokenSize) lines -> (length lines <= fuel)%nat ->
  lines_loop fuel (text lines) = lines.
Proof.
  intros Hl. revert fuel. induction Hl as [|line lines [H1 H2] Hl IH]; intros fuel Hf; [by destruct fuel|]. simpl in Hf. destruct fuel as [|fuel]; [lia|].
  cbn [lines_loop text]. replace (String.eqb (line +:+ newline +:+ text lines) "") with false by (by destruct line).
  rewrite scan_line_newline by done. replace (MaxScanTokenSize <=? _) with false by lia. f_equal. apply IH. lia.
Qed.

Lemma text_length lines : (length lines <= String.length (text lines))%nat.
Proof. induction lines as [|line lines IH]; [simpl; lia|]. cbn [text]. rewrite !string_length_app. simpl. lia. Qed.

Lemma LinesFrom_text lines :
  Forall (fun line => one_line line = true /\ Z.of_nat (String.length line) < MaxScanTokenSize) lines -> LinesFrom (text lines) = lines.
Proof. intros Hl. apply lines_loop_text; [done|apply text_length]. Qed.

(** ** Images *)

Lemma IsAbs_Clean p : IsAbs (Clean p) = IsAbs p.
Proof.
  destruct (IsAbs p) eqn:Ha; [by rewrite Clean_rooted, IsAbs_slash|]. pose proof (elements_proper p) as Hp. unfold Clean. change (HasPrefix p "/") with (IsAbs p).
  rewrite Ha. unfold elements in Hp. rewrite Ha in Hp. destruct (reverse _) as [|x l]; [done|]. inversion Hp as [|? ? (Hns & Hne & _) _]; subst.
  destruct x as [|c x]; [done|]. simpl in Hns. apply andb_prop in Hns as [Hc _]. apply negb_true_iff, Ascii.eqb_neq in Hc.
  assert (Hj : exists s, Join (String c x :: l) "/" = String c s) by (destruct l; simpl; eauto). destruct Hj as [s ->]. simpl.
  unfold IsAbs, HasPrefix. cbn [String.prefix]. destruct (ascii_dec "/" c); [congruence|done].
Qed.

Lemma FindLibrary_Some libs p lib :
  FindLibrary (NewLibraryMatcher libs) p = Some lib -> lib ∈ libs /\ in_library p (Clean (lib_Path lib)) = true.
Proof.
  unfold FindLibrary. destruct (List.find _ _) as [[l c]|] eqn:E; [|done]. intros [= <-]. apply find_some in E as [Hin Hp]. simpl in *.
  apply list_elem_of_In in Hin. unfold NewLibraryMatcher in Hin. apply list_elem_of_fmap in Hin as (x & [= -> ->] & Hx).
  split; [|done]. by rewrite merge_sort_Permutation in Hx.
Qed.

Section facts.
Context `{ImportEnv}.

Lemma resolveLocalPath_clean value folder p : resolveLocalPath value folder = Some p -> exists q, p = Clean q.
Proof.
  unfold resolveLocalPath. destruct (CutPrefix value "file://") as [after|].
  - destruct (PathUnescape after); intros [= <-]. by eexists.
  - destruct (IsAbs value); [intros [= <-]; by eexists|]. destruct folder; [|done]. intros [= <-]. by eexists.
Qed.

(** The image a playlist file names is an address on the web, when those are allowed, or a picture inside one of the libraries,
    free of [..], whatever the file says; and for a playlist that does not come from a library folder, inside one its owner may use. *)
Theorem image_inside_library libs value folder owner u :
  resolveImageURL value folder (NewLibraryMatcher libs) owner = u -> u <> "" ->
  EnableM3UExternalAlbumArt = true /\ (HasPrefix u "http://" || HasPrefix u "https://") = true \/
  exists lib, lib ∈ libs /\ in_library u (Clean (lib_Path lib)) = true /\ IsImageFile u = true /\
    (folder = None -> HasLibraryAccess owner (lib_ID lib) = true) /\ (IsAbs u = true -> ".." ∉ split_slash "" u).
Proof.
  unfold resolveImageURL. set (v := TrimSpace value). destruct (String.eqb v ""); [done|].
  destruct (HasPrefix v "http://" || HasPrefix v "https://") eqn:Eh; [destruct EnableM3UExternalAlbumArt; [intros <- _; by left|done]|].
  destruct (resolveLocalPath v folder) as [p|] eqn:Ep; [|done]. destruct (IsImageFile p) eqn:Ei; [|done]. simpl.
  destruct (FindLibrary _ p) as [lib|] eqn:El; [|done]. apply FindLibrary_Some in El as [Hin Hil]. apply resolveLocalPath_clean in Ep as [q ->].
  intros Hu Hne. right. exists lib.
  assert (Hacc : u = Clean q /\ (folder = None -> HasLibraryAccess owner (lib_ID lib) = true)) by (destruct folder; [done|]; destruct (HasLibraryAccess owner (lib_ID lib)); done).
  destruct Hacc as [-> Hacc]. split_and!; try done. intros Ha. apply split_Clean. by rewrite IsAbs_Clean in Ha.
Qed.

(** ** Round trip *)

(** Documented behaviour of Unicode normalisation and case: digits and the colon
    stay as they are in front of a path; a query returns every row once. *)
Class ImportLaws := {
  NFC_qualified n s : 0 <= n -> NFC (qualified n s) = qualified n (NFC s);
  NFD_qualified n s : 0 <= n -> NFD (qualified n s) = qualified n (NFD s);
  Lower_qualified n s : 0 <= n -> Lower (qualified n s) = qualified n (Lower s);
  query_perm l : query_order l ≡ₚ l }.
Context `{!ImportLaws}.

Definition short_line (s : string) : Prop := one_line s = true /\ Z.of_nat (String.length s) < MaxScanTokenSize.

(** A track that can be written and read back: its library is the one its path lies in, its path is clean and normalised, its lines
    are lines, and the database has it. *)
Record exportable (lm : LibraryMatcher) (files : list MediaFile) (t : MediaFile) : Prop := {
  ex_abs : IsAbs (mf_LibraryPath t) = true;
  ex_path : exists l, l <> [] /\ Forall stays l /\ mf_Path t = Join l "/";
  ex_library : exists lib, FindLibrary lm (AbsolutePath t) = Some lib /\ lib_ID lib = mf_LibraryID t /\ lib_Path lib = mf_LibraryPath t;
  ex_id : 0 <= mf_LibraryID t <= int_max;
  ex_normal : NFC (mf_Path t) = mf_Path t \/ NFD (mf_Path t) = mf_Path t;
  ex_line : short_line (AbsolutePath t) /\ TrimSpace (AbsolutePath t) = AbsolutePath t /\ IsAudioFile (AbsolutePath t) = true;
  ex_info : short_line (extinf t);
  ex_row : exists f, f ∈ files /\ mf_ID f = mf_ID t /\ mf_LibraryID f = mf_LibraryID t /\ mf_Path f = mf_Path t }.

Lemma AbsolutePath_elements lm files t :
  exportable lm files t -> exists l, l <> [] /\ Forall stays l /\ mf_Path t = Join l "/" /\ AbsolutePath t = "/" +:+ Join (elements (mf_LibraryPath t) ++ l) "/".
Proof.
  intros He. destruct (ex_path _ _ _ He) as (l & Hne & Hl & Ep). exists l. split_and!; try done. unfold AbsolutePath. rewrite Ep. apply PathJoin_abs; [apply He|done|done].
Qed.

Lemma resolve_exportable lm files t :
  exportable lm files t -> (r ← resolvePath lm (AbsolutePath t) None; ToQualifiedString r) = Some (qualified (mf_LibraryID t) (mf_Path t)).
Proof.
  intros He. destruct (AbsolutePath_elements lm files t He) as (l & Hne & Hl & Ep & Ea). destruct (ex_library _ _ _ He) as (lib & Hf & Hid & Hlp).
  pose proof (ex_abs _ _ _ He) as Hab. assert (Hall : Forall stays (elements (mf_LibraryPath t) ++ l)) by (apply Forall_app; split; [by apply elements_stay|done]).
  unfold resolvePath. rewrite Ea in *. rewrite Clean_join by done. rewrite Hf. simpl. rewrite Hlp, Hid, Rel_inside by done. simpl. by rewrite Ep.
Qed.

(** *** The lookup *)

Lemma add_candidate_mono l x y : y ∈ l -> y ∈ add_candidate l x.
Proof. intros Hy. unfold add_candidate. case_bool_decide; [done|]. apply elem_of_app. by left. Qed.

Lemma add_candidate_in l x : x ∈ add_candidate l x.
Proof. unfold add_candidate. case_bool_decide; [done|]. apply elem_of_app. right. by left. Qed.

Lemma lookupCandidates_in paths q : q ∈ paths -> NFC q ∈ lookupCandidates paths /\ NFD q ∈ lookupCandidates paths.
Proof.
  unfold lookupCandidates. set (f := fun l path => _).
  assert (Hmono : forall l path x, x ∈ l -> x ∈ f l path) by (intros; unfold f; simpl; by repeat apply add_candidate_mono).
  assert (Hmono' : forall paths l x, x ∈ l -> x ∈ foldl f l paths) by (intros ps; induction ps; intros; simpl; auto).
  generalize (@nil string) as l. induction paths as [|p paths IH]; intros l Hq; [by apply not_elem_of_nil in Hq|]. simpl.
  apply elem_of_cons in Hq as [<-|Hq]; [|by apply IH].
  split; apply Hmono'; unfold f; simpl; [do 3 apply add_candidate_mono|do 2 apply add_candidate_mono]; apply add_candidate_in.
Qed.

Lemma finds_qualified n path f : 0 <= n <= int_max -> mf_LibraryID f = n -> mf_Path f = path -> finds (qualified n path) f = true.
Proof.
  intros Hn <- <-. unfold finds, qualified. destruct (digits_value_Itoa (mf_LibraryID f)) as [Hd _]; [lia|]. rewrite (cut_colon_digits _ _ _ _ Hd).
  rewrite Atoi_Itoa by done. rewrite Z.eqb_refl, EqualFold_refl. apply orb_true_r.
Qed.

Lemma existing_lookup found f : f ∈ found -> exists g, existing found !! file_key f = Some g /\ g ∈ found /\ file_key g = file_key f.
Proof.
  unfold existing. set (step := fun m mf => <[file_key mf := mf]> m).
  assert (Hg : forall l (m : gmap string MediaFile) k, k ∈ file_key <$> l \/ is_Some (m !! k) ->
    exists g, foldl step m l !! k = Some g /\ (g ∈ l /\ file_key g = k \/ m !! k = Some g)).
  { induction l as [|x l IH]; intros m k Hk; simpl; [destruct Hk as [Hk|[g Hk]]; [by apply not_elem_of_nil in Hk|by exists g; split; [|right]]|].
    destruct (IH (step m x) k) as (g & Hg & Hcase).
    { unfold step. destruct (decide (file_key x = k)) as [<-|Hne]; [right; rewrite lookup_insert_eq; by eexists|].
      rewrite lookup_insert_ne by done. destruct Hk as [Hk|Hk]; [|by right]. apply elem_of_cons in Hk as [->|Hk]; [done|by left]. }
    exists g. split; [done|]. destruct Hcase as [[Hin E]|E]; [left; split; [by right|done]|].
    unfold step in E. destruct (decide (file_key x = k)) as [<-|Hne]; [rewrite lookup_insert_eq in E; injection E as <-; left; split; [by left|done]|].
    rewrite lookup_insert_ne in E by done. by right. }
  intros Hf. destruct (Hg found ∅ (file_key f)) as (g & Hl & [[Hin E]|E]); [left; by apply list_elem_of_fmap_2|by exists g|by rewrite lookup_empty in E].
Qed.

(** *** Lines and what they stand for *)

Inductive item := Skipped (s : string) | Title (s : string) | Track (t : MediaFile).
Definition line_of (i : item) : string := match i with Skipped s => s | Title s => "#PLAYLIST:" +:+ s | Track t => AbsolutePath t end.
Definition tracks_of (l : list item) : list MediaFile := omap (fun i => match i with Track t => Some t | _ => None end) l.
Definition titled (l : list item) (name : string) : string := foldl (fun name i => match i with Title s => s | _ => name end) name l.

Definition item_ok (lm : LibraryMatcher) (files : list MediaFile) (i : item) : Prop :=
  match i with
  | Skipped s => s = "#EXTM3U" \/ exists t, s = extinf t
  | Title s => TrimRight s = s
  | Track t => exportable lm files t
  end.

Lemma TrimRight_keep c s : is_space c = false -> TrimRight (String c s) = String c (TrimRight s).
Proof. intros Hc. simpl. rewrite Hc. by destruct (TrimRight s). Qed.

Lemma TrimSpace_info t : exists r, TrimSpace (extinf t) = "#EXTINF:" +:+ r.
Proof.
  unfold extinf. set (r := show_duration _ +:+ _). exists (TrimRight r). unfold TrimSpace. change (TrimLeft ("#EXTINF:" +:+ r)) with ("#EXTINF:" +:+ r).
  rewrite !string_app_cons, !string_app_nil_l. by rewrite !TrimRight_keep by done.
Qed.

Lemma TrimSpace_title s : TrimSpace ("#PLAYLIST:" +:+ s) = "#PLAYLIST:" +:+ TrimRight s.
Proof.
  unfold TrimSpace. change (TrimLeft ("#PLAYLIST:" +:+ s)) with ("#PLAYLIST:" +:+ s).
  rewrite !string_app_cons, !string_app_nil_l. by rewrite !TrimRight_keep by done.
Qed.

Lemma CutPrefix_app pre s : CutPrefix (pre +:+ s) pre = Some s.
Proof. induction pre as [|c pre IH]; [by destruct s|]. rewrite string_app_cons. simpl. by rewrite Ascii.eqb_refl. Qed.

Lemma read_item lm files owner i p :
  item_ok lm files i ->
  read_line lm None owner (line_of i) p =
    (match i with Title s => mkParsing s (g_Image p) (g_tracks p) | _ => p end, match i with Track t => Some (AbsolutePath t) | _ => None end).
Proof.
  destruct i as [s|s|t]; intros Hi; simpl in Hi; unfold read_line; simpl line_of.
  - destruct Hi as [->|[t ->]]; [done|]. destruct (TrimSpace_info t) as [r ->]. by destruct r.
  - by rewrite TrimSpace_title, Hi, CutPrefix_app.
  - destruct (ex_line _ _ _ Hi) as (_ & Ht & Ha). rewrite Ht. destruct (AbsolutePath_elements lm files t Hi) as (l & _ & _ & _ & Ea). clear Ht. revert Ha.
    rewrite Ea. generalize (Join (elements (mf_LibraryPath t) ++ l) "/") as r. intros r Ha. rewrite string_app_cons, string_app_nil_l in *.
    cbv iota beta zeta delta [CutPrefix HasPrefix]. simpl. by rewrite Ha.
Qed.

Lemma read_items lm files owner l p :
  Forall (item_ok lm files) l ->
  read_lines lm None owner (line_of <$> l) p = (mkParsing (titled l (g_Name p)) (g_Image p) (g_tracks p), AbsolutePath <$> tracks_of l).
Proof.
  intros Hl. revert p. induction Hl as [|i l Hi Hl IH]; intros p; [by destruct p|]. rewrite fmap_cons. cbn [read_lines].
  rewrite (read_item lm files) by done. rewrite IH. by destruct i, p.
Qed.

Lemma tracks_exportable lm files l t : Forall (item_ok lm files) l -> t ∈ tracks_of l -> exportable lm files t.
Proof.
  intros Hl Ht. unfold tracks_of in Ht. apply list_elem_of_omap in Ht as (i & Hi & E). rewrite list.Forall_forall in Hl. specialize (Hl i Hi). by destruct i; simplify_eq.
Qed.

Lemma resolve_tracks lm files ts :
  (forall t, t ∈ ts -> exportable lm files t) -> resolvePaths lm None (AbsolutePath <$> ts) = (fun t => qualified (mf_LibraryID t) (mf_Path t)) <$> ts.
Proof.
  induction ts as [|t ts IH]; intros Ht; [done|]. unfold resolvePaths in *. rewrite !fmap_cons. cbn [omap list_omap].
  rewrite (resolve_exportable lm files t) by (apply Ht; by left). f_equal. apply IH. intros; apply Ht; by right.
Qed.

(** *** Chunks *)

Context (lm : LibraryMatcher) (files : list MediaFile) (owner : Owner).
Hypothesis unique_keys : forall f g, f ∈ files -> g ∈ files -> file_key f = file_key g -> f = g.

Lemma found_track ts t found :
  (forall t, t ∈ ts -> exportable lm files t) -> t ∈ ts ->
  FindByPaths files None (lookupCandidates ((fun t => qualified (mf_LibraryID t) (mf_Path t)) <$> ts)) = Ok found ->
  exists g, existing found !! Lower (NFC (qualified (mf_LibraryID t) (mf_Path t))) = Some g /\ mf_ID g = mf_ID t.
Proof using Type*.
  intros Hts Ht Hf. pose proof (Hts t Ht) as He. destruct (ex_row _ _ _ He) as (f & Hin & Hid & Hlib & Hpath).
  set (q := qualified (mf_LibraryID t) (mf_Path t)) in *.
  assert (Hq : q ∈ (fun t => qualified (mf_LibraryID t) (mf_Path t)) <$> ts) by (by apply (list_elem_of_fmap_2 (fun t => qualified (mf_LibraryID t) (mf_Path t)))).
  destruct (lookupCandidates_in _ q Hq) as [Hc Hd].
  assert (Hex : existsb (fun c => finds c f) (lookupCandidates ((fun t => qualified (mf_LibraryID t) (mf_Path t)) <$> ts)) = true).
  { apply existsb_exists. destruct (ex_normal _ _ _ He) as [En|En]; [exists (NFC q)|exists (NFD q)]; (split; [by apply list_elem_of_In|]);
      unfold q; rewrite ?NFC_qualified, ?NFD_qualified, En by apply He; apply finds_qualified; try done; apply He. }
  assert (Hff : f ∈ found).
  { unfold FindByPaths in Hf. destruct (lookupCandidates _) as [|c cs]; [done|]. injection Hf as <-. rewrite query_perm. apply list_elem_of_In, List.filter_In. split; [by apply list_elem_of_In|done]. }
  assert (Hsub : forall g, g ∈ found -> g ∈ files).
  { intros g Hg. unfold FindByPaths in Hf. destruct (lookupCandidates _) as [|c cs]; injection Hf as <-; [by apply not_elem_of_nil in Hg|].
    rewrite query_perm in Hg. apply list_elem_of_In, List.filter_In in Hg as [Hg _]. by apply list_elem_of_In. }
  destruct (existing_lookup found f Hff) as (g & Hg & Hgf & Hk). exists g. split.
  - unfold q. rewrite NFC_qualified, Lower_qualified by apply He. rewrite <- Hg. unfold file_key. by rewrite Hlib, Hpath.
  - rewrite <- Hid. f_equal. apply unique_keys; auto.
Qed.

Lemma chunk_tracks l p :
  Forall (item_ok lm files) l ->
  exists ts, parse_chunk lm None owner files None (line_of <$> l) p = mkParsing (titled l (g_Name p)) (g_Image p) (g_tracks p ++ ts) /\
    mf_ID <$> ts = mf_ID <$> tracks_of l.
Proof using Type*.
  intros Hl. unfold parse_chunk. rewrite (read_items lm files) by done.
  pose proof (tracks_exportable lm files l) as Hts. specialize (fun t => Hts t Hl). rewrite (resolve_tracks lm files) by done.
  generalize dependent (tracks_of l). intros ts Hts.
  destruct (FindByPaths files None _) as [found|e] eqn:Ef; [|unfold FindByPaths in Ef; by destruct (lookupCandidates _)].
  eexists. split; [reflexivity|]. assert (Hall : forall t, t ∈ ts -> exists g, existing found !! Lower (NFC (qualified (mf_LibraryID t) (mf_Path t))) = Some g /\ mf_ID g = mf_ID t)
    by (intros t Ht; by apply (found_track ts)). clear Ef Hts.
  induction ts as [|t ts IH]; [done|]. rewrite fmap_cons. cbn [omap list_omap]. destruct (Hall t) as (g & -> & Hid); [by left|].
  rewrite !fmap_cons, Hid. f_equal. apply IH. intros; apply Hall; by right.
Qed.

Lemma titled_app a b name : titled (a ++ b) name = titled b (titled a name).
Proof. apply foldl_app. Qed.

Lemma chunks_tracks chunks p :
  Forall (item_ok lm files) (concat chunks) ->
  exists ts, parse_chunks lm None owner files [] ((fun l : list item => line_of <$> l) <$> chunks) p = mkParsing (titled (concat chunks) (g_Name p)) (g_Image p) (g_tracks p ++ ts) /\
    mf_ID <$> ts = mf_ID <$> tracks_of (concat chunks).
Proof using Type*.
  revert p. induction chunks as [|l chunks IH]; intros p Hl; [exists []; destruct p; simpl; by rewrite app_nil_r|].
  cbn [concat] in *. apply Forall_app in Hl as [Hl Hc]. rewrite fmap_cons. cbn [parse_chunks]. destruct (chunk_tracks l p Hl) as (ts & E & Hts).
  change (mjoin (head [])) with (@None string). change (tail []) with (@nil (option string)). rewrite E. destruct (IH (mkParsing (titled l (g_Name p)) (g_Image p) (g_tracks p ++ ts)) Hc) as (ts' & E' & Hts').
  exists (ts ++ ts'). rewrite E'. simpl. rewrite titled_app, app_assoc. split; [done|].
  unfold tracks_of in *. rewrite omap_app, !fmap_app. by rewrite Hts, Hts'.
Qed.

(** *** The text *)

Lemma CollectChunks_fmap {A B} (f : A -> B) n (acc it : list A) :
  CollectChunks n (f <$> acc) (f <$> it) = (fun l : list A => f <$> l) <$> CollectChunks n acc it.
Proof.
  revert acc. induction it as [|x it IH]; intros acc; [by destruct acc|]. rewrite fmap_cons. cbn [CollectChunks]. rewrite !length_app, length_fmap. simpl.
  change [f x] with (f <$> [x]). rewrite <- fmap_app. destruct (n <=? _)%nat; [|by apply IH]. rewrite fmap_cons. f_equal. apply (IH []).
Qed.

Definition items (title : string) (mfs : list MediaFile) : list item :=
  Skipped "#EXTM3U" :: Title title :: concat ((fun t => [Skipped (extinf t); Track t]) <$> mfs).

Lemma tracks_text (mfs : list MediaFile) :
  String.concat "" ((fun t => extinf t +:+ newline +:+ (AbsolutePath t +:+ newline)) <$> mfs) =
  text (line_of <$> concat ((fun t => [Skipped (extinf t); Track t]) <$> mfs)).
Proof.
  induction mfs as [|t mfs IH]; [done|]. rewrite !fmap_cons, string_concat_cons. cbn [concat app]. rewrite !fmap_cons. cbn [text line_of].
  rewrite !string_app_assoc. by rewrite IH.
Qed.

Lemma ToM3U8_text title mfs : ToM3U8 title true mfs = text (line_of <$> items title mfs).
Proof. unfold ToM3U8, items. rewrite !fmap_cons. cbn [text line_of]. rewrite tracks_text. by rewrite !string_app_assoc. Qed.

Lemma tracks_items title mfs : tracks_of (items title mfs) = mfs.
Proof.
  unfold items. change (tracks_of _) with (tracks_of (concat ((fun t => [Skipped (extinf t); Track t]) <$> mfs))).
  induction mfs as [|t mfs IH]; [done|]. rewrite fmap_cons. cbn [concat app]. unfold tracks_of in *. cbn [omap list_omap] in *. by rewrite IH.
Qed.

Lemma titled_items title mfs name : titled (items title mfs) name = title.
Proof.
  unfold items. change (titled _ name) with (titled (concat ((fun t => [Skipped (extinf t); Track t]) <$> mfs)) title).
  induction mfs as [|t mfs IH]; [done|]. rewrite fmap_cons. cbn [concat app]. exact IH.
Qed.

Lemma items_ok title mfs :
  TrimRight title = title -> short_line ("#PLAYLIST:" +:+ title) -> (forall t, t ∈ mfs -> exportable lm files t) ->
  Forall (item_ok lm files) (items title mfs) /\ Forall short_line (line_of <$> items title mfs).
Proof.
  intros Ht Hs He. unfold items. rewrite !fmap_cons. split; (constructor; [by left || (split; [done|vm_compute; reflexivity])|]; constructor; [done|]).
  - induction mfs as [|t mfs IH]; [constructor|]. rewrite fmap_cons. cbn [concat app]. constructor; [right; by exists t|]. constructor; [apply He; by left|]. apply IH. intros; apply He; by right.
  - induction mfs as [|t mfs IH]; [constructor|]. rewrite fmap_cons. cbn [concat app]. rewrite !fmap_cons. pose proof (He t ltac:(by left)) as Het.
    constructor; [apply Het|]. constructor; [apply Het|]. apply IH. intros; apply He; by right.
Qed.

End facts.


(** ** Examples *)

Lemma ToLower_app a b : ToLower (a +:+ b) = ToLower a +:+ ToLower b.
Proof. induction a as [|c a IH]; [done|]. rewrite string_app_cons. simpl. by rewrite IH, string_app_cons. Qed.

Lemma ToLower_digits acc s v : digits_value acc s = Some v -> ToLower s = s.
Proof.
  revert acc. induction s as [|c s IH]; intros acc; [done|]. simpl. destruct (digit c) eqn:Ed; [|done]. intros Hv. rewrite (IH _ Hv). f_equal.
  by destruct c as [[] [] [] [] [] [] [] []]; vm_compute in Ed |- *.
Qed.

#[local] Instance m3u_demo_env : ImportEnv := {|
  NFC s := s; NFD s := s; Lower := ToLower;
  TypeByExtension e := if String.eqb e ".mp3" then "audio/mpeg" else if String.eqb e ".png" then "image/png" else "";
  EnableM3UExternalAlbumArt := false; query_order l := l; now_title := "now"; show_duration _ := "0" |}.

#[local] Instance m3u_demo_laws : ImportLaws.
Proof.
  split; try done. intros n s Hn. simpl. unfold qualified. rewrite !ToLower_app. destruct (digits_value_Itoa n Hn) as [Hd _]. by rewrite (ToLower_digits _ _ _ Hd).
Qed.

Definition m3u_file (i path : string) : MediaFile :=
  mkMediaFile i "/music" path "Song" "mp3" 0 0 0 0 None 0 "" "" 0 1 "Artist" "" "" [] "" "" "" [] false 0 false.
Definition m3u_libs : list Library := [mkLibrary 1 "/music"].


Lemma image_inside_library_witness :
  exists lib, lib ∈ m3u_libs /\ in_library "/music/art/cover.png" (Clean (lib_Path lib)) = true.
Proof.
  destruct (image_inside_library m3u_libs " ../art/cover.png" (Some "/music/lists") (mkOwner false []) "/music/art/cover.png")
    as [[E _]|(lib & Hin & Hlib & _)]; [vm_compute; reflexivity|discriminate|discriminate E|by exists lib].
Defined.

(** A path that leaves the library names no image. *)
Example image_outside :
  resolveImageURL "../../etc/cover.png" (Some "/music/lists") (NewLibraryMatcher m3u_libs) (mkOwner true []) = "".
Proof. vm_compute. reflexivity. Qed.

(** Two files whose paths differ in case are one track to the import. *)
Example case_collision :
  match parseM3U (Ok m3u_libs) "" None (mkOwner true []) [m3u_file "1" "a.mp3"; m3u_file "2" "A.mp3"] []
    (ToM3U8 "Mix" true [m3u_file "1" "a.mp3"; m3u_file "2" "A.mp3"]) with
  | Ok p => mf_ID <$> g_tracks p = ["2"; "2"]
  | Err _ => False
  end.
Proof. vm_compute. reflexivity. Qed.

(** A line that does not fit the buffer of the scanner ends the playlist. *)
Theorem long_line_ends line rest :
  one_line line = true -> MaxScanTokenSize <= Z.of_nat (String.length line) -> LinesFrom (line +:+ newline +:+ rest) = [].
Proof.
  intros H1 H2. unfold LinesFrom. destruct (String.length (line +:+ newline +:+ rest)) as [|n]; [done|]. cbn [lines_loop].
  destruct (String.eqb _ ""); [done|]. rewrite scan_line_newline by done. by replace (MaxScanTokenSize <=? _) with true by lia.
Qed.
