(* ===== verification/GoJson.v ===== *)
(** * The JSON text of [encoding/json]

    [json.Marshal] for the values the server's events hold: booleans, integers,
    strings, lists of strings and maps from strings to them.  Strings are
    escaped byte by byte as the package does with HTML escaping on: quotes,
    backslashes, control characters, the characters that are special in HTML,
    the two Unicode line separators and bytes that are not UTF-8.  The lemmas
    say that no line break is left in any of them. *)

From S2P Require Import Prelude GoStrings.
From stdpp Require Import sorting.
From Stdlib Require Import Ascii String.

Local Open Scope nat_scope.

(** ** UTF-8 *)
Definition in_range (lo hi : nat) (c : ascii) : bool := (lo <=? nat_of_ascii c) && (nat_of_ascii c <=? hi).

(** The first bytes of [s] lie in the given ranges. *)
Fixpoint bytes_in (ranges : list (nat * nat)) (s : string) : bool :=
  match ranges with
  | [] => true
  | (lo, hi) :: ranges => match s with "" => false | String c s => in_range lo hi c && bytes_in ranges s end
  end.

Definition tail : nat * nat := (128, 191).

(** [utf8.DecodeRune] on a string that starts with the byte [c], at least 128,
    and goes on with [s]: how many bytes of [s] belong to its first rune, [None]
    when the encoding is not valid. *)
Definition rune_tail (c : ascii) (s : string) : option nat :=
  let ok ranges := if bytes_in ranges s then Some (List.length ranges) else None in
  if in_range 194 223 c then ok [tail]
  else if in_range 224 224 c then ok [(160, 191); tail]
  else if in_range 237 237 c then ok [(128, 159); tail]
  else if in_range 225 239 c then ok [tail; tail]
  else if in_range 240 240 c then ok [(144, 191); tail; tail]
  else if in_range 241 243 c then ok [tail; tail; tail]
  else if in_range 244 244 c then ok [(128, 143); tail; tail]
  else None.

(** ** Strings *)
Definition hex_digit (n : nat) : ascii := if n <? 10 then ascii_of_nat (48 + n) else ascii_of_nat (87 + n).
Definition quote : ascii := ascii_of_nat 34.
Definition backslash : ascii := ascii_of_nat 92.

(** [htmlSafeSet]. *)
Definition html_safe (c : ascii) : bool :=
  (32 <=? nat_of_ascii c) && negb (existsb (Ascii.eqb c) [quote; backslash; "<"%char; ">"%char; "&"%char]).

(** A byte below 128 in [appendString]. *)
Definition escape_ascii (c : ascii) : string :=
  if html_safe c then String c ""
  else if Ascii.eqb c quote || Ascii.eqb c backslash then String backslash (String c "")
  else match nat_of_ascii c with
       | 8 => String backslash "b"
       | 12 => String backslash "f"
       | 10 => String backslash "n"
       | 13 => String backslash "r"
       | 9 => String backslash "t"
       | n => String backslash ("u00" +:+ String (hex_digit (n / 16)) (String (hex_digit (n mod 16)) ""))
       end.

(** The loop of [appendString]; the first [n] bytes are the rest of a rune that
    is copied when [keep] and was escaped otherwise. *)
Fixpoint escape (keep : bool) (n : nat) (s : string) : string :=
  match s, n with
  | "", _ => ""
  | String c r, S n => if keep then String c (escape keep n r) else escape keep n r
  | String c r, O =>
      if nat_of_ascii c <? 128 then escape_ascii c +:+ escape true O r
      else match rune_tail c r with
           | None => String backslash "ufffd" +:+ escape true O r
           | Some n =>
               if in_range 226 226 c && bytes_in [(128, 128); (168, 168)] r then String backslash "u2028" +:+ escape false n r
               else if in_range 226 226 c && bytes_in [(128, 128); (169, 169)] r then String backslash "u2029" +:+ escape false n r
               else String c (escape true n r)
           end
  end.

Definition json_string (s : string) : string := String quote (escape true O s +:+ String quote "").

(** ** Other values *)
Definition json_bool (b : bool) : string := if b then "true" else "false".
Definition json_int (z : Z) : string := Itoa z.
Definition json_list (l : list string) : string := "[" +:+ GoStrings.Join (json_string <$> l) "," +:+ "]".
Definition json_object (l : list (string * string)) : string :=
  "{" +:+ GoStrings.Join ((fun kv => json_string kv.1 +:+ ":" +:+ kv.2) <$> l) "," +:+ "}".

(** A map is written in the order of its keys. *)
Definition json_key_le {A} (a b : string * A) : Prop := String.leb a.1 b.1 = true.
#[export] Instance json_key_le_dec {A} (a b : string * A) : Decision (json_key_le a b) := decide (String.leb a.1 b.1 = true).
Definition json_map (m : gmap string (list string)) : string :=
  json_object (prod_map id json_list <$> merge_sort json_key_le (map_to_list m)).

(** ** Text on one line *)

Lemma one_line_Join l sep : Forall (fun x => one_line x = true) l -> one_line sep = true -> one_line (GoStrings.Join l sep) = true.
Proof.
  intros Hl Hs. induction Hl as [|x l Hx Hl IH]; [done|]. destruct l as [|y l]; [done|].
  change (GoStrings.Join (x :: y :: l) sep) with (x +:+ sep +:+ GoStrings.Join (y :: l) sep). by rewrite !one_line_app, Hx, Hs, IH.
Qed.

Lemma escape_ascii_one_line c : nat_of_ascii c < 128 -> one_line (escape_ascii c) = true.
Proof. destruct c as [[] [] [] [] [] [] [] []]; vm_compute; try done; intros; lia. Qed.

Lemma high_line_char c : 128 <= nat_of_ascii c -> line_char c = true.
Proof. destruct c as [[] [] [] [] [] [] [] []]; vm_compute; try done; intros; lia. Qed.

(** The bytes of the rest of a rune are all above 127. *)
Fixpoint conts (n : nat) (s : string) : Prop :=
  match n with O => True | S n => match s with "" => True | String c s => 128 <= nat_of_ascii c /\ conts n s end end.

Lemma bytes_in_conts ranges s :
  Forall (fun r => 128 <= r.1) ranges -> bytes_in ranges s = true -> conts (List.length ranges) s.
Proof.
  intros H. revert s. induction H as [|[lo hi] ranges Hr H IH]; intros [|c s]; simpl; try done.
  unfold in_range. rewrite !andb_true_iff, !Nat.leb_le. intros [[? _] ?]. simpl in Hr. split; [lia|]. by apply IH.
Qed.

Lemma rune_tail_conts c s n : rune_tail c s = Some n -> conts n s.
Proof.
  unfold rune_tail. repeat case_match; intros [= <-];
    match goal with H : bytes_in ?l s = true |- _ => refine (bytes_in_conts l s _ H) end;
    repeat constructor; unfold tail; simpl; lia.
Qed.

Lemma escape_one_line s : forall keep n, conts n s -> one_line (escape keep n s) = true.
Proof.
  induction s as [|c r IH]; intros keep n H; [by destruct n|]. destruct n as [|n]; simpl.
  - destruct (nat_of_ascii c <? 128) eqn:Hc; bprop.
    { by rewrite one_line_app, escape_ascii_one_line, IH. }
    destruct (rune_tail c r) as [n|] eqn:Hn; [apply rune_tail_conts in Hn|by rewrite one_line_app, IH].
    destruct (in_range 226 226 c && _); [|destruct (in_range 226 226 c && _)]; rewrite ?one_line_app; simpl; rewrite ?high_line_char, IH by done; done.
  - destruct H as [Hc H]. destruct keep; [simpl; rewrite high_line_char by done|]; by apply IH.
Qed.

Lemma json_string_one_line s : one_line (json_string s) = true.
Proof. unfold json_string. simpl. by rewrite one_line_app, escape_one_line. Qed.

Lemma pretty_N_char_line x : line_char (pretty_N_char x) = true.
Proof. unfold pretty_N_char. by repeat case_match. Qed.

Lemma pretty_N_go_one_line x s : one_line s = true -> one_line (pretty_N_go x s) = true.
Proof.
  revert s. induction (N.lt_wf_0 x) as [x _ IH]. intros s Hs. destruct (decide (x = 0)%N) as [->|Hx]; [by rewrite pretty_N_go_0|].
  rewrite pretty_N_go_step by lia. apply IH; [apply N.div_lt; lia|]. simpl. by rewrite pretty_N_char_line.
Qed.

Lemma Itoa_one_line z : one_line (Itoa z) = true.
Proof.
  destruct z as [|p|p]; [done|..].
  - by apply pretty_N_go_one_line.
  - change (one_line ("-" +:+ pretty_N_go (N.pos p) "") = true). rewrite one_line_app. simpl. by apply pretty_N_go_one_line.
Qed.

Lemma json_list_one_line l : one_line (json_list l) = true.
Proof.
  unfold json_list. rewrite !one_line_app. rewrite one_line_Join; [done| |done].
  apply Forall_fmap, Forall_true. apply json_string_one_line.
Qed.

Lemma json_object_one_line l : Forall (fun kv => one_line kv.2 = true) l -> one_line (json_object l) = true.
Proof.
  intros Hl. unfold json_object. rewrite !one_line_app. rewrite one_line_Join; [done| |done].
  apply Forall_fmap. eapply Forall_impl; [exact Hl|]. intros kv H. unfold compose. by rewrite !one_line_app, json_string_one_line, H.
Qed.

Lemma json_map_one_line m : one_line (json_map m) = true.
Proof. apply json_object_one_line, Forall_fmap, Forall_true. intros kv. apply json_list_one_line. Qed.
#[export] Hint Resolve json_string_one_line Itoa_one_line json_list_one_line json_object_one_line json_map_one_line : go.
