(* ===== verification/EventBroker.v ===== *)
(** * The broker of server-sent events

    [server/events]: [events.go] (the events and their JSON), [sse.go] (the
    broker: one listener goroutine, the handlers of the connections, and whoever
    publishes), with [ReadOrDone] of [utils/pl/pipelines.go], through which a
    handler reads its channel.

    Every channel operation is one action of [perform]; goroutines interleave
    at that grain, and the order in which a broadcast visits the map of clients
    is free.  A connection is numbered by its channel [msgC], whose buffer is
    kept with the connection.  A send on a closed channel panics, in a [select]
    too, and an unrecovered panic ends the process: no action follows it.

    Three fields are there for the theorems only: what was offered to a client
    and whether its channel took it ([k_offered]), the events broadcast so far
    ([w_log]), and whether the listener has received the end of a connection it
    had not registered ([w_overtaken]). *)

From S2P Require Import Prelude GoStrings GoText GoJson.
From Stdlib Require Import Ascii String.

Local Open Scope Z_scope.

(** ** Events *)

(** The time of [time.Time.MarshalJSON], when the server was started and the
    version it was built as. *)
Class EventEnv := { time_text : Z -> string; ServerStartTime : Z; Version : string }.
Class EventLaws `{EventEnv} := { time_text_one_line t : one_line (time_text t) = true }.

Inductive Event :=
| ScanStatus (Scanning : bool) (Count FolderCount : Z) (Error ScanType : string) (ElapsedTime : Z)
| KeepAlive (TS : Z)
| ServerStart (StartTime : Z) (Version : string)
| RefreshResource (resources : option (gmap string (list string)))
| NowPlayingCount (Count : Z).

Definition Any : string := "*".

(** [rr.With(resource, ids...)]. *)
Definition With (resource : string) (ids : list string) (resources : option (gmap string (list string))) :
    option (gmap string (list string)) :=
  let m := default ∅ resources in
  let at_ m := default [] (m !! resource) in
  let m := if bool_decide (ids = []) then <[resource := at_ m ++ [Any]]> m else m in
  Some (<[resource := at_ m ++ ids]> m).

(** [reflect.TypeOf(evt).String()]. *)
Definition TypeOf (evt : Event) : string :=
  match evt with
  | ScanStatus _ _ _ _ _ _ => "*events.ScanStatus"
  | KeepAlive _ => "*events.KeepAlive"
  | ServerStart _ _ => "*events.ServerStart"
  | RefreshResource _ => "*events.RefreshResource"
  | NowPlayingCount _ => "*events.NowPlayingCount"
  end.

(** [strings.TrimPrefix]. *)
Definition TrimPrefix (s pre : string) : string := if HasPrefix s pre then str_drop (String.length pre) s else s.

Definition Name (evt : Event) : string :=
  match TrimPrefix (TypeOf evt) "*events." with "" => "" | String c s => String (byte_lower c) s end.

Section broker.
Context `{EventEnv}.

(** [Data]: [json.Marshal] of the event, or of the resources of a refresh. *)
Definition Data (evt : Event) : string :=
  match evt with
  | ScanStatus scanning count folders err scanType elapsed =>
      json_object [("scanning", json_bool scanning); ("count", json_int count); ("folderCount", json_int folders);
                   ("error", json_string err); ("scanType", json_string scanType); ("elapsedTime", json_int elapsed)]
  | KeepAlive TS => json_object [("ts", json_int TS)]
  | ServerStart StartTime v =>
      json_object [("startTime", String quote (time_text StartTime +:+ String quote "")); ("version", json_string v)]
  | RefreshResource None => "{" +:+ String quote ("*" +:+ String quote (":" +:+ String quote ("*" +:+ String quote "}")))
  | RefreshResource (Some resources) => json_map resources
  | NowPlayingCount Count => json_object [("count", json_int Count)]
  end.

(** ** Messages and clients *)

(** The values of a sender's context the broker asks for. *)
Record context := mkCtx { ctx_broadcastToAll : option bool; ctx_clientUniqueId : option string; ctx_username : option string }.
Definition Background : context := mkCtx None None None.
Definition broadcastToAll (ctx : context) : context := mkCtx (Some true) (ctx_clientUniqueId ctx) (ctx_username ctx).

Record message := mkMsg { m_id : Z; m_event : string; m_data : string; m_senderCtx : context }.
Definition prepareMessage (ctx : context) (evt : Event) : message := mkMsg 0 (Name evt) (Data evt) ctx.
Definition set_id (id : Z) (m : message) : message := mkMsg id (m_event m) (m_data m) (m_senderCtx m).

Record client := mkClient {
  c_id : string; c_address : string; c_username : string; c_userAgent : string;
  c_clientUniqueId : string; c_displayString : string; c_msgC : nat }.

#[export] Instance client_eq_dec : EqDecision client.
Proof. solve_decision. Defined.
#[export] Instance client_countable : Countable client.
Proof.
  refine (inj_countable
    (fun c => inr (c_msgC c) :: (inl <$> [c_id c; c_address c; c_username c; c_userAgent c; c_clientUniqueId c; c_displayString c]))
    (fun l : list (string + nat) => match l with
       | [inr g; inl a; inl b; inl c; inl d; inl e; inl f] => Some (mkClient a b c d e f g) | _ => None end) _).
  by intros [].
Defined.

(** What [subscribe] reads of a request; a missing user or id is an empty string. *)
Record Request := mkReq { r_UserName : option string; r_RemoteAddr : string; r_UserAgent : string; r_clientUniqueId : option string }.

Definition new_client (r : Request) (random : string) (trace : bool) (msgC : nat) : client :=
  let username := default "" (r_UserName r) in
  let unique := default "" (r_clientUniqueId r) in
  let display := random +:+ " (" +:+ username +:+ " - " +:+ r_RemoteAddr r +:+ " - " +:+ unique +:+
                 (if trace then " - " +:+ r_UserAgent r +:+ ")" else ")") in
  mkClient random (r_RemoteAddr r) username (r_UserAgent r) unique display msgC.

Definition shouldSend (msg : message) (c : client) : bool :=
  let ctx := m_senderCtx msg in
  if default false (ctx_broadcastToAll ctx) then true
  else match ctx_clientUniqueId ctx with
       | None => true
       | Some clientUniqueId =>
           if String.eqb (c_clientUniqueId c) clientUniqueId then false
           else match ctx_username ctx with Some username => String.eqb username (c_username c) | None => true end
       end.

(** [writeEvent]: the bytes of one event on the wire. *)
Definition frame (m : message) : string :=
  "id: " +:+ Itoa (m_id m) +:+ newline +:+ "event: " +:+ m_event m +:+ newline +:+
  "data: " +:+ m_data m +:+ newline +:+ newline.

(** ** Goroutines *)

(** The handler of a connection, and the goroutine of its [ReadOrDone]. *)
Inductive handler := HSubscribing | HRange | HWriting (m : message) | HLeaving | HGone.
Inductive reader := RIdle | RSelect | RHolding (m : message) | RClosed.

Record conn := mkConn {
  k_client : client; k_pc : handler; k_reader : reader; k_done : bool;
  k_buf : list message; k_closed : bool; k_written : list message; k_offered : list (message * bool) }.

Definition set_pc (h : handler) (k : conn) : conn :=
  mkConn (k_client k) h (k_reader k) (k_done k) (k_buf k) (k_closed k) (k_written k) (k_offered k).
Definition set_reader (r : reader) (k : conn) : conn :=
  mkConn (k_client k) (k_pc k) r (k_done k) (k_buf k) (k_closed k) (k_written k) (k_offered k).
Definition set_done (k : conn) : conn :=
  mkConn (k_client k) (k_pc k) (k_reader k) true (k_buf k) (k_closed k) (k_written k) (k_offered k).
Definition set_buf (b : list message) (k : conn) : conn :=
  mkConn (k_client k) (k_pc k) (k_reader k) (k_done k) b (k_closed k) (k_written k) (k_offered k).
Definition set_closed (k : conn) : conn :=
  mkConn (k_client k) (k_pc k) (k_reader k) (k_done k) (k_buf k) true (k_written k) (k_offered k).
Definition set_written (l : list message) (k : conn) : conn :=
  mkConn (k_client k) (k_pc k) (k_reader k) (k_done k) (k_buf k) (k_closed k) l (k_offered k).
Definition add_offered (m : message) (taken : bool) (k : conn) : conn :=
  mkConn (k_client k) (k_pc k) (k_reader k) (k_done k) (k_buf k) (k_closed k) (k_written k) (k_offered k ++ [(m, taken)]).

(** The listener: in its [select], or visiting the clients that are left, asking
    [shouldSend] when [filtered]. *)
Inductive listener := LSelect | LSending (filtered : bool) (m : message) (rest : list client) | LPanicked.

Record world := mkW {
  w_publish : list message; w_subscribing : list client; w_unsubscribing : list client;
  w_clients : gset client; w_eventId : Z; w_pc : listener; w_conns : gmap nat conn;
  w_log : list (bool * message); w_overtaken : bool }.

Definition set_publish (l : list message) (w : world) : world :=
  mkW l (w_subscribing w) (w_unsubscribing w) (w_clients w) (w_eventId w) (w_pc w) (w_conns w) (w_log w) (w_overtaken w).
Definition set_subscribing (l : list client) (w : world) : world :=
  mkW (w_publish w) l (w_unsubscribing w) (w_clients w) (w_eventId w) (w_pc w) (w_conns w) (w_log w) (w_overtaken w).
Definition set_unsubscribing (l : list client) (w : world) : world :=
  mkW (w_publish w) (w_subscribing w) l (w_clients w) (w_eventId w) (w_pc w) (w_conns w) (w_log w) (w_overtaken w).
Definition set_clients (s : gset client) (w : world) : world :=
  mkW (w_publish w) (w_subscribing w) (w_unsubscribing w) s (w_eventId w) (w_pc w) (w_conns w) (w_log w) (w_overtaken w).
Definition set_listener (l : listener) (w : world) : world :=
  mkW (w_publish w) (w_subscribing w) (w_unsubscribing w) (w_clients w) (w_eventId w) l (w_conns w) (w_log w) (w_overtaken w).
Definition set_conn (i : nat) (k : conn) (w : world) : world :=
  mkW (w_publish w) (w_subscribing w) (w_unsubscribing w) (w_clients w) (w_eventId w) (w_pc w) (<[i := k]> (w_conns w))
    (w_log w) (w_overtaken w).
Definition note_overtaken (b : bool) (w : world) : world :=
  mkW (w_publish w) (w_subscribing w) (w_unsubscribing w) (w_clients w) (w_eventId w) (w_pc w) (w_conns w) (w_log w)
    (w_overtaken w || b).

Definition bufferSize : nat := 1.
Definition publishSize : nat := 2.
Definition clientsSize : nat := 1.

(** [GetBroker]. *)
Definition GetBroker : world := mkW [] [] [] ∅ 0 LSelect ∅ [] false.

(** ** The listener *)

(** [sendOrDrop]: [None] when it panics; a nil channel never takes a message. *)
Definition offer (k : conn) (msg : message) : option conn :=
  if k_closed k then None
  else if (List.length (k_buf k) <? bufferSize)%nat then Some (add_offered msg true (set_buf (k_buf k ++ [msg]) k))
  else Some (add_offered msg false k).

Definition sendOrDrop (c : client) (msg : message) (w : world) : option world :=
  match w_conns w !! c_msgC c with
  | None => Some w
  | Some k => k' ← offer k msg; Some (set_conn (c_msgC c) k' w)
  end.

(** [close(c.msgC)]: closing a closed channel panics, and a nil one as well. *)
Definition close (c : client) (w : world) : option world :=
  k ← w_conns w !! c_msgC c; if k_closed k then None else Some (set_conn (c_msgC c) (set_closed k) w).

Definition or_panic (w : world) (r : option world) : world := default (set_listener LPanicked w) r.

Definition server_start : message := prepareMessage Background (ServerStart ServerStartTime Version).

Definition listen_subscribing (c : client) (cs : list client) (w : world) : world :=
  let w := set_clients ({[c]} ∪ w_clients w) (set_subscribing cs w) in
  or_panic w (sendOrDrop c server_start w).

Definition listen_unsubscribing (c : client) (cs : list client) (w : world) : world :=
  let w := note_overtaken (bool_decide (c ∉ w_clients w)) (set_unsubscribing cs w) in
  or_panic w (w ← close c w; Some (set_clients (w_clients w ∖ {[c]}) w)).

(** [getNextEventId], a 64-bit counter, and the start of a broadcast. *)
Definition broadcast (filtered : bool) (m : message) (order : list client) (w : world) : world :=
  let eventId := (w_eventId w + 1) mod 2 ^ 64 in
  let m := set_id eventId m in
  mkW (w_publish w) (w_subscribing w) (w_unsubscribing w) (w_clients w) eventId (LSending filtered m order) (w_conns w)
    (w_log w ++ [(filtered, m)]) (w_overtaken w).

(** A client is left out when the event is filtered and not for it. *)
Definition addressed (c : client) (e : bool * message) : bool := negb e.1 || shouldSend e.2 c.

(** One round of [for c := range clients]. *)
Definition visit (filtered : bool) (m : message) (c : client) (rest : list client) (w : world) : world :=
  let w := set_listener (LSending filtered m rest) w in
  if addressed c (filtered, m) then or_panic w (sendOrDrop c m w) else w.

(** The map of clients is visited in any order, every client once. *)
Definition is_order (order : list client) (w : world) : bool :=
  bool_decide (NoDup order) && bool_decide (list_to_set order = w_clients w).

(** ** The actions of all goroutines *)
Inductive action :=
| SendMessage (ctx : context) (evt : Event)
| Serve (r : Request) (random : string) (trace : bool) (i : nat)
| Subscribe (i : nat)
| Disconnect (i : nat)
| ReaderTake (i : nat)
| ReaderEnd (i : nat)
| ReaderDrop (i : nat)
| HandlerNext (i : nat)
| HandlerWrite (i : nat) (ok : bool)
| HandlerEnd (i : nat)
| Unsubscribe (i : nat)
| ListenSubscribing
| ListenUnsubscribing
| ListenPublish (order : list client)
| ListenKeepAlive (ts : Z) (order : list client)
| ListenVisit.

Definition SendBroadcastMessage (ctx : context) (evt : Event) : action := SendMessage (broadcastToAll ctx) evt.

Definition new_conn (c : client) : conn := mkConn c HSubscribing RIdle false [] false [] [].

(** The actions of the handler of a connection and of its reader. *)
Definition conn_action (a : action) (i : nat) (k : conn) (w : world) : option world :=
  match a, k_pc k, k_reader k with
  | Subscribe _, HSubscribing, _ =>
      if (List.length (w_subscribing w) <? clientsSize)%nat
      then Some (set_subscribing (w_subscribing w ++ [k_client k]) (set_conn i (set_reader RSelect (set_pc HRange k)) w))
      else None
  | Disconnect _, _, _ => Some (set_conn i (set_done k) w)
  | ReaderTake _, _, RSelect =>
      match k_buf k with m :: b => Some (set_conn i (set_reader (RHolding m) (set_buf b k)) w) | [] => None end
  | ReaderEnd _, _, RSelect =>
      if k_done k || (k_closed k && (List.length (k_buf k) =? 0)%nat)
      then Some (set_conn i (set_reader RClosed k) w) else None
  | ReaderDrop _, _, RHolding _ => if k_done k then Some (set_conn i (set_reader RSelect k) w) else None
  | HandlerNext _, HRange, RHolding m => Some (set_conn i (set_reader RSelect (set_pc (HWriting m) k)) w)
  | HandlerWrite _ ok, HWriting m, _ =>
      Some (set_conn i (if ok then set_written (k_written k ++ [m]) (set_pc HRange k) else set_pc HLeaving k) w)
  | HandlerEnd _, HRange, RClosed => Some (set_conn i (set_pc HLeaving k) w)
  | Unsubscribe _, HLeaving, _ =>
      if (List.length (w_unsubscribing w) <? clientsSize)%nat
      then Some (set_unsubscribing (w_unsubscribing w ++ [k_client k]) (set_conn i (set_pc HGone k) w))
      else None
  | _, _, _ => None
  end.

(** One action; [None] when it cannot happen, or its goroutine would block. *)
Definition perform (a : action) (w : world) : option world :=
  match w_pc w with
  | LPanicked => None
  | pc =>
      match a, pc with
      | SendMessage ctx evt, _ =>
          if (List.length (w_publish w) <? publishSize)%nat
          then Some (set_publish (w_publish w ++ [prepareMessage ctx evt]) w) else None
      | Serve r random trace i, _ =>
          match w_conns w !! i with None => Some (set_conn i (new_conn (new_client r random trace i)) w) | Some _ => None end
      | Subscribe i, _ | Disconnect i, _ | ReaderTake i, _ | ReaderEnd i, _ | ReaderDrop i, _ | HandlerNext i, _
      | HandlerWrite i _, _ | HandlerEnd i, _ | Unsubscribe i, _ => k ← w_conns w !! i; conn_action a i k w
      | ListenSubscribing, LSelect =>
          match w_subscribing w with c :: cs => Some (listen_subscribing c cs w) | [] => None end
      | ListenUnsubscribing, LSelect =>
          match w_unsubscribing w with c :: cs => Some (listen_unsubscribing c cs w) | [] => None end
      | ListenPublish order, LSelect =>
          match w_publish w with
          | m :: ms => if is_order order w then Some (broadcast true m order (set_publish ms w)) else None
          | [] => None
          end
      | ListenKeepAlive ts order, LSelect =>
          if bool_decide (w_clients w = ∅) then Some w
          else if is_order order w then Some (broadcast false (prepareMessage Background (KeepAlive ts)) order w) else None
      | ListenVisit, LSending filtered m rest =>
          match rest with
          | c :: rest => Some (visit filtered m c rest w)
          | [] => Some (set_listener LSelect w)
          end
      | _, _ => None
      end
  end.

Fixpoint run (l : list action) (w : world) : option world :=
  match l with [] => Some w | a :: l => w ← perform a w; run l w end.

Definition broker_step (w w' : world) : Prop := exists a, perform a w = Some w'.
Definition reachable (w : world) : Prop := steps broker_step GetBroker w.

(** ** The reader of an event stream

    What a browser makes of the bytes, as the HTML standard says: a line is a
    field name, a colon and a value, less one space; an empty line ends an event,
    which counts when it has data; the id is kept for the next one. *)
Fixpoint cut_line (s : string) : string * option string :=
  match s with
  | "" => ("", None)
  | String c s =>
      if Ascii.eqb c LF then ("", Some s)
      else if Ascii.eqb c CR then ("", Some (match s with String d t => if Ascii.eqb d LF then t else s | "" => s end))
      else let r := cut_line s in (String c r.1, r.2)
  end.

Fixpoint cut_field (s : string) : string * string :=
  match s with
  | "" => ("", "")
  | String c s =>
      if Ascii.eqb c ":" then ("", match s with String " " t => t | _ => s end)
      else let r := cut_field s in (String c r.1, r.2)
  end.

Record received := mkReceived { e_id : string; e_type : string; e_lines : list string }.
Definition field (line : string) (e : received) : received :=
  let '(name, value) := cut_field line in
  if String.eqb name "id" then mkReceived value (e_type e) (e_lines e)
  else if String.eqb name "event" then mkReceived (e_id e) value (e_lines e)
  else if String.eqb name "data" then mkReceived (e_id e) (e_type e) (e_lines e ++ [value])
  else e.

Fixpoint read_stream (fuel : nat) (e : received) (s : string) : list received :=
  match fuel with
  | O => []
  | S fuel =>
      match cut_line s with
      | (_, None) => []
      | ("", Some s) =>
          (if bool_decide (e_lines e = []) then [] else [e]) ++ read_stream fuel (mkReceived (e_id e) "" []) s
      | (line, Some s) => read_stream fuel (field line e) s
      end
  end.

Definition EventSource (s : string) : list received := read_stream (String.length s) (mkReceived "" "" []) s.
Definition received_of (m : message) : received := mkReceived (Itoa (m_id m)) (m_event m) [m_data m].
End broker.
