(* ===== verification/EventBrokerFacts.v ===== *)
(** * Theorems on the broker of events

    First the wire format: a browser reads back exactly the events that were
    written, because no event has a line break in it.  Then the invariant of
    every interleaving: what each connection is offered and receives, compared
    with the log of events broadcast, who sees an event of another user, and why
    the listener never waits for a client. *)

From S2P Require Import Prelude GoStrings GoText GoJson EventBroker.
From Stdlib Require Import Ascii String.

Local Open Scope Z_scope.

(** ** The wire format *)
Section wire.
Context `{EE : EventEnv, EL : !EventLaws}.

Lemma one_line_cut s rest : one_line s = true -> cut_line (s +:+ newline +:+ rest) = (s, Some rest).
Proof.
  induction s as [|c s IH]; [done|]. simpl. unfold line_char. rewrite !andb_true_iff, !negb_true_iff. intros [[-> ->] Hs].
  change (s +:+ String LF rest) with (s +:+ newline +:+ rest). by rewrite (IH Hs).
Qed.

Lemma read_line fuel e line rest :
  one_line line = true -> line <> "" -> read_stream (S fuel) e (line +:+ newline +:+ rest) = read_stream fuel (field line e) rest.
Proof. intros Hl Hn. cbn [read_stream]. rewrite one_line_cut by done. by destruct line. Qed.

Lemma Data_one_line evt : one_line (Data evt) = true.
Proof.
  destruct evt as [? ? ? ? ? ?|?|t v|[m|]|?]; cbn [Data]; auto with go; apply json_object_one_line;
    repeat (apply Forall_cons_2 || apply Forall_nil_2); cbn [snd]; auto with go.
  - by match goal with |- one_line (json_bool ?b) = true => destruct b end.
  - change (one_line (String quote "" +:+ time_text t +:+ String quote "") = true). by rewrite !one_line_app, time_text_one_line.
Qed.

Lemma Name_one_line evt : one_line (Name evt) = true.
Proof. by destruct evt. Qed.

Definition plain (m : message) : Prop := one_line (m_event m) = true /\ one_line (m_data m) = true.

Lemma prepareMessage_plain id ctx evt : plain (set_id id (prepareMessage ctx evt)).
Proof. split; simpl; [exact (Name_one_line evt)|exact (Data_one_line evt)]. Qed.

Lemma field_id v e : field ("id: " +:+ v) e = mkReceived v (e_type e) (e_lines e).
Proof. done. Qed.
Lemma field_event v e : field ("event: " +:+ v) e = mkReceived (e_id e) v (e_lines e).
Proof. done. Qed.
Lemma field_data v e : field ("data: " +:+ v) e = mkReceived (e_id e) (e_type e) (e_lines e ++ [v]).
Proof. done. Qed.

Lemma read_frame fuel e m rest :
  plain m -> e_lines e = [] ->
  read_stream (4 + fuel) e (frame m +:+ rest) = received_of m :: read_stream fuel (mkReceived (Itoa (m_id m)) "" []) rest.
Proof.
  intros [He Hd] Hl. unfold frame.
  replace (_ +:+ rest) with (("id: " +:+ Itoa (m_id m)) +:+ newline +:+ (("event: " +:+ m_event m) +:+ newline +:+
    (("data: " +:+ m_data m) +:+ newline +:+ (newline +:+ rest)))) by by rewrite !string_app_assoc.
  change (4 + fuel)%nat with (S (S (S (S fuel)))).
  rewrite read_line, field_id by (done || rewrite one_line_app; apply Itoa_one_line).
  rewrite read_line, field_event by (done || by rewrite one_line_app, He).
  rewrite read_line, field_data by (done || by rewrite one_line_app, Hd).
  cbn [e_id e_type e_lines]. by rewrite Hl.
Qed.

Lemma frame_length m : (4 <= String.length (frame m))%nat.
Proof. unfold frame. rewrite !string_length_app. simpl. lia. Qed.

Lemma read_frames ms : forall fuel e,
  Forall plain ms -> e_lines e = [] -> (String.length (String.concat "" (frame <$> ms)) <= fuel)%nat ->
  read_stream fuel e (String.concat "" (frame <$> ms)) = received_of <$> ms.
Proof.
  induction ms as [|m ms IH]; intros fuel e Hms He Hf; [by destruct fuel|].
  apply Forall_cons_1 in Hms as [Hm Hms]. rewrite fmap_cons, (string_concat_cons (frame m)) in Hf |- *.
  rewrite string_length_app in Hf. pose proof (frame_length m).
  destruct fuel as [|[|[|[|fuel]]]]; try lia. rewrite (read_frame fuel) by done. rewrite IH by (done || lia). done.
Qed.

(** ** The invariant *)

(** What a connection's channel took, and what of it is still on its way: in the
    hands of the handler, of the reader, and in the channel. *)
Definition accepted (k : conn) : list message := omap (fun o : message * bool => if o.2 then Some o.1 else None) (k_offered k).
Definition in_flight (k : conn) : list message :=
  (match k_pc k with HWriting m => [m] | _ => [] end) ++ (match k_reader k with RHolding m => [m] | _ => [] end) ++ k_buf k.
Definition serving (h : handler) : bool := match h with HLeaving | HGone => false | _ => true end.

Definition flow (k : conn) : Prop :=
  (k_written k ++ in_flight k) `sublist_of` accepted k /\
  (serving (k_pc k) = true -> k_done k = false -> accepted k = k_written k ++ in_flight k) /\
  (List.length (k_buf k) <= bufferSize)%nat.

(** A client waits to be registered, or is. *)
Definition known (w : world) (k : conn) : Prop :=
  let c := k_client k in
  (c ∈ w_subscribing w /\ c ∉ w_clients w /\ k_offered k = []) \/ (c ∉ w_subscribing w /\ c ∈ w_clients w /\ k_offered k <> []).

Definition place (w : world) (k : conn) : Prop :=
  let c := k_client k in
  match k_pc k with
  | HSubscribing => c ∉ w_subscribing w /\ c ∉ w_clients w /\ c ∉ w_unsubscribing w /\ k_closed k = false /\ k_offered k = []
  | HGone =>
      (c ∈ w_unsubscribing w /\ k_closed k = false /\ known w k) \/
      (c ∉ w_unsubscribing w /\ k_closed k = true /\ c ∉ w_clients w /\ (c ∈ w_subscribing w -> w_overtaken w = true))
  | _ => c ∉ w_unsubscribing w /\ k_closed k = false /\ known w k
  end.

(** The event of the broadcast that is going on, for a client that is still to be
    visited. *)
Definition pending (w : world) (c : client) : list (bool * message) :=
  match w_pc w with LSending f m rest => if decide (c ∈ rest) then [(f, m)] else [] | _ => [] end.

Definition stream (w : world) (k : conn) : Prop :=
  let c := k_client k in
  k_offered k = [] \/
  exists l1 l l2, w_log w = l1 ++ l ++ l2 /\
    (k_offered k).*1 = server_start :: (filter (fun e => addressed c e = true) l).*2 /\
    k_offered k !! 0%nat = Some (server_start, true) /\
    (c ∈ w_clients w -> l2 = pending w c).

Definition conn_ok (w : world) (i : nat) (k : conn) : Prop :=
  c_msgC (k_client k) = i /\ place w k /\ flow k /\ stream w k.

Definition listener_ok (w : world) : Prop :=
  match w_pc w with
  | LSending f m rest => NoDup rest /\ (forall c, c ∈ rest -> c ∈ w_clients w) /\ exists l, w_log w = l ++ [(f, m)]
  | LSelect => True
  | LPanicked => False
  end.

Definition ids_ok (w : world) : Prop :=
  (fun e => m_id e.2) <$> w_log w = (fun n => Z.of_nat n mod 2 ^ 64) <$> seq 1 (List.length (w_log w)) /\
  w_eventId w = Z.of_nat (List.length (w_log w)) mod 2 ^ 64 /\
  Forall plain (w_publish w) /\
  Forall (fun e => plain e.2 /\ (e.1 = false -> m_senderCtx e.2 = Background)) (w_log w).

Definition queues_ok (w : world) : Prop :=
  (List.length (w_subscribing w) <= 1 /\ List.length (w_unsubscribing w) <= 1)%nat /\
  forall c, c ∈ w_subscribing w \/ c ∈ w_unsubscribing w \/ c ∈ w_clients w ->
    exists k, w_conns w !! c_msgC c = Some k /\ k_client k = c.

Definition world_ok (w : world) : Prop :=
  queues_ok w /\ listener_ok w /\ ids_ok w /\ forall i k, w_conns w !! i = Some k -> conn_ok w i k.

Lemma place_ext w w' k :
  (k_client k ∈ w_subscribing w' <-> k_client k ∈ w_subscribing w) ->
  (k_client k ∈ w_unsubscribing w' <-> k_client k ∈ w_unsubscribing w) ->
  (k_client k ∈ w_clients w' <-> k_client k ∈ w_clients w) ->
  (w_overtaken w = true -> w_overtaken w' = true) ->
  place w k -> place w' k.
Proof. unfold place, known. intros H1 H2 H3 H4. destruct (k_pc k); rewrite H1, H2, H3; tauto. Qed.

Lemma stream_ext w w' k :
  w_log w' = w_log w -> (k_client k ∈ w_clients w' -> k_client k ∈ w_clients w) ->
  pending w' (k_client k) = pending w (k_client k) -> stream w k -> stream w' k.
Proof.
  intros H1 H2 H3 [H|(l1 & l & l2 & H)]; [by left|]. right. exists l1, l, l2. rewrite H1, H3. destruct H as (? & ? & ? & H).
  split_and!; auto.
Qed.

(** A step that changes one connection, and the queues and the set of clients at
    most in its client. *)
Lemma change_ok w w' i k k' :
  world_ok w -> w_conns w !! i = Some k -> w_conns w' = <[i := k']> (w_conns w) -> k_client k' = k_client k ->
  (forall c, c <> k_client k -> (c ∈ w_subscribing w' <-> c ∈ w_subscribing w) /\
     (c ∈ w_unsubscribing w' <-> c ∈ w_unsubscribing w) /\ (c ∈ w_clients w' <-> c ∈ w_clients w) /\
     pending w' c = pending w c) ->
  w_log w' = w_log w -> (w_overtaken w = true -> w_overtaken w' = true) ->
  (List.length (w_subscribing w') <= 1 /\ List.length (w_unsubscribing w') <= 1)%nat ->
  listener_ok w' -> ids_ok w' -> place w' k' -> flow k' -> stream w' k' -> world_ok w'.
Proof.
  intros (Hq & _ & _ & Hk) Hik Hw Hc Hm Hlog Ho Hlen Hl Hi Hp Hf Hs.
  pose proof (proj1 (Hk i k Hik)) as Hid. split_and!; [|done..|].
  - split; [done|]. intros c Hin. destruct (decide (c = k_client k)) as [->|Hne].
    { exists k'. by rewrite Hid, Hw, lookup_insert_eq. }
    destruct (Hm c Hne) as (H1 & H2 & H3 & _). rewrite H1, H2, H3 in Hin. destruct Hq as [_ Hq].
    destruct (Hq c Hin) as (k0 & Hk0 & Hc0). exists k0. rewrite Hw, lookup_insert_ne; [done|].
    intros E. rewrite <- E, Hik in Hk0. congruence.
  - rewrite Hw. intros j k2 Hj. destruct (decide (j = i)) as [->|Hne].
    + rewrite lookup_insert_eq in Hj. injection Hj as <-. unfold conn_ok. by rewrite Hc.
    + rewrite lookup_insert_ne in Hj by done. destruct (Hk j k2 Hj) as (H1 & H2 & H3 & H4).
      assert (k_client k2 <> k_client k) as Hne2 by congruence. destruct (Hm _ Hne2) as (E1 & E2 & E3 & E4).
      split_and!; [done|by eapply place_ext|done|]. eapply stream_ext; [done| |done|done]. tauto.
Qed.

(** A step of one connection that changes none of the queues. *)
Lemma local_ok w i k k' :
  world_ok w -> w_conns w !! i = Some k -> k_client k' = k_client k -> k_offered k' = k_offered k ->
  place w k' -> flow k' -> world_ok (set_conn i k' w).
Proof.
  intros Hw Hik Hc Ho Hp Hf. pose proof Hw as (Hq & Hl & Hi & Hk). destruct (Hk i k Hik) as (_ & _ & _ & Hs).
  eapply (change_ok w _ i k k'); try done; [apply Hq|]. revert Hs. unfold stream. by rewrite Hc, Ho.
Qed.

Lemma flow_open k : k_offered k = [] -> flow k -> k_buf k = [].
Proof.
  intros Ho (Hs & _ & _). unfold accepted, in_flight in Hs. rewrite Ho in Hs. simpl in Hs. apply sublist_nil_r in Hs.
  by repeat (apply app_eq_nil in Hs as [_ Hs]).
Qed.

(** A connection whose messages on the way are the same, in the same order. *)
Lemma flow_same k k' :
  k_offered k' = k_offered k -> k_written k' ++ in_flight k' = k_written k ++ in_flight k ->
  (serving (k_pc k') = true -> serving (k_pc k) = true) -> (k_done k' = false -> k_done k = false) ->
  (List.length (k_buf k') <= List.length (k_buf k))%nat -> flow k -> flow k'.
Proof.
  unfold flow, accepted. intros -> -> H1 H2 H3 (Ha & Hb & Hc). split_and!; [done|auto|lia].
Qed.

(** A message on the way is given up, when the connection is ending. *)
Lemma flow_less k k' :
  k_offered k' = k_offered k -> (k_written k' ++ in_flight k') `sublist_of` (k_written k ++ in_flight k) ->
  serving (k_pc k') = false \/ k_done k' = true ->
  (List.length (k_buf k') <= List.length (k_buf k))%nat -> flow k -> flow k'.
Proof.
  unfold flow, accepted. intros -> Hs Hd Hl (Ha & Hb & Hc). split_and!; [by etrans|naive_solver congruence|lia].
Qed.

(** Handlers and readers. *)
Lemma local_action_ok a i k w w' :
  world_ok w -> w_conns w !! i = Some k -> conn_action a i k w = Some w' ->
  (match a with Subscribe _ | Unsubscribe _ => False | _ => True end) -> world_ok w'.
Proof.
  intros Hw Hik Ha Hl. destruct (proj2 (proj2 (proj2 Hw)) i k Hik) as (_ & Hp & Hf & _).
  assert (forall k', k_client k' = k_client k -> k_offered k' = k_offered k -> place w k' -> flow k' -> world_ok (set_conn i k' w))
    as HL by (intros; by eapply local_ok).
  destruct a; try done; simpl in Ha; destruct k as [c pc rd dn buf cl wr off]; unfold place in *; simpl in *.
  - injection Ha as <-. apply HL; [done..|]. eapply flow_less; [..|exact Hf]; simpl; try done; by right.
  - destruct pc, rd, buf; try done; injection Ha as <-; apply HL; try done;
      (eapply flow_same; [..|exact Hf]; simpl; try done; lia).
  - destruct pc, rd; try done; case_cond; try done; injection Ha as <-; apply HL; try done;
      (eapply flow_same; [..|exact Hf]; done).
  - destruct pc, rd; try done; destruct dn; try done; injection Ha as <-; apply HL; try done;
      (eapply flow_less; [..|exact Hf]; simpl; try done; [|by right]); unfold in_flight; simpl;
      repeat (apply sublist_app; [reflexivity|] || apply sublist_skip); by apply sublist_cons.
  - destruct pc, rd; try done; injection Ha as <-; apply HL; try done; (eapply flow_same; [..|exact Hf]; done).
  - destruct pc, rd; try done; injection Ha as <-; destruct ok; apply HL; try done;
      first [eapply flow_same; [..|exact Hf]; simpl; try done; unfold in_flight; simpl; by rewrite <- app_assoc
            |eapply flow_less; [..|exact Hf]; simpl; try done; [|by left]; unfold in_flight; simpl;
             apply sublist_app; [reflexivity|by apply sublist_cons]].
  - destruct pc, rd; try done; injection Ha as <-; apply HL; try done; (eapply flow_same; [..|exact Hf]; done).
Qed.

Lemma Subscribe_ok i k w w' :
  world_ok w -> w_conns w !! i = Some k -> conn_action (Subscribe i) i k w = Some w' -> world_ok w'.
Proof.
  intros Hw Hik Ha. pose proof Hw as (Hq & Hl & Hi & Hk). destruct (Hk i k Hik) as (_ & Hp & Hf & Hs).
  simpl in Ha. unfold place in Hp. destruct (k_pc k) eqn:Epc; try done. destruct Hp as (H1 & H2 & H3 & H4 & H5).
  destruct (w_subscribing w) as [|c0 cs] eqn:Es; [|done]. simpl in Ha. injection Ha as <-.
  eapply (change_ok w _ i k); try done; simpl.
  - intros c Hne. rewrite Es. set_solver.
  - split; [lia|]. apply Hq.
  - unfold place, known. simpl. rewrite H4, H5. set_solver.
  - pose proof (flow_open k H5 Hf) as Hb. destruct Hf as (Hf & _ & Hlen). unfold flow, accepted, in_flight in *. simpl.
    rewrite H5, Hb in *. simpl in *. apply sublist_nil_r, app_eq_nil in Hf as [-> _]. split_and!; [done..|lia].
Qed.

Lemma Unsubscribe_ok i k w w' :
  world_ok w -> w_conns w !! i = Some k -> conn_action (Unsubscribe i) i k w = Some w' -> world_ok w'.
Proof.
  intros Hw Hik Ha. pose proof Hw as (Hq & Hl & Hi & Hk). destruct (Hk i k Hik) as (_ & Hp & Hf & Hs).
  simpl in Ha. unfold place in Hp. destruct (k_pc k) eqn:Epc; try done. destruct Hp as (H1 & H2 & H3).
  destruct (w_unsubscribing w) as [|c0 cs] eqn:Es; [|done]. simpl in Ha. injection Ha as <-.
  eapply (change_ok w _ i k); try done; simpl.
  - intros c Hne. rewrite Es. set_solver.
  - split; [apply Hq|lia].
  - unfold place. simpl. left. split_and!; [set_solver|done|done].
  - eapply flow_same; [..|exact Hf]; simpl; try done. unfold in_flight. simpl. by rewrite Epc.
Qed.

Lemma Serve_ok r random trace i w :
  world_ok w -> w_conns w !! i = None -> world_ok (set_conn i (new_conn (new_client r random trace i)) w).
Proof.
  intros (Hq & Hl & Hi & Hk) Hn. set (c0 := new_client r random trace i).
  assert (forall c, c ∈ w_subscribing w \/ c ∈ w_unsubscribing w \/ c ∈ w_clients w -> c_msgC c <> i) as Hfresh.
  { intros c Hc E. destruct (proj2 Hq c Hc) as (k & Hk' & _). rewrite E in Hk'. congruence. }
  split_and!; [|done..|].
  - split; [apply Hq|]. intros c Hc. destruct (proj2 Hq c Hc) as (k & Hk' & E). exists k. simpl.
    rewrite lookup_insert_ne; [done|]. intros E'. by eapply Hfresh.
  - simpl. intros j k Hj. destruct (decide (j = i)) as [->|Hne].
    + rewrite lookup_insert_eq in Hj. injection Hj as <-. split_and!; [done| |by split_and!; simpl; try lia|by left].
      unfold place. simpl. split_and!; try done; intros Hc; by eapply (Hfresh c0); auto.
    + rewrite lookup_insert_ne in Hj by done. by apply Hk.
Qed.

Lemma SendMessage_ok ctx evt w : world_ok w -> world_ok (set_publish (w_publish w ++ [prepareMessage ctx evt]) w).
Proof.
  intros (Hq & Hl & (H1 & H2 & H3 & H4) & Hk). split_and!; [done|done| |done].
  split_and!; try done. simpl. apply Forall_app. split; [done|]. constructor; [|done]. apply (prepareMessage_plain 0).
Qed.

(** *** The listener *)
Lemma offer_open k m : k_closed k = false -> exists k', offer k m = Some k'.
Proof. unfold offer. intros ->. case_cond; eauto. Qed.

Lemma offer_keeps k m k' :
  offer k m = Some k' -> k_client k' = k_client k /\ k_pc k' = k_pc k /\ k_closed k' = false /\
  k_offered k' = k_offered k ++ [(m, (List.length (k_buf k) <? bufferSize)%nat)].
Proof. unfold offer. destruct (k_closed k) eqn:E; [done|]. case_cond; intros [= <-]; simpl; by rewrite E. Qed.

Lemma offer_flow k m k' : flow k -> offer k m = Some k' -> flow k'.
Proof.
  intros (H1 & H2 & H3) Ho. destruct (offer_keeps k m k' Ho) as (_ & _ & _ & Hof). revert Ho. unfold offer.
  destruct (k_closed k); [done|]. destruct (List.length (k_buf k) <? bufferSize)%nat eqn:Hb; intros [= <-].
  - unfold flow, accepted. rewrite Hof, omap_app. unfold in_flight in *. simpl in *. rewrite !app_assoc in *.
    split_and!; [by apply sublist_app|intros Hs Hd; unfold accepted in H2; by rewrite H2|].
    bprop. rewrite length_app. unfold bufferSize in *. simpl. lia.
  - unfold flow, accepted. rewrite Hof, omap_app. simpl. rewrite app_nil_r. done.
Qed.

Definition still_ok (w : world) : Prop := world_ok w \/ (w_pc w = LPanicked /\ w_overtaken w = true).

Lemma pending_select w c : w_pc w = LSelect -> pending w c = [].
Proof. unfold pending. by intros ->. Qed.

Lemma listen_subscribing_ok c cs w :
  world_ok w -> w_pc w = LSelect -> w_subscribing w = c :: cs -> still_ok (listen_subscribing c cs w).
Proof.
  intros Hw Hpc Es. pose proof Hw as (Hq & Hl & Hi & Hk). destruct Hq as [[Hq1 Hq2] Hq].
  destruct cs as [|]; [|rewrite Es in Hq1; simpl in Hq1; lia]. destruct (Hq c) as (k & Hik & Hc); [left; rewrite Es; set_solver|].
  destruct (Hk _ _ Hik) as (_ & Hp & Hf & Hs). unfold listen_subscribing, sendOrDrop. simpl. rewrite Hik. simpl.
  unfold place, known in Hp. rewrite Hc, Es in Hp.
  destruct (k_closed k) eqn:Ecl.
  { right. unfold offer. rewrite Ecl. simpl. split; [done|]. destruct (k_pc k); set_solver. }
  destruct (offer_open k server_start Ecl) as (k' & Hk'). rewrite Hk'. simpl. left.
  destruct (offer_keeps _ _ _ Hk') as (E1 & E2 & E3 & E4).
  assert (k_offered k = []) as Eo by (destruct (k_pc k); set_solver).
  rewrite Eo, (flow_open k Eo Hf) in E4. simpl in E4.
  eapply (change_ok w _ (c_msgC c) k k'); try done; simpl.
  - intros c' Hne. rewrite Es. rewrite Hc in Hne. set_solver.
  - split; [lia|done].
  - unfold listener_ok in *. simpl. by rewrite Hpc in *.
  - unfold place, known. simpl. rewrite E1, E2, E3, E4, Hc. destruct (k_pc k); set_solver.
  - by eapply offer_flow.
  - right. exists (w_log w), [], []. rewrite E4. simpl. rewrite app_nil_r. split_and!; try done.
    intros _. by rewrite pending_select.
Qed.

Lemma listen_unsubscribing_ok c cs w :
  world_ok w -> w_pc w = LSelect -> w_unsubscribing w = c :: cs -> still_ok (listen_unsubscribing c cs w).
Proof.
  intros Hw Hpc Es. pose proof Hw as (Hq & Hl & Hi & Hk). destruct Hq as [[Hq1 Hq2] Hq].
  destruct cs as [|]; [|rewrite Es in Hq2; simpl in Hq2; lia].
  destruct (Hq c) as (k & Hik & Hc); [right; left; rewrite Es; set_solver|].
  destruct (Hk _ _ Hik) as (_ & Hp & Hf & Hs). unfold listen_unsubscribing, close. simpl. rewrite Hik. simpl.
  unfold place, known in Hp. rewrite Hc, Es in Hp. destruct (k_pc k) eqn:Epc; try set_solver.
  destruct Hp as [(_ & Ecl & Hp)|[? _]]; [|set_solver]. rewrite Ecl. simpl. left.
  eapply (change_ok w _ (c_msgC c) k (set_closed k)); try done; simpl.
  - intros c' Hne. rewrite Es. rewrite Hc in Hne. set_solver.
  - by intros ->.
  - split; [done|lia].
  - unfold listener_ok in *. simpl. by rewrite Hpc in *.
  - unfold place, known. simpl. rewrite Epc, Hc. right. split_and!; [set_solver|done|set_solver|].
    intros Hin. rewrite bool_decide_true by set_solver. by rewrite orb_true_r.
  - apply (stream_ext w); [done|simpl; set_solver|done|exact Hs].
Qed.

Lemma is_order_spec order w : is_order order w = true -> NoDup order /\ forall c, c ∈ order <-> c ∈ w_clients w.
Proof.
  unfold is_order. rewrite andb_true_iff, !bool_decide_eq_true. intros [Hn He]. split; [done|]. intros c. rewrite <- He.
  by rewrite elem_of_list_to_set.
Qed.

Lemma broadcast_ok f m order w :
  world_ok w -> w_pc w = LSelect -> is_order order w = true -> plain m -> (f = false -> m_senderCtx m = Background) ->
  world_ok (broadcast f m order w).
Proof.
  intros (Hq & Hl & (H1 & H2 & H3 & H4) & Hk) Hpc Ho Hm Hb. apply is_order_spec in Ho as [Hn Ho].
  split_and!; [done| | |].
  - unfold listener_ok. simpl. split_and!; [done|by intros c; rewrite Ho|eauto].
  - unfold ids_ok. simpl. rewrite fmap_app, length_app, seq_app, fmap_app, H1. simpl.
    rewrite H2, Zplus_mod_idemp_l, Nat.add_1_r, Nat2Z.inj_succ. unfold Z.succ.
    split_and!; [done..|]. apply Forall_app. split; [done|]. by constructor.
  - intros i k Hik. destruct (Hk i k Hik) as (Hid & Hp & Hf & Hs). split_and!; [done|exact Hp|done|].
    destruct Hs as [Hs|(l1 & l & l2 & E1 & E2 & E3 & E4)]; [by left|]. right.
    exists l1, l, (l2 ++ [(f, set_id ((w_eventId w + 1) mod 2 ^ 64) m)]). simpl. rewrite E1, <- !app_assoc. split_and!; try done.
    intros Hc. rewrite (E4 Hc), pending_select by done. unfold pending. simpl. by rewrite decide_True by by apply Ho.
Qed.

Lemma visit_end_ok f m w : world_ok w -> w_pc w = LSending f m [] -> world_ok (set_listener LSelect w).
Proof.
  intros (Hq & Hl & Hi & Hk) Hpc. split_and!; [done..|]. intros i k Hik. destruct (Hk i k Hik) as (Hid & Hp & Hf & Hs).
  split_and!; [done|exact Hp|done|]. apply (stream_ext w); [done|done| |exact Hs]. unfold pending. by rewrite Hpc.
Qed.

(** A visit adds the event to the part of the log that its client was offered. *)
Lemma visit_stream f m c rest w w' k k' :
  w_pc w = LSending f m (c :: rest) -> c ∉ rest -> w_pc w' = LSending f m rest -> w_log w' = w_log w ->
  k_client k = c -> k_client k' = c -> c ∈ w_clients w -> k_offered k <> [] -> stream w k ->
  (if addressed c (f, m) then exists b, k_offered k' = k_offered k ++ [(m, b)] else k_offered k' = k_offered k) ->
  stream w' k'.
Proof.
  intros Hpc Hr Hpc' Hlog Ec Ec' Hc Hne [Hs|(l1 & l & l2 & E1 & E2 & E3 & E4)] Ho; [done|]. right.
  rewrite Ec in *. rewrite Ec'. specialize (E4 Hc). unfold pending in E4. rewrite Hpc, decide_True in E4 by set_solver.
  exists l1, (l ++ [(f, m)]), []. rewrite Hlog, E1, E4, app_nil_r. split_and!; [done|..].
  - rewrite list.filter_app, fmap_app. rewrite filter_cons, filter_nil. destruct (addressed c (f, m)) eqn:Ea.
    + destruct Ho as (b & ->). rewrite decide_True by done. by rewrite fmap_app, E2.
    + rewrite decide_False by done. simpl. by rewrite app_nil_r, Ho.
  - destruct (addressed c (f, m)); [destruct Ho as (b & ->)|by rewrite Ho]. by apply lookup_app_l_Some.
  - intros _. unfold pending. by rewrite Hpc', decide_False.
Qed.

Lemma visit_ok f m c rest w :
  world_ok w -> w_pc w = LSending f m (c :: rest) -> world_ok (visit f m c rest w).
Proof.
  intros Hw Hpc. pose proof Hw as (Hq & Hl & Hi & Hk). unfold listener_ok in Hl. rewrite Hpc in Hl. destruct Hl as (Hn & Hin & Hlog).
  apply list.NoDup_cons in Hn as [Hnr Hn]. assert (c ∈ w_clients w) as Hc by (apply Hin; set_solver).
  destruct (proj2 Hq c) as (k & Hik & Ec); [by right; right|]. destruct (Hk _ _ Hik) as (_ & Hp & Hf & Hs).
  assert (k_closed k = false /\ k_offered k <> []) as [Hcl Hne].
  { unfold place, known in Hp. rewrite Ec in Hp. destruct (k_pc k); set_solver. }
  assert (exists k', visit f m c rest w = set_conn (c_msgC c) k' (set_listener (LSending f m rest) w) /\
    k_client k' = k_client k /\ k_pc k' = k_pc k /\ k_closed k' = k_closed k /\ flow k' /\
    (if addressed c (f, m) then exists b, k_offered k' = k_offered k ++ [(m, b)] else k_offered k' = k_offered k))
    as (k' & Hv & H2 & H3 & H4 & H5 & H7).
  { unfold visit. destruct (addressed c (f, m)).
    - destruct (offer_open k m Hcl) as (k' & Hk'). destruct (offer_keeps _ _ _ Hk') as (E1 & E2 & E3 & E4).
      exists k'. unfold sendOrDrop. simpl. rewrite Hik. simpl. rewrite Hk'. simpl.
      split_and!; try done; [congruence|by eapply offer_flow|eauto].
    - exists k. split_and!; try done. unfold set_conn, set_listener. simpl. by rewrite insert_id. }
  rewrite Hv. eapply (change_ok w _ (c_msgC c) k k'); try done; simpl.
  - intros c' Hne'. split_and!; try done. unfold pending. rewrite Hpc. simpl. rewrite Ec in Hne'.
    destruct (decide (c' ∈ rest)), (decide (c' ∈ c :: rest)); set_solver.
  - apply Hq.
  - unfold listener_ok. simpl. split_and!; [done| |done]. intros c' Hc'. apply Hin. set_solver.
  - unfold place, known in *. simpl. rewrite H2, H3, H4. rewrite Ec in *. destruct (k_pc k); destruct (addressed c (f, m));
      try destruct H7 as (b & ->); try rewrite H7; try done;
      naive_solver (by destruct (k_offered k)).
  - eapply visit_stream; try done. by rewrite H2.
Qed.

Lemma perform_ok a w w' : world_ok w -> perform a w = Some w' -> still_ok w'.
Proof.
  intros Hw Ha. unfold perform in Ha. destruct (w_pc w) as [|f m rest|] eqn:Hpc; [..|done]; destruct a; try done;
    try (apply bind_Some in Ha as (k & Hik & Ha); left;
         first [by eapply Subscribe_ok|by eapply Unsubscribe_ok|by eapply local_action_ok]).
  all: try (case_cond; [|done]; injection Ha as <-; left; by apply SendMessage_ok).
  all: try (destruct (w_conns w !! i) eqn:Hik; [done|]; injection Ha as <-; left; by apply Serve_ok).
  - destruct (w_subscribing w) as [|c cs] eqn:Es; [done|]. injection Ha as <-. by apply listen_subscribing_ok.
  - destruct (w_unsubscribing w) as [|c cs] eqn:Es; [done|]. injection Ha as <-. by apply listen_unsubscribing_ok.
  - destruct (w_publish w) as [|m ms] eqn:Ep; [done|]. destruct (is_order order w) eqn:Ho; [|done]. injection Ha as <-. left.
    destruct Hw as (Hq & Hl & (H1 & H2 & H3 & H4) & Hk). rewrite Ep in H3. apply Forall_cons_1 in H3 as [Hm H3].
    apply broadcast_ok; [|done..]. by split_and!.
  - destruct (bool_decide (w_clients w = ∅)); [by injection Ha as <-; left|].
    destruct (is_order order w) eqn:Ho; [|done]. injection Ha as <-. left. apply broadcast_ok; try done. apply (prepareMessage_plain 0).
  - destruct rest as [|c rest]; injection Ha as <-; left; [by eapply visit_end_ok|by apply visit_ok].
Qed.

Lemma start_ok : world_ok GetBroker.
Proof. by split_and!; try (split_and!; simpl; try lia; set_solver). Qed.

Lemma reachable_ok w : reachable w -> still_ok w.
Proof.
  intros Hr. refine (steps_invariant _ still_ok _ _ _ _ Hr); [|left; apply start_ok].
  intros w1 w2 [Hw|[Hp _]] [a Ha]; [by eapply perform_ok|]. unfold perform in Ha. by rewrite Hp in Ha.
Qed.

Lemma running_ok w : reachable w -> w_pc w <> LPanicked -> world_ok w.
Proof. intros Hr Hp. by destruct (reachable_ok w Hr) as [|[]]. Qed.

(** ** What a connection receives *)

(** C27: every connection is offered the start event first and then exactly the
    events addressed to it of an uninterrupted part of the log, in order; the part
    reaches the end of the log while the client is registered and no broadcast is
    going on; the log is numbered from one without gaps.  What is written is a
    subsequence of what the channel took, and while the connection lasts it is all
    of it but at most three messages that are on their way. *)
Theorem event_stream w i k :
  reachable w -> w_pc w <> LPanicked -> w_conns w !! i = Some k ->
  (fun e => m_id e.2) <$> w_log w = (fun n => Z.of_nat n mod 2 ^ 64) <$> seq 1 (List.length (w_log w)) /\
  (k_offered k = [] \/
   exists l1 l l2, w_log w = l1 ++ l ++ l2 /\
     (k_offered k).*1 = server_start :: (filter (fun e => addressed (k_client k) e = true) l).*2 /\
     k_offered k !! 0%nat = Some (server_start, true) /\
     (k_client k ∈ w_clients w -> w_pc w = LSelect -> l2 = [])) /\
  k_written k `sublist_of` accepted k /\
  (serving (k_pc k) = true -> k_done k = false ->
   accepted k = k_written k ++ in_flight k /\ (List.length (in_flight k) <= 3)%nat).
Proof.
  intros Hr Hp Hik. destruct (running_ok w Hr Hp) as (_ & _ & (Hid & _) & Hk). destruct (Hk i k Hik) as (_ & _ & (H1 & H2 & H3) & Hs).
  split_and!; [done| | |].
  - destruct Hs as [Hs|(l1 & l & l2 & E1 & E2 & E3 & E4)]; [by left|]. right. exists l1, l, l2. split_and!; try done.
    intros Hc Hpc. by rewrite (E4 Hc), pending_select.
  - etrans; [|exact H1]. by apply sublist_inserts_r.
  - intros Hs' Hd. split; [by apply H2|]. unfold in_flight, bufferSize in *. rewrite !length_app.
    destruct (k_pc k), (k_reader k); simpl; lia.
Qed.

(** A message that was written is the start event or in the log. *)
Lemma written_from w i k m :
  world_ok w -> w_conns w !! i = Some k -> m ∈ k_written k ->
  m = server_start \/ exists f, (f, m) ∈ w_log w /\ addressed (k_client k) (f, m) = true.
Proof.
  intros (_ & _ & _ & Hk) Hik Hm. destruct (Hk i k Hik) as (_ & _ & (H1 & _) & Hs).
  assert (m ∈ (k_offered k).*1) as Ho.
  { assert (m ∈ accepted k) as Ha by (eapply elem_of_sublist; [|exact H1]; set_solver).
    apply list_elem_of_omap in Ha as ([m' b] & Hin & Hb). apply list_elem_of_fmap. exists (m', b). destruct b; naive_solver. }
  destruct Hs as [Hs|(l1 & l & l2 & E1 & E2 & _)]; [by rewrite Hs in Ho; set_solver|]. rewrite E2 in Ho.
  apply elem_of_cons in Ho as [Ho|Ho]; [by left|right]. apply list_elem_of_fmap in Ho as ([f m'] & -> & Hin).
  apply list_elem_of_filter in Hin as [Ha Hin]. exists f. split; [|done]. rewrite E1. set_solver.
Qed.

(** An event that a user caused from one of their clients, and that is not a
    broadcast, is never written to that client nor to a client of another user. *)
Theorem events_stay_with_user w i k m id u :
  reachable w -> w_pc w <> LPanicked -> w_conns w !! i = Some k -> m ∈ k_written k ->
  ctx_broadcastToAll (m_senderCtx m) <> Some true ->
  ctx_clientUniqueId (m_senderCtx m) = Some id -> ctx_username (m_senderCtx m) = Some u ->
  c_clientUniqueId (k_client k) <> id /\ c_username (k_client k) = u.
Proof.
  intros Hr Hp Hik Hm Hb Hid Hu. pose proof (running_ok w Hr Hp) as Hw.
  destruct (written_from w i k m Hw Hik Hm) as [->|(f & Hin & Ha)]; [done|].
  destruct Hw as (_ & _ & (_ & _ & _ & Hl) & _). rewrite list.Forall_forall in Hl. apply Hl in Hin as [_ Hf]. simpl in Hf.
  destruct f; [|by rewrite Hf in Hid]. unfold addressed, shouldSend in Ha. simpl in Ha. rewrite Hid, Hu in Ha.
  destruct (ctx_broadcastToAll _) as [[]|]; simpl in Ha; [done|..]; case_conds; bprop; done.
Qed.

(** C28: the bytes of the events written to a connection are read back, as browsers
    read event streams, as exactly those events. *)
Theorem sse_roundtrip w i k :
  reachable w -> w_pc w <> LPanicked -> w_conns w !! i = Some k ->
  EventSource (String.concat "" (frame <$> k_written k)) = received_of <$> k_written k.
Proof.
  intros Hr Hp Hik. pose proof (running_ok w Hr Hp) as Hw. unfold EventSource. apply read_frames; [|done|lia].
  apply list.Forall_forall. intros m Hm. destruct (written_from w i k m Hw Hik Hm) as [->|(f & Hin & _)]; [apply (prepareMessage_plain 0)|].
  destruct Hw as (_ & _ & (_ & _ & _ & Hl) & _). rewrite list.Forall_forall in Hl. by apply Hl in Hin as [? _].
Qed.

(** ** The listener never waits *)

Definition by_listener (a : action) : Prop :=
  match a with ListenSubscribing | ListenUnsubscribing | ListenPublish _ | ListenKeepAlive _ _ | ListenVisit => True | _ => False end.

(** The broadcasts of the messages of a queue. *)
Fixpoint numbered (eventId : Z) (l : list message) : list (bool * message) :=
  match l with
  | [] => []
  | m :: l => let eventId := (eventId + 1) mod 2 ^ 64 in (true, set_id eventId m) :: numbered eventId l
  end.

(** The listener gets from one world to another by itself. *)
Definition listens (w w' : world) : Prop := exists l, Forall by_listener l /\ run l w = Some w'.

Lemma run_app l1 l2 w : run (l1 ++ l2) w = w ← run l1 w; run l2 w.
Proof. revert w. induction l1 as [|a l1 IH]; intros w; [done|]. simpl. destruct (perform a w); [apply IH|done]. Qed.

#[local] Instance listens_preorder : PreOrder listens.
Proof.
  split; [by exists []|]. intros w1 w2 w3 (l1 & Hl1 & H1) (l2 & Hl2 & H2). exists (l1 ++ l2). split; [by apply Forall_app|].
  rewrite run_app, H1. done.
Qed.

Lemma listens_one a w w' : by_listener a -> perform a w = Some w' -> listens w w'.
Proof. intros Hb Ha. exists [a]. split; [by constructor|]. simpl. by rewrite Ha. Qed.

(** What a visit leaves alone. *)
Definition same_queues (w w' : world) : Prop :=
  w_publish w' = w_publish w /\ w_subscribing w' = w_subscribing w /\ w_unsubscribing w' = w_unsubscribing w /\
  w_log w' = w_log w /\ w_eventId w' = w_eventId w /\ w_overtaken w' = w_overtaken w.

Lemma visit_keeps f m c rest w :
  world_ok (visit f m c rest w) -> same_queues w (visit f m c rest w) /\ w_pc (visit f m c rest w) = LSending f m rest.
Proof.
  intros (_ & Hl & _). revert Hl. unfold listener_ok, visit, sendOrDrop. simpl. case_cond; [|done].
  destruct (w_conns w !! c_msgC c) as [k|]; [|done]. by destruct (offer k m).
Qed.

Lemma broadcast_ends rest : forall f m w, world_ok w -> w_pc w = LSending f m rest ->
  exists w', listens w w' /\ world_ok w' /\ w_pc w' = LSelect /\ same_queues w w'.
Proof.
  induction rest as [|c rest IH]; intros f m w Hw Hpc.
  - exists (set_listener LSelect w). split_and!; [|by eapply visit_end_ok|done..].
    apply (listens_one ListenVisit); [done|]. unfold perform. by rewrite Hpc.
  - pose proof (visit_ok f m c rest w Hw Hpc) as Hv. destruct (visit_keeps _ _ _ _ _ Hv) as [Hs Hpc'].
    destruct (IH f m _ Hv Hpc') as (w' & Hl & Hw' & Hp' & Hs'). exists w'. split_and!; [|done..|].
    + etrans; [|exact Hl]. apply (listens_one ListenVisit); [done|]. unfold perform. by rewrite Hpc.
    + unfold same_queues in *. intuition congruence.
Qed.

Lemma select_reached w : world_ok w -> exists w', listens w w' /\ world_ok w' /\ w_pc w' = LSelect /\ same_queues w w'.
Proof.
  intros Hw. destruct (w_pc w) as [|f m rest|] eqn:Hpc; [exists w|by eapply broadcast_ends|].
  - split_and!; [reflexivity|done..].
  - destruct Hw as (_ & Hl & _). unfold listener_ok in Hl. by rewrite Hpc in Hl.
Qed.

Lemma publish_drained l : forall w, world_ok w -> w_pc w = LSelect -> w_publish w = l ->
  exists w', listens w w' /\ world_ok w' /\ w_pc w' = LSelect /\ w_publish w' = [] /\
    w_subscribing w' = w_subscribing w /\ w_unsubscribing w' = w_unsubscribing w /\
    w_log w' = w_log w ++ numbered (w_eventId w) l /\ w_overtaken w' = w_overtaken w.
Proof.
  induction l as [|m l IH]; intros w Hw Hpc Hl.
  { exists w. rewrite app_nil_r. split_and!; [reflexivity|done..]. }
  assert (perform (ListenPublish (elements (w_clients w))) w =
    Some (broadcast true m (elements (w_clients w)) (set_publish l w))) as Ha.
  { unfold perform. rewrite Hpc, Hl. unfold is_order. rewrite !bool_decide_true; [done|apply list_to_set_elements_L|apply NoDup_elements]. }
  destruct (perform_ok _ _ _ Hw Ha) as [Hb|[Hb _]]; [|done].
  destruct (broadcast_ends _ _ _ _ Hb eq_refl) as (w1 & Hl1 & Hw1 & Hp1 & (E1 & E2 & E3 & E4 & E5 & E6)).
  destruct (IH w1 Hw1 Hp1 E1) as (w2 & Hl2 & Hw2 & Hp2 & F1 & F2 & F3 & F4 & F5). simpl in *.
  exists w2. split_and!; try congruence.
  - etrans; [|exact Hl2]. etrans; [|exact Hl1]. by apply (listens_one (ListenPublish (elements (w_clients w)))).
  - rewrite F4, E4, E5, <- app_assoc. done.
Qed.

Lemma subscribing_drained w : world_ok w -> w_pc w = LSelect -> w_overtaken w = false ->
  exists w', listens w w' /\ world_ok w' /\ w_pc w' = LSelect /\ w_subscribing w' = [] /\ w_publish w' = w_publish w /\
    w_unsubscribing w' = w_unsubscribing w /\ w_log w' = w_log w /\ w_eventId w' = w_eventId w /\ w_overtaken w' = false.
Proof.
  intros Hw Hpc Ho. destruct (w_subscribing w) as [|c cs] eqn:Es.
  { exists w. split_and!; [reflexivity|done..]. }
  assert (cs = []) as -> by (destruct Hw as ([[Hq _] _] & _); rewrite Es in Hq; destruct cs; simpl in Hq; [done|lia]).
  assert (perform ListenSubscribing w = Some (listen_subscribing c [] w)) as Ha by (unfold perform; by rewrite Hpc, Es).
  destruct (perform_ok _ _ _ Hw Ha) as [Hb|[_ Hb]]; revert Hb; unfold listen_subscribing, sendOrDrop; simpl.
  - intros Hb. exists (listen_subscribing c [] w). split; [by apply (listens_one ListenSubscribing)|]. revert Hb. unfold listen_subscribing, sendOrDrop.
    simpl. destruct (w_conns w !! c_msgC c) as [k|]; [destruct (offer k server_start)|]; simpl; intros Hb;
      [by split_and!|by destruct Hb as (_ & Hl & _)|by split_and!].
  - destruct (w_conns w !! c_msgC c) as [k|]; [destruct (offer k server_start)|]; simpl; congruence.
Qed.

Lemma unsubscribing_drained w : world_ok w -> w_pc w = LSelect -> w_overtaken w = false -> w_subscribing w = [] ->
  exists w', listens w w' /\ world_ok w' /\ w_pc w' = LSelect /\ w_unsubscribing w' = [] /\ w_subscribing w' = [] /\
    w_publish w' = w_publish w /\ w_log w' = w_log w /\ w_eventId w' = w_eventId w /\ w_overtaken w' = false.
Proof.
  intros Hw Hpc Ho Es. destruct (w_unsubscribing w) as [|c cs] eqn:Eu.
  { exists w. split_and!; [reflexivity|done..]. }
  pose proof Hw as ([[_ Hq] Hc] & _ & _ & Hk). rewrite Eu in Hq. destruct cs as [|]; [|simpl in Hq; lia].
  destruct (Hc c) as (k & Hik & Ec); [rewrite Eu; set_solver|]. destruct (Hk _ _ Hik) as (_ & Hp & _ & _).
  unfold place, known in Hp. rewrite Ec, Eu, Es in Hp.
  assert (k_closed k = false /\ c ∈ w_clients w) as [Hcl Hin] by (destruct (k_pc k); set_solver).
  assert (perform ListenUnsubscribing w = Some (listen_unsubscribing c [] w)) as Ha by (unfold perform; by rewrite Hpc, Eu).
  exists (listen_unsubscribing c [] w). split; [by apply (listens_one ListenUnsubscribing)|].
  destruct (perform_ok _ _ _ Hw Ha) as [Hb|[Hb _]]; revert Hb; unfold listen_unsubscribing, close; simpl; rewrite Hik; simpl;
    rewrite Hcl; simpl; [|by rewrite Hpc].
  intros Hb. split_and!; try done. rewrite Ho, bool_decide_false by naive_solver. done.
Qed.

(** Unless the end of a connection has overtaken its beginning, the listener
    is alive and can empty its three queues by itself, whatever the clients do: it
    never waits for one.  Each message waiting is broadcast, in order, with the
    next numbers. *)
Theorem broker_progress w :
  reachable w -> w_overtaken w = false ->
  exists l w', Forall by_listener l /\ run l w = Some w' /\ w_pc w' = LSelect /\
    w_publish w' = [] /\ w_subscribing w' = [] /\ w_unsubscribing w' = [] /\ w_overtaken w' = false /\
    w_log w' = w_log w ++ numbered (w_eventId w) (w_publish w).
Proof.
  intros Hr Ho. destruct (reachable_ok w Hr) as [Hw|[_ Hp]]; [|congruence].
  destruct (select_reached w Hw) as (w1 & L1 & Hw1 & P1 & (A1 & A2 & A3 & A4 & A5 & A6)).
  destruct (subscribing_drained w1 Hw1 P1) as (w2 & L2 & Hw2 & P2 & B1 & B2 & B3 & B4 & B5 & B6); [congruence|].
  destruct (unsubscribing_drained w2 Hw2 P2 B6 B1) as (w3 & L3 & Hw3 & P3 & C1 & C2 & C3 & C4 & C5 & C6).
  destruct (publish_drained _ w3 Hw3 P3 eq_refl) as (w4 & L4 & Hw4 & P4 & D1 & D2 & D3 & D4 & D5).
  assert (listens w w4) as (l & Hl & Hrun) by (etrans; [exact L1|]; etrans; [exact L2|]; etrans; [exact L3|exact L4]).
  exists l, w4. split_and!; congruence.
Qed.
End wire.

(** ** Examples *)
Module EventExamples.
#[export] Instance events_env : EventEnv :=
  {| time_text := fun _ => "2026-01-01T00:00:00Z"; ServerStartTime := 0; Version := "0.60" |}.
#[export] Instance events_laws : EventLaws.
Proof. split. done. Qed.

Definition jane (unique : string) : Request := mkReq (Some "jane") "10.0.0.1" "Browser" (Some unique).
Definition john : Request := mkReq (Some "john") "10.0.0.2" "Browser" (Some "c").
Definition by_jane : context := mkCtx None (Some "a") (Some "jane").
Definition starred : Event := RefreshResource (With "song" ["1"; "2"] None).

(** Jane has two browsers open and John one; Jane stars two songs in her first,
    and her second one reads the event. *)
Definition connect (r : Request) (i : nat) : list action := [Serve r "id" false i; Subscribe i; ListenSubscribing].
Definition reads (i : nat) : list action := [ReaderTake i; HandlerNext i; HandlerWrite i true].
Definition all_clients : list client :=
  [new_client (jane "b") "id" false 1; new_client john "id" false 2; new_client (jane "a") "id" false 0].
Definition session : list action :=
  connect (jane "a") 0 ++ connect (jane "b") 1 ++ connect john 2 ++ reads 0 ++ reads 1 ++ reads 2 ++
  [SendMessage by_jane starred; ListenPublish all_clients; ListenVisit; ListenVisit; ListenVisit; ListenVisit] ++ reads 1.
Definition after_session : world := default GetBroker (run session GetBroker).

Lemma run_reachable l w w' : reachable w -> run l w = Some w' -> reachable w'.
Proof.
  revert w. induction l as [|a l IH]; simpl; intros w Hw Hl; [by injection Hl as <-|].
  destruct (perform a w) as [w1|] eqn:Ha; [|done]. apply (IH w1); [|done]. eapply steps_snoc; [exact Hw|]. by exists a.
Qed.

Lemma default_reachable l : bool_decide (run l GetBroker = None) = false -> reachable (default GetBroker (run l GetBroker)).
Proof.
  intros Hl. destruct (run l GetBroker) as [w|] eqn:E; [|done]. eapply run_reachable; [apply steps_refl|exact E].
Qed.

Lemma after_session_reachable : reachable after_session.
Proof. apply default_reachable. by vm_compute. Qed.

Definition conn_of (i : nat) : conn := default (new_conn (new_client john "" false 9)) (w_conns after_session !! i).

Lemma conn_of_lookup i : (i < 3)%nat -> w_conns after_session !! i = Some (conn_of i).
Proof.
  intros Hi. unfold conn_of. destruct (w_conns after_session !! i) eqn:E; [done|]. exfalso.
  destruct i as [|[|[|]]]; [by vm_compute in E..|lia].
Qed.

Lemma event_stream_witness :
  m_event <$> k_written (conn_of 1) = ["serverStart"; "refreshResource"] /\
  m_event <$> k_written (conn_of 2) = ["serverStart"] /\
  accepted (conn_of 1) = k_written (conn_of 1) ++ in_flight (conn_of 1).
Proof.
  split; [by vm_compute|]. split; [by vm_compute|].
  destruct (event_stream after_session 1 (conn_of 1) after_session_reachable) as (_ & _ & _ & He);
    [by vm_compute|by apply conn_of_lookup; lia|]. by apply He.
Defined.

Lemma events_stay_with_user_witness : c_clientUniqueId (k_client (conn_of 1)) <> "a" /\ c_username (k_client (conn_of 1)) = "jane".
Proof.
  apply (events_stay_with_user after_session 1 (conn_of 1) (set_id 1 (prepareMessage by_jane starred)) "a" "jane" after_session_reachable);
    [by vm_compute|by apply conn_of_lookup; lia| |done..]. vm_compute. apply list_elem_of_In. simpl. auto.
Defined.

Lemma sse_roundtrip_witness :
  EventSource (String.concat "" (frame <$> k_written (conn_of 1))) = received_of <$> k_written (conn_of 1).
Proof. apply (sse_roundtrip after_session 1 (conn_of 1) after_session_reachable); [by vm_compute|by apply conn_of_lookup; lia]. Defined.

(** Two messages and a client that left are waiting. *)
Definition waiting : list action :=
  connect (jane "a") 0 ++ [Disconnect 0; ReaderEnd 0; HandlerEnd 0; Unsubscribe 0; SendMessage by_jane starred;
                           SendBroadcastMessage by_jane (NowPlayingCount 3)].
Definition after_waiting : world := default GetBroker (run waiting GetBroker).
Lemma broker_progress_witness : List.length (w_publish after_waiting) = 2%nat /\ List.length (w_unsubscribing after_waiting) = 1%nat /\
  exists l w', run l after_waiting = Some w' /\ w_publish w' = [] /\ w_unsubscribing w' = [].
Proof.
  split; [by vm_compute|]. split; [by vm_compute|].
  destruct (broker_progress after_waiting) as (l & w' & _ & H1 & _ & H2 & _ & H3 & _);
    [apply default_reachable; by vm_compute|by vm_compute|by exists l, w'].
Defined.

(** A connection that ends at once: while the listener is busy, its beginning and
    its end wait in two channels.  When the listener takes the end first, it closes
    the channel, and then registers the client and sends on the closed channel. *)
Example early_close_panics :
  option_map w_pc (run [Serve john "id" false 0; Subscribe 0; Disconnect 0; ReaderEnd 0; HandlerEnd 0; Unsubscribe 0;
                        ListenUnsubscribing; ListenSubscribing] GetBroker) = Some LPanicked.
Proof. by vm_compute. Qed.

(** The bytes of an event. *)
Example frame_ex : frame (set_id 7 (prepareMessage Background (NowPlayingCount 2))) =
  "id: 7" +:+ newline +:+ "event: nowPlayingCount" +:+ newline +:+
  "data: {" +:+ String quote ("count" +:+ String quote (":2}" +:+ newline +:+ newline)).
Proof. by vm_compute. Qed.
End EventExamples.
