(* ===== verification/Agents.v ===== *)
(** * Metadata agents: order, fallback and cooldowns

    [core/agents/agents.go] with the errors of [interfaces.go]: the meta-agent
    asks the enabled agents in the configured order until one has a usable
    answer, and leaves alone for a while those that asked to be retried later.
    The cooldowns are shared by all requests.  A request runs through its loop in
    steps: up to the call of an agent ([next]), and from its answer on
    ([answer]); requests interleave at that grain, since only the two sections
    of [cooldowns] that hold its mutex touch shared state.

    What agents answer, which plugins are loaded, when a request is cancelled and
    how time passes are arguments of the steps.  [d_trace] and [w_log] record for
    the theorems what happened to each agent of a request, and when agents were
    asked and asked to be left alone. *)

From S2P Require Import Prelude GoStrings GoText GoFloat Matcher.
From Stdlib Require Import Ascii Floats.SpecFloat.

Local Open Scope Z_scope.

(** ** Values, errors, methods *)
Record AlbumInfo := mkInfo { in_Name : string; in_MBID : string; in_Description : string; in_URL : string }.
Record ExternalImage := mkImage { im_URL : string; im_Size : Z }.

Inductive value :=
| VText (s : string)
| VArtists (l : list Artist)
| VImages (l : list ExternalImage)
| VSongs (l : list Song)
| VInfo (i : option AlbumInfo).

(** The errors [record] and the callers tell apart. *)
Inductive agent_error := ErrNotFound | RetryLaterError (RetryIn : Z) | errUnsupported | OtherError (s : string).
Definition ErrRetryLater : agent_error := RetryLaterError 0.

Definition second : Z := 1000000000.
Definition agentCooldown : Z := 60 * second.
Definition MaxRetryIn : Z := 3600 * second.
Definition maxRetryInSeconds : Z := MaxRetryIn / second.

(** [strconv.ParseInt(seconds, 10, 64)] is [Atoi] at 64 bits. *)
Definition ParseRetryIn (seconds : string) : Z :=
  match Atoi seconds with
  | None => 0
  | Some secs => if secs <=? 0 then 0 else wrap64 (Z.min secs maxRetryInSeconds * second)
  end.

Inductive capability :=
| ArtistMBIDRetriever | ArtistURLRetriever | ArtistBiographyRetriever | ArtistSimilarRetriever | ArtistImageRetriever
| ArtistTopSongsRetriever | AlbumInfoRetriever | AlbumImageRetriever | SimilarSongsByTrackRetriever
| SimilarSongsByAlbumRetriever | SimilarSongsByArtistRetriever.

(** An agent: its name, and the interfaces it implements. *)
Record Interface := mkAgent { AgentName : string; implements : capability -> bool }.

Inductive method :=
| GetArtistMBID (id name : string)
| GetArtistURL (id name mbid : string)
| GetArtistBiography (id name mbid : string)
| GetSimilarArtists (id name mbid : string) (limit : Z)
| GetArtistImages (id name mbid : string)
| GetArtistTopSongs (id artistName mbid : string) (count : Z)
| GetAlbumInfo (name artist mbid : string)
| GetAlbumImages (name artist mbid : string)
| GetSimilarSongsByTrack (id name artist mbid : string) (count : Z)
| GetSimilarSongsByAlbum (id name artist mbid : string) (count : Z)
| GetSimilarSongsByArtist (id name mbid : string) (count : Z).

Definition retriever (m : method) : capability :=
  match m with
  | GetArtistMBID _ _ => ArtistMBIDRetriever
  | GetArtistURL _ _ _ => ArtistURLRetriever
  | GetArtistBiography _ _ _ => ArtistBiographyRetriever
  | GetSimilarArtists _ _ _ _ => ArtistSimilarRetriever
  | GetArtistImages _ _ _ => ArtistImageRetriever
  | GetArtistTopSongs _ _ _ _ => ArtistTopSongsRetriever
  | GetAlbumInfo _ _ _ => AlbumInfoRetriever
  | GetAlbumImages _ _ _ => AlbumImageRetriever
  | GetSimilarSongsByTrack _ _ _ _ _ => SimilarSongsByTrackRetriever
  | GetSimilarSongsByAlbum _ _ _ _ _ => SimilarSongsByAlbumRetriever
  | GetSimilarSongsByArtist _ _ _ _ => SimilarSongsByArtistRetriever
  end.

(** The zero value of what a method returns. *)
Definition zero (m : method) : value :=
  match m with
  | GetArtistMBID _ _ | GetArtistURL _ _ _ | GetArtistBiography _ _ _ => VText ""
  | GetSimilarArtists _ _ _ _ => VArtists []
  | GetArtistImages _ _ _ | GetAlbumImages _ _ _ => VImages []
  | GetAlbumInfo _ _ _ => VInfo None
  | _ => VSongs []
  end.

(** A value of the type a method returns. *)
Definition typed (m : method) (v : value) : bool :=
  match zero m, v with
  | VText _, VText _ | VArtists _, VArtists _ | VImages _, VImages _ | VSongs _, VSongs _ | VInfo _, VInfo _ => true
  | _, _ => false
  end.

(** [found] of [callAgentMethod] and [callAgentSliceMethod]. *)
Definition found (v : value) : bool :=
  match v with
  | VText s => negb (String.eqb s "")
  | VArtists l => negb (bool_decide (List.length l = 0%nat))
  | VImages l => negb (bool_decide (List.length l = 0%nat))
  | VSongs l => negb (bool_decide (List.length l = 0%nat))
  | VInfo i => bool_decide (is_Some i)
  end.

Definition LocalAgentName : string := "local".
Definition VariousArtistsID : string := "63sqASlAfjbGMuLP4JhnZU".
Definition UnknownAlbum : string := "[Unknown Album]".

(** The settings, the id of the unknown artist (a hash), and the table of
    built-in agents: [None] for a name that was not registered, [Some None] for a
    constructor that returns nil. *)
Class AgentsEnv := {
  conf_Agents : string;
  UnknownArtistID : string;
  FetchMultiplier : spec_float;
  Map : string -> option (option Interface) }.
(** [init] of [local_agent.go] registers the local agent, which is never nil. *)
Class AgentsLaws `{AgentsEnv} := { local_registered : exists ag, Map LocalAgentName = Some (Some ag) }.

Section agents.
Context `{AgentsEnv}.

(** ** The enabled agents *)
Record enabledAgent := mkEnabled { en_name : string; en_isPlugin : bool }.

(** The plugins of a loader: the names it offers, and what it loads. *)
Record PluginLoader := mkLoader { PluginNames : list string; LoadMediaAgent : string -> option Interface }.

Definition classify (availablePlugins : list string) (name : string) : option enabledAgent :=
  if bool_decide (is_Some (Map name)) then Some (mkEnabled name false)
  else if bool_decide (name ∈ availablePlugins) then Some (mkEnabled name true)
  else None.

Definition getEnabledAgentNames (pluginLoader : option PluginLoader) : list enabledAgent :=
  if String.eqb conf_Agents "" then [mkEnabled LocalAgentName false]
  else
    let availablePlugins := match pluginLoader with Some l => PluginNames l | None => [] end in
    let configuredAgents := SplitOn "," conf_Agents in
    let configuredAgents :=
      if bool_decide (LocalAgentName ∈ configuredAgents) then configuredAgents else configuredAgents ++ [LocalAgentName] in
    omap (classify availablePlugins) configuredAgents.

Definition getAgent (pluginLoader : option PluginLoader) (ea : enabledAgent) : option Interface :=
  if en_isPlugin ea then l ← pluginLoader; LoadMediaAgent l (en_name ea)
  else c ← Map (en_name ea); c.

(** [ArtistImageAgents] and [AlbumImageAgents]. *)
Definition agents_with (cap : capability) (pluginLoader : option PluginLoader) : list (string * Interface) :=
  omap (fun ea => ag ← getAgent pluginLoader ea; if implements ag cap then Some (en_name ea, ag) else None)
    (getEnabledAgentNames pluginLoader).
Definition ArtistImageAgents : option PluginLoader -> list (string * Interface) := agents_with ArtistImageRetriever.
Definition AlbumImageAgents : option PluginLoader -> list (string * Interface) := agents_with AlbumImageRetriever.

(** ** Cooldowns *)

(** The zero [time.Time], in nanoseconds of the Unix epoch. *)
Definition zero_time : Z := -62135596800 * second.
Abbreviation cooldowns := (gmap string Z).
Definition until_of (c : cooldowns) (name : string) : Z := default zero_time (c !! name).
Definition active (c : cooldowns) (now : Z) (name : string) : bool := now <? until_of c name.
Definition park (c : cooldowns) (now : Z) (name : string) (d : Z) : cooldowns :=
  let until := now + d in if until_of c name <? until then <[name := until]> c else c.

(** ** One request *)
Record agentAttempts := mkAttempts { throttled : bool; answered : bool }.
Definition newAttempts : agentAttempts := mkAttempts false false.

Definition skip (c : cooldowns) (now : Z) (name : string) (t : agentAttempts) : bool * agentAttempts :=
  if negb (active c now name) then (false, t) else (true, mkAttempts true (answered t)).

(** [cmp.Or(retry.RetryIn, agentCooldown)]. *)
Definition cooldown_of (retryIn : Z) : Z := if retryIn =? 0 then agentCooldown else retryIn.

Definition record (c : cooldowns) (now : Z) (name : string) (err : option agent_error) (t : agentAttempts) :
    cooldowns * agentAttempts :=
  match err with
  | Some errUnsupported => (c, t)
  | Some (RetryLaterError retryIn) => (park c now name (cooldown_of retryIn), mkAttempts true (answered t))
  | _ => (c, mkAttempts (throttled t) true)
  end.

Definition noResultErr (t : agentAttempts) : agent_error :=
  if throttled t && negb (answered t) then ErrRetryLater else ErrNotFound.

(** The answers that need no agent. *)
Definition early (m : method) : option (result agent_error value) :=
  match m with
  | GetArtistMBID id _ | GetArtistURL id _ _ | GetArtistBiography id _ _ | GetSimilarArtists id _ _ _
  | GetArtistImages id _ _ | GetArtistTopSongs id _ _ _ | GetSimilarSongsByArtist id _ _ _ =>
      if String.eqb id UnknownArtistID then Some (Err ErrNotFound)
      else if String.eqb id VariousArtistsID then Some (Ok (zero m))
      else None
  | GetAlbumInfo name _ _ | GetAlbumImages name _ _ => if String.eqb name UnknownAlbum then Some (Err ErrNotFound) else None
  | GetSimilarSongsByTrack _ _ _ _ _ | GetSimilarSongsByAlbum _ _ _ _ _ => None
  end.

(** What an agent is asked: more artists and songs than wanted, since some may
    not be in the library. *)
Definition overLimit (n : Z) : Z := int64_of_float (mul64 (float64_of_int n) FetchMultiplier).
Definition asked (m : method) : method :=
  match m with
  | GetSimilarArtists id name mbid limit => GetSimilarArtists id name mbid (overLimit limit)
  | GetArtistTopSongs id artistName mbid count => GetArtistTopSongs id artistName mbid (overLimit count)
  | m => m
  end.

(** What became of an enabled agent in a request. *)
Inductive outcome := Skipped | Missing | Unsupported | Cancelled | Failed (e : agent_error) | Empty | Found (v : value).

Inductive progress := Looping | Calling (ea : enabledAgent) (ag : Interface) | Done (r : result agent_error value).

Record dispatch := mkDispatch {
  d_method : method; d_enabled : list enabledAgent; d_todo : list enabledAgent;
  d_attempts : agentAttempts; d_pc : progress; d_trace : list (enabledAgent * outcome) }.

Definition begin (m : method) (pluginLoader : option PluginLoader) : dispatch :=
  let names := getEnabledAgentNames pluginLoader in
  match early m with
  | Some r => mkDispatch m [] [] newAttempts (Done r) []
  | None => mkDispatch m names names newAttempts Looping []
  end.

Definition resume (d : dispatch) (rest : list enabledAgent) (t : agentAttempts) (pc : progress) (e : list (enabledAgent * outcome)) :
    dispatch := mkDispatch (d_method d) (d_enabled d) rest t pc (d_trace d ++ e).

(** [callAgent], and the loop of [GetSimilarArtists]: a round up to the call of
    the agent, or without a call.  An agent without the method is left out, with
    [errUnsupported] or by [continue]. *)
Definition next (c : cooldowns) (now : Z) (pluginLoader : option PluginLoader) (done : bool) (d : dispatch) : option dispatch :=
  match d_pc d, d_todo d with
  | Looping, [] => Some (resume d [] (d_attempts d) (Done (Err (noResultErr (d_attempts d)))) [])
  | Looping, ea :: rest =>
      let '(skipped, t) := skip c now (en_name ea) (d_attempts d) in
      if skipped then Some (resume d rest t Looping [(ea, Skipped)])
      else match getAgent pluginLoader ea with
           | None => Some (resume d rest t Looping [(ea, Missing)])
           | Some ag =>
               if done then Some (resume d rest t (Done (Err (noResultErr t))) [(ea, Cancelled)])
               else if negb (implements ag (retriever (d_method d)))
               then Some (resume d rest (snd (record c now (en_name ea) (Some errUnsupported) t)) Looping [(ea, Unsupported)])
               else Some (resume d rest t (Calling ea ag) [])
           end
  | _, _ => None
  end.

(** The rest of the round, when the agent has answered. *)
Definition answer (c : cooldowns) (now : Z) (r : result agent_error value) (d : dispatch) : option (cooldowns * dispatch) :=
  match d_pc d with
  | Calling ea _ =>
      let err := match r with Ok _ => None | Err e => Some e end in
      let '(c, t) := record c now (en_name ea) err (d_attempts d) in
      Some (c, match r with
               | Err e => resume d (d_todo d) t Looping [(ea, Failed e)]
               | Ok v => if found v then resume d (d_todo d) t (Done (Ok v)) [(ea, Found v)]
                         else resume d (d_todo d) t Looping [(ea, Empty)]
               end)
  | _ => None
  end.

(** ** All requests *)
Inductive event := Parked (name : string) (at_ d : Z) | Called (name : string) (at_ : Z).

Record world := mkWorld {
  w_cooldowns : cooldowns; w_now : Z; w_dispatches : gmap nat dispatch; w_log : list event }.

Definition createAgents (now : Z) : world := mkWorld ∅ now ∅ [].

Inductive action :=
| Tick (d : Z)
| Begin (i : nat) (m : method) (pluginLoader : option PluginLoader)
| Next (i : nat) (pluginLoader : option PluginLoader) (done : bool)
| Answer (i : nat) (r : result agent_error value).

Definition perform (a : action) (w : world) : option world :=
  match a with
  | Tick d => if d <? 0 then None else Some (mkWorld (w_cooldowns w) (w_now w + d) (w_dispatches w) (w_log w))
  | Begin i m pluginLoader =>
      match w_dispatches w !! i with
      | Some _ => None
      | None => Some (mkWorld (w_cooldowns w) (w_now w) (<[i := begin m pluginLoader]> (w_dispatches w)) (w_log w))
      end
  | Next i pluginLoader done =>
      d ← w_dispatches w !! i;
      d' ← next (w_cooldowns w) (w_now w) pluginLoader done d;
      Some (mkWorld (w_cooldowns w) (w_now w) (<[i := d']> (w_dispatches w))
              (w_log w ++ match d_pc d' with Calling ea _ => [Called (en_name ea) (w_now w)] | _ => [] end))
  | Answer i r =>
      d ← w_dispatches w !! i;
      if match r with Ok v => typed (d_method d) v | Err _ => true end then
        '(c, d') ← answer (w_cooldowns w) (w_now w) r d;
        Some (mkWorld c (w_now w) (<[i := d']> (w_dispatches w))
                (w_log w ++ match d_pc d, r with
                            | Calling ea _, Err (RetryLaterError retryIn) => [Parked (en_name ea) (w_now w) (cooldown_of retryIn)]
                            | _, _ => []
                            end))
      else None
  end.

Fixpoint run (l : list action) (w : world) : option world :=
  match l with [] => Some w | a :: l => w ← perform a w; run l w end.

Definition agents_step (w w' : world) : Prop := exists a, perform a w = Some w'.
Definition reachable (w : world) : Prop := exists now, steps agents_step (createAgents now) w.

(** ** The local agent *)
Definition songsFrom (mfs : list (string * string)) : list Song :=
  (fun mf => mkSong mf.1 mf.2 "" "" [] "" "" 0) <$> mfs.

(** The loop of its [GetSimilarSongsByTrack] over the candidates, by id and title:
    the song itself is left out. *)
Fixpoint without_seed (id : string) (count : Z) (filtered candidates : list (string * string)) : list (string * string) :=
  match candidates with
  | [] => filtered
  | s :: candidates =>
      if String.eqb s.1 id then without_seed id count filtered candidates
      else let filtered := filtered ++ [s] in
           if count <=? Z.of_nat (List.length filtered) then filtered else without_seed id count filtered candidates
  end.
End agents.
