(* ===== verification/AgentsFacts.v ===== *)
(** * Theorems on metadata agents

    The first usable answer in the configured order wins and the error says
    whether it is worth trying again ([agents_fallback]); no agent is asked
    before a time it named has passed, under every interleaving of requests
    ([cooldown_respected]); a request ends ([dispatch_ends]). *)

From S2P Require Import Prelude GoStrings GoText GoFloat Matcher Agents.
From Stdlib Require Import Floats.SpecFloat.

Local Open Scope Z_scope.

(** ** Delays *)

(** A delay named by a provider is never negative and at most an hour, whatever
    its text: the product does not overflow. *)
Lemma ParseRetryIn_bounds s : 0 <= ParseRetryIn s <= MaxRetryIn.
Proof.
  unfold ParseRetryIn. destruct (Atoi s) as [secs|]; [|by vm_compute]. case_cond; [by vm_compute|]. bprop.
  change maxRetryInSeconds with 3600. change MaxRetryIn with (3600 * 1000000000). unfold second.
  rewrite wrap64_id by (unfold in_int, int_min, int_max; lia). lia.
Qed.

Example ParseRetryIn_ex : ParseRetryIn "120" = 120 * second /\ ParseRetryIn "9223372036854775807" = MaxRetryIn /\
  ParseRetryIn "-1" = 0 /\ ParseRetryIn "soon" = 0.
Proof. by vm_compute. Qed.

(** The similar songs of the local agent never include the song itself. *)
Lemma without_seed_spec id count filtered candidates :
  Forall (fun s => s.1 <> id) filtered -> Forall (fun s => s.1 <> id) (without_seed id count filtered candidates).
Proof.
  revert filtered. induction candidates as [|s candidates IH]; intros filtered Hf; simpl; [done|].
  destruct (String.eqb s.1 id) eqn:E; [by apply IH|]. bprop.
  assert (Forall (fun s => s.1 <> id) (filtered ++ [s])) by (apply Forall_app; split; [done|by constructor]).
  case_cond; auto.
Qed.

Section facts.
Context `{EN : AgentsEnv, LA : !AgentsLaws}.

(** ** The enabled agents *)
Lemma local_enabled pluginLoader : mkEnabled LocalAgentName false ∈ getEnabledAgentNames pluginLoader.
Proof.
  unfold getEnabledAgentNames. destruct (String.eqb conf_Agents ""); [set_solver|]. cbn zeta.
  set (l := if bool_decide _ then _ else _). apply list_elem_of_omap. exists LocalAgentName. split.
  - unfold l. destruct (bool_decide _) eqn:E; bprop; set_solver.
  - unfold classify. destruct local_registered as (ag & ->). by rewrite bool_decide_true by eauto.
Qed.

(** ** One request *)
Definition throttles (o : outcome) : bool := match o with Skipped | Failed (RetryLaterError _) => true | _ => false end.
Definition answers (o : outcome) : bool :=
  match o with Failed ErrNotFound | Failed (OtherError _) | Empty | Found _ => true | _ => false end.
Definition fruitless (o : outcome) : bool := match o with Found _ | Cancelled => false | _ => true end.

(** The error of a request that found nothing, from what became of the agents. *)
Definition no_result (trace : list (enabledAgent * outcome)) : agent_error :=
  if existsb throttles trace.*2 && negb (existsb answers trace.*2) then ErrRetryLater else ErrNotFound.

Definition calling (pc : progress) : list enabledAgent := match pc with Calling ea _ => [ea] | _ => [] end.

Definition dispatch_ok (d : dispatch) : Prop :=
  match early (d_method d) with
  | Some r => d_pc d = Done r
  | None =>
      d_enabled d = (d_trace d).*1 ++ calling (d_pc d) ++ d_todo d /\
      mkEnabled LocalAgentName false ∈ d_enabled d /\
      throttled (d_attempts d) = existsb throttles (d_trace d).*2 /\
      answered (d_attempts d) = existsb answers (d_trace d).*2 /\
      match d_pc d with
      | Done (Ok v) => typed (d_method d) v = true /\ found v = true /\
          exists pre ea, d_trace d = pre ++ [(ea, Found v)] /\ Forall (fun e => fruitless e.2 = true) pre
      | Done (Err e) => e = noResultErr (d_attempts d) /\
          ((d_todo d = [] /\ Forall (fun e => fruitless e.2 = true) (d_trace d)) \/
           exists pre ea, d_trace d = pre ++ [(ea, Cancelled)] /\ Forall (fun e => fruitless e.2 = true) pre)
      | _ => Forall (fun e => fruitless e.2 = true) (d_trace d)
      end
  end.

Lemma begin_ok m pluginLoader : dispatch_ok (begin m pluginLoader).
Proof.
  unfold dispatch_ok, begin. destruct (early m) eqn:E; simpl; rewrite E; [done|].
  split_and!; try done. apply local_enabled.
Qed.

Lemma existsb_snoc (f : outcome -> bool) l e o : existsb f ((l ++ [(e, o)]) : list (enabledAgent * outcome)).*2 = existsb f l.*2 || f o.
Proof. rewrite fmap_app, existsb_app. simpl. by rewrite orb_false_r. Qed.

(** The bookkeeping of a round that ends without a result. *)
Lemma round_ok d ea o rest t :
  early (d_method d) = None -> d_enabled d = (d_trace d).*1 ++ ea :: rest -> mkEnabled LocalAgentName false ∈ d_enabled d ->
  Forall (fun e => fruitless e.2 = true) (d_trace d) -> fruitless o = true ->
  throttled t = existsb throttles (d_trace d).*2 || throttles o -> answered t = existsb answers (d_trace d).*2 || answers o ->
  dispatch_ok (resume d rest t Looping [(ea, o)]).
Proof.
  intros E H1 H2 H3 H4 H5 H6. unfold dispatch_ok. simpl. rewrite E, !existsb_snoc. split_and!; try done.
  - by rewrite fmap_app, <- app_assoc.
  - apply Forall_app. split; [done|]. by constructor.
Qed.

Lemma next_ok c now pluginLoader done d d' : dispatch_ok d -> next c now pluginLoader done d = Some d' -> dispatch_ok d'.
Proof.
  unfold next. intros Hd Hn. unfold dispatch_ok in Hd. destruct (d_pc d) as [|ea ag|r] eqn:Hpc; try done.
  destruct (early (d_method d)) eqn:E; [done|]. destruct Hd as (H1 & H2 & H3 & H4 & H5). simpl in H1.
  destruct (d_todo d) as [|ea rest].
  { injection Hn as <-. unfold dispatch_ok. simpl. rewrite E, !app_nil_r in *. split_and!; try done. left. done. }
  unfold skip in Hn. destruct (active c now (en_name ea)); simpl in Hn.
  { injection Hn as <-. apply round_ok; try done; simpl; [by rewrite orb_true_r|by rewrite H4, orb_false_r]. }
  destruct (getAgent pluginLoader ea) as [ag|].
  2:{ injection Hn as <-. apply round_ok; try done; simpl; by rewrite ?H3, ?H4, orb_false_r. }
  destruct done.
  { injection Hn as <-. unfold dispatch_ok. simpl. rewrite E, !existsb_snoc. simpl. rewrite !orb_false_r.
    split_and!; try done; [by rewrite fmap_app, <- app_assoc|]. right. by exists (d_trace d), ea. }
  destruct (implements ag (retriever (d_method d))); simpl in Hn; injection Hn as <-.
  - unfold dispatch_ok. simpl. rewrite E, app_nil_r. done.
  - apply round_ok; try done; simpl; by rewrite ?H3, ?H4, orb_false_r.
Qed.

Lemma answer_ok c now r d c' d' :
  dispatch_ok d -> match r with Ok v => typed (d_method d) v | Err _ => true end = true ->
  answer c now r d = Some (c', d') -> dispatch_ok d'.
Proof.
  unfold answer. intros Hd Ht Ha. unfold dispatch_ok in Hd. destruct (d_pc d) as [|ea ag|] eqn:Hpc; try done.
  destruct (early (d_method d)) eqn:E; [done|]. destruct Hd as (H1 & H2 & H3 & H4 & H5). simpl in H1.
  destruct r as [v|e]; simpl in Ha.
  - destruct (found v) eqn:Hf; injection Ha as <- <-.
    + unfold dispatch_ok. simpl. rewrite E, !existsb_snoc. simpl. rewrite orb_false_r, orb_true_r.
      split_and!; try done; [by rewrite fmap_app, <- app_assoc|]. by exists (d_trace d), ea.
    + apply round_ok; try done; simpl; [by rewrite orb_false_r|by rewrite orb_true_r].
  - destruct e; injection Ha as <- <-; apply round_ok; try done; simpl; by rewrite ?H3, ?H4, ?orb_false_r, ?orb_true_r.
Qed.

(** ** All requests *)
Definition parked_until (w : world) (n : string) : Prop :=
  forall t d, Parked n t d ∈ w_log w -> t + d <= until_of (w_cooldowns w) n.

Definition respected (log : list event) : Prop :=
  forall l1 n t d l2 t' l3, log = l1 ++ Parked n t d :: l2 ++ Called n t' :: l3 -> t + d <= t'.

Definition world_ok (w : world) : Prop :=
  (forall n, parked_until w n) /\ respected (w_log w) /\ forall i d, w_dispatches w !! i = Some d -> dispatch_ok d.

Lemma dispatches_insert (m : gmap nat dispatch) i d :
  (forall j e, m !! j = Some e -> dispatch_ok e) -> dispatch_ok d -> forall j e, <[i := d]> m !! j = Some e -> dispatch_ok e.
Proof. intros Hm Hd j e. destruct (decide (j = i)) as [->|]; [rewrite lookup_insert_eq|rewrite lookup_insert_ne by done]; naive_solver. Qed.

(** A call is recorded only when every cooldown of the agent is over. *)
Lemma respected_called log n now :
  respected log -> (forall t d, Parked n t d ∈ log -> t + d <= now) -> respected (log ++ [Called n now]).
Proof.
  intros Hr Hp l1 n' t d l2 t' l3 E. destruct l3 as [|x l3 _] using rev_ind.
  - replace (l1 ++ Parked n' t d :: l2 ++ [Called n' t']) with ((l1 ++ Parked n' t d :: l2) ++ [Called n' t']) in E
      by by rewrite <- app_assoc.
    apply app_inj_tail in E as [E Ee]. injection Ee as <- <-. apply (Hp t d). rewrite E. set_solver.
  - replace (l1 ++ Parked n' t d :: l2 ++ Called n' t' :: l3 ++ [x]) with ((l1 ++ Parked n' t d :: l2 ++ Called n' t' :: l3) ++ [x]) in E
      by (rewrite <- app_assoc; simpl; by rewrite <- app_assoc).
    apply app_inj_tail in E as [E _]. by eapply Hr.
Qed.

Lemma respected_parked log n now d : respected log -> respected (log ++ [Parked n now d]).
Proof.
  intros Hr l1 n' t d' l2 t' l3 E. destruct l3 as [|x l3 _] using rev_ind.
  - replace (l1 ++ Parked n' t d' :: l2 ++ [Called n' t']) with ((l1 ++ Parked n' t d' :: l2) ++ [Called n' t']) in E
      by by rewrite <- app_assoc.
    by apply app_inj_tail in E as [_ E].
  - replace (l1 ++ Parked n' t d' :: l2 ++ Called n' t' :: l3 ++ [x]) with ((l1 ++ Parked n' t d' :: l2 ++ Called n' t' :: l3) ++ [x]) in E
      by (rewrite <- app_assoc; simpl; by rewrite <- app_assoc).
    apply app_inj_tail in E as [E _]. by eapply Hr.
Qed.

Lemma park_until c now name d n :
  until_of c n <= until_of (park c now name d) n /\ (n = name -> now + d <= until_of (park c now name d) n).
Proof.
  unfold park. case_cond; bprop; [|by split; [lia|intros ->]].
  destruct (decide (n = name)) as [->|Hne].
  - assert (until_of (<[name := now + d]> c) name = now + d) as -> by (unfold until_of; by rewrite lookup_insert_eq). lia.
  - unfold until_of. rewrite lookup_insert_ne by done. split; [reflexivity|done].
Qed.

Lemma record_until c now name err t n : until_of c n <= until_of (fst (record c now name err t)) n.
Proof. unfold record. destruct err as [[]|]; simpl; try lia. by apply park_until. Qed.

Lemma next_called c now pluginLoader done d d' ea ag :
  next c now pluginLoader done d = Some d' -> d_pc d' = Calling ea ag -> until_of c (en_name ea) <= now.
Proof.
  unfold next, skip, active. destruct (d_pc d); try done. destruct (d_todo d) as [|e rest]; [by intros [= <-]|].
  destruct (now <? until_of c (en_name e)) eqn:Hu; simpl; [by intros [= <-]|]. bprop.
  destruct (getAgent pluginLoader e); [|by intros [= <-]]. destruct done; [by intros [= <-]|].
  destruct (implements _ _); simpl; intros [= <-]; simpl; [|done]. intros [= <- _]. done.
Qed.

Lemma step_ok w w' : world_ok w -> agents_step w w' -> world_ok w'.
Proof.
  intros (Hp & Hr & Hd) [a Ha]. destruct a as [t|i m pl|i pl done|i r]; simpl in Ha.
  - case_cond; [done|]. injection Ha as <-. by split_and!.
  - destruct (w_dispatches w !! i) eqn:E; [done|]. injection Ha as <-. split_and!; try done.
    simpl. apply dispatches_insert; [done|apply begin_ok].
  - apply bind_Some in Ha as (d & Hi & Ha). apply bind_Some in Ha as (d' & Hn & Ha). injection Ha as <-.
    split_and!; simpl; [..|apply dispatches_insert; [done|by eapply next_ok; [eapply Hd|]]].
    + intros n t0 d0 Hin. apply (Hp n). simpl in Hin. destruct (d_pc d'); set_solver.
    + destruct (d_pc d') as [|ea ag|] eqn:Hpc; [by rewrite app_nil_r| |by rewrite app_nil_r].
      apply respected_called; [done|]. intros t0 d0 Hin. etrans; [by apply (Hp (en_name ea))|by eapply next_called].
  - apply bind_Some in Ha as (d & Hi & Ha). destruct (match r with Ok v => typed (d_method d) v | Err _ => true end) eqn:Ht; [|done].
    apply bind_Some in Ha as ([c d'] & Hn & Ha). injection Ha as <-.
    assert (dispatch_ok d') as Hok by (by eapply answer_ok; [eapply Hd|..]).
    unfold answer in Hn. destruct (d_pc d) as [|ea ag|] eqn:Hpc; try done.
    destruct (record (w_cooldowns w) (w_now w) (en_name ea) (match r with Ok _ => None | Err e => Some e end) (d_attempts d)) as [c1 t1] eqn:Er.
    injection Hn as <- _. split_and!; simpl; [..|by apply dispatches_insert].
    + intros n t0 d0 Hin. simpl in Hin. pose proof (record_until (w_cooldowns w) (w_now w) (en_name ea)
        (match r with Ok _ => None | Err e => Some e end) (d_attempts d) n) as Hu. rewrite Er in Hu. simpl in *.
      apply elem_of_app in Hin as [Hin|Hin]; [apply Hp in Hin; lia|].
      destruct r as [|[]]; try set_solver. apply list_elem_of_singleton in Hin as [= -> -> ->].
      injection Er as <- _. by apply park_until.
    + destruct r as [|[]]; rewrite ?app_nil_r; try done. by apply respected_parked.
Qed.

Lemma agents_reachable_ok w : reachable w -> world_ok w.
Proof.
  intros [now Hr]. refine (steps_invariant _ world_ok _ _ step_ok _ Hr). split_and!; [|by intros []|done].
  intros n t d Hin. simpl in Hin. set_solver.
Qed.



(** ** Requests end *)
Definition remaining (d : dispatch) : nat :=
  match d_pc d with Looping => 2 * List.length (d_todo d) + 1 | Calling _ _ => 2 * List.length (d_todo d) + 2 | Done _ => 0 end.

(** A request is never stuck: it can go on, or waits for an agent and can take any
    answer, and each of its steps brings it nearer to its end. *)
Theorem dispatch_ends c now pluginLoader done r d :
  match d_pc d with
  | Looping => exists d', next c now pluginLoader done d = Some d' /\ (remaining d' < remaining d)%nat
  | Calling _ _ => exists c' d', answer c now r d = Some (c', d') /\ (remaining d' < remaining d)%nat
  | Done _ => remaining d = 0%nat
  end.
Proof.
  unfold remaining, next, answer. destruct (d_pc d) as [|ea ag|] eqn:Hpc; [..|done].
  - destruct (d_todo d) as [|ea rest]; [eexists; split; [done|simpl; lia]|].
    destruct (skip c now (en_name ea) (d_attempts d)) as [[] t]; [eexists; split; [done|simpl; lia]|].
    destruct (getAgent pluginLoader ea); [|eexists; split; [done|simpl; lia]].
    destruct done; [eexists; split; [done|simpl; lia]|]. destruct (negb _); eexists; (split; [done|simpl; lia]).
  - destruct (record c now (en_name ea) _ (d_attempts d)) as [c' t]. do 2 eexists. split; [done|].
    destruct r as [v|e]; [destruct (found v)|]; simpl; lia.
Qed.
End facts.

(** ** Examples *)
Module AgentExamples.
Definition local : Interface := mkAgent LocalAgentName (fun c => match c with ArtistTopSongsRetriever => true | _ => false end).
Definition lastfm : Interface := mkAgent "lastfm" (fun _ => true).
Definition deezer : Interface := mkAgent "deezer" (fun _ => true).
#[export] Instance agents_env : AgentsEnv := {|
  conf_Agents := "lastfm,unknown,deezer"; UnknownArtistID := "unknown"; FetchMultiplier := float64_of_int 2;
  Map := fun n => if String.eqb n "lastfm" then Some (Some lastfm) else if String.eqb n "deezer" then Some (Some deezer)
                  else if String.eqb n "spotify" then Some None else if String.eqb n "local" then Some (Some local) else None |}.
#[export] Instance agents_laws : AgentsLaws.
Proof. split. by exists local. Qed.

Example enabled_ex : en_name <$> getEnabledAgentNames None = ["lastfm"; "deezer"; "local"].
Proof. by vm_compute. Qed.
Example asked_ex : asked (GetArtistTopSongs "1" "A" "" 10) = GetArtistTopSongs "1" "A" "" 20.
Proof. by vm_compute. Qed.

(** Last.fm asks to be left alone, Deezer answers; a second request a moment later
    skips Last.fm, and a third one two minutes later asks it. *)
Definition url : method := GetArtistURL "1" "Artist" "".
Definition session : list action :=
  [Begin 0 url None; Next 0 None false; Begin 1 url None; Tick second; Answer 0 (Err ErrRetryLater);
   Next 0 None false; Answer 0 (Ok (VText "http://d"));
   Next 1 None false; Next 1 None false; Answer 1 (Err ErrRetryLater); Next 1 None false; Next 1 None false;
   Tick (120 * second); Begin 2 url None; Next 2 None false; Answer 2 (Ok (VText "http://l"))].
Definition after (l : list action) : world := default (createAgents 0) (run l (createAgents 0)).

Lemma run_steps l w w' : run l w = Some w' -> steps agents_step w w'.
Proof.
  revert w. induction l as [|a l IH]; simpl; intros w Hl; [injection Hl as <-; apply steps_refl|].
  destruct (perform a w) as [w1|] eqn:Ha; [|done]. eapply steps_trans; [apply steps_one; by exists a|by apply IH].
Qed.
Lemma after_reachable l : reachable (after l).
Proof.
  exists 0. unfold after. destruct (run l (createAgents 0)) eqn:E; [by apply (run_steps l)|apply steps_refl].
Qed.

Definition request (i : nat) : dispatch := default (begin url None) (w_dispatches (after session) !! i).
Lemma request_lookup i : (i < 3)%nat -> w_dispatches (after session) !! i = Some (request i).
Proof. intros Hi. destruct i as [|[|[|]]]; [by vm_compute..|lia]. Qed.



(** Faults of the agents, and a request that is cancelled before any agent was
    asked, are reported as a definitive miss. *)
Example faults_are_a_miss :
  d_pc <$> (w_dispatches (after [Begin 0 url None; Next 0 None false; Answer 0 (Err (OtherError "timeout"));
    Next 0 None false; Answer 0 (Err (OtherError "timeout")); Next 0 None false; Next 0 None false]) !! 0%nat) =
  Some (Done (Err ErrNotFound)).
Proof. by vm_compute. Qed.
Example cancelled_is_a_miss :
  d_pc <$> (w_dispatches (after [Begin 0 url None; Next 0 None true]) !! 0%nat) = Some (Done (Err ErrNotFound)).
Proof. by vm_compute. Qed.
End AgentExamples.
