(* ===== verification/ScannerWalk.v ===== *)
(** * The scanner's walk through a library

    [scanner/walk_dir_tree.go], [scanner/ignore_checker.go],
    [scanner/folder_entry.go], and of [scanner/phase_1_folders.go] the job of a
    library ([scanJob]), the choice of the folders to import ([producer]), of the
    files to import in one ([processFolder]) and of the folders that are gone
    ([finalize]), with the queries of [persistence/folder_repository.go] they use,
    and of [scanner/scanner.go] how a scan begins and ends for its libraries.

    The file system is the class [MusicFS], asked as the code asks it; a
    directory may fail to be read in part.  The walk threads its mutable state:
    the stack of ignore patterns, the map of folders known from the last scan and
    the folders sent so far.  Times are nanoseconds. *)

From Stdlib Require Import Ascii String.
From stdpp Require Import sorting.
From S2P Require Import Prelude GoStrings GoText PlaylistImport.

Local Open Scope Z_scope.

(** ** The file system *)
Record FileInfo := mkInfo { fi_Size : Z; fi_ModTime : Z }.
Record DirEntry := mkEntry { Name : string; IsDir : bool; IsSymlink : bool; Info : option FileInfo }.

(** [Open]: an error, something that is not a directory, or a directory with the
    results of its calls of [ReadDir(-1)]. *)
Inductive opened := OpenError | NotADirectory | Directory (reads : list (list DirEntry * option string)).

Class MusicFS := {
  Stat : string -> option (bool * Z);
  Lstat : string -> option bool;
  Open : string -> opened;
  ReadFile : string -> option (string * bool);
  ReadLink : string -> option string;
  ResolveSymlink : option (string -> option string) }.

(** The settings, the library that matches ignore patterns, and hashes. *)
Class WalkEnv := {
  FollowSymlinks : bool;
  IgnoreDotFolders : bool;
  MatchesPath : list string -> string -> bool;
  NewHash : string -> string;
  md5 : string -> string;
  UTC : Z -> string;
  Like : string -> string -> bool;
  PlaylistsPath : string;
  Doublestar : string -> string -> bool;
  PID_Track : string;
  PID_Album : string }.

Definition zero_time : Z := -62135596800000000000.
Definition TimeNewest (times : list Z) : Z := foldl (fun newest t => if newest <? t then t else newest) zero_time times.

(** [path.Dir] and [path.Base]. *)
Definition Dir (p : string) : string := Clean (Join (removelast (split_slash "" p) ++ [""]) "/").
Definition Base (p : string) : string :=
  if String.eqb p "" then "."
  else default "/" (list.last (List.filter (fun x => negb (String.eqb x "")) (split_slash "" p))).

(** ** Ignore patterns *)
Definition ScanIgnoreFile : string := ".ndignore".

Definition drop_cr (line : string) : string :=
  match String.rev line with String c r => if Ascii.eqb c CR then String.rev r else line | "" => line end.

(** [bufio.ScanLines] over a text: the lines, and whether one was too long. *)
Fixpoint scan_lines (raw : list string) : list string * bool :=
  match raw with
  | [] => ([], false)
  | [""] => ([], false)
  | line :: raw =>
      if MaxScanTokenSize <=? Z.of_nat (String.length line) then ([], true)
      else let '(lines, err) := scan_lines raw in (drop_cr line :: lines, err)
  end.

Record IgnoreChecker := mkChecker {
  patternStack : list (list string); currentPatterns : list string; matcher : option (list string) }.
Definition newIgnoreChecker : IgnoreChecker := mkChecker [] [] None.

Definition compilePatterns (currentPatterns : list string) : option (list string) :=
  if bool_decide (currentPatterns = []) then None else Some currentPatterns.
Definition rebuildCurrentPatterns (stack : list (list string)) : IgnoreChecker :=
  let current := concat stack in mkChecker stack current (compilePatterns current).

(** ** Names *)
Definition ignoredDirs : list string :=
  ["$RECYCLE.BIN"; "#snapshot"; "@Recycle"; "@eaDir"; "@Recently-Snapshot"; ".git"; ".streams"; "lost+found"].
Definition isDirIgnored (name : string) : bool := existsb (fun s => EqualFold s name) ignoredDirs.
Definition isDotEntry (name : string) : bool := negb (String.eqb name ".") && HasPrefix name "." && negb (HasPrefix name "..").

Definition IsValidPlaylist (filePath : string) : bool :=
  let extension := ToLower (Ext filePath) in
  String.eqb extension ".m3u" || String.eqb extension ".m3u8" || String.eqb extension ".nsp".

(** ** Folders *)
Record FolderUpdateInfo := mkUpdate { fu_UpdatedAt : Z; fu_Hash : string; fu_ImageFiles : list string; fu_ImagesUpdatedAt : Z }.
Definition no_update : FolderUpdateInfo := mkUpdate zero_time "" [] zero_time.

Record folderEntry := mkFolder {
  f_id : string; f_path : string; f_modTime : Z; f_updTime : Z;
  f_audioFiles : gmap string DirEntry; f_imageFiles : gmap string DirEntry; f_playlistFiles : gmap string DirEntry;
  f_numSubFolders : Z; f_imagesUpdatedAt : Z; f_prevHash : string; f_prevImageFiles : list string; f_prevImagesUpdatedAt : Z }.

Definition newFolderEntry (id path : string) (info : FolderUpdateInfo) : folderEntry :=
  mkFolder id path zero_time (fu_UpdatedAt info) ∅ ∅ ∅ 0 zero_time (fu_Hash info) (fu_ImageFiles info) (fu_ImagesUpdatedAt info).

Definition set_modTime (t : Z) (f : folderEntry) : folderEntry :=
  mkFolder (f_id f) (f_path f) t (f_updTime f) (f_audioFiles f) (f_imageFiles f) (f_playlistFiles f) (f_numSubFolders f)
    (f_imagesUpdatedAt f) (f_prevHash f) (f_prevImageFiles f) (f_prevImagesUpdatedAt f).
Definition set_path (p : string) (f : folderEntry) : folderEntry :=
  mkFolder (f_id f) p (f_modTime f) (f_updTime f) (f_audioFiles f) (f_imageFiles f) (f_playlistFiles f) (f_numSubFolders f)
    (f_imagesUpdatedAt f) (f_prevHash f) (f_prevImageFiles f) (f_prevImagesUpdatedAt f).
Definition add_subfolder (f : folderEntry) : folderEntry :=
  mkFolder (f_id f) (f_path f) (f_modTime f) (f_updTime f) (f_audioFiles f) (f_imageFiles f) (f_playlistFiles f)
    (f_numSubFolders f + 1) (f_imagesUpdatedAt f) (f_prevHash f) (f_prevImageFiles f) (f_prevImagesUpdatedAt f).
Definition add_audio (e : DirEntry) (f : folderEntry) : folderEntry :=
  mkFolder (f_id f) (f_path f) (f_modTime f) (f_updTime f) (<[Name e := e]> (f_audioFiles f)) (f_imageFiles f)
    (f_playlistFiles f) (f_numSubFolders f) (f_imagesUpdatedAt f) (f_prevHash f) (f_prevImageFiles f) (f_prevImagesUpdatedAt f).
Definition add_playlist (e : DirEntry) (f : folderEntry) : folderEntry :=
  mkFolder (f_id f) (f_path f) (f_modTime f) (f_updTime f) (f_audioFiles f) (f_imageFiles f)
    (<[Name e := e]> (f_playlistFiles f)) (f_numSubFolders f) (f_imagesUpdatedAt f) (f_prevHash f) (f_prevImageFiles f)
    (f_prevImagesUpdatedAt f).
Definition add_image (e : DirEntry) (modTime : Z) (f : folderEntry) : folderEntry :=
  mkFolder (f_id f) (f_path f) (f_modTime f) (f_updTime f) (f_audioFiles f) (<[Name e := e]> (f_imageFiles f))
    (f_playlistFiles f) (f_numSubFolders f) (TimeNewest [f_imagesUpdatedAt f; modTime; f_modTime f]) (f_prevHash f)
    (f_prevImageFiles f) (f_prevImagesUpdatedAt f).

Definition hasNoFiles (f : folderEntry) : bool :=
  bool_decide (f_audioFiles f = ∅) && bool_decide (f_imageFiles f = ∅) && bool_decide (f_playlistFiles f = ∅).
Definition isEmpty (f : folderEntry) : bool := hasNoFiles f && (f_numSubFolders f =? 0).
Definition isNew (f : folderEntry) : bool := f_updTime f =? zero_time.

(** The library of a job: its row, and the state of its scan. *)
Record scanLibrary := mkScanLib {
  sl_lib : Library; FullScanInProgress : bool; LastScanStartedAt : Z; LastScanAt : Z;
  PIDTrack : string; PIDAlbum : string; ScannedPIDTrack : string; ScannedPIDAlbum : string }.
Definition set_full (full : bool) (l : scanLibrary) : scanLibrary :=
  mkScanLib (sl_lib l) full (LastScanStartedAt l) (LastScanAt l) (PIDTrack l) (PIDAlbum l) (ScannedPIDTrack l) (ScannedPIDAlbum l).

Definition entry_le (a b : DirEntry) : Prop := String.leb (Name a) (Name b) = true.
#[export] Instance entry_le_dec : RelDecision entry_le.
Proof. intros a b. unfold entry_le. apply _. Defined.
Definition name_le (a b : string) : Prop := String.leb a b = true.
#[export] Instance name_le_dec : RelDecision name_le.
Proof. intros a b. unfold name_le. apply _. Defined.

(** [fullReadDir]: reads until there is no error, or the same error twice. *)
Fixpoint read_all (reads : list (list DirEntry * option string)) (prevErrStr : string) : list DirEntry :=
  match reads with
  | [] => []
  | (entries, None) :: _ => entries
  | (entries, Some err) :: reads => entries ++ (if String.eqb prevErrStr err then [] else read_all reads err)
  end.
Definition fullReadDir (reads : list (list DirEntry * option string)) : list DirEntry := merge_sort entry_le (read_all reads "").

Definition maxSymlinkHops : nat := 40.

Section walk.
Context `{ImportEnv, MusicFS, WalkEnv}.

Definition loadPatternsFromFolder (folder : string) : list string :=
  let ignoreFilePath := PathJoin [folder; ScanIgnoreFile] in
  match Stat ignoreFilePath with
  | None => []
  | Some _ =>
      match ReadFile ignoreFilePath with
      | None => []
      | Some (text, failed) =>
          let '(lines, err) := scan_lines (SplitOn LF text) in
          let patterns := List.filter (fun l => negb (String.eqb l "" || HasPrefix l "#")) (TrimSpace <$> lines) in
          if err || failed then patterns
          else if bool_decide (patterns = []) then ["**/*"] else patterns
      end
  end.

Definition Push (folder : string) (ic : IgnoreChecker) : IgnoreChecker :=
  rebuildCurrentPatterns (patternStack ic ++ [loadPatternsFromFolder folder]).
Definition Pop (ic : IgnoreChecker) : IgnoreChecker :=
  if bool_decide (patternStack ic = []) then ic else rebuildCurrentPatterns (removelast (patternStack ic)).

(** The folders from [currentPath] down to a path with these parts. *)
Fixpoint parents (currentPath : string) (parts : list string) : list string :=
  match parts with
  | [] => []
  | part :: parts =>
      if String.eqb part "." || String.eqb part "" then parents currentPath parts
      else let currentPath := PathJoin [currentPath; part] in currentPath :: parents currentPath parts
  end.
Definition PushAllParents (targetPath : string) (ic : IgnoreChecker) : IgnoreChecker :=
  if String.eqb targetPath "." || String.eqb targetPath "" then Push "." ic
  else rebuildCurrentPatterns
         (patternStack ic ++ (loadPatternsFromFolder <$> ("." :: parents "." (split_slash "" (Clean targetPath))))).

Definition ShouldIgnore (ic : IgnoreChecker) (relPath : string) : bool :=
  if String.eqb relPath "" || String.eqb relPath "." then false
  else match matcher ic with None => false | Some patterns => MatchesPath patterns relPath end.

Definition isIgnoredEntry (name : string) (isDir : bool) : bool :=
  (isDir && isDirIgnored name) || (isDotEntry name && (negb isDir || IgnoreDotFolders)).

(** [None] when a link cannot be followed. *)
Definition isDirOrSymlinkToDir (baseDir : string) (dirEnt : DirEntry) : option bool :=
  if IsDir dirEnt then Some true
  else if negb (IsSymlink dirEnt) then Some false
  else if negb FollowSymlinks then Some false
  else fst <$> Stat (PathJoin [baseDir; Name dirEnt]).

(** The loop [for p := path.Clean(folderPath); p != "." && p != "/"; p = path.Dir(p)];
    each round makes the path shorter. *)
Fixpoint symlinked_loop (fuel : nat) (p : string) : bool :=
  match fuel with
  | O => false
  | S fuel =>
      if String.eqb p "." || String.eqb p "/" then false
      else default false (Lstat p) || symlinked_loop fuel (Dir p)
  end.
Definition isSymlinkedPath (folderPath : string) : bool :=
  symlinked_loop (S (String.length (Clean folderPath))) (Clean folderPath).

Fixpoint follow_links (hops : nat) (first : bool) (cur : string) : option string :=
  match hops with
  | O => None
  | S hops =>
      match ReadLink cur with
      | None => if first then None else Some (Base cur)
      | Some target => follow_links hops false (if IsAbs target then target else PathJoin [Dir cur; target])
      end
  end.
Definition resolveEntryName (dirPath : string) (entry : DirEntry) : option string :=
  if negb (IsSymlink entry) then Some (Name entry)
  else
    let linkPath := PathJoin [dirPath; Name entry] in
    if negb FollowSymlinks then None
    else match ResolveSymlink with
         | Some resolve => Base <$> resolve linkPath
         | None => follow_links maxSymlinkHops true linkPath
         end.

Definition isDirReadable (dirPath : string) : bool := match Open dirPath with OpenError => false | _ => true end.

(** One file of a folder, classified by the name it resolves to. *)
Definition classify_file (name : string) (entry : DirEntry) (info : FileInfo) (folder : folderEntry) : folderEntry :=
  if IsAudioFile name then add_audio entry folder
  else if IsValidPlaylist name then add_playlist entry folder
  else if IsImageFile name then add_image entry (fi_ModTime info) folder
  else folder.

(** The loop of [loadDir]; [None] when the information of a file cannot be read. *)
Fixpoint load_entries (ignored : string -> bool) (dirPath : string) (entries : list DirEntry) (folder : folderEntry)
    (children : list string) : option (folderEntry * list string) :=
  match entries with
  | [] => Some (folder, children)
  | entry :: entries =>
      let entryPath := PathJoin [dirPath; Name entry] in
      if ignored entryPath then load_entries ignored dirPath entries folder children
      else match isDirOrSymlinkToDir dirPath entry with
           | None => load_entries ignored dirPath entries folder children
           | Some isDir =>
               if isIgnoredEntry (Name entry) isDir then load_entries ignored dirPath entries folder children
               else if isDir && isDirReadable entryPath
               then load_entries ignored dirPath entries (add_subfolder folder) (children ++ [entryPath])
               else match Info entry with
                    | None => None
                    | Some info =>
                        let folder := if f_modTime folder <? fi_ModTime info then set_modTime (fi_ModTime info) folder else folder in
                        match resolveEntryName dirPath entry with
                        | None => load_entries ignored dirPath entries folder children
                        | Some name => load_entries ignored dirPath entries (classify_file name entry info folder) children
                        end
                    end
           end
  end.

(** ** The walk *)
Definition FolderID (lib : Library) (path : string) : string :=
  let path := default path (CutPrefix path (lib_Path lib)) in
  let path := default path (CutPrefix path "/") in
  NewHash (Itoa (lib_ID lib) +:+ ":" +:+ Clean path).

Record walk := mkWalk { wk_updates : gmap string FolderUpdateInfo; wk_checker : IgnoreChecker; wk_results : list folderEntry }.
Definition set_checker (ic : IgnoreChecker) (w : walk) : walk := mkWalk (wk_updates w) ic (wk_results w).
Definition send (f : folderEntry) (w : walk) : walk := mkWalk (wk_updates w) (wk_checker w) (wk_results w ++ [f]).

Definition popLastUpdate (folderID : string) (w : walk) : walk * FolderUpdateInfo :=
  (mkWalk (delete folderID (wk_updates w)) (wk_checker w) (wk_results w), default no_update (wk_updates w !! folderID)).
Definition createFolderEntry (lib : Library) (path : string) (w : walk) : walk * folderEntry :=
  let id := FolderID lib path in
  let '(w, info) := popLastUpdate id w in (w, newFolderEntry id path info).

Definition loadDir (lib : Library) (dirPath : string) (w : walk) : walk * option (folderEntry * list string) :=
  match Stat dirPath with
  | None => (w, None)
  | Some (_, modTime) =>
      let '(w, folder) := createFolderEntry lib dirPath w in
      let folder := set_modTime modTime folder in
      match Open dirPath with
      | OpenError => (w, None)
      | NotADirectory => (w, Some (folder, []))
      | Directory reads => (w, load_entries (ShouldIgnore (wk_checker w)) dirPath (fullReadDir reads) folder [])
      end
  end.

Fixpoint walkFolder (fuel : nat) (lib : Library) (w : walk) (currentFolder : string) : walk :=
  match fuel with
  | O => w
  | S fuel =>
      let w := set_checker (Push currentFolder (wk_checker w)) w in
      let '(w, r) := loadDir lib currentFolder w in
      match r with
      | None => set_checker (Pop (wk_checker w)) w
      | Some (folder, children) =>
          let w := foldl (walkFolder fuel lib) w children in
          let w := send (set_path (Clean currentFolder) folder) w in
          set_checker (Pop (wk_checker w)) w
      end
  end.

Definition walk_target (fuel : nat) (lib : Library) (w : walk) (folderPath : string) : walk :=
  match Stat folderPath with
  | None => w
  | Some _ =>
      if negb FollowSymlinks && isSymlinkedPath folderPath then w
      else walkFolder fuel lib (set_checker (PushAllParents folderPath newIgnoreChecker) w) folderPath
  end.
Definition walkDirTree (fuel : nat) (lib : Library) (updates : gmap string FolderUpdateInfo) (targetFolders : list string) : walk :=
  foldl (walk_target fuel lib) (mkWalk updates newIgnoreChecker [])
    (if bool_decide (targetFolders = []) then ["."] else targetFolders).

(** ** The state of a folder *)
Definition file_line (key : string) (e : DirEntry) : string :=
  key +:+ match Info e with Some i => ":" +:+ Itoa (fi_Size i) +:+ ":" +:+ UTC (fi_ModTime i) | None => "" end.
Definition file_lines (m : gmap string DirEntry) : string :=
  String.concat "" ((fun key => match m !! key with Some e => file_line key e | None => "" end) <$>
    merge_sort name_le (map_to_list m).*1).
Definition hash (f : folderEntry) : string :=
  md5 (UTC (f_modTime f) +:+ ":" +:+ Itoa (Z.of_nat (size (f_playlistFiles f))) +:+ ":" +:+ Itoa (f_numSubFolders f) +:+ ":" +:+
       UTC (f_imagesUpdatedAt f) +:+ file_lines (f_audioFiles f) +:+ file_lines (f_imageFiles f) +:+ file_lines (f_playlistFiles f)).

Definition isOutdated (lib : scanLibrary) (f : folderEntry) : bool :=
  if FullScanInProgress lib && (f_updTime f <? LastScanStartedAt lib) then true else negb (String.eqb (f_prevHash f) (hash f)).

(** [producer]: the folders of a walk that go on to be imported. *)
Definition changed (lib : scanLibrary) (f : folderEntry) : bool :=
  isOutdated lib f && (FullScanInProgress lib || negb (isEmpty f && isNew f)).
Definition producer (lib : scanLibrary) (walked : list folderEntry) : list folderEntry := List.filter (changed lib) walked.

(** ** The files of a folder *)
Record dbTrack := mkTrack { t_ID : string; t_FolderID : string; t_Path : string; t_UpdatedAt : Z; t_Missing : bool }.

(** One file in the loop of [processFolder]: [None] when its information cannot be
    read; otherwise its path and whether to import it. *)
Definition to_import (full : bool) (dbTracks : gmap string dbTrack) (fullPath : string) (af : DirEntry) : option bool :=
  match dbTracks !! fullPath with
  | None => Some true
  | Some t =>
      if full then Some true
      else info ← Info af; Some ((t_UpdatedAt t <? fi_ModTime info) || t_Missing t)
  end.

Fixpoint process_files (full : bool) (path : string) (files : list (string * DirEntry)) (dbTracks : gmap string dbTrack)
    (filesToImport : gmap string (option dbTrack)) : option (gmap string (option dbTrack) * gmap string dbTrack) :=
  match files with
  | [] => Some (filesToImport, dbTracks)
  | (afPath, af) :: files =>
      let fullPath := PathJoin [path; afPath] in
      import ← to_import full dbTracks fullPath af;
      process_files full path files (delete fullPath dbTracks)
        (if (import : bool) then <[fullPath := dbTracks !! fullPath]> filesToImport else filesToImport)
  end.

(** The files to import with their rows, and the tracks that are missing; [None]
    when nothing is done to the files.  [rows] are the tracks of the folder, and
    [order] its audio files in the order the map is visited. *)
Definition processFolder (full : bool) (path : string) (order : list (string * DirEntry)) (rows : list dbTrack) :
    option (gmap string (option dbTrack) * list dbTrack) :=
  let dbTracks := foldl (fun m t => <[t_Path t := t]> m) ∅ rows in
  r ← process_files full path order dbTracks ∅; Some (r.1, (map_to_list r.2).*2).

(** ** The database *)
Record FolderRow := mkFolderRow {
  fr_ID : string; fr_LibraryID : Z; fr_Path : string; fr_Name : string; fr_ParentID : string;
  fr_NumAudioFiles : Z; fr_NumPlaylists : Z; fr_Missing : bool; fr_Info : FolderUpdateInfo }.
Record AlbumRow := mkAlbumRow { al_FolderIDs : list string; al_ImportedAt : Z }.
Record database := mkDatabase {
  db_folders : gmap string FolderRow; db_tracks : gmap string dbTrack; db_albums : gmap string AlbumRow }.

Definition set_folders (m : gmap string FolderRow) (db : database) : database := mkDatabase m (db_tracks db) (db_albums db).

(** [path.Split]. *)
Definition Split (p : string) : string * string :=
  let parts := split_slash "" p in (Join (removelast parts ++ [""]) "/", default "" (list.last parts)).

Definition NewFolder (now : Z) (lib : Library) (folderPath : string) : FolderRow :=
  let newID := FolderID lib folderPath in
  let '(dir, name) := Split folderPath in
  let dir := Clean dir in
  let '(dir, parentID) := if String.eqb dir "." && String.eqb name "." then ("", "") else (dir, FolderID lib dir) in
  mkFolderRow newID (lib_ID lib) dir name parentID 0 0 false (mkUpdate now "" [] zero_time).

(** A folder just made has no library path. *)
Definition InPath (f : FolderRow) : bool :=
  if String.eqb PlaylistsPath "" then true
  else let rel := default "" (Rel "" (PathJoin [""; fr_Path f; fr_Name f])) in
       existsb (fun pattern => Doublestar pattern rel) (SplitOn ":" PlaylistsPath).

Definition toFolder (now : Z) (lib : Library) (f : folderEntry) : FolderRow :=
  let folder := NewFolder now lib (f_path f) in
  mkFolderRow (fr_ID folder) (fr_LibraryID folder) (fr_Path folder) (fr_Name folder) (fr_ParentID folder)
    (Z.of_nat (size (f_audioFiles f))) (if InPath folder then Z.of_nat (size (f_playlistFiles f)) else 0) (fr_Missing folder)
    (mkUpdate now (hash f) (map_to_list (f_imageFiles f)).*1 (f_imagesUpdatedAt f)).

Definition Put (r : FolderRow) (db : database) : database := set_folders (<[fr_ID r := r]> (db_folders db)) db.

Definition queryFolderUpdateInfo (where_ : FolderRow -> bool) (rows : gmap string FolderRow) : gmap string FolderUpdateInfo :=
  fr_Info <$> filter (fun kv : string * FolderRow => where_ kv.2 = true) rows.

Definition getFolderUpdateInfoAll (lib : Library) : gmap string FolderRow -> gmap string FolderUpdateInfo :=
  queryFolderUpdateInfo (fun r => (fr_LibraryID r =? lib_ID lib) && negb (fr_Missing r)).

(** The folder of a target path, the folders in it and the folders below those. *)
Definition in_target (lib : Library) (targetPath : string) (r : FolderRow) : bool :=
  let cleanPath := Clean (default targetPath (CutPrefix targetPath "/")) in
  String.eqb (fr_ID r) (FolderID lib cleanPath) || String.eqb (fr_Path r) cleanPath || Like (cleanPath +:+ "/%") (fr_Path r).
Definition getFolderUpdateInfoBatch (lib : Library) (targetPaths : list string) :
    gmap string FolderRow -> gmap string FolderUpdateInfo :=
  queryFolderUpdateInfo (fun r => (fr_LibraryID r =? lib_ID lib) && negb (fr_Missing r) &&
                                  existsb (fun t => in_target lib t r) targetPaths).

(** The batches of a hundred paths are merged, so that they select what the paths
    select together. *)
Definition GetFolderUpdateInfo (lib : Library) (targetPaths : list string) (rows : gmap string FolderRow) :
    gmap string FolderUpdateInfo :=
  if bool_decide (targetPaths = []) || existsb (fun t => String.eqb t "" || String.eqb t ".") targetPaths
  then getFolderUpdateInfoAll lib rows
  else getFolderUpdateInfoBatch lib targetPaths rows.

Definition MarkMissing (now : Z) (ids : list string) (db : database) : database :=
  set_folders (map_imap (fun id r => Some (if bool_decide (id ∈ ids)
    then mkFolderRow (fr_ID r) (fr_LibraryID r) (fr_Path r) (fr_Name r) (fr_ParentID r) (fr_NumAudioFiles r) (fr_NumPlaylists r) true
           (mkUpdate now (fu_Hash (fr_Info r)) (fu_ImageFiles (fr_Info r)) (fu_ImagesUpdatedAt (fr_Info r)))
    else r)) (db_folders db)) db.
Definition MarkMissingByFolder (now : Z) (folderIDs : list string) (db : database) : database :=
  mkDatabase (db_folders db)
    ((fun t => if bool_decide (t_FolderID t ∈ folderIDs) && negb (t_Missing t)
               then mkTrack (t_ID t) (t_FolderID t) (t_Path t) now true else t) <$> db_tracks db) (db_albums db).
Definition TouchByMissingFolder (now : Z) (db : database) : database :=
  mkDatabase (db_folders db) (db_tracks db)
    ((fun a => if existsb (fun id => match db_folders db !! id with Some r => fr_Missing r | None => false end) (al_FolderIDs a)
               then mkAlbumRow (al_FolderIDs a) now else a) <$> db_albums db).

(** ** The phase *)
Record scanJob := mkJob { j_lib : scanLibrary; j_lastUpdates : gmap string FolderUpdateInfo; j_targetFolders : list string }.

(** The specs of persistent IDs in effect, and whether they differ from those of
    the last finished scan. *)
Definition EffectivePID (l : scanLibrary) : string * string :=
  (if String.eqb (PIDTrack l) "" then PID_Track else PIDTrack l, if String.eqb (PIDAlbum l) "" then PID_Album else PIDAlbum l).
Definition PIDChanged (l : scanLibrary) : bool :=
  let pid := EffectivePID l in negb (EqualFold (ScannedPIDAlbum l) pid.2) || negb (EqualFold (ScannedPIDTrack l) pid.1).
Definition NeedsPIDRescan (l : scanLibrary) : bool := negb (LastScanAt l =? zero_time) && PIDChanged l.

Definition newScanJob (db : database) (fullScan : bool) (lib : scanLibrary) (targetFolders : list string) : scanJob :=
  mkJob (set_full (FullScanInProgress lib || fullScan || NeedsPIDRescan lib) lib)
    (GetFolderUpdateInfo (sl_lib lib) targetFolders (db_folders db)) targetFolders.

(** The folders that go on are stored one after the other; the first one that
    cannot be stored ends the phase with an error.  A folder is stored whether or
    not its files could be read. *)
Fixpoint persistChanges (now : Z) (lib : Library) (stored : folderEntry -> bool) (changed : list folderEntry) (db : database) :
    database * bool :=
  match changed with
  | [] => (db, false)
  | f :: changed => if stored f then persistChanges now lib stored changed (Put (toFolder now lib f) db) else (db, true)
  end.

(** The folders a walk has not found are gone, their tracks with them. *)
Definition finalize_job (now : Z) (w : walk) (db : database) : database :=
  if bool_decide (wk_updates w = ∅) then db
  else let folderIDs := (map_to_list (wk_updates w)).*1 in
       TouchByMissingFolder now (MarkMissingByFolder now folderIDs (MarkMissing now folderIDs db)).
Definition finalize (now : Z) (err : bool) (walks : list walk) (db : database) : database :=
  if err then db else foldl (fun db w => finalize_job now w db) db walks.

Fixpoint run_jobs (fuel : nat) (now : Z) (stored : folderEntry -> bool) (jobs : list scanJob) (db : database) :
    list walk * (database * bool) :=
  match jobs with
  | [] => ([], (db, false))
  | job :: jobs =>
      let lib := sl_lib (j_lib job) in
      let w := walkDirTree fuel lib (j_lastUpdates job) (j_targetFolders job) in
      let '(db, err) := persistChanges now lib stored (producer (j_lib job) (wk_results w)) db in
      if err then ([w], (db, true)) else let '(ws, r) := run_jobs fuel now stored jobs db in (w :: ws, r)
  end.
Definition phaseFolders (fuel : nat) (now : Z) (fullScan : bool) (stored : folderEntry -> bool)
    (libs : list (scanLibrary * list string)) (db : database) : database :=
  let jobs := (fun l => newScanJob db fullScan l.1 l.2) <$> libs in
  let '(walks, (db, err)) := run_jobs fuel now stored jobs db in finalize now err walks db.

(** ** The libraries of a scan *)
Definition ScanBegin (now : Z) (fullScan : bool) (l : scanLibrary) : scanLibrary :=
  mkScanLib (sl_lib l) fullScan now (LastScanAt l) (PIDTrack l) (PIDAlbum l) (ScannedPIDTrack l) (ScannedPIDAlbum l).
Definition ScanEnd (now : Z) (l : scanLibrary) : scanLibrary :=
  mkScanLib (sl_lib l) false zero_time now (PIDTrack l) (PIDAlbum l) (ScannedPIDTrack l) (ScannedPIDAlbum l).
Definition SetScannedPID (l : scanLibrary) : scanLibrary :=
  let pid := EffectivePID l in
  mkScanLib (sl_lib l) (FullScanInProgress l) (LastScanStartedAt l) (LastScanAt l) (PIDTrack l) (PIDAlbum l) pid.1 pid.2.

(** [scanFolders]: a library whose full scan was interrupted makes the scan full. *)
Definition scan_is_full (fullScan : bool) (libs : list scanLibrary) : bool :=
  fullScan || existsb (fun l => negb (NeedsPIDRescan l) && FullScanInProgress l) libs.

(** A scan that was interrupted goes on; [begun] says for which libraries the start
    of the scan could be written and the row read again.  The others are left out. *)
Definition prepareLibrary (now : Z) (fullScan : bool) (begun : scanLibrary -> bool) (l : scanLibrary) : option scanLibrary :=
  let pidRescan := NeedsPIDRescan l in
  if (LastScanStartedAt l =? zero_time) || pidRescan
  then if begun l then Some (ScanBegin now (fullScan || pidRescan) l) else None
  else Some l.
Definition prepareLibrariesForScan (now : Z) (fullScan : bool) (begun : scanLibrary -> bool) (libs : list scanLibrary) :
    option (list scanLibrary) :=
  match omap (prepareLibrary now fullScan begun) libs with
  | [] => None
  | successfulLibs => Some successfulLibs
  end.

(** [runUpdateLibraries], for the row of one library; the counts of its songs and
    albums are not part of the row here. *)
Definition updateLibrary (now : Z) (selective failed : bool) (l : scanLibrary) : scanLibrary :=
  let l := ScanEnd now l in if negb selective && negb failed then SetScannedPID l else l.

(** What a scan of one library puts on the way to be imported. *)
Definition to_store (fuel : nat) (job : scanJob) : list folderEntry :=
  producer (j_lib job) (wk_results (walkDirTree fuel (sl_lib (j_lib job)) (j_lastUpdates job) (j_targetFolders job))).
End walk.
