(* ===== verification/ScannerWalkFacts.v ===== *)
(** * What the scanner's walk does

    The walk with its mutable state is the pure listing [found] of a tree of
    folders: it sends the folders of the listing, takes them off the map of the
    folders known from the last scan, and leaves the stack of ignore patterns as it
    was.  From that: the phase marks as missing what the listing does not have, a
    second scan of the same tree has nothing to do, a full scan that was interrupted
    has left what it did not store, a scan of one folder sees what a scan of the
    library sees below it, and the files of a folder are sorted into those to import
    and those that are gone. *)

From Stdlib Require Import Ascii String.
From stdpp Require Import sorting.
From S2P Require Import Prelude GoStrings GoText PlaylistImport PathFacts ScannerWalk.

Local Open Scope Z_scope.

Lemma filter_all {A} (P : A -> bool) l : (forall x, x ∈ l -> P x = true) -> List.filter P l = l.
Proof. intros H. induction l as [|x l IH]; [done|]. simpl. rewrite H by (by left). f_equal. apply IH. intros y Hy. apply H. by right. Qed.
Lemma filter_none {A} (P : A -> bool) l : (forall x, x ∈ l -> P x = false) -> List.filter P l = [].
Proof. intros H. induction l as [|x l IH]; [done|]. simpl. rewrite H by (by left). apply IH. intros y Hy. apply H. by right. Qed.

(** ** The listing *)
Definition with_info (i : FolderUpdateInfo) (f : folderEntry) : folderEntry :=
  mkFolder (f_id f) (f_path f) (f_modTime f) (fu_UpdatedAt i) (f_audioFiles f) (f_imageFiles f) (f_playlistFiles f) (f_numSubFolders f)
    (f_imagesUpdatedAt f) (fu_Hash i) (fu_ImageFiles i) (fu_ImagesUpdatedAt i).

Section listing.
Context `{IE : ImportEnv, FS : MusicFS, WE : WalkEnv}.

(** A folder with no past: [None] when it is not there, [Some None] when it
    cannot be loaded. *)
Definition folder_at (lib : Library) (stack : list (list string)) (dir : string) : option (option (folderEntry * list string)) :=
  s ← Stat dir;
  Some (let folder := set_modTime s.2 (newFolderEntry (FolderID lib dir) dir no_update) in
        match Open dir with
        | OpenError => None
        | NotADirectory => Some (folder, [])
        | Directory reads => load_entries (ShouldIgnore (rebuildCurrentPatterns stack)) dir (fullReadDir reads) folder []
        end).

(** The folders below [dir], and [dir] after them. *)
Fixpoint found (fuel : nat) (lib : Library) (stack : list (list string)) (dir : string) : list (string * option folderEntry) :=
  match fuel with
  | O => []
  | S fuel =>
      let stack := stack ++ [loadPatternsFromFolder dir] in
      match folder_at lib stack dir with
      | None => []
      | Some None => [(dir, None)]
      | Some (Some (folder, children)) =>
          (c ← children; found fuel lib stack c) ++ [(dir, Some (set_path (Clean dir) folder))]
      end
  end.

Definition ids (lib : Library) (l : list (string * option folderEntry)) : list string := (fun x => FolderID lib x.1) <$> l.
Definition entries (lib : Library) (upd : gmap string FolderUpdateInfo) (l : list (string * option folderEntry)) : list folderEntry :=
  omap (fun x => with_info (default no_update (upd !! FolderID lib x.1)) <$> x.2) l.
Definition drop_keys (ks : list string) (m : gmap string FolderUpdateInfo) : gmap string FolderUpdateInfo :=
  filter (fun kv : string * FolderUpdateInfo => kv.1 ∉ ks) m.

(** The whole library, walked from its root. *)
Definition listing (fuel : nat) (lib : Library) : list (string * option folderEntry) :=
  found fuel lib [loadPatternsFromFolder "."] ".".

Lemma lookup_drop_keys ks m k : drop_keys ks m !! k = if decide (k ∈ ks) then None else m !! k.
Proof.
  unfold drop_keys. case_decide as Hk.
  - apply map_lookup_filter_None. right. intros x _. simpl. tauto.
  - destruct (m !! k) as [x|] eqn:E; [by apply map_lookup_filter_Some|apply map_lookup_filter_None; by left].
Qed.

Lemma drop_keys_nil m : drop_keys [] m = m.
Proof. apply map_eq. intros k. rewrite lookup_drop_keys. by rewrite decide_False by apply not_elem_of_nil. Qed.

Lemma drop_keys_app a b m : drop_keys b (drop_keys a m) = drop_keys (a ++ b) m.
Proof. apply map_eq. intros k. rewrite !lookup_drop_keys. repeat case_decide; set_solver. Qed.

Lemma drop_keys_perm a b m : a ≡ₚ b -> drop_keys a m = drop_keys b m.
Proof. intros E. apply map_eq. intros k. rewrite !lookup_drop_keys. apply decide_ext. by rewrite E. Qed.

Lemma delete_drop_keys k m : delete k m = drop_keys [k] m.
Proof.
  apply map_eq. intros k'. rewrite lookup_drop_keys. case_decide as E.
  - apply list_elem_of_singleton in E as ->. by rewrite lookup_delete_eq.
  - rewrite lookup_delete_ne; set_solver.
Qed.

Lemma ids_app lib a b : ids lib (a ++ b) = ids lib a ++ ids lib b.
Proof. apply fmap_app. Qed.

Lemma entries_app lib m a b : entries lib m (a ++ b) = entries lib m a ++ entries lib m b.
Proof. apply omap_app. Qed.

Lemma entries_cons lib m p o l :
  entries lib m ((p, o) :: l) =
  match with_info (default no_update (m !! FolderID lib p)) <$> o with Some f => f :: entries lib m l | None => entries lib m l end.
Proof. done. Qed.

Lemma entries_drop lib ks m l : ids lib l ## ks -> entries lib (drop_keys ks m) l = entries lib m l.
Proof.
  induction l as [|[p o] l IH]; [done|]. intros Hd. unfold ids in *. simpl in Hd. rewrite !entries_cons, lookup_drop_keys.
  rewrite decide_False, IH by set_solver. done.
Qed.

Lemma classify_info n e inf i f : classify_file n e inf (with_info i f) = with_info i (classify_file n e inf f).
Proof. unfold classify_file. by repeat case_match. Qed.

Lemma load_entries_info ign d es i f ch :
  load_entries ign d es (with_info i f) ch = (fun r => (with_info i r.1, r.2)) <$> load_entries ign d es f ch.
Proof.
  revert f ch. induction es as [|e es IH]; intros f ch; [done|]. simpl.
  destruct (ign _); [apply IH|]. destruct (isDirOrSymlinkToDir d e) as [b|]; [|apply IH].
  destruct (isIgnoredEntry _ b); [apply IH|]. destruct (b && isDirReadable _); [apply (IH (add_subfolder f))|].
  destruct (Info e) as [inf|]; [|done].
  assert (Hm : (if f_modTime (with_info i f) <? fi_ModTime inf then set_modTime (fi_ModTime inf) (with_info i f) else with_info i f) =
               with_info i (if f_modTime f <? fi_ModTime inf then set_modTime (fi_ModTime inf) f else f)) by (simpl; by case_match).
  simpl in Hm. rewrite Hm. destruct (resolveEntryName d e) as [n|]; [rewrite classify_info|]; apply IH.
Qed.

(** ** The walk is the listing *)
Definition checker_of (stack : list (list string)) : IgnoreChecker := rebuildCurrentPatterns stack.

Lemma Push_checker stack d : Push d (checker_of stack) = checker_of (stack ++ [loadPatternsFromFolder d]).
Proof. done. Qed.

Lemma Pop_checker stack p : Pop (checker_of (stack ++ [p])) = checker_of stack.
Proof.
  unfold Pop. simpl. rewrite bool_decide_eq_false_2 by (by destruct stack). by rewrite removelast_last.
Qed.

Lemma loadDir_folder_at lib dir upd stack res :
  loadDir lib dir (mkWalk upd (checker_of stack) res) =
  match folder_at lib stack dir with
  | None => (mkWalk upd (checker_of stack) res, None)
  | Some o => (mkWalk (drop_keys [FolderID lib dir] upd) (checker_of stack) res,
               (fun r => (with_info (default no_update (upd !! FolderID lib dir)) r.1, r.2)) <$> o)
  end.
Proof.
  unfold loadDir, folder_at. destruct (Stat dir) as [[b t]|]; [|done]. simpl. unfold createFolderEntry, popLastUpdate. simpl.
  rewrite delete_drop_keys. destruct (Open dir); [done|done|]. by rewrite <- load_entries_info.
Qed.

Definition after (lib : Library) (l : list (string * option folderEntry)) (w : walk) : walk :=
  mkWalk (drop_keys (ids lib l) (wk_updates w)) (wk_checker w) (wk_results w ++ entries lib (wk_updates w) l).

Lemma after_app lib a b w : NoDup (ids lib (a ++ b)) -> after lib b (after lib a w) = after lib (a ++ b) w.
Proof.
  intros Hnd. unfold after. simpl. rewrite drop_keys_app, ids_app, entries_app, <- app_assoc. f_equal. f_equal. f_equal.
  apply entries_drop. rewrite ids_app in Hnd. apply list.NoDup_app in Hnd. set_solver.
Qed.

Lemma after_children lib fuel stack w children :
  wk_checker w = checker_of stack ->
  (forall w dir, wk_checker w = checker_of stack -> NoDup (ids lib (found fuel lib stack dir)) ->
     walkFolder fuel lib w dir = after lib (found fuel lib stack dir) w) ->
  NoDup (ids lib (c ← children; found fuel lib stack c)) ->
  foldl (walkFolder fuel lib) w children = after lib (c ← children; found fuel lib stack c) w.
Proof.
  intros Hw IH. revert w Hw. induction children as [|c cs IHc]; intros w Hw Hnd; simpl in *.
  - unfold after. simpl. rewrite drop_keys_nil, app_nil_r. by destruct w.
  - pose proof Hnd as Hnd'. rewrite ids_app in Hnd'. apply list.NoDup_app in Hnd' as (H1 & _ & H2).
    rewrite IH by done. rewrite IHc by done. by apply after_app.
Qed.

Lemma walkFolder_found fuel lib stack w dir :
  wk_checker w = checker_of stack -> NoDup (ids lib (found fuel lib stack dir)) ->
  walkFolder fuel lib w dir = after lib (found fuel lib stack dir) w.
Proof.
  revert stack w dir. induction fuel as [|fuel IH]; intros stack w dir Hw Hnd; simpl in *.
  { unfold after. simpl. rewrite drop_keys_nil, app_nil_r. by destruct w. }
  destruct w as [upd ic res]. simpl in Hw. subst ic. unfold set_checker. simpl.
  change (Push dir (checker_of stack)) with (checker_of (stack ++ [loadPatternsFromFolder dir])).
  rewrite loadDir_folder_at. revert Hnd. set (st := stack ++ [loadPatternsFromFolder dir]). destruct (folder_at lib st dir) as [[[f cs]|]|]; simpl; intros Hnd.
  - pose proof Hnd as Hnd'. rewrite ids_app in Hnd'. apply list.NoDup_app in Hnd' as (H1 & H2 & _).
    rewrite (after_children lib fuel st) by (simpl; auto). unfold after, send. simpl. unfold st. rewrite Pop_checker.
    rewrite ids_app, entries_app, drop_keys_app. f_equal.
    + apply drop_keys_perm. apply Permutation_cons_append.
    + rewrite <- app_assoc. f_equal. f_equal. apply entries_drop. set_solver.
  - unfold st. rewrite Pop_checker. unfold after. simpl. by rewrite app_nil_r.
  - unfold st. rewrite Pop_checker. unfold after. simpl. by rewrite drop_keys_nil, app_nil_r.
Qed.
End listing.

(** ** The paths of a listing *)

(** What the code relies on of the file system, the hash and the library of
    patterns: the entries of a directory have base names, each once; hashes do not
    collide; of the lines that match a path, the last decides. *)
Class WalkLaws `{ImportEnv, MusicFS, WalkEnv} := {
  names_stay dir reads : Open dir = Directory reads -> Forall (fun e => stays (Name e)) (read_all reads "");
  names_once dir reads : Open dir = Directory reads -> NoDup (Name <$> read_all reads "");
  NewHash_inj : Inj (=) (=) NewHash;
  verdict : string -> string -> option bool;
  last_decides lines p : MatchesPath lines p = default false (list.last (omap (fun l => verdict l p) lines)) }.
#[export] Existing Instance NewHash_inj.

Section paths.
Context `{IE : ImportEnv, FS : MusicFS, WE : WalkEnv, WL : !WalkLaws}.

(** A library has an absolute path. *)
Lemma FolderID_path_str lib segs :
  IsAbs (lib_Path lib) = true -> Forall stays segs -> FolderID lib (path_str segs) = NewHash (Itoa (lib_ID lib) +:+ ":" +:+ path_str segs).
Proof.
  intros Ha Hs. pose proof (path_str_relative segs Hs) as Hr. unfold FolderID.
  assert (Hc : forall pre, IsAbs pre = true -> CutPrefix (path_str segs) pre = None).
  { intros pre. revert Hr. unfold IsAbs, HasPrefix. destruct pre as [|c l]; [done|]. destruct (path_str segs) as [|d p]; [done|].
    cbn [String.prefix CutPrefix]. destruct (ascii_dec "/" c) as [<-|]; [|done]. destruct (ascii_dec "/" d) as [<-|Hd]; [by destruct p|].
    intros _ _. by rewrite (proj2 (Ascii.eqb_neq _ _) Hd). }
  rewrite (Hc _ Ha). simpl. rewrite (Hc "/") by done. simpl. by rewrite Clean_path_str.
Qed.

Lemma FolderID_inj lib segs segs' :
  IsAbs (lib_Path lib) = true -> Forall stays segs -> Forall stays segs' ->
  FolderID lib (path_str segs) = FolderID lib (path_str segs') -> segs = segs'.
Proof.
  intros Ha Hs Hs'. rewrite !FolderID_path_str by done. intros E%(inj NewHash). apply (inj (String.app _)) in E. simplify_eq.
  by apply path_str_inj.
Qed.

(** The folders to go into are entries, in their order. *)
Lemma load_entries_children ign d es f ch f' ch' :
  load_entries ign d es f ch = Some (f', ch') ->
  exists es', es' `sublist_of` es /\ ch' = ch ++ ((fun e => PathJoin [d; Name e]) <$> es') /\
    Forall (fun e => isDirOrSymlinkToDir d e = Some true) es'.
Proof.
  revert f ch. induction es as [|e es IH]; intros f ch.
  { intros [= <- <-]. exists []. rewrite app_nil_r. split_and!; [done|done|constructor]. }
  assert (Hk : forall f, load_entries ign d es f ch = Some (f', ch') ->
    exists es', es' `sublist_of` e :: es /\ ch' = ch ++ ((fun e => PathJoin [d; Name e]) <$> es') /\
      Forall (fun e => isDirOrSymlinkToDir d e = Some true) es').
  { intros g Hg. destruct (IH _ _ Hg) as (es' & ? & ? & ?). exists es'. split_and!; [by constructor|done|done]. }
  simpl. destruct (ign _); [apply Hk|]. destruct (isDirOrSymlinkToDir d e) as [b|] eqn:Ed; [|apply Hk].
  destruct (isIgnoredEntry _ b); [apply Hk|]. destruct (b && isDirReadable _) eqn:Eb.
  - intros Hg. destruct (IH _ _ Hg) as (es' & ? & -> & ?). exists (e :: es'). apply andb_prop in Eb as [-> _].
    split_and!; [by constructor|by rewrite <- app_assoc|by constructor].
  - destruct (Info e); [|done]. destruct (resolveEntryName d e); apply Hk.
Qed.

(** A directory to go into: one of the entries, that counts as a directory. *)
Definition subdir (segs : list string) (n : string) : Prop :=
  exists reads e, Open (path_str segs) = Directory reads /\ e ∈ read_all reads "" /\ Name e = n /\
    isDirOrSymlinkToDir (path_str segs) e = Some true.

Lemma folder_at_children lib stack segs f ch :
  Forall stays segs -> folder_at lib stack (path_str segs) = Some (Some (f, ch)) ->
  exists names, Forall stays names /\ NoDup names /\ ch = (fun n => path_str (segs ++ [n])) <$> names /\ Forall (subdir segs) names.
Proof.
  intros Hs. unfold folder_at. destruct (Stat _) as [s|]; [|done]. simpl. destruct (Open (path_str segs)) as [| |reads] eqn:Ho; [done| |].
  { intros [= <- <-]. exists []. split_and!; try done; constructor. }
  intros [= E]. apply load_entries_children in E as (es & Hsub & -> & Hd). simpl.
  pose proof (names_stay _ _ Ho) as Hst. pose proof (names_once _ _ Ho) as Hnd. unfold fullReadDir in Hsub.
  assert (Hp : merge_sort entry_le (read_all reads "") ≡ₚ read_all reads "") by apply merge_sort_Permutation.
  rewrite <- Hp in Hst, Hnd. assert (Hin : forall e, e ∈ es -> e ∈ merge_sort entry_le (read_all reads "")) by (intros e He; by eapply elem_of_sublist).
  assert (Hes : Forall (fun e => stays (Name e)) es) by (rewrite list.Forall_forall in Hst |- *; auto).
  exists (Name <$> es). split_and!.
  - by apply Forall_fmap.
  - eapply sublist_NoDup; [done|]. by apply fmap_sublist.
  - rewrite <- list_fmap_compose. apply list_fmap_ext. intros i e He. simpl. apply PathJoin_path_str; [done|].
    rewrite list.Forall_forall in Hes. apply Hes. by eapply list_elem_of_lookup_2.
  - apply Forall_fmap, list.Forall_forall. intros e He. exists reads, e. rewrite list.Forall_forall in Hd. split_and!; auto. rewrite <- Hp. auto.
Qed.

(** Where a listing goes: [tails] below its folder, each once. *)
Definition goes (segs : list string) (l : list (string * option folderEntry)) (tails : list (list string)) : Prop :=
  l.*1 = (fun t => path_str (segs ++ t)) <$> tails /\ NoDup tails /\ Forall (Forall stays) tails.

Lemma goes_children (F : string -> list (string * option folderEntry)) segs names :
  Forall stays names -> NoDup names -> (forall n, stays n -> exists ts, goes (segs ++ [n]) (F (path_str (segs ++ [n]))) ts) ->
  exists ts, goes segs (c ← (fun n => path_str (segs ++ [n])) <$> names; F c) ts /\ Forall (fun t => head t ∈ Some <$> names) ts.
Proof.
  intros Hn Hnd HF. induction Hn as [|n names Hst Hn IH].
  { exists []. split; [|constructor]. split_and!; [done|constructor|constructor]. }
  apply list.NoDup_cons in Hnd as [Hnot Hnd]. destruct (IH Hnd) as (ts & (E & Hts & Hf) & Hh). destruct (HF n Hst) as (ts1 & E1 & Hts1 & Hf1).
  exists ((cons n <$> ts1) ++ ts). split; [split_and!|].
  - rewrite fmap_cons, bind_cons, fmap_app, E, E1, fmap_app. f_equal. rewrite <- list_fmap_compose. apply list_fmap_ext. intros i t _. simpl. by rewrite <- app_assoc.
  - apply list.NoDup_app. split_and!; [by apply NoDup_fmap_2; [apply _|]| |done]. intros t (t1 & -> & _)%list_elem_of_fmap Ht.
    rewrite list.Forall_forall in Hh. specialize (Hh _ Ht). simpl in Hh. apply list_elem_of_fmap in Hh as (? & [= <-] & ?). done.
  - apply Forall_app. split; [|done]. apply Forall_fmap. revert Hf1. apply Forall_impl. intros t Ht. by constructor.
  - apply Forall_app. split; [apply Forall_fmap, list.Forall_true; intros t; simpl; set_solver|]. revert Hh. apply Forall_impl. set_solver.
Qed.

Lemma found_goes fuel lib stack segs : Forall stays segs -> exists tails, goes segs (found fuel lib stack (path_str segs)) tails.
Proof.
  revert stack segs. induction fuel as [|fuel IH]; intros stack segs Hs; simpl.
  { exists []. split_and!; [done|constructor|constructor]. }
  destruct (folder_at _ _ _) as [[[f ch]|]|] eqn:Ef.
  - destruct (folder_at_children _ _ _ _ _ Hs Ef) as (names & Hn & Hnd & -> & _).
    destruct (goes_children (found fuel lib (stack ++ [loadPatternsFromFolder (path_str segs)])) segs names Hn Hnd) as (ts & (E & Hts & Hf) & Hh).
    { intros n Hst. apply IH. apply Forall_app. split; [done|by constructor]. }
    exists (ts ++ [[]]). split_and!.
    + rewrite !fmap_app, E. simpl. by rewrite app_nil_r.
    + apply list.NoDup_app. split_and!; [done| |by apply NoDup_singleton]. intros t Ht ->%list_elem_of_singleton.
      rewrite list.Forall_forall in Hh. specialize (Hh _ Ht). simpl in Hh. by apply list_elem_of_fmap in Hh as (? & ? & _).
    + apply Forall_app. split; [done|by repeat constructor].
  - exists [[]]. split_and!; [simpl; by rewrite app_nil_r|by apply NoDup_singleton|by repeat constructor].
  - exists []. split_and!; [done|constructor|constructor].
Qed.

Lemma goes_ids lib segs l tails :
  IsAbs (lib_Path lib) = true -> Forall stays segs -> goes segs l tails -> NoDup (ids lib l).
Proof.
  intros Ha Hs (E & Hnd & Hf). assert (Ei : ids lib l = (fun t => FolderID lib (path_str (segs ++ t))) <$> tails).
  { change (ids lib l) with ((FolderID lib ∘ fst) <$> l). by rewrite list_fmap_compose, E, <- list_fmap_compose. }
  rewrite Ei. apply NoDup_fmap_2_strong; [|done]. intros t t' Ht Ht' Et. rewrite list.Forall_forall in Hf.
  apply FolderID_inj in Et; [by simplify_list_eq|done|apply Forall_app; auto..].
Qed.
End paths.

(** ** The walk of a library *)
Section library.
Context `{IE : ImportEnv, FS : MusicFS, WE : WalkEnv, WL : !WalkLaws}.
Context (lib : Library) (lib_abs : IsAbs (lib_Path lib) = true).

Lemma found_ids fuel stack segs : Forall stays segs -> NoDup (ids lib (found fuel lib stack (path_str segs))).
Proof. intros Hs. destruct (found_goes fuel lib stack segs Hs) as [ts Hg]. by eapply goes_ids. Qed.

Lemma listing_ids fuel : NoDup (ids lib (listing fuel lib)).
Proof. apply (found_ids fuel _ []). constructor. Qed.


Lemma walk_target_found fuel stack segs upd ic res :
  Forall stays segs -> negb FollowSymlinks && isSymlinkedPath (path_str segs) = false ->
  PushAllParents (path_str segs) newIgnoreChecker = checker_of stack ->
  let w := walk_target fuel lib (mkWalk upd ic res) (path_str segs) in
  let l := found fuel lib stack (path_str segs) in
  wk_updates w = drop_keys (ids lib l) upd /\ wk_results w = res ++ entries lib upd l.
Proof.
  intros Hs Hl Hp. unfold walk_target. destruct (Stat (path_str segs)) as [s|] eqn:Es.
  - rewrite Hl, Hp. unfold set_checker. simpl. rewrite (walkFolder_found _ _ stack) by (done || by apply found_ids). done.
  - simpl. destruct fuel; simpl; [|unfold folder_at; rewrite Es; simpl]; by rewrite drop_keys_nil, app_nil_r.
Qed.

Lemma walk_library fuel upd :
  let w := walkDirTree fuel lib upd [] in
  wk_updates w = drop_keys (ids lib (listing fuel lib)) upd /\ wk_results w = entries lib upd (listing fuel lib).
Proof.
  apply (walk_target_found fuel [loadPatternsFromFolder "."] [] upd newIgnoreChecker []); [constructor| |done]. by rewrite andb_false_r.
Qed.

(** ** Enough fuel *)

(** The folders of a tree are at most [depth] deep. *)
Context (depth : nat) (shallow : forall segs, Forall stays segs -> (depth < length segs)%nat -> Stat (path_str segs) = None).

Lemma found_fuel fuel fuel' stack segs :
  Forall stays segs -> (depth + 2 <= fuel + length segs)%nat -> (depth + 2 <= fuel' + length segs)%nat ->
  found fuel lib stack (path_str segs) = found fuel' lib stack (path_str segs).
Proof.
  revert fuel' stack segs. induction fuel as [|fuel IH]; intros fuel' stack segs Hs H1 H2.
  - destruct fuel' as [|fuel']; [done|]. simpl. unfold folder_at. by rewrite shallow by (done || lia).
  - destruct fuel' as [|fuel']; [simpl; unfold folder_at; by rewrite shallow by (done || lia)|]. simpl.
    destruct (folder_at _ _ _) as [[[f ch]|]|] eqn:Ef; [|done|done]. f_equal.
    destruct (folder_at_children _ _ _ _ _ Hs Ef) as (names & Hn & _ & -> & _). clear Ef. induction Hn as [|n names Hst Hn IHn]; [done|].
    rewrite fmap_cons, !bind_cons, IHn. f_equal. apply IH; [apply Forall_app; split; [done|by constructor]|rewrite length_app; simpl; lia..].
Qed.

(** In a tree of bounded depth the walk ends: more fuel than its depth and two
    changes nothing. *)
Theorem walk_terminates fuel upd :
  (depth + 2 <= fuel)%nat -> 
  wk_results (walkDirTree fuel lib upd []) = wk_results (walkDirTree (depth + 2) lib upd []) /\
  wk_updates (walkDirTree fuel lib upd []) = wk_updates (walkDirTree (depth + 2) lib upd []).
Proof.
  intros Hf. destruct (walk_library fuel upd) as [-> ->]. destruct (walk_library (depth + 2) upd) as [-> ->].
  unfold listing. change "." with (path_str []). rewrite (found_fuel fuel (depth + 2)) by (constructor || simpl; lia). done.
Qed.
End library.

(** ** What the phase stores *)
Section storing.
Context `{IE : ImportEnv, FS : MusicFS, WE : WalkEnv}.

Lemma toFolder_ID now lib f : fr_ID (toFolder now lib f) = FolderID lib (f_path f).
Proof. unfold toFolder, NewFolder. destruct (Split (f_path f)). by destruct (_ && _). Qed.
Lemma toFolder_live now lib f : fr_Missing (toFolder now lib f) = false /\ fr_LibraryID (toFolder now lib f) = lib_ID lib.
Proof. unfold toFolder, NewFolder. destruct (Split (f_path f)). by destruct (_ && _). Qed.

Lemma Put_toFolder now lib f db :
  Put (toFolder now lib f) db = set_folders (<[FolderID lib (f_path f) := toFolder now lib f]> (db_folders db)) db.
Proof. unfold Put. by rewrite toFolder_ID. Qed.

(** The rows after some folders were stored, the later ones over the earlier. *)
Definition puts (now : Z) (lib : Library) (l : list folderEntry) (m : gmap string FolderRow) : gmap string FolderRow :=
  foldl (fun m f => <[FolderID lib (f_path f) := toFolder now lib f]> m) m l.

Lemma lookup_puts now lib l m id :
  (exists f, f ∈ l /\ FolderID lib (f_path f) = id /\ puts now lib l m !! id = Some (toFolder now lib f)) \/
  ((forall f, f ∈ l -> FolderID lib (f_path f) <> id) /\ puts now lib l m !! id = m !! id).
Proof.
  revert m. induction l as [|f l IH]; intros m; [right; split; [set_solver|done]|]. simpl.
  destruct (IH (<[FolderID lib (f_path f) := toFolder now lib f]> m)) as [(g & Hg & E & Hl)|[Hn Hl]].
  - left. exists g. split_and!; [by right|done|done].
  - rewrite Hl. destruct (decide (FolderID lib (f_path f) = id)) as [<-|Hne].
    + left. exists f. split_and!; [by left|done|by rewrite lookup_insert_eq].
    + right. split; [|by rewrite lookup_insert_ne]. intros g [->|Hg]%elem_of_cons; auto.
Qed.

(** Storing some of the folders and no others. *)
Lemma persist_puts now lib stored l db :
  exists stored_l, stored_l `prefix_of` l /\ (persistChanges now lib stored l db).1 = set_folders (puts now lib stored_l (db_folders db)) db /\
    ((persistChanges now lib stored l db).2 = false -> stored_l = l) /\
    Forall (fun f => stored f = true) stored_l.
Proof.
  revert db. induction l as [|f l IH]; intros db; simpl.
  { exists []. split_and!; [done|by destruct db|done|constructor]. }
  destruct (stored f) eqn:Es.
  - destruct (IH (Put (toFolder now lib f) db)) as (sl & Hp & E & He & Hs). exists (f :: sl). split_and!.
    + by apply prefix_cons.
    + by rewrite E, Put_toFolder.
    + intros Hf. by rewrite He.
    + by constructor.
  - exists []. split_and!; [apply prefix_nil|by destruct db|done|constructor].
Qed.

Lemma persist_all now lib l db :
  persistChanges now lib (fun _ => true) l db = (set_folders (puts now lib l (db_folders db)) db, false).
Proof.
  revert db. induction l as [|f l IH]; intros db; simpl; [by destruct db|]. by rewrite IH, Put_toFolder.
Qed.

(** A row marked as missing, when its ID is one of [ks]. *)
Definition marked (now : Z) (ks : list string) (id : string) (r : FolderRow) : FolderRow :=
  if bool_decide (id ∈ ks)
  then mkFolderRow (fr_ID r) (fr_LibraryID r) (fr_Path r) (fr_Name r) (fr_ParentID r) (fr_NumAudioFiles r) (fr_NumPlaylists r) true
         (mkUpdate now (fu_Hash (fr_Info r)) (fu_ImageFiles (fr_Info r)) (fu_ImagesUpdatedAt (fr_Info r)))
  else r.

Lemma finalize_folders now w db id :
  db_folders (finalize_job now w db) !! id = marked now (map_to_list (wk_updates w)).*1 id <$> db_folders db !! id.
Proof.
  unfold finalize_job. case_bool_decide as E.
  - rewrite E, map_to_list_empty. by destruct (db_folders db !! id).
  - simpl. rewrite map_lookup_imap. by destruct (db_folders db !! id).
Qed.

Lemma finalize_tracks now w db id :
  db_tracks (finalize_job now w db) !! id =
  (fun t => if bool_decide (t_FolderID t ∈ (map_to_list (wk_updates w)).*1) && negb (t_Missing t)
            then mkTrack (t_ID t) (t_FolderID t) (t_Path t) now true else t) <$> db_tracks db !! id.
Proof.
  unfold finalize_job. case_bool_decide as E.
  - rewrite E, map_to_list_empty. by destruct (db_tracks db !! id).
  - simpl. by rewrite lookup_fmap.
Qed.

Lemma elem_of_keys (m : gmap string FolderUpdateInfo) k : k ∈ (map_to_list m).*1 <-> is_Some (m !! k).
Proof.
  rewrite list_elem_of_fmap. split.
  - intros ([k' x] & -> & Hx). apply elem_of_map_to_list in Hx. by exists x.
  - intros [x Hx]. exists (k, x). split; [done|by apply elem_of_map_to_list].
Qed.

Lemma lookup_all_updates lib rows id :
  getFolderUpdateInfoAll lib rows !! id =
  r ← rows !! id; if (fr_LibraryID r =? lib_ID lib) && negb (fr_Missing r) then Some (fr_Info r) else None.
Proof.
  unfold getFolderUpdateInfoAll, queryFolderUpdateInfo. rewrite lookup_fmap. destruct (rows !! id) as [r|] eqn:E; simpl.
  - case_match eqn:Ec.
    + rewrite (proj2 (map_lookup_filter_Some _ _ _ r)) by done. done.
    + rewrite (proj2 (map_lookup_filter_None _ _ _)); [done|]. right. intros r' Hr'. simpl. rewrite E in Hr'. simplify_eq. by rewrite Ec.
  - rewrite (proj2 (map_lookup_filter_None _ _ _)); [done|by left].
Qed.

(** When a folder cannot be stored the phase marks nothing as missing: a folder
    that was there still is, and no track or album changes. *)
Theorem failed_phase_marks_nothing fuel now full stored libs db :
  (run_jobs fuel now stored ((fun l => newScanJob db full l.1 l.2) <$> libs) db).2.2 = true ->
  let db' := phaseFolders fuel now full stored libs db in
  db_tracks db' = db_tracks db /\ db_albums db' = db_albums db /\
  forall id r, db_folders db !! id = Some r -> fr_Missing r = false -> exists r', db_folders db' !! id = Some r' /\ fr_Missing r' = false.
Proof.
  intros He. unfold phaseFolders. destruct (run_jobs _ _ _ _ _) as [ws [db' err]] eqn:E. simpl in He. subst err. simpl.
  revert E. generalize ((fun l => newScanJob db full l.1 l.2) <$> libs) as jobs. intros jobs.
  revert ws db db'. induction jobs as [|job jobs IH]; intros ws db db'; simpl; [done|].
  set (l := producer _ _). destruct (persist_puts now (sl_lib (j_lib job)) stored l db) as (sl & _ & Hd & _).
  destruct (persistChanges _ _ _ _ _) as [db1 err]. simpl in Hd. intros E.
  assert (H1 : db_tracks db1 = db_tracks db /\ db_albums db1 = db_albums db /\
    forall id r, db_folders db !! id = Some r -> fr_Missing r = false -> exists r', db_folders db1 !! id = Some r' /\ fr_Missing r' = false).
  { subst db1. split_and!; [done|done|]. intros id r Hr Hm. simpl.
    destruct (lookup_puts now (sl_lib (j_lib job)) sl (db_folders db) id) as [(f & _ & _ & ->)|[_ ->]]; [|by eauto].
    eexists. split; [done|]. apply toFolder_live. }
  destruct err; [by simplify_eq|]. destruct (run_jobs _ _ _ _ _) as [ws' [db2 e2]] eqn:E2. simplify_eq.
  destruct (IH _ _ _ E2) as (H2 & H3 & H4). destruct H1 as (H5 & H6 & H7). split_and!; [congruence|congruence|].
  intros id r Hr Hm. destruct (H7 _ _ Hr Hm) as (r1 & Hr1 & Hm1). eauto.
Qed.
End storing.

(** ** A scan of one library *)
Section scan.
Context `{IE : ImportEnv, FS : MusicFS, WE : WalkEnv, WL : !WalkLaws}.
Context (lib : scanLibrary) (lib_abs : IsAbs (lib_Path (sl_lib lib)) = true).
Abbreviation L := (sl_lib lib).

(** A row of the library that is not missing. *)
Definition live (r : FolderRow) : bool := (fr_LibraryID r =? lib_ID L) && negb (fr_Missing r).

Lemma found_path fuel stack dir p e : (p, Some e) ∈ found fuel L stack dir -> f_path e = Clean p.
Proof.
  revert stack dir. induction fuel as [|fuel IH]; intros stack dir; simpl; [set_solver|].
  destruct (folder_at _ _ _) as [[[f ch]|]|]; [|set_solver|set_solver].
  intros [(c & Hc & _)%list_elem_of_bind|[= -> ->]%list_elem_of_singleton]%elem_of_app; [by eapply IH|done].
Qed.

Lemma listing_path fuel p e : (p, Some e) ∈ listing fuel L -> f_path e = p.
Proof.
  intros Hin. rewrite (found_path _ _ _ _ _ Hin).
  destruct (found_goes fuel L [loadPatternsFromFolder "."] [] ltac:(constructor)) as (ts & E & _ & Hf).
  assert (Hp : p ∈ (listing fuel L).*1) by (apply list_elem_of_fmap; by exists (p, Some e)).
  change (path_str []) with "." in E. unfold listing in Hp. rewrite E in Hp. apply list_elem_of_fmap in Hp as (t & -> & Ht).
  rewrite list.Forall_forall in Hf. apply Clean_path_str. simpl. auto.
Qed.

Lemma elem_of_entries upd l f :
  f ∈ entries L upd l <-> exists p e, (p, Some e) ∈ l /\ f = with_info (default no_update (upd !! FolderID L p)) e.
Proof.
  unfold entries. rewrite list_elem_of_omap. split.
  - intros ([p [e|]] & Hin & [= <-]). eauto.
  - intros (p & e & Hin & ->). by exists (p, Some e).
Qed.

Lemma listing_once fuel p e p' o : (p, Some e) ∈ listing fuel L -> (p', o) ∈ listing fuel L -> FolderID L p = FolderID L p' -> o = Some e.
Proof.
  intros [i Hi]%list_elem_of_lookup [j Hj]%list_elem_of_lookup E. pose proof (listing_ids L lib_abs fuel) as Hnd.
  assert (i = j) as ->; [|congruence]. eapply (proj1 (NoDup_alt _) Hnd); unfold ids; rewrite list_lookup_fmap; [rewrite Hi|rewrite Hj]; simpl; by rewrite ?E.
Qed.

Lemma entry_id fuel upd f : f ∈ entries L upd (listing fuel L) -> FolderID L (f_path f) ∈ ids L (listing fuel L).
Proof.
  intros (p & e & Hin & ->)%elem_of_entries. simpl. rewrite (listing_path _ _ _ Hin).
  apply list_elem_of_fmap. by exists (p, Some e).
Qed.

Definition put_folders (fuel : nat) (now : Z) (full : bool) (db : database) : database :=
  let upd := getFolderUpdateInfoAll L (db_folders db) in
  let jlib := set_full (FullScanInProgress lib || full || NeedsPIDRescan lib) lib in
  set_folders (puts now L (producer jlib (entries L upd (listing fuel L))) (db_folders db)) db.

Lemma scan_one fuel now full db :
  exists w, wk_updates w = drop_keys (ids L (listing fuel L)) (getFolderUpdateInfoAll L (db_folders db)) /\
    phaseFolders fuel now full (fun _ => true) [(lib, [])] db = finalize_job now w (put_folders fuel now full db).
Proof.
  set (upd := getFolderUpdateInfoAll L (db_folders db)). exists (walkDirTree fuel L upd []).
  destruct (walk_library L lib_abs fuel upd) as [E1 E2]. split; [done|].
  unfold phaseFolders. simpl. change (GetFolderUpdateInfo L [] (db_folders db)) with upd. rewrite persist_all. simpl. by rewrite E2.
Qed.

Lemma scan_folders_lookup fuel now full db id :
  let db' := phaseFolders fuel now full (fun _ => true) [(lib, [])] db in
  exists ks, (forall k, k ∈ ks <-> k ∉ ids L (listing fuel L) /\ exists r, db_folders db !! k = Some r /\ live r = true) /\
    db_folders db' !! id = marked now ks id <$> db_folders (put_folders fuel now full db) !! id /\
    forall tid, db_tracks db' !! tid =
      (fun t => if bool_decide (t_FolderID t ∈ ks) && negb (t_Missing t)
                then mkTrack (t_ID t) (t_FolderID t) (t_Path t) now true else t) <$> db_tracks db !! tid.
Proof.
  destruct (scan_one fuel now full db) as (w & Hw & ->). exists (map_to_list (wk_updates w)).*1. split_and!.
  - intros k. rewrite elem_of_keys, Hw, lookup_drop_keys. rewrite lookup_all_updates. unfold live.
    case_decide as Hd; [split; [by intros [? ?]|tauto]|]. destruct (db_folders db !! k) as [r|]; simpl.
    + destruct (_ && _) eqn:E; split; [by eauto|by eauto|by intros [? ?]|intros (_ & r' & [= <-] & Hl); by rewrite E in Hl].
    + split; [by intros [? ?]|by intros (_ & ? & ? & _)].
  - apply finalize_folders.
  - intros tid. by rewrite finalize_tracks.
Qed.


(** ** A second scan *)
Lemma hash_with_info i e : hash (with_info i e) = hash e.
Proof. done. Qed.

Lemma not_changed_full full f : changed (set_full full lib) f = false -> f_prevHash f = hash f \/ (isEmpty f && isNew f = true).
Proof.
  unfold changed, isOutdated. simpl. destruct (full && _); simpl; [destruct full, (isEmpty f && isNew f); auto; done|].
  destruct (String.eqb_spec (f_prevHash f) (hash f)); [auto|]. simpl. destruct full, (isEmpty f && isNew f); auto; done.
Qed.


(** ** A full scan that was interrupted *)
Abbreviation fid f := (FolderID L (f_path f)).

Lemma filter_sublist {A} (P : A -> bool) l : List.filter P l `sublist_of` l.
Proof. induction l as [|x l IH]; [done|]. simpl. destruct (P x); by constructor. Qed.

Lemma entries_ids fuel upd l :
  l ⊆ listing fuel L -> (fun f => fid f) <$> entries L upd l `sublist_of` ids L l.
Proof.
  induction l as [|[p [e|]] l IH]; intros Hl; [done|..]; rewrite entries_cons; unfold ids; simpl.
  - rewrite (listing_path fuel p e) by set_solver. constructor. apply IH. set_solver.
  - constructor. apply IH. set_solver.
Qed.

Lemma to_store_one fuel db full :
  to_store fuel (newScanJob db full lib []) =
  producer (set_full (FullScanInProgress lib || full || NeedsPIDRescan lib) lib)
    (entries L (getFolderUpdateInfoAll L (db_folders db)) (listing fuel L)).
Proof. unfold to_store. simpl. destruct (walk_library L lib_abs fuel (getFolderUpdateInfoAll L (db_folders db))) as [_ <-]. done. Qed.

(** What is left to store when some folders have been. *)
Lemma stored_not_again fuel now jlib db sl l :
  FullScanInProgress jlib = true -> LastScanStartedAt jlib <= now -> l ⊆ listing fuel L ->
  let upd := getFolderUpdateInfoAll L (db_folders db) in
  let upd' := getFolderUpdateInfoAll L (puts now L sl (db_folders db)) in
  sl ⊆ entries L upd (listing fuel L) ->
  producer jlib (entries L upd' l) =
  List.filter (fun f => bool_decide (fid f ∉ (fun f => fid f) <$> sl)) (producer jlib (entries L upd l)).
Proof.
  intros Hfull Hnow Hl upd upd' Hsl. induction l as [|[p [e|]] l IH]; [done| |apply IH; set_solver].
  specialize (IH ltac:(set_solver)). assert (Hin : (p, Some e) ∈ listing fuel L) by set_solver. rewrite !entries_cons. cbn [fmap option_fmap option_map].
  set (id := FolderID L p). unfold producer in *. cbn [List.filter]. rewrite IH. clear IH.
  assert (Hp : fid (with_info (default no_update (upd !! id)) e) = id) by (simpl; by rewrite (listing_path _ _ _ Hin)).
  destruct (lookup_puts now L sl (db_folders db) id) as [(g & Hg & Hgid & Hrow)|[Hn Hrow]].
  - assert (Hx : changed jlib (with_info (default no_update (upd' !! id)) e) = false).
    { pose proof (Hsl _ Hg) as (p' & e' & Hin' & ->)%elem_of_entries. simpl in Hgid. rewrite (listing_path _ _ _ Hin') in Hgid.
      pose proof (listing_once _ _ _ _ _ Hin Hin' (eq_sym Hgid)) as [= ->].
      assert (Hu : upd' !! id = Some (fr_Info (toFolder now L (with_info (default no_update (upd !! FolderID L p')) e)))).
      { unfold upd'. rewrite lookup_all_updates, Hrow. cbn [mbind option_bind].
        destruct (toFolder_live now L (with_info (default no_update (upd !! FolderID L p')) e)) as [-> ->]. by rewrite Z.eqb_refl. }
      rewrite Hu. unfold changed, isOutdated. rewrite Hfull. simpl. rewrite hash_with_info, String.eqb_refl. destruct (Z.ltb_spec now (LastScanStartedAt jlib)); [lia|done]. }
    rewrite Hx. destruct (changed jlib (with_info (default no_update (upd !! id)) e)); [|done]. cbn [List.filter]. rewrite Hp.
    rewrite bool_decide_eq_false_2; [done|]. intros Hni. apply Hni. rewrite <- Hgid. by apply (list_elem_of_fmap_2 (fun f => fid f)).
  - assert (Hu : upd' !! id = upd !! id) by (unfold upd', upd; by rewrite !lookup_all_updates, Hrow).
    rewrite Hu. destruct (changed jlib _); [|done]. cbn [List.filter]. rewrite Hp. rewrite bool_decide_eq_true_2; [done|].
    intros (f & Ef & Hf)%list_elem_of_fmap. by apply (Hn f Hf).
Qed.

(** The library is among those that are scanned, as it was, and the scan is full. *)
Lemma interrupted_goes_on now2 full2 begun libs :
  FullScanInProgress lib = true -> NeedsPIDRescan lib = false -> LastScanStartedAt lib <> zero_time -> lib ∈ libs ->
  scan_is_full full2 libs = true /\
  exists libs', prepareLibrariesForScan now2 (scan_is_full full2 libs) begun libs = Some libs' /\ lib ∈ libs'.
Proof.
  intros Hfull Hpid Hst Hin. split.
  - unfold scan_is_full. apply orb_true_iff. right. apply existsb_exists. exists lib. by rewrite Hpid, Hfull, <- list_elem_of_In.
  - unfold prepareLibrariesForScan. set (libs' := omap _ libs).
    assert (Hl : lib ∈ libs').
    { apply list_elem_of_omap. exists lib. split; [done|]. unfold prepareLibrary. by rewrite Hpid, (proj2 (Z.eqb_neq _ _) Hst). }
    clearbody libs'. exists libs'. split; [|done]. destruct libs'; [by apply elem_of_nil in Hl|done].
Qed.

End scan.

(** ** A scan of one folder *)

(** A directory entry and [Lstat] agree on what is a link, and no directory is one. *)
Class LinkLaws `{MusicFS} := {
  entry_link dir reads e : Open dir = Directory reads -> e ∈ read_all reads "" ->
    Lstat (PathJoin [dir; Name e]) = Some (IsSymlink e) /\ IsDir e && IsSymlink e = false }.

Section selective.
Context `{IE : ImportEnv, FS : MusicFS, WE : WalkEnv, WL : !WalkLaws, LL : !LinkLaws}.
Context (lib : Library) (lib_abs : IsAbs (lib_Path lib) = true).

(** What a stack of patterns says of a path. *)
Definition says (stack : list (list string)) (p : string) : option bool := list.last (omap (fun l => verdict l p) (concat stack)).

Lemma says_app a b p : says (a ++ b) p = match says b p with Some x => Some x | None => says a p end.
Proof. unfold says. rewrite concat_app, omap_app. apply last_app. Qed.

Lemma ShouldIgnore_says stack p :
  ShouldIgnore (rebuildCurrentPatterns stack) p = if String.eqb p "" || String.eqb p "." then false else default false (says stack p).
Proof.
  unfold ShouldIgnore, rebuildCurrentPatterns, compilePatterns. simpl. destruct (_ || _); [done|]. unfold says. case_bool_decide as E.
  - by rewrite E.
  - apply last_decides.
Qed.

Lemma load_entries_ext ign ign' d es f ch :
  (forall p, ign p = ign' p) -> load_entries ign d es f ch = load_entries ign' d es f ch.
Proof.
  intros E. revert f ch. induction es as [|e es IH]; intros f ch; [done|]. simpl. rewrite E, !IH. destruct (ign' _); [done|].
  destruct (isDirOrSymlinkToDir d e) as [b|]; [|done]. destruct (isIgnoredEntry _ b); [done|]. rewrite ?IH.
  destruct (_ && _); [done|]. destruct (Info e); [|done]. destruct (resolveEntryName d e); by rewrite ?IH.
Qed.

(** Stacks that say the same lead to the same listing. *)
Lemma found_says fuel s1 s2 dir :
  (forall p, says (s1 ++ [loadPatternsFromFolder dir]) p = says (s2 ++ [loadPatternsFromFolder dir]) p) ->
  found fuel lib s1 dir = found fuel lib s2 dir.
Proof.
  revert s1 s2 dir. induction fuel as [|fuel IH]; intros s1 s2 dir E; [done|]. simpl.
  assert (Ef : folder_at lib (s1 ++ [loadPatternsFromFolder dir]) dir = folder_at lib (s2 ++ [loadPatternsFromFolder dir]) dir).
  { unfold folder_at. destruct (Stat dir); [|done]. simpl. destruct (Open dir); [done|done|]. f_equal. apply load_entries_ext.
    intros q. by rewrite !ShouldIgnore_says, E. }
  rewrite Ef. clear Ef. destruct (folder_at _ _ _) as [[[f ch]|]|]; [|done|done]. f_equal.  induction ch as [|c ch IHc]; [done|].
  rewrite !bind_cons, IHc. f_equal. apply IH. intros p. by rewrite !(says_app (_ ++ _)), E.
Qed.

(** The entries of a listing below a folder. *)
Definition under (F : list string) (x : string * option folderEntry) : bool := bool_decide (F = [] \/ F `prefix_of` split_slash "" x.1).

Lemma under_path_str F segs o : Forall stays F -> Forall stays segs -> under F (path_str segs, o) = bool_decide (F `prefix_of` segs).
Proof.
  intros HF Hs. unfold under. simpl. rewrite split_path_str by done. apply bool_decide_ext. destruct segs as [|x l].
  - split; [|intros Hp; left; by apply prefix_nil_inv in Hp]. intros [->|Hp]; [done|]. destruct F as [|y F]; [done|].
    apply prefix_cons_inv_1 in Hp as ->. inversion HF as [|? ? [(_ & _ & ?) _]]; done.
  - split; [intros [->|?]; [apply prefix_nil|done]|by right].
Qed.

(** The patterns of the folders from [segs] on, down to the one before the last of
    [tail]. *)
Fixpoint down (segs tail : list string) : list (list string) :=
  match tail with [] => [] | n :: tail => loadPatternsFromFolder (path_str segs) :: down (segs ++ [n]) tail end.

Lemma filter_bind_one {A B} (P : B -> bool) (g : A -> list B) (x : A) (l : list A) :
  NoDup l -> x ∈ l -> (forall y, y ∈ l -> y <> x -> List.filter P (g y) = []) -> List.filter P (y ← l; g y) = List.filter P (g x).
Proof.
  intros Hnd. induction Hnd as [|y l Hy Hnd IH]; [set_solver|]. intros Hx Ho. rewrite bind_cons, List.filter_app.
  apply elem_of_cons in Hx as [->|Hx].
  - enough (E : List.filter P (z ← l; g z) = []) by (by rewrite E, app_nil_r).
    assert (Hl : forall z, z ∈ l -> List.filter P (g z) = []) by (intros z Hz; apply Ho; [by right|by intros ->]).
    clear -Hl. induction l as [|z l IH]; [done|]. rewrite bind_cons, List.filter_app, Hl, IH; [done| |by left]. intros w Hw. apply Hl. by right.
  - rewrite Ho; [|by left|by intros ->]. apply IH; [done|]. intros z Hz. apply Ho. by right.
Qed.

(** Every entry of a listing is a path below its folder. *)
Lemma found_tail fuel stack segs x : Forall stays segs -> x ∈ found fuel lib stack (path_str segs) ->
  exists t, Forall stays t /\ x.1 = path_str (segs ++ t).
Proof.
  intros Hs Hx. destruct (found_goes fuel lib stack segs Hs) as (ts & E & _ & Hf).
  assert (Hx1 : x.1 ∈ (found fuel lib stack (path_str segs)).*1) by (apply list_elem_of_fmap; eauto).
  rewrite E in Hx1. apply list_elem_of_fmap in Hx1 as (t & Hx1 & Ht). rewrite list.Forall_forall in Hf. eauto.
Qed.

Lemma under_found F fuel stack segs b :
  Forall stays F -> Forall stays segs -> (forall t, bool_decide (F `prefix_of` segs ++ t) = b) ->
  forall x, x ∈ found fuel lib stack (path_str segs) -> under F x = b.
Proof.
  intros HF Hs Hb [p o] Hx. destruct (found_tail _ _ _ _ Hs Hx) as (t & Ht & E). simpl in E. subst p.
  rewrite under_path_str; [apply Hb|done|by apply Forall_app].
Qed.

Lemma subdir_not_link segs n :
  Forall stays segs -> stays n -> FollowSymlinks = false -> subdir segs n -> Lstat (path_str (segs ++ [n])) = Some false.
Proof.
  intros Hs Hn Hf (reads & e & Ho & He & <- & Hd). destruct (entry_link _ _ _ Ho He) as [Hl Hb].
  rewrite PathJoin_path_str in Hl by done. rewrite Hl. f_equal. unfold isDirOrSymlinkToDir in Hd. rewrite Hf in Hd.
  destruct (IsDir e); [done|]. by destruct (IsSymlink e).
Qed.

(** The part of a listing below a folder it reaches is the listing of that folder,
    with the patterns on the way to it in force. *)
Lemma found_below fuel stack segs tail :
  Forall stays segs -> Forall stays tail -> path_str (segs ++ tail) ∈ (found fuel lib stack (path_str segs)).*1 ->
  List.filter (under (segs ++ tail)) (found fuel lib stack (path_str segs)) =
    found (fuel - length tail) lib (stack ++ down segs tail) (path_str (segs ++ tail)) /\
  (FollowSymlinks = false -> forall t, t `prefix_of` tail -> t <> [] -> Lstat (path_str (segs ++ t)) = Some false).
Proof.
  revert fuel stack segs. induction tail as [|n tail IH]; intros fuel stack segs Hs Ht Hin.
  { rewrite !app_nil_r, Nat.sub_0_r. split; [|intros _ t Hp; by apply prefix_nil_inv in Hp]. apply filter_all.
    apply under_found; [done|done|]. intros t. apply bool_decide_eq_true_2. by eexists. }
  apply list.Forall_cons in Ht as [Hn Ht]. assert (Hall : Forall stays (segs ++ n :: tail)) by (apply Forall_app; split; [done|by constructor]).
  assert (Hseg : forall m, stays m -> Forall stays (segs ++ [m])) by (intros m Hm; apply Forall_app; split; [done|by constructor]).
  assert (Hself : path_str (segs ++ n :: tail) <> path_str segs).
  { intros E%path_str_inj; [|done|done]. apply (f_equal length) in E. rewrite length_app in E. simpl in E. lia. }
  destruct fuel as [|fuel]; [simpl in Hin; set_solver|]. simpl in Hin |- *.
  destruct (folder_at _ _ _) as [[[f ch]|]|] eqn:Ef; [|simpl in Hin; set_solver|simpl in Hin; set_solver].
  destruct (folder_at_children _ _ _ _ _ Hs Ef) as (names & Hns & Hnd & -> & Hsub). set (st := stack ++ [_]) in *. rewrite list.Forall_forall in Hns, Hsub.
  rewrite list_fmap_bind in Hin |- *. unfold compose in *. rewrite List.filter_app. simpl List.filter.
  rewrite under_path_str by done. rewrite bool_decide_eq_false_2 by (intros [k E]; apply (f_equal length) in E; rewrite !length_app in E; simpl in E; lia).
  rewrite app_nil_r.
  assert (Hnames : n ∈ names /\ path_str ((segs ++ [n]) ++ tail) ∈ (found fuel lib st (path_str (segs ++ [n]))).*1).
  { rewrite fmap_app in Hin. apply elem_of_app in Hin as [Hin|Hin]; [|simpl in Hin; set_solver].
    apply list_elem_of_fmap in Hin as (x & Ex & (m & Hx & Hm)%list_elem_of_bind).
    destruct (found_tail _ _ _ _ (Hseg m (Hns m Hm)) Hx) as (t & Htl & E). rewrite E in Ex.
    apply path_str_inj in Ex; [|done|apply Forall_app; auto]. rewrite <- app_assoc in Ex. apply app_inv_head in Ex. simplify_eq/=.
    split; [done|]. rewrite <- E. apply list_elem_of_fmap. eauto. }
  destruct Hnames as [Hnm Hin']. destruct (IH fuel st (segs ++ [n]) (Hseg n Hn) Ht Hin') as [E Hlink]. rewrite <- app_assoc in E. simpl in E.
  split.
  - rewrite (filter_bind_one _ (fun m => found fuel lib st (path_str (segs ++ [m]))) n names Hnd Hnm).
    + rewrite E. unfold st. by rewrite <- app_assoc.
    + intros m Hm Hne. apply filter_none. apply under_found; [done|auto|]. intros t. apply bool_decide_eq_false_2. intros [k Ek].
      rewrite <- !app_assoc in Ek. apply app_inv_head in Ek. simplify_eq/=.
  - intros Hf t Hp Hne. destruct t as [|m t]; [done|]. apply prefix_cons_inv_1 in Hp as Hmn. apply prefix_cons_inv_2 in Hp. subst m.
    destruct t as [|m t]; [apply subdir_not_link; auto|]. specialize (Hlink Hf (m :: t) Hp). rewrite <- app_assoc in Hlink. by apply Hlink.
Qed.

Lemma Join_snoc l x : l <> [] -> Join (l ++ [x]) "/" = Join l "/" +:+ "/" +:+ x.
Proof.
  induction l as [|y l IH]; [done|]. intros _. destruct l as [|z l]; [done|].
  change (Join ((y :: z :: l) ++ [x]) "/") with (y +:+ "/" +:+ Join ((z :: l) ++ [x]) "/"). rewrite IH by done.
  change (Join (y :: z :: l) "/") with (y +:+ "/" +:+ Join (z :: l) "/"). by rewrite !string_app_assoc.
Qed.

Lemma Dir_path_str segs x : Forall stays (segs ++ [x]) -> Dir (path_str (segs ++ [x])) = path_str segs.
Proof.
  intros H. pose proof H as [Hs _]%Forall_app. unfold Dir. rewrite split_path_str by done.
  assert (E : match segs ++ [x] with [] => ["."] | _ => segs ++ [x] end = segs ++ [x]) by (by destruct segs).
  rewrite E, removelast_last. destruct segs as [|y l]; [done|]. rewrite Join_snoc by done.
  apply Clean_relative; [|done|].
  - pose proof (path_str_relative _ Hs) as Hr. pose proof (path_str_nonempty _ Hs) as Hne. unfold path_str in Hr, Hne.
    destruct (Join (y :: l) "/") as [|c p]; [done|]. rewrite string_app_cons. revert Hr.
    unfold IsAbs, HasPrefix. cbn [String.prefix]. destruct (ascii_dec "/" c); [|done]. by destruct p.
  - rewrite split_slash_app, foldl_app, split_slash_Join by (done || by apply stays_no_slash). rewrite (clean_foldl_stays false (y :: l)) by done. by rewrite app_nil_r.
Qed.

Lemma symlinked_loop_none fuel segs :
  Forall stays segs -> (forall t, t `prefix_of` segs -> t <> [] -> Lstat (path_str t) = Some false) ->
  symlinked_loop fuel (path_str segs) = false.
Proof.
  revert segs. induction fuel as [|fuel IH]; intros segs Hs Hl; [done|]. simpl. destruct (_ || _) eqn:E; [done|].
  destruct segs as [|x segs _] using rev_ind; [done|]. rewrite Hl by (done || by destruct segs). simpl. rewrite Dir_path_str by done.
  apply IH; [by apply Forall_app in Hs as [? _]|]. intros t Ht. apply Hl. by apply prefix_app_r.
Qed.

(** The fuel of the loop is enough: it looks at every folder on the way. *)
Lemma symlinked_loop_all fuel segs :
  Forall stays segs -> (length segs < fuel)%nat ->
  symlinked_loop fuel (path_str segs) = true <-> exists t, t `prefix_of` segs /\ t <> [] /\ Lstat (path_str t) = Some true.
Proof.
  revert segs. induction fuel as [|fuel IH]; intros segs Hs Hl; [lia|]. simpl. destruct segs as [|x segs _] using rev_ind.
  { simpl. split; [done|]. intros (t & Ht & Hne & _). by apply prefix_nil_inv in Ht. }
  assert (H1 : path_str (segs ++ [x]) <> ".") by (intros E; apply (path_str_inj _ [] Hs ltac:(constructor)) in E; by destruct segs).
  assert (H2 : path_str (segs ++ [x]) <> "/") by (intros E; pose proof (path_str_relative _ Hs) as Hr; by rewrite E in Hr).
  rewrite (proj2 (String.eqb_neq _ _) H1), (proj2 (String.eqb_neq _ _) H2). simpl. rewrite Dir_path_str by done.
  pose proof Hs as [Hs' _]%Forall_app. rewrite length_app in Hl. simpl in Hl. rewrite orb_true_iff, IH by (done || lia). split.
  - intros [Hx|(t & Ht & Hne & Hx)]; [exists (segs ++ [x])|exists t; split; [by apply prefix_app_r|done]].
    split_and!; [done|by destruct segs|]. by destruct (Lstat _) as [[]|].
  - intros (t & [k Hk] & Hne & Hx). destruct k as [|y k _] using rev_ind.
    + rewrite app_nil_r in Hk. subst t. left. by rewrite Hx.
    + right. rewrite app_assoc in Hk. apply app_inj_tail in Hk as [Hk _]. exists t. split; [by exists k|done].
Qed.

Lemma path_str_length segs : Forall stays segs -> (length segs <= String.length (path_str segs))%nat.
Proof.
  intros Hs. destruct segs as [|x l]; [simpl; lia|]. unfold path_str. induction Hs as [|y m [(_ & Hy & _) _] Hm IH]; [simpl; lia|].
  destruct m as [|z m]; [destruct y; simpl; [done|lia]|]. change (Join (y :: z :: m) "/") with (y +:+ "/" +:+ Join (z :: m) "/").
  rewrite !string_length_app. change (String.length "/") with 1%nat. cbn [length] in *. lia.
Qed.

Lemma isSymlinkedPath_all segs :
  Forall stays segs -> isSymlinkedPath (path_str segs) = true <-> exists t, t `prefix_of` segs /\ t <> [] /\ Lstat (path_str t) = Some true.
Proof.
  intros Hs. unfold isSymlinkedPath. rewrite Clean_path_str by done. apply symlinked_loop_all; [done|]. pose proof (path_str_length _ Hs). lia.
Qed.

Lemma parents_down segs tail :
  Forall stays segs -> Forall stays tail ->
  loadPatternsFromFolder (path_str segs) :: (loadPatternsFromFolder <$> parents (path_str segs) tail) =
  down segs tail ++ [loadPatternsFromFolder (path_str (segs ++ tail))].
Proof.
  intros Hs Ht. revert segs Hs. induction Ht as [|n tail Hn Ht IH]; intros segs Hs; [by rewrite app_nil_r|]. simpl.
  destruct Hn as [(Hn1 & Hn2 & Hn3) Hn4]. rewrite (proj2 (String.eqb_neq _ _) Hn2), (proj2 (String.eqb_neq _ _) Hn3). simpl.
  rewrite PathJoin_path_str by (by repeat split). f_equal. rewrite IH by (apply Forall_app; split; [done|by repeat constructor]).
  by rewrite <- app_assoc.
Qed.

Lemma PushAllParents_down n F : Forall stays (n :: F) ->
  PushAllParents (path_str (n :: F)) newIgnoreChecker = checker_of (down [] (n :: F) ++ [loadPatternsFromFolder (path_str (n :: F))]).
Proof.
  intros Hs. unfold PushAllParents.
  assert (H1 : path_str (n :: F) <> "") by (by apply path_str_nonempty).
  assert (H2 : path_str (n :: F) <> ".") by (intros E; by apply (path_str_inj _ [] Hs ltac:(constructor)) in E).
  rewrite (proj2 (String.eqb_neq _ _) H1), (proj2 (String.eqb_neq _ _) H2). simpl orb. cbn [app patternStack newIgnoreChecker].
  rewrite Clean_path_str, split_path_str by done. rewrite fmap_cons. change "." with (path_str []).
  by rewrite (parents_down [] (n :: F)) by (done || constructor).
Qed.

(** The stacks of the two walks at a folder: the root twice, or the folder twice. *)
Lemma says_twice n F p :
  let pat := loadPatternsFromFolder (path_str (n :: F)) in
  says (([loadPatternsFromFolder "."] ++ down [] (n :: F)) ++ [pat]) p = says ((down [] (n :: F) ++ [pat]) ++ [pat]) p.
Proof.
  intros pat. cbn [down]. change (path_str []) with ".". set (d := down _ F). set (r := loadPatternsFromFolder ".").
  change (r :: d) with ([r] ++ d). rewrite !says_app. by destruct (says [pat] p), (says d p), (says [r] p).
Qed.

(** C33: a scan of one folder that a scan of the library reaches sees exactly what that
    scan sees below it: the same folders with the same files in the same order, the
    same patterns in force, and it takes the same folders off the map. *)
Theorem selective_walk_agrees fuel upd F :
  Forall stays F -> path_str F ∈ (listing fuel lib).*1 ->
  let w := walkDirTree (fuel - length F) lib upd [path_str F] in
  let below := List.filter (under F) (listing fuel lib) in
  wk_results w = entries lib upd below /\ wk_updates w = drop_keys (ids lib below) upd.
Proof.
  intros HF Hin. destruct (found_below fuel [loadPatternsFromFolder "."] [] F ltac:(constructor) HF Hin) as [E Hl]. simpl app in E.
  change (found fuel lib _ (path_str [])) with (listing fuel lib) in E.
  assert (Hlink : negb FollowSymlinks && isSymlinkedPath (path_str F) = false).
  { destruct FollowSymlinks eqn:Ef; [done|]. simpl. unfold isSymlinkedPath. rewrite Clean_path_str by done. apply symlinked_loop_none; [done|exact (Hl eq_refl)]. }
  change (walkDirTree (fuel - length F) lib upd [path_str F]) with (walk_target (fuel - length F) lib (mkWalk upd newIgnoreChecker []) (path_str F)). cbv zeta. rewrite E. destruct F as [|n F].
  - destruct (walk_target_found lib lib_abs (fuel - 0) [loadPatternsFromFolder "."] [] upd newIgnoreChecker [] ltac:(constructor) Hlink ltac:(done)) as [H1 H2].
    split; [exact H2|exact H1].
  - destruct (walk_target_found lib lib_abs (fuel - length (n :: F)) _ (n :: F) upd newIgnoreChecker [] HF Hlink (PushAllParents_down n F HF)) as [H1 H2].
    rewrite (found_says _ _ ([loadPatternsFromFolder "."] ++ down [] (n :: F))) in H1, H2 by (intros p; symmetry; apply says_twice).
    split; [exact H2|exact H1].
Qed.
End selective.

(** ** The files of a folder *)
Section files.
Context `{IE : ImportEnv, FS : MusicFS, WE : WalkEnv}.

Definition full_path (path : string) (x : string * DirEntry) : string := PathJoin [path; x.1].

Lemma process_files_spec full path order db imp :
  NoDup (full_path path <$> order) ->
  match process_files full path order db imp with
  | None => exists x, x ∈ order /\ to_import full db (full_path path x) x.2 = None
  | Some (imp', db') =>
      (forall x, x ∈ order -> to_import full db (full_path path x) x.2 <> None) /\
      (forall p, db' !! p = if decide (p ∈ full_path path <$> order) then None else db !! p) /\
      (forall x, x ∈ order ->
         imp' !! full_path path x = if decide (to_import full db (full_path path x) x.2 = Some true)
           then Some (db !! full_path path x) else imp !! full_path path x) /\
      (forall p, p ∉ full_path path <$> order -> imp' !! p = imp !! p)
  end.
Proof.
  revert db imp. induction order as [|[n e] order IH]; intros db imp Hnd.
  { simpl. split_and!; [set_solver|done|set_solver|done]. }
  rewrite fmap_cons in Hnd. apply list.NoDup_cons in Hnd as [Hnot Hnd]. simpl. change (PathJoin [path; n]) with (full_path path (n, e)). set (p0 := full_path path (n, e)) in *.
  destruct (to_import full db p0 e) as [b|] eqn:Ei; simpl; [|exists (n, e); split; [by left|done]].
  set (imp1 := if b then <[p0 := db !! p0]> imp else imp). specialize (IH (delete p0 db) imp1 Hnd).
  assert (Hti : forall x, x ∈ order -> to_import full (delete p0 db) (full_path path x) x.2 = to_import full db (full_path path x) x.2 /\
    delete p0 db !! full_path path x = db !! full_path path x /\ imp1 !! full_path path x = imp !! full_path path x).
  { intros x Hx. assert (Hne : p0 <> full_path path x) by (intros E; apply Hnot; rewrite E; by apply list_elem_of_fmap_2).
    unfold to_import. rewrite lookup_delete_ne by done. split_and!; [done|done|]. unfold imp1. destruct b; [by rewrite lookup_insert_ne|done]. }
  destruct (process_files full path order _ _) as [[imp' db']|].
  - destruct IH as (H1 & H2 & H3 & H4). split_and!.
    + intros x [->|Hx]%elem_of_cons; [simpl; fold p0; by rewrite Ei|]. destruct (Hti x Hx) as [<- _]. by apply H1.
    + intros p. rewrite H2. destruct (decide (p = p0)) as [->|Hne].
      * rewrite (decide_True (P := p0 ∈ _ :: _)) by (by left). case_decide; [done|]. apply lookup_delete_eq.
      * rewrite lookup_delete_ne by done. apply decide_ext. set_solver.
    + intros x [->|Hx]%elem_of_cons.
      * simpl. fold p0. rewrite H4 by done. rewrite Ei. unfold imp1. destruct b; [by rewrite decide_True, lookup_insert_eq by done|by rewrite decide_False by done].
      * destruct (Hti x Hx) as (E1 & E2 & E3). rewrite H3 by done. by rewrite E1, E2, E3.
    + intros p Hp. rewrite H4 by set_solver. unfold imp1. destruct b; [|done]. rewrite lookup_insert_ne; [done|set_solver].
  - destruct IH as (x & Hx & E). exists x. destruct (Hti x Hx) as [<- _]. split; [by right|done].
Qed.

(** The rows of a folder by path. *)
Lemma lookup_table (rows : list dbTrack) (m : gmap string dbTrack) p :
  NoDup (t_Path <$> rows) ->
  (forall t, t ∈ rows -> t_Path t = p -> foldl (fun m t => <[t_Path t := t]> m) m rows !! p = Some t) /\
  ((forall t, t ∈ rows -> t_Path t <> p) -> foldl (fun m t => <[t_Path t := t]> m) m rows !! p = m !! p).
Proof.
  revert m. induction rows as [|t rows IH]; intros m Hnd; [split; [set_solver|done]|]. rewrite fmap_cons in Hnd.
  apply list.NoDup_cons in Hnd as [Hnot Hnd]. simpl. destruct (IH (<[t_Path t := t]> m) Hnd) as [H1 H2]. split.
  - intros t' [->|Ht]%elem_of_cons Hp; [|by apply H1]. rewrite H2; [subst p; by rewrite lookup_insert_eq|].
    intros t' Ht' E. apply Hnot. rewrite Hp, <- E. by apply list_elem_of_fmap_2.
  - intros Hn. rewrite H2 by (intros t' Ht'; apply Hn; by right). apply lookup_insert_ne. apply Hn. by left.
Qed.

(** C35: whatever the order in which the files of a folder are visited, a file is
    imported exactly when the database has no track of its path, or in a full scan,
    or when it is newer than its track or the track was missing; the tracks that are
    reported missing are exactly those with no file; and only a file with a track
    whose information cannot be read stops this. *)
Theorem folder_files_sorted_out full segs files order rows :
  Forall stays segs -> (forall n e, files !! n = Some e -> stays n) -> NoDup (t_Path <$> rows) -> order ≡ₚ map_to_list files ->
  match processFolder full (path_str segs) order rows with
  | None => exists n e t, files !! n = Some e /\ t ∈ rows /\ t_Path t = path_str (segs ++ [n]) /\ full = false /\ Info e = None
  | Some (imports, missing) =>
      (forall n e, files !! n = Some e ->
         let p := path_str (segs ++ [n]) in
         (forall t, t ∈ rows -> t_Path t = p ->
            imports !! p = if full || t_Missing t || match Info e with Some i => t_UpdatedAt t <? fi_ModTime i | None => false end
                           then Some (Some t) else None) /\
         ((forall t, t ∈ rows -> t_Path t <> p) -> imports !! p = Some None)) /\
      (forall p, (forall n e, files !! n = Some e -> p <> path_str (segs ++ [n])) -> imports !! p = None) /\
      (forall t, t ∈ missing <-> t ∈ rows /\ forall n e, files !! n = Some e -> t_Path t <> path_str (segs ++ [n]))
  end.
Proof.
  intros Hs Hst Hrows Hord. unfold processFolder. set (tab := foldl _ ∅ rows).
  assert (Hel : forall x, x ∈ order <-> files !! x.1 = Some x.2) by (intros [n e]; rewrite Hord; apply elem_of_map_to_list).
  assert (Hfp : forall x, x ∈ order -> full_path (path_str segs) x = path_str (segs ++ [x.1])).
  { intros [n e] Hx%Hel. apply PathJoin_path_str; [done|]. by eapply Hst. }
  assert (Hnd : NoDup (full_path (path_str segs) <$> order)).
  { assert (Ho : NoDup order) by (rewrite Hord; apply NoDup_map_to_list). apply NoDup_fmap_2_strong; [|done].
    intros [n e] [n' e'] Hx Hx'. rewrite (Hfp _ Hx), (Hfp _ Hx'). apply Hel in Hx, Hx'. simpl in *. intros E.
    apply path_str_inj in E; [simplify_list_eq; congruence|apply Forall_app; eauto..]. }
  pose proof (process_files_spec full (path_str segs) order tab ∅ Hnd) as Hp.
  assert (Htab : forall p, (forall t, t ∈ rows -> t_Path t = p -> tab !! p = Some t) /\ ((forall t, t ∈ rows -> t_Path t <> p) -> tab !! p = None))
    by (intros p; destruct (lookup_table rows ∅ p Hrows) as [H1 H2]; split; [done|intros Hn; etransitivity; [exact (H2 Hn)|apply lookup_empty]]).
  assert (Hrow : forall p t, tab !! p = Some t <-> t ∈ rows /\ t_Path t = p).
  { intros p t. split; [|intros [? ?]; by apply Htab]. intros Ht. destruct (decide (p ∈ t_Path <$> rows)) as [Hin|Hin].
    - apply list_elem_of_fmap in Hin as (t' & -> & Ht'). rewrite (proj1 (Htab _) t' Ht' eq_refl) in Ht. by simplify_eq.
    - rewrite (proj2 (Htab p)) in Ht; [done|]. intros t' Ht' <-. apply Hin. by apply list_elem_of_fmap_2. }
  destruct (process_files full _ order tab ∅) as [[imports rest]|]; simpl.
  - destruct Hp as (H1 & H2 & H3 & H4). split_and!.
    + intros n e He. assert (Hx : (n, e) ∈ order) by (by apply Hel). specialize (H3 _ Hx). specialize (H1 _ Hx).
      rewrite (Hfp _ Hx) in H1, H3. simpl in H1, H3. split.
      * intros t Ht Htp. rewrite H3. unfold to_import. rewrite (proj1 (Htab _) t Ht Htp), lookup_empty.
        unfold to_import in H1. rewrite (proj1 (Htab _) t Ht Htp) in H1.
        destruct full; [done|]. simpl. destruct (Info e) as [i|]; [|done]. simpl. rewrite orb_comm. by destruct (_ || _).
      * intros Hn. rewrite H3. unfold to_import. rewrite (proj2 (Htab _) Hn). done.
    + intros p Hn. rewrite H4, lookup_empty; [done|]. intros (x & -> & Hx)%list_elem_of_fmap. apply (Hn x.1 x.2); [by apply Hel|by apply Hfp].
    + intros t. rewrite list_elem_of_fmap. split.
      * intros ([p t'] & -> & Ht'%elem_of_map_to_list). rewrite H2 in Ht'. case_decide as Hd; [done|]. apply Hrow in Ht' as [Ht' <-]. split; [done|].
        intros n e He E. apply Hd. apply list_elem_of_fmap. exists (n, e). assert (Hx : (n, e) ∈ order) by (by apply Hel). split; [by rewrite (Hfp _ Hx)|done].
      * intros [Ht Hn]. exists (t_Path t, t). split; [done|]. apply elem_of_map_to_list. rewrite H2. rewrite decide_False; [by apply Htab|].
        intros (x & E & Hx)%list_elem_of_fmap. rewrite (Hfp _ Hx) in E. by apply (Hn x.1 x.2); [apply Hel|].
  - destruct Hp as ([n e] & Hx & Hi). rewrite (Hfp _ Hx) in Hi. unfold to_import in Hi. simpl in Hi.
    destruct (tab !! _) as [t|] eqn:Et; [|done]. destruct full; [done|]. destruct (Info e) eqn:Ee; [done|].
    apply Hrow in Et as [Ht Hp]. exists n, e, t. split_and!; [by apply (Hel (n, e))|done..].
Qed.
End files.

(** ** A small library *)
Definition demo_dir (n : string) : DirEntry := mkEntry n true false (Some (mkInfo 0 10)).
Definition demo_song (n : string) (t : Z) : DirEntry := mkEntry n false false (Some (mkInfo 100 t)).

Definition demo_tree : list (string * list DirEntry) :=
  [(".", [demo_dir "A_B"; demo_dir "Axb"; demo_dir "Bad"]);
   ("A_B", [demo_dir "live"; demo_song "one.mp3" 5; demo_song "two.mp3" 50]);
   ("A_B/live", [demo_song "skip.mp3" 5]);
   ("Axb", [demo_dir "c"]);
   ("Axb/c", [demo_dir "d"]);
   ("Axb/c/d", [demo_song "three.mp3" 5]);
   ("Bad", [mkEntry "gone.mp3" false false None; demo_dir "sub"]);
   ("Bad/sub", [demo_song "four.mp3" 5])].

Definition demo_entries (p : string) : option (list DirEntry) :=
  snd <$> List.find (fun kv => String.eqb kv.1 p) demo_tree.

#[local] Instance demoImport : ImportEnv := {|
  NFC s := s; NFD s := s; Lower s := ToLower s; TypeByExtension e := if String.eqb e ".mp3" then "audio/mpeg" else "";
  EnableM3UExternalAlbumArt := false; query_order l := l; now_title := ""; show_duration _ := "" |}.
#[local] Instance demoFS : MusicFS := {|
  Stat p := if String.eqb p "A_B/.ndignore" then Some (false, 1) else (fun _ => (true, 10)) <$> demo_entries p;
  Lstat p := Some false;
  Open p := match demo_entries p with Some es => Directory [(es, None)] | None => OpenError end;
  ReadFile p := if String.eqb p "A_B/.ndignore" then Some ("A_B/live/skip.mp3", false) else None;
  ReadLink _ := None; ResolveSymlink := None |}.

(** [LIKE] of SQLite. *)
Fixpoint sql_like (p s : string) : bool :=
  match p with
  | "" => String.eqb s ""
  | String c p =>
      if Ascii.eqb c "%" then (fix any (s : string) : bool := sql_like p s || match s with "" => false | String _ s => any s end) s
      else match s with
           | "" => false
           | String d s => (Ascii.eqb c "_" || Ascii.eqb (byte_lower c) (byte_lower d)) && sql_like p s
           end
  end.
Definition demo_verdict (line p : string) : option bool := if String.eqb line p || String.eqb line "**/*" then Some true else None.
#[local] Instance demoWalk : WalkEnv := {|
  FollowSymlinks := false; IgnoreDotFolders := true;
  MatchesPath lines p := default false (list.last (omap (fun l => demo_verdict l p) lines));
  NewHash s := s; md5 s := s; UTC t := Itoa t; Like := sql_like; PlaylistsPath := ""; Doublestar _ _ := false;
  PID_Track := ""; PID_Album := "" |}.

Lemma demo_entries_in p es : demo_entries p = Some es -> (p, es) ∈ demo_tree.
Proof.
  unfold demo_entries. destruct (List.find _ _) as [[k es']|] eqn:E; [|done]. intros [= <-]. apply List.find_some in E as [Hin Hk].
  apply String.eqb_eq in Hk. simpl in Hk. subst k. by apply list_elem_of_In.
Qed.

Lemma demo_names : Forall (fun kv => Forall (fun e => stays (Name e)) kv.2 /\ NoDup (Name <$> kv.2)) demo_tree.
Proof. repeat constructor; simpl; try done; set_solver. Qed.

#[local] Instance demoWalkLaws : WalkLaws.
Proof.
  assert (Hd : forall dir reads, Open dir = Directory reads ->
    Forall (fun e => stays (Name e)) (read_all reads "") /\ NoDup (Name <$> read_all reads "")).
  { intros dir reads. simpl. destruct (demo_entries dir) as [es|] eqn:E; [|done]. intros [= <-]. simpl.
    pose proof demo_names as Hn. rewrite list.Forall_forall in Hn. apply (Hn _ (demo_entries_in _ _ E)). }
  refine {| verdict := demo_verdict |}; [intros ? ? H; apply (Hd _ _ H)|intros ? ? H; apply (Hd _ _ H)|done].
Defined.
#[local] Instance demoLinks : LinkLaws.
Proof.
  constructor. intros dir reads e. simpl. destruct (demo_entries dir) as [es|] eqn:E; [|done]. intros [= <-] He.
  apply demo_entries_in in E.
  assert (Hn : Forall (fun kv => Forall (fun e => IsSymlink e = false) kv.2) demo_tree) by (repeat constructor).
  rewrite list.Forall_forall in Hn. specialize (Hn _ E). simpl in Hn, He. rewrite list.Forall_forall in Hn. rewrite (Hn _ He).
  by rewrite andb_false_r.
Defined.

Definition demo_lib : Library := mkLibrary 1 "/music".
Definition demo_scan : scanLibrary := mkScanLib demo_lib false 1000 zero_time "" "" "" "".
Definition demo_row (p dir name : string) : FolderRow := mkFolderRow (FolderID demo_lib p) 1 dir name "" 1 0 false (mkUpdate 100 "" [] zero_time).
Definition demo_db : database := mkDatabase
  (list_to_map ((fun r => (fr_ID r, r)) <$>
    [demo_row "A_B" "." "A_B"; demo_row "Axb" "." "Axb"; demo_row "Axb/c/d" "Axb/c" "d"; demo_row "Old" "." "Old"; demo_row "Bad" "." "Bad"; demo_row "Bad/sub" "Bad" "sub"]))
  (list_to_map ((fun t => (t_ID t, t)) <$>
    [mkTrack "1" (FolderID demo_lib "A_B") "A_B/one.mp3" 20 false; mkTrack "2" (FolderID demo_lib "Old") "Old/x.mp3" 20 false])) ∅.

Definition row_missing (db : database) (p : string) : option bool := fr_Missing <$> db_folders db !! FolderID demo_lib p.

(** The tree as a full scan lists it: the file in the way of [Bad] hides what is
    below it. *)
Example demo_listing :
  List.map (fun x => (x.1, option_map (fun f => (map_to_list (f_audioFiles f)).*1) x.2)) (listing 5 demo_lib) =
  [("A_B/live", Some []); ("A_B", Some ["one.mp3"; "two.mp3"]); ("Axb/c/d", Some ["three.mp3"]); ("Axb/c", Some []); ("Axb", Some []);
   ("Bad", None); (".", Some [])].
Proof. vm_compute. reflexivity. Qed.

(** A scan finds [Old] gone, and [Bad/sub] too: the file of [Bad] whose information
    cannot be read ends the loading of that folder, so that the folders below it are
    not walked. *)
Example demo_missing :
  let db := phaseFolders 5 2000 false (fun _ => true) [(demo_scan, [])] demo_db in
  row_missing db <$> ["A_B"; "Axb"; "Axb/c/d"; "Old"; "Bad"; "Bad/sub"] =
  [Some false; Some false; Some false; Some true; Some false; Some true].
Proof. vm_compute. reflexivity. Qed.

(** A scan of the folder [A_B] alone: the query for what is known below it takes the
    underscore for any letter, and has no regard for case.  The folder [Axb/c/d] is
    among what it finds, is not walked, and is marked as missing. *)
Example demo_selective_missing :
  let db := phaseFolders 5 2000 false (fun _ => true) [(demo_scan, ["A_B"])] demo_db in
  row_missing db <$> ["A_B"; "Axb"; "Axb/c/d"; "Old"] = [Some false; Some false; Some true; Some false].
Proof. vm_compute. reflexivity. Qed.

Lemma demo_shallow segs : Forall stays segs -> (3 < length segs)%nat -> Stat (path_str segs) = None.
Proof.
  intros Hs Hl. assert (Hk : forall k, (length (split_slash "" k) <= 3)%nat -> path_str segs <> k).
  { intros k Hk <-. rewrite split_path_str in Hk by done. destruct segs; simpl in *; lia. }
  simpl. rewrite (proj2 (String.eqb_neq _ _)) by (apply Hk; simpl; lia).
  destruct (demo_entries (path_str segs)) as [es|] eqn:E; [|done]. apply demo_entries_in in E. exfalso.
  assert (Hd : Forall (fun kv => (length (split_slash "" kv.1) <= 3)%nat) demo_tree) by (repeat constructor; simpl; lia).
  rewrite list.Forall_forall in Hd. by apply (Hk _ (Hd _ E)).
Qed.


Lemma walk_terminates_witness :
  wk_results (walkDirTree 9 demo_lib ∅ []) = wk_results (walkDirTree 5 demo_lib ∅ []).
Proof. apply (walk_terminates demo_lib eq_refl 3 demo_shallow 9 ∅). simpl. lia. Defined.

Lemma failed_phase_witness :
  db_tracks (phaseFolders 5 2000 true (fun _ => false) [(demo_scan, [])] demo_db) = db_tracks demo_db.
Proof. apply (failed_phase_marks_nothing 5 2000 true (fun _ => false) [(demo_scan, [])] demo_db). vm_compute. reflexivity. Defined.



Definition demo_full : scanLibrary := mkScanLib demo_lib true 1000 zero_time "" "" "" "".
Definition demo_stored (f : folderEntry) : bool := negb (String.eqb (f_path f) "Axb/c/d").


(** The first two folders are stored, the third cannot be: the scan that follows has
    the third and those behind it. *)
Example resumed_scan :
  let all := to_store 5 (newScanJob demo_db true demo_full []) in
  let db := (persistChanges 2000 demo_lib demo_stored all demo_db).1 in
  f_path <$> all = ["A_B/live"; "A_B"; "Axb/c/d"; "Axb/c"; "Axb"; "."] /\
  f_path <$> to_store 5 (newScanJob db true demo_full []) = ["Axb/c/d"; "Axb/c"; "Axb"; "."].
Proof. vm_compute. split; reflexivity. Qed.

Lemma selective_walk_witness :
  wk_results (walkDirTree 4 demo_lib ∅ [path_str ["A_B"]]) = entries demo_lib ∅ (List.filter (under ["A_B"]) (listing 5 demo_lib)).
Proof.
  apply (selective_walk_agrees demo_lib eq_refl 5 ∅ ["A_B"]); [by repeat constructor|].
  apply list_elem_of_In. vm_compute. right. left. reflexivity.
Defined.

Definition demo_files : gmap string DirEntry := list_to_map [("one.mp3", demo_song "one.mp3" 5); ("two.mp3", demo_song "two.mp3" 50)].

Definition demo_rows : list dbTrack := [mkTrack "1" "f" "A_B/one.mp3" 20 false; mkTrack "9" "f" "A_B/old.mp3" 20 false].

Lemma folder_files_witness :
  exists imports missing, processFolder false (path_str ["A_B"]) (map_to_list demo_files) demo_rows = Some (imports, missing) /\
    imports !! path_str ["A_B"; "two.mp3"] = Some None.
Proof.
  pose proof (folder_files_sorted_out false ["A_B"] demo_files (map_to_list demo_files) demo_rows) as H.
  destruct (processFolder _ _ _ _) as [[imports missing]|] eqn:E; [|vm_compute in E; discriminate E].
  exists imports, missing. split; [reflexivity|].
  destruct H as [H _]; [by repeat constructor| |apply (bool_decide_unpack _); vm_compute; exact I|exact (Permutation_refl _)|].
  - intros n e He. apply elem_of_list_to_map_2, list_elem_of_In in He. destruct He as [[= <- _]|[[= <- _]|[]]]; repeat split; discriminate.
  - apply (H "two.mp3" (demo_song "two.mp3" 50) eq_refl). intros t Ht%list_elem_of_In. destruct Ht as [<-|[<-|[]]]; discriminate.
Defined.

(** Of the files of a folder, the new one is imported and the old one left; the track
    with no file is missing. *)
Example folder_files_example :
  match processFolder false "A_B" (map_to_list demo_files) demo_rows with
  | Some (imports, missing) => imports !! "A_B/two.mp3" = Some None /\ imports !! "A_B/one.mp3" = None /\ t_ID <$> missing = ["9"]
  | None => False
  end.
Proof. vm_compute. split_and!; reflexivity. Qed.
