(* ===== verification/Lyrics.v ===== *)
(** * Lyrics

    [model/lyrics.go], [model/lyrics_normalize.go], [model/lyrics_lrc.go],
    [model/lyrics_srt.go], and of [model/lyrics_parse.go] the plain form: text with
    time markers to lines with cues, the bytes of a line each cue covers, and the
    ends of cues.

    Strings are bytes of UTF-8, and white space is that of [unicode.IsSpace].  The
    regular expressions are written out as functions; each of them has one way to
    match from a given place.  Times are milliseconds.  The cleaning of markup and
    the order [slices.SortFunc] leaves equal lines in are the class [LyricsEnv]. *)

From Stdlib Require Import Ascii String.
From S2P Require Import Prelude GoStrings GoText PlaylistImport.

Local Open Scope Z_scope.

(** ** Data *)
Record Cue := mkCue { c_Start : option Z; c_End : option Z; c_Value : string; c_ByteStart : Z; c_ByteEnd : Z; c_AgentID : string }.
Record Agent := mkAgent { ag_ID : string; ag_Role : string; ag_Name : string }.
Record Line := mkLine { l_Start : option Z; l_End : option Z; l_Value : string; l_Cue : list Cue }.
Record Lyrics := mkLyrics {
  ly_DisplayArtist : string; ly_DisplayTitle : string; ly_Kind : string; ly_Lang : string; ly_Agents : list Agent;
  ly_Line : list Line; ly_Offset : option Z; ly_Synced : bool }.

Definition set_End (e : option Z) (c : Cue) : Cue := mkCue (c_Start c) e (c_Value c) (c_ByteStart c) (c_ByteEnd c) (c_AgentID c).
Definition set_Agent (a : string) (c : Cue) : Cue := mkCue (c_Start c) (c_End c) (c_Value c) (c_ByteStart c) (c_ByteEnd c) a.
Definition set_Cue (cs : list Cue) (l : Line) : Line := mkLine (l_Start l) (l_End l) (l_Value l) cs.

Class LyricsEnv := { SanitizeText : string -> string; sort_lines : list Line -> list Line }.

(** ** Text *)

(** The encodings of the white space of [unicode.IsSpace]. *)
Definition bytes (l : list nat) : string := String.string_of_list_ascii (ascii_of_nat <$> l).
Definition space_runes : list string :=
  bytes <$> ([[9]; [10]; [11]; [12]; [13]; [32]; [194; 133]; [194; 160]; [225; 154; 128]] ++
             ((fun n => [226; 128; 128 + n]) <$> seq 0 11) ++
             [[226; 128; 168]; [226; 128; 169]; [226; 128; 175]; [226; 129; 159]; [227; 128; 128]])%nat.

Fixpoint strip_any (seqs : list string) (s : string) : option string :=
  match seqs with [] => None | q :: seqs => match CutPrefix s q with Some r => Some r | None => strip_any seqs s end end.
Fixpoint trim_with (fuel : nat) (seqs : list string) (s : string) : string :=
  match fuel with
  | O => s
  | S fuel => match strip_any seqs s with Some r => trim_with fuel seqs r | None => s end
  end.

(** [strings.TrimLeftFunc] and [strings.TrimRightFunc] with [unicode.IsSpace], and
    [strings.TrimSpace]: each round takes at least one byte. *)
Definition TrimLeftSpace (s : string) : string := trim_with (String.length s) space_runes s.
Definition TrimRightSpace (s : string) : string :=
  String.rev (trim_with (String.length s) (String.rev <$> space_runes) (String.rev s)).
Definition Trim (s : string) : string := TrimRightSpace (TrimLeftSpace s).

(** [s[i:j]]. *)
Fixpoint str_take (n : nat) (s : string) : string :=
  match n, s with S n, String c s => String c (str_take n s) | _, _ => "" end.
Definition slice (s : string) (i j : Z) : string := str_take (Z.to_nat (j - i)) (str_drop (Z.to_nat i) s).
Definition len (s : string) : Z := Z.of_nat (String.length s).

(** The white space [\s] of a regular expression. *)
Definition re_space (c : ascii) : bool := let n := nat_of_ascii c in (n =? 9)%nat || (n =? 10)%nat || (n =? 12)%nat || (n =? 13)%nat || (n =? 32)%nat.
Fixpoint drop_re_space (s : string) : string :=
  match s with String c r => if re_space c then drop_re_space r else s | "" => "" end.

(** ** Time markers: [([0-9]{1,2}:)?([0-9]{1,2}):([0-9]{1,2})(\.[0-9]{1,3})?]
    between two brackets *)
Record marker := mkMarker { mk_hours : option string; mk_minutes : string; mk_seconds : string; mk_fraction : option string; mk_raw : string }.

(** At most [n] digits, as many as there are. *)
Fixpoint digits (n : nat) (s : string) : string * string :=
  match n, s with
  | S n, String c r => if digit c then let '(d, r) := digits n r in (String c d, r) else ("", s)
  | _, _ => ("", s)
  end.
Definition some_digits (n : nat) (s : string) : option (string * string) :=
  let '(d, r) := digits n s in if String.eqb d "" then None else Some (d, r).
Definition lit (c : ascii) (s : string) : option string :=
  match s with String d r => if Ascii.eqb c d then Some r else None | "" => None end.

Definition fraction (s : string) : option (option string * string) :=
  match lit "." s with
  | Some r => '(d, r) ← some_digits 3 r; Some (Some d, r)
  | None => Some (None, s)
  end.

(** A marker at the head of a text, and the rest. *)
Definition time_at (opening closing : ascii) (s : string) : option (marker * string) :=
  r ← lit opening s;
  '(a, r) ← some_digits 2 r;
  r ← lit ":" r;
  '(b, r) ← some_digits 2 r;
  '(h, m, sec, r) ← match lit ":" r with
                    | Some r => '(c, r) ← some_digits 2 r; Some (Some a, b, c, r)
                    | None => Some (None, a, b, r)
                    end;
  '(f, r) ← fraction r;
  r ← lit closing r;
  Some (mkMarker h m sec f (slice s 0 (len s - len r)), r).

(** All markers of a text: what is before the first, and each with what follows it
    up to the next. *)
Fixpoint markers (fuel : nat) (opening closing : ascii) (s : string) : string * list (marker * string) :=
  match fuel with
  | O => (s, [])
  | S fuel =>
      match time_at opening closing s with
      | Some (m, r) => let '(t, ms) := markers fuel opening closing r in ("", (m, t) :: ms)
      | None =>
          match s with
          | "" => ("", [])
          | String c r => let '(t, ms) := markers fuel opening closing r in (String c t, ms)
          end
      end
  end.
Definition find_all (opening closing : ascii) (s : string) : string * list (marker * string) :=
  markers (S (String.length s)) opening closing s.

Definition num (s : string) : Z := default 0 (digits_value 0 s).

Definition parseTime (m : marker) : Z :=
  let hours := match mk_hours m with Some h => num h | None => 0 end in
  let millis := match mk_fraction m with
                | Some f => let length := String.length f in
                            if (length =? 2)%nat then num f * 10 else if (length =? 1)%nat then num f * 100 else num f
                | None => 0
                end in
  ((hours * 60 + num (mk_minutes m)) * 60 + num (mk_seconds m)) * 1000 + millis.

(** ** Cue ends *)
Definition clamp_end (fallbackEnd : option Z) (c : Cue) (next : option Cue) : option Z :=
  let next_start := next ≫= c_Start in
  let e := match c_End c with Some e => Some e | None => match next_start with Some s => Some s | None => fallbackEnd end end in
  let e := match e, next_start with Some e, Some s => if s <? e then Some s else Some e | _, _ => e end in
  match e, c_Start c with Some e, Some s => if e <? s then Some s else Some e | _, _ => e end.

Fixpoint resolve_ends (fallbackEnd : option Z) (cues : list Cue) : list Cue :=
  match cues with
  | [] => []
  | c :: cues => set_End (clamp_end fallbackEnd c (head cues)) c :: resolve_ends fallbackEnd cues
  end.
Definition NormalizeCueEnds (cues : list Cue) (fallbackEnd : option Z) : list Cue :=
  let out := resolve_ends fallbackEnd cues in
  if existsb (fun c => negb (bool_decide (is_Some (c_End c)))) out then set_End None <$> out else out.

(** The agents of some cues, in the order they come. *)
Fixpoint agents_of (cues : list Cue) (seen : list string) : list string :=
  match cues with
  | [] => []
  | c :: cues => if bool_decide (c_AgentID c ∈ seen) then agents_of cues seen else c_AgentID c :: agents_of cues (c_AgentID c :: seen)
  end.

(** [out] with the cues of an agent replaced, in order, by those of a group. *)
Fixpoint scatter (id : string) (cues out group : list Cue) : list Cue :=
  match cues, out with
  | c :: cues, o :: out =>
      if String.eqb (c_AgentID c) id
      then match group with g :: group => g :: scatter id cues out group | [] => o :: scatter id cues out [] end
      else o :: scatter id cues out group
  | _, _ => out
  end.

Definition normalizeCueEndsByAgent (cues : list Cue) (fallbackEnd : option Z) : list Cue :=
  let order := agents_of cues [] in
  if (length order <=? 1)%nat then NormalizeCueEnds cues fallbackEnd
  else foldl (fun out id =>
         scatter id cues out (NormalizeCueEnds (List.filter (fun c => String.eqb (c_AgentID c) id) cues) fallbackEnd)) cues order.

Definition earliest (acc : option Z) (c : Cue) : option Z :=
  match c_Start c, acc with Some s, None => Some s | Some s, Some a => if s <? a then Some s else acc | None, _ => acc end.
Definition latest (acc : option Z) (c : Cue) : option Z :=
  match (match c_End c with Some e => Some e | None => c_Start c end), acc with
  | Some e, None => Some e
  | Some e, Some a => if a <? e then Some e else acc
  | None, _ => acc
  end.
Definition normalizeLineTiming (l : Line) : Line :=
  if bool_decide (l_Cue l = []) then l
  else mkLine (match l_Start l with Some s => Some s | None => foldl earliest None (l_Cue l) end)
              (match l_End l with Some e => Some e | None => foldl latest None (l_Cue l) end) (l_Value l) (l_Cue l).
Definition normalizeCueLine (l : Line) (fallbackEnd : option Z) : Line :=
  if bool_decide (l_Cue l = []) then l
  else normalizeLineTiming (set_Cue (normalizeCueEndsByAgent (l_Cue l) fallbackEnd) l).

Fixpoint normalizeCueLines (lines : list Line) : list Line :=
  match lines with
  | [] => []
  | l :: lines =>
      let fallbackEnd := match l_End l with Some e => Some e | None => head lines ≫= l_Start end in
      normalizeCueLine l fallbackEnd :: normalizeCueLines lines
  end.
Definition normalizeLyrics (ly : Lyrics) : Lyrics :=
  mkLyrics (ly_DisplayArtist ly) (ly_DisplayTitle ly) (ly_Kind ly) (ly_Lang ly) (ly_Agents ly) (normalizeCueLines (ly_Line ly))
    (ly_Offset ly) (ly_Synced ly).

(** ** Lines with word markers *)
Record segment := mkSegment { sg_start : Z; sg_rawStart : Z; sg_rawEnd : Z }.

(** The words after the markers: their text, where each is in it, and the time of a
    last marker with nothing behind it. *)
Fixpoint words (ms : list (marker * string)) (raw : string) : string * list segment * option Z :=
  match ms with
  | [] => (raw, [], None)
  | (m, word) :: ms =>
      if String.eqb word "" then
        let '(r, segs, trailing) := words ms raw in
        (r, segs, if bool_decide (ms = []) then Some (parseTime m) else trailing)
      else
        let '(r, segs, trailing) := words ms (raw +:+ word) in
        (r, mkSegment (parseTime m) (len raw) (len (raw +:+ word)) :: segs, trailing)
  end.

Definition cut_cue (raw : string) (leftTrimBytes trimmedEnd : Z) (sg : segment) : option Cue :=
  let byteStart := Z.max (sg_rawStart sg) leftTrimBytes in
  let byteEnd := Z.min (sg_rawEnd sg) trimmedEnd in
  if byteEnd <=? byteStart then None
  else Some (mkCue (Some (sg_start sg)) None (slice raw byteStart byteEnd) (byteStart - leftTrimBytes) (byteEnd - leftTrimBytes - 1) "").

Fixpoint end_last (e : option Z) (cues : list Cue) : list Cue :=
  match cues with [] => [] | [c] => [set_End e c] | c :: cues => c :: end_last e cues end.

Definition stripEnhancedMarkers (text : string) : string :=
  let '(t, ms) := find_all "<" ">" text in String.concat "" (t :: (snd <$> ms)).

Definition parseEnhancedLine (text : string) : string * list Cue :=
  let '(_, ms) := find_all "<" ">" text in
  if bool_decide (ms = []) then (Trim text, [])
  else
    let '(finalRaw, segments, trailingEnd) := words ms "" in
    if bool_decide (segments = []) then (Trim (stripEnhancedMarkers text), [])
    else
      let leftTrimBytes := len finalRaw - len (TrimLeftSpace finalRaw) in
      let rightTrimBytes := len finalRaw - len (TrimRightSpace finalRaw) in
      let trimmedEnd := Z.max (len finalRaw - rightTrimBytes) leftTrimBytes in
      let cues := omap (cut_cue finalRaw leftTrimBytes trimmedEnd) segments in
      (Trim finalRaw, match trailingEnd with Some e => end_last (Some e) cues | None => cues end).

Definition ttmlBackgroundAgentPrefix : string := "__nd_bg__|".
Definition backgroundAgentID (agentID : string) : string := ttmlBackgroundAgentPrefix +:+ agentID.

Definition shift_bytes (offset : Z) (c : Cue) : Cue :=
  mkCue (c_Start c) (c_End c) (c_Value c) (c_ByteStart c + offset) (c_ByteEnd c + offset) (backgroundAgentID "main").

Fixpoint mergeBgLayers (value : string) (cues : list Cue) (bgLines : list string) : string * list Cue * bool :=
  match bgLines with
  | [] => (value, cues, false)
  | bg :: bgLines =>
      let '(bgValue, bgCues) := parseEnhancedLine bg in
      if bool_decide (bgCues = []) then mergeBgLayers value cues bgLines
      else
        let offset := if String.eqb value "" then 0 else len value + 1 in
        let value := if String.eqb value "" then bgValue else value +:+ " " +:+ bgValue in
        let '(v, cs, _) := mergeBgLayers value (cues ++ (shift_bytes offset <$> bgCues)) bgLines in (v, cs, true)
  end.

Definition fillMainAgentID (lines : list Line) : list Line :=
  (fun l => set_Cue ((fun c => if String.eqb (c_AgentID c) "" then set_Agent "main" c else c) <$> l_Cue l) l) <$> lines.

Definition shiftELRCCues (baseCues : list Cue) (offsetMs : Z) : list Cue :=
  (fun c => mkCue ((fun s => s + offsetMs) <$> c_Start c) ((fun e => e + offsetMs) <$> c_End c) (c_Value c) (c_ByteStart c) (c_ByteEnd c)
              (c_AgentID c)) <$> baseCues.

(** ** Tags *)

(** The text up to a closing bracket, and the rest. *)
Fixpoint until_bracket (s : string) : option (string * string) :=
  match s with
  | "" => None
  | String c r => if Ascii.eqb c "]" then Some ("", r) else '(t, r) ← until_bracket r; Some (String c t, r)
  end.

(** [\[(ar|ti|offset|lang):([^]]+)]], anywhere in a line. *)
Definition id_tag_at (s : string) : option (string * string) :=
  r ← lit "[" s;
  list.head (omap (fun name => v ← CutPrefix r (name +:+ ":"); '(t, _) ← until_bracket v; if String.eqb t "" then None else Some (name, t))
          ["ar"; "ti"; "offset"; "lang"]).
Fixpoint id_tag (s : string) : option (string * string) :=
  match id_tag_at s with
  | Some t => Some t
  | None => match s with "" => None | String _ r => id_tag r end
  end.

(** A line [[bg:...]]: what is between. *)
Definition bg_tag (s : string) : option string :=
  r ← CutPrefix s "[bg:"; v ← CutPrefix (String.rev r) "]"; Some (String.rev v).

Definition is_letter (c : ascii) : bool :=
  let n := nat_of_ascii c in ((65 <=? n) && (n <=? 90) || (97 <=? n) && (n <=? 122))%nat.
Fixpoint name_then_colon (s : string) : option string :=
  match s with
  | "" => None
  | String c r => if Ascii.eqb c ":" then Some r else if Ascii.eqb c "]" then None else name_then_colon r
  end.
(** [^\[[A-Za-z][^]:]*:[^]]*]]. *)
Definition unknown_tag (s : string) : bool :=
  match lit "[" s with
  | Some (String c r) => is_letter c && match name_then_colon r with Some v => bool_decide (is_Some (until_bracket v)) | None => false end
  | _ => false
  end.

(** [(^|\n)\s*] and a time marker. *)
Definition is_synced (text : string) : bool :=
  existsb (fun l => bool_decide (is_Some (time_at "[" "]" (drop_re_space l)))) (SplitOn LF text).

(** ** The parser *)
Record lrc := mkLrc {
  p_artist : string; p_title : string; p_lang : string; p_offset : option Z; p_prior : string; p_valid : bool; p_repeated : bool;
  p_hasBg : bool; p_timestamps : list Z; p_pendingBg : list string; p_lines : list Line }.

Definition set_prior (s : string) (p : lrc) : lrc :=
  mkLrc (p_artist p) (p_title p) (p_lang p) (p_offset p) s (p_valid p) (p_repeated p) (p_hasBg p) (p_timestamps p) (p_pendingBg p) (p_lines p).
Definition add_bg (s : string) (p : lrc) : lrc :=
  mkLrc (p_artist p) (p_title p) (p_lang p) (p_offset p) (p_prior p) (p_valid p) (p_repeated p) (p_hasBg p) (p_timestamps p)
    (p_pendingBg p ++ [s]) (p_lines p).
Definition add_line (l : Line) (p : lrc) : lrc :=
  mkLrc (p_artist p) (p_title p) (p_lang p) (p_offset p) (p_prior p) (p_valid p) (p_repeated p) (p_hasBg p) (p_timestamps p)
    (p_pendingBg p) (p_lines p ++ [l]).
Definition set_repeated (p : lrc) : lrc :=
  mkLrc (p_artist p) (p_title p) (p_lang p) (p_offset p) (p_prior p) (p_valid p) true (p_hasBg p) (p_timestamps p) (p_pendingBg p) (p_lines p).
Definition begin_line (ts : list Z) (rest : string) (p : lrc) : lrc :=
  mkLrc (p_artist p) (p_title p) (p_lang p) (p_offset p) rest true (p_repeated p) (p_hasBg p) (p_timestamps p ++ ts) (p_pendingBg p) (p_lines p).

Definition flushLine (p : lrc) : lrc :=
  let '(value, cues) := parseEnhancedLine (p_prior p) in
  let '(value, cues, merged) := mergeBgLayers value cues (p_pendingBg p) in
  let lines := (fun t => mkLine (Some t) None value (shiftELRCCues cues (t - default 0 (list.head (p_timestamps p))))) <$> p_timestamps p in
  mkLrc (p_artist p) (p_title p) (p_lang p) (p_offset p) (p_prior p) (p_valid p) (p_repeated p) (p_hasBg p || merged) [] [] (p_lines p ++ lines).

(** The timestamps a line begins with, and its text. *)
Fixpoint lead_times (ms : list (marker * string)) : list Z * string :=
  match ms with
  | [] => ([], "")
  | (m, t) :: ms =>
      if negb (bool_decide (ms = [])) && String.eqb (Trim t) ""
      then let '(ts, rest) := lead_times ms in (parseTime m :: ts, rest)
      else ([parseTime m], String.concat "" (t :: ((fun x => mk_raw x.1 +:+ x.2) <$> ms)))
  end.

Section lrc.
Context `{LyricsEnv}.

Definition apply_tag (tag : string * string) (p : lrc) : lrc :=
  let v := SanitizeText (Trim tag.2) in
  if String.eqb tag.1 "ar" then
    mkLrc v (p_title p) (p_lang p) (p_offset p) (p_prior p) (p_valid p) (p_repeated p) (p_hasBg p) (p_timestamps p) (p_pendingBg p) (p_lines p)
  else if String.eqb tag.1 "lang" then
    mkLrc (p_artist p) (p_title p) v (p_offset p) (p_prior p) (p_valid p) (p_repeated p) (p_hasBg p) (p_timestamps p) (p_pendingBg p) (p_lines p)
  else if String.eqb tag.1 "offset" then
    match Atoi (Trim tag.2) with
    | Some off =>
        mkLrc (p_artist p) (p_title p) (p_lang p) (Some off) (p_prior p) (p_valid p) (p_repeated p) (p_hasBg p) (p_timestamps p) (p_pendingBg p) (p_lines p)
    | None => p
    end
  else
    mkLrc (p_artist p) v (p_lang p) (p_offset p) (p_prior p) (p_valid p) (p_repeated p) (p_hasBg p) (p_timestamps p) (p_pendingBg p) (p_lines p).

Definition parse_line (synced : bool) (p : lrc) (line : string) : lrc :=
  let line := Trim line in
  if String.eqb line "" then (if p_valid p then set_prior (p_prior p +:+ String LF "") p else p)
  else if negb synced then add_line (mkLine None None line []) p
  else match id_tag line with
       | Some tag => apply_tag tag p
       | None =>
           match bg_tag line with
           | Some bg => if p_valid p then add_bg bg p else p
           | None =>
               if unknown_tag line then p
               else
                 let '(before, times) := find_all "[" "]" line in
                 let p := if (1 <? length times)%nat then set_repeated p else p in
                 if bool_decide (times = []) || negb (String.eqb before "")
                 then (if p_valid p then set_prior (p_prior p +:+ String LF line) p else p)
                 else
                   let p := if p_valid p then flushLine p else p in
                   let '(ts, rest) := lead_times times in begin_line ts (Trim rest) p
           end
       end.

Definition parseLRC (language text : string) : Lyrics :=
  let text := SanitizeText text in
  let synced := is_synced text in
  let p := foldl (parse_line synced) (mkLrc "" "" language None "" false false false [] [] []) (SplitOn LF text) in
  let p := if p_valid p then flushLine p else p in
  let lines := if p_hasBg p then fillMainAgentID (p_lines p) else p_lines p in
  let lines := if p_repeated p then sort_lines lines else lines in
  mkLyrics (p_artist p) (p_title p) "" (p_lang p)
    (if p_hasBg p then [mkAgent "main" "main" ""; mkAgent (backgroundAgentID "main") "bg" ""] else [])
    (normalizeCueLines lines) (p_offset p) synced.

Definition IsEmpty (ly : Lyrics) : bool := bool_decide (ly_Line ly = []).
Definition stripBOM (contents : string) : string := default contents (CutPrefix contents (bytes [239; 187; 191]%nat)).
Definition plainLRC (lang contents : string) : list Lyrics :=
  let lyric := parseLRC lang contents in if IsEmpty lyric then [] else [lyric].

(** The lyrics to show when only one of several can be. *)
Definition LyricKindMain : string := "main".
Definition EffectiveKind (ly : Lyrics) : string := if String.eqb (Trim (ly_Kind ly)) "" then LyricKindMain else ly_Kind ly.
Definition IsMainKind (ly : Lyrics) : bool := String.eqb (EffectiveKind ly) LyricKindMain.
Definition Main (ll : list Lyrics) : option Lyrics :=
  match List.find IsMainKind ll with Some ly => Some ly | None => list.head ll end.

(** ** SubRip *)
Definition normalizeLyricLang (lang : string) : string := let lang := ToLower (Trim lang) in if String.eqb lang "" then "xxx" else lang.

(** Every end of line as one byte. *)
Fixpoint unix_lines (s : string) : string :=
  match s with
  | "" => ""
  | String c r =>
      if Ascii.eqb c CR then String LF (match r with String d r' => if Ascii.eqb d LF then unix_lines r' else unix_lines r | "" => "" end)
      else String c (unix_lines r)
  end.

(** After an end of line: the rest behind the last end of line in the white space
    that follows, if there is one. *)
Fixpoint blank_lines (s : string) : option string :=
  match s with
  | "" => None
  | String c r =>
      if re_space c then match blank_lines r with Some r' => Some r' | None => if Ascii.eqb c LF then Some r else None end else None
  end.
(** [Split] at [\n\s*\n]. *)
Fixpoint split_blocks (fuel : nat) (s : string) : list string :=
  match fuel with
  | O => [s]
  | S fuel =>
      match s with
      | "" => [""]
      | String c r =>
          match (if Ascii.eqb c LF then blank_lines r else None) with
          | Some r' => "" :: split_blocks fuel r'
          | None => match split_blocks fuel r with b :: bs => String c b :: bs | [] => [String c ""] end
          end
      end
  end.
Definition splitSRTBlocks (raw : string) : list string :=
  let raw := Trim raw in
  if String.eqb raw "" then []
  else List.filter (fun b => negb (String.eqb b "")) (Trim <$> split_blocks (S (String.length raw)) raw).

(** [Split] at an arrow. *)
Fixpoint split_arrow (fuel : nat) (s : string) : list string :=
  match fuel with
  | O => [s]
  | S fuel =>
      match CutPrefix s "-->" with
      | Some r => "" :: split_arrow fuel r
      | None =>
          match s with
          | "" => [""]
          | String c r => match split_arrow fuel r with b :: bs => String c b :: bs | [] => [String c ""] end
          end
      end
  end.

Definition two_digits (s : string) : option (string * string) :=
  '(d, r) ← some_digits 2 s; if (String.length d =? 2)%nat then Some (d, r) else None.

(** [None] for a syntax error. *)
Definition parseSRTTime (value : string) : option Z :=
  let s := Trim value in
  '(h, r) ← some_digits 2 s; r ← lit ":" r;
  '(m, r) ← two_digits r; r ← lit ":" r;
  '(sec, r) ← two_digits r;
  r ← (match lit "," r with Some r => Some r | None => lit "." r end);
  '(ms, r) ← some_digits 3 r;
  if String.eqb r "" then
    let millis := if (String.length ms =? 1)%nat then num ms * 100 else if (String.length ms =? 2)%nat then num ms * 10 else num ms in
    Some (((num h * 60 + num m) * 60 + num sec) * 1000 + millis)
  else None.

Fixpoint all_digits (s : string) : bool := match s with "" => true | String c s => bool_decide (is_Some (digit c)) && all_digits s end.
Definition digitsOnly (value : string) : bool := negb (String.eqb value "") && all_digits value.

(** An error, no line, or a line. *)
Definition parseSRTBlock (block : string) : option (option Line) :=
  let lines := Trim <$> SplitOn LF block in
  let lines := match lines with l :: ls => if digitsOnly l then ls else lines | [] => [] end in
  match lines with
  | [] => Some None
  | timing :: text =>
      match split_arrow (S (String.length timing)) timing with
      | [a; b] =>
          startMs ← parseSRTTime a;
          endMs ← parseSRTTime b;
          let value := SanitizeText (Join (List.filter (fun l => negb (String.eqb l "")) text) (String LF "")) in
          Some (if String.eqb value "" then None else Some (mkLine (Some startMs) (Some endMs) value []))
      | _ => Some None
      end
  end.

Fixpoint srt_lines (blocks : list string) : option (list Line) :=
  match blocks with
  | [] => Some []
  | b :: blocks => o ← parseSRTBlock b; ls ← srt_lines blocks; Some (match o with Some l => l :: ls | None => ls end)
  end.
Definition parseSRT (language contents : string) : option (list Lyrics) :=
  lines ← srt_lines (splitSRTBlocks (unix_lines contents));
  Some (if bool_decide (lines = []) then []
        else [normalizeLyrics (mkLyrics "" "" "" (normalizeLyricLang language) [] lines None true)]).
End lrc.

(** ** On small inputs *)
#[local] Instance plain_text : LyricsEnv := {| SanitizeText s := s; sort_lines l := l |}.

Example lrc_words :
  parseLRC "xxx" "[00:01.00]<00:01.00>Some <00:01.50>lyrics<00:02.00>" =
  mkLyrics "" "" "" "xxx" []
    [mkLine (Some 1000) (Some 2000) "Some lyrics"
       [mkCue (Some 1000) (Some 1500) "Some " 0 4 ""; mkCue (Some 1500) (Some 2000) "lyrics" 5 10 ""]] None true.
Proof. vm_compute. reflexivity. Qed.

(** The end of the last word is lost when a blank line follows: the marker is then
    followed by the end of a line, not by nothing. *)
Example lrc_end_before_blank :
  let first text := (fun l => c_End <$> l_Cue l) <$> list.head (ly_Line (parseLRC "xxx" text)) in
  first ("[00:01.00]<00:01.00>Some <00:01.50>lyrics<00:02.00>" +:+ newline +:+ "[00:30.00]Next") = Some [Some 1500; Some 2000] /\
  first ("[00:01.00]<00:01.00>Some <00:01.50>lyrics<00:02.00>" +:+ newline +:+ newline +:+ "[00:30.00]Next") = Some [Some 1500; Some 30000].
Proof. split; vm_compute; reflexivity. Qed.

(** What a line has before its first word marker is not part of its value. *)
Example lrc_text_before_marker :
  l_Value <$> ly_Line (parseLRC "xxx" "[00:01.00]Hello <00:01.50>world") = ["world"].
Proof. vm_compute. reflexivity. Qed.

Example srt_blocks :
  parseSRT "EN" ("1" +:+ newline +:+ "00:00:01,000 --> 00:00:02,5" +:+ newline +:+ "Hi" +:+ newline +:+ newline +:+ "00:00:03.000 --> 00:00:04.000" +:+ newline +:+ "Bye") =
  Some [mkLyrics "" "" "" "en" [] [mkLine (Some 1000) (Some 2500) "Hi" []; mkLine (Some 3000) (Some 4000) "Bye" []] None true].
Proof. vm_compute. reflexivity. Qed.
