(* ===== verification/LyricsFacts.v ===== *)
(** * What the lyrics parsers promise

    Every cue of a parsed line names the bytes of the line it stands for; the ends of
    cues are resolved for each agent by itself, never before the cue begins; and lines
    written with their times are read back. *)

From Stdlib Require Import Ascii String.
From stdpp Require Import sorting.
From S2P Require Import Prelude GoStrings GoText PlaylistImport Lyrics.

Local Open Scope Z_scope.

(** ** Slices *)
Lemma str_drop_0 s : str_drop 0 s = s.
Proof. by destruct s. Qed.

Lemma str_drop_app_ge a b n : (String.length a <= n)%nat -> str_drop n (a +:+ b) = str_drop (n - String.length a) b.
Proof.
  revert n. induction a as [|c a IH]; intros n Hn; [by rewrite Nat.sub_0_r|]. rewrite string_app_cons. simpl in Hn.
  destruct n as [|n]; [lia|]. simpl. apply IH. lia.
Qed.

Lemma str_drop_app_le a b n : (n <= String.length a)%nat -> str_drop n (a +:+ b) = str_drop n a +:+ b.
Proof.
  revert n. induction a as [|c a IH]; intros n Hn; simpl in Hn.
  - assert (n = O) as -> by lia. by rewrite !str_drop_0.
  - rewrite string_app_cons. destruct n as [|n]; [done|]. simpl. apply IH. lia.
Qed.

Lemma str_take_app_le a b n : (n <= String.length a)%nat -> str_take n (a +:+ b) = str_take n a.
Proof.
  revert n. induction a as [|c a IH]; intros n Hn; simpl in Hn.
  - assert (n = O) as -> by lia. by destruct b.
  - rewrite string_app_cons. destruct n as [|n]; [done|]. simpl. f_equal. apply IH. lia.
Qed.

Lemma str_drop_length n s : String.length (str_drop n s) = (String.length s - n)%nat.
Proof. revert n. induction s as [|c s IH]; intros [|n]; try done. simpl. apply IH. Qed.

Lemma slice_mid x v y i j :
  len x <= i <= j -> j <= len x + len v -> slice (x +:+ v +:+ y) i j = slice v (i - len x) (j - len x).
Proof.
  unfold slice, len. intros Hi Hj. rewrite str_drop_app_ge by lia. rewrite str_drop_app_le by lia.
  rewrite str_take_app_le by (rewrite str_drop_length; lia). f_equal; [lia|f_equal; lia].
Qed.

Lemma len_app a b : len (a +:+ b) = len a + len b.
Proof. unfold len. rewrite string_length_app. lia. Qed.

(** ** Trimming *)
Lemma CutPrefix_Some s q r : CutPrefix s q = Some r <-> s = q +:+ r.
Proof.
  revert s. induction q as [|c q IH]; intros s; [rewrite string_app_nil_l; destruct s; simpl; split; congruence|]. rewrite string_app_cons. destruct s as [|d s]; [done|]. simpl.
  destruct (Ascii.eqb_spec c d) as [->|Hne]; [rewrite IH; split; [by intros ->|by intros [= ->]]|split; [done|congruence]].
Qed.

Lemma strip_any_Some seqs s r : strip_any seqs s = Some r -> exists q, q ∈ seqs /\ s = q +:+ r.
Proof.
  induction seqs as [|q seqs IH]; [done|]. simpl. destruct (CutPrefix s q) as [r'|] eqn:E.
  - intros [= <-]. apply CutPrefix_Some in E. exists q. split; [by left|done].
  - intros Hs. destruct (IH Hs) as (q' & ? & ?). exists q'. split; [by right|done].
Qed.

Lemma trim_with_suffix fuel seqs s : exists x, s = x +:+ trim_with fuel seqs s.
Proof.
  revert s. induction fuel as [|fuel IH]; intros s; [by exists ""|]. simpl. destruct (strip_any seqs s) as [r|] eqn:E; [|by exists ""].
  apply strip_any_Some in E as (q & _ & ->). destruct (IH r) as [x Hx]. exists (q +:+ x). rewrite string_app_assoc. by rewrite <- Hx.
Qed.

(** No encoding is the beginning of another. *)
Definition prefix_free (seqs : list string) : Prop :=
  forall p q u v, p ∈ seqs -> q ∈ seqs -> p +:+ u = q +:+ v -> p = q.

Lemma string_app_split (p q u v : string) : p +:+ u = q +:+ v -> String.prefix p q = true \/ String.prefix q p = true.
Proof.
  revert q. induction p as [|c p IH]; intros q; [left; by destruct q|]. destruct q as [|d q]; [right; done|]. rewrite !string_app_cons. intros [= -> E].
  simpl. destruct (ascii_dec d d); [|done]. destruct (IH _ E); auto.
Qed.

Lemma prefix_free_decide seqs :
  forallb (fun p => forallb (fun q => String.eqb p q || negb (String.prefix p q)) seqs) seqs = true -> prefix_free seqs.
Proof.
  intros H p q u v Hp Hq E. rewrite forallb_forall in H.
  assert (Hd : forall p q, p ∈ seqs -> q ∈ seqs -> String.prefix p q = true -> p = q).
  { intros p' q' Hp' Hq' Hpre. apply list_elem_of_In in Hp', Hq'. specialize (H _ Hp'). rewrite forallb_forall in H. specialize (H _ Hq').
    rewrite Hpre in H. destruct (String.eqb_spec p' q'); [done|done]. }
  destruct (string_app_split _ _ _ _ E); [by apply Hd|symmetry; by apply Hd].
Qed.

Lemma space_prefix_free : prefix_free (String.rev <$> space_runes).
Proof. apply prefix_free_decide. vm_compute. reflexivity. Qed.

Lemma strip_any_app seqs s r v : prefix_free seqs -> strip_any seqs s = Some r -> strip_any seqs (s +:+ v) = Some (r +:+ v).
Proof.
  intros Hf Hs. apply strip_any_Some in Hs as (q & Hq & ->). rewrite string_app_assoc.
  enough (Hg : forall l, l ⊆ seqs -> q ∈ l -> strip_any l (q +:+ (r +:+ v)) = Some (r +:+ v)) by (by apply Hg).
  induction l as [|p l IH]; intros Hsub Hin; [by apply not_elem_of_nil in Hin|]. simpl. destruct (CutPrefix _ p) as [r'|] eqn:E.
  - apply CutPrefix_Some in E. assert (q = p) as -> by (eapply Hf; [done|apply Hsub; by left|done]). apply (inj (String.app p)) in E. by rewrite E.
  - apply IH; [set_solver|]. apply elem_of_cons in Hin as [->|Hin]; [|done]. exfalso.
    assert (Hc : CutPrefix (p +:+ (r +:+ v)) p = Some (r +:+ v)) by (by apply CutPrefix_Some). by rewrite Hc in E.
Qed.

Lemma rev_app_spec a b : String.rev_app a b = String.rev a +:+ b.
Proof.
  unfold String.rev. revert b. induction a as [|c a IH]; intros b; [done|]. simpl. rewrite IH, (IH (String c "")), string_app_assoc.
  by rewrite string_app_cons, string_app_nil_l.
Qed.

Lemma rev_string_app a b : String.rev (a +:+ b) = String.rev b +:+ String.rev a.
Proof.
  induction a as [|c a IH]; [rewrite string_app_nil_l; by rewrite string_app_nil_r|]. rewrite string_app_cons. unfold String.rev at 1 3. simpl.
  by rewrite !rev_app_spec, IH, string_app_assoc.
Qed.

Lemma rev_length s : String.length (String.rev s) = String.length s.
Proof.
  induction s as [|c s IH]; [done|]. change (String c s) with (String c "" +:+ s). rewrite rev_string_app, !string_length_app, IH. change (String.length (String.rev (String c ""))) with 1%nat. simpl. lia.
Qed.

Lemma rev_involutive s : String.rev (String.rev s) = s.
Proof.
  induction s as [|c s IH]; [done|]. change (String c s) with (String c "" +:+ s). by rewrite !rev_string_app, IH.
Qed.

Lemma trim_with_app k m seqs u v :
  prefix_free seqs -> (m <= k)%nat ->
  (String.length (trim_with k seqs (u +:+ v)) <= String.length (trim_with m seqs u) + String.length v)%nat.
Proof.
  intros Hf. revert k u. assert (Hle : forall k s, (String.length (trim_with k seqs s) <= String.length s)%nat).
  { intros k s. destruct (trim_with_suffix k seqs s) as [x Hx]. rewrite Hx at 2. rewrite string_length_app. lia. }
  induction m as [|m IH]; intros k u Hk; simpl; [rewrite Hle, string_length_app; lia|].
  destruct k as [|k]; [lia|]. destruct (strip_any seqs u) as [r|] eqn:E.
  - simpl. rewrite (strip_any_app _ _ _ v Hf E). apply IH. lia.
  - rewrite Hle, string_length_app. lia.
Qed.

Lemma TrimLeftSpace_suffix s : exists x, s = x +:+ TrimLeftSpace s.
Proof. apply trim_with_suffix. Qed.

Lemma TrimRightSpace_prefix s : exists y, s = TrimRightSpace s +:+ y.
Proof.
  destruct (trim_with_suffix (String.length s) (String.rev <$> space_runes) (String.rev s)) as [x Hx]. exists (String.rev x).
  unfold TrimRightSpace. by rewrite <- rev_string_app, <- Hx, rev_involutive.
Qed.

Lemma TrimRightSpace_app x t : len (TrimRightSpace (x +:+ t)) <= len x + len (TrimRightSpace t).
Proof.
  unfold TrimRightSpace, len. rewrite !rev_length, rev_string_app.
  pose proof (trim_with_app (String.length (x +:+ t)) (String.length t) _ (String.rev t) (String.rev x) space_prefix_free) as H.
  rewrite rev_length, string_length_app in H. rewrite string_length_app. specialize (H ltac:(lia)). lia.
Qed.

(** ** Words and their bytes *)
Definition span (c : Cue) : string * Z * Z := (c_Value c, c_ByteStart c, c_ByteEnd c).

(** A cue names bytes of the value: they are there, and they are its text. *)
Definition names (value : string) (x : string * Z * Z) : Prop :=
  let '(v, i, j) := x in 0 <= i <= j /\ j < len value /\ slice value i (j + 1) = v.
Definition before (x y : string * Z * Z) : Prop := x.2 < y.1.2.
Definition spans_ok (value : string) (l : list (string * Z * Z)) : Prop := Forall (names value) l /\ StronglySorted before l.
Definition line_ok (l : Line) : Prop := spans_ok (l_Value l) (span <$> l_Cue l).

Lemma words_spec ms raw :
  let '(r, segs, _) := words ms raw in
  (exists y, r = raw +:+ y) /\ Forall (fun sg => len raw <= sg_rawStart sg < sg_rawEnd sg /\ sg_rawEnd sg <= len r) segs /\
  StronglySorted (fun a b => sg_rawEnd a <= sg_rawStart b) segs.
Proof.
  revert raw. induction ms as [|[m word] ms IH]; intros raw; simpl; [split_and!; [by exists ""; rewrite string_app_nil_r|constructor..]|].
  destruct (String.eqb_spec word "") as [->|Hne].
  - specialize (IH raw). by destruct (words ms raw) as [[r segs] tr].
  - specialize (IH (raw +:+ word)). destruct (words ms (raw +:+ word)) as [[r segs] tr]. destruct IH as ([y Hy] & Hf & Hs).
    assert (Hw : 0 < len word) by (destruct word; [done|unfold len; simpl; lia]). rewrite len_app in *. split_and!.
    + exists (word +:+ y). by rewrite Hy, string_app_assoc.
    + constructor; simpl.
      * rewrite Hy, !len_app. unfold len in *. lia.
      * revert Hf. apply Forall_impl. intros sg. lia.
    + constructor; [done|]. revert Hf. apply Forall_impl. intros sg. simpl. lia.
Qed.

Lemma cut_cue_names raw sg c :
  let left := len raw - len (TrimLeftSpace raw) in
  let trimmedEnd := Z.max (len raw - (len raw - len (TrimRightSpace raw))) left in
  cut_cue raw left trimmedEnd sg = Some c -> 0 <= sg_rawStart sg -> 
  names (Trim raw) (span c) /\ sg_rawStart sg - left <= c_ByteStart c /\ c_ByteEnd c < sg_rawEnd sg - left.
Proof.
  intros left trimmedEnd. destruct (TrimLeftSpace_suffix raw) as [x Hx]. destruct (TrimRightSpace_prefix (TrimLeftSpace raw)) as [y Hy].
  assert (Hl : left = len x) by (unfold left; rewrite Hx at 1; rewrite len_app; lia).
  assert (He : trimmedEnd <= len x + len (Trim raw)).
  { pose proof (TrimRightSpace_app x (TrimLeftSpace raw)) as Ht. rewrite <- Hx in Ht. unfold trimmedEnd. unfold Trim, len in *. lia. }
  unfold cut_cue. destruct (Z.leb_spec (Z.min (sg_rawEnd sg) trimmedEnd) (Z.max (sg_rawStart sg) left)) as [|Hlt]; [done|]. intros [= <-] Hs.
  simpl. rewrite Hl in *. split; [|lia]. split_and!; [lia|lia|lia|].
  assert (Hraw : raw = x +:+ Trim raw +:+ y) by (unfold Trim; by rewrite <- Hy).
  rewrite Hraw at 2. rewrite slice_mid by (unfold len in *; lia). f_equal. lia.
Qed.

Lemma omap_cues raw segs lo :
  let left := len raw - len (TrimLeftSpace raw) in
  let trimmedEnd := Z.max (len raw - (len raw - len (TrimRightSpace raw))) left in
  0 <= lo -> Forall (fun sg => lo <= sg_rawStart sg) segs -> StronglySorted (fun a b => sg_rawEnd a <= sg_rawStart b) segs ->
  spans_ok (Trim raw) (span <$> omap (cut_cue raw left trimmedEnd) segs).
Proof.
  intros left trimmedEnd Hlo Hf Hs. induction Hs as [|sg segs Hs IH Hsg]; [split; constructor|].
  apply list.Forall_cons in Hf as [H0 Hf]. specialize (IH Hf). simpl. destruct (cut_cue raw left trimmedEnd sg) as [c|] eqn:E; [|done].
  destruct IH as [I1 I2]. destruct (cut_cue_names raw sg c E ltac:(lia)) as (Hn & _ & Hend). split; [by constructor|]. simpl. constructor; [done|].
  apply Forall_fmap, list.Forall_forall. intros c' (sg' & Hin & E')%list_elem_of_omap. rewrite list.Forall_forall in Hsg, Hf. specialize (Hsg _ Hin).
  destruct (cut_cue_names raw sg' c' E' ltac:(specialize (Hf _ Hin); lia)) as (_ & Hst & _). unfold before. simpl. fold left in Hend, Hst. lia.
Qed.

Lemma span_end_last e cs : span <$> end_last e cs = span <$> cs.
Proof. induction cs as [|c [|d cs] IH]; [done|done|]. rewrite fmap_cons, <- IH. done. Qed.

Lemma parseEnhancedLine_ok text : let '(v, cs) := parseEnhancedLine text in spans_ok v (span <$> cs).
Proof.
  unfold parseEnhancedLine. destruct (find_all "<" ">" text) as [t ms]. case_bool_decide; [split; constructor|].
  pose proof (words_spec ms "") as Hw. destruct (words ms "") as [[raw segs] tr]. case_bool_decide; [split; constructor|].
  destruct Hw as (_ & Hf & Hs). pose proof (omap_cues raw segs 0) as Ho. simpl in Ho.
  assert (Hr : spans_ok (Trim raw) (span <$> omap (cut_cue raw (len raw - len (TrimLeftSpace raw))
    (Z.max (len raw - (len raw - len (TrimRightSpace raw))) (len raw - len (TrimLeftSpace raw)))) segs)).
  { apply Ho; [lia| |done]. revert Hf. apply Forall_impl. intros sg. unfold len. simpl. lia. }
  destruct tr; [by rewrite span_end_last|done].
Qed.

Lemma names_app value w x : names value x -> names (value +:+ w) x.
Proof.
  destruct x as [[v i] j]. intros (Hi & Hj & Hs). split_and!; [lia|lia|rewrite len_app; unfold len in *; lia|].
  pose proof (slice_mid "" value w i (j + 1)) as Hm. rewrite string_app_nil_l in Hm. rewrite Hm by (unfold len in *; simpl in *; lia).
  rewrite <- Hs. f_equal; unfold len; simpl; lia.
Qed.

Lemma names_shift p w v i j : names w (v, i, j) -> names (p +:+ w) (v, i + len p, j + len p).
Proof.
  intros (Hi & Hj & Hs). split_and!; [unfold len in *; lia|lia|rewrite len_app; lia|].
  pose proof (slice_mid p w "" (i + len p) (j + len p + 1)) as Hm. rewrite string_app_nil_r in Hm. rewrite Hm by lia.
  rewrite <- Hs. f_equal; lia.
Qed.

Lemma spans_app value w l1 l2 off :
  spans_ok value l1 -> spans_ok w l2 -> (forall x, x ∈ l1 -> x.2 < off) ->
  Forall (names value) ((fun x => (x.1.1, x.1.2 + off, x.2 + off)) <$> l2) ->
  spans_ok value (l1 ++ ((fun x => (x.1.1, x.1.2 + off, x.2 + off)) <$> l2)).
Proof.
  intros [H1 S1] [H2 S2] Hlt Hn. split; [by apply Forall_app|]. apply StronglySorted_app_2; [|done|].
  - intros x1 x2 Hx1 (y & -> & Hy)%list_elem_of_fmap. specialize (Hlt _ Hx1). rewrite list.Forall_forall in H2. specialize (H2 _ Hy).
    destruct y as [[v i] j]. destruct H2 as [? _]. unfold before. simpl. lia.
  - clear H1 H2 S1 Hn. induction S2 as [|y l2 S2 IH Hy]; [constructor|]. simpl. constructor; [done|].
    apply Forall_fmap. revert Hy. apply Forall_impl. intros z. unfold before. simpl. lia.
Qed.

Lemma span_shift off (cs : list Cue) : span <$> (shift_bytes off <$> cs) = (fun x => (x.1.1, x.1.2 + off, x.2 + off)) <$> (span <$> cs).
Proof. rewrite <- !list_fmap_compose. done. Qed.

Lemma mergeBgLayers_ok value cues bgs :
  spans_ok value (span <$> cues) -> let '(v, cs, _) := mergeBgLayers value cues bgs in spans_ok v (span <$> cs).
Proof.
  revert value cues. induction bgs as [|bg bgs IH]; intros value cues Hok; [done|]. simpl.
  pose proof (parseEnhancedLine_ok bg) as Hbg. destruct (parseEnhancedLine bg) as [bv bcs]. case_bool_decide; [by apply IH|].
  set (off := if String.eqb value "" then 0 else _). set (value' := if String.eqb value "" then _ else _).
  assert (Hpre : exists p, value' = p +:+ bv /\ off = len p /\ (forall x, names value x -> names value' x /\ x.2 < off)).
  { unfold value', off. destruct (String.eqb_spec value "") as [->|Hne].
    - exists "". split_and!; [done|done|]. intros [[v i] j] (? & ? & _). unfold len in *. simpl in *. lia.
    - exists (value +:+ " "). split_and!; [by rewrite string_app_assoc|by rewrite len_app|]. intros x Hx.
      split; [by apply names_app|]. destruct x as [[v i] j]. destruct Hx as (_ & Hj & _). simpl. lia. }
  destruct Hpre as (p & Hv & Ho & Hold).
  assert (Hnew : spans_ok value' (span <$> (cues ++ (shift_bytes off <$> bcs)))).
  { rewrite fmap_app, span_shift. apply (spans_app _ bv); [|done| |].
    - destruct Hok as [Hf Hs]. split; [|done]. revert Hf. apply Forall_impl. intros x Hx. by apply Hold.
    - destruct Hok as [Hf _]. rewrite list.Forall_forall in Hf. intros x Hx. by apply Hold, Hf.
    - destruct Hbg as [Hf _]. apply Forall_fmap. revert Hf. apply Forall_impl. intros [[v i] j] Hn. simpl. rewrite Hv, Ho. by apply names_shift. }
  specialize (IH _ _ Hnew). by destruct (mergeBgLayers value' _ bgs) as [[v cs] b].
Qed.

(** What follows changes no span. *)
Lemma span_shiftELRCCues cs d : span <$> shiftELRCCues cs d = span <$> cs.
Proof. unfold shiftELRCCues. rewrite <- list_fmap_compose. done. Qed.

(** A cue but for its end. *)
Definition core : Cue -> Cue := set_End None.

Lemma core_clear (cs : list Cue) : core <$> (set_End None <$> cs) = core <$> cs.
Proof. rewrite <- list_fmap_compose. done. Qed.

Lemma core_resolve fb cs : core <$> resolve_ends fb cs = core <$> cs.
Proof. induction cs as [|c cs IH]; [done|]. simpl. f_equal. done. Qed.

Lemma core_NormalizeCueEnds cs fb : core <$> NormalizeCueEnds cs fb = core <$> cs.
Proof. unfold NormalizeCueEnds. case_match; rewrite ?core_clear; apply core_resolve. Qed.

Lemma cons_eq {A} (x y : A) l k : x :: l = y :: k -> x = y /\ l = k.
Proof. by intros [= -> ->]. Qed.

Abbreviation of_agent id := (List.filter (fun c => String.eqb (c_AgentID c) id)).

Lemma core_scatter id cues out group :
  core <$> out = core <$> cues -> core <$> group = core <$> of_agent id cues -> core <$> scatter id cues out group = core <$> cues.
Proof.
  revert out group. induction cues as [|c cues IH]; intros [|o out] group Ho Hg; try done. simpl in Ho, Hg |- *. apply cons_eq in Ho as [Hc Ho].
  destruct (String.eqb (c_AgentID c) id).
  - destruct group as [|g group]; [done|]. simpl in Hg. apply cons_eq in Hg as [Hgc Hg]. rewrite !fmap_cons, (IH out group Ho Hg). by rewrite Hgc.
  - rewrite !fmap_cons, (IH out group Ho Hg). by rewrite Hc.
Qed.

Definition regroup (cues : list Cue) (fb : option Z) (out : list Cue) (id : string) : list Cue :=
  scatter id cues out (NormalizeCueEnds (of_agent id cues) fb).

Lemma core_regroup cues fb ids out : core <$> out = core <$> cues -> core <$> foldl (regroup cues fb) out ids = core <$> cues.
Proof.
  revert out. induction ids as [|id ids IH]; intros out Ho; [done|]. simpl. apply IH. apply core_scatter; [done|]. apply core_NormalizeCueEnds.
Qed.

Lemma core_byAgent cues fb : core <$> normalizeCueEndsByAgent cues fb = core <$> cues.
Proof. unfold normalizeCueEndsByAgent. case_match; [apply core_NormalizeCueEnds|by apply core_regroup]. Qed.

Lemma span_byAgent cues fb : span <$> normalizeCueEndsByAgent cues fb = span <$> cues.
Proof.
  assert (Hs : forall l, span <$> l = span <$> (core <$> l)) by (intros l; by rewrite <- list_fmap_compose).
  by rewrite Hs, core_byAgent, <- Hs.
Qed.

Lemma normalizeCueLine_ok l fb : line_ok l -> line_ok (normalizeCueLine l fb).
Proof.
  unfold line_ok, normalizeCueLine. case_bool_decide; [done|]. unfold normalizeLineTiming. intros Hl.
  case_bool_decide; simpl; rewrite span_byAgent; done.
Qed.

Lemma normalizeCueLines_ok ls : Forall line_ok ls -> Forall line_ok (normalizeCueLines ls).
Proof. induction 1 as [|l ls Hl Hls IH]; [constructor|]. simpl. constructor; [by apply normalizeCueLine_ok|done]. Qed.

Lemma fillMainAgentID_ok ls : Forall line_ok ls -> Forall line_ok (fillMainAgentID ls).
Proof.
  intros H. apply Forall_fmap. revert H. apply Forall_impl. intros l. unfold line_ok. simpl. rewrite <- list_fmap_compose.
  intros Hl. erewrite list_fmap_ext; [exact Hl|]. intros i c _. simpl. by destruct (String.eqb _ "").
Qed.

Section parsed.
Context `{LE : LyricsEnv} (sort_lines_perm : forall l, sort_lines l ≡ₚ l).

Lemma flushLine_ok p : Forall line_ok (p_lines p) -> Forall line_ok (p_lines (flushLine p)).
Proof.
  intros Hp. unfold flushLine. pose proof (parseEnhancedLine_ok (p_prior p)) as He. destruct (parseEnhancedLine (p_prior p)) as [v cs].
  pose proof (mergeBgLayers_ok v cs (p_pendingBg p) He) as Hm. destruct (mergeBgLayers v cs (p_pendingBg p)) as [[v' cs'] b]. simpl.
  apply Forall_app. split; [done|]. apply Forall_fmap, list.Forall_true. intros t. unfold line_ok. simpl. by rewrite span_shiftELRCCues.
Qed.

Lemma parse_line_ok synced p line : Forall line_ok (p_lines p) -> Forall line_ok (p_lines (parse_line synced p line)).
Proof.
  intros Hp. unfold parse_line. destruct (String.eqb (Trim line) ""); [by destruct (p_valid p)|]. destruct synced; simpl.
  - destruct (id_tag _) as [tag|]; [unfold apply_tag; by repeat case_match|]. destruct (bg_tag _); [by destruct (p_valid p)|].
    destruct (unknown_tag _); [done|]. destruct (find_all _ _ _) as [b times]. destruct (1 <? length times)%nat; destruct (_ || _); simpl.
    1, 3: by destruct (p_valid p).
    all: destruct (lead_times times); simpl; destruct (p_valid p); [by apply flushLine_ok|done].
  - apply Forall_app. split; [done|]. repeat constructor.
Qed.

(** C37: every cue of every line the LRC parser returns names bytes of the line that
    are there and are its text, background layers and repeated lines included, and
    the cues of a line name them one after the other. *)
Theorem cues_name_their_bytes language text :
  Forall (fun l => Forall (fun c => 0 <= c_ByteStart c <= c_ByteEnd c /\ c_ByteEnd c < len (l_Value l) /\
                             slice (l_Value l) (c_ByteStart c) (c_ByteEnd c + 1) = c_Value c) (l_Cue l) /\
                   StronglySorted (fun a b => c_ByteEnd a < c_ByteStart b) (l_Cue l))
    (ly_Line (parseLRC language text)).
Proof.
  assert (Hok : Forall line_ok (ly_Line (parseLRC language text))).
  { unfold parseLRC. simpl. set (p0 := foldl _ _ _). apply normalizeCueLines_ok.
    assert (H0 : Forall line_ok (p_lines p0)).
    { unfold p0. generalize (is_synced (SanitizeText text)) as sy. generalize (SplitOn LF (SanitizeText text)) as ls. intros ls sy.
      assert (Hg : forall q, Forall line_ok (p_lines q) -> Forall line_ok (p_lines (foldl (parse_line sy) q ls)))
        by (induction ls as [|l ls IH]; intros q Hq; [done|]; simpl; apply IH; by apply parse_line_ok).
      apply Hg. constructor. }
    assert (H1 : Forall line_ok (p_lines (if p_valid p0 then flushLine p0 else p0))) by (destruct (p_valid p0); [by apply flushLine_ok|done]).
    set (p1 := if p_valid p0 then _ else _) in *. destruct (p_hasBg p1), (p_repeated p1); rewrite ?sort_lines_perm; auto using fillMainAgentID_ok. }
  revert Hok. apply Forall_impl. intros l [Hf Hs]. split.
  - rewrite Forall_fmap in Hf. revert Hf. apply Forall_impl. intros c (H1 & H2 & H3). auto.
  - clear Hf. revert Hs. generalize (l_Cue l) as cs. induction cs as [|c cs IH]; intros Hs; [constructor|]. simpl in Hs. apply StronglySorted_inv in Hs as [Hs Hc]. constructor; [by apply IH|].
    rewrite Forall_fmap in Hc. exact Hc.
Qed.
End parsed.

(** ** The ends of cues *)
Lemma lookup_resolve fb cs i :
  resolve_ends fb cs !! i = (fun c => set_End (clamp_end fb c (cs !! S i)) c) <$> cs !! i.
Proof.
  revert i. induction cs as [|c cs IH]; intros [|i]; [done|done| |apply IH]. simpl. by destruct cs.
Qed.

Lemma clamp_start fb c n s e : c_Start c = Some s -> clamp_end fb c n = Some e -> s <= e.
Proof.
  intros Hs. unfold clamp_end. rewrite Hs. simpl. destruct (n ≫= c_Start) as [t|], (c_End c) as [x|], fb as [f|]; simpl;
    repeat match goal with |- context [?a <? ?b] => destruct (Z.ltb_spec a b); simpl end; intros [= <-]; lia.
Qed.

Lemma clamp_next fb c n t e : n ≫= c_Start = Some t -> (forall s, c_Start c = Some s -> s <= t) -> clamp_end fb c n = Some e -> e <= t.
Proof.
  intros Hn Hs. unfold clamp_end. rewrite Hn. simpl. destruct (c_End c) as [x|], (c_Start c) as [s|]; simpl;
    repeat match goal with |- context [?a <? ?b] => destruct (Z.ltb_spec a b); simpl end; intros [= <-]; try specialize (Hs s eq_refl); lia.
Qed.

(** Resolving an end that is resolved changes nothing. *)
Lemma clamp_again fb c n n' :
  n' ≫= c_Start = n ≫= c_Start -> clamp_end fb (set_End (clamp_end fb c n) c) n' = clamp_end fb c n.
Proof.
  intros Hn. unfold clamp_end. rewrite Hn. simpl. destruct (n ≫= c_Start) as [t|], (c_End c) as [e|], (c_Start c) as [s|], fb as [f|]; simpl;
    repeat match goal with |- context [?a <? ?b] => destruct (Z.ltb_spec a b); simpl end; try done; f_equal; lia.
Qed.

(** An end that stays unknown does so whatever the cue's own end was. *)
Lemma clamp_none fb c n n' :
  n' ≫= c_Start = n ≫= c_Start -> clamp_end fb c n = None -> clamp_end fb (set_End None c) n' = None.
Proof.
  intros Hn. unfold clamp_end. rewrite Hn. simpl. destruct (n ≫= c_Start) as [t|], (c_End c) as [e|], (c_Start c) as [s|], fb as [f|]; simpl;
    repeat case_match; done.
Qed.

Definition unresolved (c : Cue) : bool := negb (bool_decide (is_Some (c_End c))).

Lemma core_lookup_start (l k : list Cue) (i : nat) : core <$> l = core <$> k -> l !! i ≫= c_Start = k !! i ≫= c_Start.
Proof.
  intros E. apply (f_equal (fun m => m !! i)) in E. rewrite !list_lookup_fmap in E. destruct (l !! i) as [c|], (k !! i) as [d|]; simpl in *; try done.
  unfold core in E. apply (inj Some) in E. apply (f_equal c_Start) in E. done.
Qed.

Lemma resolve_twice fb cs : resolve_ends fb (resolve_ends fb cs) = resolve_ends fb cs.
Proof.
  apply list_eq. intros i. rewrite lookup_resolve. rewrite !(lookup_resolve fb cs i). destruct (cs !! i) as [c|] eqn:Ec; [|done]. simpl. f_equal.
  rewrite clamp_again; [done|]. apply core_lookup_start, core_resolve.
Qed.

Lemma NormalizeCueEnds_twice cs fb : NormalizeCueEnds (NormalizeCueEnds cs fb) fb = NormalizeCueEnds cs fb.
Proof.
  unfold NormalizeCueEnds at 2 3. fold unresolved. change (fun c => negb (bool_decide (is_Some (c_End c)))) with unresolved.
  destruct (existsb unresolved (resolve_ends fb cs)) eqn:E.
  - apply existsb_exists in E as (c & Hin & Hu). apply list_elem_of_In, list_elem_of_lookup in Hin as [i Hi].
    rewrite lookup_resolve in Hi. destruct (cs !! i) as [c0|] eqn:Ec; [|done]. simpl in Hi. injection Hi as <-.
    assert (Hc : clamp_end fb c0 (cs !! S i) = None).
    { unfold unresolved in Hu. simpl in Hu. destruct (clamp_end _ _ _); [|done]. rewrite bool_decide_eq_true_2 in Hu by (by eexists). done. }
    set (out := set_End None <$> resolve_ends fb cs).
    assert (Hcore : core <$> out = core <$> cs) by (unfold out; rewrite core_clear; apply core_resolve).
    unfold NormalizeCueEnds. assert (Hx : existsb unresolved (resolve_ends fb out) = true).
    { apply existsb_exists. exists (set_End None c0). split; [|done]. apply list_elem_of_In, list_elem_of_lookup. exists i.
      rewrite lookup_resolve. unfold out at 2. rewrite list_lookup_fmap, lookup_resolve, Ec. simpl. f_equal.
      rewrite (clamp_none fb c0 (cs !! S i)); [done| |done]. by apply core_lookup_start. }
    change (fun c => negb (bool_decide (is_Some (c_End c)))) with unresolved. rewrite Hx. change (set_End None) with core. rewrite core_resolve, Hcore.
    unfold out. change (set_End None <$> resolve_ends fb cs) with (core <$> resolve_ends fb cs). by rewrite core_resolve.
  - unfold NormalizeCueEnds. rewrite resolve_twice. change (fun c => negb (bool_decide (is_Some (c_End c)))) with unresolved. by rewrite E.
Qed.

(** C38: resolving the ends of the cues of one agent changes nothing but ends; either
    all cues have an end or none has; no cue ends before it begins; when the next cue
    does not begin earlier, it ends no later than that begins; and resolving again
    changes nothing. *)
Theorem cue_ends_resolved cues fallbackEnd :
  let out := NormalizeCueEnds cues fallbackEnd in
  set_End None <$> out = set_End None <$> cues /\
  (Forall (fun c => c_End c = None) out \/ Forall (fun c => is_Some (c_End c)) out) /\
  Forall (fun c => forall s e, c_Start c = Some s -> c_End c = Some e -> s <= e) out /\
  (forall i c d t e, out !! i = Some c -> out !! S i = Some d -> c_Start d = Some t -> c_End c = Some e ->
     (forall s, c_Start c = Some s -> s <= t) -> e <= t) /\
  NormalizeCueEnds out fallbackEnd = out.
Proof.
  intros out. split; [apply core_NormalizeCueEnds|]. unfold out, NormalizeCueEnds at 1 2 3 4 5. change (fun c => negb (bool_decide (is_Some (c_End c)))) with unresolved.
  destruct (existsb unresolved _) eqn:E; (split; [|split; [|split; [|apply NormalizeCueEnds_twice]]]).
  - left. by apply Forall_fmap, list.Forall_true.
  - by apply Forall_fmap, list.Forall_true.
  - intros i c d t e Hc _ _ He. rewrite list_lookup_fmap in Hc. destruct (resolve_ends _ _ !! i); [|done]. by injection Hc as <-.
  - right. apply list.Forall_forall. intros c Hc. destruct (decide (is_Some (c_End c))) as [|Hn]; [done|]. exfalso.
    assert (Hx : existsb unresolved (resolve_ends fallbackEnd cues) = true).
    { apply existsb_exists. exists c. split; [by apply list_elem_of_In|]. unfold unresolved. by rewrite bool_decide_eq_false_2. }
    by rewrite E in Hx.
  - apply Forall_lookup. intros i c Hc s e Hs He. rewrite lookup_resolve in Hc. destruct (cues !! i) as [c0|]; [|done]. injection Hc as <-.
    simpl in Hs, He. by eapply clamp_start.
  - intros i c d t e Hc Hd Ht He Hs. rewrite lookup_resolve in Hc, Hd. destruct (cues !! i) as [c0|]; [|done]. injection Hc as <-.
    destruct (cues !! S i) as [d0|]; [|done]. injection Hd as <-. simpl in *. by eapply (clamp_next _ _ (Some d0)).
Qed.

(** ** One agent does not see another *)
Lemma agents_of_spec cues seen id : id ∈ agents_of cues seen <-> id ∉ seen /\ id ∈ c_AgentID <$> cues.
Proof.
  revert seen. induction cues as [|c cues IH]; intros seen; simpl; [set_solver|]. case_bool_decide as Hs.
  - rewrite IH. split; [intros [? ?]; split; [done|by right]|]. intros [Hn [->|Hc]%elem_of_cons]; [done|done].
  - rewrite elem_of_cons, IH, !elem_of_cons. destruct (decide (id = c_AgentID c)) as [->|]; tauto.
Qed.

Lemma agents_of_NoDup cues seen : NoDup (agents_of cues seen).
Proof.
  revert seen. induction cues as [|c cues IH]; intros seen; simpl; [constructor|]. case_bool_decide; [apply IH|]. constructor; [|apply IH].
  rewrite agents_of_spec. set_solver.
Qed.

Lemma core_agents (l k : list Cue) : core <$> l = core <$> k -> c_AgentID <$> l = c_AgentID <$> k.
Proof.
  intros E. assert (Ha : forall m, c_AgentID <$> m = c_AgentID <$> (core <$> m)) by (intros m; by rewrite <- list_fmap_compose). by rewrite Ha, E, <- Ha.
Qed.

(** Putting back a group changes the cues of its agent to the group, and no other. *)
Lemma of_agent_scatter id id' cues out group :
  c_AgentID <$> out = c_AgentID <$> cues -> c_AgentID <$> group = c_AgentID <$> of_agent id cues ->
  of_agent id' (scatter id cues out group) = if String.eqb id id' then group else of_agent id' out.
Proof.
  revert out group. induction cues as [|c cues IH]; intros [|o out] group Ho Hg; try done; simpl in Ho, Hg |- *.
  { destruct group; [|done]. by destruct (String.eqb id id'). }
  apply cons_eq in Ho as [Hc Ho]. destruct (String.eqb_spec (c_AgentID c) id) as [Hid|Hid].
  - destruct group as [|g group]; [done|]. simpl in Hg. apply cons_eq in Hg as [Hgc Hg]. simpl. rewrite (IH out group Ho Hg), Hgc, Hc, Hid.
    by destruct (String.eqb id id').
  - simpl. rewrite (IH out group Ho Hg), Hc. destruct (String.eqb_spec id id') as [<-|]; [by rewrite (proj2 (String.eqb_neq _ _) Hid)|done].
Qed.

Lemma of_agent_regroup cues fb ids out id :
  core <$> out = core <$> cues -> NoDup ids ->
  of_agent id (foldl (regroup cues fb) out ids) = if decide (id ∈ ids) then NormalizeCueEnds (of_agent id cues) fb else of_agent id out.
Proof.
  intros Ho Hnd. revert out Ho. induction Hnd as [|i ids Hi Hnd IH]; intros out Ho; [done|]. simpl foldl.
  assert (Hg : core <$> NormalizeCueEnds (of_agent i cues) fb = core <$> of_agent i cues) by apply core_NormalizeCueEnds.
  rewrite IH by (by apply core_scatter). unfold regroup at 1. rewrite of_agent_scatter by (by apply core_agents).
  destruct (String.eqb_spec i id) as [->|Hne].
  - rewrite (decide_True (P := id ∈ id :: ids)) by (by left). by case_decide.
  - apply decide_ext. rewrite elem_of_cons. naive_solver.
Qed.

Lemma of_agent_all id cs : (forall c, c ∈ cs -> c_AgentID c = id) -> of_agent id cs = cs.
Proof.
  induction cs as [|c cs IH]; [done|]. intros H. simpl. rewrite H by (by left). rewrite String.eqb_refl. f_equal. apply IH. intros d Hd. apply H. by right.
Qed.
Lemma of_agent_none id cs : (forall c, c ∈ cs -> c_AgentID c <> id) -> of_agent id cs = [].
Proof.
  induction cs as [|c cs IH]; [done|]. intros H. simpl. rewrite (proj2 (String.eqb_neq _ _)) by (apply H; by left). apply IH. intros d Hd. apply H. by right.
Qed.

(** C39: the ends of the cues of a line are resolved for each agent as if its cues were
    alone: the cues of an agent in the result are its cues resolved by themselves, and
    every cue stays in its place. *)
Theorem agents_resolved_apart cues fallbackEnd id :
  of_agent id (normalizeCueEndsByAgent cues fallbackEnd) = NormalizeCueEnds (of_agent id cues) fallbackEnd /\
  set_End None <$> normalizeCueEndsByAgent cues fallbackEnd = set_End None <$> cues.
Proof.
  split; [|apply core_byAgent]. unfold normalizeCueEndsByAgent. destruct (Nat.leb_spec (length (agents_of cues [])) 1) as [Hl|_].
  - pose proof (core_agents _ _ (core_NormalizeCueEnds cues fallbackEnd)) as Ha.
    assert (Hone : forall c d, c ∈ cues -> d ∈ cues -> c_AgentID c = c_AgentID d).
    { assert (Hin : forall c, c ∈ cues -> c_AgentID c ∈ agents_of cues []) by (intros c Hc; apply agents_of_spec; split; [set_solver|by apply list_elem_of_fmap_2]).
      intros c d Hc%Hin Hd%Hin. destruct (agents_of cues []) as [|a [|b l]]; simpl in Hl; [set_solver|set_solver|lia]. }
    assert (Hout : forall c, c ∈ NormalizeCueEnds cues fallbackEnd -> exists d, d ∈ cues /\ c_AgentID c = c_AgentID d).
    { intros c Hc. assert (Hx : c_AgentID c ∈ c_AgentID <$> cues) by (rewrite <- Ha; by apply list_elem_of_fmap_2).
      apply list_elem_of_fmap in Hx as (d & ? & ?). eauto. }
    destruct (decide (id ∈ c_AgentID <$> cues)) as [Hid|Hid].
    + apply list_elem_of_fmap in Hid as (d & -> & Hd). rewrite (of_agent_all _ cues) by (intros c Hc; by apply Hone). apply of_agent_all.
      intros c (d' & Hd' & ->)%Hout. by apply Hone.
    + assert (Hn : forall c, c ∈ cues -> c_AgentID c <> id) by (intros c Hc <-; apply Hid; by apply list_elem_of_fmap_2).
      rewrite (of_agent_none _ cues Hn). rewrite of_agent_none; [done|]. intros c (d & Hd & ->)%Hout. by apply Hn.
  - change (foldl _ cues (agents_of cues [])) with (foldl (regroup cues fallbackEnd) cues (agents_of cues [])).
    rewrite of_agent_regroup by (done || apply agents_of_NoDup). case_decide as Hd; [done|].
    rewrite of_agent_none; [done|]. intros c Hc <-. apply Hd, agents_of_spec. split; [set_solver|by apply list_elem_of_fmap_2].
Qed.

(** ** Lines written with their times *)
Definition dig (n : Z) : ascii := ascii_of_nat (48 + Z.to_nat n).
Definition show2 (n : Z) : string := String (dig (n / 10)) (String (dig (n mod 10)) "").
Definition show3 (n : Z) : string := String (dig (n / 100)) (show2 (n mod 100)).
Definition show_time (t : Z) : string :=
  "[" +:+ show2 (t / 3600000) +:+ ":" +:+ show2 (t / 60000 mod 60) +:+ ":" +:+ show2 (t / 1000 mod 60) +:+ "." +:+ show3 (t mod 1000) +:+ "]".
Definition show_line (l : Z * string) : string := show_time l.1 +:+ l.2.
Definition show_lrc (ls : list (Z * string)) : string := Join (show_line <$> ls) newline.

Fixpoint lacks (c : ascii) (s : string) : bool := match s with "" => true | String d s => negb (Ascii.eqb d c) && lacks c s end.

(** Text that is read as it is: trimmed, of one line, and without brackets that open a
    marker or a tag. *)
Definition plain (s : string) : Prop := Trim s = s /\ lacks LF s = true /\ lacks "[" s = true /\ lacks "<" s = true.
Definition lyric_time (t : Z) : Prop := 0 <= t < 360000000.

Lemma lacks_app c a b : lacks c (a +:+ b) = lacks c a && lacks c b.
Proof. induction a as [|d a IH]; [done|]. rewrite string_app_cons. simpl. by rewrite IH, andb_assoc. Qed.

Lemma dig_digit n : 0 <= n < 10 -> digit (dig n) = Some n.
Proof.
  intros Hn. unfold digit, dig. rewrite nat_ascii_embedding by lia. destruct (_ && _) eqn:E; [f_equal; lia|]. exfalso.
  apply andb_false_iff in E as [E|E]; apply Z.leb_gt in E; lia.
Qed.

Lemma dig_lacks n c : 0 <= n < 10 -> digit c = None -> Ascii.eqb (dig n) c = false.
Proof. intros Hn Hc. apply Ascii.eqb_neq. intros <-. by rewrite dig_digit in Hc. Qed.

Lemma some_digits_show2 n r : 0 <= n < 100 -> some_digits 2 (show2 n +:+ r) = Some (show2 n, r).
Proof.
  intros Hn. unfold show2. rewrite !string_app_cons, string_app_nil_l. unfold some_digits. cbn [digits].
  rewrite !dig_digit by (Z.to_euclidean_division_equations; lia). by destruct r.
Qed.

Lemma some_digits_show3 n r : 0 <= n < 1000 -> some_digits 3 (show3 n +:+ r) = Some (show3 n, r).
Proof.
  intros Hn. unfold show3, show2. rewrite !string_app_cons, string_app_nil_l. unfold some_digits. cbn [digits].
  rewrite !dig_digit by (Z.to_euclidean_division_equations; lia). by destruct r.
Qed.

Lemma num_show2 n : 0 <= n < 100 -> num (show2 n) = n.
Proof.
  intros Hn. unfold num, show2. cbn [digits_value]. rewrite !dig_digit by (Z.to_euclidean_division_equations; lia). simpl.
  Z.to_euclidean_division_equations; lia.
Qed.
Lemma num_show3 n : 0 <= n < 1000 -> num (show3 n) = n.
Proof.
  intros Hn. unfold num, show3, show2. cbn [digits_value]. rewrite !dig_digit by (Z.to_euclidean_division_equations; lia). cbn [default from_option id].
  Z.to_euclidean_division_equations; lia.
Qed.

Lemma lit_app c r : lit c (String c "" +:+ r) = Some r.
Proof. rewrite string_app_cons, string_app_nil_l. simpl. by rewrite Ascii.eqb_refl. Qed.

(** The time of a written marker is read back. *)
Lemma time_at_show t r : lyric_time t -> exists m, time_at "[" "]" (show_time t +:+ r) = Some (m, r) /\ parseTime m = t.
Proof.
  intros Ht. unfold lyric_time in Ht. unfold show_time. rewrite !string_app_assoc. unfold time_at. rewrite lit_app. cbn [mbind option_bind].
  rewrite some_digits_show2 by (Z.to_euclidean_division_equations; lia). cbn [mbind option_bind]. rewrite lit_app. cbn [mbind option_bind].
  rewrite some_digits_show2 by (Z.to_euclidean_division_equations; lia). cbn [mbind option_bind]. rewrite lit_app. cbn [mbind option_bind].
  rewrite some_digits_show2 by (Z.to_euclidean_division_equations; lia). cbn [mbind option_bind]. unfold fraction. rewrite lit_app. cbn [mbind option_bind].
  rewrite some_digits_show3 by (Z.to_euclidean_division_equations; lia). cbn [mbind option_bind]. rewrite lit_app. cbn [mbind option_bind].
  eexists. split; [reflexivity|]. unfold parseTime. cbn [mk_hours mk_minutes mk_seconds mk_fraction].
  rewrite !num_show2 by (Z.to_euclidean_division_equations; lia). rewrite num_show3 by (Z.to_euclidean_division_equations; lia).
  change (String.length (show3 (t mod 1000))) with 3%nat. cbn [Nat.eqb].
  Z.to_euclidean_division_equations; lia.
Qed.

Lemma show2_lacks n c : 0 <= n < 100 -> digit c = None -> lacks c (show2 n) = true.
Proof. intros Hn Hc. unfold show2. cbn [lacks]. rewrite !dig_lacks by (first [exact Hc|Z.to_euclidean_division_equations; lia]). reflexivity. Qed.
Lemma show3_lacks n c : 0 <= n < 1000 -> digit c = None -> lacks c (show3 n) = true.
Proof.
  intros Hn Hc. unfold show3. cbn [lacks]. rewrite dig_lacks by (first [exact Hc|Z.to_euclidean_division_equations; lia]). apply show2_lacks; [|exact Hc].
  Z.to_euclidean_division_equations; lia.
Qed.

(** A line begins with a bracket and a digit, and has no other bracket that opens. *)
Lemma show_line_head t x :
  lyric_time t -> lacks "[" x = true ->
  exists d r, show_line (t, x) = String "[" (String d r) /\ is_Some (digit d) /\ lacks "[" (String d r) = true.
Proof.
  intros Ht Hx. unfold lyric_time in Ht. eexists _, _. split; [|split].
  - unfold show_line, show_time, show2 at 1. cbn [fst snd]. rewrite !string_app_assoc, !string_app_cons, !string_app_nil_l. reflexivity.
  - rewrite dig_digit by (Z.to_euclidean_division_equations; lia). by eexists.
  - repeat first [rewrite lacks_app|progress cbn [lacks]]. rewrite !dig_lacks by (first [reflexivity|Z.to_euclidean_division_equations; lia]).
    rewrite !show2_lacks, show3_lacks by (first [reflexivity|Z.to_euclidean_division_equations; lia]). by rewrite Hx.
Qed.

Lemma lacks_time c t x : lyric_time t -> digit c = None -> lacks c "[:.]" = true -> lacks c (show_line (t, x)) = lacks c x.
Proof.
  intros Ht Hc Hl. unfold lyric_time in Ht. unfold show_line, show_time. cbn [fst snd]. rewrite !lacks_app.
  rewrite !show2_lacks, show3_lacks by (first [exact Hc|Z.to_euclidean_division_equations; lia]). cbn [lacks] in *.
  destruct (Ascii.eqb "[" c), (Ascii.eqb ":" c), (Ascii.eqb "." c), (Ascii.eqb "]" c); done.
Qed.

(** *** Trimming such a line *)
Lemma len_nonneg s : 0 <= len s.
Proof. unfold len. lia. Qed.

Lemma suffix_eq x s : s = x +:+ s -> x = "".
Proof. intros E. apply (f_equal String.length) in E. rewrite string_length_app in E. destruct x; [done|simpl in E; lia]. Qed.

Lemma Trim_fixed s : Trim s = s -> TrimLeftSpace s = s /\ TrimRightSpace s = s.
Proof.
  intros E. destruct (TrimLeftSpace_suffix s) as [x Hx]. destruct (TrimRightSpace_prefix (TrimLeftSpace s)) as [y Hy].
  change (TrimRightSpace (TrimLeftSpace s)) with (Trim s) in Hy. rewrite E in Hy. rewrite Hy, <- string_app_assoc in Hx.
  assert (Hx0 : x = "").
  { apply (f_equal String.length) in Hx. rewrite !string_length_app in Hx. destruct x; [done|simpl in Hx; lia]. }
  subst x. rewrite string_app_nil_l in Hx. assert (Hy0 : y = "").
  { apply (f_equal String.length) in Hx. rewrite string_length_app in Hx. destruct y; [done|simpl in Hx; lia]. }
  subst y. rewrite string_app_nil_r in Hy. split; [done|]. unfold Trim in E. by rewrite Hy in E.
Qed.

Lemma app_before_bracket q r u v : q +:+ r = u +:+ String "]" v -> lacks "]" q = true -> exists r', u = q +:+ r'.
Proof.
  revert u. induction q as [|c q IH]; intros u E Hq; [by exists u|]. rewrite string_app_cons in E. simpl in Hq. apply andb_prop in Hq as [Hc Hq].
  destruct u as [|d u]; [rewrite string_app_nil_l in E; injection E as -> _; done|]. rewrite string_app_cons in E. injection E as -> E.
  destruct (IH _ E Hq) as [r' ->]. by exists r'.
Qed.

Lemma spaces_lack_bracket q : q ∈ String.rev <$> space_runes -> lacks "]" q = true /\ q <> "".
Proof.
  intros Hq. assert (Hf : forallb (fun q => lacks "]" q && negb (String.eqb q "")) (String.rev <$> space_runes) = true) by (vm_compute; reflexivity).
  rewrite forallb_forall in Hf. apply list_elem_of_In, Hf, andb_prop in Hq as [H1 H2]. split; [done|]. by destruct (String.eqb_spec q "").
Qed.

(** Nothing is trimmed behind a closing bracket when nothing is by itself. *)
Lemma strip_none_bracket x w :
  TrimRightSpace x = x -> strip_any (String.rev <$> space_runes) (String.rev x +:+ String "]" w) = None.
Proof.
  intros Hx. destruct (strip_any _ _) as [r|] eqn:E; [|done]. exfalso. apply strip_any_Some in E as (q & Hq & E).
  destruct (spaces_lack_bracket q Hq) as [Hl Hne]. destruct (app_before_bracket q r _ _ (eq_sym E) Hl) as [r' Hr].
  unfold TrimRightSpace in Hx. apply (f_equal String.rev) in Hx. rewrite rev_involutive, Hr in Hx.
  assert (Hlen : String.length x = (String.length q + String.length r')%nat) by (rewrite <- rev_length, Hr; apply string_length_app).
  destruct (String.length x) as [|n]; [destruct q; [done|simpl in Hlen; lia]|]. cbn [trim_with] in Hx.
  assert (Hs : strip_any (String.rev <$> space_runes) (q +:+ r') = Some r').
  { destruct (strip_any (String.rev <$> space_runes) q) as [z|] eqn:Ez.
    - pose proof (strip_any_app _ _ _ r' space_prefix_free Ez) as Ha. apply strip_any_Some in Ez as (q2 & Hq2 & E2).
      assert (q = q2) as <- by (eapply (space_prefix_free q q2 "" z); [done|done|by rewrite string_app_nil_r]).
      assert (z = "") as -> by (apply (f_equal String.length) in E2; rewrite string_length_app in E2; destruct z; [done|simpl in E2; lia]). done.
    - exfalso. clear -Hq Ez. revert Hq Ez. generalize (String.rev <$> space_runes) as l. induction l as [|p l IH]; intros Hq Ez; [by apply not_elem_of_nil in Hq|].
      simpl in Ez. destruct (CutPrefix q p) eqn:Ec; [done|]. apply elem_of_cons in Hq as [->|Hq]; [|by apply IH].
      assert (CutPrefix p p = Some "") as Hp by (apply CutPrefix_Some; by rewrite string_app_nil_r). by rewrite Hp in Ec. }
  rewrite Hs in Hx. destruct (trim_with_suffix n (String.rev <$> space_runes) r') as [z Hz]. apply (f_equal String.length) in Hx, Hz.
  rewrite string_length_app in Hx, Hz. assert (0 < String.length q)%nat by (destruct q; [done|simpl; lia]). lia.
Qed.

Lemma trim_with_none fuel seqs s : strip_any seqs s = None -> trim_with fuel seqs s = s.
Proof. intros E. destruct fuel; [done|]. simpl. by rewrite E. Qed.

Lemma Trim_line t x : plain x -> Trim (show_line (t, x)) = show_line (t, x).
Proof.
  intros (Hx & _). destruct (Trim_fixed x Hx) as [_ Hr]. unfold Trim. assert (Hl : TrimLeftSpace (show_line (t, x)) = show_line (t, x)).
  { apply trim_with_none. unfold show_line, show_time. cbn [fst snd]. rewrite !string_app_assoc, string_app_cons. reflexivity. }
  rewrite Hl. unfold TrimRightSpace. rewrite trim_with_none; [apply rev_involutive|].
  unfold show_line, show_time. cbn [fst snd]. rewrite rev_string_app. rewrite !rev_string_app, !string_app_assoc.
  change (String.rev "]") with "]". rewrite string_app_cons. apply strip_none_bracket. exact Hr.
Qed.

(** *** Reading such a line *)
Lemma time_at_none opening closing s : lacks opening s = true -> time_at opening closing s = None.
Proof.
  intros H. unfold time_at. destruct s as [|d s]; [done|]. cbn [lacks] in H. apply andb_prop in H as [H _]. cbn [lit].
  destruct (Ascii.eqb_spec opening d) as [->|]; [by rewrite Ascii.eqb_refl in H|done].
Qed.

Lemma markers_none fuel opening closing s : lacks opening s = true -> markers fuel opening closing s = (s, []).
Proof.
  revert s. induction fuel as [|fuel IH]; intros s H; [done|]. cbn [markers]. rewrite time_at_none by done. destruct s as [|d s]; [done|].
  cbn [lacks] in H. apply andb_prop in H as [_ H]. by rewrite IH.
Qed.

Lemma id_tag_none s : lacks "[" s = true -> id_tag s = None.
Proof.
  induction s as [|d s IH]; [done|]. intros H. cbn [lacks] in H. apply andb_prop in H as [Hd H]. cbn [id_tag]. unfold id_tag_at. cbn [lit].
  rewrite Ascii.eqb_sym. destruct (Ascii.eqb d "["); [done|]. cbn [mbind option_bind]. by apply IH.
Qed.

Lemma parseEnhancedLine_plain x : plain x -> parseEnhancedLine x = (x, []).
Proof. intros (Hx & _ & _ & Hl). unfold parseEnhancedLine, find_all. rewrite markers_none by done. by rewrite Hx. Qed.

Lemma CutPrefix_ne c p d r : Ascii.eqb c d = false -> CutPrefix (String d r) (String c p) = None.
Proof. intros H. cbn [CutPrefix]. by rewrite H. Qed.

(** A bracket and a digit open neither a tag nor a background layer. *)
Lemma no_tag d r :
  is_Some (digit d) -> lacks "[" (String d r) = true ->
  id_tag (String "[" (String d r)) = None /\ bg_tag (String "[" (String d r)) = None /\ unknown_tag (String "[" (String d r)) = false.
Proof.
  intros [v Hd] Hl. assert (Hne : forall c, digit c = None -> Ascii.eqb c d = false) by (intros c Hc; apply Ascii.eqb_neq; intros ->; by rewrite Hc in Hd).
  split_and!.
  - change (id_tag (String "[" (String d r))) with (match id_tag_at (String "[" (String d r)) with Some t => Some t | None => id_tag (String d r) end).
    rewrite id_tag_none by done. unfold id_tag_at. cbn [lit]. rewrite Ascii.eqb_refl. cbn [mbind option_bind].
    assert (Hc : forall name, name ∈ ["ar"; "ti"; "offset"; "lang"] -> CutPrefix (String d r) (name +:+ ":") = None).
    { intros name Hn. apply list_elem_of_In in Hn. simpl in Hn. destruct Hn as [<-|[<-|[<-|[<-|[]]]]];
        [exact (CutPrefix_ne "a" "r:" d r (Hne "a"%char eq_refl))|exact (CutPrefix_ne "t" "i:" d r (Hne "t"%char eq_refl))
        |exact (CutPrefix_ne "o" "ffset:" d r (Hne "o"%char eq_refl))|exact (CutPrefix_ne "l" "ang:" d r (Hne "l"%char eq_refl))]. }
    cbn [omap list_omap]. rewrite !Hc by set_solver. done.
  - unfold bg_tag. cbn [CutPrefix]. rewrite Ascii.eqb_refl. by rewrite Hne.
  - unfold unknown_tag. cbn [lit]. rewrite Ascii.eqb_refl. assert (is_letter d = false) as ->; [|done].
    unfold digit in Hd. destruct (_ && _) eqn:E in Hd; [|done]. unfold is_letter. apply andb_prop in E as [E1 E2]. apply Z.leb_le in E1, E2.
    destruct (Nat.leb_spec 65 (nat_of_ascii d)); [lia|]. destruct (Nat.leb_spec 97 (nat_of_ascii d)); [lia|]. done.
Qed.

Lemma find_all_line t x :
  lyric_time t -> lacks "[" x = true -> exists m, find_all "[" "]" (show_line (t, x)) = ("", [(m, x)]) /\ parseTime m = t.
Proof.
  intros Ht Hx. destruct (time_at_show t x Ht) as (m & Hm & Hp). exists m. split; [|done]. change (show_time t +:+ x) with (show_line (t, x)) in Hm.
  unfold find_all. cbn [markers]. rewrite Hm. by rewrite markers_none.
Qed.

Section roundtrip.
Context `{LE : LyricsEnv}.

(** The state after the lines [done] and a line [t], [x] that is not yet stored. *)
Definition reading (lang : string) (done : list Line) (t : Z) (x : string) : lrc :=
  mkLrc "" "" lang None x true false false [t] [] done.
Definition plain_line (l : Z * string) : Line := mkLine (Some l.1) None l.2 [].

Lemma flush_reading lang done t x : plain x ->
  flushLine (reading lang done t x) = mkLrc "" "" lang None x true false false [] [] (done ++ [plain_line (t, x)]).
Proof. intros Hx. unfold flushLine. cbn [p_prior reading]. by rewrite parseEnhancedLine_plain. Qed.

Lemma parse_shown p t x :
  lyric_time t -> plain x ->
  parse_line true p (show_line (t, x)) =
  begin_line [t] x (if p_valid p then flushLine p else p).
Proof.
  intros Ht Hx. pose proof Hx as (Htr & _ & Hb & _). unfold parse_line. rewrite Trim_line by done.
  destruct (show_line_head t x Ht Hb) as (d & r & E & Hd & Hl). destruct (no_tag d r Hd Hl) as (H1 & H2 & H3).
  destruct (find_all_line t x Ht Hb) as (m & Hf & Hm). rewrite E in *. cbn [String.eqb negb]. rewrite H1, H2, H3, Hf.
  cbn [length Nat.ltb Nat.leb]. rewrite bool_decide_eq_false_2 by done. cbn [orb negb]. rewrite String.eqb_refl. cbn [orb negb].
  cbn [lead_times]. rewrite bool_decide_eq_true_2 by done. cbn [negb andb String.concat fmap list_fmap]. by rewrite Hm, Htr.
Qed.

Lemma parse_all lang done t x rest :
  plain x -> Forall (fun l => lyric_time l.1 /\ plain l.2) rest ->
  exists t' x' done', plain x' /\ foldl (parse_line true) (reading lang done t x) (show_line <$> rest) = reading lang done' t' x' /\
    done' ++ [plain_line (t', x')] = done ++ (plain_line <$> (t, x) :: rest).
Proof.
  intros Hx Hr. revert done t x Hx. induction Hr as [|[t1 x1] rest [Ht1 Hx1] Hr IH]; intros done t x Hx; [by exists t, x, done|].
  cbn [fmap list_fmap foldl]. rewrite parse_shown by done. cbn [p_valid reading]. rewrite flush_reading by done. unfold begin_line. simpl.
  destruct (IH (done ++ [plain_line (t, x)]) t1 x1 Hx1) as (t' & x' & done' & H1 & H2 & H3). exists t', x', done'. split_and!; [done|done|].
  rewrite H3, <- app_assoc. done.
Qed.

Lemma SplitOn_lines ls : ls <> [] -> Forall (fun l => lacks LF l = true) ls -> SplitOn LF (Join ls newline) = ls.
Proof.
  assert (H1 : forall l r, lacks LF l = true -> SplitOn LF (l +:+ String LF r) = l :: SplitOn LF r).
  { induction l as [|c l IH]; intros r Hl; [rewrite string_app_nil_l; cbn [SplitOn]; by rewrite Ascii.eqb_refl|]. rewrite string_app_cons. cbn [lacks] in Hl.
    apply andb_prop in Hl as [Hc Hl]. cbn [SplitOn]. rewrite IH by done. by destruct (Ascii.eqb c LF). }
  assert (H2 : forall l, lacks LF l = true -> SplitOn LF l = [l]).
  { induction l as [|c l IH]; intros Hl; [done|]. cbn [lacks] in Hl. apply andb_prop in Hl as [Hc Hl]. cbn [SplitOn]. rewrite IH by done. by destruct (Ascii.eqb c LF). }
  intros Hne Hf. induction Hf as [|l ls Hl Hf IH]; [done|]. destruct ls as [|k ls]; [by apply H2|].
  change (Join (l :: k :: ls) newline) with (l +:+ String LF "" +:+ Join (k :: ls) newline). rewrite string_app_cons, string_app_nil_l, H1 by done.
  by rewrite IH.
Qed.

Lemma normalize_plain ls : normalizeCueLines (plain_line <$> ls) = plain_line <$> ls.
Proof. induction ls as [|l ls IH]; [done|]. cbn [fmap list_fmap normalizeCueLines]. f_equal. exact IH. Qed.

(** C40: lines of plain text written with their times, to the millisecond, are read
    back: the same lines in the same order, each beginning at its time. *)
Theorem lrc_roundtrip lang ls :
  ls <> [] -> Forall (fun l => lyric_time l.1 /\ plain l.2) ls -> SanitizeText (show_lrc ls) = show_lrc ls ->
  parseLRC lang (show_lrc ls) = mkLyrics "" "" "" lang [] (plain_line <$> ls) None true.
Proof.
  intros Hne Hf Hs. destruct ls as [|[t x] rest]; [done|]. apply list.Forall_cons in Hf as [[Ht Hx] Hr]. simpl in Ht, Hx.
  unfold parseLRC. rewrite Hs. unfold is_synced, show_lrc. rewrite SplitOn_lines; [|discriminate|].
  2: { apply Forall_fmap. apply list.Forall_cons. split; [change (lacks LF (show_line (t, x)) = true); rewrite (lacks_time LF t x Ht eq_refl eq_refl); apply Hx|]. revert Hr. apply Forall_impl.
       intros [t1 x1] [H1 H2]. change (lacks LF (show_line (t1, x1)) = true). rewrite (lacks_time LF t1 x1 H1 eq_refl eq_refl). apply H2. }
  assert (Hsync : existsb (fun l => bool_decide (is_Some (time_at "[" "]" (drop_re_space l)))) (show_line <$> (t, x) :: rest) = true).
  { cbn [fmap list_fmap existsb]. destruct (show_line_head t x Ht ltac:(apply Hx)) as (d & r & E & _). destruct (time_at_show t x Ht) as (m & Hm & _).
    change (show_time t +:+ x) with (show_line (t, x)) in Hm. rewrite E in *. change (drop_re_space (String "[" (String d r))) with (String "[" (String d r)).
    rewrite Hm. by rewrite bool_decide_eq_true_2 by (by eexists). }
  rewrite Hsync. cbn [fmap list_fmap foldl]. rewrite parse_shown by done. cbn [p_valid]. unfold begin_line. cbn [p_artist p_title p_lang p_offset p_repeated p_hasBg p_timestamps p_pendingBg p_lines app].
  destruct (parse_all lang [] t x rest Hx Hr) as (t' & x' & done' & H1 & H2 & H3). unfold reading at 1 in H2. rewrite H2. cbn [p_valid reading]. rewrite flush_reading by done.
  cbn [p_artist p_title p_lang p_offset p_repeated p_hasBg p_lines]. rewrite H3. cbn [app]. by rewrite normalize_plain.
Qed.
End roundtrip.

(** ** Times of SubRip *)
Definition show_srt_time (t : Z) : string :=
  show2 (t / 3600000) +:+ ":" +:+ show2 (t / 60000 mod 60) +:+ ":" +:+ show2 (t / 1000 mod 60) +:+ "," +:+ show3 (t mod 1000).

Lemma strip_none_digit seqs d r :
  is_Some (digit d) -> forallb (fun q => match q with String c _ => negb (bool_decide (is_Some (digit c))) | "" => false end) seqs = true ->
  strip_any seqs (String d r) = None.
Proof.
  intros Hd. induction seqs as [|q seqs IH]; [done|]. intros H. simpl in H. apply andb_prop in H as [Hq H]. cbn [strip_any].
  destruct q as [|c q]; [done|]. rewrite CutPrefix_ne; [by apply IH|]. apply Ascii.eqb_neq. intros ->. by rewrite bool_decide_eq_true_2 in Hq.
Qed.

Lemma rev_show3 n :
  String.rev (show3 n) = String (dig (n mod 100 mod 10)) (String (dig (n mod 100 / 10)) (String (dig (n / 100)) "")).
Proof. reflexivity. Qed.

Lemma Trim_srt t : lyric_time t -> Trim (show_srt_time t) = show_srt_time t.
Proof.
  intros Ht. unfold lyric_time in Ht. unfold Trim. assert (Hl : TrimLeftSpace (show_srt_time t) = show_srt_time t).
  { apply trim_with_none. unfold show_srt_time, show2 at 1. rewrite !string_app_cons. apply strip_none_digit; [|vm_compute; reflexivity].
    rewrite dig_digit by (Z.to_euclidean_division_equations; lia). by eexists. }
  rewrite Hl. unfold TrimRightSpace. rewrite trim_with_none; [apply rev_involutive|]. unfold show_srt_time. rewrite !rev_string_app, !string_app_assoc.
  rewrite rev_show3.
  rewrite !string_app_cons. apply strip_none_digit; [|vm_compute; reflexivity]. rewrite dig_digit by (Z.to_euclidean_division_equations; lia). by eexists.
Qed.

(** A written time is read back. *)
Theorem srt_time_roundtrip t : lyric_time t -> parseSRTTime (show_srt_time t) = Some t.
Proof.
  intros Ht. unfold parseSRTTime. rewrite Trim_srt by done. unfold lyric_time in Ht. unfold show_srt_time, two_digits.
  rewrite some_digits_show2 by (Z.to_euclidean_division_equations; lia). cbn [mbind option_bind]. rewrite lit_app. cbn [mbind option_bind].
  rewrite some_digits_show2 by (Z.to_euclidean_division_equations; lia). cbn [mbind option_bind String.length show2 Nat.eqb]. rewrite lit_app. cbn [mbind option_bind].
  rewrite some_digits_show2 by (Z.to_euclidean_division_equations; lia). cbn [mbind option_bind String.length show2 Nat.eqb]. rewrite lit_app. cbn [mbind option_bind].
  rewrite <- (string_app_nil_r (show3 (t mod 1000))). rewrite some_digits_show3 by (Z.to_euclidean_division_equations; lia). cbn [mbind option_bind String.eqb].
  change (String.length (show3 (t mod 1000))) with 3%nat. cbn [Nat.eqb].
  change (String (dig (t / 60000 mod 60 / 10)) (String (dig ((t / 60000 mod 60) mod 10)) "")) with (show2 (t / 60000 mod 60)).
  rewrite !num_show2, num_show3 by (Z.to_euclidean_division_equations; lia). f_equal. Z.to_euclidean_division_equations; lia.
Qed.

(** ** On small inputs *)
#[local] Instance demo_text : LyricsEnv := {| SanitizeText s := s; sort_lines l := l |}.

Lemma cues_name_their_bytes_witness :
  Forall (fun l => Forall (fun c => c_ByteEnd c < len (l_Value l)) (l_Cue l))
    (ly_Line (parseLRC "xxx" "[00:01.00][00:09]<00:01.00>Some <00:01.50>lyrics ")).
Proof.
  pose proof (cues_name_their_bytes (fun l => Permutation_refl l) "xxx" "[00:01.00][00:09]<00:01.00>Some <00:01.50>lyrics ") as H.
  revert H. apply Forall_impl. intros l [H _]. revert H. apply Forall_impl. intros c (_ & Hc & _). exact Hc.
Defined.

Lemma lrc_roundtrip_witness :
  parseLRC "xxx" (show_lrc [(61500, "Hello"); (3600001, "")]) =
  mkLyrics "" "" "" "xxx" [] (plain_line <$> [(61500, "Hello"); (3600001, "")]) None true.
Proof.
  apply (lrc_roundtrip "xxx" [(61500, "Hello"); (3600001, "")]); [discriminate| |reflexivity].
  assert (Hl : forall t x, (0 <=? t) && (t <? 360000000) = true -> Trim x = x -> lacks LF x && lacks "[" x && lacks "<" x = true ->
    lyric_time t /\ plain x) by (intros t x Ht Hx Hc; unfold lyric_time, plain; split; [lia|]; apply andb_prop in Hc as [[? ?]%andb_prop ?]; done).
  constructor; [|constructor; [|constructor]]; apply Hl; vm_compute; reflexivity.
Defined.

Example show_lrc_example : show_lrc [(61500, "Hello"); (3600001, "")] = "[00:01:01.500]Hello" +:+ newline +:+ "[01:00:00.001]".
Proof. vm_compute. reflexivity. Qed.

(** Cues that do not come in the order of their times: the end of one is its own
    beginning, which is behind the beginning of the next. *)
Example end_overruns_next :
  c_End <$> NormalizeCueEnds [mkCue (Some 10) None "a" 0 0 ""; mkCue (Some 5) None "b" 1 1 ""] (Some 20) = [Some 10; Some 20].
Proof. reflexivity. Qed.
